(* ===== verification/_CoqProject ===== *)
-Q . S2P
Prelude.v
Tokens.v
Reader.v
Lexer.v
LexBuffer.v
LexerFacts.v
LexerWords.v
LexerStream.v
LexerPrint.v
LexerQueue.v
LexerSpec.v
SyntaxFacts.v
SyntaxSpec.v
SyntaxTree.v
ParserState.v
ParserTypes.v
ParserExpr.v
ParserStmt.v
ParserDecl.v
ParserFacts.v
ParserTotal.v
ParserTotalCode.v
ParserTotalDecl.v
ParserSpec.v
Grammar.v
ParserRun.v
GrammarTypes.v
GrammarExpr.v
GrammarStmt.v
GrammarDecl.v
GrammarMembers.v
GrammarUnits.v
GrammarSamples.v
GrammarSpec.v
ParserCases.v
SemVer.v
SemVerSpec.v
Libraries.v
LibrariesFacts.v
LibrariesSpec.v
ByteCode.v
ByteCodeFacts.v
Disassembler.v
ByteCodeSpec.v
Values.v
PrimMath.v
PrimMathSpec.v
Machine.v
Emit.v
MachineFacts.v
EmitFacts.v
MachineSpec.v
Layout.v
LayoutFacts.v
LayoutRun.v
LayoutWalk.v
LayoutShapes.v
LayoutBuild.v
LayoutSpec.v
Heap.v
HeapFacts.v
HeapCounts.v
HeapRelease.v
HeapStore.v
HeapEnd.v
HeapExamples.v
HeapSpec.v
Effects.v
EffectsFacts.v
EffectsSpec.v
Flow.v
FlowVisit.v
SyntaxInd.v
FlowPaths.v
FlowFacts.v
FlowInduction.v
FlowSpec.v
TypeSystem.v
TypeSystemFacts.v
TypeSystemSpec.v
