(* ===== verification/Prelude.v ===== *)
(** * ShardScript: a verification library

    ShardScript is a statically typed language with a compiler to byte code and a
    stack machine that runs it.  A source text passes through the lexical
    analyser (src/ShardScript/src/lexical), the parser (src/parsing), the semantic
    passes (src/semantic), the code generator (src/compilation) and the virtual
    machine (src/runtime); libraries are resolved by version first
    (src/CompilationContext.cpp, src/utilities/SemanticVersion.cpp).  Paths in
    this library are relative to src/ShardScript.  Every file models one part or
    proves about one part; a definition keeps the name of the function it models
    wherever the name is free.

    ** Conventions

    A [wchar_t] is a 32-bit unit kept in [Z] and a [std::wstring] the list of its
    units.  A machine integer is a [Z] in its range; signed overflow, a shift by
    the width or more, the dereference of a null pointer and an access out of
    bounds are the answer [UB], which a theorem either excludes or names.  A C++
    exception is [Throw].  Stateful code is a state monad over a record with the
    fields of the class.  A loop that is not structural takes fuel, and running out
    of it is [None]; for every such loop of the lexical analyser, the parser, the
    version parser, the resolver, the flow analysis, the decoder and the machine's
    straight-line code a theorem says which fuel is enough, so no property is about runs that
    may not end.  The standard library's locale is the class [Locale] with the
    facts about ASCII as [LocaleLaws], and the classic locale as its instance.

    ** From text to tokens

    [Tokens], [Reader], [Lexer] and [LexBuffer] model TokenType.hpp,
    StringStreamReader.cpp, LexicalAnalyzer.cpp and LexicalBuffer.cpp.  [Lexer]
    has one computation per method over the record [LexState]; [LexBuffer] has the
    interface [SourceProvider] with both its implementations.  [LexerFacts] and
    [LexerStream] prove that the analyser moves forward and ends with fuel one
    more than the characters left; [LexerWords] that each token is well formed;
    [LexerStream] also that tokens other than literals are read from the characters of
    their words and located at the first of them; [LexerPrint] that a printed token is lexed back; [LexerQueue] that both
    providers serve a queue of tokens; [LexerSpec] holds the properties.

    ** From tokens to trees

    [SyntaxFacts] models SyntaxFacts.cpp, with [SyntaxSpec] on its tables.
    [SyntaxTree] has the nodes of include/shard/parsing/nodes.  SourceParser.cpp
    is modelled in full by [ParserState] (matching, [Expect], recovery, the
    counters of the depth guards), [ParserTypes], [ParserExpr], [ParserStmt] and
    [ParserDecl]: one definition per function, over a queue of tokens, with the
    diagnostics as a list.  The recursion is tied by one unit of fuel per call.

    [ParserFacts], [ParserTotal], [ParserTotalCode] and [ParserTotalDecl] prove
    termination on every queue of tokens: with the judgement [tot] each function
    is shown to keep the depth counters, only to add diagnostics and not to make
    the tokens heavier, where [>>] weighs two because the parser may split it.  The
    fuel is [fuel_for_tokens]: eight units per weight, because at most seven
    calls follow one another without a token being taken, and [slack] for the
    loops the source bounds by 10000 itself.  [ParserSpec] states it for tokens and
    for texts.

    [Grammar] and [GrammarDecl] state the language independently: a definite
    clause grammar whose expressions have levels of precedence instead of the
    parser's loop.  [ParserRun] has the judgement [par] and the tactics that run
    the parser on known tokens; [GrammarTypes], [GrammarExpr], [GrammarStmt],
    [GrammarMembers] and [GrammarUnits] prove rule by rule that what the grammar
    derives the parser reads.  Put together with termination in [GrammarSpec]: a
    unit of the grammar is parsed to exactly its tree, without diagnostics, with
    nothing left.  The budgets [d] and [k] of the
    grammar are the nesting and the number of operators the parser limits to 64.
    The grammar covers valid programs; what the parser does on others is in
    [ParserCases]: recovery by [Expect], the check of modifiers, the grouping of
    operators, and three inputs it mistreats.

    ** Flow analysis

    FlowAnalyzer.cpp runs over the bound tree.  [Flow] has its state (depths, try
    and scope stacks, diagnostics, effects, call graph) and the operations on it,
    [FlowVisit] the recursion, with the visits of SyntaxVisitor.cpp it inherits.
    What the binder attached to the nodes is the record [Bindings], an argument of
    the model.  [SyntaxInd] is the induction over the tree.  [FlowPaths] is the
    reference: [ends s o] says that some execution of [s] ends in the way [o], with
    conditions, cases and iterations chosen freely.  [FlowFacts] and [FlowInduction]
    prove by one induction that every visit keeps the context, only adds
    diagnostics and returns the state of its statement.  [FlowSpec] shows that an
    accepted body returns on every path, as far as its switches have a default and
    break at the end of a case, and exhibits the bodies that are accepted or
    rejected wrongly.

    [Effects] is the part between methods: summaries, call edges, and the loop that
    carries thrown types and flags from callees to callers.  Its reference
    [escapes] follows an exception along the calls.  [EffectsFacts] proves the loop
    sound, complete and terminating: every pass but the last adds a flag or a type
    to some summary, and [passes_needed] counts them.  [EffectsSpec] states that the
    result is the reference, whatever the order of the call graph, and that the
    warnings are those it implies.

    ** Relations between types

    [TypeSystem] models the questions the semantic passes ask of types: equality,
    interfaces, assignability and display names of SemanticModel.cpp, and the lookup
    of overloads and implementations of TypeSymbol.cpp and its two subclasses, over
    symbols given as an argument.  [TypeSystemFacts] gives each type the term it
    denotes and defines the relation [assignable], in which the interfaces of the
    declaration of a constructed type count; those the code does not find are [lost].  A
    computation [settles] a proposition when its answers are right and, under a
    condition, there is one; the lemmas follow the shape of the code.  Recursion goes
    along the parts of types and along interfaces: fuel over the depth of the types, and
    over the number of interfaces, is enough.  A type built from itself (a delegate that
    takes itself) has no depth, and there the code need not end.  [TypeSystemSpec]
    states what each question decides, and shows where the code loses an interface,
    captures the wrong arguments or does not end.

    ** Libraries

    [SemVer] and [SemVerSpec] model SemanticVersion.cpp: order, parsing against a
    printer, range operators against intervals.  [Libraries] models the resolution
    in CompilationContext.cpp, with Kahn's algorithm; [LibrariesFacts] has its
    invariant and [LibrariesSpec] shows that the load order is topological and
    exists exactly when the dependencies have no cycle.

    ** Byte code and its execution

    [ByteCode] models OperationCode.hpp, ByteCodeEncoder.cpp and
    ByteCodeDecoder.cpp, [Disassembler] the loop of ProgramDisassembler.cpp;
    [ByteCodeSpec] shows that an encoded program is fetched back instruction by
    instruction, that back-patching changes the target alone, and that the decoder
    stays in bounds on any bytes.  [Values] and [PrimMath] model the primitive
    values and PrimitiveMathModule.cpp; [PrimMathSpec] shows the results typed and
    the integers exact where they fit.  [Machine] is one frame of
    VirtualMachine.cpp and [Emit] the part of AbstractEmiter.cpp that writes
    expressions, assignments, declarations, loops and returns; [EmitFacts] has a
    reference evaluator, and [MachineSpec] shows that the code emitted for an
    expression, run on the machine, computes its value, its exception or the overload it
    needs on the declared stack depth, and that a raised exception runs the deferred
    expressions and reaches its handler.  An instruction outside the model ends a step
    with [Beyond]: calls, the heap, [THROW], and a second load of a string literal,
    because the collector may have freed the object of the first.  The evaluator says
    nothing of a binary operator that meets [null]: the machine answers false for every
    one of them, also for equality ([MachineSpec.binary_operator_guards]).

    ** Objects in memory

    [Layout] models where fields are: LayoutGenerator.cpp, which writes offsets
    and sizes into the symbols before execution, TypeShapeCache.cpp, which builds
    shapes during execution, and the alignment rules of TypeLayout.cpp they share.
    A symbol is a [TypeId] in a table, so that recursive types are finite data.
    [LayoutFacts] proves that both computations end, by counting the types not yet
    visited; [LayoutRun] and [LayoutWalk] describe what the layout pass leaves,
    [LayoutShapes] and [LayoutBuild] what the cache builds along the same walk.
    [LayoutSpec] shows that the two agree on the types they both handle, that
    fields are aligned, disjoint and inside their object, that recursive inlining
    is reported, all for tables without arrays, constructed types and enums with values,
    and where the two differ.

    [Heap] models GarbageCollector.cpp and the parts of ObjectInstance.cpp and
    CallStackFrame.cpp that follow references, with the field instructions of the
    virtual machine.  A block is its header with the pointers of its payload; an
    access to a freed block is [UB].  [HeapFacts] proves that releasing ends: each
    nested release first marks a live block, so the number of live blocks bounds
    the depth, and one more is enough fuel.  [HeapCounts] defines the invariant:
    the count of a live block is the number of its occurrences among the pending
    references, which frames hold, and in the other live blocks.  [HeapRelease]
    proves that a release keeps it, [HeapStore] that a field store does,
    [HeapEnd] follows the end of the program and the counts of tasks.
    [HeapSpec] states the properties: releases are safe and exact, heaps without
    cycles are freed, stores keep the counts; and it evaluates, on the heaps of
    [HeapExamples], the operations that break the counts.  Of the premises,
    [sound] says that shapes are those of [Layout] with their pointers inside the
    object, that an object has exactly the type of the slots that point to it, and that
    arrays hold values; [slots_only] that by-value structs in fields hold no references,
    which the collector does not count; [tidy] that every block is referenced.  For each
    of them an example shows the collector go wrong without it.  [spaced] is the disjointness [LayoutSpec.fields_disjoint] proves of laid
    out types.

    ** Not modelled

    The symbol graph and the passes that build and check it (declaration
    collection, name and type binding, validation) are a mutable graph with cycles
    that no model here represents; the flow analysis reads it through [Bindings], the
    relations between types through the argument [types], and the rest of the code
    generator needs the symbols bound.  Of the queries on symbols the lookup of types by
    name, of fields and properties, and the substitution of types, which makes new
    symbols, are left out.  Calls between frames, native callbacks, the event loop and its tasks
    are outside the machine's model, which ends a step with [Beyond] there; its
    values are not yet the blocks of [Heap], where the bytes of numbers and
    characters are left out.
    Console, file and network access, the interactive shell, the language server
    and the bundled libraries are input and output or code of others.

    ** Reading order and plan

    For each part: the model, then its Spec file.  Next in the plan: the remaining
    statements of the code generator and several frames, over an abstract symbol
    table and with the objects of [Heap] as the machine's values; then the symbol
    graph itself. *)
From Stdlib Require Import ZArith Lia Bool List String Ascii.
From stdpp Require Import base list.
Import ListNotations.

Declare Scope shard_scope.
Delimit Scope shard_scope with shard.

(** ** Wide characters and strings

    A [wchar_t] is a 32-bit code unit, kept as its value in [Z]; a
    [std::wstring] is the list of its units.  [L "abc"] is the literal
    [L"abc"] and [ch "a"] the literal ['a']. *)
Abbreviation wchar := Z (only parsing).
Abbreviation wstring := (list Z) (only parsing).

Definition code_of (a : ascii) : Z := Z.of_N (N_of_ascii a).

Definition L (s : string) : wstring := map code_of (list_ascii_of_string s).

Definition ch (s : string) : wchar :=
  match s with
  | String a _ => code_of a
  | EmptyString => 0%Z
  end.

Fixpoint weqb (a b : wstring) : bool :=
  match a, b with
  | [], [] => true
  | x :: a', y :: b' => Z.eqb x y && weqb a' b'
  | _, _ => false
  end.

Lemma weqb_spec a b : reflect (a = b) (weqb a b).
Proof.
  revert b; induction a as [|x a IH]; intros [|y b]; simpl; try (constructor; congruence).
  destruct (Z.eqb_spec x y) as [->|Hne]; simpl; [|constructor; congruence].
  destruct (IH b) as [->|Hne]; constructor; congruence.
Qed.

Lemma weqb_refl a : weqb a a = true.
Proof. destruct (weqb_spec a a); congruence. Qed.

Lemma weqb_eq a b : weqb a b = true <-> a = b.
Proof. destruct (weqb_spec a b); split; congruence. Qed.

Infix "=w" := weqb (at level 70) : shard_scope.

(** ** A state monad with fuel

    [ST S A] is a computation over the state [S]; [None] is reserved for a
    loop that ran out of fuel, which the termination theorems exclude. *)
Definition ST (S A : Type) : Type := S -> option (A * S).

Section StateMonad.
Context {S : Type}.

Definition ret {A} (a : A) : ST S A := fun s => Some (a, s).

Definition bind {A B} (m : ST S A) (k : A -> ST S B) : ST S B :=
  fun s => match m s with
           | Some (a, s') => k a s'
           | None => None
           end.

Definition get : ST S S := fun s => Some (s, s).
Definition modify (f : S -> S) : ST S unit := fun s => Some (tt, f s).
Definition out_of_fuel {A} : ST S A := fun _ => None.

Lemma bind_Some {A B} (m : ST S A) (k : A -> ST S B) s r :
  bind m k s = Some r <-> exists a s', m s = Some (a, s') /\ k a s' = Some r.
Proof.
  unfold bind; destruct (m s) as [[a s']|]; split.
  - eauto.
  - intros (a0 & s0 & [= -> ->] & H); exact H.
  - discriminate.
  - intros (a0 & s0 & H & _); discriminate.
Qed.

Lemma bind_run {A B} (m : ST S A) (k : A -> ST S B) s a s' :
  m s = Some (a, s') -> bind m k s = k a s'.
Proof. intros H; unfold bind; rewrite H; reflexivity. Qed.
End StateMonad.

(** [runs m s P]: started in [s], [m] terminates, and its result and final
    state satisfy [P].  This is the total-correctness judgement every
    stateful operation is specified with. *)
Definition runs {S A} (m : ST S A) (s : S) (P : A -> S -> Prop) : Prop :=
  exists a s', m s = Some (a, s') /\ P a s'.

Section Runs.
Context {S : Type}.

Lemma runs_ret {A} (a : A) (s : S) (P : A -> S -> Prop) : P a s -> runs (ret a) s P.
Proof. intros H; exists a, s; auto. Qed.

Lemma runs_get (s : S) (P : S -> S -> Prop) : P s s -> runs get s P.
Proof. intros H; exists s, s; auto. Qed.

Lemma runs_modify f (s : S) (P : unit -> S -> Prop) : P tt (f s) -> runs (modify f) s P.
Proof. intros H; exists tt, (f s); auto. Qed.

Lemma runs_bind {A B} (m : ST S A) (k : A -> ST S B) (s : S) (P : B -> S -> Prop) :
  runs m s (fun a s' => runs (k a) s' P) -> runs (bind m k) s P.
Proof.
  intros (a & s' & E & b & s'' & E' & H); exists b, s''; split; [|exact H].
  rewrite (bind_run _ _ _ _ _ E); exact E'.
Qed.

Lemma runs_mono {A} (m : ST S A) (s : S) (P Q : A -> S -> Prop) :
  runs m s P -> (forall a s', P a s' -> Q a s') -> runs m s Q.
Proof. intros (a & s' & E & H) HPQ; exists a, s'; auto. Qed.

Lemma runs_Some {A} (m : ST S A) (s : S) (P : A -> S -> Prop) a s' :
  runs m s P -> m s = Some (a, s') -> P a s'.
Proof. intros (a0 & s0 & E & H) E'; congruence. Qed.
End Runs.

(** [runs_step] advances through the primitive steps of a computation,
    [runs_call H] through a call specified by [H]. *)
Ltac runs_step :=
  first [ apply runs_bind | apply runs_ret | apply runs_get | apply runs_modify ].
Ltac runs_steps := repeat (runs_step; cbn beta iota).
Ltac runs_call H := try apply runs_bind; eapply runs_mono; [eapply H|]; cbn beta.

(** [yields m s Q]: whenever [m] started in [s] returns, [Q] holds of its
    result and final state (the partial-correctness companion of [runs]). *)
Definition yields {S A} (m : ST S A) (s : S) (Q : A -> S -> Prop) : Prop :=
  forall a s', m s = Some (a, s') -> Q a s'.

Section Yields.
Context {S : Type}.

Lemma yields_ret {A} (a : A) (s : S) (Q : A -> S -> Prop) : Q a s -> yields (ret a) s Q.
Proof. intros H b s' [= <- <-]; exact H. Qed.

Lemma yields_get (s : S) (Q : S -> S -> Prop) : Q s s -> yields get s Q.
Proof. intros H b s' [= <- <-]; exact H. Qed.

Lemma yields_modify f (s : S) (Q : unit -> S -> Prop) : Q tt (f s) -> yields (modify f) s Q.
Proof. intros H b s' [= <- <-]; exact H. Qed.

Lemma yields_fuel {A} (s : S) (Q : A -> S -> Prop) : yields out_of_fuel s Q.
Proof. intros a s' [=]. Qed.

Lemma yields_bind {A B} (m : ST S A) (k : A -> ST S B) (s : S) (Q : B -> S -> Prop) :
  yields m s (fun a s' => yields (k a) s' Q) -> yields (bind m k) s Q.
Proof.
  intros H b s' E; apply bind_Some in E as (a & s1 & E1 & E2); exact (H a s1 E1 b s' E2).
Qed.

Lemma yields_mono {A} (m : ST S A) (s : S) (P Q : A -> S -> Prop) :
  yields m s P -> (forall a s', P a s' -> Q a s') -> yields m s Q.
Proof. intros H HPQ a s' E; exact (HPQ a s' (H a s' E)). Qed.

Lemma yields_any {A} (m : ST S A) (s : S) (Q : A -> S -> Prop) :
  (forall a s', Q a s') -> yields m s Q.
Proof. intros H a s' _; apply H. Qed.

Lemma runs_yields {A} (m : ST S A) (s : S) (P Q : A -> S -> Prop) :
  runs m s P -> yields m s Q -> runs m s (fun a s' => P a s' /\ Q a s').
Proof. intros (a & s' & E & HP) HQ; exists a, s'; auto. Qed.
End Yields.

Notation "x <- m ;; k" := (bind m (fun x => k))
  (at level 100, m at next level, right associativity) : shard_scope.
Notation "m ;;; k" := (bind m (fun _ => k))
  (at level 100, right associativity) : shard_scope.

(** ** Results with C++ exceptions

    [Throw e] is a thrown [std::runtime_error]/[std::out_of_range] with its
    message; [UB] is an execution to which the C++ standard gives no
    meaning. *)
Inductive result (A : Type) : Type :=
| Ok (a : A)
| Throw (msg : string)
| UB.
Arguments Ok {A} a.
Arguments Throw {A} msg.
Arguments UB {A}.

Definition rbind {A B} (r : result A) (k : A -> result B) : result B :=
  match r with
  | Ok a => k a
  | Throw m => Throw m
  | UB => UB
  end.

Notation "x <-? m ;; k" := (rbind m (fun x => k))
  (at level 100, m at next level, right associativity) : shard_scope.

Lemma rbind_Ok {A B} (r : result A) (k : A -> result B) b :
  rbind r k = Ok b <-> exists a, r = Ok a /\ k a = Ok b.
Proof.
  destruct r; simpl; split; try discriminate; eauto.
  - intros (a0 & [= ->] & H); exact H.
  - intros (a0 & H & _); discriminate.
  - intros (a0 & H & _); discriminate.
Qed.

(** Computations that may throw and that take fuel: [None] is a loop that ran
    out of fuel. *)
Definition fueled (A : Type) : Type := option (result A).

Definition done {A} (a : A) : fueled A := Some (Ok a).
Definition fbind {A B} (m : fueled A) (k : A -> fueled B) : fueled B :=
  match m with
  | Some (Ok a) => k a
  | Some (Throw msg) => Some (Throw msg)
  | Some UB => Some UB
  | None => None
  end.

Notation "x <-! m ;; k" := (fbind m (fun x => k))
  (at level 100, m at next level, right associativity) : shard_scope.

Lemma fbind_done {A B} (m : fueled A) (k : A -> fueled B) b :
  fbind m k = done b <-> exists a, m = done a /\ k a = done b.
Proof.
  unfold done; destruct m as [[a|msg|]|]; simpl; split; try discriminate; eauto.
  - intros (a0 & [= ->] & H); exact H.
  - intros (a0 & H & _); discriminate.
  - intros (a0 & H & _); discriminate.
  - intros (a0 & H & _); discriminate.
Qed.

(** ** Automation *)

(** [case_if] splits on the first boolean test in the goal or a hypothesis. *)
Ltac case_if :=
  match goal with
  | |- context [if ?b then _ else _] =>
      lazymatch b with
      | context [if _ then _ else _] => fail
      | _ => let E := fresh "E" in destruct b eqn:E
      end
  | _ : context [if ?b then _ else _] |- _ =>
      lazymatch b with
      | context [if _ then _ else _] => fail
      | _ => let E := fresh "E" in destruct b eqn:E
      end
  end.

(** [zbool] turns boolean tests on [Z] into propositions. *)
Ltac zbool :=
  repeat match goal with
  | H : (_ && _)%bool = true |- _ => apply andb_true_iff in H; destruct H
  | H : (_ || _)%bool = false |- _ => apply orb_false_iff in H; destruct H
  | H : negb _ = true |- _ => apply negb_true_iff in H
  | H : negb _ = false |- _ => apply negb_false_iff in H
  | H : (_ =? _)%Z = true |- _ => apply Z.eqb_eq in H
  | H : (_ =? _)%Z = false |- _ => apply Z.eqb_neq in H
  | H : (_ <? _)%Z = true |- _ => apply Z.ltb_lt in H
  | H : (_ <? _)%Z = false |- _ => apply Z.ltb_ge in H
  | H : (_ <=? _)%Z = true |- _ => apply Z.leb_le in H
  | H : (_ <=? _)%Z = false |- _ => apply Z.leb_gt in H
  | H : weqb _ _ = true |- _ => apply weqb_eq in H
  end.

(** [destr_match] destructs the scrutinee of a match in the goal, keeping an
    equation. *)
Ltac destr_match :=
  match goal with
  | |- context [match ?x with _ => _ end] =>
      lazymatch x with
      | context [match _ with _ => _ end] => fail
      | _ => let E := fresh "E" in destruct x eqn:E
      end
  end.

Create HintDb shard discriminated.
