(* ===== verification/Tokens.v ===== *)
(** * Tokens

    The enumeration [TokenType] (include/shard/lexical/TokenType.hpp), the
    source locations and the tokens the lexer hands to the parser
    (include/shard/analysis/TextLocation.hpp,
    include/shard/parsing/SyntaxToken.hpp).  [SyntaxToken::Index], a process
    wide construction counter that only a diagnostic dump prints, is not
    kept. *)
From Stdlib Require Import ZArith Bool List String.
From stdpp Require Import base list countable.
From S2P Require Import Prelude.
Import ListNotations.

Module TokenType.
Inductive t : Type :=
| Unknown | EndOfFile | Trivia | NewKeyword | Identifier | AssignOperator
| DeclareAssignOperator | ArrowOperator | LambdaOperator
| NullCoalescingOperator | RangeOperator | RangeInclusiveOperator
| AddOperator | SubOperator | MultOperator | DivOperator | ModOperator
| PowOperator | AddAssignOperator | SubAssignOperator | MultAssignOperator
| DivAssignOperator | ModAssignOperator | PowAssignOperator
| IncrementOperator | DecrementOperator | OrOperator | AndOperator
| RightShiftOperator | LeftShiftOperator | OrAssignOperator
| AndAssignOperator | EqualsOperator | NotEqualsOperator | GreaterOperator
| GreaterOrEqualsOperator | LessOperator | LessOrEqualsOperator | IsOperator
| AsOperator | NotOperator | NullLiteral | CharLiteral | StringLiteral
| BooleanLiteral | NumberLiteral | DoubleLiteral | NativeLiteral
| ByteLiteral | Colon | Semicolon | OpenBrace | CloseBrace | OpenCurl
| CloseCurl | OpenSquare | CloseSquare | Delimeter | Comma | Question
| PublicKeyword | PrivateKeyword | ProtectedKeyword | InternalKeyword
| StaticKeyword | AsyncKeyword | ExternKeyword | ExportKeyword | GetKeyword
| SetKeyword | FieldKeyword | IndexerKeyword | VoidKeyword | VarKeyword
| IntegerKeyword | DoubleKeyword | ShortKeyword | LongKeyword | ByteKeyword
| NativeIntegerKeyword | CharKeyword | StringKeyword | BooleanKeyword
| DelegateKeyword | LambdaKeyword | UsingKeyword | FromKeyword
| ImportKeyword | ConstKeyword | ValueKeyword | MethodKeyword | ClassKeyword
| StructKeyword | InterfaceKeyword | NamespaceKeyword | FunctionKeyword
| InitKeyword | OperatorKeyword | EnumKeyword | ForKeyword | WhileKeyword
| UntilKeyword | DoKeyword | ForeachKeyword | InKeyword | IfKeyword
| UnlessKeyword | ElseKeyword | SwitchKeyword | CaseKeyword | DefaultKeyword
| ReturnKeyword | ThrowKeyword | BreakKeyword | ContinueKeyword | TryKeyword
| CatchKeyword | DeferKeyword | WhereKeyword | AwaitKeyword | FakeSemicolon.

(** The enumerators in declaration order. *)
Definition all : list t :=
  [Unknown; EndOfFile; Trivia; NewKeyword; Identifier; AssignOperator;
  DeclareAssignOperator; ArrowOperator; LambdaOperator;
  NullCoalescingOperator; RangeOperator; RangeInclusiveOperator;
  AddOperator; SubOperator; MultOperator; DivOperator; ModOperator;
  PowOperator; AddAssignOperator; SubAssignOperator; MultAssignOperator;
  DivAssignOperator; ModAssignOperator; PowAssignOperator;
  IncrementOperator; DecrementOperator; OrOperator; AndOperator;
  RightShiftOperator; LeftShiftOperator; OrAssignOperator;
  AndAssignOperator; EqualsOperator; NotEqualsOperator; GreaterOperator;
  GreaterOrEqualsOperator; LessOperator; LessOrEqualsOperator; IsOperator;
  AsOperator; NotOperator; NullLiteral; CharLiteral; StringLiteral;
  BooleanLiteral; NumberLiteral; DoubleLiteral; NativeLiteral; ByteLiteral;
  Colon; Semicolon; OpenBrace; CloseBrace; OpenCurl; CloseCurl; OpenSquare;
  CloseSquare; Delimeter; Comma; Question; PublicKeyword; PrivateKeyword;
  ProtectedKeyword; InternalKeyword; StaticKeyword; AsyncKeyword;
  ExternKeyword; ExportKeyword; GetKeyword; SetKeyword; FieldKeyword;
  IndexerKeyword; VoidKeyword; VarKeyword; IntegerKeyword; DoubleKeyword;
  ShortKeyword; LongKeyword; ByteKeyword; NativeIntegerKeyword; CharKeyword;
  StringKeyword; BooleanKeyword; DelegateKeyword; LambdaKeyword;
  UsingKeyword; FromKeyword; ImportKeyword; ConstKeyword; ValueKeyword;
  MethodKeyword; ClassKeyword; StructKeyword; InterfaceKeyword;
  NamespaceKeyword; FunctionKeyword; InitKeyword; OperatorKeyword;
  EnumKeyword; ForKeyword; WhileKeyword; UntilKeyword; DoKeyword;
  ForeachKeyword; InKeyword; IfKeyword; UnlessKeyword; ElseKeyword;
  SwitchKeyword; CaseKeyword; DefaultKeyword; ReturnKeyword; ThrowKeyword;
  BreakKeyword; ContinueKeyword; TryKeyword; CatchKeyword; DeferKeyword;
  WhereKeyword; AwaitKeyword; FakeSemicolon].

(** The underlying value of an enumerator. *)
Definition value (x : t) : nat :=
  match x with
  | Unknown => 0
  | EndOfFile => 1
  | Trivia => 2
  | NewKeyword => 3
  | Identifier => 4
  | AssignOperator => 5
  | DeclareAssignOperator => 6
  | ArrowOperator => 7
  | LambdaOperator => 8
  | NullCoalescingOperator => 9
  | RangeOperator => 10
  | RangeInclusiveOperator => 11
  | AddOperator => 12
  | SubOperator => 13
  | MultOperator => 14
  | DivOperator => 15
  | ModOperator => 16
  | PowOperator => 17
  | AddAssignOperator => 18
  | SubAssignOperator => 19
  | MultAssignOperator => 20
  | DivAssignOperator => 21
  | ModAssignOperator => 22
  | PowAssignOperator => 23
  | IncrementOperator => 24
  | DecrementOperator => 25
  | OrOperator => 26
  | AndOperator => 27
  | RightShiftOperator => 28
  | LeftShiftOperator => 29
  | OrAssignOperator => 30
  | AndAssignOperator => 31
  | EqualsOperator => 32
  | NotEqualsOperator => 33
  | GreaterOperator => 34
  | GreaterOrEqualsOperator => 35
  | LessOperator => 36
  | LessOrEqualsOperator => 37
  | IsOperator => 38
  | AsOperator => 39
  | NotOperator => 40
  | NullLiteral => 41
  | CharLiteral => 42
  | StringLiteral => 43
  | BooleanLiteral => 44
  | NumberLiteral => 45
  | DoubleLiteral => 46
  | NativeLiteral => 47
  | ByteLiteral => 48
  | Colon => 49
  | Semicolon => 50
  | OpenBrace => 51
  | CloseBrace => 52
  | OpenCurl => 53
  | CloseCurl => 54
  | OpenSquare => 55
  | CloseSquare => 56
  | Delimeter => 57
  | Comma => 58
  | Question => 59
  | PublicKeyword => 60
  | PrivateKeyword => 61
  | ProtectedKeyword => 62
  | InternalKeyword => 63
  | StaticKeyword => 64
  | AsyncKeyword => 65
  | ExternKeyword => 66
  | ExportKeyword => 67
  | GetKeyword => 68
  | SetKeyword => 69
  | FieldKeyword => 70
  | IndexerKeyword => 71
  | VoidKeyword => 72
  | VarKeyword => 73
  | IntegerKeyword => 74
  | DoubleKeyword => 75
  | ShortKeyword => 76
  | LongKeyword => 77
  | ByteKeyword => 78
  | NativeIntegerKeyword => 79
  | CharKeyword => 80
  | StringKeyword => 81
  | BooleanKeyword => 82
  | DelegateKeyword => 83
  | LambdaKeyword => 84
  | UsingKeyword => 85
  | FromKeyword => 86
  | ImportKeyword => 87
  | ConstKeyword => 88
  | ValueKeyword => 89
  | MethodKeyword => 90
  | ClassKeyword => 91
  | StructKeyword => 92
  | InterfaceKeyword => 93
  | NamespaceKeyword => 94
  | FunctionKeyword => 95
  | InitKeyword => 96
  | OperatorKeyword => 97
  | EnumKeyword => 98
  | ForKeyword => 99
  | WhileKeyword => 100
  | UntilKeyword => 101
  | DoKeyword => 102
  | ForeachKeyword => 103
  | InKeyword => 104
  | IfKeyword => 105
  | UnlessKeyword => 106
  | ElseKeyword => 107
  | SwitchKeyword => 108
  | CaseKeyword => 109
  | DefaultKeyword => 110
  | ReturnKeyword => 111
  | ThrowKeyword => 112
  | BreakKeyword => 113
  | ContinueKeyword => 114
  | TryKeyword => 115
  | CatchKeyword => 116
  | DeferKeyword => 117
  | WhereKeyword => 118
  | AwaitKeyword => 119
  | FakeSemicolon => 120
  end.

Lemma all_value x : nth_error all (value x) = Some x.
Proof. destruct x; reflexivity. Qed.

(** [operator==] on the enumeration. *)
Definition eqb (a b : t) : bool := Nat.eqb (value a) (value b).

Lemma value_inj a b : value a = value b -> a = b.
Proof.
  intros H; apply (f_equal (nth_error all)) in H.
  rewrite !all_value in H; congruence.
Qed.

Lemma eqb_spec a b : reflect (a = b) (eqb a b).
Proof.
  unfold eqb; destruct (Nat.eqb_spec (value a) (value b)) as [H|H]; constructor.
  - apply value_inj, H.
  - congruence.
Qed.

#[export] Instance eq_decision : EqDecision t.
Proof.
  intros a b; destruct (eqb a b) eqn:E.
  - left; destruct (eqb_spec a b); congruence.
  - right; destruct (eqb_spec a b); congruence.
Defined.
End TokenType.

Abbreviation TokenType := TokenType.t.
Infix "=tt" := TokenType.eqb (at level 70) : shard_scope.

(** [shard::TextLocation] *)
Record TextLocation := mkLocation {
  FileName : wstring;
  LocLine : Z;
  LocOffset : Z;
  LocLength : Z
}.

Definition empty_location : TextLocation := mkLocation [] 0 0 0.

(** [shard::SyntaxToken] *)
Record SyntaxToken := mkToken {
  IsMissing : bool;
  Type_ : TokenType;
  Word : wstring;
  Location : TextLocation
}.

(** [SyntaxToken()] *)
Definition default_token : SyntaxToken :=
  mkToken true TokenType.Unknown [] empty_location.

(** [SyntaxToken(type, word, location)] *)
Definition token (type : TokenType) (word : wstring) (loc : TextLocation) : SyntaxToken :=
  mkToken false type word loc.

(** [SyntaxToken(TokenType::EndOfFile, L"", TextLocation())] *)
Definition eof_token : SyntaxToken := token TokenType.EndOfFile [] empty_location.

Definition is_eof (t : SyntaxToken) : bool := TokenType.eqb (Type_ t) TokenType.EndOfFile.

Lemma is_eof_eof : is_eof eof_token = true.
Proof. reflexivity. Qed.
