(* ===== verification/Reader.v ===== *)
(** * Source readers

    [StringStreamReader] (src/lexical/StringStreamReader.cpp): the
    [SourceTextProvider] the lexer reads wide characters from.  The
    [std::wstringstream] is the list of the characters not read yet.  The
    character classes of the C++ locale are an interface with the documented
    facts about ASCII as laws, and the classic locale as an instance. *)
From Stdlib Require Import ZArith Lia Bool List String.
From stdpp Require Import base list.
From S2P Require Import Prelude.
Import ListNotations.
Open Scope Z_scope.

(** ** Character classes *)

(** [std::iswspace] and [std::iswalnum] of the imbued locale. *)
Class Locale := {
  iswspace : wchar -> bool;
  iswalnum : wchar -> bool
}.

Definition is_ascii (c : wchar) : bool := (0 <=? c) && (c <? 128).
Definition is_digit (c : wchar) : bool := (48 <=? c) && (c <=? 57).
Definition is_alpha (c : wchar) : bool :=
  ((65 <=? c) && (c <=? 90)) || ((97 <=? c) && (c <=? 122)).

Definition ascii_space (c : wchar) : bool := ((9 <=? c) && (c <=? 13)) || (c =? 32).
Definition ascii_alnum (c : wchar) : bool := is_digit c || is_alpha c.

(** What every locale agrees on: the classification of ASCII. *)
Class LocaleLaws `{Locale} : Prop := {
  iswspace_ascii : forall c, is_ascii c = true -> iswspace c = ascii_space c;
  iswalnum_ascii : forall c, is_ascii c = true -> iswalnum c = ascii_alnum c
}.

(** The classic "C" locale classifies nothing outside ASCII. *)
Definition classic : Locale := {|
  iswspace c := is_ascii c && ascii_space c;
  iswalnum c := is_ascii c && ascii_alnum c
|}.

Lemma classic_laws : @LocaleLaws classic.
Proof. constructor; intros c Hc; simpl; rewrite Hc; reflexivity. Qed.

(** ** The string reader *)

(** [WEOF] converted to [wchar_t]. *)
Definition WEOF : wchar := -1.

Record Reader := mkReader {
  GetName : wstring;
  stream : list wchar
}.

(** [StringStreamReader::ReadNext]: the character is written only when the
    call returns [true]. *)
Definition ReadNext (r : Reader) : option wchar * Reader :=
  match stream r with
  | [] => (None, r)
  | c :: rest => if c =? WEOF then (None, r) else (Some c, mkReader (GetName r) rest)
  end.

(** [StringStreamReader::PeekNext]: the character is always written. *)
Definition PeekNext (r : Reader) : bool * wchar :=
  match stream r with
  | [] => (false, WEOF)
  | c :: _ => (negb (c =? WEOF), c)
  end.

(** ** Lemmas *)

(** A successful peek announces exactly the character the next read
    returns. *)
Lemma PeekNext_ReadNext r c :
  PeekNext r = (true, c) ->
  exists rest, stream r = c :: rest /\ ReadNext r = (Some c, mkReader (GetName r) rest).
Proof.
  unfold PeekNext, ReadNext; destruct (stream r) as [|x rest]; [discriminate|].
  destruct (x =? WEOF); intros [= <-]; eauto.
Qed.

Lemma PeekNext_cons n c rest :
  c <> WEOF -> PeekNext (mkReader n (c :: rest)) = (true, c).
Proof.
  intros H; unfold PeekNext; simpl; destruct (Z.eqb_spec c WEOF); [contradiction|reflexivity].
Qed.

Lemma ReadNext_Some r c r' :
  ReadNext r = (Some c, r') ->
  stream r = c :: stream r' /\ GetName r' = GetName r /\ c <> WEOF.
Proof.
  unfold ReadNext; destruct (stream r) as [|x rest]; [discriminate|].
  destruct (Z.eqb_spec x WEOF); intros [= <- <-]; auto.
Qed.

Lemma ReadNext_None r r' : ReadNext r = (None, r') -> r' = r.
Proof.
  unfold ReadNext; destruct (stream r) as [|x rest]; [congruence|].
  destruct (x =? WEOF); congruence.
Qed.
