(* ===== verification/Lexer.v ===== *)
(** * The lexical analyser

    [LexicalAnalyzer] (src/lexical/LexicalAnalyzer.cpp): the record
    [LexState] holds its fields; every method is a computation in the state
    monad over it.  A [bool] method with [word]/[type] out-parameters returns
    [None] for [false] and [Some (word, type)] for [true].  Loops take fuel:
    one more than the characters left to read, which LexerFacts.v proves is
    enough. *)
From Stdlib Require Import ZArith Lia Bool List String.
From stdpp Require Import base list.
From S2P Require Import Prelude Tokens Reader.
Import ListNotations.
Open Scope Z_scope.
Open Scope shard_scope.

(** Control and quote characters of the source's literals. *)
Definition LF : wchar := 10.
Definition TAB : wchar := 9.
Definition CR : wchar := 13.
Definition DQUOTE : wchar := 34.
Definition SQUOTE : wchar := 39.
Definition BACKSLASH : wchar := 92.

Module LexicalAnalyzer.
(** ** State *)
Record LexState := mkState {
  SourceText : Reader;
  Line : Z;
  Offset : Z;
  Symbol : wchar;
  PeekSymbol : wchar;
  HasPutbackSymbol : bool;
  PutbackSymbol : wchar;
  ReadBuffer : list SyntaxToken
}.

Definition set_SourceText r s := mkState r (Line s) (Offset s) (Symbol s)
  (PeekSymbol s) (HasPutbackSymbol s) (PutbackSymbol s) (ReadBuffer s).
Definition set_position l o s := mkState (SourceText s) l o (Symbol s)
  (PeekSymbol s) (HasPutbackSymbol s) (PutbackSymbol s) (ReadBuffer s).
Definition set_Symbol c s := mkState (SourceText s) (Line s) (Offset s) c
  (PeekSymbol s) (HasPutbackSymbol s) (PutbackSymbol s) (ReadBuffer s).
Definition set_PeekSymbol c s := mkState (SourceText s) (Line s) (Offset s) (Symbol s)
  c (HasPutbackSymbol s) (PutbackSymbol s) (ReadBuffer s).
Definition set_Putback h c s := mkState (SourceText s) (Line s) (Offset s) (Symbol s)
  (PeekSymbol s) h c (ReadBuffer s).
Definition set_ReadBuffer b s := mkState (SourceText s) (Line s) (Offset s) (Symbol s)
  (PeekSymbol s) (HasPutbackSymbol s) (PutbackSymbol s) b.

(** [LexicalAnalyzer(SourceTextProvider&)] *)
Definition init (source : Reader) : LexState :=
  mkState source 1 0 (-1) (-1) false 0 [].

Definition LexM := ST LexState.

(** The characters left to read. *)
Definition rest (s : LexState) : list wchar := stream (SourceText s).
Definition fuel_for (s : LexState) : nat := S (List.length (rest s)).

(** ** Reading characters *)

(** [Advance(ch)]; [dst] writes the reference argument. *)
Definition Advance (dst : wchar -> LexState -> LexState) : LexM bool := fun s =>
  match ReadNext (SourceText s) with
  | (None, r) => Some (false, set_SourceText r s)
  | (Some c, r) =>
      let s1 := dst c (set_SourceText r s) in
      let s2 := if c =? LF then set_position (Line s1 + 1) 0 s1
                else if negb (c =? 0) then set_position (Line s1) (Offset s1 + 1) s1
                else s1 in
      Some (true, s2)
  end.

(** [SourceText->PeekNext(ch)] into a local variable, and into the field
    [PeekSymbol]. *)
Definition PeekLocal : LexM (bool * wchar) := fun s =>
  Some (PeekNext (SourceText s), s).

Definition Peek1 : LexM bool := fun s =>
  let (ok, c) := PeekNext (SourceText s) in Some (ok, set_PeekSymbol c s).

Section WithLocale.
Context `{Locale}.

Fixpoint ReadNextReal_loop (n : nat) : LexM bool :=
  match n with
  | O => out_of_fuel
  | S n =>
      ok <- Advance set_Symbol ;;
      if negb ok then ret false else
      s <- get ;;
      let c := Symbol s in
      if (c =? 0xEFBB) || (c =? 0xFEFF) || (c =? 0xFFFE) then ReadNextReal_loop n
      else if c =? LF then ReadNextReal_loop n
      else if c =? 0 then
        ok <- Peek1 ;;
        if negb ok then ret false else
        s <- get ;;
        if PeekSymbol s =? 0 then ret false else ReadNextReal_loop n
      else if negb (iswspace c) then ret true
      else ReadNextReal_loop n
  end.

(** [ReadNextReal]: the next character that is not white space, into
    [Symbol]; a character put back by a number literal comes first. *)
Definition ReadNextReal : LexM bool :=
  s <- get ;;
  if HasPutbackSymbol s then
    modify (set_Symbol (PutbackSymbol s)) ;;;
    modify (set_Putback false (PutbackSymbol s)) ;;;
    modify (fun s => set_position (Line s) (Offset s + 1) s) ;;;
    ret true
  else ReadNextReal_loop (fuel_for s).

Fixpoint ReadNextWhileAlpha_loop (n : nat) (word : wstring) : LexM wstring :=
  match n with
  | O => out_of_fuel
  | S n =>
      ok <- Peek1 ;;
      if negb ok then ret word else
      s <- get ;;
      if negb (iswalnum (PeekSymbol s)) && negb (PeekSymbol s =? ch "_") then ret word
      else
        Advance set_Symbol ;;;
        s <- get ;;
        ReadNextWhileAlpha_loop n (word ++ [Symbol s])
  end.

(** [ReadNextWhileAlpha] (it always returns [true]) *)
Definition ReadNextWhileAlpha : LexM wstring :=
  s <- get ;;
  ReadNextWhileAlpha_loop (fuel_for s) [Symbol s].

(** ** Literals *)

Definition char_escape (c : wchar) : wchar :=
  if c =? SQUOTE then SQUOTE
  else if c =? BACKSLASH then BACKSLASH
  else if c =? ch "n" then LF
  else if c =? ch "t" then TAB
  else if c =? ch "r" then CR
  else if c =? ch "0" then 0
  else c.

Fixpoint ReadCharLiteral_loop (n : nat) (word : wstring) (ecran : bool)
  : LexM (option wstring) :=
  match n with
  | O => out_of_fuel
  | S n =>
      ok <- Advance set_Symbol ;;
      if negb ok then ret None else
      s <- get ;;
      let c := Symbol s in
      if ecran then ReadCharLiteral_loop n (word ++ [char_escape c]) false
      else if c =? SQUOTE then Peek1 ;;; ret (Some word)
      else if c =? BACKSLASH then ReadCharLiteral_loop n word true
      else ReadCharLiteral_loop n (word ++ [c]) false
  end.

(** [ReadCharLiteral] ([wasClosed] is set exactly when it succeeds) *)
Definition ReadCharLiteral : LexM (option wstring) :=
  s <- get ;; ReadCharLiteral_loop (fuel_for s) [] false.

Fixpoint ReadStringLiteral_loop (n : nat) (word : wstring) (dontEcran ecran : bool)
  : LexM (option wstring) :=
  match n with
  | O => out_of_fuel
  | S n =>
      ok <- Advance set_Symbol ;;
      if negb ok then ret None else
      s <- get ;;
      let c := Symbol s in
      if c =? BACKSLASH then
        if dontEcran then ReadStringLiteral_loop n (word ++ [c]) dontEcran ecran
        else if ecran then
          modify (set_Symbol BACKSLASH) ;;;
          ReadStringLiteral_loop n (word ++ [BACKSLASH]) dontEcran false
        else ReadStringLiteral_loop n word dontEcran true
      else if c =? DQUOTE then
        if dontEcran then Peek1 ;;; ret (Some word)
        else if ecran then
          modify (set_Symbol DQUOTE) ;;;
          ReadStringLiteral_loop n (word ++ [DQUOTE]) dontEcran false
        else Peek1 ;;; ret (Some word)
      else if c =? ch "n" then
        if ecran then
          modify (set_Symbol LF) ;;;
          ReadStringLiteral_loop n (word ++ [LF]) dontEcran false
        else ReadStringLiteral_loop n (word ++ [c]) dontEcran ecran
      else ReadStringLiteral_loop n (word ++ [c]) dontEcran ecran
  end.

(** [ReadStringLiteral] *)
Definition ReadStringLiteral (dontEcran : bool) : LexM (option wstring) :=
  s <- get ;; ReadStringLiteral_loop (fuel_for s) [] dontEcran false.

(** [IsNumberSymbol] *)
Definition IsNumberSymbol (c : wchar) : bool :=
  if (ch "0" <=? c) && (c <=? ch "9") then true
  else if (ch "A" <=? c) && (c <=? ch "F") then true
  else if (ch "a" <=? c) && (c <=? ch "f") then true
  else if (c =? ch "x") || (c =? ch "X") then true
  else if (c =? ch "d") || (c =? ch "D") then true
  else if (c =? ch "b") || (c =? ch "B") then true
  else if (c =? ch "k") || (c =? ch "K") then true
  else if (c =? ch "m") || (c =? ch "M") then true
  else if (c =? ch "g") || (c =? ch "G") then true
  else if (c =? ch "t") || (c =? ch "T") then true
  else if (c =? ch "p") || (c =? ch "P") then true
  else false.

(** [IsBasePrefixLetter] *)
Definition IsBasePrefixLetter (c : wchar) : bool :=
  (c =? ch "x") || (c =? ch "X") || (c =? ch "d") || (c =? ch "D")
  || (c =? ch "b") || (c =? ch "B").

Fixpoint ReadNumberLiteral_loop (n : nat) (word : wstring) (type : TokenType)
    (foundDelimeter : bool) : LexM (wstring * TokenType) :=
  match n with
  | O => out_of_fuel
  | S n =>
      (* the part of the body below the separator test *)
      let tail : LexM (wstring * TokenType) :=
        s <- get ;;
        if PeekSymbol s =? ch "." then
          if foundDelimeter then ret (word, type) else
          ok <- Advance set_PeekSymbol ;;
          if negb ok then ret (word, type) else
          p <- PeekLocal ;;
          let (ok, afterDot) := p in
          if negb ok || negb (IsNumberSymbol afterDot) then
            modify (set_Putback true (ch ".")) ;;;
            modify (fun s => set_position (Line s) (Offset s - 1) s) ;;;
            ret (word, type)
          else
            Advance set_PeekSymbol ;;;
            ReadNumberLiteral_loop n (word ++ [ch "."; afterDot]) TokenType.DoubleLiteral true
        else if IsNumberSymbol (PeekSymbol s) then
          Advance set_PeekSymbol ;;;
          ReadNumberLiteral_loop n (word ++ [PeekSymbol s]) type foundDelimeter
        else ret (word, type)
      in
      ok <- Peek1 ;;
      if negb ok then ret (word, type) else
      s <- get ;;
      if PeekSymbol s =? ch "`" then
        ok <- Advance set_PeekSymbol ;;
        if negb ok then ret (word, type) else
        ok <- Peek1 ;;
        if negb ok then ret (word, type) else
        s <- get ;;
        if IsNumberSymbol (PeekSymbol s)
        then ReadNumberLiteral_loop n word type foundDelimeter
        else tail
      else tail
  end.

(** The base prefix right after a lone [0]. *)
Definition ReadBasePrefix (word : wstring) : LexM wstring :=
  if word =w L "0" then
    ok <- Peek1 ;;
    s <- get ;;
    if ok && IsBasePrefixLetter (PeekSymbol s) then
      Advance set_PeekSymbol ;;;
      s <- get ;;
      ret (word ++ [PeekSymbol s])
    else ret word
  else ret word.

(** [ReadNumberLiteral]: [false] when no character was collected. *)
Definition ReadNumberLiteral (type : TokenType) : LexM (option (wstring * TokenType)) :=
  s <- get ;;
  let word := if IsNumberSymbol (Symbol s) then [Symbol s] else [] in
  word <- ReadBasePrefix word ;;
  s <- get ;;
  r <- ReadNumberLiteral_loop (fuel_for s) word type false ;;
  let (word, type) := r in
  ret (match word with [] => None | _ :: _ => Some (word, type) end).

(** ** Punctuation and operators *)

Fixpoint alternative (c : wchar) (alts : list (wchar * (wstring * TokenType)))
  : option (wstring * TokenType) :=
  match alts with
  | [] => None
  | (c', r) :: alts => if c =? c' then Some r else alternative c alts
  end.

(** The shape of the two-character cases: peek, take the second character
    when it is one of [alts], otherwise answer [dflt]. *)
Definition followed_by (alts : list (wchar * (wstring * TokenType)))
    (dflt : wstring * TokenType) : LexM (option (wstring * TokenType)) :=
  ok <- Peek1 ;;
  if ok then
    s <- get ;;
    match alternative (PeekSymbol s) alts with
    | Some r => Advance set_PeekSymbol ;;; ret (Some r)
    | None => ret (Some dflt)
    end
  else ret (Some dflt).

(** [IsPunctuation] *)
Definition IsPunctuation : LexM (option (wstring * TokenType)) :=
  s <- get ;;
  let c := Symbol s in
  if c =? ch "{" then ret (Some (L "{", TokenType.OpenBrace))
  else if c =? ch "}" then ret (Some (L "}", TokenType.CloseBrace))
  else if c =? ch "(" then ret (Some (L "(", TokenType.OpenCurl))
  else if c =? ch ")" then ret (Some (L ")", TokenType.CloseCurl))
  else if c =? ch "[" then ret (Some (L "[", TokenType.OpenSquare))
  else if c =? ch "]" then ret (Some (L "]", TokenType.CloseSquare))
  else if c =? ch "." then
    ok <- Peek1 ;;
    s <- get ;;
    if ok && (PeekSymbol s =? ch ".") then
      Advance set_PeekSymbol ;;;
      ok <- Peek1 ;;
      s <- get ;;
      if ok && (PeekSymbol s =? ch "&") then
        Advance set_PeekSymbol ;;;
        ret (Some (L "..&", TokenType.RangeInclusiveOperator))
      else ret (Some (L "..", TokenType.RangeOperator))
    else ret (Some (L ".", TokenType.Delimeter))
  else if c =? ch "," then ret (Some (L ",", TokenType.Comma))
  else if c =? ch ":" then
    followed_by [(ch "=", (L ":=", TokenType.DeclareAssignOperator))] (L ":", TokenType.Colon)
  else if c =? ch ";" then ret (Some (L ";", TokenType.Semicolon))
  else if c =? ch "?" then
    followed_by [(ch "?", (L "??", TokenType.NullCoalescingOperator))] (L "?", TokenType.Question)
  else if c =? 0x37E then ret (Some (L ";", TokenType.Semicolon))
  else ret None.

(** [IsOperator] *)
Definition IsOperator : LexM (option (wstring * TokenType)) :=
  s <- get ;;
  let c := Symbol s in
  if c =? ch "=" then
    followed_by [(ch "=", (L "==", TokenType.EqualsOperator));
                 (ch ">", (L "=>", TokenType.LambdaOperator))]
                (L "=", TokenType.AssignOperator)
  else if c =? ch "!" then
    followed_by [(ch "=", (L "!=", TokenType.NotEqualsOperator))] (L "!", TokenType.NotOperator)
  else if c =? ch ">" then
    followed_by [(ch "=", (L ">=", TokenType.GreaterOrEqualsOperator));
                 (ch ">", (L ">>", TokenType.RightShiftOperator))]
                (L ">", TokenType.GreaterOperator)
  else if c =? ch "<" then
    followed_by [(ch "=", (L "<=", TokenType.LessOrEqualsOperator));
                 (ch "<", (L "<<", TokenType.LeftShiftOperator))]
                (L "<", TokenType.LessOperator)
  else if c =? ch "+" then
    followed_by [(ch "=", (L "+=", TokenType.AddAssignOperator));
                 (ch "+", (L "++", TokenType.IncrementOperator))]
                (L "+", TokenType.AddOperator)
  else if c =? ch "-" then
    followed_by [(ch "=", (L "-=", TokenType.SubAssignOperator));
                 (ch "-", (L "--", TokenType.DecrementOperator));
                 (ch ">", (L "->", TokenType.ArrowOperator))]
                (L "-", TokenType.SubOperator)
  else if c =? ch "*" then
    followed_by [(ch "=", (L "*=", TokenType.MultAssignOperator))] (L "*", TokenType.MultOperator)
  else if c =? ch "/" then
    followed_by [(ch "=", (L "/=", TokenType.DivAssignOperator));
                 (ch "/", (L "//", TokenType.Trivia))]
                (L "/", TokenType.DivOperator)
  else if c =? ch "%" then
    followed_by [(ch "=", (L "%=", TokenType.ModAssignOperator))] (L "%", TokenType.ModOperator)
  else if c =? ch "^" then
    followed_by [(ch "=", (L "^=", TokenType.PowAssignOperator))] (L "^", TokenType.PowOperator)
  else if c =? ch "&" then
    followed_by [(ch "=", (L "&=", TokenType.AndAssignOperator));
                 (ch "&", (L "&&", TokenType.AndOperator))]
                (L "&", TokenType.AndOperator)
  else if c =? ch "|" then
    followed_by [(ch "=", (L "|=", TokenType.OrAssignOperator));
                 (ch "|", (L "||", TokenType.OrOperator))]
                (L "|", TokenType.OrOperator)
  else ret None.

(** [IsNumberLiteral] *)
Definition IsNumberLiteral (s : LexState) : option TokenType :=
  if (ch "0" <=? Symbol s) && (Symbol s <=? ch "9") then Some TokenType.NumberLiteral else None.

(** [IsCharLiteral] *)
Definition IsCharLiteral (s : LexState) : option TokenType :=
  if Symbol s =? SQUOTE then Some TokenType.CharLiteral else None.

(** [IsStringLiteral]: the type and the [dontEcran] flag on success.  The
    recursive call on the verbatim prefix finds [Symbol] unchanged. *)
Fixpoint IsStringLiteral_loop (n : nat) (dontEcran : bool) : LexM (option (TokenType * bool)) :=
  match n with
  | O => out_of_fuel
  | S n =>
      s <- get ;;
      if Symbol s =? ch "@" then
        ok <- Peek1 ;;
        if negb ok then ret None else
        s <- get ;;
        if negb (PeekSymbol s =? DQUOTE) then ret None else
        Advance set_PeekSymbol ;;;
        IsStringLiteral_loop n true
      else if Symbol s =? DQUOTE then ret (Some (TokenType.StringLiteral, dontEcran))
      else ret None
  end.

Definition IsStringLiteral : LexM (option (TokenType * bool)) :=
  s <- get ;; IsStringLiteral_loop (fuel_for s) false.

(** ** Keywords *)

(** [LexicalAnalyzer::IsWordOperator] *)
Definition IsWordOperator (word : wstring) : option TokenType :=
  if word =w L "and" then Some TokenType.AndOperator
  else if word =w L "or" then Some TokenType.OrOperator
  else if word =w L "not" then Some TokenType.NotOperator
  else None.

(** [LexicalAnalyzer::IsNullLiteral] *)
Definition IsNullLiteral (word : wstring) : option TokenType :=
  if word =w L "null" then Some TokenType.NullLiteral
  else if word =w L "nil" then Some TokenType.NullLiteral
  else None.

(** [LexicalAnalyzer::IsBooleanLiteral] *)
Definition IsBooleanLiteral (word : wstring) : option TokenType :=
  if word =w L "true" then Some TokenType.BooleanLiteral
  else if word =w L "false" then Some TokenType.BooleanLiteral
  else None.

(** [LexicalAnalyzer::IsModifier] *)
Definition IsModifier (word : wstring) : option TokenType :=
  if word =w L "public" then Some TokenType.PublicKeyword
  else if word =w L "private" then Some TokenType.PrivateKeyword
  else if word =w L "protected" then Some TokenType.ProtectedKeyword
  else if word =w L "internal" then Some TokenType.InternalKeyword
  else if word =w L "static" then Some TokenType.StaticKeyword
  else if word =w L "async" then Some TokenType.AsyncKeyword
  else if word =w L "extern" then Some TokenType.ExternKeyword
  else if word =w L "export" then Some TokenType.ExportKeyword
  else None.

(** [LexicalAnalyzer::IsDirectiveDecl] *)
Definition IsDirectiveDecl (word : wstring) : option TokenType :=
  if word =w L "using" then Some TokenType.UsingKeyword
  else None.

(** [LexicalAnalyzer::IsTypeDecl] *)
Definition IsTypeDecl (word : wstring) : option TokenType :=
  if word =w L "method" then Some TokenType.MethodKeyword
  else if word =w L "class" then Some TokenType.ClassKeyword
  else if word =w L "struct" then Some TokenType.StructKeyword
  else if word =w L "interface" then Some TokenType.InterfaceKeyword
  else if word =w L "enum" then Some TokenType.EnumKeyword
  else if word =w L "namespace" then Some TokenType.NamespaceKeyword
  else None.

(** [LexicalAnalyzer::IsType] *)
Definition IsType (word : wstring) : option TokenType :=
  if word =w L "void" then Some TokenType.VoidKeyword
  else if word =w L "var" then Some TokenType.VarKeyword
  else if word =w L "bool" then Some TokenType.BooleanKeyword
  else if word =w L "string" then Some TokenType.StringKeyword
  else if word =w L "double" then Some TokenType.DoubleKeyword
  else if word =w L "int" then Some TokenType.IntegerKeyword
  else if word =w L "char" then Some TokenType.CharKeyword
  else if word =w L "byte" then Some TokenType.ByteKeyword
  else if word =w L "nint" then Some TokenType.NativeIntegerKeyword
  else if word =w L "lambda" then Some TokenType.LambdaKeyword
  else if word =w L "delegate" then Some TokenType.DelegateKeyword
  else None.

(** [LexicalAnalyzer::IsConditionalKeyword] *)
Definition IsConditionalKeyword (word : wstring) : option TokenType :=
  if word =w L "if" then Some TokenType.IfKeyword
  else if word =w L "unless" then Some TokenType.UnlessKeyword
  else if word =w L "else" then Some TokenType.ElseKeyword
  else if word =w L "switch" then Some TokenType.SwitchKeyword
  else if word =w L "case" then Some TokenType.CaseKeyword
  else if word =w L "default" then Some TokenType.DefaultKeyword
  else None.

(** [LexicalAnalyzer::IsLoopKeyword] *)
Definition IsLoopKeyword (word : wstring) : option TokenType :=
  if word =w L "for" then Some TokenType.ForKeyword
  else if word =w L "while" then Some TokenType.WhileKeyword
  else if word =w L "until" then Some TokenType.UntilKeyword
  else if word =w L "do" then Some TokenType.DoKeyword
  else if word =w L "foreach" then Some TokenType.ForeachKeyword
  else if word =w L "in" then Some TokenType.InKeyword
  else None.

(** [LexicalAnalyzer::IsFunctionalKeyword] *)
Definition IsFunctionalKeyword (word : wstring) : option TokenType :=
  if word =w L "return" then Some TokenType.ReturnKeyword
  else if word =w L "continue" then Some TokenType.ContinueKeyword
  else if word =w L "break" then Some TokenType.BreakKeyword
  else if word =w L "throw" then Some TokenType.ThrowKeyword
  else if word =w L "try" then Some TokenType.TryKeyword
  else if word =w L "catch" then Some TokenType.CatchKeyword
  else if word =w L "await" then Some TokenType.AwaitKeyword
  else None.

(** [LexicalAnalyzer::IsKeyword] *)
Definition IsKeyword (word : wstring) : option TokenType :=
  match IsConditionalKeyword word with Some type => Some type | None =>
  match IsFunctionalKeyword word with Some type => Some type | None =>
  match IsLoopKeyword word with Some type => Some type | None =>
  if word =w L "new" then Some TokenType.NewKeyword
  else if word =w L "get" then Some TokenType.GetKeyword
  else if word =w L "set" then Some TokenType.SetKeyword
  else if word =w L "field" then Some TokenType.FieldKeyword
  else if word =w L "indexer" then Some TokenType.IndexerKeyword
  else if word =w L "try" then Some TokenType.TryKeyword
  else if word =w L "catch" then Some TokenType.CatchKeyword
  else if word =w L "defer" then Some TokenType.DeferKeyword
  else if word =w L "where" then Some TokenType.WhereKeyword
  else if word =w L "const" then Some TokenType.ConstKeyword
  else if word =w L "func" then Some TokenType.FunctionKeyword
  else if word =w L "init" then Some TokenType.InitKeyword
  else if word =w L "operator" then Some TokenType.OperatorKeyword
  else if word =w L "value" then Some TokenType.ValueKeyword
  else if word =w L "is" then Some TokenType.IsOperator
  else if word =w L "as" then Some TokenType.AsOperator
  else None
  end end end.

(** The classification of a collected word at the end of [ReadNextWord]. *)
Definition classify (word : wstring) : TokenType :=
  match IsBooleanLiteral word with Some type => type | None =>
  match IsNullLiteral word with Some type => type | None =>
  match IsDirectiveDecl word with Some type => type | None =>
  match IsTypeDecl word with Some type => type | None =>
  match IsModifier word with Some type => type | None =>
  match IsWordOperator word with Some type => type | None =>
  match IsType word with Some type => type | None =>
  match IsKeyword word with Some type => type | None =>
  TokenType.Identifier
  end end end end end end end end.

(** ** Tokens *)

(** The comment loop: [true] when a line feed ended the comment. *)
Fixpoint SkipComment_loop (n : nat) : LexM bool :=
  match n with
  | O => out_of_fuel
  | S n =>
      ok <- Advance set_PeekSymbol ;;
      if negb ok then ret false else
      s <- get ;;
      if PeekSymbol s =? LF then ret true
      else if PeekSymbol s =? 0 then
        ok <- Peek1 ;;
        if negb ok then ret false else
        s <- get ;;
        if PeekSymbol s =? 0 then ret false else SkipComment_loop n
      else SkipComment_loop n
  end.

(** [ReadNextWord] *)
Fixpoint ReadNextWord_loop (n : nat) : LexM (option (wstring * TokenType)) :=
  match n with
  | O => out_of_fuel
  | S n =>
      ok <- ReadNextReal ;;
      if negb ok then ret None else
      p <- IsPunctuation ;;
      match p with Some r => ret (Some r) | None =>
      o <- IsOperator ;;
      match o with
      | Some (word, type) =>
          if type =tt TokenType.Trivia then
            s <- get ;;
            again <- SkipComment_loop (fuel_for s) ;;
            if again then ReadNextWord_loop n else ret None
          else ret (Some (word, type))
      | None =>
      str <- IsStringLiteral ;;
      match str with
      | Some (type, dontEcran) =>
          w <- ReadStringLiteral dontEcran ;;
          ret (match w with Some word => Some (word, type) | None => None end)
      | None =>
      s <- get ;;
      match IsCharLiteral s with
      | Some type =>
          w <- ReadCharLiteral ;;
          ret (match w with Some word => Some (word, type) | None => None end)
      | None =>
      match IsNumberLiteral s with
      | Some type => ReadNumberLiteral type
      | None =>
          word <- ReadNextWhileAlpha ;;
          ret (Some (word, classify word))
      end end end end end
  end.

Definition ReadNextWord : LexM (option (wstring * TokenType)) :=
  s <- get ;; ReadNextWord_loop (S (fuel_for s)).

(** [GetLocation] *)
Definition GetLocation (word : wstring) (s : LexState) : TextLocation :=
  let length := Z.of_nat (List.length word) in
  let startOffset := Offset s - length + 1 in
  let startOffset := if startOffset <? 1 then 1 else startOffset in
  mkLocation (GetName (SourceText s)) (Line s) startOffset length.

(** [ReadNextToken] *)
Definition ReadNextToken : LexM (option SyntaxToken) :=
  r <- ReadNextWord ;;
  match r with
  | None => ret None
  | Some (word, type) => s <- get ;; ret (Some (token type word (GetLocation word s)))
  end.

(** ** The [SourceProvider] operations *)

Definition push_back (t : SyntaxToken) : LexM unit :=
  modify (fun s => set_ReadBuffer (ReadBuffer s ++ [t]) s).

(** [Consume] *)
Definition Consume : LexM SyntaxToken :=
  s <- get ;;
  match ReadBuffer s with
  | t :: buffer => modify (set_ReadBuffer buffer) ;;; ret t
  | [] =>
      r <- ReadNextToken ;;
      let t := match r with Some t => t | None => eof_token end in
      push_back t ;;; ret t
  end.

(** [Current] *)
Definition Current : LexM SyntaxToken :=
  s <- get ;;
  match ReadBuffer s with
  | t :: _ => ret t
  | [] => Consume
  end.

(** The extension loop of [Peek]; [Some] is its early return. *)
Fixpoint Peek_extend (n : nat) : LexM (option SyntaxToken) :=
  match n with
  | O => ret None
  | S n =>
      r <- ReadNextToken ;;
      match r with
      | Some t => push_back t ;;; Peek_extend n
      | None => push_back eof_token ;;; ret (Some eof_token)
      end
  end.

(** [Peek(index)] *)
Definition Peek (index : Z) : LexM SyntaxToken :=
  let index := index + 1 in
  s <- get ;;
  let bufferSize := Z.of_nat (List.length (ReadBuffer s)) in
  early <- (if bufferSize <? index + 1
            then Peek_extend (Z.to_nat (index - bufferSize + 1)) else ret None) ;;
  match early with
  | Some t => ret t
  | None =>
      s <- get ;;
      if (index <? 0) || (Z.of_nat (List.length (ReadBuffer s)) <=? index) then ret eof_token
      else ret (nth (Z.to_nat index) (ReadBuffer s) eof_token)
  end.

(** [PutBackToken] *)
Definition PutBackToken (t : SyntaxToken) : LexM unit :=
  modify (fun s => set_ReadBuffer (t :: ReadBuffer s) s).

(** [CanConsume] and [CanPeek] *)
Definition CanConsume : LexM bool := t <- Current ;; ret (negb (is_eof t)).
Definition CanPeek : LexM bool := t <- Peek 0 ;; ret (negb (is_eof t)).
End WithLocale.
End LexicalAnalyzer.
