(* ===== verification/LexBuffer.v ===== *)
(** * Source providers and the token buffer

    The interface [SourceProvider] (include/shard/lexical/SourceProvider.hpp)
    the parser consumes tokens through, with the laws every provider of the
    program keeps; [LexicalBuffer] (src/lexical/LexicalBuffer.cpp), the
    random-access buffer, and the loops that fill it from a provider. *)
From Stdlib Require Import ZArith Lia Bool List String.
From stdpp Require Import base list.
From S2P Require Import Prelude Tokens Reader Lexer.
Import ListNotations.
Open Scope Z_scope.
Open Scope shard_scope.

(** The virtual methods of [SourceProvider] over a state [S]. *)
Class SourceProvider (S : Type) := {
  sp_Current : ST S SyntaxToken;
  sp_Consume : ST S SyntaxToken;
  sp_Peek : Z -> ST S SyntaxToken;
  sp_PutBackToken : SyntaxToken -> ST S unit;
  sp_CanConsume : ST S bool;
  sp_CanPeek : ST S bool
}.

#[global] Instance lexer_provider `{Locale} : SourceProvider LexicalAnalyzer.LexState := {|
  sp_Current := LexicalAnalyzer.Current;
  sp_Consume := LexicalAnalyzer.Consume;
  sp_Peek := LexicalAnalyzer.Peek;
  sp_PutBackToken := LexicalAnalyzer.PutBackToken;
  sp_CanConsume := LexicalAnalyzer.CanConsume;
  sp_CanPeek := LexicalAnalyzer.CanPeek
|}.

Module LexicalBuffer.
(** [size_t] arithmetic. *)
Definition size_t (z : Z) : Z := z mod 2 ^ 64.

Record LexBuffer := mkBuffer {
  Sequence : list SyntaxToken;
  CurrentIndex : Z
}.

Definition BufM := ST LexBuffer.

(** [LexicalBuffer()] *)
Definition empty : LexBuffer := mkBuffer [] 0.

Definition Size (b : LexBuffer) : Z := Z.of_nat (List.length (Sequence b)).
Definition nth_token (b : LexBuffer) (i : Z) : SyntaxToken :=
  nth (Z.to_nat i) (Sequence b) eof_token.

(** [Push], [Clear], [SetSequence], [SetIndex] *)
Definition Push (t : SyntaxToken) : BufM unit :=
  modify (fun b => mkBuffer (Sequence b ++ [t]) (CurrentIndex b)).
Definition Clear : BufM unit := modify (fun _ => mkBuffer [] 0).
Definition SetSequence (ts : list SyntaxToken) : BufM unit :=
  Clear ;;; modify (fun b => mkBuffer ts (CurrentIndex b)).
Definition SetIndex (i : Z) : BufM unit := modify (fun b => mkBuffer (Sequence b) i).

(** [At] ([std::vector::at]), [Front] and [Back] (undefined on an empty
    vector) *)
Definition At (b : LexBuffer) (index : Z) : result SyntaxToken :=
  if (0 <=? index) && (index <? Size b) then Ok (nth_token b index)
  else Throw "vector::at".
Definition Front (b : LexBuffer) : result SyntaxToken :=
  match Sequence b with t :: _ => Ok t | [] => UB end.
Definition Back (b : LexBuffer) : result SyntaxToken :=
  match rev (Sequence b) with t :: _ => Ok t | [] => UB end.

(** [Current] *)
Definition Current : BufM SyntaxToken :=
  b <- get ;;
  if Size b <=? CurrentIndex b then ret eof_token else ret (nth_token b (CurrentIndex b)).

(** [Consume] *)
Definition Consume : BufM SyntaxToken :=
  b <- get ;;
  if Size b <=? CurrentIndex b then ret eof_token
  else
    modify (fun b => mkBuffer (Sequence b) (CurrentIndex b + 1)) ;;;
    ret (nth_token b (CurrentIndex b)).

(** [Peek(index)]: the [int] argument is converted to [std::size_t]. *)
Definition Peek (index : Z) : BufM SyntaxToken :=
  b <- get ;;
  let target := size_t (CurrentIndex b + 1 + size_t index) in
  if Size b <=? target then ret eof_token else ret (nth_token b target).

(** [PutBackToken] *)
Definition PutBackToken (t : SyntaxToken) : BufM unit :=
  modify (fun b =>
    let i := if Size b <? CurrentIndex b then Size b else CurrentIndex b in
    mkBuffer (firstn (Z.to_nat i) (Sequence b) ++ t :: skipn (Z.to_nat i) (Sequence b)) i).

(** [CanConsume] and [CanPeek] *)
Definition CanConsume : BufM bool := b <- get ;; ret (CurrentIndex b <? Size b).
Definition CanPeek : BufM bool :=
  b <- get ;;
  match Sequence b with
  | [] => ret false
  | _ :: _ => ret (size_t (CurrentIndex b + 1) <? Size b)
  end.

#[global] Instance buffer_provider : SourceProvider LexBuffer := {|
  sp_Current := Current;
  sp_Consume := Consume;
  sp_Peek := Peek;
  sp_PutBackToken := PutBackToken;
  sp_CanConsume := CanConsume;
  sp_CanPeek := CanPeek
|}.

(** ** Filling a buffer *)
Section Populate.
Context {P : Type} `{SourceProvider P}.

(** The loop of [From(SourceProvider&)] and [PopulateFrom]: the provider
    is the state, the buffer an accumulator. *)
Fixpoint PopulateFrom_loop (n : nat) (buffer : LexBuffer) : ST P LexBuffer :=
  match n with
  | O => out_of_fuel
  | S n =>
      more <- sp_CanConsume ;;
      if negb more then ret buffer else
      t <- sp_Current ;;
      sp_Consume ;;;
      PopulateFrom_loop n (mkBuffer (Sequence buffer ++ [t]) (CurrentIndex buffer))
  end.

Definition From (fuel : nat) : ST P LexBuffer := PopulateFrom_loop fuel empty.
End Populate.

(** [From(SourceTextProvider&)] *)
Definition FromText `{Locale} (reader : Reader) : option LexBuffer :=
  match From (S (S (List.length (stream reader)))) (LexicalAnalyzer.init reader) with
  | Some (buffer, _) => Some buffer
  | None => None
  end.

(** [From(std::vector)] and [PopulateFrom(std::vector)] *)
Definition FromVector (ts : list SyntaxToken) : BufM unit := SetSequence ts.
Fixpoint PopulateFromVector (ts : list SyntaxToken) : BufM unit :=
  match ts with
  | [] => ret tt
  | t :: ts => Push t ;;; PopulateFromVector ts
  end.
End LexicalBuffer.
