(* ===== verification/LexerFacts.v ===== *)
(** * The lexer consumes text and terminates

    Every operation of LexicalAnalyzer moves forward in the text, keeps the
    line and column counters in step with what it consumed, and returns: the
    fuel of each loop is enough. *)
From Stdlib Require Import ZArith Lia Bool List String RelationClasses.
From stdpp Require Import base list.
From S2P Require Import Prelude Tokens Reader Lexer.
Import ListNotations LexicalAnalyzer.
Open Scope Z_scope.
Open Scope shard_scope.

(** ** Reading forward *)

(** What consuming one character does to a line and column. *)
Definition step_pos (p : Z * Z) (c : wchar) : Z * Z :=
  if c =? LF then (p.1 + 1, 0) else if negb (c =? 0) then (p.1, p.2 + 1) else p.

Definition putback_count (s : LexState) : nat := if HasPutbackSymbol s then 1 else 0.

(** The characters a state can still deliver. *)
Definition pending (s : LexState) : nat := (List.length (rest s) + putback_count s)%nat.

(** The text not consumed yet, the character put back included; the lexer
    only ever puts a dot back. *)
Definition unread (s : LexState) : list wchar :=
  (if HasPutbackSymbol s then [PutbackSymbol s] else []) ++ rest s.
Definition dot_ok (s : LexState) : Prop :=
  HasPutbackSymbol s = true -> PutbackSymbol s = ch ".".
Definition position (s : LexState) : Z * Z := (Line s, Offset s).

(** [consumes s s' cs]: from [s] to [s'] the text [cs] was consumed, and the
    counters followed it. *)
Definition consumes (s s' : LexState) (cs : list wchar) : Prop :=
  unread s = cs ++ unread s' /\ position s' = fold_left step_pos cs (position s).

Definition advances (s s' : LexState) : Prop :=
  (List.length (rest s') <= List.length (rest s))%nat
  /\ (pending s' <= pending s)%nat
  /\ GetName (SourceText s') = GetName (SourceText s)
  /\ ReadBuffer s' = ReadBuffer s
  /\ (dot_ok s -> dot_ok s' /\ exists cs, consumes s s' cs).

Lemma consumes_trans s1 s2 s3 c1 c2 :
  consumes s1 s2 c1 -> consumes s2 s3 c2 -> consumes s1 s3 (c1 ++ c2).
Proof.
  intros [U1 P1] [U2 P2]; split; [rewrite U1, U2, app_assoc; reflexivity|].
  rewrite fold_left_app, <- P1; exact P2.
Qed.

#[export] Instance advances_preorder : PreOrder advances.
Proof.
  split.
  - intros s; do 4 (split; [lia || reflexivity|]); intros D; split; [exact D|].
    exists []; split; reflexivity.
  - intros s1 s2 s3 (L1 & M1 & N1 & B1 & C1) (L2 & M2 & N2 & B2 & C2).
    do 4 (split; [lia || congruence|]); intros D1.
    destruct (C1 D1) as (D2 & c1 & K1), (C2 D2) as (D3 & c2 & K2).
    split; [exact D3|]; exists (c1 ++ c2); eapply consumes_trans; eassumption.
Qed.

Lemma advances_length s s' : advances s s' -> (List.length (rest s') <= List.length (rest s))%nat.
Proof. intros (L & _); exact L. Qed.

(** States that differ in [Symbol] and [PeekSymbol] only. *)
Definition same_input (s s' : LexState) : Prop :=
  SourceText s' = SourceText s /\ Line s' = Line s /\ Offset s' = Offset s
  /\ HasPutbackSymbol s' = HasPutbackSymbol s /\ PutbackSymbol s' = PutbackSymbol s
  /\ ReadBuffer s' = ReadBuffer s.

Lemma same_input_advances s s' : same_input s s' -> advances s s'.
Proof.
  intros (E & El & Eo & Eh & Ep & Eb); unfold advances, consumes, position, pending,
    putback_count, dot_ok, unread, rest.
  rewrite E, El, Eo, Eh, Ep, Eb; do 4 (split; [lia || reflexivity|]); intros D.
  split; [exact D|]; exists []; split; reflexivity.
Qed.

Lemma same_set_Symbol c s : same_input s (set_Symbol c s).
Proof. repeat split. Qed.
Lemma same_set_PeekSymbol c s : same_input s (set_PeekSymbol c s).
Proof. repeat split. Qed.

(** One character read by [Advance], into either field. *)
Inductive advance_target : (wchar -> LexState -> LexState) -> Prop :=
| to_Symbol : advance_target set_Symbol
| to_PeekSymbol : advance_target set_PeekSymbol.

Definition read_char (dst : wchar -> LexState -> LexState) (s : LexState) (c : wchar)
  (s' : LexState) : Prop :=
  rest s = c :: rest s' /\ c <> WEOF /\ advances s s'
  /\ HasPutbackSymbol s' = false
  /\ Symbol s' = Symbol (dst c s) /\ PeekSymbol s' = PeekSymbol (dst c s).

Lemma Advance_runs dst s :
  advance_target dst -> HasPutbackSymbol s = false ->
  runs (Advance dst) s (fun ok s' =>
    if ok then exists c, read_char dst s c s'
    else s' = s /\ forall c l, rest s = c :: l -> c = WEOF).
Proof.
  intros Hdst Hput; unfold Advance, runs.
  destruct (ReadNext (SourceText s)) as [[c|] r] eqn:E.
  - do 2 eexists; split; [reflexivity|]; exists c.
    apply ReadNext_Some in E as (Hrest & Hname & Hc).
    split; [|split; [exact Hc|split]].
    + destruct Hdst; destruct (c =? LF), (c =? 0); exact Hrest.
    + unfold advances, consumes, position, pending, putback_count, dot_ok, unread, rest, step_pos.
      destruct Hdst; destruct (c =? LF) eqn:Elf, (c =? 0) eqn:Ez; simpl; rewrite ?Hrest, ?Hput;
        simpl; do 4 (split; [lia || auto|]); intros _; (split; [discriminate|]);
        exists [c]; simpl; rewrite Elf, ?Ez; auto.
    + destruct Hdst; destruct (c =? LF), (c =? 0); auto.
  - do 2 eexists; split; [reflexivity|]; split.
    + apply ReadNext_None in E as ->; destruct s; reflexivity.
    + intros c l Hr; unfold rest in Hr; unfold ReadNext in E; rewrite Hr in E.
      destruct (Z.eqb_spec c WEOF); [assumption|discriminate].
Qed.

Lemma Peek1_runs s :
  runs Peek1 s (fun ok s' =>
    same_input s s' /\ Symbol s' = Symbol s
    /\ (ok = true -> exists l, rest s = PeekSymbol s' :: l /\ PeekSymbol s' <> WEOF)).
Proof.
  unfold Peek1, runs, PeekNext, rest.
  destruct (stream (SourceText s)) as [|c l] eqn:E; do 2 eexists; (split; [reflexivity|]).
  - repeat split; discriminate.
  - repeat split; simpl; intros H; zbool; eauto.
Qed.

Lemma PeekLocal_runs s :
  runs PeekLocal s (fun p s' =>
    s' = s /\ (p.1 = true -> exists l, rest s = p.2 :: l /\ p.2 <> WEOF)).
Proof.
  unfold PeekLocal, runs, PeekNext, rest.
  destruct (stream (SourceText s)) as [|c l]; do 2 eexists; (split; [reflexivity|]);
    split; auto; [discriminate|].
  simpl; intros H; zbool; eauto.
Qed.

(** ** Loops between two tokens' characters *)

(** [moves s s']: forward, with no character put back at either end. *)
Definition moves (s s' : LexState) : Prop := advances s s' /\ HasPutbackSymbol s' = false.

Lemma moves_refl s : HasPutbackSymbol s = false -> moves s s.
Proof. split; [reflexivity|assumption]. Qed.

Lemma moves_trans s1 s2 s3 : moves s1 s2 -> moves s2 s3 -> moves s1 s3.
Proof. intros [A _] [B H]; split; [etransitivity; eassumption|exact H]. Qed.

Lemma moves_same s s' : HasPutbackSymbol s = false -> same_input s s' -> moves s s'.
Proof.
  intros H E; split; [apply same_input_advances, E|].
  destruct E as (_ & _ & _ & -> & _); exact H.
Qed.

Lemma moves_putback s s' : moves s s' -> HasPutbackSymbol s' = false.
Proof. intros [_ H]; exact H. Qed.

Lemma moves_length s s' : moves s s' -> (List.length (rest s') <= List.length (rest s))%nat.
Proof. intros [H _]; apply advances_length, H. Qed.

(** Strictly forward: at least one character was consumed. *)
Definition moves_lt (s s' : LexState) : Prop :=
  moves s s' /\ (List.length (rest s') < List.length (rest s))%nat.

Lemma moves_lt_l s1 s2 s3 : moves_lt s1 s2 -> moves s2 s3 -> moves_lt s1 s3.
Proof.
  intros [A H] B; split; [eapply moves_trans; eassumption|].
  apply moves_length in B; lia.
Qed.

Lemma moves_lt_moves s s' : moves_lt s s' -> moves s s'.
Proof. intros [H _]; exact H. Qed.

Lemma moves_lt_r s1 s2 s3 : moves s1 s2 -> moves_lt s2 s3 -> moves_lt s1 s3.
Proof.
  intros A [B H]; split; [eapply moves_trans; eassumption|].
  apply moves_length in A; lia.
Qed.

Lemma read_char_moves dst s c s' : read_char dst s c s' -> moves_lt s s'.
Proof.
  intros (R & _ & A & H & _); split; [split; assumption|].
  rewrite R; simpl; lia.
Qed.

#[export] Hint Resolve moves_refl moves_putback moves_lt_moves to_Symbol to_PeekSymbol
  same_set_Symbol same_set_PeekSymbol : shard.

(** The specifications in the form the loops use. *)
Lemma Advance_moves dst s :
  advance_target dst -> HasPutbackSymbol s = false ->
  runs (Advance dst) s (fun ok s' => if ok then moves_lt s s' else s' = s).
Proof.
  intros Hd Hp; eapply runs_mono; [apply Advance_runs; assumption|].
  intros [] s'; [intros (c & Hc); eapply read_char_moves, Hc|intros (-> & _); reflexivity].
Qed.

(** The character in [PeekSymbol] is the next one of the text. *)
Definition peeked (s : LexState) : Prop :=
  exists l, rest s = PeekSymbol s :: l /\ PeekSymbol s <> WEOF.

Lemma Peek1_moves s :
  HasPutbackSymbol s = false ->
  runs Peek1 s (fun ok s' => moves s s' /\ (ok = true -> peeked s')).
Proof.
  intros Hp; eapply runs_mono; [apply Peek1_runs|]; intros ok s' (Hsame & _ & Hpk).
  split; [apply moves_same; assumption|].
  intros Hok; destruct (Hpk Hok) as (l & Hl & Hw); exists l; split; [|exact Hw].
  unfold rest; destruct Hsame as (-> & _); exact Hl.
Qed.

Lemma Advance_peeked dst s :
  advance_target dst -> HasPutbackSymbol s = false -> peeked s ->
  runs (Advance dst) s (fun ok s' =>
    ok = true /\ moves_lt s s' /\ rest s = PeekSymbol s :: rest s').
Proof.
  intros Hd Hp (l & Hl & Hw); eapply runs_mono; [apply Advance_runs; assumption|].
  intros [] s' Hs.
  - destruct Hs as (c & Hc); split; [reflexivity|split; [eapply read_char_moves, Hc|]].
    destruct Hc as (Hr & _); congruence.
  - destruct Hs as (_ & Hs); elim Hw; eapply Hs, Hl.
Qed.

Lemma modify_Symbol_moves c s :
  HasPutbackSymbol s = false -> runs (modify (set_Symbol c)) s (fun _ s' => moves s s').
Proof. intros Hp; apply runs_modify, moves_same; auto with shard. Qed.

(** [chain] closes a goal [moves a c] or [moves_lt a c] from the steps
    recorded in the context. *)
Ltac chain :=
  solve [ eauto 2 with shard
        | eapply moves_trans; [eassumption || (apply moves_lt_moves; eassumption)|]; chain
        | eapply moves_lt_l; [eassumption|]; chain
        | eapply moves_lt_r; [eassumption|]; chain ].

(** [lex] steps through a computation, using the specifications of the two
    primitives. *)
Ltac lex_step :=
  match goal with
  | |- runs (if ?b then _ else _) _ _ => destruct b eqn:?
  | |- runs (match ?x with Some _ => _ | None => _ end) _ _ => destruct x eqn:?
  | Hpk : peeked ?s |- runs (bind (Advance ?d) _) ?s _ =>
      apply runs_bind; eapply runs_mono;
      [apply (Advance_peeked d s); eauto with shard|
       let ok := fresh "ok" in let s' := fresh "s" in let H := fresh "M" in
       let R := fresh "R" in intros ok s' (-> & H & R); cbn beta]
  | |- runs (bind (Advance ?d) _) ?s _ =>
      apply runs_bind; eapply runs_mono;
      [apply (Advance_moves d s); eauto with shard|
       let ok := fresh "ok" in let s' := fresh "s" in let H := fresh "M" in
       intros ok s' H; destruct ok; cbn iota in H; [|subst s']]
  | |- runs (bind Peek1 _) ?s _ =>
      apply runs_bind; eapply runs_mono;
      [apply (Peek1_moves s); eauto with shard|
       let ok := fresh "ok" in let s' := fresh "s" in let H := fresh "M" in
       let P := fresh "P" in
       intros ok s' (H & P); destruct ok; [specialize (P eq_refl)|clear P]; cbn beta]
  | |- runs (bind (modify (set_Symbol ?c)) _) ?s _ =>
      apply runs_bind; eapply runs_mono;
      [apply (modify_Symbol_moves c s); eauto with shard|
       let s' := fresh "s" in let H := fresh "M" in
       intros ? s' H; cbn beta in H |- *]
  | |- runs (bind _ _) _ _ => apply runs_bind
  | |- runs get _ _ => apply runs_get
  | |- runs (ret _) _ _ => apply runs_ret
  | |- runs (modify _) _ _ => apply runs_modify
  end; cbn beta iota zeta; cbn [negb].
Ltac lex := repeat lex_step.

(** Length facts for the fuel. *)
Ltac lens :=
  repeat match goal with
  | M : moves_lt _ _ |- _ => destruct M as [? M]
  | M : moves ?a ?b |- _ => apply moves_length in M
  end; unfold fuel_for in *; lia.

(** A recursive call, specified by [IH], under enough fuel. *)
Ltac loop_call IH :=
  eapply runs_mono; [eapply IH; [solve [eauto 3 with shard]|lens]|cbn beta].

Section WithLocale.
Context `{Locale}.

Lemma ReadNextReal_loop_runs n : forall s,
  HasPutbackSymbol s = false -> (List.length (rest s) < n)%nat ->
  runs (ReadNextReal_loop n) s (fun ok s' => moves s s' /\ (ok = true -> moves_lt s s')).
Proof.
  induction n as [|n IH]; intros s Hp Hn; [lia|]; cbn [ReadNextReal_loop].
  lex; try (split; [chain|intros; solve [discriminate|chain]]).
  all: loop_call IH; intros ok' s' (Hm & Hok); split; [chain|intros; chain].
Qed.

Lemma ReadNextWhileAlpha_loop_runs n : forall word s,
  HasPutbackSymbol s = false -> (List.length (rest s) < n)%nat ->
  runs (ReadNextWhileAlpha_loop n word) s (fun _ s' => moves s s').
Proof.
  induction n as [|n IH]; intros word s Hp Hn; [lia|]; cbn [ReadNextWhileAlpha_loop].
  lex; try chain.
  all: loop_call IH; intros; chain.
Qed.

Lemma ReadCharLiteral_loop_runs n : forall word ecran s,
  HasPutbackSymbol s = false -> (List.length (rest s) < n)%nat ->
  runs (ReadCharLiteral_loop n word ecran) s (fun _ s' => moves s s').
Proof.
  induction n as [|n IH]; intros word ecran s Hp Hn; [lia|]; cbn [ReadCharLiteral_loop].
  lex; try chain.
  all: loop_call IH; intros; chain.
Qed.

Lemma ReadStringLiteral_loop_runs n : forall word dontEcran ecran s,
  HasPutbackSymbol s = false -> (List.length (rest s) < n)%nat ->
  runs (ReadStringLiteral_loop n word dontEcran ecran) s (fun _ s' => moves s s').
Proof.
  induction n as [|n IH]; intros word dontEcran ecran s Hp Hn; [lia|];
    cbn [ReadStringLiteral_loop].
  lex; try chain.
  all: loop_call IH; intros; chain.
Qed.

Lemma SkipComment_loop_runs n : forall s,
  HasPutbackSymbol s = false -> (List.length (rest s) < n)%nat ->
  runs (SkipComment_loop n) s (fun _ s' => moves s s').
Proof.
  induction n as [|n IH]; intros s Hp Hn; [lia|]; cbn [SkipComment_loop].
  lex; try chain.
  all: loop_call IH; intros; chain.
Qed.

(** ** Number literals: the dot may be put back *)

Lemma dot_put_back s s1 s2 d :
  d = ch "." ->
  moves s s1 -> HasPutbackSymbol s1 = false -> moves_lt s1 s2 -> rest s1 = d :: rest s2 ->
  advances s (set_position (Line s2) (Offset s2 - 1) (set_Putback true d s2)).
Proof.
  intros Hd [A _] Hp [[(L2 & M2 & N2 & B2 & C2) Hp2] Hlt] R; etransitivity; [exact A|].
  unfold advances, pending, putback_count in *; rewrite Hp, Hp2 in *; simpl in *.
  assert (Hr : forall l o, rest (set_position l o (set_Putback true d s2)) = rest s2)
    by reflexivity.
  rewrite Hr; do 4 (split; [rewrite ?R; simpl; lia || assumption|]).
  assert (D1 : dot_ok s1) by (intros E; congruence).
  intros _; destruct (C2 D1) as (_ & cs & U & P); split; [intros _; exact Hd|].
  unfold unread in U; rewrite Hp, Hp2 in U; simpl in U.
  exists []; split; [unfold unread; simpl; rewrite Hp; exact R|].
  assert (cs = [d]) as ->.
  { rewrite R in U; destruct cs as [|c cs]; [apply (f_equal (@List.length _)) in U; simpl in U; lia|].
    injection U as -> U; apply (f_equal (@List.length _)) in U; rewrite length_app in U.
    destruct cs; [reflexivity|simpl in U; lia]. }
  subst d; unfold position in *; simpl in P |- *; injection P as -> ->; f_equal; lia.
Qed.

Lemma moves_advances s s' : moves s s' -> advances s s'.
Proof. intros [A _]; exact A. Qed.

Lemma advances_from s s' s'' : moves s s' -> advances s' s'' -> advances s s''.
Proof. intros [A _] B; etransitivity; eassumption. Qed.

Lemma ReadNumberLiteral_loop_runs n : forall word type found s,
  HasPutbackSymbol s = false -> (List.length (rest s) < n)%nat ->
  runs (ReadNumberLiteral_loop n word type found) s (fun _ s' => advances s s').
Proof.
  induction n as [|n IH]; intros word type found s Hp Hn; [lia|];
    cbn [ReadNumberLiteral_loop].
  lex.
  all: try (apply moves_advances; chain).
  all: try (loop_call IH; intros; eapply advances_from; [|eassumption]; chain).
  all: eapply runs_mono; [apply PeekLocal_runs|]; intros [ok afterDot] ? (-> & _); cbn beta iota.
  all: lex; try match goal with
    | R : rest ?y = _ :: rest ?x, E : (PeekSymbol ?y =? ch ".") = true
      |- advances _ (set_position _ _ (set_Putback _ _ ?x)) =>
        apply Z.eqb_eq in E; rewrite E in R;
        apply (dot_put_back _ y x); [reflexivity|chain|eauto 3 with shard|assumption|exact R]
    end.
  all: loop_call IH; intros; eapply advances_from; [|eassumption]; chain.
Qed.

Lemma ReadNumberLiteral_runs type s :
  HasPutbackSymbol s = false -> runs (ReadNumberLiteral type) s (fun _ s' => advances s s').
Proof.
  intros Hp; unfold ReadNumberLiteral, ReadBasePrefix; lex.
  all: eapply runs_mono; [apply ReadNumberLiteral_loop_runs; [eauto 3 with shard|unfold fuel_for; lia]|].
  all: intros [w t] s' A; apply runs_ret; eapply advances_from; [|exact A]; chain.
Qed.

(** ** Punctuation, operators, string prefix *)

Lemma followed_by_runs alts dflt s :
  HasPutbackSymbol s = false -> runs (followed_by alts dflt) s (fun _ s' => moves s s').
Proof. intros Hp; unfold followed_by; lex; chain. Qed.

Lemma IsPunctuation_runs s :
  HasPutbackSymbol s = false -> runs IsPunctuation s (fun _ s' => moves s s').
Proof.
  intros Hp; unfold IsPunctuation; lex; try chain; apply followed_by_runs, Hp.
Qed.

Lemma IsOperator_runs s :
  HasPutbackSymbol s = false -> runs IsOperator s (fun _ s' => moves s s').
Proof.
  intros Hp; unfold IsOperator; lex; try chain; apply followed_by_runs, Hp.
Qed.

(** The verbatim prefix never succeeds: the recursive call still sees [@]. *)
Lemma IsStringLiteral_loop_runs n : forall dontEcran s,
  HasPutbackSymbol s = false -> (List.length (rest s) < n)%nat ->
  runs (IsStringLiteral_loop n dontEcran) s (fun r s' => moves s s'
    /\ Symbol s' = Symbol s
    /\ r = (if Symbol s =? ch "@" then None
            else if Symbol s =? DQUOTE then Some (TokenType.StringLiteral, dontEcran)
            else None)).
Proof.
  induction n as [|n IH]; intros dontEcran s Hp Hn; [lia|]; cbn [IsStringLiteral_loop].
  apply runs_bind, runs_get.
  destruct (Symbol s =? ch "@") eqn:Eat; [|lex; auto using moves_refl].
  apply runs_bind; eapply runs_mono; [apply Peek1_runs|].
  intros ok s1 (Hsame & Hsym & Hpk); pose proof (moves_same _ _ Hp Hsame) as Hm.
  destruct ok; cbn [negb]; [|apply runs_ret; auto].
  apply runs_bind, runs_get; destruct (PeekSymbol s1 =? DQUOTE); cbn [negb]; [|apply runs_ret; auto].
  apply runs_bind; eapply runs_mono; [apply Advance_runs; eauto with shard|].
  destruct (Hpk eq_refl) as (l & Hl & Hw).
  assert (Hr1 : rest s1 = PeekSymbol s1 :: l) by (unfold rest; destruct Hsame as (-> & _); exact Hl).
  intros [] s2 Hs2; [|destruct Hs2 as (_ & Hs2); elim Hw; eapply Hs2, Hr1].
  destruct Hs2 as (c & Hc); pose proof (read_char_moves _ _ _ _ Hc) as Hlt.
  destruct Hc as (_ & _ & _ & _ & Hsym2 & _); simpl in Hsym2.
  eapply runs_mono; [eapply IH; [eauto 3 with shard|lens]|].
  cbn beta; intros r s3 (Hm3 & Hsym3 & ->).
  rewrite Hsym2, Hsym, Eat, Hsym3; split; [chain|split; congruence].
Qed.

(** ** A word, a token *)

Lemma IsStringLiteral_runs s :
  HasPutbackSymbol s = false -> runs IsStringLiteral s (fun _ s' => moves s s').
Proof.
  intros Hp; apply runs_bind, runs_get.
  eapply runs_mono; [apply IsStringLiteral_loop_runs; [exact Hp|unfold fuel_for; lia]|].
  intros r s' (Hm & _); exact Hm.
Qed.

(** Strict progress on what can still be delivered. *)
Definition advances_lt (s s' : LexState) : Prop :=
  advances s s' /\ (pending s' < pending s)%nat.

Lemma moves_lt_advances_lt s s' : HasPutbackSymbol s = false -> moves_lt s s' -> advances_lt s s'.
Proof.
  intros Hp [[A Hp'] Hlt]; split; [exact A|].
  unfold pending, putback_count; rewrite Hp, Hp'; lia.
Qed.

Lemma advances_lt_advances s1 s2 s3 : advances_lt s1 s2 -> advances s2 s3 -> advances_lt s1 s3.
Proof.
  intros [A H1] B; split; [etransitivity; eassumption|].
  destruct B as (_ & H2 & _); lia.
Qed.

Lemma ReadNextReal_runs s :
  runs ReadNextReal s (fun ok s' =>
    advances s s' /\ HasPutbackSymbol s' = false /\ (ok = true -> advances_lt s s')).
Proof.
  unfold ReadNextReal; apply runs_bind, runs_get; destruct (HasPutbackSymbol s) eqn:Hp.
  - runs_steps.
    assert (A : advances_lt s (set_position (Line s) (Offset s + 1)
                 (set_Putback false (PutbackSymbol s) (set_Symbol (PutbackSymbol s) s)))).
    { unfold advances_lt, advances, pending, putback_count, rest; rewrite Hp; simpl.
      split; [|lia]; do 4 (split; [lia || reflexivity|]); intros D.
      split; [intros [=]|]; exists [PutbackSymbol s]; unfold consumes, unread, position, rest.
      rewrite Hp, (D Hp); cbn; auto. }
    split; [apply A|split; [reflexivity|intros _; exact A]].
  - eapply runs_mono; [apply ReadNextReal_loop_runs; [exact Hp|unfold fuel_for; lia]|].
    intros ok s' ([A Hp'] & Hok); split; [exact A|split; [exact Hp'|]].
    intros Hok'; apply moves_lt_advances_lt; auto.
Qed.

(** The specification of a token-level read. *)
Definition word_post {A} (s : LexState) (r : option A) (s' : LexState) : Prop :=
  advances s s' /\ (r <> None -> advances_lt s s').

Lemma word_post_from {A} s s1 (r : option A) s' :
  advances_lt s s1 -> advances s1 s' -> word_post s r s'.
Proof.
  intros A1 A2; pose proof (advances_lt_advances _ _ _ A1 A2) as B.
  split; [exact (proj1 B)|auto].
Qed.

Lemma ReadStringLiteral_runs b s :
  HasPutbackSymbol s = false -> runs (ReadStringLiteral b) s (fun _ s' => moves s s').
Proof.
  intros Hp; apply runs_bind, runs_get, ReadStringLiteral_loop_runs; [exact Hp|].
  unfold fuel_for; lia.
Qed.

Lemma ReadCharLiteral_runs s :
  HasPutbackSymbol s = false -> runs ReadCharLiteral s (fun _ s' => moves s s').
Proof.
  intros Hp; apply runs_bind, runs_get, ReadCharLiteral_loop_runs; [exact Hp|].
  unfold fuel_for; lia.
Qed.

Lemma ReadNextWhileAlpha_runs s :
  HasPutbackSymbol s = false -> runs ReadNextWhileAlpha s (fun _ s' => moves s s').
Proof.
  intros Hp; apply runs_bind, runs_get, ReadNextWhileAlpha_loop_runs; [exact Hp|].
  unfold fuel_for; lia.
Qed.

Lemma ReadNextWord_loop_runs n : forall s,
  (pending s < n)%nat ->
  runs (ReadNextWord_loop n) s (word_post s).
Proof.
  induction n as [|n IH]; intros s Hn; [lia|]; cbn [ReadNextWord_loop].
  runs_call (ReadNextReal_runs s); intros ok s1 (A1 & P1 & L1).
  destruct ok; cbn [negb]; [specialize (L1 eq_refl); clear A1|apply runs_ret; split; [exact A1|congruence]].
  runs_call (IsPunctuation_runs s1 P1); intros [r|] s2 M2;
    [apply runs_ret; eapply word_post_from; [exact L1|apply moves_advances, M2]|].
  runs_call (IsOperator_runs s2 (moves_putback _ _ M2)); intros [[w t]|] s3 M3;
    pose proof (moves_trans _ _ _ M2 M3) as M13.
  - destruct (t =tt TokenType.Trivia);
      [|apply runs_ret; eapply word_post_from; [exact L1|apply moves_advances, M13]].
    apply runs_bind, runs_get.
    runs_call (SkipComment_loop_runs (fuel_for s3) s3 (moves_putback _ _ M3) ltac:(unfold fuel_for; lia)).
    intros again s4 M4; pose proof (moves_trans _ _ _ M13 M4) as M14.
    pose proof (advances_lt_advances _ _ _ L1 (moves_advances _ _ M14)) as L4.
    destruct again; [|apply runs_ret; split; [exact (proj1 L4)|congruence]].
    eapply runs_mono; [apply IH; destruct L4; lia|].
    intros r s5 (A5 & _); eapply word_post_from; eassumption.
  - runs_call (IsStringLiteral_runs s3 (moves_putback _ _ M3)); intros str s4 M4.
    assert (P4 : HasPutbackSymbol s4 = false) by exact (moves_putback _ _ M4).
    pose proof (advances_lt_advances _ _ _ L1 (moves_advances _ _ (moves_trans _ _ _ M13 M4))) as L4.
    destruct str as [[t dontEcran]|]; [|lex].
    + runs_call (ReadStringLiteral_runs dontEcran s4 P4).
      intros w s5 M5; apply runs_ret; eapply word_post_from; [exact L4|apply moves_advances, M5].
    + eapply runs_mono; [apply (ReadCharLiteral_runs s4 P4)|].
      intros w s5 M5; apply runs_ret; eapply word_post_from; [exact L4|apply moves_advances, M5].
    + eapply runs_mono; [apply ReadNumberLiteral_runs, P4|].
      intros w s5 A5; eapply word_post_from; [exact L4|exact A5].
    + eapply runs_mono; [apply (ReadNextWhileAlpha_runs s4 P4)|].
      intros w s5 M5; apply runs_ret; eapply word_post_from; [exact L4|apply moves_advances, M5].
Qed.

Lemma ReadNextWord_runs s : runs ReadNextWord s (word_post s).
Proof.
  apply runs_bind, runs_get, ReadNextWord_loop_runs.
  unfold fuel_for, pending, putback_count; destruct (HasPutbackSymbol s); lia.
Qed.

(** A token carries its word, and the location computed from the state the
    lexer is left in. *)
Definition token_post (s : LexState) (r : option SyntaxToken) (s' : LexState) : Prop :=
  word_post s r s' /\
  forall t, r = Some t -> t = token (Type_ t) (Word t) (GetLocation (Word t) s').

Lemma ReadNextToken_runs s : runs ReadNextToken s (token_post s).
Proof.
  runs_call (ReadNextWord_runs s); intros [[w t]|] s1 (A & Hlt).
  - apply runs_bind, runs_get, runs_ret; split; [split; [exact A|]|].
    + intros _; apply Hlt; discriminate.
    + intros t' [= <-]; reflexivity.
  - apply runs_ret; split; [split; [exact A|congruence]|discriminate].
Qed.
End WithLocale.
