(* ===== verification/LexerWords.v ===== *)
(** * What a token's word can be

    The spelling tables of the language, the equivalence of the keyword tests
    with a table lookup, and the well-formedness of every token the lexer
    returns. *)
From Stdlib Require Import ZArith Lia Bool List String.
From stdpp Require Import base list.
From S2P Require Import Prelude Tokens Reader Lexer LexerFacts.
Import ListNotations LexicalAnalyzer.
Open Scope Z_scope.
Open Scope shard_scope.

(** ** Spelling tables *)

(** Reserved words, in the order [ReadNextWord] tests them. *)
Definition keywords : list (wstring * TokenType) :=
    [(L "true", TokenType.BooleanLiteral); (L "false", TokenType.BooleanLiteral);
     (L "null", TokenType.NullLiteral); (L "nil", TokenType.NullLiteral);
     (L "using", TokenType.UsingKeyword); (L "method", TokenType.MethodKeyword);
     (L "class", TokenType.ClassKeyword); (L "struct", TokenType.StructKeyword);
     (L "interface", TokenType.InterfaceKeyword); (L "enum", TokenType.EnumKeyword);
     (L "namespace", TokenType.NamespaceKeyword);
     (L "public", TokenType.PublicKeyword); (L "private", TokenType.PrivateKeyword);
     (L "protected", TokenType.ProtectedKeyword);
     (L "internal", TokenType.InternalKeyword); (L "static", TokenType.StaticKeyword);
     (L "async", TokenType.AsyncKeyword); (L "extern", TokenType.ExternKeyword);
     (L "export", TokenType.ExportKeyword); (L "and", TokenType.AndOperator);
     (L "or", TokenType.OrOperator); (L "not", TokenType.NotOperator);
     (L "void", TokenType.VoidKeyword); (L "var", TokenType.VarKeyword);
     (L "bool", TokenType.BooleanKeyword); (L "string", TokenType.StringKeyword);
     (L "double", TokenType.DoubleKeyword); (L "int", TokenType.IntegerKeyword);
     (L "char", TokenType.CharKeyword); (L "byte", TokenType.ByteKeyword);
     (L "nint", TokenType.NativeIntegerKeyword); (L "lambda", TokenType.LambdaKeyword);
     (L "delegate", TokenType.DelegateKeyword); (L "if", TokenType.IfKeyword);
     (L "unless", TokenType.UnlessKeyword); (L "else", TokenType.ElseKeyword);
     (L "switch", TokenType.SwitchKeyword); (L "case", TokenType.CaseKeyword);
     (L "default", TokenType.DefaultKeyword); (L "return", TokenType.ReturnKeyword);
     (L "continue", TokenType.ContinueKeyword); (L "break", TokenType.BreakKeyword);
     (L "throw", TokenType.ThrowKeyword); (L "try", TokenType.TryKeyword);
     (L "catch", TokenType.CatchKeyword); (L "await", TokenType.AwaitKeyword);
     (L "for", TokenType.ForKeyword); (L "while", TokenType.WhileKeyword);
     (L "until", TokenType.UntilKeyword); (L "do", TokenType.DoKeyword);
     (L "foreach", TokenType.ForeachKeyword); (L "in", TokenType.InKeyword);
     (L "new", TokenType.NewKeyword); (L "get", TokenType.GetKeyword);
     (L "set", TokenType.SetKeyword); (L "field", TokenType.FieldKeyword);
     (L "indexer", TokenType.IndexerKeyword); (L "try", TokenType.TryKeyword);
     (L "catch", TokenType.CatchKeyword); (L "defer", TokenType.DeferKeyword);
     (L "where", TokenType.WhereKeyword); (L "const", TokenType.ConstKeyword);
     (L "func", TokenType.FunctionKeyword); (L "init", TokenType.InitKeyword);
     (L "operator", TokenType.OperatorKeyword); (L "value", TokenType.ValueKeyword);
     (L "is", TokenType.IsOperator); (L "as", TokenType.AsOperator)].

(** Punctuation and operators. *)
Definition punctuation : list (wstring * TokenType) :=
    [(L "{", TokenType.OpenBrace); (L "}", TokenType.CloseBrace);
     (L "(", TokenType.OpenCurl); (L ")", TokenType.CloseCurl);
     (L "[", TokenType.OpenSquare); (L "]", TokenType.CloseSquare);
     (L "..&", TokenType.RangeInclusiveOperator); (L "..", TokenType.RangeOperator);
     (L ".", TokenType.Delimeter); (L ",", TokenType.Comma);
     (L ":=", TokenType.DeclareAssignOperator); (L ":", TokenType.Colon);
     (L ";", TokenType.Semicolon); (L "??", TokenType.NullCoalescingOperator);
     (L "?", TokenType.Question)].

Definition operators : list (wstring * TokenType) :=
    [(L "==", TokenType.EqualsOperator); (L "=>", TokenType.LambdaOperator);
     (L "=", TokenType.AssignOperator); (L "!=", TokenType.NotEqualsOperator);
     (L "!", TokenType.NotOperator); (L ">=", TokenType.GreaterOrEqualsOperator);
     (L ">>", TokenType.RightShiftOperator); (L ">", TokenType.GreaterOperator);
     (L "<=", TokenType.LessOrEqualsOperator); (L "<<", TokenType.LeftShiftOperator);
     (L "<", TokenType.LessOperator); (L "+=", TokenType.AddAssignOperator);
     (L "++", TokenType.IncrementOperator); (L "+", TokenType.AddOperator);
     (L "-=", TokenType.SubAssignOperator); (L "--", TokenType.DecrementOperator);
     (L "->", TokenType.ArrowOperator); (L "-", TokenType.SubOperator);
     (L "*=", TokenType.MultAssignOperator); (L "*", TokenType.MultOperator);
     (L "/=", TokenType.DivAssignOperator); (L "/", TokenType.DivOperator);
     (L "%=", TokenType.ModAssignOperator); (L "%", TokenType.ModOperator);
     (L "^=", TokenType.PowAssignOperator); (L "^", TokenType.PowOperator);
     (L "&=", TokenType.AndAssignOperator); (L "&&", TokenType.AndOperator);
     (L "&", TokenType.AndOperator); (L "|=", TokenType.OrAssignOperator);
     (L "||", TokenType.OrOperator); (L "|", TokenType.OrOperator)].

Fixpoint spelled (w : wstring) (table : list (wstring * TokenType)) : option TokenType :=
  match table with
  | [] => None
  | (w', t) :: table => if w =w w' then Some t else spelled w table
  end.

Lemma spelled_In w t table : spelled w table = Some t -> In (w, t) table.
Proof.
  induction table as [|[w' t'] table IH]; simpl; [discriminate|].
  destruct (weqb_spec w w') as [->|_]; [intros [= ->]; auto|auto].
Qed.

(** The keyword tests of the source are one lookup in the table. *)
Lemma classify_table w :
  classify w = match spelled w keywords with Some t => t | None => TokenType.Identifier end.
Proof.
  unfold classify, IsBooleanLiteral, IsNullLiteral, IsDirectiveDecl, IsTypeDecl, IsModifier,
    IsWordOperator, IsType, IsKeyword, IsConditionalKeyword, IsFunctionalKeyword,
    IsLoopKeyword, keywords; cbn [spelled].
  repeat match goal with
  | |- context [w =w ?l] => destruct (w =w l); [reflexivity|]
  end.
  reflexivity.
Qed.

(** ** Well-formed tokens *)

(** A number: a digit, then number symbols (digits, base letters, volume
    suffixes). *)
Definition number_form (w : wstring) : bool :=
  match w with
  | d :: ds => is_digit d && forallb IsNumberSymbol ds
  | [] => false
  end.

Definition double_form (w : wstring) : Prop :=
  exists a b, w = a ++ ch "." :: b /\ number_form a = true /\ b <> []
    /\ forallb IsNumberSymbol b = true.

(** The words a token of each type may carry; the types the lexer never
    produces have none. *)
Definition token_ok (t : TokenType) (w : wstring) : Prop :=
  match t with
  | TokenType.Identifier => w <> [] /\ spelled w keywords = None
  | TokenType.StringLiteral | TokenType.CharLiteral => True
  | TokenType.NumberLiteral => number_form w = true
  | TokenType.DoubleLiteral => double_form w
  | _ => In (w, t) (keywords ++ punctuation ++ operators)
  end.

Definition result_ok (r : option (wstring * TokenType)) : Prop :=
  match r with Some (w, t) => token_ok t w | None => True end.

(** [yl] steps through a partial-correctness goal. *)
Ltac yl_step :=
  match goal with
  | |- yields (if ?b then _ else _) _ _ => destruct b eqn:?
  | |- yields (match ?x with Some _ => _ | None => _ end) _ _ => destruct x eqn:?
  | |- yields (match ?x with pair _ _ => _ end) _ _ => destruct x eqn:?
  | |- yields (bind _ _) _ _ => apply yields_bind
  | |- yields (ret _) _ _ => apply yields_ret
  | |- yields get _ _ => apply yields_get
  | |- yields (modify _) _ _ => apply yields_modify
  | |- yields out_of_fuel _ _ => apply yields_fuel
  | |- yields (Advance _) _ _ => apply yields_any; intros ? ?
  | |- yields Peek1 _ _ => apply yields_any; intros ? ?
  | |- yields PeekLocal _ _ => apply yields_any; intros ? ?
  end; cbn beta iota zeta.
Ltac yl := repeat yl_step.

Definition in_table (table : list (wstring * TokenType)) (r : option (wstring * TokenType)) : Prop :=
  match r with Some wt => In wt table | None => True end.

Lemma alternative_In c alts r : alternative c alts = Some r -> In r (map snd alts).
Proof.
  induction alts as [|[c' r'] alts IH]; simpl; [discriminate|].
  destruct (c =? c'); [intros [= ->]; auto|auto].
Qed.

Section WithLocale.
Context `{Locale}.

Lemma followed_by_yields alts dflt table s :
  incl (dflt :: map snd alts) table ->
  yields (followed_by alts dflt) s (fun r _ => in_table table r).
Proof.
  intros Hin; unfold followed_by; yl; cbn [in_table]; try (apply Hin; left; reflexivity).
  apply Hin; right; eapply alternative_In; eassumption.
Qed.

Ltac in_tables := intros ? Hin; repeat (destruct Hin as [<-|Hin]); [..|destruct Hin]; cbn; tauto.

Lemma IsPunctuation_yields s : yields IsPunctuation s (fun r _ => in_table punctuation r).
Proof.
  unfold IsPunctuation; yl; try exact I; try (cbn; tauto);
    apply followed_by_yields; in_tables.
Qed.

Lemma IsOperator_yields s :
  yields IsOperator s (fun r _ => in_table ((L "//", TokenType.Trivia) :: operators) r).
Proof.
  unfold IsOperator; yl; try exact I; apply followed_by_yields; in_tables.
Qed.

(** Reading the peeked character again yields the same character. *)
Lemma Advance_same_peek s l :
  rest s = PeekSymbol s :: l ->
  yields (Advance set_PeekSymbol) s (fun _ s' => PeekSymbol s' = PeekSymbol s).
Proof.
  intros Hl ok s'; unfold Advance, ReadNext; unfold rest in Hl; rewrite Hl.
  destruct (PeekSymbol s =? WEOF); [intros [= <- <-]; reflexivity|].
  intros [= <- <-]; repeat case_if; reflexivity.
Qed.

Lemma IsBasePrefixLetter_number c : IsBasePrefixLetter c = true -> IsNumberSymbol c = true.
Proof.
  unfold IsBasePrefixLetter; intros Hc.
  repeat (apply orb_true_iff in Hc as [Hc|Hc]); apply Z.eqb_eq in Hc as ->; reflexivity.
Qed.

Lemma digit_number c : is_digit c = true -> IsNumberSymbol c = true.
Proof.
  intros Hc; unfold IsNumberSymbol.
  change ((ch "0" <=? c) && (c <=? ch "9")) with (is_digit c); rewrite Hc; reflexivity.
Qed.

Lemma number_form_snoc w c :
  number_form w = true -> IsNumberSymbol c = true -> number_form (w ++ [c]) = true.
Proof.
  destruct w as [|d ds]; simpl; [discriminate|].
  intros Hw Hc; apply andb_true_iff in Hw as [-> Hds].
  rewrite forallb_app, Hds; simpl; rewrite Hc; reflexivity.
Qed.

(** The invariant of the number loop. *)
Definition number_inv (word : wstring) (type : TokenType) (found : bool) : Prop :=
  if found then type = TokenType.DoubleLiteral /\ double_form word
  else type = TokenType.NumberLiteral /\ number_form word = true.

Lemma number_inv_ok word type found : number_inv word type found -> token_ok type word.
Proof. destruct found; intros [-> Hw]; exact Hw. Qed.

Lemma number_inv_snoc word type found c :
  number_inv word type found -> IsNumberSymbol c = true -> number_inv (word ++ [c]) type found.
Proof.
  intros Hi Hc; destruct found; destruct Hi as [Ht Hw]; split; auto using number_form_snoc.
  destruct Hw as (a & b & -> & Ha & Hb & Hbs); exists a, (b ++ [c]).
  rewrite <- app_assoc; repeat split; auto.
  - intros E; apply app_eq_nil in E as [_ [=]].
  - rewrite forallb_app, Hbs; simpl; rewrite Hc; reflexivity.
Qed.

Lemma ReadNumberLiteral_loop_yields n : forall word type found s,
  number_inv word type found ->
  yields (ReadNumberLiteral_loop n word type found) s (fun r _ => token_ok r.2 r.1).
Proof.
  induction n as [|n IH]; intros word type found s Hi; cbn [ReadNumberLiteral_loop]; yl;
    try (eapply number_inv_ok; exact Hi);
    try (apply IH; auto using number_inv_snoc).
  all: destruct Hi as [_ Hw]; split; [reflexivity|].
  all: match goal with E : negb _ || negb _ = false |- _ => apply orb_false_iff in E as [_ E];
         apply negb_false_iff in E; rename E into Hd end.
  all: eexists word, [_]; cbn [forallb]; rewrite Hd; repeat split; auto; discriminate.
Qed.

Lemma ReadNumberLiteral_yields s :
  HasPutbackSymbol s = false -> is_digit (Symbol s) = true ->
  yields (ReadNumberLiteral TokenType.NumberLiteral) s (fun r _ => result_ok r).
Proof.
  intros Hp Hd; unfold ReadNumberLiteral; apply yields_bind, yields_get.
  rewrite (digit_number _ Hd).
  assert (Hnf : number_form [Symbol s] = true) by (cbn; rewrite Hd; reflexivity).
  apply yields_bind.
  eapply (yields_mono _ _ (fun word _ => number_form word = true)).
  - unfold ReadBasePrefix; destruct (_ =w _); [|yl; exact Hnf].
    apply yields_bind; intros ok s1 E1; eapply (runs_Some _ _ _ _ _ (Peek1_moves s Hp)) in E1.
    destruct E1 as [Hm Hpk]; apply yields_bind, yields_get.
    destruct (ok && _) eqn:E; [|apply yields_ret; exact Hnf].
    apply andb_true_iff in E as [-> Hb]; destruct (Hpk eq_refl) as (l & Hl & _).
    apply yields_bind; eapply yields_mono; [eapply Advance_same_peek, Hl|]; intros ok' s2 Hsame; yl.
    rewrite Hsame; apply number_form_snoc; [exact Hnf|apply IsBasePrefixLetter_number, Hb].
  - intros word s1 Hw; yl.
    eapply yields_mono; [apply (ReadNumberLiteral_loop_yields _ _ _ false); split; auto|].
    intros [w t] s2 Hok; yl; destruct w; [exact I|exact Hok].
Qed.

Lemma ReadNextWhileAlpha_loop_yields n : forall word s,
  word <> [] -> yields (ReadNextWhileAlpha_loop n word) s (fun w _ => w <> []).
Proof.
  induction n as [|n IH]; intros word s Hw; cbn [ReadNextWhileAlpha_loop]; yl; auto.
  apply IH; intros E; apply app_eq_nil in E as [_ [=]].
Qed.

(** A table without the literal types gives well-formed tokens. *)
Definition plain (t : TokenType) : bool :=
  match t with
  | TokenType.Identifier | TokenType.StringLiteral | TokenType.CharLiteral
  | TokenType.NumberLiteral | TokenType.DoubleLiteral => false
  | _ => true
  end.

Lemma plain_tables : forallb (fun r => plain r.2) (keywords ++ punctuation ++ operators) = true.
Proof. reflexivity. Qed.

Lemma table_ok w t : In (w, t) (keywords ++ punctuation ++ operators) -> token_ok t w.
Proof.
  intros Hin; pose proof (proj1 (forallb_forall _ _) plain_tables _ Hin) as Hp.
  destruct t; first [exact Hin|discriminate].
Qed.

Lemma classify_ok w : w <> [] -> token_ok (classify w) w.
Proof.
  intros Hw; rewrite classify_table; destruct (spelled w keywords) as [t|] eqn:E.
  - apply table_ok, in_or_app; left; apply spelled_In, E.
  - split; [exact Hw|exact E].
Qed.

Lemma ReadNextWord_loop_yields n : forall s,
  yields (ReadNextWord_loop n) s (fun r _ => result_ok r).
Proof.
  induction n as [|n IH]; intros s; cbn [ReadNextWord_loop]; [apply yields_fuel|].
  apply yields_bind; intros ok s1 E1.
  destruct (runs_Some _ _ _ _ _ (ReadNextReal_runs s) E1) as (_ & P1 & _).
  destruct ok; cbn [negb]; [|apply yields_ret; exact I].
  apply yields_bind; intros p s2 E2; pose proof (IsPunctuation_yields s1 _ _ E2) as T2.
  pose proof (runs_Some _ _ _ _ _ (IsPunctuation_runs s1 P1) E2) as M2.
  destruct p as [[w t]|];
    [apply yields_ret, table_ok, in_or_app; right; apply in_or_app; left; exact T2|].
  apply yields_bind; intros o s3 E3; pose proof (IsOperator_yields s2 _ _ E3) as T3.
  pose proof (runs_Some _ _ _ _ _ (IsOperator_runs s2 (moves_putback _ _ M2)) E3) as M3.
  destruct o as [[w t]|].
  - destruct (TokenType.eqb_spec t TokenType.Trivia) as [_|Hne].
    + apply yields_bind, yields_get, yields_bind, yields_any; intros again s4; yl; [apply IH|exact I].
    + apply yields_ret, table_ok, in_or_app; right; apply in_or_app; right.
      destruct T3 as [[= _ E]|T3]; [congruence|exact T3].
  - apply yields_bind; intros str s4 E4.
    assert (P4 : HasPutbackSymbol s4 = false /\ (forall t b, str = Some (t, b) ->
        t = TokenType.StringLiteral)).
    { assert (P3 : HasPutbackSymbol s3 = false) by exact (moves_putback _ _ M3).
      unfold IsStringLiteral in E4; apply bind_Some in E4 as (s3' & s3'' & [= <- <-] & E4).
      destruct (runs_Some _ _ _ _ _ (IsStringLiteral_loop_runs (fuel_for s3) false s3 P3
        ltac:(unfold fuel_for; lia)) E4) as (M4 & _ & ->).
      split; [exact (moves_putback _ _ M4)|].
      intros t b; repeat case_if; congruence. }
    destruct P4 as [P4 Tstr].
    destruct str as [[t b]|]; [rewrite (Tstr t b eq_refl)|].
    + apply yields_bind, yields_any; intros w s5; yl; destruct w; exact I.
    + apply yields_bind, yields_get; unfold IsCharLiteral, IsNumberLiteral.
      destruct (Symbol s4 =? SQUOTE);
        [apply yields_bind, yields_any; intros w s5; yl; destruct w; exact I|].
      destruct (_ && _) eqn:Hd; [apply ReadNumberLiteral_yields; [exact P4|exact Hd]|].
      apply yields_bind; unfold ReadNextWhileAlpha; apply yields_bind, yields_get.
      eapply yields_mono; [apply ReadNextWhileAlpha_loop_yields; discriminate|].
      intros w s5 Hw; apply yields_ret, classify_ok, Hw.
Qed.

(** Every token has a well-formed word. *)
Lemma ReadNextToken_yields s :
  yields ReadNextToken s (fun r _ => forall t, r = Some t ->
    IsMissing t = false /\ token_ok (Type_ t) (Word t)).
Proof.
  unfold ReadNextToken, ReadNextWord; apply yields_bind, yields_bind, yields_get.
  eapply yields_mono; [apply ReadNextWord_loop_yields|].
  intros [[w t]|] s1 Hok; yl; [|discriminate].
  intros t' [= <-]; split; [reflexivity|exact Hok].
Qed.

Lemma token_ok_not_eof t : token_ok (Type_ t) (Word t) -> is_eof t = false.
Proof.
  unfold is_eof; destruct (TokenType.eqb_spec (Type_ t) TokenType.EndOfFile) as [E|]; [|auto].
  rewrite E; intros Hin.
  assert (Hall : forallb (fun r => negb (r.2 =tt TokenType.EndOfFile))
                   (keywords ++ punctuation ++ operators) = true) by reflexivity.
  apply (proj1 (forallb_forall _ _) Hall) in Hin; discriminate.
Qed.
End WithLocale.
