(* ===== verification/LexerStream.v ===== *)
(** * From text to the stream of tokens, and where the tokens stand

    The reference semantics of lexing (read tokens until the text ends) and
    the proof that filling a [LexicalBuffer] from a [LexicalAnalyzer]
    computes it and always ends.  An identifier, a keyword, an operator or a
    punctuation mark is read from the very characters of its word; so the location
    computed from the end of the token and the length of the word is the place of
    its first character. *)
From Stdlib Require Import ZArith Lia Bool List String.
From stdpp Require Import base list.
From S2P Require Import Prelude Tokens Reader Lexer LexBuffer LexerFacts LexerWords.
Import ListNotations LexicalAnalyzer.
Open Scope Z_scope.
Open Scope shard_scope.

Section WithLocale.
Context `{Locale}.

(** The tokens read from a state up to the end of the text. *)
Inductive token_stream : LexState -> list SyntaxToken -> LexState -> Prop :=
| stream_end s s' :
    ReadNextToken s = Some (None, s') -> token_stream s [] s'
| stream_token s t s1 ts s' :
    ReadNextToken s = Some (Some t, s1) -> token_stream s1 ts s' -> token_stream s (t :: ts) s'.

Lemma ReadNextToken_total s : exists r s', ReadNextToken s = Some (r, s') /\ token_post s r s'.
Proof. exact (ReadNextToken_runs s). Qed.

(** A stream exists from every state, and has at most as many tokens as
    characters were pending. *)
Lemma token_stream_total n : forall s, (pending s < n)%nat ->
  exists ts s', token_stream s ts s' /\ (List.length ts <= pending s)%nat.
Proof.
  induction n as [|n IH]; intros s Hn; [lia|].
  destruct (ReadNextToken_total s) as ([t|] & s1 & E & (A & Hlt) & _).
  - destruct (Hlt ltac:(discriminate)) as [_ Hp].
    destruct (IH s1 ltac:(lia)) as (ts & s' & Hts & Hlen).
    exists (t :: ts), s'; split; [eapply stream_token; eassumption|simpl; lia].
  - exists [], s1; split; [apply stream_end, E|simpl; lia].
Qed.

Lemma token_stream_det s ts s' ts' s'' :
  token_stream s ts s' -> token_stream s ts' s'' -> ts = ts' /\ s' = s''.
Proof.
  intros H1; revert ts' s''; induction H1 as [s s' E|s t s1 ts s' E _ IH];
    intros ts' s'' H2; destruct H2 as [s2 s2' E'|s2 t' s2' ts2 s2'' E' H2]; rewrite E in E';
    inversion E'; subst; auto.
  destruct (IH _ _ H2) as [-> ->]; auto.
Qed.

(** ** The provider operations on an empty buffer *)

Lemma ReadNextToken_buffer s r s' :
  ReadNextToken s = Some (r, s') -> ReadBuffer s' = ReadBuffer s.
Proof.
  intros E; destruct (ReadNextToken_runs s) as (r0 & s0 & E0 & ((_ & _ & _ & B & _) & _) & _).
  rewrite E in E0; injection E0 as <- <-; exact B.
Qed.

Lemma set_ReadBuffer_id s : set_ReadBuffer (ReadBuffer s) s = s.
Proof. destruct s; reflexivity. Qed.

Definition delivered (r : option SyntaxToken) : SyntaxToken :=
  match r with Some t => t | None => eof_token end.

Lemma Consume_empty s r s1 :
  ReadBuffer s = [] -> ReadNextToken s = Some (r, s1) ->
  Consume s = Some (delivered r, set_ReadBuffer [delivered r] s1).
Proof.
  intros Hb E; pose proof (ReadNextToken_buffer _ _ _ E) as Hb1; rewrite Hb in Hb1.
  unfold Consume, bind, get; rewrite Hb, E.
  unfold push_back, modify, ret; rewrite Hb1; reflexivity.
Qed.

Lemma Consume_buffered s t b :
  ReadBuffer s = t :: b -> Consume s = Some (t, set_ReadBuffer b s).
Proof. intros Hb; unfold Consume, bind, get; rewrite Hb; reflexivity. Qed.

Lemma Current_buffered s t b : ReadBuffer s = t :: b -> Current s = Some (t, s).
Proof. intros Hb; unfold Current, bind, get; rewrite Hb; reflexivity. Qed.

Lemma Current_empty s r s1 :
  ReadBuffer s = [] -> ReadNextToken s = Some (r, s1) ->
  Current s = Some (delivered r, set_ReadBuffer [delivered r] s1).
Proof.
  intros Hb E; unfold Current, bind, get; rewrite Hb; apply Consume_empty; assumption.
Qed.

Lemma CanConsume_Current s t s' :
  Current s = Some (t, s') -> CanConsume s = Some (negb (is_eof t), s').
Proof. intros E; unfold CanConsume, bind; rewrite E; reflexivity. Qed.

Lemma stream_token_not_eof s t s1 :
  ReadNextToken s = Some (Some t, s1) -> is_eof t = false.
Proof.
  intros E; apply token_ok_not_eof, (ReadNextToken_yields s _ _ E t eq_refl).
Qed.

(** ** Filling a buffer computes the stream *)

Lemma PopulateFrom_stream s ts s' : token_stream s ts s' ->
  ReadBuffer s = [] -> forall n buffer, (List.length ts < n)%nat ->
  LexicalBuffer.PopulateFrom_loop (P := LexState) n buffer s =
    Some (LexicalBuffer.mkBuffer (LexicalBuffer.Sequence buffer ++ ts)
            (LexicalBuffer.CurrentIndex buffer), set_ReadBuffer [eof_token] s').
Proof.
  induction 1 as [s s' E|s t s1 ts s' E _ IH]; intros Hb n buffer Hn;
    (destruct n as [|n]; [simpl in Hn; lia|]); cbn [LexicalBuffer.PopulateFrom_loop].
  - pose proof (Current_empty _ _ _ Hb E) as Ec.
    erewrite bind_run by (apply CanConsume_Current, Ec); cbn.
    rewrite app_nil_r; destruct buffer; reflexivity.
  - pose proof (Current_empty _ _ _ Hb E) as Ec; cbn [delivered] in Ec.
    pose proof (ReadNextToken_buffer _ _ _ E) as Hb1; rewrite Hb in Hb1.
    erewrite bind_run by (apply CanConsume_Current, Ec).
    rewrite (stream_token_not_eof _ _ _ E); cbn [negb].
    erewrite bind_run by (eapply Current_buffered; reflexivity).
    erewrite bind_run by (eapply Consume_buffered; reflexivity).
    replace (set_ReadBuffer [] (set_ReadBuffer [t] s1)) with s1
      by (destruct s1; simpl in Hb1; subst; reflexivity).
    rewrite IH by (auto; simpl in Hn; lia); cbn.
    rewrite <- app_assoc; reflexivity.
Qed.

Lemma FromText_stream reader ts s' :
  token_stream (init reader) ts s' -> (List.length ts <= List.length (stream reader))%nat ->
  LexicalBuffer.FromText reader = Some (LexicalBuffer.mkBuffer ts 0).
Proof.
  intros Hts Hlen; unfold LexicalBuffer.FromText, LexicalBuffer.From.
  erewrite PopulateFrom_stream; [|exact Hts|reflexivity|lia]; reflexivity.
Qed.

Lemma FromText_total reader : exists ts s',
  token_stream (init reader) ts s' /\ (List.length ts <= List.length (stream reader))%nat
  /\ LexicalBuffer.FromText reader = Some (LexicalBuffer.mkBuffer ts 0).
Proof.
  destruct (token_stream_total (S (pending (init reader))) (init reader) ltac:(lia))
    as (ts & s' & Hts & Hlen).
  unfold pending, putback_count, rest in Hlen; simpl in Hlen; rewrite Nat.add_0_r in Hlen.
  exists ts, s'; repeat split; auto; eapply FromText_stream; eassumption.
Qed.

Lemma stream_tokens_ok s ts s' : token_stream s ts s' ->
  Forall (fun t => IsMissing t = false /\ token_ok (Type_ t) (Word t)) ts.
Proof.
  induction 1 as [|s t s1 ts s' E _ IH]; constructor; auto.
  exact (ReadNextToken_yields s _ _ E t eq_refl).
Qed.

Lemma unread_length s : List.length (unread s) = pending s.
Proof.
  unfold unread, pending, putback_count; rewrite length_app.
  destruct (HasPutbackSymbol s); simpl; lia.
Qed.

End WithLocale.

(** ** Characters taken from the text *)

(** A character that neither ends a line nor is left out of the columns. *)
Definition columned (c : wchar) : Prop := c <> LF /\ c <> 0.

Lemma Peek1_taken s : yields Peek1 s (fun ok s' =>
  rest s' = rest s /\ Symbol s' = Symbol s /\ HasPutbackSymbol s' = HasPutbackSymbol s
  /\ (ok = true -> exists l, rest s' = PeekSymbol s' :: l /\ PeekSymbol s' <> WEOF)).
Proof.
  intros ok s' E; destruct (runs_Some _ _ _ _ _ (Peek1_runs s) E) as ((Es & _ & _ & Ep & _) & Hs & Hpk).
  unfold rest in *; rewrite Es; auto.
Qed.

Lemma Advance_taken dst s : advance_target dst -> HasPutbackSymbol s = false ->
  yields (Advance dst) s (fun ok s' => ok = true -> exists c,
    rest s = c :: rest s' /\ HasPutbackSymbol s' = false
    /\ Symbol s' = Symbol (dst c s) /\ PeekSymbol s' = PeekSymbol (dst c s)).
Proof.
  intros Hd Hp ok s' E ->; destruct (runs_Some _ _ _ _ _ (Advance_runs dst s Hd Hp) E) as (c & Hr & _ & _ & Hp' & Hs & Hk).
  exists c; auto.
Qed.

(** The character just peeked is there to take. *)
Lemma Advance_next dst s c l : advance_target dst -> HasPutbackSymbol s = false -> rest s = c :: l -> c <> WEOF ->
  yields (Advance dst) s (fun _ s' =>
    rest s' = l /\ HasPutbackSymbol s' = false /\ Symbol s' = Symbol (dst c s) /\ PeekSymbol s' = PeekSymbol (dst c s)).
Proof.
  intros Hd Hp Hr Hc ok s' E; destruct ok.
  - destruct (Advance_taken dst s Hd Hp _ _ E eq_refl) as (c' & Hr' & H'); rewrite Hr in Hr'; injection Hr' as <- ->; auto.
  - destruct (runs_Some _ _ _ _ _ (Advance_runs dst s Hd Hp) E) as (_ & HW); elim Hc; eapply HW, Hr.
Qed.

Section WithLocale.
Context `{LocaleLaws}.

Lemma ReadNextReal_loop_taken n : forall s, HasPutbackSymbol s = false ->
  yields (ReadNextReal_loop n) s (fun ok s' => ok = true ->
    columned (Symbol s') /\ exists gap, rest s = gap ++ Symbol s' :: rest s').
Proof.
  induction n as [|n IH]; intros s Hp; cbn [ReadNextReal_loop]; [apply yields_fuel|].
  apply yields_bind; eapply yields_mono; [apply (Advance_taken set_Symbol s to_Symbol Hp)|].
  intros [] s1 H1; cbn [negb]; [|apply yields_ret; discriminate]; destruct (H1 eq_refl) as (c & Hr & Hp1 & Hs & _).
  assert (HI : forall s2, rest s2 = rest s1 -> HasPutbackSymbol s2 = false ->
    yields (ReadNextReal_loop n) s2 (fun ok s' => ok = true -> columned (Symbol s') /\ exists gap, rest s = gap ++ Symbol s' :: rest s')).
  { intros s2 E2 Hp2; eapply yields_mono; [apply IH, Hp2|]; intros ok s' Hk Hok; destruct (Hk Hok) as (Hc & gap & Hg).
    split; [exact Hc|]; exists (c :: gap); rewrite Hr, <- E2, Hg; reflexivity. }
  cbn in Hs; apply yields_bind, yields_get; rewrite Hs.
  destruct (_ || _); [apply HI; auto|]; destruct (Z.eqb_spec c LF) as [|Hlf]; [apply HI; auto|].
  destruct (Z.eqb_spec c 0) as [|Hz].
  - apply yields_bind; eapply yields_mono; [apply Peek1_taken|]; intros ok s2 (E2 & _ & Ep & _).
    destruct ok; cbn [negb]; [|apply yields_ret; discriminate].
    apply yields_bind, yields_get; destruct (_ =? 0); [apply yields_ret; discriminate|apply HI; [exact E2|congruence]].
  - destruct (iswspace c); cbn [negb]; [apply HI; auto|].
    apply yields_ret; intros _; rewrite Hs; split; [split; assumption|exists []; exact Hr].
Qed.

Lemma ReadNextReal_taken s : dot_ok s ->
  yields ReadNextReal s (fun ok s' => ok = true ->
    columned (Symbol s') /\ exists gap, unread s = gap ++ Symbol s' :: rest s').
Proof.
  intros D; unfold ReadNextReal, unread; apply yields_bind, yields_get; destruct (HasPutbackSymbol s) eqn:Hp.
  - intros ok s' [= <- <-] _; split; [|exists []; reflexivity]; simpl; rewrite (D Hp); split; discriminate.
  - eapply yields_mono; [apply ReadNextReal_loop_taken, Hp|]; auto.
Qed.

(** [w] is written from the character in [Symbol] on; the Greek question mark is a
    semicolon. *)
Definition spells (s s' : LexState) (w : wstring) : Prop := exists cs,
  (w = Symbol s :: cs \/ (w = L ";" /\ Symbol s = 0x37E /\ cs = []))
  /\ rest s = cs ++ rest s' /\ Forall columned cs.

Definition spelt (s : LexState) (r : option (wstring * TokenType)) (s' : LexState) : Prop :=
  match r with
  | Some (w, _) => spells s s' w
  | None => rest s' = rest s /\ Symbol s' = Symbol s
  end.

Lemma spelt_one s s' w t : w = [Symbol s] -> rest s' = rest s -> spelt s (Some (w, t)) s'.
Proof. intros -> E; exists []; split; [left; reflexivity|split; [symmetry; exact E|constructor]]. Qed.

Lemma alternative_at c alts r : alternative c alts = Some r -> In (c, r) alts.
Proof.
  induction alts as [|[c' r'] alts IH]; simpl; [discriminate|].
  destruct (Z.eqb_spec c c') as [<-|]; [intros [= ->]; auto|auto].
Qed.

Lemma followed_by_spelt alts dflt s : HasPutbackSymbol s = false -> fst dflt = [Symbol s] ->
  Forall (fun a => fst (snd a) = [Symbol s; fst a] /\ columned (fst a)) alts ->
  yields (followed_by alts dflt) s (spelt s).
Proof.
  intros Hp Hd Ha; unfold followed_by; apply yields_bind; eapply yields_mono; [apply Peek1_taken|].
  intros ok s1 (E1 & Es & Ep & Hk); destruct dflt as [w t]; cbn in Hd.
  destruct ok; [|apply yields_ret, spelt_one; assumption].
  destruct (Hk eq_refl) as (l & Hl & Hw); apply yields_bind, yields_get.
  destruct (alternative _ _) as [[w' t']|] eqn:Ea; [|apply yields_ret, spelt_one; assumption].
  apply alternative_at in Ea; rewrite List.Forall_forall in Ha; destruct (Ha _ Ea) as [Hw' Hc]; cbn in Hw', Hc.
  apply yields_bind; eapply yields_mono; [apply (Advance_next set_PeekSymbol s1 (PeekSymbol s1) l to_PeekSymbol); congruence|].
  intros _ s2 (E2 & _); apply yields_ret; exists [PeekSymbol s1]; split; [left; exact Hw'|].
  split; [rewrite E2, <- E1; exact Hl|repeat constructor; apply Hc].
Qed.

Lemma dots_spelt s : HasPutbackSymbol s = false -> Symbol s = ch "." ->
  yields (ok <- Peek1 ;;
    s <- get ;;
    if ok && (PeekSymbol s =? ch ".") then
      Advance set_PeekSymbol ;;;
      ok <- Peek1 ;;
      s <- get ;;
      if ok && (PeekSymbol s =? ch "&") then
        Advance set_PeekSymbol ;;;
        ret (Some (L "..&", TokenType.RangeInclusiveOperator))
      else ret (Some (L "..", TokenType.RangeOperator))
    else ret (Some (L ".", TokenType.Delimeter))) s (spelt s).
Proof.
  intros Hp Hs; apply yields_bind; eapply yields_mono; [apply Peek1_taken|]; intros ok s1 (E1 & _ & Ep & Hk).
  apply yields_bind, yields_get; destruct (ok && _) eqn:Hd; [|apply yields_ret, spelt_one; [rewrite Hs; reflexivity|exact E1]].
  apply andb_true_iff in Hd as [-> Hd%Z.eqb_eq]; destruct (Hk eq_refl) as (l & Hl & Hw).
  apply yields_bind; eapply yields_mono; [apply (Advance_next set_PeekSymbol s1 (PeekSymbol s1) l to_PeekSymbol); congruence|].
  intros _ s2 (E2 & Hp2 & _); apply yields_bind; eapply yields_mono; [apply Peek1_taken|]; intros ok s3 (E3 & _ & Ep3 & Hk3).
  rewrite E1, Hd in Hl; apply yields_bind, yields_get; destruct (ok && _) eqn:Hd3.
  - apply andb_true_iff in Hd3 as [-> Hd3%Z.eqb_eq]; destruct (Hk3 eq_refl) as (l3 & Hl3 & Hw3).
    apply yields_bind; eapply yields_mono; [apply (Advance_next set_PeekSymbol s3 (PeekSymbol s3) l3 to_PeekSymbol); congruence|].
    intros _ s4 (E4 & _); apply yields_ret; exists [ch "."; ch "&"]; rewrite Hs; split; [left; reflexivity|].
    split; [rewrite Hl, <- E2, <- E3, Hl3, Hd3, E4; reflexivity|repeat constructor; discriminate].
  - apply yields_ret; exists [ch "."]; rewrite Hs; split; [left; reflexivity|].
    split; [rewrite Hl, E3, E2; reflexivity|repeat constructor; discriminate].
Qed.

(** The branch is known from the test of [Symbol]. *)
Ltac by_symbol :=
  repeat match goal with
  | |- yields (if ?b then _ else _) _ _ => destruct b eqn:?
  end;
  repeat match goal with E : (_ =? _) = true |- _ => apply Z.eqb_eq in E | E : (_ =? _) = false |- _ => clear E end.
Ltac alternatives := match goal with E : Symbol ?s = _ |- _ =>
  apply followed_by_spelt; [assumption|rewrite E; reflexivity|rewrite E];
  repeat (constructor; [split; [reflexivity|split; discriminate]|]); constructor end.

Lemma IsPunctuation_spelt s : HasPutbackSymbol s = false -> yields IsPunctuation s (spelt s).
Proof.
  intros Hp; unfold IsPunctuation; apply yields_bind, yields_get; cbn zeta; by_symbol;
    first [apply dots_spelt; assumption|alternatives|apply yields_ret].
  all: try (apply spelt_one; [match goal with E : Symbol ?x = _ |- _ => rewrite E end; reflexivity|reflexivity]).
  - exists []; split; [right; auto|split; [reflexivity|constructor]].
  - split; reflexivity.
Qed.

Lemma IsOperator_spelt s : HasPutbackSymbol s = false -> yields IsOperator s (spelt s).
Proof.
  intros Hp; unfold IsOperator; apply yields_bind, yields_get; cbn zeta; by_symbol;
    first [alternatives|apply yields_ret; split; reflexivity].
Qed.

(** ** Words *)
Lemma alnum_columned c : iswalnum c || (c =? ch "_") = true -> columned c.
Proof. intros Hc; split; intros ->; rewrite iswalnum_ascii in Hc by reflexivity; discriminate. Qed.

Lemma ReadNextWhileAlpha_loop_taken n : forall word s, HasPutbackSymbol s = false ->
  yields (ReadNextWhileAlpha_loop n word) s (fun w s' => exists cs,
    w = word ++ cs /\ rest s = cs ++ rest s' /\ Forall columned cs).
Proof.
  assert (HN : forall word s s1, rest s1 = rest s -> exists cs, word = word ++ cs /\ rest s = cs ++ rest s1 /\ Forall columned cs)
    by (intros word s s1 E; exists (@nil wchar); rewrite app_nil_r, E; repeat split; constructor).
  induction n as [|n IH]; intros word s Hp; cbn [ReadNextWhileAlpha_loop]; [apply yields_fuel|].
  apply yields_bind; eapply yields_mono; [apply Peek1_taken|]; intros ok s1 (E1 & _ & Ep & Hk).
  destruct ok; cbn [negb]; [|apply yields_ret, HN, E1]; destruct (Hk eq_refl) as (l & Hl & Hw).
  apply yields_bind, yields_get; rewrite <- negb_orb; destruct (_ || _) eqn:Hc; cbn [negb]; [|apply yields_ret, HN, E1].
  apply yields_bind; eapply yields_mono; [apply (Advance_next set_Symbol s1 (PeekSymbol s1) l to_Symbol); congruence|].
  intros _ s2 (E2 & Hp2 & Hs & _); apply yields_bind, yields_get; cbn in Hs; rewrite Hs.
  eapply yields_mono; [apply IH, Hp2|]; intros w s' (cs & -> & Hr & Hcs); exists (PeekSymbol s1 :: cs).
  split; [rewrite <- app_assoc; reflexivity|]; split; [rewrite <- E1, Hl, <- E2, Hr; reflexivity|].
  constructor; [apply alnum_columned, Hc|exact Hcs].
Qed.

(** The types of words that need not be written as they stand in the token. *)
Definition literal (t : TokenType) : bool :=
  match t with
  | TokenType.StringLiteral | TokenType.CharLiteral | TokenType.NumberLiteral | TokenType.DoubleLiteral => true
  | _ => false
  end.

(** A verbatim word: not a literal, and not a word after an at sign, between which and
    the word a quote may have been skipped. *)
Definition verbatim (t : TokenType) (w : wstring) : bool :=
  negb (literal t) && match w with c :: _ => negb (c =? ch "@") | [] => false end.

Lemma number_literal n : forall word type found s, literal type = true ->
  yields (ReadNumberLiteral_loop n word type found) s (fun r _ => literal (snd r) = true).
Proof.
  induction n as [|n IH]; intros word type found s Ht; cbn [ReadNumberLiteral_loop]; yl; try exact Ht; apply IH; auto.
Qed.

(** [w] is the end of what is read between the two states. *)
Definition placed (s s' : LexState) (w : wstring) : Prop :=
  exists gap body, unread s = gap ++ body ++ unread s' /\
    (body = w \/ (body = [0x37E] /\ w = L ";")) /\ Forall columned body.

Lemma spells_placed s s1 s' w gap :
  unread s = gap ++ Symbol s1 :: rest s1 -> columned (Symbol s1) -> HasPutbackSymbol s' = false ->
  spells s1 s' w -> placed s s' w.
Proof.
  intros Hg Hc Hp (cs & Hw & Hr & Hcs); exists gap, (Symbol s1 :: cs); unfold unread at 2; rewrite Hp, Hg, Hr.
  split; [reflexivity|]; split; [|constructor; assumption].
  destruct Hw as [->|(-> & -> & ->)]; auto.
Qed.

Lemma placed_later s s1 s' w cs : unread s = cs ++ unread s1 -> placed s1 s' w -> placed s s' w.
Proof.
  intros Hr (gap & body & Hg & Hb); exists (cs ++ gap), body; rewrite Hr, Hg, app_assoc; auto.
Qed.

Lemma ReadNextWord_loop_placed n : forall s, dot_ok s ->
  yields (ReadNextWord_loop n) s (fun r s' => forall w t, r = Some (w, t) -> verbatim t w = true -> placed s s' w).
Proof.
  induction n as [|n IH]; intros s D; cbn [ReadNextWord_loop]; [apply yields_fuel|].
  apply yields_bind; intros ok s1 E1.
  destruct (runs_Some _ _ _ _ _ (ReadNextReal_runs s) E1) as (A1 & P1 & _).
  pose proof (ReadNextReal_taken s D _ _ E1) as T1; destruct ok; cbn [negb]; [|apply yields_ret; discriminate].
  destruct (T1 eq_refl) as (Hc & gap & Hg); clear T1.
  apply yields_bind; intros p s2 E2; pose proof (IsPunctuation_spelt s1 P1 _ _ E2) as T2.
  pose proof (runs_Some _ _ _ _ _ (IsPunctuation_runs s1 P1) E2) as M2; pose proof (moves_putback _ _ M2) as P2.
  destruct p as [[w t]|]; [apply yields_ret; intros ? ? [= <- <-] _; apply (spells_placed s s1 s2 w gap); assumption|].
  apply yields_bind; intros o s3 E3; pose proof (IsOperator_spelt s2 P2 _ _ E3) as T3.
  pose proof (runs_Some _ _ _ _ _ (IsOperator_runs s2 P2) E3) as M3; pose proof (moves_putback _ _ M3) as P3.
  destruct T2 as [R2 S2]; destruct o as [[w t]|].
  - assert (Hw : spells s1 s3 w) by (unfold spelt, spells in *; rewrite <- R2, <- S2; exact T3).
    destruct (t =tt TokenType.Trivia); [|apply yields_ret; intros ? ? [= <- <-] _; apply (spells_placed s s1 s3 w gap); assumption].
    apply yields_bind, yields_get, yields_bind; intros again s4 E4; destruct again; [|apply yields_ret; discriminate].
    pose proof (runs_Some _ _ _ _ _ (SkipComment_loop_runs (fuel_for s3) s3 P3 ltac:(unfold fuel_for; lia)) E4) as M4.
    assert (A4 : advances s s4) by (etransitivity; [exact A1|exact (moves_advances _ _ (moves_trans _ _ _ M2 (moves_trans _ _ _ M3 M4)))]).
    destruct A4 as (_ & _ & _ & _ & C4); destruct (C4 D) as (D4 & cs & Hcs & _).
    eapply yields_mono; [apply IH, D4|]; intros r s5 Hr w' t' Hrw Hv; eapply placed_later; eauto.
  - destruct T3 as [R3 S3]; apply yields_bind; intros str s4 E4.
    assert (H4 : HasPutbackSymbol s4 = false /\ Symbol s4 = Symbol s1 /\ (Symbol s1 <> ch "@" -> rest s4 = rest s1)
      /\ (forall t b, str = Some (t, b) -> literal t = true)).
    { unfold IsStringLiteral in E4; apply bind_Some in E4 as (s3' & s3'' & [= <- <-] & E4).
      destruct (runs_Some _ _ _ _ _ (IsStringLiteral_loop_runs (fuel_for s3) false s3 P3
        ltac:(unfold fuel_for; lia)) E4) as (M4 & S4 & Hstr).
      split; [exact (moves_putback _ _ M4)|]; split; [congruence|]; split.
      - intros Hat; cbn [fuel_for IsStringLiteral_loop] in E4; unfold fuel_for in E4; cbn [IsStringLiteral_loop] in E4.
        apply bind_Some in E4 as (s5 & s6 & [= <- <-] & E4); rewrite S3, S2 in E4.
        destruct (Z.eqb_spec (Symbol s1) (ch "@")); [contradiction|]; destruct (_ =? DQUOTE); injection E4 as _ <-; congruence.
      - subst str; intros t b; repeat case_if; intros [= <- <-]; reflexivity. }
    destruct H4 as (P4 & S4 & R4 & L4); destruct str as [[t b]|].
    + apply yields_bind, yields_any; intros w s5; apply yields_ret; intros w' t'; destruct w; [|discriminate].
      intros [= <- <-]; unfold verbatim; rewrite (L4 t b eq_refl); discriminate.
    + apply yields_bind, yields_get; unfold IsCharLiteral, IsNumberLiteral.
      destruct (Symbol s4 =? SQUOTE).
      { apply yields_bind, yields_any; intros w s5; apply yields_ret; intros w' t'; destruct w; [|discriminate].
        intros [= <- <-]; discriminate. }
      destruct (_ && _).
      { unfold ReadNumberLiteral; apply yields_bind, yields_get, yields_bind, yields_any; intros w s5.
        apply yields_bind, yields_get, yields_bind; eapply yields_mono; [apply number_literal; reflexivity|].
        intros [w' t'] s6 Hl; apply yields_ret; intros w2 t2; destruct w'; [discriminate|]; intros [= <- <-]; cbn in Hl.
        unfold verbatim; rewrite Hl; discriminate. }
      apply yields_bind; unfold ReadNextWhileAlpha; apply yields_bind, yields_get; intros w s5 E5.
      destruct (ReadNextWhileAlpha_loop_taken _ _ _ P4 _ _ E5) as (cs & -> & Hr & Hcs).
      pose proof (runs_Some _ _ _ _ _ (ReadNextWhileAlpha_loop_runs (fuel_for s4) [Symbol s4] s4 P4 ltac:(unfold fuel_for; lia)) E5) as M5.
      apply yields_ret; intros w t [= <- <-] Hv; apply (spells_placed s s1 s5 _ gap Hg Hc (moves_putback _ _ M5)).
      unfold verbatim in Hv; apply andb_true_iff in Hv as [_ Hv]; cbn [app] in *; rewrite S4 in *.
      exists cs; split; [left; reflexivity|]; split; [|exact Hcs]; rewrite <- R4, Hr; [reflexivity|].
      intros E; rewrite E in Hv; discriminate.
Qed.

(** ** Locations *)

(** The line and the column of the character after the text [before], both from 1. *)
Definition place (before : list wchar) : Z * Z :=
  let p := fold_left step_pos before (1, 0) in (p.1, p.2 + 1).

(** The stretch [cs] of text behind [before] ends with the token; a verbatim token is
    located at its first character, and every token in the line where it ends. *)
Definition located (name : wstring) (before cs : list wchar) (t : SyntaxToken) : Prop :=
  FileName (Location t) = name /\ LocLine (Location t) = fst (place (before ++ cs)) /\
  (verbatim (Type_ t) (Word t) = true -> exists gap body,
     cs = gap ++ body /\ (body = Word t \/ (body = [0x37E] /\ Word t = L ";")) /\
     Location t = mkLocation name (fst (place (before ++ gap))) (snd (place (before ++ gap)))
                    (Z.of_nat (List.length (Word t)))).

(** Consecutive tokens, each at the end of its own stretch of text: [before] is
    consumed, [after] is still to read. *)
Inductive tokens_located (name : wstring) : list wchar -> list wchar -> list SyntaxToken -> Prop :=
| located_nil before after : tokens_located name before after []
| located_cons before cs after t ts :
    cs <> [] -> located name before cs t ->
    tokens_located name (before ++ cs) after ts ->
    tokens_located name before (cs ++ after) (t :: ts).

Lemma columned_place cs : Forall columned cs -> forall p,
  fold_left step_pos cs p = (p.1, p.2 + Z.of_nat (List.length cs)).
Proof.
  induction 1 as [|c cs [Hl Hz] _ IH]; intros [l o]; [cbn; f_equal; lia|]; cbn [fold_left]; rewrite IH.
  unfold step_pos; rewrite (proj2 (Z.eqb_neq _ _) Hl), (proj2 (Z.eqb_neq _ _) Hz); cbn [negb fst snd List.length]; f_equal; lia.
Qed.

Lemma column_nonneg cs : forall p, 0 <= snd p -> 0 <= snd (fold_left step_pos cs p).
Proof.
  induction cs as [|c cs IH]; intros p Hp; [exact Hp|]; apply IH; unfold step_pos; repeat case_if; cbn; lia.
Qed.

Lemma token_located s t s' before cs : dot_ok s -> position s = fold_left step_pos before (1, 0) ->
  ReadNextToken s = Some (Some t, s') -> unread s = cs ++ unread s' -> position s' = fold_left step_pos cs (position s) ->
  located (GetName (SourceText s')) before cs t.
Proof.
  intros D Hp E Hr Hpos; destruct (runs_Some _ _ _ _ _ (ReadNextToken_runs s) E) as (_ & Ht).
  specialize (Ht t eq_refl); rewrite Hp, <- fold_left_app in Hpos.
  assert (HL : position s' = fold_left step_pos (before ++ cs) (1, 0)) by exact Hpos.
  split; [rewrite Ht; reflexivity|]; split; [rewrite Ht; unfold place; rewrite <- HL; reflexivity|]; intros Hv.
  unfold ReadNextToken, ReadNextWord in E; apply bind_Some in E as (r & s1 & E & E1).
  apply bind_Some in E as (s0 & s0' & [= <- <-] & E); destruct r as [[w type]|]; [|discriminate].
  apply bind_Some in E1 as (s2 & s3 & [= <- <-] & E1); injection E1 as Et <-.
  pose proof (ReadNextWord_loop_placed _ s D _ _ E w type eq_refl) as HP; rewrite <- Et in Hv; specialize (HP Hv).
  destruct HP as (gap & body & Hg & Hb & Hc); rewrite Hr, app_assoc in Hg; apply app_inv_tail in Hg.
  exists gap, body; split; [exact Hg|]; rewrite <- Et; split; [exact Hb|].
  rewrite Hg, app_assoc, fold_left_app, (columned_place body Hc) in HL.
  pose proof (column_nonneg (before ++ gap) (1, 0) ltac:(cbn; lia)) as Hn.
  assert (Hlen : List.length w = List.length body) by (destruct Hb as [->|[-> ->]]; reflexivity).
  unfold position in HL; injection HL as HL1 HL2.
  unfold GetLocation, place; cbn [Location token Word fst snd]; rewrite HL1, HL2, Hlen.
  f_equal; destruct (Z.ltb_spec (snd (fold_left step_pos (before ++ gap) (1, 0)) + Z.of_nat (List.length body) - Z.of_nat (List.length body) + 1) 1); lia.
Qed.

Lemma stream_located s ts s' : token_stream s ts s' -> forall before,
  dot_ok s -> position s = fold_left step_pos before (1, 0) ->
  tokens_located (GetName (SourceText s)) before (unread s) ts.
Proof.
  induction 1 as [|s t s1 ts s' E _ IH]; intros before D Hp; [constructor|].
  destruct (ReadNextToken_runs s) as (r & s0 & E0 & ((_ & _ & Hn & _ & C) & Hlt) & _).
  rewrite E in E0; injection E0 as <- <-; destruct (C D) as (D1 & cs & Hr & Hpos).
  rewrite Hr, <- Hn; constructor.
  - destruct (Hlt ltac:(discriminate)) as [_ Hlt']; intros ->.
    rewrite <- !unread_length, Hr in Hlt'; simpl in Hlt'; lia.
  - exact (token_located s t s1 before cs D Hp E Hr Hpos).
  - apply IH; [exact D1|]; rewrite fold_left_app, <- Hp; exact Hpos.
Qed.
End WithLocale.
