(* ===== verification/LexerPrint.v ===== *)
(** * Printing tokens and reading them back

    A printer for well-formed tokens, with the escapes the lexer undoes, and
    the lemmas that lexing a printed token returns it: one per kind of
    token. *)
From Stdlib Require Import ZArith Lia Bool List String.
From stdpp Require Import base list.
From S2P Require Import Prelude Tokens Reader Lexer LexBuffer LexerFacts LexerWords LexerStream.
Import ListNotations LexicalAnalyzer.
Open Scope Z_scope.
Open Scope shard_scope.

(** ** The printer *)

Definition escape_string_char (c : wchar) : wstring :=
  if c =? BACKSLASH then [BACKSLASH; BACKSLASH]
  else if c =? DQUOTE then [BACKSLASH; DQUOTE]
  else if c =? LF then [BACKSLASH; ch "n"]
  else [c].

Definition escape_char_char (c : wchar) : wstring :=
  if c =? BACKSLASH then [BACKSLASH; BACKSLASH]
  else if c =? SQUOTE then [BACKSLASH; SQUOTE]
  else [c].

Definition render (t : TokenType) (w : wstring) : wstring :=
  match t with
  | TokenType.StringLiteral => DQUOTE :: flat_map escape_string_char w ++ [DQUOTE]
  | TokenType.CharLiteral => SQUOTE :: flat_map escape_char_char w ++ [SQUOTE]
  | _ => w
  end.

Definition SPACE : wchar := 32.

(** Tokens printed one after the other, each followed by a space. *)
Definition print_tokens (tws : list (TokenType * wstring)) : wstring :=
  flat_map (fun tw => render tw.1 tw.2 ++ [SPACE]) tws.

Definition ident_start (c : wchar) : bool := is_alpha c || (c =? ch "_").
Definition ident_char (c : wchar) : bool := ascii_alnum c || (c =? ch "_").
Definition ident_form (w : wstring) : bool :=
  match w with
  | c :: cs => ident_start c && forallb ident_char cs
  | [] => false
  end.

(** What can be printed: well-formed tokens, with ASCII identifiers and no
    end-of-file mark inside a literal. *)
Definition printable (tw : TokenType * wstring) : Prop :=
  token_ok tw.1 tw.2 /\
  match tw.1 with
  | TokenType.Identifier => ident_form tw.2 = true
  | TokenType.StringLiteral | TokenType.CharLiteral => Forall (fun c => c <> WEOF) tw.2
  | _ => True
  end.

(** ** Looking at a state *)

Definition view (s : LexState) (sym : wchar) (l : list wchar) (b : list SyntaxToken) : Prop :=
  Symbol s = sym /\ rest s = l /\ HasPutbackSymbol s = false /\ ReadBuffer s = b.

Lemma Advance_Symbol_view s x c l b :
  view s x (c :: l) b -> c <> WEOF ->
  runs (Advance set_Symbol) s (fun ok s' => ok = true /\ view s' c l b).
Proof.
  intros (_ & Hr & Hp & Hb) Hc.
  eapply runs_mono; [apply Advance_runs; [constructor|exact Hp]|].
  intros [] s' Hs; [|destruct Hs as (_ & Hs); elim Hc; eapply Hs, Hr].
  destruct Hs as (c' & Hr' & _ & (_ & _ & _ & Hb' & _) & Hp' & Hsym & _).
  rewrite Hr in Hr'; injection Hr' as <- ->; simpl in *; repeat split; congruence.
Qed.

Lemma Advance_Peek_view s x c l b :
  view s x (c :: l) b -> c <> WEOF ->
  runs (Advance set_PeekSymbol) s (fun ok s' => ok = true /\ PeekSymbol s' = c /\ view s' x l b).
Proof.
  intros (Hx & Hr & Hp & Hb) Hc.
  eapply runs_mono; [apply Advance_runs; [constructor|exact Hp]|].
  intros [] s' Hs; [|destruct Hs as (_ & Hs); elim Hc; eapply Hs, Hr].
  destruct Hs as (c' & Hr' & _ & (_ & _ & _ & Hb' & _) & Hp' & Hsym & Hpk).
  rewrite Hr in Hr'; injection Hr' as <- ->; simpl in *; repeat split; congruence.
Qed.

Lemma Peek1_view s x c l b :
  view s x (c :: l) b -> c <> WEOF ->
  runs Peek1 s (fun ok s' => ok = true /\ PeekSymbol s' = c /\ view s' x (c :: l) b).
Proof.
  intros (Hx & Hr & Hp & Hb) Hc; unfold Peek1, runs, PeekNext; unfold rest in Hr; rewrite Hr.
  destruct (Z.eqb_spec c WEOF); [contradiction|]; do 2 eexists; split; [reflexivity|].
  repeat split; auto.
Qed.

Lemma view_fuel s x l b : view s x l b -> (List.length l < fuel_for s)%nat.
Proof. intros (_ & Hr & _); unfold fuel_for; rewrite Hr; lia. Qed.

(** [vstep] executes one primitive whose next character is known. *)
Ltac vnext := first [ eassumption | discriminate | congruence | lia ].
Ltac vstep :=
  match goal with
  | V : view ?s _ (?c :: _) _ |- runs (bind (Advance set_Symbol) _) ?s _ =>
      apply runs_bind; eapply runs_mono; [eapply Advance_Symbol_view; [exact V|vnext]|];
      let V' := fresh "V" in intros ? ? (-> & V'); clear V; cbn beta iota; cbn [negb]
  | V : view ?s _ (?c :: _) _ |- runs (bind (Advance set_PeekSymbol) _) ?s _ =>
      apply runs_bind; eapply runs_mono; [eapply Advance_Peek_view; [exact V|vnext]|];
      let V' := fresh "V" in let P := fresh "P" in
      intros ? ? (-> & P & V'); clear V; cbn beta iota; cbn [negb]
  | V : view ?s _ (?c :: _) _ |- runs (bind Peek1 _) ?s _ =>
      apply runs_bind; eapply runs_mono; [eapply Peek1_view; [exact V|vnext]|];
      let V' := fresh "V" in let P := fresh "P" in
      intros ? ? (-> & P & V'); clear V; cbn beta iota; cbn [negb]
  | |- runs (bind get _) _ _ => apply runs_bind, runs_get; cbn beta zeta
  | |- runs (bind (ret _) _) _ _ => apply runs_bind, runs_ret; cbn beta iota
  end.

(** [vsym] replaces the [Symbol] of a viewed state by its value. *)
Ltac vsym :=
  match goal with
  | V : view ?s ?y _ _ |- context [Symbol ?s] =>
      let E := fresh "E" in assert (E : Symbol s = y) by apply V; rewrite E; clear E
  end.
Ltac vexact := match goal with V : view _ _ _ _ |- _ => exact V end.

Section WithLocale.
Context `{LocaleLaws}.

(** ** Finding the token *)

(** A visible ASCII character. *)
Definition starter (c : wchar) : bool := is_ascii c && negb (ascii_space c) && negb (c =? 0).

Lemma starter_facts c : starter c = true ->
  c <> WEOF /\ (c =? 0xEFBB) || (c =? 0xFEFF) || (c =? 0xFFFE) = false /\ (c =? LF) = false
  /\ (c =? 0) = false /\ iswspace c = false.
Proof.
  unfold starter; intros Hc; apply andb_true_iff in Hc as [Hc Hz].
  apply andb_true_iff in Hc as [Ha Hs]; apply negb_true_iff in Hs, Hz.
  rewrite iswspace_ascii by exact Ha.
  unfold is_ascii in Ha; unfold ascii_space in *; zbool.
  unfold WEOF, LF; split; [lia|split; [|split; [|split; [apply Z.eqb_neq; assumption|]]]].
  - rewrite !orb_false_iff, !Z.eqb_neq; lia.
  - destruct (Z.eqb_spec c 10) as [->|]; [discriminate|reflexivity].
  - apply orb_false_iff; split; [assumption|apply Z.eqb_neq; assumption].
Qed.

Lemma ReadNextReal_view s x c l b sp :
  view s x (sp ++ c :: l) b -> sp = [] \/ sp = [SPACE] -> starter c = true ->
  runs ReadNextReal s (fun ok s' => ok = true /\ view s' c l b).
Proof.
  intros V Hsp Hc; destruct (starter_facts c Hc) as (Hw & Hbom & Hlf & Hz & Hspace).
  assert (Hread : forall n s, view s x (c :: l) b \/ view s SPACE (c :: l) b ->
            runs (ReadNextReal_loop (S n)) s (fun ok s' => ok = true /\ view s' c l b)).
  { clear s V; intros n s [V|V]; cbn [ReadNextReal_loop]; vstep; vstep;
      match goal with V : view ?s1 c _ _ |- _ => assert (Hx : Symbol s1 = c) by apply V end;
      rewrite Hx, Hbom, Hlf, Hz, Hspace; apply runs_ret; auto. }
  unfold ReadNextReal; apply runs_bind, runs_get.
  pose proof (view_fuel _ _ _ _ V) as Hf.
  destruct (fuel_for s) as [|n] eqn:En; [lia|].
  assert (Hp : HasPutbackSymbol s = false) by apply V; rewrite Hp.
  destruct Hsp as [-> | ->]; cbn [app] in V; [apply Hread; auto|].
  cbn [ReadNextReal_loop]; vstep; vstep.
  destruct n as [|n]; [simpl in Hf; lia|].
  assert (Hs' : Symbol s' = SPACE) by apply V0; rewrite Hs'; cbn.
  rewrite iswspace_ascii by reflexivity; cbn -[ReadNextReal_loop].
  apply Hread; right; exact V0.
Qed.

(** ** Punctuation and operators *)

(** [reads m w t]: [m], started after the first character of [w], consumes
    the rest of [w] when a space follows, and answers [(w, t)]. *)
Definition reads (m : LexM (option (wstring * TokenType))) (w : wstring) (t : TokenType) : Prop :=
  match w with
  | [] => False
  | c :: w' => starter c = true /\
      forall s l b, view s c (w' ++ SPACE :: l) b ->
        runs m s (fun r s' => r = Some (w, t) /\ exists x, view s' x (SPACE :: l) b)
  end.

(** Running a token read by computation: the text is known up to the space. *)
Ltac compute_read :=
  split; [reflexivity|];
  let s := fresh "s" in let l := fresh "l" in let b := fresh "b" in
  let Hs := fresh in let Hr := fresh in let Hp := fresh in let Hb := fresh in
  intros s l b (Hs & Hr & Hp & Hb); destruct s as [[nm st] li o sy pk hp pb rb];
  unfold rest in Hr; simpl in Hs, Hr, Hp, Hb; subst;
  do 2 eexists; split; [cbv; reflexivity|];
  split; [reflexivity|]; eexists; repeat split.

Lemma punctuation_reads : Forall (fun wt => reads IsPunctuation wt.1 wt.2) punctuation.
Proof. repeat (apply Forall_cons; split; [compute_read|]); apply Forall_nil_2. Qed.

Lemma operators_read : Forall (fun wt => reads IsOperator wt.1 wt.2) operators.
Proof. repeat (apply Forall_cons; split; [compute_read|]); apply Forall_nil_2. Qed.

(** A character that starts no punctuation (no operator) leaves the state
    untouched in the test. *)
Definition starts (table : list (wstring * TokenType)) : list wchar :=
  map (fun wt => match wt.1 with c :: _ => c | [] => 0 end) table.

Definition starts_with (table : list (wstring * TokenType)) (c : wchar) : bool :=
  existsb (Z.eqb c) (starts table).

(** Turns a failed [starts_with] test and the [if] chain over the same
    characters into their common result. *)
Ltac no_case Hs :=
  cbn [starts_with starts punctuation operators map app existsb fst L list_ascii_of_string] in Hs;
  unfold starts_with in Hs; cbn in Hs;
  repeat (apply orb_false_iff in Hs as [? Hs]);
  repeat match goal with
  | E : (_ =? _) = false |- _ => apply Z.eqb_neq in E
  end;
  repeat match goal with
  | |- context [Symbol ?s =? ?n] => destruct (Z.eqb_spec (Symbol s) n); [contradiction|]
  end.

Lemma IsPunctuation_None s :
  starts_with punctuation (Symbol s) = false -> (Symbol s =? 0x37E) = false ->
  IsPunctuation s = Some (None, s).
Proof.
  intros Hs Hq; unfold IsPunctuation, bind, get; cbv zeta; rewrite Hq.
  no_case Hs; reflexivity.
Qed.

Lemma IsOperator_None s :
  starts_with operators (Symbol s) = false -> IsOperator s = Some (None, s).
Proof. intros Hs; unfold IsOperator, bind, get; cbv zeta; no_case Hs; reflexivity. Qed.

(** ** From the second half of [ReadNextWord] to the whole *)

(** What [ReadNextWord] does after the punctuation and operator tests. *)
Definition word_or_literal : LexM (option (wstring * TokenType)) :=
  str <- IsStringLiteral ;;
  match str with
  | Some (type, dontEcran) =>
      w <- ReadStringLiteral dontEcran ;;
      ret (match w with Some word => Some (word, type) | None => None end)
  | None =>
  s <- get ;;
  match IsCharLiteral s with
  | Some type =>
      w <- ReadCharLiteral ;;
      ret (match w with Some word => Some (word, type) | None => None end)
  | None =>
  match IsNumberLiteral s with
  | Some type => ReadNumberLiteral type
  | None =>
      word <- ReadNextWhileAlpha ;;
      ret (Some (word, classify word))
  end end end.

Definition other_start (c : wchar) : bool :=
  starter c && negb (starts_with punctuation c) && negb (starts_with operators c)
  && negb (c =? 0x37E).

(** [reads_back text w t]: [ReadNextWord] reads [text] up to the next space
    and answers [(w, t)]. *)
Definition reads_back (text w : wstring) (t : TokenType) : Prop :=
  forall n s x sp l b, sp = [] \/ sp = [SPACE] -> view s x (sp ++ text ++ SPACE :: l) b ->
    runs (ReadNextWord_loop (S n)) s
      (fun r s' => r = Some (w, t) /\ exists x, view s' x (SPACE :: l) b).

Lemma punctuation_reads_back w t : reads IsPunctuation w t -> reads_back w w t.
Proof.
  unfold reads; destruct w as [|c w']; [intros []|]; intros [Hc Hr] n s x sp l b Hsp V.
  cbn [ReadNextWord_loop app] in *.
  runs_call (ReadNextReal_view s x c (w' ++ SPACE :: l) b sp V Hsp Hc).
  intros ok s1 (-> & V1); cbn [negb].
  runs_call (Hr s1 l b V1); intros r s2 (-> & V2); apply runs_ret; auto.
Qed.

Lemma operator_reads_back w t :
  reads IsOperator w t -> t <> TokenType.Trivia ->
  match w with c :: _ => starts_with punctuation c = false /\ (c =? 0x37E) = false | [] => True end ->
  reads_back w w t.
Proof.
  unfold reads; destruct w as [|c w']; [intros []|]; intros [Hc Hr] Ht [Hp Hq] n s x sp l b Hsp V.
  cbn [ReadNextWord_loop app] in *.
  runs_call (ReadNextReal_view s x c (w' ++ SPACE :: l) b sp V Hsp Hc).
  intros ok s1 (-> & V1); cbn [negb].
  assert (Hsym : Symbol s1 = c) by apply V1.
  apply runs_bind; exists None, s1; split; [apply IsPunctuation_None; rewrite Hsym; assumption|].
  runs_call (Hr s1 l b V1); intros r s2 (-> & V2).
  destruct (TokenType.eqb_spec t TokenType.Trivia); [contradiction|apply runs_ret; auto].
Qed.

Lemma other_reads_back c w' w t :
  other_start c = true ->
  (forall s l b, view s c (w' ++ SPACE :: l) b ->
     runs word_or_literal s (fun r s' => r = Some (w, t) /\ exists x, view s' x (SPACE :: l) b)) ->
  reads_back (c :: w') w t.
Proof.
  unfold other_start; intros Hc Hr n s x sp l b Hsp V; zbool.
  cbn [ReadNextWord_loop app] in *.
  runs_call (ReadNextReal_view s x c (w' ++ SPACE :: l) b sp V Hsp ltac:(assumption)).
  intros ok s1 (-> & V1); cbn [negb].
  assert (Hsym : Symbol s1 = c) by apply V1.
  apply runs_bind; exists None, s1; split;
    [apply IsPunctuation_None; rewrite Hsym; [assumption|apply Z.eqb_neq; assumption]|].
  apply runs_bind; exists None, s1; split; [apply IsOperator_None; rewrite Hsym; assumption|].
  apply Hr; exact V1.
Qed.

(** ** Words *)

Lemma ident_char_facts c : ident_char c = true ->
  c <> WEOF /\ negb (iswalnum c) && negb (c =? ch "_") = false.
Proof.
  unfold ident_char; intros Hc.
  assert (Hr : 48 <= c <= 122).
  { change (ch "_") with 95 in Hc; unfold ascii_alnum, is_digit, is_alpha in Hc.
    rewrite !orb_true_iff, !andb_true_iff, !Z.leb_le, Z.eqb_eq in Hc; lia. }
  split; [unfold WEOF; lia|].
  rewrite iswalnum_ascii by (unfold is_ascii; lia).
  destruct (ascii_alnum c); [reflexivity|exact (f_equal negb Hc)].
Qed.

Lemma space_ends_word : negb (iswalnum SPACE) && negb (SPACE =? ch "_") = true.
Proof. rewrite iswalnum_ascii by reflexivity; reflexivity. Qed.

Lemma ReadNextWhileAlpha_view cs : forall n s x l b word,
  forallb ident_char cs = true -> view s x (cs ++ SPACE :: l) b ->
  (List.length (cs ++ SPACE :: l) < n)%nat ->
  runs (ReadNextWhileAlpha_loop n word) s
    (fun w s' => w = word ++ cs /\ exists x, view s' x (SPACE :: l) b).
Proof.
  induction cs as [|c cs IH]; intros n s x l b word Hcs V Hn;
    (destruct n as [|n]; [simpl in Hn; lia|]); cbn [ReadNextWhileAlpha_loop app] in *.
  - vstep; vstep; rewrite P, space_ends_word; apply runs_ret; rewrite app_nil_r; eauto.
  - cbn [forallb] in Hcs; apply andb_true_iff in Hcs as [Hc Hcs].
    destruct (ident_char_facts c Hc) as [Hw Hid]; vstep; vstep.
    rewrite P, Hid; vstep; vstep.
    vsym.
    eapply runs_mono; [eapply IH; [exact Hcs|vexact|simpl in Hn; lia]|].
    intros w s2 (-> & V2); rewrite <- app_assoc; auto.
Qed.

Lemma ident_start_other c : ident_start c = true ->
  other_start c = true /\ (c =? ch "@") = false /\ (c =? DQUOTE) = false
  /\ (c =? SQUOTE) = false /\ is_digit c = false.
Proof.
  unfold ident_start, is_alpha; change (ch "_") with 95; intros Hc.
  assert (Hn : exists n, c = Z.of_nat n /\ (n < 128)%nat).
  { exists (Z.to_nat c); rewrite !orb_true_iff, !andb_true_iff, !Z.leb_le, Z.eqb_eq in Hc; lia. }
  destruct Hn as (n & -> & Hn).
  do 128 (destruct n as [|n]; [first [discriminate Hc|vm_compute; auto]|]); lia.
Qed.

Lemma IsStringLiteral_plain s c l b :
  view s c l b -> (c =? ch "@") = false -> (c =? DQUOTE) = false ->
  IsStringLiteral s = Some (None, s).
Proof.
  intros (Hsym & _) Hat Hdq; unfold IsStringLiteral, bind, get, fuel_for.
  cbn [IsStringLiteral_loop]; unfold bind, get; rewrite Hsym, Hat, Hdq; reflexivity.
Qed.

Lemma word_reads_back c cs :
  ident_start c = true -> forallb ident_char cs = true ->
  reads_back (c :: cs) (c :: cs) (classify (c :: cs)).
Proof.
  intros Hc Hcs; destruct (ident_start_other c Hc) as (Ho & Hat & Hdq & Hsq & Hd).
  apply other_reads_back; [exact Ho|]; intros s l b V.
  assert (Hsym : Symbol s = c) by apply V.
  unfold word_or_literal; apply runs_bind; exists None, s; split;
    [eapply IsStringLiteral_plain; eassumption|].
  apply runs_bind, runs_get; unfold IsCharLiteral, IsNumberLiteral; rewrite Hsym, Hsq.
  change ((ch "0" <=? c) && (c <=? ch "9")) with (is_digit c); rewrite Hd.
  apply runs_bind; unfold ReadNextWhileAlpha; apply runs_bind, runs_get; rewrite Hsym.
  eapply runs_mono; [eapply ReadNextWhileAlpha_view; [exact Hcs|exact V|]|].
  - pose proof (view_fuel _ _ _ _ V); assumption.
  - intros w s' (-> & V'); apply runs_ret; auto.
Qed.

(** ** String and character literals *)

Lemma ReadStringLiteral_view cs : forall n s x l b word,
  Forall (fun c => c <> WEOF) cs ->
  view s x (flat_map escape_string_char cs ++ DQUOTE :: SPACE :: l) b ->
  (List.length (flat_map escape_string_char cs ++ DQUOTE :: SPACE :: l) < n)%nat ->
  runs (ReadStringLiteral_loop n word false false) s
    (fun w s' => w = Some (word ++ cs) /\ exists x, view s' x (SPACE :: l) b).
Proof.
  induction cs as [|c cs IH]; intros n s x l b word Hcs V Hn;
    (destruct n as [|n]; [cbn in Hn; lia|]); cbn [ReadStringLiteral_loop flat_map app] in *.
  - vstep; vstep; vsym; cbn.
    vstep; apply runs_ret; rewrite app_nil_r; eauto.
  - inversion_clear Hcs as [|? ? Hc Hcs']; unfold escape_string_char at 1 in V.
    unfold escape_string_char at 1 in Hn.
    assert (Hgo : forall m s x, view s x (flat_map escape_string_char cs ++ DQUOTE :: SPACE :: l) b ->
        (List.length (flat_map escape_string_char cs ++ DQUOTE :: SPACE :: l) < m)%nat ->
        runs (ReadStringLiteral_loop m (word ++ [c]) false false) s
          (fun w s' => w = Some (word ++ c :: cs) /\ exists x, view s' x (SPACE :: l) b)).
    { intros m s0 x0 V0 Hm; eapply runs_mono; [eapply IH; eassumption|].
      intros w s2 (-> & V2); rewrite <- app_assoc; auto. }
    clear IH; revert V Hn.
    destruct (Z.eqb_spec c BACKSLASH) as [->|Hb]; [|destruct (Z.eqb_spec c DQUOTE) as [->|Hq];
      [|destruct (Z.eqb_spec c LF) as [->|Hl]]]; cbn [app]; intros V Hn.
    1-3: vstep; vstep; vsym; cbn;
         destruct n as [|n]; [cbn in Hn; lia|]; cbn [ReadStringLiteral_loop]; vstep; vstep;
         vsym; cbn -[ReadStringLiteral_loop];
         apply runs_bind, runs_modify; eapply Hgo; [|cbn in Hn |- *; lia];
         match goal with V : view _ _ _ _ |- _ =>
           destruct V as (_ & V); split; [reflexivity|exact V] end.
    vstep; vstep; vsym.
    rewrite (proj2 (Z.eqb_neq c BACKSLASH) Hb), (proj2 (Z.eqb_neq c DQUOTE) Hq).
    destruct (c =? ch "n"); (eapply Hgo; [vexact|cbn in Hn; lia]).
Qed.

Lemma ReadCharLiteral_view cs : forall n s x l b word,
  Forall (fun c => c <> WEOF) cs ->
  view s x (flat_map escape_char_char cs ++ SQUOTE :: SPACE :: l) b ->
  (List.length (flat_map escape_char_char cs ++ SQUOTE :: SPACE :: l) < n)%nat ->
  runs (ReadCharLiteral_loop n word false) s
    (fun w s' => w = Some (word ++ cs) /\ exists x, view s' x (SPACE :: l) b).
Proof.
  induction cs as [|c cs IH]; intros n s x l b word Hcs V Hn;
    (destruct n as [|n]; [cbn in Hn; lia|]); cbn [ReadCharLiteral_loop flat_map app] in *.
  - vstep; vstep; vsym; cbn.
    vstep; apply runs_ret; rewrite app_nil_r; eauto.
  - inversion_clear Hcs as [|? ? Hc Hcs']; unfold escape_char_char at 1 in V.
    unfold escape_char_char at 1 in Hn.
    assert (Hgo : forall m s x, view s x (flat_map escape_char_char cs ++ SQUOTE :: SPACE :: l) b ->
        (List.length (flat_map escape_char_char cs ++ SQUOTE :: SPACE :: l) < m)%nat ->
        runs (ReadCharLiteral_loop m (word ++ [c]) false) s
          (fun w s' => w = Some (word ++ c :: cs) /\ exists x, view s' x (SPACE :: l) b)).
    { intros m s0 x0 V0 Hm; eapply runs_mono; [eapply IH; eassumption|].
      intros w s2 (-> & V2); rewrite <- app_assoc; auto. }
    clear IH; revert V Hn.
    destruct (Z.eqb_spec c BACKSLASH) as [->|Hb]; [|destruct (Z.eqb_spec c SQUOTE) as [->|Hq]];
      cbn [app]; intros V Hn.
    1-2: vstep; vstep; vsym; cbn;
         destruct n as [|n]; [cbn in Hn; lia|]; cbn [ReadCharLiteral_loop]; vstep; vstep;
         vsym; cbn -[ReadCharLiteral_loop]; eapply Hgo; [vexact|cbn in Hn |- *; lia].
    vstep; vstep; vsym.
    rewrite (proj2 (Z.eqb_neq c BACKSLASH) Hb), (proj2 (Z.eqb_neq c SQUOTE) Hq).
    eapply Hgo; [vexact|cbn in Hn; lia].
Qed.

Lemma string_reads_back w :
  Forall (fun c => c <> WEOF) w ->
  reads_back (render TokenType.StringLiteral w) w TokenType.StringLiteral.
Proof.
  intros Hw; apply other_reads_back; [reflexivity|]; intros s l b V.
  rewrite <- app_assoc in V; cbn [app] in V.
  pose proof (view_fuel _ _ _ _ V) as Hf.
  unfold word_or_literal; apply runs_bind; exists (Some (TokenType.StringLiteral, false)), s; split.
  - unfold IsStringLiteral, bind, get, fuel_for; cbn [IsStringLiteral_loop].
    unfold bind, get; vsym; reflexivity.
  - apply runs_bind; unfold ReadStringLiteral; apply runs_bind, runs_get.
    eapply runs_mono; [eapply ReadStringLiteral_view; eassumption|].
    intros r s' (-> & V'); apply runs_ret; auto.
Qed.

Lemma char_reads_back w :
  Forall (fun c => c <> WEOF) w ->
  reads_back (render TokenType.CharLiteral w) w TokenType.CharLiteral.
Proof.
  intros Hw; apply other_reads_back; [reflexivity|]; intros s l b V.
  rewrite <- app_assoc in V; cbn [app] in V.
  pose proof (view_fuel _ _ _ _ V) as Hf.
  unfold word_or_literal; apply runs_bind; exists None, s; split;
    [eapply IsStringLiteral_plain; [exact V| |]; reflexivity|].
  apply runs_bind, runs_get; unfold IsCharLiteral; vsym; cbn.
  apply runs_bind; unfold ReadCharLiteral; apply runs_bind, runs_get.
  eapply runs_mono; [eapply ReadCharLiteral_view; eassumption|].
  intros r s' (-> & V'); apply runs_ret; auto.
Qed.

(** ** Numbers *)

Lemma number_symbol_facts c : IsNumberSymbol c = true ->
  c <> WEOF /\ (c =? ch "`") = false /\ (c =? ch ".") = false.
Proof.
  intros Hc; split; [intros ->; discriminate|].
  split; apply Z.eqb_neq; intros ->; discriminate.
Qed.

(** A run of number symbols is collected whatever follows it. *)
Lemma number_symbols_view ds : forall n s x tl b word type found P,
  forallb IsNumberSymbol ds = true -> view s x (ds ++ tl) b ->
  (List.length (ds ++ tl) < n)%nat ->
  (forall m s' x', view s' x' tl b -> (List.length tl < m)%nat ->
     runs (ReadNumberLiteral_loop m (word ++ ds) type found) s' P) ->
  runs (ReadNumberLiteral_loop n word type found) s P.
Proof.
  induction ds as [|d ds IH]; intros n s x tl b word type found P Hds V Hn Hk.
  - rewrite app_nil_r in Hk; eapply Hk; eassumption.
  - destruct n as [|n]; [simpl in Hn; lia|]; cbn [forallb app] in *.
    apply andb_true_iff in Hds as [Hd Hds].
    destruct (number_symbol_facts d Hd) as (Hw & Hbt & Hdot).
    cbn [ReadNumberLiteral_loop]; vstep; vstep; rewrite P0, Hbt; cbn iota; vstep.
    rewrite P0, Hdot, Hd; cbn iota; vstep.
    eapply IH; [exact Hds|vexact|simpl in Hn; lia|].
    intros m s2 x2 V2 Hm; rewrite <- app_assoc; eapply Hk; eassumption.
Qed.

Lemma number_end_view n s x l b word type found :
  view s x (SPACE :: l) b -> (List.length (SPACE :: l) < n)%nat ->
  runs (ReadNumberLiteral_loop n word type found) s
    (fun r s' => r = (word, type) /\ exists x, view s' x (SPACE :: l) b).
Proof.
  intros V Hn; destruct n as [|n]; [simpl in Hn; lia|]; cbn [ReadNumberLiteral_loop].
  vstep; vstep; rewrite P; change (SPACE =? ch "`") with false; cbn iota; vstep; rewrite P.
  change (SPACE =? ch ".") with false; change (IsNumberSymbol SPACE) with false; cbn iota.
  apply runs_ret; eauto.
Qed.

Lemma PeekLocal_view s x c l b :
  view s x (c :: l) b -> c <> WEOF -> PeekLocal s = Some ((true, c), s).
Proof.
  intros (_ & Hr & _) Hc; unfold PeekLocal, PeekNext; unfold rest in Hr; rewrite Hr.
  destruct (Z.eqb_spec c WEOF); [contradiction|reflexivity].
Qed.

Lemma number_dot_view n s x d ds l b word :
  IsNumberSymbol d = true -> forallb IsNumberSymbol ds = true ->
  view s x (ch "." :: d :: ds ++ SPACE :: l) b ->
  (List.length (ch "." :: d :: ds ++ SPACE :: l) < n)%nat ->
  runs (ReadNumberLiteral_loop n word TokenType.NumberLiteral false) s
    (fun r s' => r = (word ++ ch "." :: d :: ds, TokenType.DoubleLiteral)
                 /\ exists x, view s' x (SPACE :: l) b).
Proof.
  intros Hd Hds V Hn; destruct n as [|n]; [simpl in Hn; lia|]; cbn [ReadNumberLiteral_loop].
  destruct (number_symbol_facts d Hd) as (Hw & _ & _).
  vstep; vstep; rewrite P; change (ch "." =? ch "`") with false; cbn iota; vstep; rewrite P.
  rewrite Z.eqb_refl; cbn iota; vstep.
  apply runs_bind; do 2 eexists; split; [eapply PeekLocal_view; [vexact|exact Hw]|].
  cbn beta iota; rewrite Hd; cbn [negb orb]; vstep.
  eapply number_symbols_view; [exact Hds|vexact|simpl in Hn; lia|].
  intros m s2 x2 V2 Hm; eapply runs_mono; [eapply number_end_view; eassumption|].
  intros r s3 (-> & V3); split; [rewrite <- app_assoc; reflexivity|exact V3].
Qed.

(** The base prefix only moves a number symbol from the text to the word. *)
Lemma ReadBasePrefix_view s c ds y tl b :
  forallb IsNumberSymbol ds = true -> y <> WEOF -> IsBasePrefixLetter y = false ->
  view s c (ds ++ y :: tl) b ->
  runs (ReadBasePrefix [c]) s (fun word s' =>
    exists pre ds', word = c :: pre /\ ds = pre ++ ds' /\ forallb IsNumberSymbol ds' = true
      /\ exists x, view s' x (ds' ++ y :: tl) b).
Proof.
  intros Hds Hy Hyb V; unfold ReadBasePrefix.
  assert (Hsame : forall s' x, view s' x (ds ++ y :: tl) b -> exists pre ds', [c] = c :: pre
      /\ ds = pre ++ ds' /\ forallb IsNumberSymbol ds' = true
      /\ exists x, view s' x (ds' ++ y :: tl) b).
  { intros s' x V'; exists [], ds; repeat split; eauto. }
  destruct (_ =w _); [|apply runs_ret; eauto].
  destruct ds as [|d ds]; cbn [app] in V.
  - vstep; vstep; rewrite P, Hyb; cbn; apply runs_ret; eapply Hsame; vexact.
  - cbn [forallb] in Hds; apply andb_true_iff in Hds as [Hd Hds].
    destruct (number_symbol_facts d Hd) as (Hw & _ & _); vstep; vstep; rewrite P; cbn [andb].
    destruct (IsBasePrefixLetter d); [|apply runs_ret; eapply Hsame; vexact].
    vstep; vstep; rewrite P0; apply runs_ret; exists [d], ds; repeat split; eauto.
Qed.

Lemma digit_other c : is_digit c = true ->
  other_start c = true /\ (c =? ch "@") = false /\ (c =? DQUOTE) = false /\ (c =? SQUOTE) = false.
Proof.
  unfold is_digit; intros Hc; rewrite andb_true_iff, !Z.leb_le in Hc.
  assert (Hn : exists n, c = Z.of_nat n /\ (48 <= n < 58)%nat) by (exists (Z.to_nat c); lia).
  destruct Hn as (n & -> & Hn).
  do 58 (destruct n as [|n]; [first [lia|vm_compute; auto]|]); lia.
Qed.

(** Both number kinds: the integer part, then what ends the literal. *)
Lemma number_literal_reads_back c ds y tl w t :
  is_digit c = true -> forallb IsNumberSymbol ds = true ->
  y <> WEOF -> IsBasePrefixLetter y = false ->
  (forall n s x l b, view s x (y :: tl l) b -> (List.length (y :: tl l) < n)%nat ->
     runs (ReadNumberLiteral_loop n (c :: ds) TokenType.NumberLiteral false) s
       (fun r s' => r = (w, t) /\ exists x, view s' x (SPACE :: l) b)) ->
  w <> [] -> forall s l b, view s c (ds ++ y :: tl l) b ->
  runs word_or_literal s (fun r s' => r = Some (w, t) /\ exists x, view s' x (SPACE :: l) b).
Proof.
  intros Hc Hds Hy Hyb Hend Hw s l b V.
  destruct (digit_other c Hc) as (Ho & Hat & Hdq & Hsq).
  unfold word_or_literal; apply runs_bind; exists None, s; split;
    [eapply IsStringLiteral_plain; eassumption|].
  apply runs_bind, runs_get; unfold IsCharLiteral, IsNumberLiteral; vsym; rewrite Hsq.
  change ((ch "0" <=? c) && (c <=? ch "9")) with (is_digit c); rewrite Hc.
  unfold ReadNumberLiteral; apply runs_bind, runs_get; vsym; rewrite (digit_number _ Hc).
  runs_call (ReadBasePrefix_view s c ds y (tl l) b Hds Hy Hyb V).
  intros word s1 (pre & ds' & -> & -> & Hds' & x & V1).
  apply runs_bind, runs_get, runs_bind.
  eapply number_symbols_view; [exact Hds'|exact V1|eapply view_fuel, V1|].
  intros m s2 x2 V2 Hm; eapply runs_mono; [eapply (Hend _ _ _ l); eassumption|].
  intros [w0 t0] s3 ([= -> ->] & V3); apply runs_ret; split; [|exact V3].
  destruct w; [contradiction|reflexivity].
Qed.

Lemma number_reads_back w : number_form w = true -> reads_back w w TokenType.NumberLiteral.
Proof.
  destruct w as [|c ds]; [discriminate|]; intros Hw; apply andb_true_iff in Hw as [Hc Hds].
  apply other_reads_back; [apply digit_other, Hc|].
  apply (number_literal_reads_back c ds SPACE (fun l => l)); auto; try discriminate.
  intros n s x l b V Hn; eapply number_end_view; eassumption.
Qed.

Lemma double_reads_back w : double_form w -> reads_back w w TokenType.DoubleLiteral.
Proof.
  intros (a & f & -> & Ha & Hf & Hfs); destruct a as [|c ds]; [discriminate|].
  destruct f as [|d f]; [contradiction|]; apply andb_true_iff in Ha as [Hc Hds].
  apply andb_true_iff in Hfs as [Hd Hfs]; cbn [app].
  apply other_reads_back; [apply digit_other, Hc|].
  intros s l b V; rewrite <- app_assoc in V.
  apply (number_literal_reads_back c ds (ch ".") (fun l => d :: f ++ SPACE :: l)); auto;
    try discriminate.
  intros n s1 x l1 b1 V1 Hn; apply (number_dot_view _ _ _ _ _ _ _ (c :: ds) Hd Hfs V1 Hn).
Qed.
End WithLocale.
