(* ===== verification/LexerQueue.v ===== *)
(** * Token providers as queues

    The contract the parser relies on: a [SourceProvider] serves a queue of
    tokens.  [TokenQueue] states it; LexicalBuffer and LexicalAnalyzer
    implement it, the latter because none of its reading operations looks at
    or changes the tokens it has buffered. *)
From Stdlib Require Import ZArith Lia Bool List String.
From stdpp Require Import base list.
From S2P Require Import Prelude Tokens Reader Lexer LexBuffer LexerFacts LexerWords LexerStream.
Import ListNotations LexicalAnalyzer.
Open Scope Z_scope.
Open Scope shard_scope.

(** ** The contract

    [queue s q]: the provider in state [s] has the tokens [q] ahead.
    [looked s]: the head of the queue was looked at, so that [Consume] takes
it.  (A [LexicalAnalyzer] that reads the token inside [Consume] keeps it
    buffered; the parser looks at every token before it consumes it.)  [in_range s]:
    another token fits in the provider's storage. *)
Class TokenQueue (P : Type) `{SourceProvider P} := {
  queue : P -> list SyntaxToken -> Prop;
  looked : P -> Prop;
  in_range : P -> Prop;
  queue_current s t q : queue s (t :: q) ->
    exists s', sp_Current s = Some (t, s') /\ queue s' (t :: q) /\ looked s';
  queue_consume s t q : looked s -> queue s (t :: q) ->
    exists s', sp_Consume s = Some (t, s') /\ queue s' q;
  queue_putback s t q : is_eof t = false -> in_range s -> queue s q ->
    exists s', sp_PutBackToken t s = Some (tt, s') /\ queue s' (t :: q) /\ looked s';
  queue_can s q : queue s q ->
    exists s', sp_CanConsume s = Some (negb (Nat.eqb (List.length q) 0), s')
      /\ (q <> [] -> queue s' q /\ looked s');
  queue_peek s k t q : queue s q -> nth_error q (S k) = Some t ->
    Z.of_nat k < 2 ^ 31 ->
    exists s', sp_Peek (Z.of_nat k) s = Some (t, s') /\ queue s' q /\ looked s'
}.

(** ** Draining a queue *)
Section Drain.
Context {P : Type} `{TokenQueue P}.

Lemma drain_loop q : forall n s buffer,
  queue s q -> (List.length q < n)%nat ->
  exists s', LexicalBuffer.PopulateFrom_loop n buffer s =
    Some (LexicalBuffer.mkBuffer (LexicalBuffer.Sequence buffer ++ q)
            (LexicalBuffer.CurrentIndex buffer), s').
Proof.
  induction q as [|t q IH]; intros n s buffer Hq Hn;
    (destruct n as [|n]; [cbn in Hn; lia|]); cbn [LexicalBuffer.PopulateFrom_loop];
    destruct (queue_can s _ Hq) as (s1 & E1 & H1); erewrite bind_run by exact E1;
    cbn [List.length Nat.eqb negb].
  - exists s1; rewrite app_nil_r; destruct buffer; reflexivity.
  - destruct (H1 ltac:(discriminate)) as [Hq1 _].
    destruct (queue_current s1 t q Hq1) as (s2 & E2 & Hq2 & L2).
    erewrite bind_run by exact E2.
    destruct (queue_consume s2 t q L2 Hq2) as (s3 & E3 & Hq3).
    erewrite bind_run by exact E3.
    destruct (IH n s3 (LexicalBuffer.mkBuffer (LexicalBuffer.Sequence buffer ++ [t])
                 (LexicalBuffer.CurrentIndex buffer)) Hq3 ltac:(cbn in Hn; lia)) as (s' & E').
    exists s'; rewrite E'; cbn; rewrite <- app_assoc; reflexivity.
Qed.
End Drain.

(** ** What the parser asks, and the answers a queue gives *)

Inductive request :=
| Look             (** [Current] *)
| Next             (** [Current], then [Consume] *)
| Ahead (k : nat). (** [Peek(k)] *)

(** The requests stay within the queue. *)
Fixpoint within (rs : list request) (q : list SyntaxToken) : Prop :=
  match rs with
  | [] => True
  | Look :: rs => q <> [] /\ within rs q
  | Next :: rs => q <> [] /\ within rs (tl q)
  | Ahead k :: rs => (S k < List.length q)%nat /\ Z.of_nat k < 2 ^ 31 /\ within rs q
  end.

Fixpoint expected (rs : list request) (q : list SyntaxToken) : list SyntaxToken :=
  match rs with
  | [] => []
  | Look :: rs => hd eof_token q :: expected rs q
  | Next :: rs => hd eof_token q :: expected rs (tl q)
  | Ahead k :: rs => nth (S k) q eof_token :: expected rs q
  end.

Section Answers.
Context {P : Type} `{TokenQueue P}.

Definition answer (r : request) : ST P SyntaxToken :=
  match r with
  | Look => sp_Current
  | Next => sp_Current ;;; sp_Consume
  | Ahead k => sp_Peek (Z.of_nat k)
  end.

Fixpoint answers (rs : list request) : ST P (list SyntaxToken) :=
  match rs with
  | [] => ret []
  | r :: rs => t <- answer r ;; ts <- answers rs ;; ret (t :: ts)
  end.

Lemma answers_expected rs : forall s q, queue s q -> within rs q ->
  exists s', answers rs s = Some (expected rs q, s').
Proof.
  induction rs as [|r rs IH]; intros s q Hq Hw; [eexists; reflexivity|].
  cbn [answers]; destruct r as [| |k]; cbn [answer within expected] in *.
  - destruct Hw as [Hne Hw]; destruct q as [|t q]; [contradiction|].
    destruct (queue_current s t q Hq) as (s1 & E1 & Hq1 & _); erewrite bind_run by exact E1.
    destruct (IH s1 _ Hq1 Hw) as (s' & E'); erewrite bind_run by exact E'; eexists; reflexivity.
  - destruct Hw as [Hne Hw]; destruct q as [|t q]; [contradiction|].
    destruct (queue_current s t q Hq) as (s1 & E1 & Hq1 & L1).
    destruct (queue_consume s1 t q L1 Hq1) as (s2 & E2 & Hq2).
    erewrite bind_run by (erewrite bind_run by exact E1; exact E2).
    destruct (IH s2 _ Hq2 Hw) as (s' & E'); erewrite bind_run by exact E'; eexists; reflexivity.
  - destruct Hw as (Hk & Hk' & Hw).
    destruct (nth_error q (S k)) as [t|] eqn:Et; [|apply nth_error_None in Et; lia].
    destruct (queue_peek s k t q Hq Et Hk') as (s1 & E1 & Hq1 & _).
    erewrite bind_run by exact E1; rewrite (nth_error_nth _ _ _ Et).
    destruct (IH s1 _ Hq1 Hw) as (s' & E'); erewrite bind_run by exact E'; eexists; reflexivity.
Qed.
End Answers.

(** ** The buffer serves the tokens from its index on *)
Section Buffer.
Import LexicalBuffer.

Definition remaining (b : LexBuffer) (q : list SyntaxToken) : Prop :=
  0 <= CurrentIndex b /\ Size b < 2 ^ 63 /\ q = skipn (Z.to_nat (CurrentIndex b)) (Sequence b).

Lemma remaining_cons b t q : remaining b (t :: q) ->
  CurrentIndex b < Size b /\ nth_token b (CurrentIndex b) = t
  /\ remaining (mkBuffer (Sequence b) (CurrentIndex b + 1)) q.
Proof.
  intros (Hi & Hs & Hq); unfold Size, nth_token, remaining in *; cbn.
  assert (Hlt : (Z.to_nat (CurrentIndex b) < List.length (Sequence b))%nat).
  { apply (f_equal (@List.length _)) in Hq; rewrite length_skipn in Hq; cbn in Hq; lia. }
  split; [lia|split].
  - rewrite <- (Nat.add_0_r (Z.to_nat _)), <- nth_skipn, <- Hq; reflexivity.
  - split; [lia|split; [exact Hs|]]; rewrite Z2Nat.inj_add by lia; rewrite Nat.add_comm.
    change (Z.to_nat 1) with 1%nat; rewrite <- skipn_skipn, <- Hq; reflexivity.
Qed.

Lemma remaining_nil b : remaining b [] -> Size b <= CurrentIndex b.
Proof.
  intros (Hi & _ & Hq); unfold Size.
  apply (f_equal (@List.length _)) in Hq; rewrite length_skipn in Hq; cbn in Hq; lia.
Qed.

Lemma remaining_putback b t q : Size b < 2 ^ 63 - 1 -> remaining b q ->
  exists b', PutBackToken t b = Some (tt, b') /\ remaining b' (t :: q).
Proof.
  intros Hr (Hi & _ & ->); eexists; split; [reflexivity|].
  unfold remaining, Size in *; cbn; set (i := if _ <? _ then _ else _).
  assert (Hi' : 0 <= i <= Z.of_nat (List.length (Sequence b))) by (subst i; case_if; zbool; lia).
  split; [lia|split].
  { rewrite length_app; cbn; rewrite length_firstn, length_skipn; lia. }
  rewrite drop_app_length' by (rewrite length_firstn; lia); f_equal.
  subst i; destruct (Z.ltb_spec (Z.of_nat (List.length (Sequence b))) (CurrentIndex b));
    [|reflexivity].
  rewrite !skipn_all2 by lia; reflexivity.
Qed.

Lemma remaining_peek b k t q : remaining b q -> nth_error q (S k) = Some t ->
  Z.of_nat k < 2 ^ 31 ->
  Peek (Z.of_nat k) b = Some (t, b).
Proof.
  intros (Hi & Hs & ->) Ht Hl; unfold Peek, bind, get, ret, nth_token.
  rewrite nth_error_skipn in Ht.
  assert (Hn : nth_error (Sequence b) (Z.to_nat (CurrentIndex b + 1 + Z.of_nat k)) = Some t)
    by (rewrite <- Ht; f_equal; lia).
  assert (Hlt := proj1 (nth_error_Some (Sequence b) _) ltac:(rewrite Hn; discriminate)).
  unfold size_t, Size in *.
  rewrite (Z.mod_small (Z.of_nat k)) by lia; rewrite Z.mod_small by lia.
  destruct (Z.leb_spec (Z.of_nat (List.length (Sequence b))) (CurrentIndex b + 1 + Z.of_nat k));
    [lia|].
  erewrite nth_error_nth; [reflexivity|exact Hn].
Qed.
End Buffer.

#[global] Instance buffer_queue : TokenQueue LexicalBuffer.LexBuffer.
Proof.
  refine {| queue := remaining; looked := fun _ => True;
            in_range := fun b => LexicalBuffer.Size b < 2 ^ 63 - 1 |};
    cbn [sp_Current sp_Consume sp_PutBackToken sp_CanConsume sp_Peek LexicalBuffer.buffer_provider].
  - intros s t q Hq; destruct (remaining_cons _ _ _ Hq) as (Hi & Ht & _).
    exists s; split; [|auto]; unfold LexicalBuffer.Current, bind, get.
    destruct (Z.leb_spec (LexicalBuffer.Size s) (LexicalBuffer.CurrentIndex s)); [lia|].
    rewrite Ht; reflexivity.
  - intros s t q _ Hq; destruct (remaining_cons _ _ _ Hq) as (Hi & Ht & Hq').
    eexists; split; [|exact Hq']; unfold LexicalBuffer.Consume, bind, get, modify.
    destruct (Z.leb_spec (LexicalBuffer.Size s) (LexicalBuffer.CurrentIndex s)); [lia|].
    rewrite Ht; reflexivity.
  - intros s t q _ Hr Hq; destruct (remaining_putback s t q Hr Hq) as (s' & E & Hq'); eauto.
  - intros s q Hq; exists s; split; [|auto]; unfold LexicalBuffer.CanConsume, bind, get, ret.
    do 2 f_equal; destruct q as [|t q]; cbn.
    + apply remaining_nil in Hq; apply Z.ltb_ge, Hq.
    + apply remaining_cons in Hq as (Hi & _); apply Z.ltb_lt, Hi.
  - intros s k t q Hq Ht Hl; exists s; split; [eapply remaining_peek; eassumption|auto].
Defined.

(** ** The analyser's reading operations ignore the buffered tokens *)
Section Frame.
Context `{Locale}.

Definition with_buffer {A} (b : list SyntaxToken) (r : option (A * LexState)) :
  option (A * LexState) :=
  match r with
  | Some (a, s) => Some (a, set_ReadBuffer b s)
  | None => None
  end.

Definition frames {A} (m : LexM A) : Prop :=
  forall b s, m (set_ReadBuffer b s) = with_buffer b (m s).

Lemma frames_ret {A} (a : A) : frames (ret a).
Proof. intros b s; reflexivity. Qed.

Lemma frames_fuel {A} : frames (out_of_fuel (A := A)).
Proof. intros b s; reflexivity. Qed.

Lemma frames_bind {A B} (m : LexM A) (k : A -> LexM B) :
  frames m -> (forall a, frames (k a)) -> frames (bind m k).
Proof.
  intros Hm Hk b s; unfold bind; rewrite Hm; destruct (m s) as [[a s']|]; [apply Hk|reflexivity].
Qed.

(** A continuation that reads the state reads only its other fields. *)
Lemma frames_get {B} (k : LexState -> LexM B) :
  (forall b s, k (set_ReadBuffer b s) = k s) -> (forall s, frames (k s)) -> frames (bind get k).
Proof. intros He Hk b s; unfold bind, get; rewrite He; apply Hk. Qed.

Lemma frames_modify f :
  (forall b s, f (set_ReadBuffer b s) = set_ReadBuffer b (f s)) -> frames (modify f).
Proof. intros He b s; unfold modify; rewrite He; reflexivity. Qed.

Lemma frames_Advance dst : advance_target dst -> frames (Advance dst).
Proof.
  intros Hd b s; unfold Advance, with_buffer; cbn [set_ReadBuffer SourceText].
  destruct (ReadNext (SourceText s)) as [[c|] r]; [|reflexivity].
  destruct Hd; cbn; destruct (c =? LF), (c =? 0); reflexivity.
Qed.

Lemma frames_Peek1 : frames Peek1.
Proof.
  intros b s; unfold Peek1, with_buffer; cbn [set_ReadBuffer SourceText].
  destruct (PeekNext (SourceText s)) as [ok c]; reflexivity.
Qed.

Lemma frames_PeekLocal : frames PeekLocal.
Proof. intros b s; reflexivity. Qed.
End Frame.

Create HintDb frames.
#[export] Hint Resolve frames_ret frames_fuel frames_Advance frames_Peek1 frames_PeekLocal
  to_Symbol to_PeekSymbol : frames.

(** [frame] proves that a computation built from the primitives frames. *)
Ltac frame_step :=
  match goal with
  | |- frames (bind get _) => apply frames_get; [reflexivity|intros ?; cbn beta zeta]
  | |- frames (bind _ _) => apply frames_bind; [|intros ?; cbn beta zeta]
  | |- frames (if ?b then _ else _) => destruct b
  | |- frames (match ?x with _ => _ end) => destruct x
  | |- frames (let _ := _ in _) => cbn zeta
  | |- frames (modify _) => apply frames_modify; reflexivity
  | |- _ => solve [auto with frames]
  end.
Ltac frame := repeat frame_step.

Section LexerFrames.
Context `{Locale}.

Lemma frames_ReadNextReal_loop n : frames (ReadNextReal_loop n).
Proof. induction n; cbn [ReadNextReal_loop]; frame. Qed.
Lemma frames_ReadNextReal : frames ReadNextReal.
Proof. pose proof frames_ReadNextReal_loop; unfold ReadNextReal; frame. Qed.

Lemma frames_alpha n : forall w, frames (ReadNextWhileAlpha_loop n w).
Proof. induction n; intros w; cbn [ReadNextWhileAlpha_loop]; frame. Qed.
Lemma frames_ReadNextWhileAlpha : frames ReadNextWhileAlpha.
Proof. pose proof frames_alpha; unfold ReadNextWhileAlpha; frame. Qed.

Lemma frames_char n : forall w e, frames (ReadCharLiteral_loop n w e).
Proof. induction n; intros w e; cbn [ReadCharLiteral_loop]; frame. Qed.
Lemma frames_ReadCharLiteral : frames ReadCharLiteral.
Proof. pose proof frames_char; unfold ReadCharLiteral; frame. Qed.

Lemma frames_string n : forall w d e, frames (ReadStringLiteral_loop n w d e).
Proof. induction n; intros w d e; cbn [ReadStringLiteral_loop]; frame. Qed.
Lemma frames_ReadStringLiteral d : frames (ReadStringLiteral d).
Proof. pose proof frames_string; unfold ReadStringLiteral; frame. Qed.

Lemma frames_number n : forall w t f, frames (ReadNumberLiteral_loop n w t f).
Proof. induction n; intros w t f; cbn [ReadNumberLiteral_loop]; frame. Qed.
Lemma frames_ReadNumberLiteral t : frames (ReadNumberLiteral t).
Proof. pose proof frames_number; unfold ReadNumberLiteral, ReadBasePrefix; frame. Qed.

Lemma frames_followed_by alts dflt : frames (followed_by alts dflt).
Proof. unfold followed_by; frame. Qed.
#[local] Hint Resolve frames_followed_by : frames.
Lemma frames_IsPunctuation : frames IsPunctuation.
Proof. unfold IsPunctuation; frame. Qed.
Lemma frames_IsOperator : frames IsOperator.
Proof. unfold IsOperator; frame. Qed.

Lemma frames_prefix n : forall d, frames (IsStringLiteral_loop n d).
Proof. induction n; intros d; cbn [IsStringLiteral_loop]; frame. Qed.
Lemma frames_IsStringLiteral : frames IsStringLiteral.
Proof. pose proof frames_prefix; unfold IsStringLiteral; frame. Qed.

Lemma frames_comment n : frames (SkipComment_loop n).
Proof. induction n; cbn [SkipComment_loop]; frame. Qed.

#[local] Hint Resolve frames_ReadNextReal frames_ReadNextWhileAlpha frames_ReadCharLiteral
  frames_ReadStringLiteral frames_ReadNumberLiteral frames_IsPunctuation frames_IsOperator
  frames_IsStringLiteral frames_comment : frames.

Lemma frames_word n : frames (ReadNextWord_loop n).
Proof. induction n; cbn [ReadNextWord_loop]; frame. Qed.

Lemma frames_ReadNextToken : frames ReadNextToken.
Proof. pose proof frames_word; unfold ReadNextToken, ReadNextWord; frame. Qed.

(** The tokens still to be read do not depend on the buffered ones. *)
Lemma token_stream_frame b s ts s' :
  token_stream s ts s' -> token_stream (set_ReadBuffer b s) ts (set_ReadBuffer b s').
Proof.
  induction 1 as [s s' E|s t s1 ts s' E _ IH].
  - constructor; rewrite frames_ReadNextToken, E; reflexivity.
  - econstructor; [|exact IH]; rewrite frames_ReadNextToken, E; reflexivity.
Qed.
End LexerFrames.

(** ** The analyser serves its buffered tokens, then those of the text *)
Section LexerQueue.
Context `{Locale}.

Definition ahead (s : LexState) (q : list SyntaxToken) : Prop :=
  Forall (fun t => is_eof t = false) (ReadBuffer s)
  /\ exists ts s', token_stream s ts s' /\ q = ReadBuffer s ++ ts.

Lemma ahead_init reader ts s' : token_stream (init reader) ts s' -> ahead (init reader) ts.
Proof. intros Hts; split; [constructor|eauto]. Qed.

Lemma ahead_buffered s q b : ahead s q -> Forall (fun t => is_eof t = false) b ->
  forall ts s', token_stream s ts s' -> ahead (set_ReadBuffer b s) (b ++ ts).
Proof. intros _ Hb ts s' Hts; split; [exact Hb|]; eauto using token_stream_frame. Qed.

Lemma ahead_current s t q : ahead s (t :: q) ->
  exists s', Current s = Some (t, s') /\ ahead s' (t :: q) /\ ReadBuffer s' <> [].
Proof.
  intros Ha; pose proof Ha as (Hb & ts & s1 & Hts & Hq).
  destruct (ReadBuffer s) as [|t0 b] eqn:E.
  - cbn in Hq; subst ts; inversion Hts as [|? ? s2 ? ? Er Hts']; subst.
    eexists; split; [apply (Current_empty _ _ _ E Er)|]; split; [|discriminate].
    split; [constructor; [eapply stream_token_not_eof, Er|constructor]|].
    exists q; eexists; split; [apply token_stream_frame, Hts'|reflexivity].
  - injection Hq as -> ->; exists s; split; [apply (Current_buffered _ _ _ E)|].
    split; [exact Ha|rewrite E; discriminate].
Qed.

Lemma ahead_consume s t q : ReadBuffer s <> [] -> ahead s (t :: q) ->
  exists s', Consume s = Some (t, s') /\ ahead s' q.
Proof.
  intros Hne (Hb & ts & s1 & Hts & Hq); destruct (ReadBuffer s) as [|t0 b] eqn:E; [contradiction|].
  injection Hq as -> ->; eexists; split; [apply (Consume_buffered _ _ _ E)|].
  inversion Hb; split; [assumption|]; eauto using token_stream_frame.
Qed.

Lemma Peek_extend_stream ts : forall n s s', token_stream s ts s' -> (n <= List.length ts)%nat ->
  exists s1, Peek_extend n s = Some (None, s1)
    /\ ReadBuffer s1 = ReadBuffer s ++ firstn n ts
    /\ exists s2, token_stream s1 (skipn n ts) s2.
Proof.
  induction ts as [|t ts IH]; intros n s s' Hts Hn; (destruct n as [|n];
    [exists s; rewrite app_nil_r; split; [reflexivity|eauto]|cbn in Hn]); [lia|].
  inversion Hts as [|? ? s1 ? ? Er Hts']; subst; cbn [Peek_extend firstn skipn].
  erewrite bind_run by exact Er; unfold push_back; erewrite bind_run by reflexivity.
  destruct (IH n _ _ (token_stream_frame (ReadBuffer s1 ++ [t]) _ _ _ Hts') ltac:(lia))
    as (s3 & E3 & Hb & Hs).
  exists s3; split; [exact E3|]; split; [|exact Hs].
  rewrite Hb; cbn; rewrite (ReadNextToken_buffer _ _ _ Er), <- app_assoc; reflexivity.
Qed.

Lemma ahead_peek s k t q : ahead s q -> nth_error q (S k) = Some t ->
  exists s', Peek (Z.of_nat k) s = Some (t, s') /\ ahead s' q /\ ReadBuffer s' <> [].
Proof.
  intros (Hb & ts & s0 & Hts & Hq) Ht; unfold Peek, bind at 1, get.
  assert (Hlen : (S k < List.length q)%nat) by (apply nth_error_Some; congruence).
  rewrite Hq, length_app in Hlen.
  set (m := (S (S k) - List.length (ReadBuffer s))%nat).
  assert (Hm : (m <= List.length ts)%nat) by (subst m; lia).
  destruct (Peek_extend_stream ts m s s0 Hts Hm) as (s1 & E1 & Hb1 & s2 & Hts1).
  assert (Eb : (if Z.of_nat (List.length (ReadBuffer s)) <? Z.of_nat k + 1 + 1
                then Peek_extend (Z.to_nat (Z.of_nat k + 1 - Z.of_nat (List.length (ReadBuffer s)) + 1))
                else ret None) s = Some (None, s1)).
  { destruct (Z.ltb_spec (Z.of_nat (List.length (ReadBuffer s))) (Z.of_nat k + 1 + 1)).
    - replace (Z.to_nat _) with m by (subst m; lia); exact E1.
    - replace m with O in E1 by (subst m; lia); exact E1. }
  erewrite bind_run by exact Eb; unfold bind, get.
  assert (Hlen1 : (S k < List.length (ReadBuffer s1))%nat)
    by (rewrite Hb1, length_app, length_firstn; subst m; lia).
  assert (Hq1 : q = ReadBuffer s1 ++ skipn m ts)
    by (rewrite Hb1, <- app_assoc, firstn_skipn; exact Hq).
  destruct (Z.ltb_spec (Z.of_nat k + 1) 0); [lia|].
  destruct (Z.leb_spec (Z.of_nat (List.length (ReadBuffer s1))) (Z.of_nat k + 1)); [lia|].
  cbn [orb]; exists s1; split; [|split].
  - unfold ret; do 2 f_equal; replace (Z.to_nat (Z.of_nat k + 1)) with (S k) by lia.
    rewrite Hq1, nth_error_app1 in Ht by lia; apply nth_error_nth, Ht.
  - split; [|eauto]; rewrite Hb1; apply Forall_app; split; [exact Hb|].
    apply Forall_take; eapply List.Forall_impl; [|apply (stream_tokens_ok _ _ _ Hts)].
    intros u Hu; apply token_ok_not_eof, Hu.
  - intros E; rewrite E in Hlen1; cbn in Hlen1; lia.
Qed.

#[global] Instance lexer_queue : TokenQueue LexState.
Proof.
  refine {| queue := ahead; looked := fun s => ReadBuffer s <> []; in_range := fun _ => True |};
    cbn [sp_Current sp_Consume sp_PutBackToken sp_CanConsume sp_Peek lexer_provider].
  - exact ahead_current.
  - exact ahead_consume.
  - intros s t q Ht _ (Hb & ts & s1 & Hts & ->); eexists; split; [reflexivity|].
    split; [|discriminate]; split; [constructor; assumption|].
    eauto using token_stream_frame.
  - intros s [|t q] Ha.
    + destruct Ha as (_ & ts & s1 & Hts & Hq); symmetry in Hq; apply app_eq_nil in Hq as [E ->].
      inversion Hts as [? ? Er|]; subst; eexists; split; [|congruence].
      apply (CanConsume_Current _ _ _ (Current_empty _ _ _ E Er)).
    + destruct (ahead_current _ _ _ Ha) as (s' & E & Ha' & L).
      exists s'; split; [|auto]; erewrite CanConsume_Current by exact E.
      destruct Ha' as (Hb & ts & s1 & _ & Hq); destruct (ReadBuffer s') as [|t0 b]; [contradiction|].
      injection Hq as -> _; inversion Hb as [|? ? Ht]; rewrite Ht; reflexivity.
  - intros s k t q Ha Ht _; exact (ahead_peek s k t q Ha Ht).
Defined.
End LexerQueue.
