(* ===== verification/LexerSpec.v ===== *)
(** * Properties of lexing

    The theorems about text, tokens and buffers: lexing always ends and
    returns well-formed, correctly located tokens, inverts printing, and both
    token providers answer the parser alike. *)
From Stdlib Require Import ZArith Lia Bool List String.
From stdpp Require Import base list.
From S2P Require Import Prelude Tokens Reader Lexer LexBuffer LexerFacts LexerWords.
From S2P Require Import LexerStream LexerPrint LexerQueue.
Import ListNotations LexicalAnalyzer.
Open Scope Z_scope.
Open Scope shard_scope.

(** The type and word of a token. *)
Definition spelling (t : SyntaxToken) : TokenType * wstring := (Type_ t, Word t).

Section WithLocale.
Context `{LocaleLaws}.

(** ** Helper lemmas *)

Lemma keywords_spelled :
  forallb (fun wt => match spelled wt.1 keywords with
                     | Some t => t =tt wt.2 | None => false end && ident_form wt.1) keywords = true.
Proof. reflexivity. Qed.

Lemma operators_start :
  forallb (fun wt => match wt.1 with
                     | c :: _ => negb (starts_with punctuation c) && negb (c =? 0x37E)
                     | [] => false end && negb (wt.2 =tt TokenType.Trivia)) operators = true.
Proof. reflexivity. Qed.

Lemma ident_reads_back w : ident_form w = true -> reads_back w w (classify w).
Proof.
  destruct w as [|c cs]; [discriminate|]; intros Hw; apply andb_true_iff in Hw as [Hc Hcs].
  apply word_reads_back; assumption.
Qed.

Lemma table_reads_back w t :
  In (w, t) (keywords ++ punctuation ++ operators) -> reads_back w w t.
Proof.
  intros Hin; apply in_app_or in Hin as [Hin|Hin]; [|apply in_app_or in Hin as [Hin|Hin]].
  - apply (proj1 (forallb_forall _ _) keywords_spelled) in Hin; cbn [fst snd] in Hin.
    apply andb_true_iff in Hin as [Hs Hi]; pose proof (classify_table w) as Hc.
    destruct (spelled w keywords) as [k|]; [|discriminate].
    destruct (TokenType.eqb_spec k t) as [Hk|]; [|discriminate]; rewrite Hk in Hc.
    rewrite <- Hc; apply ident_reads_back, Hi.
  - apply punctuation_reads_back.
    exact (proj1 (List.Forall_forall _ _) punctuation_reads _ Hin).
  - pose proof (proj1 (List.Forall_forall _ _) operators_read _ Hin) as Hr.
    apply (proj1 (forallb_forall _ _) operators_start) in Hin; cbn [fst snd] in Hin, Hr.
    apply andb_true_iff in Hin as [Hs Ht].
    apply operator_reads_back; [exact Hr| |].
    + intros ->; discriminate.
    + destruct w; [discriminate|]; apply andb_true_iff in Hs as [Hs1 Hs2].
      split; apply negb_true_iff; assumption.
Qed.

Lemma printable_reads_back t w : printable (t, w) -> reads_back (render t w) w t.
Proof.
  intros [Hok Hp]; cbn [fst snd] in *.
  destruct t; try (apply table_reads_back; exact Hok).
  - destruct Hok as [_ Hs].
    replace TokenType.Identifier with (classify w) at 2 by (rewrite classify_table, Hs; reflexivity).
    apply ident_reads_back, Hp.
  - apply char_reads_back, Hp.
  - apply string_reads_back, Hp.
  - apply number_reads_back, Hok.
  - apply double_reads_back, Hok.
Qed.

Lemma ReadNextToken_reads_back s x sp text w t l b :
  reads_back text w t -> sp = [] \/ sp = [SPACE] -> view s x (sp ++ text ++ SPACE :: l) b ->
  exists tok s' x', ReadNextToken s = Some (Some tok, s') /\ spelling tok = (t, w)
    /\ view s' x' (SPACE :: l) b.
Proof.
  intros Hr Hsp V; destruct (Hr (fuel_for s) s x sp l b Hsp V) as (r & s' & E & -> & x' & V').
  unfold ReadNextToken, ReadNextWord, bind, get; rewrite E.
  do 3 eexists; split; [reflexivity|]; split; [reflexivity|exact V'].
Qed.

Lemma spaces_end s x sp b : sp = [] \/ sp = [SPACE] -> view s x sp b ->
  exists s', ReadNextToken s = Some (None, s').
Proof.
  intros Hsp (_ & Hr & Hp & _).
  assert (E : exists s', ReadNextReal s = Some (false, s')).
  { unfold ReadNextReal, bind, get, fuel_for; rewrite Hp, Hr.
    destruct s as [[nm st] li o sy pk hp pb rb]; unfold rest in Hr; cbn in Hr; subst st.
    destruct Hsp as [-> | ->]; cbn [List.length ReadNextReal_loop]; [eexists; reflexivity|].
    cbn -[iswspace]; unfold bind, get, ret; cbn -[iswspace].
    change (iswspace 32) with (iswspace SPACE).
    rewrite iswspace_ascii by reflexivity; eexists; reflexivity. }
  destruct E as (s' & E); exists s'.
  unfold ReadNextToken, ReadNextWord, bind, get; cbn [ReadNextWord_loop]; unfold bind.
  rewrite E; reflexivity.
Qed.

Lemma print_stream tws : forall s x sp b,
  Forall printable tws -> sp = [] \/ sp = [SPACE] -> view s x (sp ++ print_tokens tws) b ->
  exists ts s', token_stream s ts s' /\ map spelling ts = tws.
Proof.
  induction tws as [|[t w] tws IH]; intros s x sp b Hp Hsp V.
  - cbn in V; rewrite app_nil_r in V; destruct (spaces_end s x sp b Hsp V) as (s' & E).
    exists [], s'; split; [apply stream_end, E|reflexivity].
  - inversion_clear Hp as [|? ? Hp1 Hps].
    cbn [print_tokens flat_map fst snd] in V; rewrite <- app_assoc in V; cbn [app] in V.
    destruct (ReadNextToken_reads_back s x sp _ w t _ b (printable_reads_back t w Hp1) Hsp V)
      as (tok & s1 & x1 & E & Hs & V1).
    destruct (IH s1 x1 [SPACE] b Hps ltac:(auto) V1) as (ts & s' & Hts & Hm).
    exists (tok :: ts), s'; split; [eapply stream_token; eassumption|cbn; congruence].
Qed.

(** ** Lexing *)

(** C9: Lexing inverts printing: any list of well-formed tokens (keywords,
    operators, punctuation, ASCII identifiers, numbers, string and character
    literals with arbitrary contents), printed with its escapes and separated
    by spaces, is read back by [LexicalBuffer::From] as the same types and
    words in the same order. *)
Theorem lex_print_roundtrip (name : wstring) (tws : list (TokenType * wstring)) :
  Forall printable tws ->
  exists ts, LexicalBuffer.FromText (mkReader name (print_tokens tws))
               = Some (LexicalBuffer.mkBuffer ts 0)
    /\ map spelling ts = tws.
Proof.
  intros Hp; destruct (FromText_total (mkReader name (print_tokens tws)))
    as (ts & s' & Hts & _ & E).
  destruct (print_stream tws (init (mkReader name (print_tokens tws))) (-1) [] [] Hp
    ltac:(auto) ltac:(repeat split)) as (ts' & s'' & Hts' & Hm).
  destruct (token_stream_det _ _ _ _ _ Hts Hts') as [-> _]; eauto.
Qed.

(** Lexing any text ends, with no more tokens than characters: filling a
    buffer from a reader never runs out of the fuel of any loop, and the
    buffer holds exactly the tokens [ReadNextToken] delivers until the text
    ends. *)
Theorem lex_total (reader : Reader) :
  exists ts s', LexicalBuffer.FromText reader = Some (LexicalBuffer.mkBuffer ts 0)
    /\ token_stream (init reader) ts s'
    /\ (List.length ts <= List.length (stream reader))%nat.
Proof. destruct (FromText_total reader) as (ts & s' & Hs & Hl & E); eauto 6. Qed.

(** Every token of a lexed text is well formed: its type is one the language
    has, a keyword, operator or punctuation type carries exactly its
    spelling, an identifier is no reserved word, a number has the shape of a
    number, and no end-of-file, trivia or unknown token appears. *)
Theorem lex_tokens_well_formed (reader : Reader) (buffer : LexicalBuffer.LexBuffer) :
  LexicalBuffer.FromText reader = Some buffer ->
  Forall (fun t => IsMissing t = false /\ token_ok (Type_ t) (Word t))
         (LexicalBuffer.Sequence buffer).
Proof.
  intros E; destruct (FromText_total reader) as (ts & s' & Hs & _ & E').
  rewrite E in E'; injection E' as ->; eapply stream_tokens_ok, Hs.
Qed.

(** C26: The text splits into consecutive non-empty stretches, one per token.  Each
    identifier, keyword, operator and punctuation mark (that no at sign begins) is the
    end of its stretch, character by character but for the Greek question mark, and its
    location is the line and the column of its first character, also when a dot was
    put back after a number.  Every other token is located in the line it ends in;
    for the columns of literals see [literal_misplaced]. *)
Theorem lex_tokens_located (reader : Reader) (buffer : LexicalBuffer.LexBuffer) :
  LexicalBuffer.FromText reader = Some buffer ->
  tokens_located (GetName reader) [] (stream reader) (LexicalBuffer.Sequence buffer).
Proof.
  intros E; destruct (FromText_total reader) as (ts & s' & Hs & _ & E').
  rewrite E in E'; injection E' as ->.
  apply (stream_located _ _ _ Hs []); [intros [=]|reflexivity].
Qed.

(** ** Providers *)

(** Filling a [LexicalBuffer] from any token provider copies exactly the
    tokens the provider has ahead, in order, and ends. *)
Theorem populate_drains_provider {P : Type} `{TokenQueue P} (s : P) (q : list SyntaxToken)
    (fuel : nat) :
  queue s q -> (List.length q < fuel)%nat ->
  exists s', LexicalBuffer.From fuel s = Some (LexicalBuffer.mkBuffer q 0, s').
Proof. intros Hq Hn; exact (drain_loop q fuel s LexicalBuffer.empty Hq Hn). Qed.

(** C27: Reading straight from the analyser and reading from the buffer filled
    from it are the same for sequences of three requests, looking at the current
    token, looking and then consuming, and peeking k tokens ahead, that stay within
    the tokens of the text: both give the same answers.  A consume without a look
    is another matter ([analyzer_consume_twice]), and putting tokens back and requests
    behind the last token are not covered. *)
Theorem analyzer_and_buffer_agree (reader : Reader) (buffer : LexicalBuffer.LexBuffer)
    (rs : list request) :
  Z.of_nat (List.length (stream reader)) < 2 ^ 63 ->
  LexicalBuffer.FromText reader = Some buffer ->
  within rs (LexicalBuffer.Sequence buffer) ->
  exists ts s b, answers rs (init reader) = Some (ts, s) /\ answers rs buffer = Some (ts, b).
Proof.
  intros Hsize E Hw; destruct (FromText_total reader) as (ts & s' & Hs & Hlen & E').
  rewrite E in E'; injection E' as ->; cbn in Hw.
  assert (Ha : queue (init reader) ts) by exact (ahead_init reader ts s' Hs).
  destruct (answers_expected rs (init reader) ts Ha Hw) as (s1 & E1).
  assert (Hq : queue (LexicalBuffer.mkBuffer ts 0) ts)
    by (repeat split; unfold LexicalBuffer.Size; cbn; lia).
  destruct (answers_expected rs (LexicalBuffer.mkBuffer ts 0) ts Hq Hw) as (b & E2); eauto.
Qed.

(** [Consume] of an analyser with nothing buffered reads a token and keeps
    it buffered: the next [Consume] returns the same token again.  (A
    [LexicalBuffer] never does this; the parser always looks first.) *)
Theorem analyzer_consume_twice (s : LexState) :
  ReadBuffer s = [] ->
  exists t s1 s2, Consume s = Some (t, s1) /\ Consume s1 = Some (t, s2) /\ ReadBuffer s2 = [].
Proof.
  intros Hb; destruct (ReadNextToken_total s) as (r & s1 & E & _).
  do 3 eexists; split; [apply (Consume_empty _ _ _ Hb E)|].
  split; [apply Consume_buffered; reflexivity|reflexivity].
Qed.

(** ** String literals *)

(** [IsStringLiteral] recognises a plain quote, never as verbatim, and
    nothing else: the recursive call on the prefix of a verbatim string still
    tests the at sign, so [@] followed by a string is never a string
    literal. *)
Theorem verbatim_never_recognised (s : LexState) :
  HasPutbackSymbol s = false ->
  exists r s', IsStringLiteral s = Some (r, s') /\ advances s s'
    /\ r = if Symbol s =? DQUOTE then Some (TokenType.StringLiteral, false) else None.
Proof.
  intros Hp.
  destruct (IsStringLiteral_loop_runs (fuel_for s) false s Hp ltac:(unfold fuel_for; lia))
    as (r & s' & E & M & _ & Hr).
  exists r, s'; split; [exact E|split; [apply moves_advances, M|]]; rewrite Hr.
  destruct (Z.eqb_spec (Symbol s) (ch "@")) as [->|]; reflexivity.
Qed.

(** Characters a string literal copies: no quote, no escape, no [n]. *)
Definition plain (c : wchar) : bool :=
  negb (c =? DQUOTE) && negb (c =? BACKSLASH) && negb (c =? ch "n") && negb (c =? WEOF).

Lemma escape_stays w : forall n s x b word,
  forallb plain w = true -> view s x (w ++ [DQUOTE]) b -> (List.length w + 1 < n)%nat ->
  exists s', ReadStringLiteral_loop n word false true s = Some (None, s') /\ rest s' = [].
Proof.
  induction w as [|c w IH]; intros n s x b word Hw V Hn;
    (destruct n as [|n]; [lia|]); cbn [ReadStringLiteral_loop forallb app List.length] in *.
  - destruct (Advance_Symbol_view _ _ _ _ _ V ltac:(discriminate)) as (ok & s1 & E1 & -> & V1).
    erewrite bind_run by exact E1; cbn [negb]; unfold bind at 1, get.
    destruct V1 as (Hs1 & Hr1 & Hp1 & _); rewrite Hs1; cbn -[ReadStringLiteral_loop].
    destruct n as [|n]; [lia|]; cbn [ReadStringLiteral_loop].
    assert (Hp2 : HasPutbackSymbol (set_Symbol DQUOTE s1) = false) by exact Hp1.
    destruct (Advance_runs set_Symbol _ to_Symbol Hp2) as (ok & s2 & E2 & H2).
    unfold bind, modify, ret; rewrite E2; destruct ok.
    + destruct H2 as (c & Hc & _); unfold rest in *; cbn in Hc; congruence.
    + destruct H2 as (-> & _); eexists; split; [reflexivity|exact Hr1].
  - apply andb_true_iff in Hw as [Hc Hw]; unfold plain in Hc; zbool.
    destruct (Advance_Symbol_view _ _ _ _ _ V ltac:(assumption)) as (ok & s1 & E1 & -> & V1).
    erewrite bind_run by exact E1; cbn [negb]; unfold bind at 1, get.
    pose proof V1 as (Hs1 & _); rewrite Hs1.
    destruct (Z.eqb_spec c BACKSLASH); [contradiction|].
    destruct (Z.eqb_spec c DQUOTE); [contradiction|].
    destruct (Z.eqb_spec c (ch "n")); [contradiction|].
    eapply IH; [exact Hw|exact V1|lia].
Qed.

(** An escape other than the backslash, the quote and [n] leaves the escape
    flag set, so the closing quote of the literal is read as an escaped
    quote: a literal such as ["\t..."] whose body has no further escape
    swallows the rest of the text and yields no token. *)
Theorem unknown_escape_swallows_quote (s : LexState) (w : wstring) :
  HasPutbackSymbol s = false -> forallb plain w = true ->
  rest s = BACKSLASH :: w ++ [DQUOTE] ->
  exists s', ReadStringLiteral false s = Some (None, s') /\ rest s' = [].
Proof.
  intros Hp Hw Hr; unfold ReadStringLiteral, bind at 1, get, fuel_for; rewrite Hr.
  cbn [List.length]; remember (S (List.length (w ++ [DQUOTE]))) as m eqn:Hm.
  cbn [ReadStringLiteral_loop].
  assert (V : view s (Symbol s) (BACKSLASH :: w ++ [DQUOTE]) (ReadBuffer s)) by (repeat split; auto).
  destruct (Advance_Symbol_view _ _ _ _ _ V ltac:(discriminate)) as (ok & s1 & E1 & -> & V1).
  erewrite bind_run by exact E1; cbn [negb]; unfold bind at 1, get.
  pose proof V1 as (Hs1 & _); rewrite Hs1, Z.eqb_refl.
  eapply escape_stays; [exact Hw|exact V1|].
  rewrite Hm, length_app; cbn; lia.
Qed.
End WithLocale.

(** ** Instances on concrete texts *)

Definition sample : list (TokenType * wstring) :=
  [(TokenType.IntegerKeyword, L "int"); (TokenType.Identifier, L "_x1");
   (TokenType.AssignOperator, L "="); (TokenType.NumberLiteral, L "42");
   (TokenType.StringLiteral, [BACKSLASH; DQUOTE; LF; 955]); (TokenType.Semicolon, L ";")].

Lemma sample_printable : Forall printable sample.
Proof.
  repeat apply List.Forall_cons; try apply List.Forall_nil; (split; cbn [fst snd token_ok]);
    try reflexivity; try exact I; try (split; [discriminate|reflexivity]);
    try (vm_compute; repeat (first [left; reflexivity | right])).
  all: discriminate.
Qed.

Lemma lex_print_roundtrip_witness :
  exists ts, @LexicalBuffer.FromText classic (mkReader (L "a.shard") (print_tokens sample))
               = Some (LexicalBuffer.mkBuffer ts 0)
    /\ map spelling ts = sample.
Proof. exact (@lex_print_roundtrip classic classic_laws (L "a.shard") sample sample_printable). Defined.

Definition sample_buffer : LexicalBuffer.LexBuffer :=
  match @LexicalBuffer.FromText classic (mkReader (L "a.shard") (L "a = 1.y;")) with
  | Some b => b
  | None => LexicalBuffer.empty
  end.

Lemma lex_tokens_well_formed_witness :
  Forall (fun t => IsMissing t = false /\ token_ok (Type_ t) (Word t))
         (LexicalBuffer.Sequence sample_buffer).
Proof.
  apply (@lex_tokens_well_formed classic (mkReader (L "a.shard") (L "a = 1.y;"))).
  vm_compute; reflexivity.
Defined.

Lemma lex_tokens_located_witness :
  tokens_located (L "a.shard") [] (L "a = 1.y;") (LexicalBuffer.Sequence sample_buffer).
Proof.
  apply (@lex_tokens_located classic classic_laws (mkReader (L "a.shard") (L "a = 1.y;"))).
  vm_compute; reflexivity.
Defined.

(** The column of a literal is that of its end less the length of its value: that of
    [abc] between quotes in the first column is 3, and that of the number after the
    blank, written with a separator, is 8 where it begins at 7. *)
Example literal_misplaced :
  match @LexicalBuffer.FromText classic (mkReader (L "a.shard") ([DQUOTE] ++ L "abc" ++ [DQUOTE] ++ L " 1`000")) with
  | Some buffer => map (fun t => (Word t, LocOffset (Location t))) (LexicalBuffer.Sequence buffer)
      = [(L "abc", 3); (L "1000", 8)]
  | None => False
  end.
Proof. vm_compute; reflexivity. Qed.

Lemma populate_drains_provider_witness :
  exists s', LexicalBuffer.From 7 sample_buffer
    = Some (LexicalBuffer.mkBuffer (LexicalBuffer.Sequence sample_buffer) 0, s').
Proof.
  refine (populate_drains_provider sample_buffer (LexicalBuffer.Sequence sample_buffer) 7 _ _).
  - split; [vm_compute; discriminate|split; vm_compute; reflexivity].
  - vm_compute; lia.
Defined.

Lemma analyzer_and_buffer_agree_witness :
  exists ts s b,
    @answers LexState (@lexer_provider classic) [Look; Ahead 3; Next; Ahead 0; Next; Look]
      (init (mkReader (L "a.shard") (L "a = 1.y;"))) = Some (ts, s)
    /\ answers [Look; Ahead 3; Next; Ahead 0; Next; Look] sample_buffer = Some (ts, b).
Proof.
  refine (@analyzer_and_buffer_agree classic (mkReader (L "a.shard") (L "a = 1.y;"))
           sample_buffer _ _ _ _); [reflexivity|vm_compute; reflexivity|].
  repeat (split; [vm_compute; (discriminate || reflexivity || lia)|]); exact I.
Defined.

Lemma analyzer_consume_twice_witness :
  exists t s1 s2, @Consume classic (init (mkReader [] (L "x"))) = Some (t, s1)
    /\ @Consume classic s1 = Some (t, s2) /\ ReadBuffer s2 = [].
Proof. apply (@analyzer_consume_twice classic); reflexivity. Defined.

Lemma verbatim_never_recognised_witness :
  let s := set_Symbol (ch "@") (init (mkReader [] (DQUOTE :: L "x" ++ [DQUOTE]))) in
  exists r s', IsStringLiteral s = Some (r, s') /\ advances s s'
    /\ r = if Symbol s =? DQUOTE then Some (TokenType.StringLiteral, false) else None.
Proof. apply verbatim_never_recognised; reflexivity. Defined.

Lemma unknown_escape_swallows_quote_witness :
  exists s', ReadStringLiteral false (init (mkReader [] (BACKSLASH :: L "tab" ++ [DQUOTE])))
               = Some (None, s') /\ rest s' = [].
Proof. apply (unknown_escape_swallows_quote _ (L "tab")); reflexivity. Defined.
