(* ===== verification/SyntaxFacts.v ===== *)
(** * Facts about tokens

    [SyntaxFacts] (src/parsing/SyntaxFacts.cpp): the precedence table and the
    predicates on token types the parser decides by, and the names of the
    operator methods, with the enumeration [SyntaxKind]
    (include/shard/parsing/SyntaxKind.hpp) one predicate inspects. *)
From Stdlib Require Import ZArith Lia Bool List String.
From stdpp Require Import base list.
From S2P Require Import Prelude Tokens.
Import ListNotations.
Open Scope Z_scope.
Open Scope shard_scope.

(** The C++ enumerator [Parameter] is [Parameter_] here. *)
Module SyntaxKind.

Inductive t : Type :=
| Unknown | CompilationUnit | UsingDirective | DllImportDirective
| NamespaceDeclaration | ClassDeclaration | StructDeclaration
| InterfaceDeclaration | DelegateDeclaration | EnumDeclaration
| EnumFieldDeclaration | FieldDeclaration | MethodDeclaration
| OperatorDeclaration | ConstructorDeclaration | PropertyDeclaration
| AccessorDeclaration | IndexatorDeclaration | Parameter_ | ParametersList
| TypeParameter | Argument | ArgumentsList | IndexatorList | StatementsBlock
| MethodBody | WhereClause | ExpressionStatement | VariableStatement
| ForStatement | ForEachStatement | ForInStatement | WhileStatement
| UntilStatement | ThrowStatement | BreakStatement | ContinueStatement
| ReturnStatement | IfStatement | UnlessStatement | ElseStatement
| TryStatement | CatchClause | DeferStatement | SwitchStatement
| SwitchCaseClause | ObjectExpression | LiteralExpression | BinaryExpression
| UnaryExpression | TernaryExpression | CollectionExpression | RangeExpression
| IfExpression | SwitchExpression | PostfixIfExpression | CastExpression
| IsExpression | IsPattern | LinkedExpression | MemberAccessExpression
| AwaitExpression | InvokationExpression | IndexatorExpression
| LambdaExpression | TypeExpression | Attribute | PredefinedType
| IdentifierNameType | QualifiedNameType | ArrayType | NullableType
| GenericType | DelegateType.
End SyntaxKind.

Module SyntaxFacts.
(** [GetOperatorPrecendence] *)
Definition GetOperatorPrecendence (type : TokenType) : Z :=
  match type with
  | TokenType.OpenCurl => 12
  | TokenType.IncrementOperator | TokenType.DecrementOperator | TokenType.AwaitKeyword => 11
  | TokenType.PowOperator => 10
  | TokenType.MultOperator | TokenType.DivOperator | TokenType.ModOperator => 9
  | TokenType.AddOperator | TokenType.SubOperator => 8
  | TokenType.LeftShiftOperator | TokenType.RightShiftOperator => 7
  | TokenType.RangeOperator | TokenType.RangeInclusiveOperator => 7
  | TokenType.LessOperator | TokenType.LessOrEqualsOperator | TokenType.GreaterOperator
  | TokenType.GreaterOrEqualsOperator => 6
  | TokenType.EqualsOperator | TokenType.NotEqualsOperator | TokenType.IsOperator
  | TokenType.AsOperator => 5
  | TokenType.AndOperator => 4
  | TokenType.OrOperator => 3
  | TokenType.NullCoalescingOperator => 2
  | TokenType.Question => 2
  | TokenType.AssignOperator | TokenType.AddAssignOperator | TokenType.SubAssignOperator
  | TokenType.MultAssignOperator | TokenType.DivAssignOperator
  | TokenType.ModAssignOperator | TokenType.PowAssignOperator
  | TokenType.OrAssignOperator | TokenType.AndAssignOperator => 1
  | _ => 0
  end.

(** [IsBinaryArithmeticOperator] *)
Definition IsBinaryArithmeticOperator (type : TokenType) : bool :=
  match type with
  | TokenType.AddOperator | TokenType.SubOperator | TokenType.MultOperator
  | TokenType.DivOperator | TokenType.ModOperator | TokenType.PowOperator
  | TokenType.AddAssignOperator | TokenType.SubAssignOperator
  | TokenType.MultAssignOperator | TokenType.DivAssignOperator
  | TokenType.ModAssignOperator | TokenType.PowAssignOperator => true
  | _ => false
  end.

(** [IsBinaryBooleanOperator] *)
Definition IsBinaryBooleanOperator (type : TokenType) : bool :=
  match type with
  | TokenType.LessOperator | TokenType.LessOrEqualsOperator | TokenType.GreaterOperator
  | TokenType.GreaterOrEqualsOperator | TokenType.EqualsOperator
  | TokenType.NotEqualsOperator | TokenType.AndOperator | TokenType.OrOperator => true
  | _ => false
  end.

(** [IsBinaryBitOperator] *)
Definition IsBinaryBitOperator (type : TokenType) : bool :=
  match type with
  | TokenType.LeftShiftOperator | TokenType.RightShiftOperator => true
  | _ => false
  end.

(** [IsBinaryOperator] *)
Definition IsBinaryOperator (type : TokenType) : bool :=
  if IsBinaryArithmeticOperator type then true
  else if IsBinaryBooleanOperator type then true
  else if IsBinaryBitOperator type then true
  else if type =tt TokenType.NullCoalescingOperator then true
  else if type =tt TokenType.RangeOperator then true
  else if type =tt TokenType.RangeInclusiveOperator then true
  else if type =tt TokenType.IsOperator then true
  else if type =tt TokenType.AsOperator then true
  else false.

(** [IsRightUnaryArithmeticOperator] *)
Definition IsRightUnaryArithmeticOperator (type : TokenType) : bool :=
  match type with
  | TokenType.IncrementOperator | TokenType.DecrementOperator => true
  | _ => false
  end.

(** [IsRightUnaryBooleanOperator] *)
Definition IsRightUnaryBooleanOperator (type : TokenType) : bool :=
  match type with
  | TokenType.NotOperator => true
  | _ => false
  end.

(** [IsLeftUnaryArithmeticOperator] *)
Definition IsLeftUnaryArithmeticOperator (type : TokenType) : bool :=
  match type with
  | TokenType.SubOperator | TokenType.AddOperator | TokenType.IncrementOperator
  | TokenType.DecrementOperator => true
  | _ => false
  end.

(** [IsLeftUnaryBooleanOperator] *)
Definition IsLeftUnaryBooleanOperator (type : TokenType) : bool := false.

(** [IsLeftUnaryOperator] *)
Definition IsLeftUnaryOperator (type : TokenType) : bool :=
  if IsLeftUnaryArithmeticOperator type then true
  else if IsLeftUnaryBooleanOperator type then true
  else false.

(** [IsRightUnaryOperator] *)
Definition IsRightUnaryOperator (type : TokenType) : bool :=
  if IsRightUnaryArithmeticOperator type then true
  else if IsRightUnaryBooleanOperator type then true
  else false.

(** [IsUnaryOperator] *)
Definition IsUnaryOperator (type : TokenType) : bool :=
  if IsLeftUnaryOperator type then true
  else if IsRightUnaryOperator type then true
  else false.

(** [IsOperator] *)
Definition IsOperator (type : TokenType) : bool :=
  if type =tt TokenType.AssignOperator then true
  else if IsUnaryOperator type then true
  else if IsBinaryOperator type then true
  else false.

(** [IsMemberKeyword] *)
Definition IsMemberKeyword (type : TokenType) : bool :=
  match type with
  | TokenType.IndexerKeyword => true
  | _ => false
  end.

(** [IsPredefinedType] *)
Definition IsPredefinedType (type : TokenType) : bool :=
  match type with
  | TokenType.VoidKeyword | TokenType.VarKeyword | TokenType.IntegerKeyword
  | TokenType.DoubleKeyword | TokenType.ByteKeyword | TokenType.NativeIntegerKeyword
  | TokenType.CharKeyword | TokenType.StringKeyword | TokenType.BooleanKeyword => true
  | _ => false
  end.

(** [IsType] *)
Definition IsType (type peekType : TokenType) : bool :=
  if IsPredefinedType type then true else
  match type with
  | TokenType.Identifier =>
      match peekType with
      | TokenType.LessOperator | TokenType.OpenSquare | TokenType.Identifier
      | TokenType.Question | TokenType.IndexerKeyword => true
      | _ => false
      end
  | TokenType.DelegateKeyword => true
  | _ => false
  end.

(** [IsModifier] *)
Definition IsModifier (type : TokenType) : bool :=
  match type with
  | TokenType.PublicKeyword | TokenType.PrivateKeyword | TokenType.ProtectedKeyword
  | TokenType.InternalKeyword | TokenType.StaticKeyword | TokenType.AsyncKeyword
  | TokenType.ExternKeyword | TokenType.ExportKeyword => true
  | _ => false
  end.

(** [IsTypeKeyword] *)
Definition IsTypeKeyword (type : TokenType) : bool :=
  match type with
  | TokenType.ClassKeyword | TokenType.StructKeyword | TokenType.InterfaceKeyword
  | TokenType.DelegateKeyword | TokenType.EnumKeyword => true
  | _ => false
  end.

(** [IsMemberDeclaration] *)
Definition IsMemberDeclaration (currentType peekType : TokenType) : bool :=
  if IsModifier currentType then true
  else if IsMemberKeyword currentType then true
  else if IsTypeKeyword currentType then true
  else if currentType =tt TokenType.FunctionKeyword then true
  else if currentType =tt TokenType.InitKeyword then true
  else if currentType =tt TokenType.Identifier then peekType =tt TokenType.Colon
  else if currentType =tt TokenType.OpenSquare then true
  else false.

(** [IsLoopKeyword] *)
Definition IsLoopKeyword (type : TokenType) : bool :=
  match type with
  | TokenType.ForKeyword | TokenType.WhileKeyword | TokenType.UntilKeyword
  | TokenType.DoKeyword | TokenType.ForeachKeyword => true
  | _ => false
  end.

(** [IsConditionalKeyword] *)
Definition IsConditionalKeyword (type : TokenType) : bool :=
  match type with
  | TokenType.IfKeyword | TokenType.UnlessKeyword | TokenType.ElseKeyword
  | TokenType.SwitchKeyword => true
  | _ => false
  end.

(** [IsFunctionalKeyword] *)
Definition IsFunctionalKeyword (type : TokenType) : bool :=
  match type with
  | TokenType.BreakKeyword | TokenType.ContinueKeyword | TokenType.ReturnKeyword
  | TokenType.ThrowKeyword | TokenType.TryKeyword | TokenType.CatchKeyword
  | TokenType.DeferKeyword => true
  | _ => false
  end.

(** [IsLinkedExpressionNode] *)
Definition IsLinkedExpressionNode (kind : SyntaxKind.t) : bool :=
  match kind with
  | SyntaxKind.MemberAccessExpression
  | SyntaxKind.InvokationExpression
  | SyntaxKind.IndexatorExpression => true
  | _ => false
  end.

(** [IsKeyword] *)
Definition IsKeyword (type : TokenType) : bool :=
  if IsFunctionalKeyword type then true
  else if IsConditionalKeyword type then true
  else if IsLoopKeyword type then true
  else false.

(** [IsPunctuation] *)
Definition IsPunctuation (type : TokenType) : bool :=
  match type with
  | TokenType.OpenBrace | TokenType.CloseBrace | TokenType.OpenCurl
  | TokenType.CloseCurl | TokenType.OpenSquare | TokenType.CloseSquare
  | TokenType.Question | TokenType.Delimeter | TokenType.Comma | TokenType.Colon
  | TokenType.Semicolon => true
  | _ => false
  end.

(** [IsReservedIdentifier] *)
Definition IsReservedIdentifier (type : TokenType) : bool :=
  match type with
  | TokenType.ValueKeyword | TokenType.FieldKeyword | TokenType.WhileKeyword => true
  | _ => false
  end.

(** [GetOperatorMethodName] *)
Definition GetOperatorMethodName (type : TokenType) : wstring :=
  match type with
  | TokenType.AddOperator => L "op_AddOperator"
  | TokenType.SubOperator => L "op_SubOperator"
  | TokenType.MultOperator => L "op_MultOperator"
  | TokenType.DivOperator => L "op_DivOperator"
  | TokenType.ModOperator => L "op_ModOperator"
  | TokenType.PowOperator => L "op_PowOperator"
  | TokenType.AddAssignOperator => L "op_AddAssignOperator"
  | TokenType.SubAssignOperator => L "op_SubAssignOperator"
  | TokenType.MultAssignOperator => L "op_MultAssignOperator"
  | TokenType.DivAssignOperator => L "op_DivAssignOperator"
  | TokenType.ModAssignOperator => L "op_ModAssignOperator"
  | TokenType.PowAssignOperator => L "op_PowAssignOperator"
  | TokenType.OrOperator => L "op_OrOperator"
  | TokenType.AndOperator => L "op_AndOperator"
  | TokenType.OrAssignOperator => L "op_OrAssignOperator"
  | TokenType.AndAssignOperator => L "op_AndAssignOperator"
  | TokenType.RightShiftOperator => L "op_RightShiftOperator"
  | TokenType.LeftShiftOperator => L "op_LeftShiftOperator"
  | TokenType.EqualsOperator => L "op_EqualsOperator"
  | TokenType.NotEqualsOperator => L "op_NotEqualsOperator"
  | TokenType.GreaterOperator => L "op_GreaterOperator"
  | TokenType.GreaterOrEqualsOperator => L "op_GreaterOrEqualsOperator"
  | TokenType.LessOperator => L "op_LessOperator"
  | TokenType.LessOrEqualsOperator => L "op_LessOrEqualsOperator"
  | TokenType.IncrementOperator => L "op_IncrementOperator"
  | TokenType.DecrementOperator => L "op_DecrementOperator"
  | TokenType.NotOperator => L "op_NotOperator"
  | TokenType.Delimeter => L "op_DotOperator"
  | TokenType.AsOperator => L "op_AsOperator"
  | _ => []
  end.

(** [IsOverloadableOperator] *)
Definition IsOverloadableOperator (type : TokenType) : bool :=
  match GetOperatorMethodName type with [] => false | _ => true end.

(** [GetTokenTypeFromOperatorName] *)
Definition GetTokenTypeFromOperatorName (name : wstring) : TokenType :=
  if name =w L "AddOperator" then TokenType.AddOperator
  else if name =w L "SubOperator" then TokenType.SubOperator
  else if name =w L "MultOperator" then TokenType.MultOperator
  else if name =w L "DivOperator" then TokenType.DivOperator
  else if name =w L "ModOperator" then TokenType.ModOperator
  else if name =w L "PowOperator" then TokenType.PowOperator
  else if name =w L "AddAssignOperator" then TokenType.AddAssignOperator
  else if name =w L "SubAssignOperator" then TokenType.SubAssignOperator
  else if name =w L "MultAssignOperator" then TokenType.MultAssignOperator
  else if name =w L "DivAssignOperator" then TokenType.DivAssignOperator
  else if name =w L "ModAssignOperator" then TokenType.ModAssignOperator
  else if name =w L "PowAssignOperator" then TokenType.PowAssignOperator
  else if name =w L "OrOperator" then TokenType.OrOperator
  else if name =w L "AndOperator" then TokenType.AndOperator
  else if name =w L "OrAssignOperator" then TokenType.OrAssignOperator
  else if name =w L "AndAssignOperator" then TokenType.AndAssignOperator
  else if name =w L "RightShiftOperator" then TokenType.RightShiftOperator
  else if name =w L "LeftShiftOperator" then TokenType.LeftShiftOperator
  else if name =w L "EqualsOperator" then TokenType.EqualsOperator
  else if name =w L "NotEqualsOperator" then TokenType.NotEqualsOperator
  else if name =w L "GreaterOperator" then TokenType.GreaterOperator
  else if name =w L "GreaterOrEqualsOperator" then TokenType.GreaterOrEqualsOperator
  else if name =w L "LessOperator" then TokenType.LessOperator
  else if name =w L "LessOrEqualsOperator" then TokenType.LessOrEqualsOperator
  else if name =w L "IncrementOperator" then TokenType.IncrementOperator
  else if name =w L "DecrementOperator" then TokenType.DecrementOperator
  else if name =w L "NotOperator" then TokenType.NotOperator
  else if name =w L "AsOperator" then TokenType.AsOperator
  else TokenType.Unknown.

End SyntaxFacts.
