(* ===== verification/SyntaxSpec.v ===== *)
(** * Properties of the token facts

    The operator-method names and their inverse, the precedence table against
    the operator predicates, and the agreement of the parser's keyword
    predicates with the keywords the lexer recognises. *)
From Stdlib Require Import ZArith Lia Bool List String.
From stdpp Require Import base list.
From S2P Require Import Prelude Tokens Lexer SyntaxFacts.
Import ListNotations SyntaxFacts.
Open Scope Z_scope.
Open Scope shard_scope.

(** ** Operator methods *)

Lemma operator_name_to_type n t :
  GetTokenTypeFromOperatorName n = t -> t <> TokenType.Unknown ->
  GetOperatorMethodName t = L "op_" ++ n.
Proof.
  unfold GetTokenTypeFromOperatorName; intros <-.
  repeat match goal with
  | |- context [if ?w =w ?l then _ else _] => destruct (weqb_spec w l) as [->|_]; [reflexivity|]
  end; contradiction.
Qed.

Lemma operator_type_to_name t n :
  GetOperatorMethodName t = L "op_" ++ n -> t <> TokenType.Delimeter ->
  GetTokenTypeFromOperatorName n = t.
Proof.
  intros E Ht; destruct t; try contradiction; cbn in E;
    try discriminate; injection E as <-; vm_compute; reflexivity.
Qed.

(** The method name of an operator and the name an [operator] declaration
    spells it with determine each other, for every token type and every name:
    [op_] plus the declared name is the method name, in both directions.  The
    dot is the one overloadable operator whose name is not read back. *)
Theorem operator_name_roundtrip (t : TokenType) (n : wstring) :
  (t <> TokenType.Unknown -> t <> TokenType.Delimeter ->
     (GetTokenTypeFromOperatorName n = t <-> GetOperatorMethodName t = L "op_" ++ n))
  /\ GetOperatorMethodName TokenType.Delimeter = L "op_DotOperator"
  /\ GetTokenTypeFromOperatorName (L "DotOperator") = TokenType.Unknown.
Proof.
  split; [|split; reflexivity]; intros Hu Hd; split; intros E.
  - apply operator_name_to_type; assumption.
  - apply operator_type_to_name; assumption.
Qed.

(** Two operators share a method name only when they are the same operator. *)
Theorem operator_method_injective (t u : TokenType) :
  IsOverloadableOperator t = true -> GetOperatorMethodName t = GetOperatorMethodName u -> t = u.
Proof.
  intros Ho E.
  destruct (TokenType.eqb_spec t TokenType.Delimeter) as [->|Ht];
    [destruct u; (reflexivity || discriminate E)|].
  destruct (TokenType.eqb_spec u TokenType.Delimeter) as [->|Hu];
    [destruct t; (discriminate E || contradiction)|].
  assert (exists n, GetOperatorMethodName t = L "op_" ++ n) as (n & En)
    by (destruct t; try discriminate Ho; eexists; reflexivity).
  rewrite <- (operator_type_to_name t n En Ht); apply operator_type_to_name; congruence.
Qed.

(** ** Precedence *)

(** The token types with a precedence are exactly the binary operators, the
    postfix operators and six others: the plain assignment, the call
    parenthesis, the await keyword, the question mark, and the two
    assignments [|=] and [&=], which no operator predicate accepts. *)
Theorem precedence_domain (t : TokenType) :
  GetOperatorPrecendence t <> 0 <->
  IsBinaryOperator t = true \/ IsRightUnaryArithmeticOperator t = true
  \/ In t [TokenType.AssignOperator; TokenType.OpenCurl; TokenType.AwaitKeyword;
           TokenType.Question; TokenType.OrAssignOperator; TokenType.AndAssignOperator].
Proof.
  split.
  - intros Hp; destruct t; cbn in *; try contradiction; tauto.
  - intros [H|[H|H]]; [destruct t; discriminate..|].
    cbn in H; repeat destruct H as [<-|H]; try contradiction; discriminate.
Qed.

(** The assignments, plain and compound. *)
Definition is_assignment (t : TokenType) : bool :=
  match t with
  | TokenType.AssignOperator | TokenType.AddAssignOperator | TokenType.SubAssignOperator
  | TokenType.MultAssignOperator | TokenType.DivAssignOperator | TokenType.ModAssignOperator
  | TokenType.PowAssignOperator | TokenType.OrAssignOperator | TokenType.AndAssignOperator => true
  | _ => false
  end.
Definition is_logical (t : TokenType) : bool :=
  (t =tt TokenType.AndOperator) || (t =tt TokenType.OrOperator).

(** The binding strength of the operator classes: arithmetic over shifts
    over comparisons over logical operators over assignments. *)
Theorem precedence_classes (a s c l e : TokenType) :
  IsBinaryArithmeticOperator a = true -> is_assignment a = false ->
  IsBinaryBitOperator s = true ->
  IsBinaryBooleanOperator c = true -> is_logical c = false ->
  is_logical l = true -> is_assignment e = true ->
  GetOperatorPrecendence e < GetOperatorPrecendence l < GetOperatorPrecendence c
  /\ GetOperatorPrecendence c < GetOperatorPrecendence s < GetOperatorPrecendence a.
Proof.
  intros Ha Ha' Hs Hc Hc' Hl He.
  assert (8 <= GetOperatorPrecendence a)
    by (destruct a; first [discriminate Ha | discriminate Ha' | cbn; lia]).
  assert (GetOperatorPrecendence s = 7) as -> by (destruct s; first [discriminate Hs | reflexivity]).
  assert (5 <= GetOperatorPrecendence c <= 6)
    by (destruct c; first [discriminate Hc | discriminate Hc' | cbn; lia]).
  assert (3 <= GetOperatorPrecendence l <= 4) by (destruct l; first [discriminate Hl | cbn; lia]).
  assert (GetOperatorPrecendence e = 1) as -> by (destruct e; first [discriminate He | reflexivity]).
  lia.
Qed.

Lemma precedence_classes_witness :
  GetOperatorPrecendence TokenType.AssignOperator < GetOperatorPrecendence TokenType.OrOperator
    < GetOperatorPrecendence TokenType.EqualsOperator
  /\ GetOperatorPrecendence TokenType.EqualsOperator
    < GetOperatorPrecendence TokenType.LeftShiftOperator
    < GetOperatorPrecendence TokenType.SubOperator.
Proof. apply precedence_classes; reflexivity. Defined.

Lemma operator_method_injective_witness : TokenType.AddOperator = TokenType.AddOperator.
Proof. apply operator_method_injective; reflexivity. Defined.

(** ** The lexer's keywords and the parser's predicates *)

Section Keywords.
(** [recognised f t]: some word is lexed by [f] as [t]. *)
Definition recognised (f : wstring -> option TokenType) (t : TokenType) : Prop :=
  exists w, f w = Some t.

Ltac unfold_chain :=
  intros [w E];
  unfold LexicalAnalyzer.IsModifier, LexicalAnalyzer.IsLoopKeyword,
    LexicalAnalyzer.IsConditionalKeyword, LexicalAnalyzer.IsType,
    LexicalAnalyzer.IsFunctionalKeyword in E;
  repeat match type of E with
  | (if ?b then _ else _) = _ => destruct b; [injection E as <-; cbn; auto 8|]
  end; discriminate E.
Ltac spell s := exists (L s); reflexivity.

Lemma modifiers_agree t : IsModifier t = true <-> recognised LexicalAnalyzer.IsModifier t.
Proof.
  split; [|unfold_chain].
  intros H; destruct t; try discriminate H;
    first [ spell "public"%string | spell "private"%string | spell "protected"%string
          | spell "internal"%string | spell "static"%string | spell "async"%string
          | spell "extern"%string | spell "export"%string ].
Qed.

Lemma loops_agree t : IsLoopKeyword t = true \/ t = TokenType.InKeyword <->
  recognised LexicalAnalyzer.IsLoopKeyword t.
Proof.
  split; [|unfold_chain].
  intros [H| ->]; [|spell "in"%string]; destruct t; try discriminate H;
    first [ spell "for"%string | spell "while"%string | spell "until"%string
          | spell "do"%string | spell "foreach"%string ].
Qed.

Lemma conditionals_agree t :
  IsConditionalKeyword t = true \/ t = TokenType.CaseKeyword \/ t = TokenType.DefaultKeyword <->
  recognised LexicalAnalyzer.IsConditionalKeyword t.
Proof.
  split; [|unfold_chain].
  intros [H|[-> | ->]]; [|spell "case"%string|spell "default"%string];
    destruct t; try discriminate H;
    first [ spell "if"%string | spell "unless"%string | spell "else"%string
          | spell "switch"%string ].
Qed.

Lemma types_agree t :
  IsPredefinedType t = true \/ t = TokenType.LambdaKeyword \/ t = TokenType.DelegateKeyword <->
  recognised LexicalAnalyzer.IsType t.
Proof.
  split; [|unfold_chain].
  intros [H|[-> | ->]]; [|spell "lambda"%string|spell "delegate"%string];
    destruct t; try discriminate H;
    first [ spell "void"%string | spell "var"%string | spell "bool"%string
          | spell "string"%string | spell "double"%string | spell "int"%string
          | spell "char"%string | spell "byte"%string | spell "nint"%string ].
Qed.

Lemma functionals_agree t :
  (IsFunctionalKeyword t = true /\ t <> TokenType.DeferKeyword) \/ t = TokenType.AwaitKeyword <->
  recognised LexicalAnalyzer.IsFunctionalKeyword t.
Proof.
  split.
  - intros [[H Hn]| ->]; [|spell "await"%string]; destruct t; try discriminate H; try contradiction;
      first [ spell "return"%string | spell "continue"%string | spell "break"%string
            | spell "throw"%string | spell "try"%string | spell "catch"%string ].
  - intros [w E]; unfold LexicalAnalyzer.IsFunctionalKeyword in E.
    repeat match type of E with
    | (if ?b then _ else _) = _ =>
        destruct b; [injection E as <-; first [right; reflexivity | left; split; [reflexivity|discriminate]]|]
    end; discriminate E.
Qed.
End Keywords.

(** The parser's keyword predicates accept exactly the token types the lexer
    produces from its keyword tables, apart from the keywords that only occur
    inside a construct ([in], [case], [default], [lambda], [delegate],
    [await]) and [defer], which the lexer finds in another table. *)
Theorem keyword_predicates_agree (t : TokenType) :
  (IsModifier t = true <-> recognised LexicalAnalyzer.IsModifier t)
  /\ (IsLoopKeyword t = true \/ t = TokenType.InKeyword <->
        recognised LexicalAnalyzer.IsLoopKeyword t)
  /\ (IsConditionalKeyword t = true \/ t = TokenType.CaseKeyword \/ t = TokenType.DefaultKeyword <->
        recognised LexicalAnalyzer.IsConditionalKeyword t)
  /\ (IsPredefinedType t = true \/ t = TokenType.LambdaKeyword \/ t = TokenType.DelegateKeyword <->
        recognised LexicalAnalyzer.IsType t)
  /\ ((IsFunctionalKeyword t = true /\ t <> TokenType.DeferKeyword) \/ t = TokenType.AwaitKeyword <->
        recognised LexicalAnalyzer.IsFunctionalKeyword t).
Proof.
  split; [apply modifiers_agree|split; [apply loops_agree|split; [apply conditionals_agree|]]].
  split; [apply types_agree|apply functionals_agree].
Qed.
