(* ===== verification/SyntaxTree.v ===== *)
(** * The syntax tree

    The nodes the parser builds (include/shard/parsing/nodes/): types,
    expressions, statements and declarations.  A [std::unique_ptr] that may
    be null is an [option].  Left out are the back pointer [Parent] and the
    fields later passes fill in (the symbols a node is bound to); a member
    that has two constructors of the same name in the source keeps the
    source's name with the prefix of its class. *)
From Stdlib Require Import ZArith Bool List String.
From stdpp Require Import base list.
From S2P Require Import Prelude Tokens SyntaxFacts.
Import ListNotations.

(** ** Types *)
Inductive TypeSyntax : Type :=
| PredefinedTypeSyntax (TypeToken : SyntaxToken)
| IdentifierNameTypeSyntax (Identifier : SyntaxToken)
| QualifiedNameTypeSyntax (Left : TypeSyntax) (Identifier : SyntaxToken)
| NullableTypeSyntax (UnderlayingType : TypeSyntax) (QuestionToken : SyntaxToken)
| ArrayTypeSyntax (UnderlayingType : TypeSyntax)
    (OpenSquareToken CloseSquareToken : SyntaxToken) (Rank : Z)
| GenericTypeSyntax (UnderlayingType : TypeSyntax) (Arguments : TypeArgumentsListSyntax)
| DelegateTypeSyntax (DelegateToken : SyntaxToken) (ReturnType : option TypeSyntax)
    (Params : ParametersListSyntax)
with TypeArgumentsListSyntax : Type :=
| TypeArgumentsList (OpenToken CloseToken : SyntaxToken) (Types : list (option TypeSyntax))
with ParameterSyntax : Type :=
| Parameter_ (Type_ : option TypeSyntax) (Identifier : SyntaxToken)
with ParametersListSyntax : Type :=
| ParametersList (OpenToken CloseToken : SyntaxToken) (Parameters_ : list ParameterSyntax).

Record TypeParametersListSyntax := TypeParametersList {
  tpl_OpenToken : SyntaxToken;
  tpl_CloseToken : SyntaxToken;
  tpl_Types : list SyntaxToken
}.

(** ** Expressions and statements *)
Inductive ExpressionSyntax : Type :=
| LiteralExpressionSyntax (LiteralToken : SyntaxToken)
| UnaryExpressionSyntax (OperatorToken : SyntaxToken) (IsRightDetermined : bool)
    (Expression : option ExpressionSyntax)
| BinaryExpressionSyntax (OperatorToken : SyntaxToken) (Left Right : option ExpressionSyntax)
| RangeExpressionSyntax (OperatorToken : SyntaxToken) (IsInclusive : bool)
    (Left Right : option ExpressionSyntax)
| CastExpressionSyntax (OperatorToken : SyntaxToken) (Expression : option ExpressionSyntax)
    (TargetType : option TypeSyntax)
| IsExpressionSyntax (OperatorToken : SyntaxToken) (Expression : option ExpressionSyntax)
    (TargetType : option TypeSyntax)
| IsPatternSyntax (OperatorToken : SyntaxToken) (TargetType : option TypeSyntax)
    (IdentifierToken : SyntaxToken)
| AwaitExpressionSyntax (AwaitKeywordToken : SyntaxToken) (Expression : option ExpressionSyntax)
| ObjectExpressionSyntax (NewToken : SyntaxToken) (Type_ : option TypeSyntax)
    (IsArrayCreation : bool) (ArraySize : option ExpressionSyntax)
    (ArgumentsList_ : option ArgumentsListSyntax)
| TernaryExpressionSyntax (QuestionToken ColonToken : SyntaxToken)
    (Condition Left Right : option ExpressionSyntax)
| CollectionExpressionSyntax (OpenSquareToken CloseSquareToken : SyntaxToken)
    (ValuesExpressions : list (option ExpressionSyntax))
| LambdaExpressionSyntax (LambdaToken LambdaOperatorToken ReturnTypeArrowToken
    AsyncModifierToken : SyntaxToken) (ParametersList_ : ParametersListSyntax)
    (ReturnType : option TypeSyntax) (Body : StatementsBlockSyntax)
| IfExpressionSyntax (IfKeywordToken ElseKeywordToken : SyntaxToken)
    (Condition ThenExpression ElseExpression : option ExpressionSyntax)
| SwitchExpressionSyntax (SwitchKeywordToken OpenBraceToken CloseBraceToken : SyntaxToken)
    (Expression : option ExpressionSyntax) (Arms : list SwitchArmSyntax)
| TypeExpressionSyntax (Type_ : TypeSyntax)
| MemberAccessExpressionSyntax (DelimeterToken IdentifierToken : SyntaxToken)
    (PreviousExpression : option ExpressionSyntax)
| IndexatorExpressionSyntax (DelimeterToken IdentifierToken : SyntaxToken)
    (PreviousExpression : option ExpressionSyntax) (IndexatorList_ : ArgumentsListSyntax)
| InvokationExpressionSyntax (DelimeterToken IdentifierToken : SyntaxToken)
    (PreviousExpression : option ExpressionSyntax)
    (TypeArguments : option TypeArgumentsListSyntax)
    (ArgumentsList_ : option ArgumentsListSyntax)
with SwitchArmSyntax : Type :=
| SwitchArm (ArrowToken : SyntaxToken) (Pattern Expression : option ExpressionSyntax)
with ArgumentSyntax : Type :=
| Argument (Expression : option ExpressionSyntax)
(** [ArgumentsListSyntax] and [IndexatorListSyntax]: the brackets and what is
    between them. *)
with ArgumentsListSyntax : Type :=
| ArgumentsList (OpenToken CloseToken : SyntaxToken) (Arguments_ : list ArgumentSyntax)
with StatementSyntax : Type :=
| ExpressionStatementSyntax (SemicolonToken : SyntaxToken) (Expression : option ExpressionSyntax)
| VariableStatementSyntax (SemicolonToken : SyntaxToken) (Type_ : TypeSyntax)
    (IdentifierToken AssignToken : SyntaxToken) (Expression : option ExpressionSyntax)
| ReturnStatementSyntax (SemicolonToken KeywordToken : SyntaxToken)
    (Expression : option ExpressionSyntax)
| ThrowStatementSyntax (SemicolonToken KeywordToken : SyntaxToken)
    (Expression : option ExpressionSyntax)
| BreakStatementSyntax (SemicolonToken KeywordToken : SyntaxToken)
| ContinueStatementSyntax (SemicolonToken KeywordToken : SyntaxToken)
| DeferStatementSyntax (SemicolonToken DeferToken : SyntaxToken)
    (Statement : option StatementSyntax)
| IfStatementSyntax (KeywordToken OpenCurlToken CloseCurlToken : SyntaxToken)
    (ConditionExpression : option StatementSyntax) (StatementsBlock_ : StatementsBlockSyntax)
    (NextStatement : option StatementSyntax)
| UnlessStatementSyntax (KeywordToken OpenCurlToken CloseCurlToken : SyntaxToken)
    (ConditionExpression : option StatementSyntax) (StatementsBlock_ : StatementsBlockSyntax)
    (NextStatement : option StatementSyntax)
| ElseStatementSyntax (KeywordToken : SyntaxToken) (StatementsBlock_ : StatementsBlockSyntax)
| WhileStatementSyntax (SemicolonToken KeywordToken OpenCurlToken CloseCurlToken : SyntaxToken)
    (ConditionExpression : option ExpressionSyntax) (StatementsBlock_ : StatementsBlockSyntax)
| UntilStatementSyntax (SemicolonToken KeywordToken OpenCurlToken CloseCurlToken : SyntaxToken)
    (ConditionExpression : option ExpressionSyntax) (StatementsBlock_ : StatementsBlockSyntax)
| ForStatementSyntax (SemicolonToken KeywordToken OpenCurlToken FirstSemicolon SecondSemicolon
    CloseCurlToken : SyntaxToken) (InitializerStatement : option StatementSyntax)
    (ConditionExpression : option ExpressionSyntax) (AfterRepeatStatement : option StatementSyntax)
    (StatementsBlock_ : StatementsBlockSyntax)
| ForEachStatementSyntax (KeywordToken IdentifierToken InKeywordToken : SyntaxToken)
    (RangeExpression : option ExpressionSyntax) (StatementsBlock_ : StatementsBlockSyntax)
| ForInStatementSyntax (KeywordToken IdentifierToken InKeywordToken : SyntaxToken)
    (RangeExpression : option ExpressionSyntax) (StatementsBlock_ : StatementsBlockSyntax)
| TryStatementSyntax (TryKeywordToken : SyntaxToken) (TryBlock : StatementsBlockSyntax)
    (CatchClauses : list CatchClauseSyntax)
| SwitchStatementSyntax (SwitchKeywordToken OpenParenToken CloseParenToken OpenBraceToken
    CloseBraceToken : SyntaxToken) (Expression : option ExpressionSyntax)
    (Clauses : list SwitchCaseClauseSyntax)
with CatchClauseSyntax : Type :=
| CatchClause (CatchKeywordToken OpenParenToken IdentifierToken ColonToken
    CloseParenToken : SyntaxToken) (ExceptionType : option TypeSyntax)
    (Body : StatementsBlockSyntax)
with SwitchCaseClauseSyntax : Type :=
| SwitchCaseClause (KeywordToken ColonToken : SyntaxToken) (Pattern : option ExpressionSyntax)
    (Body : StatementsBlockSyntax)
with StatementsBlockSyntax : Type :=
| StatementsBlock (OpenBraceToken CloseBraceToken SemicolonToken : SyntaxToken)
    (Statements : list StatementSyntax) (ExpressionBodyArrowToken : SyntaxToken)
    (IsExpressionBody : bool).

(** [SyntaxNode::Kind] of an expression. *)
Definition Kind (e : ExpressionSyntax) : SyntaxKind.t :=
  match e with
  | LiteralExpressionSyntax _ => SyntaxKind.LiteralExpression
  | UnaryExpressionSyntax _ _ _ => SyntaxKind.UnaryExpression
  | BinaryExpressionSyntax _ _ _ => SyntaxKind.BinaryExpression
  | RangeExpressionSyntax _ _ _ _ => SyntaxKind.RangeExpression
  | CastExpressionSyntax _ _ _ => SyntaxKind.CastExpression
  | IsExpressionSyntax _ _ _ => SyntaxKind.IsExpression
  | IsPatternSyntax _ _ _ => SyntaxKind.IsPattern
  | AwaitExpressionSyntax _ _ => SyntaxKind.AwaitExpression
  | ObjectExpressionSyntax _ _ _ _ _ => SyntaxKind.ObjectExpression
  | TernaryExpressionSyntax _ _ _ _ _ => SyntaxKind.TernaryExpression
  | CollectionExpressionSyntax _ _ _ => SyntaxKind.CollectionExpression
  | LambdaExpressionSyntax _ _ _ _ _ _ _ => SyntaxKind.LambdaExpression
  | IfExpressionSyntax _ _ _ _ _ => SyntaxKind.IfExpression
  | SwitchExpressionSyntax _ _ _ _ _ => SyntaxKind.SwitchExpression
  | TypeExpressionSyntax _ => SyntaxKind.TypeExpression
  | MemberAccessExpressionSyntax _ _ _ => SyntaxKind.MemberAccessExpression
  | IndexatorExpressionSyntax _ _ _ _ => SyntaxKind.IndexatorExpression
  | InvokationExpressionSyntax _ _ _ _ _ => SyntaxKind.InvokationExpression
  end.

(** [dynamic_cast<LinkedExpressionNode*>] succeeds. *)
Definition is_linked (e : ExpressionSyntax) : bool :=
  SyntaxFacts.IsLinkedExpressionNode (Kind e).

(** [StatementsBlockSyntax::OpenBraceToken] and [::SemicolonToken] *)
Definition block_OpenBraceToken (b : StatementsBlockSyntax) : SyntaxToken :=
  match b with StatementsBlock o _ _ _ _ _ => o end.
Definition block_SemicolonToken (b : StatementsBlockSyntax) : SyntaxToken :=
  match b with StatementsBlock _ _ s _ _ _ => s end.

(** [StatementsBlockSyntax(parent)] *)
Definition new_block : StatementsBlockSyntax :=
  StatementsBlock default_token default_token default_token [] default_token false.

(** [statement->SemicolonToken = t]: only plain statements are given their
    semicolon after they are built. *)
Definition set_SemicolonToken (s : StatementSyntax) (t : SyntaxToken) : StatementSyntax :=
  match s with
  | ExpressionStatementSyntax _ e => ExpressionStatementSyntax t e
  | VariableStatementSyntax _ ty x a e => VariableStatementSyntax t ty x a e
  | s => s
  end.

(** [dynamic_cast<KeywordStatementSyntax*>], answering its [KeywordToken];
    the statements that name their keyword otherwise leave it as it was
    constructed. *)
Definition as_KeywordStatement (s : StatementSyntax) : option SyntaxToken :=
  match s with
  | ExpressionStatementSyntax _ _ | VariableStatementSyntax _ _ _ _ _ => None
  | ReturnStatementSyntax _ k _ | ThrowStatementSyntax _ k _ => Some k
  | BreakStatementSyntax _ k | ContinueStatementSyntax _ k => Some k
  | IfStatementSyntax k _ _ _ _ _ | UnlessStatementSyntax k _ _ _ _ _ => Some k
  | ElseStatementSyntax k _ => Some k
  | WhileStatementSyntax _ k _ _ _ _ | UntilStatementSyntax _ k _ _ _ _ => Some k
  | ForStatementSyntax _ k _ _ _ _ _ _ _ _ => Some k
  | ForEachStatementSyntax k _ _ _ _ | ForInStatementSyntax k _ _ _ _ => Some k
  | DeferStatementSyntax _ _ _ | TryStatementSyntax _ _ _
  | SwitchStatementSyntax _ _ _ _ _ _ _ => Some default_token
  end.

(** ** Declarations *)
Record AttributeSyntax := mkAttribute {
  attr_OpenBracketToken : SyntaxToken;
  attr_CloseBracketToken : SyntaxToken;
  attr_NameToken : SyntaxToken;
  attr_OpenCurlToken : SyntaxToken;
  attr_CloseCurlToken : SyntaxToken;
  attr_Arguments : list SyntaxToken
}.

Record WhereClauseSyntax := mkWhereClause {
  where_KeywordToken : SyntaxToken;
  where_TypeParameterToken : SyntaxToken;
  where_ColonToken : SyntaxToken;
  where_ConstraintTypes : list TypeSyntax
}.

Record UsingDirectiveSyntax := mkUsing {
  using_KeywordToken : SyntaxToken;
  using_SemicolonToken : SyntaxToken;
  using_TokensList : list SyntaxToken
}.

Record NamespaceDeclarationSyntax := mkNamespace {
  ns_DeclareToken : SyntaxToken;
  ns_IdentifierToken : SyntaxToken;
  ns_IdentifierTokens : list SyntaxToken;
  ns_SemicolonToken : SyntaxToken
}.

(** [MemberDeclarationInfo]: what is read of a declaration before its kind
    is known. *)
Record MemberDeclarationInfo := mkInfo {
  info_Attributes : list AttributeSyntax;
  info_Modifiers : list SyntaxToken;
  info_DeclareType : SyntaxToken;
  info_Identifier : SyntaxToken;
  info_ReturnType : option TypeSyntax;
  info_Generics : option TypeParametersListSyntax
}.

(** The fields every declaration inherits from [MemberDeclarationSyntax]. *)
Record MemberBase := mkMember {
  Modifiers : list SyntaxToken;
  DeclareToken : SyntaxToken;
  IdentifierToken : SyntaxToken;
  Attributes : list AttributeSyntax;
  TypeParameters : option TypeParametersListSyntax;
  WhereClauses : list WhereClauseSyntax
}.

(** The part of the constructors of the declarations that copies [info]. *)
Definition base_of_info (info : MemberDeclarationInfo) : MemberBase :=
  mkMember (info_Modifiers info) default_token (info_Identifier info) (info_Attributes info)
    (info_Generics info) [].

Record AccessorDeclarationSyntax := mkAccessor {
  acc_Attributes : list AttributeSyntax;
  acc_KeywordToken : SyntaxToken;
  acc_Modifiers : list SyntaxToken;
  acc_SemicolonToken : SyntaxToken;
  acc_Body : option StatementsBlockSyntax
}.

(** [AccessorDeclarationSyntax(parent)] *)
Definition new_accessor : AccessorDeclarationSyntax :=
  mkAccessor [] default_token [] default_token None.

Record EnumFieldDeclarationSyntax := mkEnumField {
  field_IdentifierToken : SyntaxToken;
  field_AssignToken : SyntaxToken;
  field_InitializerExpression : option ExpressionSyntax
}.

Record EnumDeclarationSyntax := mkEnum {
  enum_base : MemberBase;
  enum_OpenBraceToken : SyntaxToken;
  enum_CloseBraceToken : SyntaxToken;
  enum_ColonToken : SyntaxToken;
  enum_UnderlyingTypeToken : SyntaxToken;
  enum_IsFlags : bool;
  enum_Fields : list EnumFieldDeclarationSyntax
}.

Record DelegateDeclarationSyntax := mkDelegate {
  delegate_base : MemberBase;
  delegate_Token : SyntaxToken;
  delegate_Semicolon : SyntaxToken;
  delegate_ReturnType : option TypeSyntax;
  delegate_ParametersList : ParametersListSyntax
}.

Record ConstructorDeclarationSyntax := mkConstructor {
  ctor_base : MemberBase;
  ctor_Semicolon : SyntaxToken;
  ctor_Body : option StatementsBlockSyntax;
  ctor_ParametersList : ParametersListSyntax
}.

Record MethodDeclarationSyntax := mkMethod {
  method_base : MemberBase;
  method_AsyncModifierToken : SyntaxToken;
  method_Semicolon : SyntaxToken;
  method_ReturnType : option TypeSyntax;
  method_ParametersList : ParametersListSyntax;
  method_Body : option StatementsBlockSyntax
}.

Record OperatorDeclarationSyntax := mkOperator {
  op_base : MemberBase;
  op_OperatorToken : SyntaxToken;
  op_Semicolon : SyntaxToken;
  op_ReturnType : option TypeSyntax;
  op_ParametersList : ParametersListSyntax;
  op_Body : option StatementsBlockSyntax
}.

Record FieldDeclarationSyntax := mkField {
  fld_base : MemberBase;
  fld_ReturnType : option TypeSyntax;
  fld_SemicolonToken : SyntaxToken;
  fld_InitializerAssignToken : SyntaxToken;
  fld_InitializerExpression : option ExpressionSyntax
}.

Record PropertyDeclarationSyntax := mkProperty {
  prop_base : MemberBase;
  prop_ReturnType : option TypeSyntax;
  prop_OpenBraceToken : SyntaxToken;
  prop_CloseBraceToken : SyntaxToken;
  prop_ArrowToken : SyntaxToken;
  prop_SemicolonToken : SyntaxToken;
  prop_Getter : option AccessorDeclarationSyntax;
  prop_Setter : option AccessorDeclarationSyntax;
  prop_InitializerExpression : option ExpressionSyntax
}.

(** [PropertyDeclarationSyntax(info, parent)] *)
Definition new_property (info : MemberDeclarationInfo) : PropertyDeclarationSyntax :=
  mkProperty (base_of_info info) (info_ReturnType info) default_token default_token default_token
    default_token None None None.

Record IndexatorDeclarationSyntax := mkIndexator {
  idx_base : MemberBase;
  idx_IndexKeyword : SyntaxToken;
  idx_OpenBraceToken : SyntaxToken;
  idx_CloseBraceToken : SyntaxToken;
  idx_ReturnType : option TypeSyntax;
  idx_ParametersList : ParametersListSyntax;
  idx_Getter : option AccessorDeclarationSyntax;
  idx_Setter : option AccessorDeclarationSyntax
}.

(** [TypeDeclarationSyntax] over the type of its members. *)
Record TypeDeclaration (Member : Type) := mkTypeDeclaration {
  decl_base : MemberBase;
  decl_OpenBraceToken : SyntaxToken;
  decl_CloseBraceToken : SyntaxToken;
  decl_BaseInterfaces : list TypeSyntax;
  decl_Members : list Member
}.
Arguments mkTypeDeclaration {Member}.
Arguments decl_base {Member}.
Arguments decl_OpenBraceToken {Member}.
Arguments decl_CloseBraceToken {Member}.
Arguments decl_BaseInterfaces {Member}.
Arguments decl_Members {Member}.

Inductive MemberDeclarationSyntax : Type :=
| ClassDeclarationSyntax (d : TypeDeclaration MemberDeclarationSyntax)
| StructDeclarationSyntax (d : TypeDeclaration MemberDeclarationSyntax)
| InterfaceDeclarationSyntax (d : TypeDeclaration MemberDeclarationSyntax)
| DelegateDeclaration (d : DelegateDeclarationSyntax)
| EnumDeclaration (d : EnumDeclarationSyntax)
| ConstructorDeclaration (d : ConstructorDeclarationSyntax)
| MethodDeclaration (d : MethodDeclarationSyntax)
| OperatorDeclaration (d : OperatorDeclarationSyntax)
| FieldDeclaration (d : FieldDeclarationSyntax)
| PropertyDeclaration (d : PropertyDeclarationSyntax)
| IndexatorDeclaration (d : IndexatorDeclarationSyntax).

Record CompilationUnitSyntax := mkUnit {
  Usings : list UsingDirectiveSyntax;
  Members : list MemberDeclarationSyntax;
  Namespace_ : option NamespaceDeclarationSyntax
}.
