(* ===== verification/ParserState.v ===== *)
(** * The parser: state, tokens and error recovery

    The state of [SourceParser] (include/shard/parsing/SourceParser.hpp)
    with the token provider it reads and the diagnostics it reports to, and
    the helpers at the end of src/parsing/SourceParser.cpp that match, expect
    and skip tokens.

    The provider is the queue of tokens ahead ([TokenQueue] of the file
    LexerQueue is the contract under which both providers behave as one; the
    end of the queue answers [eof_token]).  A loop of the source is [loop],
    whose fuel is its first argument; running out of it is [None]. *)
From Stdlib Require Import ZArith Lia Bool List String.
From stdpp Require Import base list.
From S2P Require Import Prelude Tokens SyntaxFacts SyntaxTree.
Import ListNotations SyntaxFacts.
Open Scope Z_scope.
Open Scope shard_scope.

Declare Scope parser_scope.
Delimit Scope parser_scope with parser.

(** [Diagnostic] of severity error; [DiagnosticsContext::AnyError] holds once
    there is one. *)
Record Diagnostic := mkDiagnostic {
  diag_Token : SyntaxToken;
  diag_Description : string
}.

Record PState := mkPState {
  tokens : list SyntaxToken;
  Diagnostics : list Diagnostic;
  ExpressionDepth : Z;
  OperatorsInExpression : Z;
  BlockDepth : Z;
  LinkedExpressionDepth : Z
}.

Definition MaxExpressionDepth : Z := 64.
Definition MaxExpressionOperators : Z := 64.
Definition MaxBlockDepth : Z := 64.
Definition MaxLinkedExpressionDepth : Z := 64.

(** ** The monad of the parser: state, undefined behaviour, fuel *)
Definition P (A : Type) : Type := PState -> fueled (A * PState).

Definition pret {A} (a : A) : P A := fun s => done (a, s).
Definition pbind {A B} (m : P A) (k : A -> P B) : P B :=
  fun s => fbind (m s) (fun r => let (a, s') := r in k a s').
Definition pget {A} (f : PState -> A) : P A := fun s => done (f s, s).
Definition pmodify (f : PState -> PState) : P unit := fun s => done (tt, f s).
Definition pfuel {A} : P A := fun _ => None.
(** An execution the standard gives no meaning. *)
Definition pundefined {A} : P A := fun _ => Some UB.

Notation "x <- m ;; k" := (pbind m (fun x => k))
  (at level 100, m at next level, right associativity) : parser_scope.
Notation "m ;;; k" := (pbind m (fun _ => k))
  (at level 100, right associativity) : parser_scope.
Open Scope parser_scope.

(** A loop: the body answers [inl] to go on and [inr] to leave. *)
Fixpoint loop {X R} (n : nat) (body : X -> P (X + R)) (x : X) : P R :=
  match n with
  | O => pfuel
  | S n =>
      r <- body x ;;
      match r with
      | inl x => loop n body x
      | inr r => pret r
      end
  end.

Definition continue_ {X R} (x : X) : P (X + R) := pret (inl x).
Definition break_ {X R} (r : R) : P (X + R) := pret (inr r).

(** ** The token provider *)
Definition set_tokens (f : list SyntaxToken -> list SyntaxToken) (s : PState) : PState :=
  mkPState (f (tokens s)) (Diagnostics s) (ExpressionDepth s) (OperatorsInExpression s)
    (BlockDepth s) (LinkedExpressionDepth s).

Definition Current : P SyntaxToken := pget (fun s => hd eof_token (tokens s)).
(** The token [Consume] returns is never used by the parser. *)
Definition Consume : P unit := pmodify (set_tokens (@tl _)).
Definition Peek (index : nat) : P SyntaxToken :=
  pget (fun s => nth (S index) (tokens s) eof_token).
Definition PutBackToken (t : SyntaxToken) : P unit := pmodify (set_tokens (cons t)).
Definition CanConsume : P bool :=
  pget (fun s => match tokens s with [] => false | _ :: _ => true end).
Definition CanPeek : P bool :=
  pget (fun s => match tokens s with _ :: _ :: _ => true | _ => false end).

(** [reader.Current().Type == type] *)
Definition at_type (type : TokenType) : P bool :=
  t <- Current ;; pret (Type_ t =tt type).
(** [reader.CanConsume() && reader.Current().Type == type] *)
Definition more_at (type : TokenType) : P bool :=
  more <- CanConsume ;;
  if negb more then pret false else at_type type.
(** [reader.CanConsume() && reader.Current().Type != type] *)
Definition more_not (type : TokenType) : P bool :=
  more <- CanConsume ;;
  if negb more then pret false else
  here <- at_type type ;; pret (negb here).

(** [while (reader.CanConsume() && reader.Current().Type != type)
    reader.Consume();] *)
Definition skip_until (n : nat) (type : TokenType) : P unit :=
  loop n (fun _ =>
    more <- more_not type ;;
    if more then Consume ;;; continue_ tt else break_ tt) tt.

(** [if (reader.CanConsume()) reader.Consume();] *)
Definition consume_if_any : P unit :=
  more <- CanConsume ;;
  if more then Consume else pret tt.

(** ** Diagnostics and counters *)
(** [DiagnosticsContext::ReportError] *)
Definition ReportError (t : SyntaxToken) (message : string) : P unit :=
  pmodify (fun s => mkPState (tokens s) (Diagnostics s ++ [mkDiagnostic t message])
    (ExpressionDepth s) (OperatorsInExpression s) (BlockDepth s) (LinkedExpressionDepth s)).

(** [Diagnostics.ReportError(reader.Current(), message)] *)
Definition ReportCurrent (message : string) : P unit :=
  t <- Current ;; ReportError t message.

Definition set_ExpressionDepth (f : Z -> Z) : P unit :=
  pmodify (fun s => mkPState (tokens s) (Diagnostics s) (f (ExpressionDepth s))
    (OperatorsInExpression s) (BlockDepth s) (LinkedExpressionDepth s)).
Definition set_OperatorsInExpression (f : Z -> Z) : P unit :=
  pmodify (fun s => mkPState (tokens s) (Diagnostics s) (ExpressionDepth s)
    (f (OperatorsInExpression s)) (BlockDepth s) (LinkedExpressionDepth s)).
Definition set_BlockDepth (f : Z -> Z) : P unit :=
  pmodify (fun s => mkPState (tokens s) (Diagnostics s) (ExpressionDepth s)
    (OperatorsInExpression s) (f (BlockDepth s)) (LinkedExpressionDepth s)).
Definition set_LinkedExpressionDepth (f : Z -> Z) : P unit :=
  pmodify (fun s => mkPState (tokens s) (Diagnostics s) (ExpressionDepth s)
    (OperatorsInExpression s) (BlockDepth s) (f (LinkedExpressionDepth s))).

(** The guards [DepthGuard], [BlockDepthGuard] and [LinkedDepthGuard]: the
    counter is incremented for the extent of a function. *)
Definition guarded_by {A} (set : (Z -> Z) -> P unit) (body : P A) : P A :=
  set (fun d => d + 1) ;;;
  a <- body ;;
  set (fun d => d - 1) ;;;
  pret a.

(** ** Tokens the parser makes up *)
(** [SyntaxToken(type, L"word", location, isMissing)] *)
Definition made (type : TokenType) (word : string) (loc : TextLocation) (missing : bool) :
    SyntaxToken := mkToken missing type (L word) loc.
(** [SyntaxToken(TokenType::Identifier, L"", TextLocation(), true)] *)
Definition missing_identifier : SyntaxToken :=
  made TokenType.Identifier "" empty_location true.
(** [SyntaxToken(TokenType::CloseBrace, L"", current.Location, true)] *)
Definition missing_brace (at_ : SyntaxToken) : SyntaxToken :=
  made TokenType.CloseBrace "" (Location at_) true.

(** ** Error recovery *)
(** [SynchronizationTokens] and [IsSynchronizationToken] *)
Definition SynchronizationTokens : list TokenType :=
  [TokenType.Semicolon; TokenType.OpenBrace; TokenType.CloseBrace; TokenType.OpenCurl;
   TokenType.CloseCurl; TokenType.NamespaceKeyword; TokenType.ClassKeyword;
   TokenType.StructKeyword; TokenType.EndOfFile].

Definition one_of (types : list TokenType) (type : TokenType) : bool :=
  existsb (fun t => type =tt t) types.

Definition IsSynchronizationToken (type : TokenType) : bool :=
  one_of SynchronizationTokens type.

(** [TrySynchronize(reader, expectedTokens, maxSkips)]: the loop runs
    [maxSkips] times at most. *)
Fixpoint TrySynchronize (expectedTokens : list TokenType) (maxSkips : nat) : P bool :=
  match maxSkips with
  | O => pret false
  | S maxSkips =>
      more <- CanConsume ;;
      if negb more then pret false else
      current <- Current ;;
      if one_of expectedTokens (Type_ current) then pret true
      else if IsSynchronizationToken (Type_ current) then pret false
      else Consume ;;; TrySynchronize expectedTokens maxSkips
  end.

(** [SourceParser::Expect] (no call passes a null message) *)
Definition Expect (kind : TokenType) (message : string) : P SyntaxToken :=
  more <- CanConsume ;;
  if negb more then
    ReportError eof_token message ;;;
    pret (mkToken true kind [] empty_location)
  else
    current <- Current ;;
    if Type_ current =tt kind then Consume ;;; pret current
    else
      ReportError current message ;;;
      found <- TrySynchronize [kind] 5 ;;
      if found then
        current <- Current ;;
        Consume ;;;
        pret current
      else pret (mkToken true kind [] (Location current)).

(** [SourceParser::Matches] *)
Definition Matches (types : list TokenType) : P bool :=
  more <- CanConsume ;;
  if negb more then pret false else
  current <- Current ;;
  pret (one_of types (Type_ current)).

(** [SourceParser::TryMatch] *)
Definition TryMatch (types : list TokenType) (errorMessage : option string) (maxSkips : nat) :
    P bool :=
  more <- CanConsume ;;
  if negb more then pret false else
  here <- Matches types ;;
  if here then pret true else
  match errorMessage with
  | Some message => ReportCurrent message
  | None => pret tt
  end ;;;
  TrySynchronize types maxSkips.

(** [SourceParser::TryMatchIdentifier] *)
Definition TryMatchIdentifier (maxSkips : nat) : P bool :=
  more <- CanConsume ;;
  if negb more then pret false else
  current <- Current ;;
  if Type_ current =tt TokenType.Identifier then pret true
  else if IsReservedIdentifier (Type_ current) then
    ReportError current "Identifier cannot be a reserved keyword." ;;;
    pret false
  else TrySynchronize [TokenType.Identifier] maxSkips.

(** The separator of a list: [if (!TryMatch(reader, {Comma, closer},
    message, 3)) break; separator = reader.Current(); reader.Consume();],
    [None] when the list is abandoned. *)
Definition separator (closer : TokenType) (message : string) : P (option SyntaxToken) :=
  found <- TryMatch [TokenType.Comma; closer] (Some message) 3 ;;
  if negb found then pret None else
  t <- Current ;;
  Consume ;;;
  pret (Some t).
