(* ===== verification/ParserTypes.v ===== *)
(** * The parser: types and parameter lists

    The functions of [SourceParser] that read types, the lists of types,
    of parameters and of type parameters, and where clauses.  A definition
    here is the function of the source of the same name; [n] is the fuel of its
    loops and [g] answers its recursive calls, which [types] ties. *)
From Stdlib Require Import ZArith Lia Bool List String.
From stdpp Require Import base list.
From S2P Require Import Prelude Tokens SyntaxFacts SyntaxTree ParserState.
Import ListNotations SyntaxFacts.
Open Scope Z_scope.
Open Scope shard_scope.
Open Scope parser_scope.

(** The recursive functions on types. *)
Record TypeParsers := mkTypeParsers {
  call_ReadType : bool -> P (option TypeSyntax);
  call_ReadModifiedType : TypeSyntax -> bool -> P TypeSyntax
}.

(** [current.Type] is [>>]: one [>] closes the list, the other goes back. *)
Definition split_shift (shift : SyntaxToken) : P SyntaxToken :=
  Consume ;;;
  let firstGreater := made TokenType.GreaterOperator ">" (Location shift) false in
  let secondGreater := made TokenType.GreaterOperator ">" (Location shift) false in
  PutBackToken secondGreater ;;;
  pret firstGreater.

Section Types.
Variable n : nat.
Variable g : TypeParsers.

(** The loop of [ReadTypeArgumentsList]: the types read so far; the close
    token is left missing when the list is abandoned. *)
Definition ReadTypeArgumentsList_loop : P (SyntaxToken * list (option TypeSyntax)) :=
  loop n (fun types =>
    more <- CanConsume ;;
    if negb more then break_ (default_token, types) else
    type <- call_ReadType g true ;;
    let types := types ++ [type] in
    separatorToken <- Current ;;
    if Type_ separatorToken =tt TokenType.RightShiftOperator then
      firstGreater <- split_shift separatorToken ;;
      break_ (firstGreater, types)
    else
      found <- separator TokenType.GreaterOperator "Expected ',' or '>'" ;;
      match found with
      | None => break_ (default_token, types)
      | Some separatorToken =>
          if Type_ separatorToken =tt TokenType.GreaterOperator then
            break_ (separatorToken, types)
          else continue_ types
      end) [].

Definition ReadTypeArgumentsList : P TypeArgumentsListSyntax :=
  OpenToken <- Expect TokenType.LessOperator "Expected '<' token" ;;
  checkCloser <- Current ;;
  if Type_ checkCloser =tt TokenType.GreaterOperator then
    ReportError checkCloser "Generic list cannot be empty" ;;;
    Consume ;;;
    pret (TypeArgumentsList OpenToken checkCloser [])
  else if Type_ checkCloser =tt TokenType.RightShiftOperator then
    firstGreater <- split_shift checkCloser ;;
    pret (TypeArgumentsList OpenToken firstGreater [])
  else
    r <- ReadTypeArgumentsList_loop ;;
    pret (TypeArgumentsList OpenToken (fst r) (snd r)).

Definition ReadGenericType (previous : TypeSyntax) (allowArraySyntax : bool) : P TypeSyntax :=
  Arguments <- ReadTypeArgumentsList ;;
  call_ReadModifiedType g (GenericTypeSyntax previous Arguments) allowArraySyntax.

Definition ReadArrayType (previous : TypeSyntax) (allowArraySyntax : bool) : P TypeSyntax :=
  OpenSquareToken <- Expect TokenType.OpenSquare "Expected '['" ;;
  CloseSquareToken <- Expect TokenType.CloseSquare "Expected ']'" ;;
  call_ReadModifiedType g (ArrayTypeSyntax previous OpenSquareToken CloseSquareToken 1)
    allowArraySyntax.

Definition ReadModifiedType (type : TypeSyntax) (allowArraySyntax : bool) : P TypeSyntax :=
  more <- CanConsume ;;
  if negb more then pret type else
  current <- Current ;;
  match Type_ current with
  | TokenType.Question =>
      Consume ;;;
      pret (NullableTypeSyntax type current)
  | TokenType.OpenSquare =>
      if allowArraySyntax then ReadArrayType type allowArraySyntax else pret type
  | TokenType.LessOperator => ReadGenericType type allowArraySyntax
  | TokenType.Delimeter =>
      Consume ;;;
      identifier <- Expect TokenType.Identifier "Expected identifier" ;;
      call_ReadModifiedType g (QualifiedNameTypeSyntax type identifier) allowArraySyntax
  | _ => pret type
  end.

Definition ReadDelegateParametersList_loop : P (SyntaxToken * list ParameterSyntax) :=
  loop n (fun params =>
    more <- CanConsume ;;
    if negb more then break_ (default_token, params) else
    type <- call_ReadType g true ;;
    let params := params ++ [Parameter_ type default_token] in
    found <- separator TokenType.CloseCurl "Expected ',' or ')'" ;;
    match found with
    | None => break_ (default_token, params)
    | Some separatorToken =>
        if Type_ separatorToken =tt TokenType.CloseCurl then break_ (separatorToken, params)
        else continue_ params
    end) [].

Definition ReadDelegateParametersList : P ParametersListSyntax :=
  OpenToken <- Expect TokenType.OpenCurl "Expected '(' token" ;;
  checkCloser <- Current ;;
  if Type_ checkCloser =tt TokenType.CloseCurl then
    Consume ;;;
    pret (ParametersList OpenToken checkCloser [])
  else
    r <- ReadDelegateParametersList_loop ;;
    pret (ParametersList OpenToken (fst r) (snd r)).

Definition ReadDelegateType (allowArraySyntax : bool) : P TypeSyntax :=
  DelegateToken <- Expect TokenType.DelegateKeyword "Expected 'delegate' keyword" ;;
  ReturnType <- call_ReadType g allowArraySyntax ;;
  Params <- ReadDelegateParametersList ;;
  call_ReadModifiedType g (DelegateTypeSyntax DelegateToken ReturnType Params) allowArraySyntax.

Definition ReadIdentifierNameType (allowArraySyntax : bool) : P TypeSyntax :=
  Identifier <- Expect TokenType.Identifier "Expected identifier" ;;
  call_ReadModifiedType g (IdentifierNameTypeSyntax Identifier) allowArraySyntax.

Definition ReadType (allowArraySyntax : bool) : P (option TypeSyntax) :=
  current <- Current ;;
  if IsPredefinedType (Type_ current) then
    Consume ;;;
    type <- call_ReadModifiedType g (PredefinedTypeSyntax current) allowArraySyntax ;;
    pret (Some type)
  else if Type_ current =tt TokenType.DelegateKeyword then
    type <- ReadDelegateType allowArraySyntax ;;
    pret (Some type)
  else if Type_ current =tt TokenType.Identifier then
    type <- ReadIdentifierNameType allowArraySyntax ;;
    pret (Some type)
  else
    ReportError current "Unexpected token in type syntax" ;;;
    pret None.
End Types.

(** The functions on types with fuel [n] for their recursion and their
    loops. *)
Fixpoint types (n : nat) : TypeParsers :=
  match n with
  | O => mkTypeParsers (fun _ => pfuel) (fun _ _ => pfuel)
  | S n => let g := types n in mkTypeParsers (ReadType n g) (ReadModifiedType n g)
  end.

(** [ReadType(reader, parent, allowArraySyntax)] as the other functions of
    the parser call it. *)
Definition read_type (n : nat) (allowArraySyntax : bool) : P (option TypeSyntax) :=
  call_ReadType (types n) allowArraySyntax.
Definition read_type_arguments (n : nat) : P TypeArgumentsListSyntax :=
  ReadTypeArgumentsList n (types n).

Section Lists.
Variable n : nat.

(** ** Parameters *)
(** The name of a parameter: [inr] is the token that ends the list. *)
Definition ReadIndexerParameterName : P (SyntaxToken + SyntaxToken) :=
  found <- TryMatchIdentifier 3 ;;
  if negb found then
    closed <- more_at TokenType.CloseSquare ;;
    if closed then
      ReportCurrent "Unexpected ']' - expected parameter name" ;;;
      CloseToken <- Current ;;
      Consume ;;;
      break_ CloseToken
    else continue_ missing_identifier
  else
    identifierToken <- Current ;;
    Consume ;;;
    continue_ identifierToken.

Definition ReadParameterName : P (SyntaxToken + SyntaxToken) :=
  currentToken <- Current ;;
  if Type_ currentToken =tt TokenType.ValueKeyword then
    Consume ;;;
    continue_ (mkToken (IsMissing currentToken) TokenType.Identifier (Word currentToken)
                 (Location currentToken))
  else
    found <- TryMatchIdentifier 3 ;;
    if negb found then
      closed <- more_at TokenType.CloseCurl ;;
      if closed then
        ReportCurrent "Unexpected ')' - expected parameter name" ;;;
        CloseToken <- Current ;;
        Consume ;;;
        break_ CloseToken
      else continue_ missing_identifier
    else
      identifierToken <- Current ;;
      Consume ;;;
      continue_ identifierToken.

(** The loop the two lists share; [name] is one of the above.  A name is
    never a closing token, which [ReadIndexerParametersList] tests again. *)
Definition ReadParameters_loop (name : P (SyntaxToken + SyntaxToken)) (closer : TokenType)
    (message : string) : P (SyntaxToken * list ParameterSyntax) :=
  loop n (fun params =>
    more <- CanConsume ;;
    if negb more then break_ (default_token, params) else
    r <- name ;;
    match r with
    | inr CloseToken => break_ (CloseToken, params)
    | inl identifierToken =>
        Expect TokenType.Colon "Expected ':' after parameter name" ;;;
        type <- read_type n true ;;
        let params := params ++ [Parameter_ type identifierToken] in
        found <- separator closer message ;;
        match found with
        | None => break_ (default_token, params)
        | Some separatorToken =>
            if Type_ separatorToken =tt closer then break_ (separatorToken, params)
            else continue_ params
        end
    end) [].

Definition ReadIndexerParametersList : P ParametersListSyntax :=
  OpenToken <- Expect TokenType.OpenSquare "Expected '[' token" ;;
  checkCloser <- Current ;;
  if Type_ checkCloser =tt TokenType.CloseSquare then
    Consume ;;;
    pret (ParametersList OpenToken checkCloser [])
  else
    r <- ReadParameters_loop ReadIndexerParameterName TokenType.CloseSquare "Expected ',' or ']'" ;;
    pret (ParametersList OpenToken (fst r) (snd r)).

Definition ReadParametersList : P ParametersListSyntax :=
  OpenToken <- Expect TokenType.OpenCurl "Expected '(' token" ;;
  checkCloser <- Current ;;
  if Type_ checkCloser =tt TokenType.CloseCurl then
    Consume ;;;
    pret (ParametersList OpenToken checkCloser [])
  else
    r <- ReadParameters_loop ReadParameterName TokenType.CloseCurl "Expected ',' or ')'" ;;
    pret (ParametersList OpenToken (fst r) (snd r)).

(** ** Type parameters and constraints *)
Definition ReadTypeParametersList_loop : P (SyntaxToken * list SyntaxToken) :=
  loop n (fun types =>
    more <- CanConsume ;;
    if negb more then break_ (default_token, types) else
    param <- Expect TokenType.Identifier "Expected type parameter identifier" ;;
    let types := types ++ [param] in
    found <- separator TokenType.GreaterOperator "Expected ',' or '>'" ;;
    match found with
    | None => break_ (default_token, types)
    | Some separatorToken =>
        if Type_ separatorToken =tt TokenType.GreaterOperator then break_ (separatorToken, types)
        else continue_ types
    end) [].

Definition ReadTypeParametersList : P TypeParametersListSyntax :=
  OpenToken <- Expect TokenType.LessOperator "Expected '<' token" ;;
  checkCloser <- Current ;;
  if Type_ checkCloser =tt TokenType.GreaterOperator then
    ReportError checkCloser "Generic list cannot be empty" ;;;
    Consume ;;;
    pret (SyntaxTree.TypeParametersList OpenToken checkCloser [])
  else
    r <- ReadTypeParametersList_loop ;;
    pret (SyntaxTree.TypeParametersList OpenToken (fst r) (snd r)).

(** A type that is not null joins the list. *)
Definition push_type (types : list TypeSyntax) (type : option TypeSyntax) : list TypeSyntax :=
  match type with Some t => types ++ [t] | None => types end.

Definition ReadWhereClause_loop : P (list TypeSyntax) :=
  loop n (fun constraints =>
    more <- CanConsume ;;
    if negb more then break_ constraints else
    current <- Current ;;
    if negb (Type_ current =tt TokenType.Identifier)
       && negb (IsPredefinedType (Type_ current))
       && negb (Type_ current =tt TokenType.DelegateKeyword)
    then break_ constraints
    else
      constraint <- read_type n true ;;
      let constraints := push_type constraints constraint in
      comma <- at_type TokenType.Comma ;;
      if comma then Consume ;;; continue_ constraints
      else break_ constraints) [].

Definition ReadWhereClause : P WhereClauseSyntax :=
  WhereKeywordToken <- Expect TokenType.WhereKeyword "Expected 'where' keyword" ;;
  TypeParameterToken <- Expect TokenType.Identifier "Expected type parameter identifier" ;;
  ColonToken <- Expect TokenType.Colon "Expected ':' after type parameter" ;;
  ConstraintTypes <- ReadWhereClause_loop ;;
  match ConstraintTypes with
  | [] =>
      more <- CanConsume ;;
      if more then ReportCurrent "Expected at least one constraint type after ':'"
      else ReportError eof_token "Expected at least one constraint type after ':'"
  | _ :: _ => pret tt
  end ;;;
  pret (mkWhereClause WhereKeywordToken TypeParameterToken ColonToken ConstraintTypes).

(** The loop of where clauses every generic declaration has. *)
Definition ReadWhereClauses : P (list WhereClauseSyntax) :=
  loop n (fun clauses =>
    more <- more_at TokenType.WhereKeyword ;;
    if negb more then break_ clauses else
    clause <- ReadWhereClause ;;
    continue_ (clauses ++ [clause])) [].

Definition ReadBaseInterfacesList : P (list TypeSyntax) :=
  loop n (fun interfaces =>
    more <- CanConsume ;;
    if negb more then break_ interfaces else
    current <- Current ;;
    if negb (Type_ current =tt TokenType.Identifier) then
      ReportError current "Expected interface name" ;;;
      break_ interfaces
    else
      type <- read_type n true ;;
      let interfaces := push_type interfaces type in
      comma <- at_type TokenType.Comma ;;
      if comma then Consume ;;; continue_ interfaces
      else break_ interfaces) [].
End Lists.
