(* ===== verification/ParserExpr.v ===== *)
(** * The parser: expressions

    The functions of [SourceParser] that read expressions: the operator
    precedence loop [ReadExpression], prefix and infix denotations, member
    chains, argument lists, lambdas, and the expression forms of [if] and
    [switch].  Expressions and statements are mutually recursive through the
    body of a lambda: the recursive calls go through the record [Parsers],
    which the file ParserStmt ties. *)
From Stdlib Require Import ZArith Lia Bool List String.
From stdpp Require Import base list.
From S2P Require Import Prelude Tokens SyntaxFacts SyntaxTree ParserState ParserTypes.
Import ListNotations SyntaxFacts.
Open Scope Z_scope.
Open Scope shard_scope.
Open Scope parser_scope.

(** The recursive functions on expressions and statements. *)
Record Parsers := mkParsers {
  call_ReadExpression : Z -> bool -> P (option ExpressionSyntax);
  call_ReadNullDenotation : P (option ExpressionSyntax);
  call_ReadLinkedExpressionNode : option ExpressionSyntax -> bool -> P (option ExpressionSyntax);
  call_ReadIndexatorExpressionNode : option ExpressionSyntax -> P ExpressionSyntax;
  call_ReadStatementsBlock : P StatementsBlockSyntax;
  call_ReadConditionalClause : P (option StatementSyntax)
}.

(** The literal that stands for an expression that could not be read:
    [LiteralExpressionSyntax(SyntaxToken(type, L"null", location, true))]. *)
Definition fallback (type : TokenType) (at_ : SyntaxToken) : option ExpressionSyntax :=
  Some (LiteralExpressionSyntax (made type "null" (Location at_) true)).

Section Expressions.
Variable n : nat.
Variable g : Parsers.

(** ** Lists of expressions *)
Definition ReadArguments_loop (closer : TokenType) (message : string) :
    P (SyntaxToken * list ArgumentSyntax) :=
  loop n (fun arguments =>
    more <- CanConsume ;;
    if negb more then break_ (default_token, arguments) else
    expr <- call_ReadExpression g 0 true ;;
    let arguments := arguments ++ [Argument expr] in
    found <- separator closer message ;;
    match found with
    | None => break_ (default_token, arguments)
    | Some separatorToken =>
        if Type_ separatorToken =tt closer then break_ (separatorToken, arguments)
        else continue_ arguments
    end) [].

Definition ReadArgumentsList : P ArgumentsListSyntax :=
  OpenCurlToken <- Expect TokenType.OpenCurl "Expected '(' token" ;;
  checkCloser <- Current ;;
  if Type_ checkCloser =tt TokenType.CloseCurl then
    Consume ;;;
    pret (ArgumentsList OpenCurlToken checkCloser [])
  else
    r <- ReadArguments_loop TokenType.CloseCurl "Expected ',' or ')'" ;;
    pret (ArgumentsList OpenCurlToken (fst r) (snd r)).

Definition ReadIndexatorList : P ArgumentsListSyntax :=
  OpenSquareToken <- Expect TokenType.OpenSquare "Exprected '[' token" ;;
  checkCloser <- Current ;;
  if Type_ checkCloser =tt TokenType.CloseSquare then
    Consume ;;;
    pret (ArgumentsList OpenSquareToken checkCloser [])
  else
    r <- ReadArguments_loop TokenType.CloseSquare "Expected ',' or ']'" ;;
    pret (ArgumentsList OpenSquareToken (fst r) (snd r)).

Definition ReadCollectionExpression_loop :
    P (SyntaxToken * list (option ExpressionSyntax)) :=
  loop n (fun values =>
    more <- CanConsume ;;
    if negb more then break_ (default_token, values) else
    expr <- call_ReadExpression g 0 true ;;
    let values := values ++ [expr] in
    found <- separator TokenType.CloseSquare "Expected ',' or ']'" ;;
    match found with
    | None => break_ (default_token, values)
    | Some separatorToken =>
        if Type_ separatorToken =tt TokenType.CloseSquare then break_ (separatorToken, values)
        else continue_ values
    end) [].

(** One element is looked at to see whether it is a range; the pointer to it
    may be null. *)
Definition ReadCollectionExpression : P (option ExpressionSyntax) :=
  OpenSquareToken <- Expect TokenType.OpenSquare "Expected '[' token" ;;
  checkCloser <- Current ;;
  if Type_ checkCloser =tt TokenType.CloseSquare then
    Consume ;;;
    pret (Some (CollectionExpressionSyntax OpenSquareToken checkCloser []))
  else
    r <- ReadCollectionExpression_loop ;;
    let (CloseSquareToken, values) := r in
    let collection := CollectionExpressionSyntax OpenSquareToken CloseSquareToken values in
    match values with
    | [None] => pundefined
    | [Some (RangeExpressionSyntax _ _ _ _ as rangeExpr)] => pret (Some rangeExpr)
    | _ => pret (Some collection)
    end.

(** ** Member chains *)
Definition ReadIndexatorExpressionNode (lastNode : option ExpressionSyntax) :
    P ExpressionSyntax :=
  let indexerKeyword := made TokenType.IndexerKeyword "indexer" empty_location false in
  IndexatorList <- ReadIndexatorList ;;
  let currentNode :=
    IndexatorExpressionSyntax default_token indexerKeyword lastNode IndexatorList in
  more <- CanConsume ;;
  if negb more then pret currentNode else
  current <- Current ;;
  if Type_ current =tt TokenType.OpenSquare then
    call_ReadIndexatorExpressionNode g (Some currentNode)
  else pret currentNode.

(** [IsGenericInvocation]: the scan over [Peek(index)], whose state is the
    index and the depth; [>>] closes two levels at once. *)
Definition IsGenericInvocation : P bool :=
  loop n (fun st : nat * Z =>
    let (index, depth) := st in
    token <- Peek index ;;
    match Type_ token with
    | TokenType.EndOfFile | TokenType.Unknown => break_ false
    | TokenType.LessOperator => continue_ (S index, depth + 1)
    | TokenType.GreaterOperator =>
        if depth - 1 =? 0 then
          next <- Peek (S index) ;;
          break_ (Type_ next =tt TokenType.OpenCurl)
        else continue_ (S index, depth - 1)
    | TokenType.RightShiftOperator =>
        if depth - 2 =? 0 then
          next <- Peek (S index) ;;
          break_ (Type_ next =tt TokenType.OpenCurl)
        else continue_ (S index, depth - 2)
    | _ => continue_ (S index, depth)
    end) (0%nat, 1).

(** The scan of [ReadLinkedExpressionNode] for a generic type used as a
    static receiver, [Name<...>.]: here [>>] closes nothing. *)
Definition IsGenericTypeReceiver : P bool :=
  loop n (fun st : nat * Z =>
    let (index, depth) := st in
    token <- Peek index ;;
    match Type_ token with
    | TokenType.EndOfFile | TokenType.Unknown => break_ false
    | TokenType.LessOperator => continue_ (S index, depth + 1)
    | TokenType.GreaterOperator =>
        if depth - 1 =? 0 then
          next <- Peek (S index) ;;
          break_ (Type_ next =tt TokenType.Delimeter)
        else continue_ (S index, depth - 1)
    | _ => continue_ (S index, depth)
    end) (0%nat, 1).

(** The tokens a chain may begin with. *)
Definition linked_start : list TokenType :=
  [TokenType.FieldKeyword; TokenType.Identifier; TokenType.ValueKeyword;
   TokenType.StringKeyword; TokenType.CharKeyword; TokenType.NativeIntegerKeyword;
   TokenType.IntegerKeyword; TokenType.BooleanKeyword; TokenType.ByteKeyword;
   TokenType.DoubleKeyword].

(** The delimiter and the name that begin a node. *)
Definition linked_name (isFirst : bool) : P (SyntaxToken * SyntaxToken) :=
  if isFirst then
    identifier <- Current ;;
    start <- Matches linked_start ;;
    (if start then pret tt
     else ReportError identifier "Expected identifier, primitive name or 'field' keyword") ;;;
    Consume ;;;
    pret (made TokenType.Delimeter "" empty_location false, identifier)
  else
    delimeter <- Expect TokenType.Delimeter "Expected '.' token" ;;
    identifier <- Expect TokenType.Identifier "Expected identifier" ;;
    pret (delimeter, identifier).

(** What follows the node: an index after a call, then the rest of the
    chain. *)
Definition linked_rest (currentNode : option ExpressionSyntax) : P (option ExpressionSyntax) :=
  more <- CanConsume ;;
  if negb more then pret currentNode else
  current <- Current ;;
  currentNode <-
    (if Type_ current =tt TokenType.OpenSquare then
       node <- call_ReadIndexatorExpressionNode g currentNode ;;
       pret (Some node)
     else pret currentNode) ;;
  current <- Current ;;
  if Type_ current =tt TokenType.Delimeter then call_ReadLinkedExpressionNode g currentNode false
  else pret currentNode.

(** The case of a name followed by [<]. *)
Definition linked_generic (delimeter identifier : SyntaxToken)
    (previous : option ExpressionSyntax) : P (option ExpressionSyntax) :=
  genericInvocation <- IsGenericInvocation ;;
  genericTypeReceiver <- (if genericInvocation then pret false else IsGenericTypeReceiver) ;;
  if negb genericInvocation && negb genericTypeReceiver then
    pret (Some (MemberAccessExpressionSyntax delimeter identifier previous))
  else if genericTypeReceiver then
    Arguments <- read_type_arguments n ;;
    let genericType := GenericTypeSyntax (IdentifierNameTypeSyntax identifier) Arguments in
    call_ReadLinkedExpressionNode g (Some (TypeExpressionSyntax genericType)) false
  else
    TypeArguments <- read_type_arguments n ;;
    call <- at_type TokenType.OpenCurl ;;
    ArgumentsList <-
      (if call then args <- ReadArgumentsList ;; pret (Some args) else pret None) ;;
    linked_rest
      (Some (InvokationExpressionSyntax delimeter identifier previous (Some TypeArguments)
               ArgumentsList)).

(** The node after its name, by the token that follows; a token that is
    neither an operator nor punctuation leaves no node. *)
Definition linked_node (delimeter identifier : SyntaxToken) (previous : option ExpressionSyntax) :
    P (option ExpressionSyntax) :=
  let access := MemberAccessExpressionSyntax delimeter identifier previous in
  current <- Current ;;
  match Type_ current with
  | TokenType.OpenCurl =>
      ArgumentsList <- ReadArgumentsList ;;
      linked_rest
        (Some (InvokationExpressionSyntax delimeter identifier previous None
                 (Some ArgumentsList)))
  | TokenType.LessOperator => linked_generic delimeter identifier previous
  | TokenType.Delimeter => call_ReadLinkedExpressionNode g (Some access) false
  | TokenType.OpenSquare =>
      node <- call_ReadIndexatorExpressionNode g (Some access) ;;
      linked_rest (Some node)
  | _ =>
      if IsOperator (Type_ current) || IsPunctuation (Type_ current) then pret (Some access)
      else linked_rest None
  end.

Definition ReadLinkedExpressionNode (previous : option ExpressionSyntax) (isFirst : bool) :
    P (option ExpressionSyntax) :=
  guarded_by set_LinkedExpressionDepth (
    depth <- pget LinkedExpressionDepth ;;
    if MaxLinkedExpressionDepth <? depth then
      ReportCurrent "Member access chain is too long" ;;;
      pret (match previous with
            | Some node => if is_linked node then Some node else None
            | None => None
            end)
    else
      more <- CanConsume ;;
      if negb more then pret None else
      name <- linked_name isFirst ;;
      let (delimeter, identifier) := name in
      more <- CanConsume ;;
      if negb more then
        (* the delimiter is not kept *)
        pret (Some (MemberAccessExpressionSyntax default_token identifier previous))
      else linked_node delimeter identifier previous).

(** ** Creation, lambdas, [if] and [switch] *)
Definition ReadObjectExpression : P ExpressionSyntax :=
  NewToken <- Expect TokenType.NewKeyword "Expected 'new' keyword" ;;
  ObjectType <- read_type n false ;;
  array <- more_at TokenType.OpenSquare ;;
  if array then
    Expect TokenType.OpenSquare "Expected '['" ;;;
    ArraySize <- call_ReadExpression g 0 true ;;
    Expect TokenType.CloseSquare "Expected ']'" ;;;
    pret (ObjectExpressionSyntax NewToken ObjectType true ArraySize None)
  else
    args <- ReadArgumentsList ;;
    pret (ObjectExpressionSyntax NewToken ObjectType false None (Some args)).

(** No function calls [ReadTernaryExpression]. *)
Definition ReadTernaryExpression (condition : option ExpressionSyntax) : P ExpressionSyntax :=
  QuestionToken <- Expect TokenType.Question "Expected '?' token" ;;
  Left <- call_ReadExpression g 0 true ;;
  ColonToken <- Expect TokenType.Colon "Expected ':' token" ;;
  Right <- call_ReadExpression g 0 true ;;
  pret (TernaryExpressionSyntax QuestionToken ColonToken condition Left Right).

(** [ReadExpressionBodyOrBlock(reader, parent, bodyKind)]: an expression
    body [=> e] becomes the block [{ return e; }]. *)
Definition ReadExpressionBodyOrBlock (bodyKind : string) : P StatementsBlockSyntax :=
  more <- CanConsume ;;
  if negb more then
    ReportError eof_token ("Unexpected end of file - expected " ++ bodyKind ++ " body") ;;;
    pret new_block
  else
    current <- Current ;;
    if Type_ current =tt TokenType.LambdaOperator then
      Consume ;;;
      let KeywordToken := made TokenType.ReturnKeyword "return" (Location current) false in
      Expression <- call_ReadExpression g 0 true ;;
      more <- CanConsume ;;
      here <- Current ;;
      let loc := if more then Location here else Location current in
      let SemicolonToken := made TokenType.Semicolon ";" loc false in
      pret (StatementsBlock default_token default_token default_token
              [ReturnStatementSyntax SemicolonToken KeywordToken Expression] current true)
    else if negb (Type_ current =tt TokenType.OpenBrace)
            && negb (Type_ current =tt TokenType.Semicolon) then
      ReportError current ("Expected '{' or ';' to begin " ++ bodyKind ++ " body") ;;;
      pret new_block
    else call_ReadStatementsBlock g.

Definition ReadMethodBody : P StatementsBlockSyntax := ReadExpressionBodyOrBlock "method".
Definition ReadLambdaBody : P StatementsBlockSyntax := ReadExpressionBodyOrBlock "lambda".

Definition ReadLambdaExpression (asyncModifier : SyntaxToken) : P ExpressionSyntax :=
  LambdaToken <- Expect TokenType.LambdaKeyword "Expected 'lambda' keyword" ;;
  Parameters <- ReadParametersList n ;;
  arrow <- Current ;;
  let hasReturnType := Type_ arrow =tt TokenType.ArrowOperator in
  ReturnType <- (if hasReturnType then Consume ;;; read_type n true else pret None) ;;
  bodyStart <- Current ;;
  LambdaOperatorToken <-
    (if Type_ bodyStart =tt TokenType.LambdaOperator then pret bodyStart
     else if hasReturnType && (Type_ bodyStart =tt TokenType.OpenBrace) then pret default_token
     else Expect TokenType.LambdaOperator "Expected '=>' or '->' operator") ;;
  Body <- ReadLambdaBody ;;
  pret (LambdaExpressionSyntax LambdaToken LambdaOperatorToken
          (if hasReturnType then arrow else default_token) asyncModifier Parameters ReturnType
          Body).

Definition ReadIfExpression : P ExpressionSyntax :=
  IfKeywordToken <- Expect TokenType.IfKeyword "Expected 'if' keyword" ;;
  Condition <- call_ReadExpression g 0 true ;;
  ThenExpression <- call_ReadExpression g 0 true ;;
  ElseKeywordToken <- Current ;;
  if Type_ ElseKeywordToken =tt TokenType.ElseKeyword then
    Consume ;;;
    ElseExpression <- call_ReadExpression g 0 true ;;
    pret (IfExpressionSyntax IfKeywordToken ElseKeywordToken Condition ThenExpression
            ElseExpression)
  else
    pret (IfExpressionSyntax IfKeywordToken default_token Condition ThenExpression None).

(** [is Type name], after [case] and at the head of a switch arm. *)
Definition ReadIsPattern : P ExpressionSyntax :=
  isToken <- Current ;;
  Consume ;;;
  TargetType <- read_type n true ;;
  identifier <- Current ;;
  if Type_ identifier =tt TokenType.Identifier then
    Consume ;;;
    pret (IsPatternSyntax isToken TargetType identifier)
  else pret (IsPatternSyntax isToken TargetType default_token).

Definition ReadSwitchArmPattern : P (option ExpressionSyntax) :=
  current <- Current ;;
  if (Type_ current =tt TokenType.Identifier) && (Word current =w L "_") then
    Consume ;;;
    pret (Some (LiteralExpressionSyntax
                  (made TokenType.Identifier "_" (Location current) false)))
  else if Type_ current =tt TokenType.IsOperator then
    pattern <- ReadIsPattern ;;
    pret (Some pattern)
  else call_ReadExpression g 0 true.

Definition ReadSwitchExpression : P ExpressionSyntax :=
  SwitchKeywordToken <- Expect TokenType.SwitchKeyword "Expected 'switch' keyword" ;;
  Expression <- call_ReadExpression g 0 true ;;
  OpenBraceToken <- Expect TokenType.OpenBrace "Expected '{'" ;;
  Arms <- loop n (fun arms =>
    more <- more_not TokenType.CloseBrace ;;
    if negb more then break_ arms else
    Pattern <- ReadSwitchArmPattern ;;
    ArrowToken <- Expect TokenType.LambdaOperator "Expected '=>'" ;;
    Expression <- call_ReadExpression g 0 true ;;
    comma <- at_type TokenType.Comma ;;
    (if comma then Consume else pret tt) ;;;
    continue_ (arms ++ [SwitchArm ArrowToken Pattern Expression])) [] ;;
  CloseBraceToken <- Expect TokenType.CloseBrace "Expected '}'" ;;
  pret (SwitchExpressionSyntax SwitchKeywordToken OpenBraceToken CloseBraceToken Expression Arms).

(** ** Denotations *)
(** A prefix operator takes what [ReadNullDenotation] reads next. *)
Definition ReadPrefix (build : SyntaxToken -> option ExpressionSyntax -> ExpressionSyntax) :
    P (option ExpressionSyntax) :=
  current <- Current ;;
  Consume ;;;
  operand <- call_ReadNullDenotation g ;;
  pret (Some (build current operand)).

Definition ReadNullDenotation : P (option ExpressionSyntax) :=
  current <- Current ;;
  match Type_ current with
  | TokenType.SubOperator | TokenType.AddOperator | TokenType.NotOperator
  | TokenType.IncrementOperator | TokenType.DecrementOperator | TokenType.ThrowKeyword =>
      ReadPrefix (fun t e => UnaryExpressionSyntax t false e)
  | TokenType.NullLiteral | TokenType.BooleanLiteral | TokenType.NumberLiteral
  | TokenType.DoubleLiteral | TokenType.StringLiteral | TokenType.CharLiteral =>
      Consume ;;;
      pret (Some (LiteralExpressionSyntax current))
  | TokenType.OpenCurl =>
      Consume ;;;
      expression <- call_ReadExpression g 0 false ;;
      Expect TokenType.CloseCurl "Expected ')' token" ;;;
      chain <- at_type TokenType.Delimeter ;;
      if chain then call_ReadLinkedExpressionNode g expression false else pret expression
  | TokenType.OpenSquare => ReadCollectionExpression
  | TokenType.StringKeyword | TokenType.CharKeyword | TokenType.NativeIntegerKeyword
  | TokenType.IntegerKeyword | TokenType.BooleanKeyword | TokenType.ByteKeyword
  | TokenType.DoubleKeyword | TokenType.Identifier | TokenType.FieldKeyword
  | TokenType.ValueKeyword => call_ReadLinkedExpressionNode g None true
  | TokenType.AsyncKeyword =>
      next <- Peek 0 ;;
      if Type_ next =tt TokenType.LambdaKeyword then
        Consume ;;;
        e <- ReadLambdaExpression current ;;
        pret (Some e)
      else
        ReportError current "Unexpected 'async' keyword" ;;;
        Consume ;;;
        pret (fallback TokenType.NullLiteral current)
  | TokenType.LambdaKeyword => e <- ReadLambdaExpression default_token ;; pret (Some e)
  | TokenType.NewKeyword => e <- ReadObjectExpression ;; pret (Some e)
  | TokenType.AwaitKeyword => ReadPrefix AwaitExpressionSyntax
  | TokenType.IfKeyword => e <- ReadIfExpression ;; pret (Some e)
  | TokenType.SwitchKeyword => e <- ReadSwitchExpression ;; pret (Some e)
  | TokenType.EndOfFile =>
      ReportError current "Unexpected file end in expression" ;;;
      pret (fallback TokenType.NullLiteral current)
  | _ =>
      ReportError current "Unknown expression token" ;;;
      Consume ;;;
      pret (fallback TokenType.Unknown current)
  end.

(** The operand to the right of an infix operator binds tighter than the
    operator: every infix operator associates to the left. *)
Definition ReadInfix (leftExpr : option ExpressionSyntax) (current : SyntaxToken)
    (build : option ExpressionSyntax -> ExpressionSyntax) : P (option ExpressionSyntax) :=
  let precendce := GetOperatorPrecendence (Type_ current) in
  if precendce =? 0 then pret leftExpr
  else
    Consume ;;;
    Right <- call_ReadExpression g precendce false ;;
    pret (Some (build Right)).

Definition ReadLeftDenotation (leftExpr : option ExpressionSyntax) :
    P (option ExpressionSyntax) :=
  more <- CanConsume ;;
  if negb more then pret leftExpr else
  current <- Current ;;
  match Type_ current with
  | TokenType.OpenCurl =>
      args <- ReadArgumentsList ;;
      pret (Some (InvokationExpressionSyntax default_token
                    (made TokenType.Unknown "" empty_location true) leftExpr None (Some args)))
  | TokenType.Delimeter => call_ReadLinkedExpressionNode g leftExpr false
  | TokenType.NullCoalescingOperator =>
      ReadInfix leftExpr current (BinaryExpressionSyntax current leftExpr)
  | TokenType.RangeOperator =>
      ReadInfix leftExpr current (RangeExpressionSyntax current false leftExpr)
  | TokenType.RangeInclusiveOperator =>
      ReadInfix leftExpr current (RangeExpressionSyntax current true leftExpr)
  | TokenType.AsOperator =>
      if GetOperatorPrecendence (Type_ current) =? 0 then pret leftExpr else
      Consume ;;;
      TargetType <- read_type n true ;;
      pret (Some (CastExpressionSyntax current leftExpr TargetType))
  | TokenType.IsOperator =>
      if GetOperatorPrecendence (Type_ current) =? 0 then pret leftExpr else
      Consume ;;;
      TargetType <- read_type n true ;;
      pret (Some (IsExpressionSyntax current leftExpr TargetType))
  | type =>
      if IsRightUnaryOperator type then
        if GetOperatorPrecendence type =? 0 then pret leftExpr
        else
          Consume ;;;
          pret (Some (UnaryExpressionSyntax current true leftExpr))
      else if IsBinaryOperator type || (type =tt TokenType.AssignOperator) then
        ReadInfix leftExpr current (BinaryExpressionSyntax current leftExpr)
      else
        ReportError current "Unknown token in expression's left denotation" ;;;
        Consume ;;;
        pret leftExpr
  end.

(** ** The precedence loop *)
(** The tokens at which the rest of an expression with too many operators
    ends. *)
Definition ends_expression (type : TokenType) : bool :=
  one_of [TokenType.Semicolon; TokenType.CloseBrace; TokenType.CloseCurl;
          TokenType.CloseSquare; TokenType.Comma] type.

Definition skip_expression : P unit :=
  loop n (fun _ =>
    more <- CanConsume ;;
    if negb more then break_ tt else
    t <- Current ;;
    if ends_expression (Type_ t) then break_ tt
    else Consume ;;; continue_ tt) tt.

(** The state of the loop is [leftExpr] and [precendence]. *)
Definition ReadExpression_loop (bindingPower : Z) (leftExpr : option ExpressionSyntax)
    (precendence : Z) : P (option ExpressionSyntax) :=
  loop n (fun st : option ExpressionSyntax * Z =>
    let (leftExpr, precendence) := st in
    more <- CanConsume ;;
    if negb (more && negb (precendence =? 0) && (bindingPower <? precendence)) then
      break_ leftExpr
    else
      set_OperatorsInExpression (fun k => k + 1) ;;;
      operators <- pget OperatorsInExpression ;;
      if MaxExpressionOperators <? operators then
        ReportCurrent "Expression contains too many operators; reduce the number of operators or split it into multiple statements" ;;;
        skip_expression ;;;
        break_ leftExpr
      else
        leftExpr <- ReadLeftDenotation leftExpr ;;
        more <- CanConsume ;;
        if negb more then break_ leftExpr else
        current <- Current ;;
        continue_ (leftExpr, GetOperatorPrecendence (Type_ current)))
    (leftExpr, precendence).

Definition ReadExpression (bindingPower : Z) (resetOperatorCount : bool) :
    P (option ExpressionSyntax) :=
  (if resetOperatorCount then set_OperatorsInExpression (fun _ => 0) else pret tt) ;;;
  guarded_by set_ExpressionDepth (
    depth <- pget ExpressionDepth ;;
    if MaxExpressionDepth <? depth then
      ReportCurrent "Expression is too deeply nested" ;;;
      fallbackLocation <- Current ;;
      Consume ;;;
      pret (fallback TokenType.NullLiteral fallbackLocation)
    else
      leftExpr <- call_ReadNullDenotation g ;;
      more <- CanConsume ;;
      if negb more then pret leftExpr else
      current <- Current ;;
      ReadExpression_loop bindingPower leftExpr (GetOperatorPrecendence (Type_ current))).
End Expressions.
