(* ===== verification/ParserStmt.v ===== *)
(** * The parser: statements

    The functions of [SourceParser] that read blocks and statements, and the
    fixpoint [parsers] that ties the recursion of expressions and statements
    with one unit of fuel per call. *)
From Stdlib Require Import ZArith Lia Bool List String.
From stdpp Require Import base list.
From S2P Require Import Prelude Tokens SyntaxFacts SyntaxTree ParserState ParserTypes ParserExpr.
Import ListNotations SyntaxFacts.
Open Scope Z_scope.
Open Scope shard_scope.
Open Scope parser_scope.

(** The bound on the iterations of the loops over members and statements. *)
Definition loopGuard_max : Z := 10000.

Section Statements.
Variable n : nat.
Variable g : Parsers.

(** ** Plain statements *)
(** [name: type = value], after [name :] was seen. *)
Definition ReadTypedVariable (name : SyntaxToken) : P (option StatementSyntax) :=
  Consume ;;;
  Consume ;;;
  type <- read_type n true ;;
  match type with
  | None =>
      ReportCurrent "Expected type after ':'" ;;;
      pret None
  | Some type =>
      assign <- Current ;;
      if Type_ assign =tt TokenType.AssignOperator then
        Consume ;;;
        expr <- call_ReadExpression g 0 true ;;
        pret (Some (VariableStatementSyntax default_token type name assign expr))
      else
        ReportCurrent "Variable declaration is missing an initializer" ;;;
        pret (Some (VariableStatementSyntax default_token type name default_token None))
  end.

(** [name := value] *)
Definition ReadInferredVariable (name : SyntaxToken) : P (option StatementSyntax) :=
  Consume ;;;
  walrus <- Current ;;
  Consume ;;;
  expr <- call_ReadExpression g 0 true ;;
  let var := made TokenType.VarKeyword "var" (Location name) false in
  pret (Some (VariableStatementSyntax default_token (PredefinedTypeSyntax var) name walrus expr)).

(** [type name = value], which is reported and read all the same. *)
Definition ReadWrongVariable (current : SyntaxToken) : P (option StatementSyntax) :=
  (if Type_ current =tt TokenType.VarKeyword then
     ReportError current "Invalid use of 'var'. For type inference use 'name := value'; for an explicit type use 'name: type = value'."
   else
     ReportError current "Invalid variable declaration syntax. Use 'name: type = value' or 'name := value'.") ;;;
  Consume ;;;
  name <- Current ;;
  Consume ;;;
  assign <- at_type TokenType.AssignOperator ;;
  expr <-
    (if assign then Consume ;;; call_ReadExpression g 0 true
     else skip_until n TokenType.Semicolon ;;; pret None) ;;
  pret (Some (VariableStatementSyntax default_token (PredefinedTypeSyntax current) name
                default_token expr)).

Definition ReadExpressionStatement : P (option StatementSyntax) :=
  expression <- call_ReadExpression g 0 true ;;
  pret (Some (ExpressionStatementSyntax default_token expression)).

Definition ReadStatement : P (option StatementSyntax) :=
  current <- Current ;;
  if Type_ current =tt TokenType.Semicolon then
    pret (Some (ExpressionStatementSyntax default_token None))
  else
    two <- CanPeek ;;
    if negb two then ReadExpressionStatement else
    peek <- Peek 0 ;;
    if (Type_ current =tt TokenType.Identifier) && (Type_ peek =tt TokenType.Colon) then
      ReadTypedVariable current
    else if (Type_ current =tt TokenType.Identifier)
            && (Type_ peek =tt TokenType.DeclareAssignOperator) then
      ReadInferredVariable current
    else if IsPredefinedType (Type_ current) && (Type_ peek =tt TokenType.Identifier) then
      ReadWrongVariable current
    else ReadExpressionStatement.

(** ** Keyword statements *)
Definition expect_semicolon : P SyntaxToken := Expect TokenType.Semicolon "Missing ';' token".

(** The operand of [return] and [throw]. *)
Definition ReadOperand : P (option ExpressionSyntax) :=
  ends <- at_type TokenType.Semicolon ;;
  if ends then pret None else call_ReadExpression g 0 true.

Definition ReadReturnStatement : P StatementSyntax :=
  KeywordToken <- Expect TokenType.ReturnKeyword "Expected 'return' keyword" ;;
  Expression <- ReadOperand ;;
  SemicolonToken <- expect_semicolon ;;
  pret (ReturnStatementSyntax SemicolonToken KeywordToken Expression).

Definition ReadThrowStatement : P StatementSyntax :=
  KeywordToken <- Expect TokenType.ThrowKeyword "Expected 'throw' keyword" ;;
  Expression <- ReadOperand ;;
  SemicolonToken <- expect_semicolon ;;
  pret (ThrowStatementSyntax SemicolonToken KeywordToken Expression).

Definition ReadBreakStatement : P StatementSyntax :=
  KeywordToken <- Expect TokenType.BreakKeyword "Expected return keyword" ;;
  SemicolonToken <- expect_semicolon ;;
  pret (BreakStatementSyntax SemicolonToken KeywordToken).

Definition ReadContinueStatement : P StatementSyntax :=
  KeywordToken <- Expect TokenType.ContinueKeyword "Expected return keyword" ;;
  SemicolonToken <- expect_semicolon ;;
  pret (ContinueStatementSyntax SemicolonToken KeywordToken).

Definition ReadDeferStatement : P StatementSyntax :=
  DeferToken <- Expect TokenType.DeferKeyword "Expected 'defer' keyword" ;;
  current <- Current ;;
  if Type_ current =tt TokenType.Semicolon then
    ReportError current "defer statement cannot be empty" ;;;
    pret (DeferStatementSyntax default_token DeferToken None)
  else
    Statement <- ReadStatement ;;
    SemicolonToken <- expect_semicolon ;;
    pret (DeferStatementSyntax SemicolonToken DeferToken Statement).

(** [( condition ) block], with the report on an empty body and the clause
    that follows [else]; [build] is the node of [if] or [unless]. *)
Definition ReadCondition
    (build : SyntaxToken -> SyntaxToken -> option StatementSyntax -> StatementsBlockSyntax ->
             option StatementSyntax -> StatementSyntax) : P (option StatementSyntax) :=
  Consume ;;;
  OpenCurlToken <- Expect TokenType.OpenCurl "Expected '(' token" ;;
  ConditionExpression <- ReadStatement ;;
  CloseCurlToken <- Expect TokenType.CloseCurl "Expected ')' token" ;;
  StatementsBlock <- call_ReadStatementsBlock g ;;
  (if Type_ (block_SemicolonToken StatementsBlock) =tt TokenType.Semicolon then
     ReportError (block_SemicolonToken StatementsBlock)
       "If/unless statement cannot have an empty body; use an empty block {{}} if you meant no-op"
   else pret tt) ;;;
  next <- at_type TokenType.ElseKeyword ;;
  NextStatement <- (if next then call_ReadConditionalClause g else pret None) ;;
  pret (Some (build OpenCurlToken CloseCurlToken ConditionExpression StatementsBlock
                NextStatement)).

(** One pass of the loop of [ReadConditionalClause] returns, unless the
    token is none of its three: then it reports and starts over with the same
    token. *)
Definition ReadConditionalClause : P (option StatementSyntax) :=
  loop n (fun _ =>
    more <- CanConsume ;;
    if negb more then break_ None else
    current <- Current ;;
    match Type_ current with
    | TokenType.IfKeyword =>
        s <- ReadCondition (IfStatementSyntax current) ;; break_ s
    | TokenType.UnlessKeyword =>
        s <- ReadCondition (UnlessStatementSyntax current) ;; break_ s
    | TokenType.ElseKeyword =>
        Consume ;;;
        next <- Current ;;
        match Type_ next with
        | TokenType.IfKeyword | TokenType.UnlessKeyword =>
            s <- call_ReadConditionalClause g ;; break_ s
        | _ =>
            StatementsBlock <- call_ReadStatementsBlock g ;;
            break_ (Some (ElseStatementSyntax current StatementsBlock))
        end
    | _ =>
        ReportError current "Unknown token in deside statement" ;;;
        continue_ tt
    end) tt.

(** The token [SyntaxToken(TokenType::Semicolon, L"", TextLocation(),
    false)] of a loop. *)
Definition loop_semicolon : SyntaxToken := made TokenType.Semicolon "" empty_location false.

Definition ReadWhileStatement : P StatementSyntax :=
  KeywordToken <- Expect TokenType.WhileKeyword "Expected 'while' keyword" ;;
  OpenCurlToken <- Expect TokenType.OpenCurl "expected '(' token" ;;
  ConditionExpression <- call_ReadExpression g 0 true ;;
  CloseCurlToken <- Expect TokenType.CloseCurl "expected ')' token" ;;
  StatementsBlock <- call_ReadStatementsBlock g ;;
  pret (WhileStatementSyntax loop_semicolon KeywordToken OpenCurlToken CloseCurlToken
          ConditionExpression StatementsBlock).

Definition ReadUntilStatement : P StatementSyntax :=
  KeywordToken <- Expect TokenType.UntilKeyword "Expected 'until' keyword" ;;
  OpenCurlToken <- Expect TokenType.OpenCurl "expected '(' token" ;;
  ConditionExpression <- call_ReadExpression g 0 true ;;
  CloseCurlToken <- Expect TokenType.CloseCurl "expected ')' token" ;;
  StatementsBlock <- call_ReadStatementsBlock g ;;
  pret (UntilStatementSyntax loop_semicolon KeywordToken OpenCurlToken CloseCurlToken
          ConditionExpression StatementsBlock).

(** The report on a keyword statement in the header of a [for]. *)
Definition refuse_keyword (s : option StatementSyntax) (message : string) : P unit :=
  match s with
  | Some s =>
      match as_KeywordStatement s with
      | Some keyword => ReportError keyword message
      | None => pret tt
      end
  | None => pret tt
  end.

Definition ReadForStatement : P StatementSyntax :=
  KeywordToken <- Expect TokenType.ForKeyword "Expected 'for' keyword" ;;
  OpenCurlToken <- Expect TokenType.OpenCurl "expected '(' token" ;;
  InitializerStatement <- ReadStatement ;;
  refuse_keyword InitializerStatement
    "Cannot use keyword statements inside for loop initializer" ;;;
  FirstSemicolon <- Expect TokenType.Semicolon "expected ';' token" ;;
  ConditionExpression <- call_ReadExpression g 0 true ;;
  SecondSemicolon <- Expect TokenType.Semicolon "expected ';' token" ;;
  AfterRepeatStatement <- ReadStatement ;;
  refuse_keyword AfterRepeatStatement
    "Cannot use keyword statements inside for loop repeater" ;;;
  CloseCurlToken <- Expect TokenType.CloseCurl "expected ')' token" ;;
  StatementsBlock <- call_ReadStatementsBlock g ;;
  pret (ForStatementSyntax loop_semicolon KeywordToken OpenCurlToken FirstSemicolon
          SecondSemicolon CloseCurlToken InitializerStatement ConditionExpression
          AfterRepeatStatement StatementsBlock).

(** [name in range block], in parentheses or not: the part [foreach] and
    [for] share. *)
Definition ReadRange (missing : string)
    (build : SyntaxToken -> SyntaxToken -> option ExpressionSyntax -> StatementsBlockSyntax ->
             StatementSyntax) : P StatementSyntax :=
  hasParens <- at_type TokenType.OpenCurl ;;
  (if hasParens then Expect TokenType.OpenCurl "expected '(' token" ;;; pret tt
   else pret tt) ;;;
  current <- Current ;;
  IdentifierToken <-
    (if negb (Type_ current =tt TokenType.Identifier) then
       ReportError current missing ;;;
       pret (made TokenType.Identifier "<missing>" (Location current) false)
     else Consume ;;; pret current) ;;
  InKeywordToken <- Expect TokenType.InKeyword "Expected 'in' keyword" ;;
  RangeExpression <- call_ReadExpression g 0 true ;;
  (if hasParens then Expect TokenType.CloseCurl "expected ')' token" ;;; pret tt
   else pret tt) ;;;
  StatementsBlock <- call_ReadStatementsBlock g ;;
  pret (build IdentifierToken InKeywordToken RangeExpression StatementsBlock).

Definition ReadForEachStatement : P StatementSyntax :=
  KeywordToken <- Expect TokenType.ForeachKeyword "Expected 'foreach' keyword" ;;
  ReadRange "Expected identifier after 'foreach'" (ForEachStatementSyntax KeywordToken).

Definition ReadForInStatement : P StatementSyntax :=
  KeywordToken <- Expect TokenType.ForKeyword "Expected 'for' keyword" ;;
  ReadRange "Expected identifier after 'for'" (ForInStatementSyntax KeywordToken).

(** A catch clause; [None] is the one without a variable or type, whose
    block is read and dropped. *)
Definition ReadCatchClause : P (option CatchClauseSyntax) :=
  CatchKeywordToken <- Expect TokenType.CatchKeyword "Expected 'catch' keyword" ;;
  bare <- at_type TokenType.OpenBrace ;;
  if bare then
    ReportError CatchKeywordToken
      "Catch clause must declare an exception variable or type. Use parentheses for parameters, e.g., catch (ex: Type)" ;;;
    call_ReadStatementsBlock g ;;;
    pret None
  else
    open <- Current ;;
    let hasParens := Type_ open =tt TokenType.OpenCurl in
    (if hasParens then Consume else pret tt) ;;;
    named <- TryMatchIdentifier 3 ;;
    IdentifierToken <-
      (if named then t <- Current ;; Consume ;;; pret t else pret default_token) ;;
    colon <- Current ;;
    let typed := Type_ colon =tt TokenType.Colon in
    ExceptionType <- (if typed then Consume ;;; read_type n true else pret None) ;;
    CloseParenToken <-
      (if hasParens then Expect TokenType.CloseCurl "Expected ')' after catch clause"
       else pret default_token) ;;
    Body <- call_ReadStatementsBlock g ;;
    (match ExceptionType with
     | None =>
         if Type_ IdentifierToken =tt TokenType.Unknown then
           ReportError CatchKeywordToken "Catch clause must declare an exception variable or type"
         else pret tt
     | Some _ => pret tt
     end) ;;;
    pret (Some (CatchClause CatchKeywordToken (if hasParens then open else default_token)
                  IdentifierToken (if typed then colon else default_token) CloseParenToken
                  ExceptionType Body)).

Definition ReadTryStatement : P StatementSyntax :=
  TryKeywordToken <- Expect TokenType.TryKeyword "Expected 'try' keyword" ;;
  TryBlock <- call_ReadStatementsBlock g ;;
  CatchClauses <- loop n (fun clauses =>
    more <- more_at TokenType.CatchKeyword ;;
    if negb more then break_ clauses else
    clause <- ReadCatchClause ;;
    continue_ (match clause with Some c => clauses ++ [c] | None => clauses end)) [] ;;
  (match CatchClauses with
   | [] => ReportError TryKeywordToken "'try' statement must have at least one 'catch' clause"
   | _ :: _ => pret tt
   end) ;;;
  pret (TryStatementSyntax TryKeywordToken TryBlock CatchClauses).

(** The head of a clause of [switch]: its keyword and pattern, [None] when
    the token is skipped. *)
Definition ReadCaseHead : P (option (SyntaxToken * option ExpressionSyntax)) :=
  current <- Current ;;
  if Type_ current =tt TokenType.DefaultKeyword then
    Consume ;;;
    pret (Some (current, None))
  else if Type_ current =tt TokenType.CaseKeyword then
    Consume ;;;
    is_ <- at_type TokenType.IsOperator ;;
    pattern <-
      (if is_ then p <- ReadIsPattern n ;; pret (Some p) else call_ReadExpression g 0 true) ;;
    pret (Some (current, pattern))
  else
    ReportError current "Expected 'case' or 'default' in switch statement" ;;;
    Consume ;;;
    pret None.

Definition ReadSwitchStatement : P StatementSyntax :=
  SwitchKeywordToken <- Expect TokenType.SwitchKeyword "Expected 'switch' keyword" ;;
  OpenParenToken <- Expect TokenType.OpenCurl "Expected '(' after 'switch'" ;;
  empty <- at_type TokenType.CloseCurl ;;
  Expression <- (if empty then pret None else call_ReadExpression g 0 true) ;;
  CloseParenToken <- Expect TokenType.CloseCurl "Expected ')' after switch expression" ;;
  OpenBraceToken <- Expect TokenType.OpenBrace "Expected '{' after switch expression" ;;
  Clauses <- loop n (fun clauses =>
    more <- more_not TokenType.CloseBrace ;;
    if negb more then break_ clauses else
    head <- ReadCaseHead ;;
    match head with
    | None => continue_ clauses
    | Some (KeywordToken, Pattern) =>
        ColonToken <- Expect TokenType.Colon "Expected ':' after case pattern" ;;
        Body <- call_ReadStatementsBlock g ;;
        continue_ (clauses ++ [SwitchCaseClause KeywordToken ColonToken Pattern Body])
    end) [] ;;
  CloseBraceToken <- Expect TokenType.CloseBrace "Expected '}' after switch cases" ;;
  pret (SwitchStatementSyntax SwitchKeywordToken OpenParenToken CloseParenToken OpenBraceToken
          CloseBraceToken Expression Clauses).

(** [for] is a range loop when a name and [in] follow it, with or without a
    parenthesis between. *)
Definition IsRangeFor : P bool :=
  two <- CanPeek ;;
  if negb two then pret false else
  p0 <- Peek 0 ;;
  p1 <- Peek 1 ;;
  p2 <- Peek 2 ;;
  pret ((Type_ p0 =tt TokenType.Identifier) && (Type_ p1 =tt TokenType.InKeyword)
        || (Type_ p0 =tt TokenType.OpenCurl) && (Type_ p1 =tt TokenType.Identifier)
           && (Type_ p2 =tt TokenType.InKeyword)).

Definition some_statement (m : P StatementSyntax) : P (option StatementSyntax) :=
  s <- m ;; pret (Some s).

Definition ReadKeywordStatement : P (option StatementSyntax) :=
  more <- CanConsume ;;
  if negb more then pret None else
  current <- Current ;;
  match Type_ current with
  | TokenType.ForKeyword =>
      range <- IsRangeFor ;;
      some_statement (if range then ReadForInStatement else ReadForStatement)
  | TokenType.ForeachKeyword => some_statement ReadForEachStatement
  | TokenType.WhileKeyword => some_statement ReadWhileStatement
  | TokenType.UntilKeyword => some_statement ReadUntilStatement
  | TokenType.ReturnKeyword => some_statement ReadReturnStatement
  | TokenType.BreakKeyword => some_statement ReadBreakStatement
  | TokenType.ContinueKeyword => some_statement ReadContinueStatement
  | TokenType.IfKeyword | TokenType.UnlessKeyword => call_ReadConditionalClause g
  | TokenType.TryKeyword => some_statement ReadTryStatement
  | TokenType.SwitchKeyword => some_statement ReadSwitchStatement
  | TokenType.DeferKeyword => some_statement ReadDeferStatement
  | TokenType.ThrowKeyword => some_statement ReadThrowStatement
  | _ =>
      ReportError current "unknown/unsupported keyword" ;;;
      pret None
  end.

(** ** Blocks *)
(** A statement of a block: a plain statement is followed by [;]. *)
Definition ReadBlockStatement (current : SyntaxToken) : P (option StatementSyntax) :=
  if IsKeyword (Type_ current) then ReadKeywordStatement
  else
    statement <- ReadStatement ;;
    match statement with
    | Some statement =>
        SemicolonToken <- expect_semicolon ;;
        pret (Some (set_SemicolonToken statement SemicolonToken))
    | None => pret None
    end.

(** The loop between the braces: its state is [loopGuard] and the
    statements read; the result has the close token, missing when there is
    none. *)
Definition ReadStatementsBlock_loop : P (SyntaxToken * list StatementSyntax) :=
  loop n (fun st : Z * list StatementSyntax =>
    let (loopGuard, statements) := st in
    more <- CanConsume ;;
    if negb more then break_ (default_token, statements) else
    let loopGuard := loopGuard + 1 in
    if loopGuard_max <? loopGuard then
      ReportCurrent "Statement block parser loop detected" ;;;
      break_ (default_token, statements)
    else
      current <- Current ;;
      if Type_ current =tt TokenType.CloseBrace then
        Consume ;;;
        break_ (current, statements)
      else if Type_ current =tt TokenType.EndOfFile then
        ReportError current "Unexpected end of file in statement block - expected '}'" ;;;
        break_ (missing_brace current, statements)
      else
        statement <- ReadBlockStatement current ;;
        match statement with
        | Some statement => continue_ (loopGuard, statements ++ [statement])
        | None =>
            found <- TryMatch [TokenType.CloseBrace] None 5 ;;
            if found then continue_ (loopGuard, statements)
            else break_ (default_token, statements)
        end) (0, []).

(** [{ statements }] *)
Definition ReadBraces (OpenBraceToken : SyntaxToken) : P StatementsBlockSyntax :=
  Consume ;;;
  r <- ReadStatementsBlock_loop ;;
  let (CloseBraceToken, statements) := r in
  (if negb (Type_ CloseBraceToken =tt TokenType.CloseBrace) then
     more <- CanConsume ;;
     here <- Current ;;
     let location := if more then Location here else Location OpenBraceToken in
     ReportError (token TokenType.EndOfFile [] location)
       "Statement block opened here was not closed - expected '}'"
   else pret tt) ;;;
  pret (StatementsBlock OpenBraceToken CloseBraceToken default_token statements default_token
          false).

Definition ReadStatementsBlock : P StatementsBlockSyntax :=
  guarded_by set_BlockDepth (
    depth <- pget BlockDepth ;;
    if MaxBlockDepth <? depth then
      ReportCurrent "Statement nesting is too deep" ;;;
      skip_until n TokenType.CloseBrace ;;;
      consume_if_any ;;;
      pret new_block
    else
      more <- CanConsume ;;
      if negb more then
        ReportError eof_token "Unexpected end of file - expected statement block" ;;;
        pret new_block
      else
        current <- Current ;;
        if Type_ current =tt TokenType.Semicolon then
          Consume ;;;
          pret (StatementsBlock default_token default_token current [] default_token false)
        else if Type_ current =tt TokenType.OpenBrace then ReadBraces current
        else
          statement <- ReadBlockStatement current ;;
          pret (StatementsBlock default_token default_token default_token
                  (match statement with Some s => [s] | None => [] end) default_token false)).
End Statements.

(** The functions on expressions and statements with fuel [n] for their
    recursion and their loops. *)
Fixpoint parsers (n : nat) : Parsers :=
  match n with
  | O => mkParsers (fun _ _ => pfuel) pfuel (fun _ _ => pfuel) (fun _ => pfuel) pfuel pfuel
  | S n =>
      let g := parsers n in
      mkParsers (ReadExpression n g) (ReadNullDenotation n g) (ReadLinkedExpressionNode n g)
        (ReadIndexatorExpressionNode n g) (ReadStatementsBlock n g) (ReadConditionalClause n g)
  end.

(** [ReadExpression(reader, parent, 0, true)] and [ReadMethodBody(reader,
    parent)] as declarations call them. *)
Definition read_expression (n : nat) : P (option ExpressionSyntax) :=
  call_ReadExpression (parsers n) 0 true.
Definition read_method_body (n : nat) : P StatementsBlockSyntax :=
  ReadMethodBody (parsers n).
