(* ===== verification/ParserDecl.v ===== *)
(** * The parser: declarations and compilation units

    The functions of [SourceParser] that read attributes, modifiers, type
    declarations and their members, using and namespace directives, and a
    whole compilation unit.  Type declarations nest: [members] ties that
    recursion. *)
From Stdlib Require Import ZArith Lia Bool List String.
From stdpp Require Import base list.
From S2P Require Import Prelude Tokens SyntaxFacts SyntaxTree ParserState ParserTypes ParserExpr ParserStmt.
Import ListNotations SyntaxFacts.
Open Scope Z_scope.
Open Scope shard_scope.
Open Scope parser_scope.

(** The initial [expectedOrder] of [ReadMemberModifiers]. *)
Definition expectedOrder : list TokenType :=
  [TokenType.PublicKeyword; TokenType.PrivateKeyword; TokenType.ProtectedKeyword;
   TokenType.InternalKeyword; TokenType.ExportKeyword; TokenType.StaticKeyword;
   TokenType.AsyncKeyword; TokenType.ExternKeyword].

(** The index of the first occurrence of [type]. *)
Fixpoint index_of (type : TokenType) (l : list TokenType) : option nat :=
  match l with
  | [] => None
  | t :: l => if t =tt type then Some 0%nat else option_map S (index_of type l)
  end.

Section Members.
Variable n : nat.

(** ** Modifiers and attributes *)
(** The state of the loop is [modifiers], whose types are [seenModifiers],
    and [currentOrderIndex]. *)
Definition ReadMemberModifiers : P (list SyntaxToken) :=
  loop n (fun st : list SyntaxToken * nat =>
    let (modifiers, currentOrderIndex) := st in
    more <- CanConsume ;;
    if negb more then break_ modifiers else
    current <- Current ;;
    match index_of (Type_ current) expectedOrder with
    | None => break_ modifiers
    | Some modifierIndex =>
        if one_of (map Type_ modifiers) (Type_ current) then
          ReportError current "Duplicate modifier" ;;;
          Consume ;;;
          continue_ (modifiers, currentOrderIndex)
        else
          Consume ;;;
          if Nat.ltb modifierIndex currentOrderIndex then
            ReportError current "Modifier out of order" ;;;
            continue_ (modifiers ++ [current], currentOrderIndex)
          else continue_ (modifiers ++ [current], S modifierIndex)
    end) ([], 0%nat).

(** The arguments between the parentheses of an attribute. *)
Definition ReadAttribute_loop : P (list SyntaxToken) :=
  loop n (fun arguments =>
    more <- more_not TokenType.CloseCurl ;;
    if negb more then break_ arguments else
    arg <- Current ;;
    arguments <-
      (if Type_ arg =tt TokenType.StringLiteral then Consume ;;; pret (arguments ++ [arg])
       else
         ReportError arg "Expected string literal in attribute arguments" ;;;
         Consume ;;;
         pret arguments) ;;
    next <- Current ;;
    if Type_ next =tt TokenType.Comma then Consume ;;; continue_ arguments
    else if negb (Type_ next =tt TokenType.CloseCurl) then
      ReportError next "Expected ',' or ')' in attribute arguments" ;;;
      break_ arguments
    else continue_ arguments) [].

Definition ReadAttribute : P AttributeSyntax :=
  OpenBracketToken <- Expect TokenType.OpenSquare "Expected '['" ;;
  NameToken <- Expect TokenType.Identifier "Expected attribute name" ;;
  open <- Current ;;
  if Type_ open =tt TokenType.OpenCurl then
    Consume ;;;
    Arguments <- ReadAttribute_loop ;;
    CloseCurlToken <- Expect TokenType.CloseCurl "Expected ')'" ;;
    CloseBracketToken <- Expect TokenType.CloseSquare "Expected ']'" ;;
    pret (mkAttribute OpenBracketToken CloseBracketToken NameToken open CloseCurlToken Arguments)
  else
    CloseBracketToken <- Expect TokenType.CloseSquare "Expected ']'" ;;
    pret (mkAttribute OpenBracketToken CloseBracketToken NameToken default_token default_token []).

Definition ReadAttributeList : P (list AttributeSyntax) :=
  loop n (fun attributes =>
    more <- more_at TokenType.OpenSquare ;;
    if negb more then break_ attributes else
    attr <- ReadAttribute ;;
    continue_ (attributes ++ [attr])) [].

(** ** Functions *)
(** A body and the semicolon an expression body is followed by. *)
Definition ReadBodyAndSemicolon : P (StatementsBlockSyntax * SyntaxToken) :=
  Body <- read_method_body n ;;
  Semicolon <-
    (if negb (Type_ (block_OpenBraceToken Body) =tt TokenType.OpenBrace)
     then Expect TokenType.Semicolon "Missing ';' token"
     else pret default_token) ;;
  pret (Body, Semicolon).

(** [;], or the body: the semicolon token and the body. *)
Definition ReadBodyOrSemicolon : P (SyntaxToken * option StatementsBlockSyntax) :=
  current <- Current ;;
  if Type_ current =tt TokenType.Semicolon then
    Consume ;;;
    pret (current, None)
  else
    r <- ReadBodyAndSemicolon ;;
    pret (snd r, Some (fst r)).

(** [-> type], and the report when there is none; [what] is [Function] or
    [Operator]. *)
Definition ReadReturnType (missing : string) (declared : option TypeSyntax) :
    P (option TypeSyntax) :=
  current <- Current ;;
  if Type_ current =tt TokenType.ArrowOperator then
    Consume ;;;
    read_type n true
  else
    (if Type_ current =tt TokenType.Identifier then
       ReportError current "Expected '->' before return type."
     else if Type_ current =tt TokenType.OpenBrace then
       ReportError current "Expected arrow and defined return type before block."
     else ReportError current missing) ;;;
    pret declared.

Definition with_where (b : MemberBase) (clauses : list WhereClauseSyntax) : MemberBase :=
  mkMember (Modifiers b) (DeclareToken b) (IdentifierToken b) (Attributes b) (TypeParameters b)
    clauses.

Definition ReadConstructorDeclaration (info : MemberDeclarationInfo) :
    P ConstructorDeclarationSyntax :=
  Parameters <- ReadParametersList n ;;
  current <- Current ;;
  (if Type_ current =tt TokenType.ArrowOperator then
     ReportError current "Constructors cannot declare a return type" ;;;
     Consume ;;;
     current <- Current ;;
     if negb (Type_ current =tt TokenType.OpenBrace)
        && negb (Type_ current =tt TokenType.Semicolon)
     then read_type n true ;;; pret tt
     else pret tt
   else pret tt) ;;;
  r <- ReadBodyOrSemicolon ;;
  pret (mkConstructor (base_of_info info) (fst r) (snd r) Parameters).

(** The first [async] among the modifiers. *)
Definition async_modifier (modifiers : list SyntaxToken) : SyntaxToken :=
  match List.find (fun m => Type_ m =tt TokenType.AsyncKeyword) modifiers with
  | Some m => m
  | None => default_token
  end.

Definition ReadMethodDeclaration (info : MemberDeclarationInfo) : P MethodDeclarationSyntax :=
  Parameters <- ReadParametersList n ;;
  ReturnType <- ReadReturnType "Function must have a return type." (info_ReturnType info) ;;
  WhereClauses <- ReadWhereClauses n ;;
  r <- ReadBodyOrSemicolon ;;
  pret (mkMethod (with_where (base_of_info info) WhereClauses)
          (async_modifier (info_Modifiers info)) (fst r) ReturnType Parameters (snd r)).

(** The operator declared: a symbol, or the name of one. *)
Definition ReadOperatorToken : P SyntaxToken :=
  current <- Current ;;
  let mapped :=
    if Type_ current =tt TokenType.Identifier then GetTokenTypeFromOperatorName (Word current)
    else TokenType.Unknown in
  let operatorToken :=
    if mapped =tt TokenType.Unknown then current
    else mkToken (IsMissing current) mapped (Word current) (Location current) in
  operatorToken <-
    (if negb (IsOverloadableOperator (Type_ operatorToken)) then
       ReportError operatorToken "Expected overloadable operator token" ;;;
       pret (made TokenType.Unknown "" empty_location true)
     else pret operatorToken) ;;
  Consume ;;;
  pret operatorToken.

Definition with_identifier (b : MemberBase) (t : SyntaxToken) : MemberBase :=
  mkMember (Modifiers b) (DeclareToken b) t (Attributes b) (TypeParameters b) (WhereClauses b).

Definition ReadOperatorDeclaration (info : MemberDeclarationInfo) : P OperatorDeclarationSyntax :=
  operatorToken <- ReadOperatorToken ;;
  Parameters <- ReadParametersList n ;;
  ReturnType <- ReadReturnType "Operator must have a return type." (info_ReturnType info) ;;
  WhereClauses <- ReadWhereClauses n ;;
  r <- ReadBodyOrSemicolon ;;
  pret (mkOperator (with_where (with_identifier (base_of_info info) operatorToken) WhereClauses)
          operatorToken (fst r) ReturnType Parameters (snd r)).

(** ** Fields and properties *)
Definition expect_end : P SyntaxToken := Expect TokenType.Semicolon "Expected ';' token".

Definition ReadFieldDeclaration (info : MemberDeclarationInfo) : P FieldDeclarationSyntax :=
  let field := mkField (base_of_info info) (info_ReturnType info) in
  current <- Current ;;
  match Type_ current with
  | TokenType.AssignOperator =>
      Consume ;;;
      InitializerExpression <- read_expression n ;;
      SemicolonToken <- expect_end ;;
      pret (field SemicolonToken current InitializerExpression)
  | TokenType.Semicolon =>
      Consume ;;;
      pret (field current default_token None)
  | _ =>
      SemicolonToken <- expect_end ;;
      pret (field SemicolonToken default_token None)
  end.

Definition ReadComputedPropertyDeclaration (info : MemberDeclarationInfo) :
    P PropertyDeclarationSyntax :=
  ArrowToken <- Expect TokenType.ArrowOperator "Expected '=>'" ;;
  InitializerExpression <- read_expression n ;;
  SemicolonToken <- expect_end ;;
  pret (mkProperty (base_of_info info) (info_ReturnType info) default_token default_token
          ArrowToken SemicolonToken None None InitializerExpression).

(** The test on the token after the accessor's keyword uses the token seen
    before [TryMatch] skips to one that fits. *)
Definition ReadAccessorBody (attributes : list AttributeSyntax) (modifiers : list SyntaxToken)
    (keyword : SyntaxToken) : P AccessorDeclarationSyntax :=
  let accessor := mkAccessor attributes keyword modifiers in
  current <- Current ;;
  found <- TryMatch [TokenType.Semicolon; TokenType.OpenBrace; TokenType.LambdaOperator]
             (Some "Expected ';', '{' or '=>' after accessor keyword"%string) 5 ;;
  if negb found then pret (accessor default_token None) else
  match Type_ current with
  | TokenType.Semicolon =>
      Consume ;;;
      pret (accessor current None)
  | TokenType.OpenBrace =>
      Body <- read_method_body n ;;
      pret (accessor default_token (Some Body))
  | TokenType.LambdaOperator =>
      Body <- read_method_body n ;;
      SemicolonToken <- Expect TokenType.Semicolon "Missing ';' token" ;;
      pret (accessor SemicolonToken (Some Body))
  | _ =>
      ReportError current "Expected ';', '{' or '=>' after accessor keyword" ;;;
      Consume ;;;
      pret (accessor default_token None)
  end.

Definition ReadAccessorDeclaration : P AccessorDeclarationSyntax :=
  attributes <- ReadAttributeList ;;
  more <- CanConsume ;;
  if negb more then
    ReportError eof_token "Unexpected end of file after accessor attributes" ;;;
    pret (mkAccessor attributes default_token [] default_token None)
  else
    current <- Current ;;
    modifiers <- (if IsModifier (Type_ current) then ReadMemberModifiers else pret []) ;;
    found <- TryMatch [TokenType.SetKeyword; TokenType.GetKeyword]
               (Some "Expected 'get' or 'set' keywprd"%string) 5 ;;
    if negb found then pret (mkAccessor attributes default_token modifiers default_token None)
    else
      keyword <- Current ;;
      Consume ;;;
      ReadAccessorBody attributes modifiers keyword.

(** The accessors read so far. *)
Record Accessors := mkAccessors {
  Getter : option AccessorDeclarationSyntax;
  Setter : option AccessorDeclarationSyntax
}.

(** An accessor read at [current] takes its place, unless it is taken. *)
Definition place_accessor (current : SyntaxToken) (accessors : Accessors)
    (accessor : AccessorDeclarationSyntax) : P Accessors :=
  match Type_ (acc_KeywordToken accessor) with
  | TokenType.GetKeyword =>
      match Getter accessors with
      | Some _ => ReportError current "Duplicate get accessor" ;;; pret accessors
      | None => pret (mkAccessors (Some accessor) (Setter accessors))
      end
  | TokenType.SetKeyword =>
      match Setter accessors with
      | Some _ => ReportError current "Duplicate set accessor" ;;; pret accessors
      | None => pret (mkAccessors (Getter accessors) (Some accessor))
      end
  | _ =>
      ReportError current "Expected 'get' or 'set' keyword for property accessor" ;;;
      pret accessors
  end.

(** The loop over the accessors of a property or an indexer, whose [what] is
    the name of either in the report at the end of the file. *)
Definition ReadAccessors (what : string) : P (SyntaxToken * Accessors) :=
  loop n (fun accessors =>
    more <- CanConsume ;;
    if negb more then break_ (default_token, accessors) else
    current <- Current ;;
    if Type_ current =tt TokenType.CloseBrace then
      Consume ;;;
      break_ (current, accessors)
    else if Type_ current =tt TokenType.EndOfFile then
      ReportError current ("Unexpected end of file in " ++ what ++ " - expected '}'") ;;;
      break_ (missing_brace current, accessors)
    else if IsModifier (Type_ current) || (Type_ current =tt TokenType.GetKeyword)
            || (Type_ current =tt TokenType.SetKeyword)
            || (Type_ current =tt TokenType.OpenSquare) then
      accessor <- ReadAccessorDeclaration ;;
      accessors <- place_accessor current accessors accessor ;;
      continue_ accessors
    else
      ReportError current "Expected accessor declaration or '}'" ;;;
      found <- TryMatch [TokenType.GetKeyword; TokenType.SetKeyword; TokenType.CloseBrace] None 5 ;;
      (if found then pret tt else Consume) ;;;
      continue_ accessors) (mkAccessors None None).

(** The report on a property or an indexer without accessors. *)
Definition require_accessor (identifier : SyntaxToken) (message : string)
    (accessors : Accessors) : P unit :=
  match Getter accessors, Setter accessors with
  | None, None => ReportError identifier message
  | _, _ => pret tt
  end.

Definition ReadPropertyDeclaration (info : MemberDeclarationInfo) : P PropertyDeclarationSyntax :=
  OpenBraceToken <- Expect TokenType.OpenBrace "Expected '{' for property accessors" ;;
  r <- ReadAccessors "property" ;;
  let (CloseBraceToken, accessors) := r in
  require_accessor (info_Identifier info)
    "Property must have at least one accessor (get or set)" accessors ;;;
  pret (mkProperty (base_of_info info) (info_ReturnType info) OpenBraceToken CloseBraceToken
          default_token default_token (Getter accessors) (Setter accessors) None).

Definition ReadIndexatorDeclaration (info : MemberDeclarationInfo) :
    P IndexatorDeclarationSyntax :=
  Parameters <- ReadIndexerParametersList n ;;
  current <- Current ;;
  ReturnType <-
    (if Type_ current =tt TokenType.Colon then Consume ;;; read_type n true
     else
       (if Type_ current =tt TokenType.Identifier then
          ReportError current "Expected ':' before return type."
        else ReportError current "Indexer must have a return type.") ;;;
       pret (info_ReturnType info)) ;;
  OpenBraceToken <- Expect TokenType.OpenBrace "Expected '{' for indexer accessors" ;;
  r <- ReadAccessors "indexer" ;;
  let (CloseBraceToken, accessors) := r in
  require_accessor (info_Identifier info)
    "Indexer must have at least one accessor (get or set)" accessors ;;;
  pret (mkIndexator (base_of_info info) (info_Identifier info) OpenBraceToken CloseBraceToken
          ReturnType Parameters (Getter accessors) (Setter accessors)).

(** ** Enumerations and delegates *)
(** The name of a type declaration, missing when there is none. *)
Definition ReadDeclaredName (maxSkips : nat) : P SyntaxToken :=
  found <- TryMatchIdentifier maxSkips ;;
  if found then
    t <- Current ;;
    Consume ;;;
    pret t
  else pret missing_identifier.

Definition ReadEnumFieldDeclaration : P EnumFieldDeclarationSyntax :=
  current <- Current ;;
  IdentifierToken <-
    (if Type_ current =tt TokenType.Identifier then Consume ;;; pret current
     else pret missing_identifier) ;;
  current <- Current ;;
  if Type_ current =tt TokenType.AssignOperator then
    Consume ;;;
    InitializerExpression <- read_expression n ;;
    pret (mkEnumField IdentifierToken current InitializerExpression)
  else pret (mkEnumField IdentifierToken default_token None).

Definition ReadEnumBody_loop : P (SyntaxToken * list EnumFieldDeclarationSyntax) :=
  loop n (fun fields =>
    more <- CanConsume ;;
    if negb more then break_ (default_token, fields) else
    current <- Current ;;
    if Type_ current =tt TokenType.EndOfFile then
      ReportError current "Unexpected end of file in enum body - expected '}'" ;;;
      break_ (missing_brace current, fields)
    else if Type_ current =tt TokenType.CloseBrace then
      Consume ;;;
      break_ (current, fields)
    else
      fields <-
        (if Type_ current =tt TokenType.Identifier then
           field <- ReadEnumFieldDeclaration ;;
           pret (fields ++ [field])
         else
           ReportError current "Expected enum field identifier" ;;;
           Consume ;;;
           pret fields) ;;
      current <- Current ;;
      match Type_ current with
      | TokenType.Comma => Consume ;;; continue_ fields
      | TokenType.CloseBrace => Consume ;;; break_ (current, fields)
      | TokenType.EndOfFile =>
          ReportError current "Unexpected end of file in enum body - expected '}'" ;;;
          break_ (missing_brace current, fields)
      | _ =>
          ReportError current "Expected ',' or '}' after enum field" ;;;
          break_ (default_token, fields)
      end) [].

(** [ReadEnumBody]: the braces and the fields. *)
Definition ReadEnumBody : P (SyntaxToken * SyntaxToken * list EnumFieldDeclarationSyntax) :=
  OpenBraceToken <- Expect TokenType.OpenBrace "Expected '{'" ;;
  r <- ReadEnumBody_loop ;;
  pret (OpenBraceToken, fst r, snd r).

(** [: flags], [: int] or [: long]: the colon, the token and [IsFlags]. *)
Definition ReadEnumUnderlying : P (SyntaxToken * SyntaxToken * bool) :=
  current <- Current ;;
  if Type_ current =tt TokenType.Colon then
    Consume ;;;
    next <- Current ;;
    if (Type_ next =tt TokenType.Identifier) && (Word next =w L "flags") then
      Consume ;;;
      pret (current, next, true)
    else if (Type_ next =tt TokenType.IntegerKeyword) || (Type_ next =tt TokenType.LongKeyword) then
      Consume ;;;
      pret (current, next, false)
    else
      ReportError next "Expected 'flags', 'int' or 'long' after ':' in enum declaration" ;;;
      pret (current, default_token, false)
  else pret (default_token, default_token, false).

(** [{] or [;] begins the body; the answer says whether there is one. *)
Definition ReadBodyStart (message : string) : P bool :=
  found <- TryMatch [TokenType.OpenBrace; TokenType.Semicolon] (Some message) 5 ;;
  if negb found then pret false else at_type TokenType.OpenBrace.

Definition ReadEnumDeclaration (info : MemberDeclarationInfo) : P EnumDeclarationSyntax :=
  IdentifierToken <- ReadDeclaredName 5 ;;
  u <- ReadEnumUnderlying ;;
  let '(ColonToken, UnderlyingTypeToken, IsFlags) := u in
  let base := mkMember (info_Modifiers info) default_token IdentifierToken (info_Attributes info)
                None [] in
  body <- ReadBodyStart "Expected enum body '{' or semicolon ';'" ;;
  if body then
    r <- ReadEnumBody ;;
    let '(OpenBraceToken, CloseBraceToken, Fields) := r in
    pret (mkEnum base OpenBraceToken CloseBraceToken ColonToken UnderlyingTypeToken IsFlags Fields)
  else
    pret (mkEnum base default_token default_token ColonToken UnderlyingTypeToken IsFlags []).

(** The name, the type parameters and the where clauses of a declaration. *)
Definition ReadTypeParametersIfAny (declared : option TypeParametersListSyntax) :
    P (option TypeParametersListSyntax) :=
  generic <- at_type TokenType.LessOperator ;;
  if generic then l <- ReadTypeParametersList n ;; pret (Some l) else pret declared.

Definition ReadDeclarationHead (info : MemberDeclarationInfo) : P MemberBase :=
  IdentifierToken <- ReadDeclaredName 5 ;;
  TypeParameters <- ReadTypeParametersIfAny (info_Generics info) ;;
  WhereClauses <- ReadWhereClauses n ;;
  pret (mkMember (info_Modifiers info) default_token IdentifierToken (info_Attributes info)
          TypeParameters WhereClauses).

Definition ReadDelegateDeclaration (info : MemberDeclarationInfo) : P DelegateDeclarationSyntax :=
  base <- ReadDeclarationHead info ;;
  Parameters <- ReadParametersList n ;;
  arrow <- at_type TokenType.ArrowOperator ;;
  ReturnType <- (if arrow then Consume ;;; read_type n true else pret (info_ReturnType info)) ;;
  Semicolon <- expect_end ;;
  pret (mkDelegate base (info_DeclareType info) Semicolon ReturnType Parameters).

(** ** Types *)
Section Nested.
(** [ReadMemberDeclaration] on the members of a type declaration of the
    given kind. *)
Variable call_ReadMemberDeclaration : SyntaxKind.t -> P (option MemberDeclarationSyntax).

(** The loop of [ReadTypeBody]: the close brace, missing when the loop is
    abandoned, and the members. *)
Definition ReadTypeBody_loop (kind : SyntaxKind.t) :
    P (SyntaxToken * list MemberDeclarationSyntax) :=
  loop n (fun st : Z * list MemberDeclarationSyntax =>
    let (loopGuard, members) := st in
    more <- CanConsume ;;
    if negb more then break_ (default_token, members) else
    let loopGuard := loopGuard + 1 in
    if loopGuard_max <? loopGuard then
      ReportCurrent "Type body parser loop detected" ;;;
      break_ (default_token, members)
    else
      current <- Current ;;
      if Type_ current =tt TokenType.EndOfFile then
        ReportError current "Unexpected end of file in type body - expected '}'" ;;;
        break_ (missing_brace current, members)
      else if Type_ current =tt TokenType.CloseBrace then
        Consume ;;;
        break_ (current, members)
      else
        peek <- Peek 0 ;;
        if IsMemberDeclaration (Type_ current) (Type_ peek) then
          member <- call_ReadMemberDeclaration kind ;;
          match member with
          | Some member => continue_ (loopGuard, members ++ [member])
          | None =>
              found <- TryMatch [TokenType.CloseBrace] None 10 ;;
              if found then continue_ (loopGuard, members) else break_ (default_token, members)
          end
        else
          ReportCurrent "Unexpected token in type declaration" ;;;
          found <- TryMatch [TokenType.CloseBrace] None 5 ;;
          (if found then pret tt else Consume) ;;;
          continue_ (loopGuard, members)) (0, []).

(** [ReadTypeBody(reader, syntax)], with the fields of [syntax] it reads or
    leaves alone. *)
Definition ReadTypeBody (kind : SyntaxKind.t) (base : MemberBase)
    (BaseInterfaces : list TypeSyntax) : P (TypeDeclaration MemberDeclarationSyntax) :=
  OpenBraceToken <- Expect TokenType.OpenBrace "Expected '{'" ;;
  r <- ReadTypeBody_loop kind ;;
  pret (mkTypeDeclaration base OpenBraceToken (fst r) BaseInterfaces (snd r)).

(** The end of a type declaration: its body, if it has one. *)
Definition ReadOptionalBody (kind : SyntaxKind.t) (message : string) (base : MemberBase)
    (BaseInterfaces : list TypeSyntax) : P (TypeDeclaration MemberDeclarationSyntax) :=
  body <- ReadBodyStart message ;;
  if body then ReadTypeBody kind base BaseInterfaces
  else pret (mkTypeDeclaration base default_token default_token BaseInterfaces []).

(** [: interfaces] *)
Definition ReadBaseInterfacesIfAny : P (list TypeSyntax) :=
  colon <- at_type TokenType.Colon ;;
  if colon then Consume ;;; ReadBaseInterfacesList n else pret [].

Definition ReadClassDeclaration (info : MemberDeclarationInfo) : P MemberDeclarationSyntax :=
  base <- ReadDeclarationHead info ;;
  BaseInterfaces <- ReadBaseInterfacesIfAny ;;
  d <- ReadOptionalBody SyntaxKind.ClassDeclaration "Expected class body '{' or semicolon ';'"
         base BaseInterfaces ;;
  pret (ClassDeclarationSyntax d).

Definition ReadStructDeclaration (info : MemberDeclarationInfo) : P MemberDeclarationSyntax :=
  base <- ReadDeclarationHead info ;;
  BaseInterfaces <- ReadBaseInterfacesIfAny ;;
  d <- ReadOptionalBody SyntaxKind.StructDeclaration "Expected struct body '{' or semicolon ';'"
         base BaseInterfaces ;;
  pret (StructDeclarationSyntax d).

Definition ReadInterfaceDeclaration (info : MemberDeclarationInfo) : P MemberDeclarationSyntax :=
  base <- ReadDeclarationHead info ;;
  d <- ReadOptionalBody SyntaxKind.InterfaceDeclaration
         "Expected interface body '{' or semicolon ';'" base [] ;;
  pret (InterfaceDeclarationSyntax d).

Definition some_member {D} (build : D -> MemberDeclarationSyntax) (m : P D) :
    P (option MemberDeclarationSyntax) :=
  d <- m ;; pret (Some (build d)).

(** A declaration that begins with the keyword [current] of a type. *)
Definition ReadTypeDeclaration (current : SyntaxToken) (info : MemberDeclarationInfo) :
    P (option MemberDeclarationSyntax) :=
  Consume ;;;
  match Type_ current with
  | TokenType.ClassKeyword => some_member id (ReadClassDeclaration info)
  | TokenType.StructKeyword => some_member id (ReadStructDeclaration info)
  | TokenType.InterfaceKeyword => some_member id (ReadInterfaceDeclaration info)
  | TokenType.DelegateKeyword => some_member DelegateDeclaration (ReadDelegateDeclaration info)
  | TokenType.EnumKeyword => some_member EnumDeclaration (ReadEnumDeclaration info)
  | _ =>
      ReportError (info_DeclareType info) "Unsupported member keyword" ;;;
      pret None
  end.

(** [name : type], of a field or a property; [next] comes after the type. *)
Definition ReadTypedMember (kind : SyntaxKind.t) (info : MemberDeclarationInfo) :
    P (option MemberDeclarationSyntax) :=
  next <- Current ;;
  match Type_ next with
  | TokenType.OpenBrace => some_member PropertyDeclaration (ReadPropertyDeclaration info)
  | TokenType.ArrowOperator =>
      some_member PropertyDeclaration (ReadComputedPropertyDeclaration info)
  | TokenType.AssignOperator | TokenType.Semicolon =>
      match kind with
      | SyntaxKind.InterfaceDeclaration =>
          if Type_ next =tt TokenType.AssignOperator then
            ReportError next "Interfaces cannot contain fields" ;;;
            pret None
          else
            Consume ;;;
            let keyword :=
              made TokenType.GetKeyword "get" (Location (info_Identifier info)) false in
            let getter := mkAccessor [] keyword [] default_token None in
            pret (Some (PropertyDeclaration
              (mkProperty (base_of_info info) (info_ReturnType info) default_token default_token
                 default_token next (Some getter) None None)))
      | _ => some_member FieldDeclaration (ReadFieldDeclaration info)
      end
  | _ =>
      ReportError next "Expected '{', '=>', '=' or ';' after type" ;;;
      pret None
  end.

(** A declaration that begins with a name. *)
Definition ReadNamedMember (kind : SyntaxKind.t) (info : MemberDeclarationInfo) :
    P (option MemberDeclarationSyntax) :=
  Consume ;;;
  call <- at_type TokenType.OpenCurl ;;
  if call then
    ReportError (info_Identifier info) "Missed 'fn' keyword" ;;;
    some_member MethodDeclaration (ReadMethodDeclaration info)
  else
    found <- TryMatch [TokenType.Colon] (Some "Expected ':' after identifier"%string) 3 ;;
    if negb found then pret None else
    Consume ;;;
    ReturnType <- read_type n true ;;
    match ReturnType with
    | None =>
        ReportCurrent "Expected type after ':'" ;;;
        pret None
    | Some _ =>
        ReadTypedMember kind
          (mkInfo (info_Attributes info) (info_Modifiers info) (info_DeclareType info)
             (info_Identifier info) ReturnType (info_Generics info))
    end.

(** [fn name<T>(...) ...] *)
Definition ReadFunction (info : MemberDeclarationInfo) : P (option MemberDeclarationSyntax) :=
  Consume ;;;
  Identifier <- ReadDeclaredName 3 ;;
  Generics <- ReadTypeParametersIfAny (info_Generics info) ;;
  some_member MethodDeclaration
    (ReadMethodDeclaration
       (mkInfo (info_Attributes info) (info_Modifiers info) (info_DeclareType info) Identifier
          (info_ReturnType info) Generics)).

Definition ReadMemberDeclaration (kind : SyntaxKind.t) : P (option MemberDeclarationSyntax) :=
  Attributes <- ReadAttributeList ;;
  Modifiers <- ReadMemberModifiers ;;
  let info identifier := mkInfo Attributes Modifiers default_token identifier None None in
  more <- CanConsume ;;
  if negb more then pret None else
  current <- Current ;;
  if IsTypeKeyword (Type_ current) then
    ReadTypeDeclaration current (mkInfo Attributes Modifiers current default_token None None)
  else if Type_ current =tt TokenType.FunctionKeyword then ReadFunction (info default_token)
  else if Type_ current =tt TokenType.OperatorKeyword then
    Consume ;;;
    some_member OperatorDeclaration (ReadOperatorDeclaration (info default_token))
  else if Type_ current =tt TokenType.InitKeyword then
    Consume ;;;
    some_member ConstructorDeclaration
      (ReadConstructorDeclaration (info (made TokenType.InitKeyword "init" empty_location false)))
  else if Type_ current =tt TokenType.IndexerKeyword then
    Consume ;;;
    some_member IndexatorDeclaration (ReadIndexatorDeclaration (info current))
  else if Type_ current =tt TokenType.Identifier then ReadNamedMember kind (info current)
  else if IsPredefinedType (Type_ current) then
    ReportError current
      "Expected 'func' keyword. In ShardScript methods are declared as 'func Name() -> Type'" ;;;
    pret None
  else
    ReportError current "Expected member declaration" ;;;
    Consume ;;;
    pret None.
End Nested.
End Members.

(** [ReadMemberDeclaration] with fuel [n] for the nesting and the loops. *)
Fixpoint members (n : nat) : SyntaxKind.t -> P (option MemberDeclarationSyntax) :=
  match n with
  | O => fun _ => pfuel
  | S n => ReadMemberDeclaration n (members n)
  end.

(** ** Compilation units *)
Section Units.
Variable n : nat.

Definition CanStartCompilationUnit (t : SyntaxToken) : bool :=
  (Type_ t =tt TokenType.UsingKeyword)
  || (Type_ t =tt TokenType.NamespaceKeyword)
  || (Type_ t =tt TokenType.FunctionKeyword)
  || (Type_ t =tt TokenType.InitKeyword)
  || (Type_ t =tt TokenType.OpenSquare)
  || IsModifier (Type_ t)
  || IsMemberKeyword (Type_ t)
  || IsTypeKeyword (Type_ t).

(** The state of the loop is [braceDepth] and [parenDepth]. *)
Definition SynchronizeToNextTopLevel : P unit :=
  loop n (fun st : Z * Z =>
    let (braceDepth, parenDepth) := st in
    more <- CanConsume ;;
    if negb more then break_ tt else
    token <- Current ;;
    if (braceDepth =? 0) && (parenDepth =? 0) && CanStartCompilationUnit token then break_ tt
    else
      let st :=
        match Type_ token with
        | TokenType.OpenBrace => (braceDepth + 1, parenDepth)
        | TokenType.CloseBrace =>
            (if 0 <? braceDepth then braceDepth - 1 else braceDepth, parenDepth)
        | TokenType.OpenCurl => (braceDepth, parenDepth + 1)
        | TokenType.CloseCurl =>
            (braceDepth, if 0 <? parenDepth then parenDepth - 1 else parenDepth)
        | _ => (braceDepth, parenDepth)
        end in
      Consume ;;; continue_ st) (0, 0).

(** The loop of [ReadUsingDirective]: the names and the semicolon. *)
Definition ReadUsingDirective_loop : P (list SyntaxToken * SyntaxToken) :=
  loop n (fun names =>
    more <- CanConsume ;;
    if negb more then break_ (names, default_token) else
    found <- TryMatchIdentifier 3 ;;
    if negb found then
      ends <- TryMatch [TokenType.Semicolon] None 10 ;;
      if ends then
        t <- Current ;;
        Consume ;;;
        break_ (names, t)
      else break_ (names, default_token)
    else
      identifier <- Current ;;
      let names := names ++ [identifier] in
      Consume ;;;
      found <- TryMatch [TokenType.Delimeter; TokenType.Semicolon]
                 (Some "Expected separator token '.' or closing token ';'"%string) 3 ;;
      if negb found then break_ (names, default_token) else
      separatorToken <- Current ;;
      Consume ;;;
      if Type_ separatorToken =tt TokenType.Semicolon then break_ (names, separatorToken)
      else continue_ names) [].

Definition ReadUsingDirective : P UsingDirectiveSyntax :=
  UsingKeywordToken <- Expect TokenType.UsingKeyword "Exprected 'using' keyword" ;;
  r <- ReadUsingDirective_loop ;;
  pret (mkUsing UsingKeywordToken (snd r) (fst r)).

(** The loop of [ReadNamespaceDeclaration] over the parts of the name. *)
Definition ReadNamespaceDeclaration_loop (identifiers : list SyntaxToken) :
    P (list SyntaxToken) :=
  loop n (fun identifiers =>
    dot <- at_type TokenType.Delimeter ;;
    if negb dot then break_ identifiers else
    Consume ;;;
    found <- TryMatchIdentifier 5 ;;
    if negb found then break_ identifiers else
    identifier <- Current ;;
    Consume ;;;
    continue_ (identifiers ++ [identifier])) identifiers.

Definition ReadNamespaceDeclaration : P NamespaceDeclarationSyntax :=
  DeclareToken <- Expect TokenType.NamespaceKeyword "Expected 'namespace' keyword" ;;
  IdentifierToken <- ReadDeclaredName 5 ;;
  IdentifierTokens <- ReadNamespaceDeclaration_loop [IdentifierToken] ;;
  SemicolonToken <- Expect TokenType.Semicolon "Expected ';' after namespace declaration" ;;
  pret (mkNamespace DeclareToken IdentifierToken IdentifierTokens SemicolonToken).

(** The three cases of the loop of [ReadCompilationUnit]. *)
Definition ReadUnitUsing (unit : CompilationUnitSyntax) (token : SyntaxToken) :
    P CompilationUnitSyntax :=
  (match Namespace_ unit, Members unit with
   | None, [] => pret tt
   | _, _ => ReportError token "Using directive must be declared at the top of the compilation unit"
   end) ;;;
  pDirective <- ReadUsingDirective ;;
  pret (mkUnit (Usings unit ++ [pDirective]) (Members unit) (Namespace_ unit)).

Definition ReadUnitNamespace (unit : CompilationUnitSyntax) (token : SyntaxToken) :
    P CompilationUnitSyntax :=
  (match Members unit with
   | [] => pret tt
   | _ :: _ =>
       ReportError token "Namespace directive must be declared before any member declarations"
   end) ;;;
  match Namespace_ unit with
  | Some _ =>
      ReportError token "Only one namespace declaration is allowed per compilation unit" ;;;
      Consume ;;;
      skip_until n TokenType.Semicolon ;;;
      consume_if_any ;;;
      pret unit
  | None =>
      pNamespace <- ReadNamespaceDeclaration ;;
      pret (mkUnit (Usings unit) (Members unit) (Some pNamespace))
  end.

Definition ReadUnitMember (unit : CompilationUnitSyntax) (token : SyntaxToken) :
    P CompilationUnitSyntax :=
  peek <- Peek 0 ;;
  if IsMemberDeclaration (Type_ token) (Type_ peek) then
    pMember <- members n SyntaxKind.CompilationUnit ;;
    match pMember with
    | None => SynchronizeToNextTopLevel ;;; pret unit
    | Some pMember => pret (mkUnit (Usings unit) (Members unit ++ [pMember]) (Namespace_ unit))
    end
  else
    ReportError token "Unknown token in compilation unit declaration" ;;;
    Consume ;;;
    pret unit.

(** The state of the loop is [loopGuard] and the unit. *)
Definition ReadCompilationUnit_loop : P CompilationUnitSyntax :=
  loop n (fun st : Z * CompilationUnitSyntax =>
    let (loopGuard, unit) := st in
    more <- CanConsume ;;
    if negb more then break_ unit else
    let loopGuard := loopGuard + 1 in
    if loopGuard_max <? loopGuard then
      ReportCurrent "Parser loop detected - aborting compilation unit" ;;;
      break_ unit
    else
      token <- Current ;;
      unit <-
        match Type_ token with
        | TokenType.UsingKeyword => ReadUnitUsing unit token
        | TokenType.NamespaceKeyword => ReadUnitNamespace unit token
        | _ => ReadUnitMember unit token
        end ;;
      continue_ (loopGuard, unit)) (0, mkUnit [] [] None).

Definition ReadCompilationUnit : P CompilationUnitSyntax :=
  pmodify (fun s => mkPState (tokens s) (Diagnostics s) 0 0 0 0) ;;;
  ReadCompilationUnit_loop.
End Units.

(** A parser before it reads: [SourceParser(diagnostics)] on a provider with
    the tokens [ts]. *)
Definition new_parser (ts : list SyntaxToken) : PState := mkPState ts [] 0 0 0 0.

(** [FromSourceProvider(syntaxTree, reader)]: the unit joins the tree. *)
Definition FromSourceProvider (n : nat) (tree : list CompilationUnitSyntax) :
    P (list CompilationUnitSyntax) :=
  unit <- ReadCompilationUnit n ;;
  pret (tree ++ [unit]).
