(* ===== verification/ParserFacts.v ===== *)
(** * The parser terminates: the judgement and the helpers

    [tot m s Q]: run in [s], [m] does not run out of fuel, and if it
    answers, its answer and final state satisfy [Q]; undefined behaviour is
    allowed.  Every function of the parser is specified with it and with
    [step s s']: the tokens ahead weigh no more, the three depth counters are
    back where they were and the diagnostics have only grown.  A token weighs
    one, and [>>] two because the parser may split it. *)
From Stdlib Require Import ZArith Lia Bool List String.
From stdpp Require Import base list.
From S2P Require Import Prelude Tokens SyntaxFacts SyntaxTree ParserState ParserTypes.
Import ListNotations SyntaxFacts.
Open Scope Z_scope.
Open Scope shard_scope.
Open Scope parser_scope.
Open Scope nat_scope.

(** ** Weight *)
Definition token_weight (t : SyntaxToken) : nat :=
  match Type_ t with TokenType.RightShiftOperator => 2 | _ => 1 end.

Definition weight (ts : list SyntaxToken) : nat :=
  fold_right (fun t w => token_weight t + w) 0 ts.

Definition pending (s : PState) : nat := weight (tokens s).
Definition cur (s : PState) : TokenType := Type_ (hd eof_token (tokens s)).

(** No token ahead has the type [EndOfFile], which only the end of the queue
    answers. *)
Definition no_eof (s : PState) : Prop :=
  List.Forall (fun t => Type_ t <> TokenType.EndOfFile) (tokens s).

Definition depths (s : PState) : Z * Z * Z :=
  (ExpressionDepth s, BlockDepth s, LinkedExpressionDepth s).

Record step (s s' : PState) : Prop := mk_step {
  step_pending : pending s' <= pending s;
  step_depths : depths s' = depths s;
  step_diagnostics : exists ds, Diagnostics s' = (Diagnostics s ++ ds)%list;
  step_no_eof : no_eof s -> no_eof s'
}.

Lemma step_refl s : step s s.
Proof. split; auto. exists []; rewrite app_nil_r; reflexivity. Qed.

Lemma step_trans s1 s2 s3 : step s1 s2 -> step s2 s3 -> step s1 s3.
Proof.
  intros [p1 d1 [l1 e1] n1] [p2 d2 [l2 e2] n2]; split; [lia|congruence| |auto].
  exists (l1 ++ l2)%list; rewrite e2, e1, app_assoc; reflexivity.
Qed.

Lemma token_weight_pos t : 1 <= token_weight t.
Proof. unfold token_weight; destruct (Type_ t); lia. Qed.

Lemma length_weight ts : length ts <= weight ts.
Proof.
  induction ts as [|t ts IH]; simpl; [lia|].
  pose proof (token_weight_pos t); lia.
Qed.

Lemma weight_length ts : weight ts <= 2 * length ts.
Proof.
  induction ts as [|t ts IH]; simpl; [lia|].
  unfold token_weight; destruct (Type_ t); lia.
Qed.

Lemma cur_nonempty s : cur s <> TokenType.EndOfFile -> tokens s <> [].
Proof. unfold cur; intros H E; rewrite E in H; apply H; reflexivity. Qed.

Lemma cur_no_eof s : no_eof s -> tokens s <> [] -> cur s <> TokenType.EndOfFile.
Proof.
  unfold cur, no_eof; destruct (tokens s) as [|t ts]; [congruence|].
  intros H _; inversion H; auto.
Qed.

(** ** The judgement *)
Definition tot {A} (m : P A) (s : PState) (Q : A -> PState -> Prop) : Prop :=
  match m s with
  | Some (Ok (a, s')) => Q a s'
  | Some UB => True
  | _ => False
  end.

Lemma tot_mono {A} (m : P A) s (Q R : A -> PState -> Prop) :
  tot m s Q -> (forall a s', Q a s' -> R a s') -> tot m s R.
Proof. unfold tot; destruct (m s) as [[[a s']|e|]|]; auto. Qed.

Lemma tot_and {A} (m : P A) s (Q R : A -> PState -> Prop) :
  tot m s Q -> tot m s R -> tot m s (fun a s' => Q a s' /\ R a s').
Proof. unfold tot; destruct (m s) as [[[a s']|e|]|]; auto. Qed.

Lemma tot_bind {A B} (m : P A) (k : A -> P B) s (Q : B -> PState -> Prop) :
  tot m s (fun a s' => tot (k a) s' Q) -> tot (pbind m k) s Q.
Proof.
  unfold tot, pbind; destruct (m s) as [[[a s']|e|]|]; simpl; auto.
Qed.

Lemma tot_call {A B} (m : P A) (k : A -> P B) s (Q : A -> PState -> Prop) (R : B -> PState -> Prop) :
  tot m s Q -> (forall a s', Q a s' -> tot (k a) s' R) -> tot (pbind m k) s R.
Proof. intros H HQ; apply tot_bind; eapply tot_mono; eauto. Qed.

Lemma tot_assoc {A B C} (m : P A) (k : A -> P B) (h : B -> P C) s Q :
  tot (pbind m (fun a => pbind (k a) h)) s Q -> tot (pbind (pbind m k) h) s Q.
Proof.
  unfold tot, pbind; destruct (m s) as [[[a s']|e|]|]; simpl; auto.
Qed.

Lemma tot_pret {A} (a : A) s (Q : A -> PState -> Prop) : Q a s -> tot (pret a) s Q.
Proof. auto. Qed.

Lemma tot_ret_bind {A B} (a : A) (k : A -> P B) s Q : tot (k a) s Q -> tot (pbind (pret a) k) s Q.
Proof. intros H; apply tot_bind; exact H. Qed.

Lemma tot_get {A B} (f : PState -> A) (k : A -> P B) s Q :
  (forall a, a = f s -> tot (k a) s Q) -> tot (pbind (pget f) k) s Q.
Proof. intros H; apply tot_bind, tot_pret, H; reflexivity. Qed.

Lemma tot_CanConsume {B} (k : bool -> P B) s Q :
  (tokens s <> [] -> tot (k true) s Q) -> (tokens s = [] -> tot (k false) s Q) ->
  tot (pbind CanConsume k) s Q.
Proof.
  intros Ht Hf; apply tot_get; intros a ->; destruct (tokens s) eqn:E; [auto|].
  apply Ht; rewrite ?E; discriminate.
Qed.

Lemma tot_at_type {B} X (k : bool -> P B) s Q :
  (cur s = X -> tot (k true) s Q) -> (cur s <> X -> tot (k false) s Q) ->
  tot (pbind (at_type X) k) s Q.
Proof.
  intros Ht Hf; unfold at_type; apply tot_assoc, tot_get; intros t ->; apply tot_ret_bind.
  change (Type_ (hd eof_token (tokens s))) with (cur s).
  destruct (TokenType.eqb_spec (cur s) X); auto.
Qed.

Lemma tot_more_at {B} X (k : bool -> P B) s Q :
  (cur s = X -> tokens s <> [] -> tot (k true) s Q) -> tot (k false) s Q ->
  tot (pbind (more_at X) k) s Q.
Proof.
  intros Ht Hf; unfold more_at; apply tot_assoc, tot_CanConsume; intros Hn; cbn [negb].
  - apply tot_at_type; auto.
  - apply tot_ret_bind; exact Hf.
Qed.

Lemma tot_more_not {B} X (k : bool -> P B) s Q :
  (cur s <> X -> tokens s <> [] -> tot (k true) s Q) -> tot (k false) s Q ->
  tot (pbind (more_not X) k) s Q.
Proof.
  intros Ht Hf; unfold more_not; apply tot_assoc, tot_CanConsume; intros Hn; cbn [negb].
  - apply tot_assoc, tot_at_type; intros E; apply tot_ret_bind; auto.
  - apply tot_ret_bind; exact Hf.
Qed.

Lemma tot_undefined {A} s (Q : A -> PState -> Prop) : tot pundefined s Q.
Proof. exact I. Qed.

(** A loop whose measure decreases when it goes on. *)
Lemma tot_loop {X R} (inv : X -> PState -> Prop) (mu : X -> PState -> nat)
    (body : X -> P (X + R)) (Q : R -> PState -> Prop) :
  (forall x s, inv x s ->
     tot (body x) s (fun r s' => match r with
                                 | inl x' => inv x' s' /\ mu x' s' < mu x s
                                 | inr r => Q r s'
                                 end)) ->
  forall n x s, inv x s -> mu x s < n -> tot (loop n body x) s Q.
Proof.
  intros Hb; induction n as [|n IH]; intros x s Hi Hm; [lia|]; cbn [loop].
  eapply tot_call; [apply Hb, Hi|]; intros [x'|r] s' H; cbn beta iota in H |- *.
  - destruct H as [Hi' Hlt]; apply IH; [exact Hi'|lia].
  - exact H.
Qed.

(** ** Primitive operations *)
Definition after {A} (s : PState) (_ : A) (s' : PState) : Prop := step s s'.
Definition consumes {A} (s : PState) (_ : A) (s' : PState) : Prop :=
  step s s' /\ pending s' < pending s.

Lemma tot_Consume s : tot Consume s (fun _ s' =>
  step s s' /\ tokens s' = tl (tokens s) /\ (tokens s <> [] -> pending s' < pending s)).
Proof.
  unfold tot, Consume, pmodify, done.
  assert (Hle : weight (tl (tokens s)) <= weight (tokens s)) by
    (destruct (tokens s); simpl; lia).
  assert (Hw : tokens s <> [] -> weight (tl (tokens s)) < weight (tokens s)).
  { destruct (tokens s) as [|t ts]; [congruence|]; intros _; simpl.
    pose proof (token_weight_pos t); lia. }
  repeat split; auto.
  - exists []; cbn; rewrite app_nil_r; reflexivity.
  - unfold no_eof; cbn; destruct (tokens s); cbn; [auto|]; intros H; inversion H; auto.
Qed.

Lemma tot_ReportError t m s : tot (ReportError t m) s (fun _ s' =>
  step s s' /\ tokens s' = tokens s).
Proof.
  cbn; repeat split; try exact (fun H => H).
  - apply le_n.
  - exists [mkDiagnostic t m]; reflexivity.
Qed.

Lemma tot_ReportCurrent m s : tot (ReportCurrent m) s (fun _ s' =>
  step s s' /\ tokens s' = tokens s).
Proof. unfold ReportCurrent; apply tot_get; intros t _; apply tot_ReportError. Qed.

Lemma tot_operators f s : tot (set_OperatorsInExpression f) s (fun _ s' =>
  step s s' /\ tokens s' = tokens s).
Proof.
  cbn; repeat split; try exact (fun H => H).
  - apply le_n.
  - exists []; cbn; rewrite app_nil_r; reflexivity.
Qed.

Lemma triple_eq (a b c a' b' c' : Z) : a = a' -> b = b' -> c = c' -> (a, b, c) = (a', b', c').
Proof. congruence. Qed.

(** The counter of a guard is one more inside, and as before after. *)
Definition is_guard (set : (Z -> Z) -> P unit) : Prop :=
  set = set_ExpressionDepth \/ set = set_BlockDepth \/ set = set_LinkedExpressionDepth.

Lemma tot_guarded {A} set (body : P A) s (Q : A -> PState -> Prop) : is_guard set ->
  (forall s1, tokens s1 = tokens s ->
     tot body s1 (fun a s2 => step s1 s2 /\
       forall s', tokens s' = tokens s2 -> step s s' -> Q a s')) ->
  tot (guarded_by set body) s Q.
Proof.
  intros G H; unfold guarded_by.
  destruct G as [->|[->| ->]]; unfold tot, pbind, pmodify; cbn;
    (match goal with |- context [body ?s1] => specialize (H s1 eq_refl) end);
    unfold tot in H; destruct (body _) as [[[a s2]|e|]|]; cbn; auto;
    destruct H as [[Hp Hd [ds He] Hn] HQ]; (apply HQ; [reflexivity|]);
    pose proof (f_equal (fun d => fst (fst d)) Hd) as Hd1;
    pose proof (f_equal (fun d => snd (fst d)) Hd) as Hd2;
    pose proof (f_equal snd Hd) as Hd3; cbn in Hd1, Hd2, Hd3;
    (split; [exact Hp|apply triple_eq; cbn; lia|exists ds; exact He|exact Hn]).
Qed.

(** ** The automation

    [tokens_known] derives that there is a token ahead from what is known of
    its type; [run] walks through a function, applying the lemmas of the hint
    database [parser] to the calls. *)
Create HintDb parser.
#[export] Hint Resolve tot_Consume tot_ReportError tot_ReportCurrent tot_operators : parser.

Lemma cur_same s s' : tokens s' = tokens s -> cur s' = cur s.
Proof. unfold cur; congruence. Qed.
Lemma pending_same s s' : tokens s' = tokens s -> pending s' = pending s.
Proof. unfold pending; congruence. Qed.

Ltac weigh :=
  repeat match goal with
  | H : step ?a ?b |- _ =>
      lazymatch goal with
      | _ : pending b <= pending a |- _ => fail
      | _ => let W := fresh "W" in pose proof (step_pending a b H) as W
      end
  | H : tokens ?b = tokens ?a |- _ =>
      lazymatch goal with
      | _ : pending b = pending a |- _ => fail
      | _ =>
          let W := fresh "W" in pose proof (pending_same a b H) as W;
          let W' := fresh "W" in pose proof (cur_same a b H) as W'
      end
  end.

Ltac ahead :=
  lazymatch goal with
  | |- tokens ?s <> [] =>
      first [ assumption
            | apply cur_nonempty; congruence
            | match goal with H : tokens s = tokens ?s0 |- _ => rewrite H; ahead end ]
  end.

Ltac steps :=
  match goal with
  | |- step ?s ?s => apply step_refl
  | H : step ?a ?s' |- step ?s ?s' => apply (step_trans _ a _); [steps|exact H]
  end.

(** Uses what a conditional fact says once its premises hold. *)
Ltac discharge :=
  repeat match goal with
  | H : tokens ?s <> [] -> _ |- _ => specialize (H ltac:(ahead))
  | H : ?x = ?x -> _ |- _ => specialize (H eq_refl)
  | H : _ /\ _ |- _ => destruct H
  | H : after _ _ _ |- _ => unfold after in H
  | H : consumes _ _ _ |- _ => unfold consumes in H
  end.

Ltac arith := discharge; weigh; lia.

Lemma tot_Current {B} (k : SyntaxToken -> P B) s Q :
  (forall t, Type_ t = cur s -> tot (k t) s Q) -> tot (pbind Current k) s Q.
Proof. intros H; apply tot_get; intros t ->; apply H; reflexivity. Qed.

(** How the premise of a recursive call is proved. *)
Ltac side := arith.

Ltac spec :=
  first [ solve [auto with parser]
        | match goal with H : forall _, _ |- tot _ _ _ => solve [eapply H; side] end ].

Ltac split_on b :=
  lazymatch b with
  | negb ?c => split_on c
  | ?x =tt ?y => destruct (TokenType.eqb_spec x y)
  | _ => destruct b eqn:?
  end.

Ltac run1 :=
  cbn beta iota;
  lazymatch goal with
  | |- tot (pbind (pbind _ _) _) _ _ => apply tot_assoc
  | |- tot (pbind (pret _) _) _ _ => apply tot_ret_bind
  | |- tot (pbind (continue_ _) _) _ _ => apply tot_ret_bind
  | |- tot (pbind (break_ _) _) _ _ => apply tot_ret_bind
  | |- tot (pbind CanConsume _) _ _ => apply tot_CanConsume; intros; cbn [negb]
  | |- tot (pbind Current _) _ _ => apply tot_Current; intros
  | |- tot (pbind (at_type _) _) _ _ => apply tot_at_type; intros; cbn [negb]
  | |- tot (pbind (more_at _) _) _ _ => apply tot_more_at; intros; cbn [negb]
  | |- tot (pbind (more_not _) _) _ _ => apply tot_more_not; intros; cbn [negb]
  | |- tot (pbind (pget _) _) _ _ => apply tot_get; intros
  | |- tot (pbind (Peek _) _) _ _ => apply tot_get; intros
  | |- tot (pbind CanPeek _) _ _ => apply tot_get; intros
  | |- tot (pbind (if ?b then _ else _) _) _ _ => split_on b; cbn [negb]
  | |- tot (pbind (match ?x with _ => _ end) _) _ _ => destruct x eqn:?
  | |- tot (pbind _ _) _ _ =>
      first [ eapply tot_call; [spec|intros; cbn beta in *; discharge; weigh]
            | exfalso; congruence ]
  | |- tot (pret _) _ _ => apply tot_pret
  | |- tot (continue_ _) _ _ => apply tot_pret
  | |- tot (break_ _) _ _ => apply tot_pret
  | |- tot pundefined _ _ => exact I
  | |- tot (if ?b then _ else _) _ _ => split_on b; cbn [negb]
  | |- tot (match ?x with _ => _ end) _ _ => destruct x eqn:?
  | |- tot (let _ := _ in _) _ _ => cbv zeta
  | |- tot _ _ _ =>
      first [ eapply tot_mono; [spec|intros; cbn beta in *; discharge; weigh]
            | exfalso; congruence ]
  end.

Ltac close :=
  unfold after, consumes; cbn beta iota; cbn [fst snd];
  repeat match goal with |- _ /\ _ => split end;
  first [ assumption | steps | lia | congruence | ahead | auto ].

Ltac run := repeat run1; close.

(** ** Error recovery *)
Lemma one_of_In l X : one_of l X = true <-> In X l.
Proof.
  unfold one_of; rewrite existsb_exists; split.
  - intros (y & Hy & E); destruct (TokenType.eqb_spec X y); congruence.
  - intros H; exists X; split; [exact H|]; destruct (TokenType.eqb_spec X X); congruence.
Qed.

Lemma tot_TrySynchronize l k : forall s, tot (TrySynchronize l k) s (fun b s' =>
  step s s' /\
  (b = true -> one_of l (cur s') = true /\ tokens s' <> []) /\
  (tokens s <> [] -> k <> 0 -> one_of l (cur s) = false ->
   IsSynchronizationToken (cur s) = false -> pending s' < pending s) /\
  (b = true -> one_of l (cur s) = false -> pending s' < pending s)).
Proof.
  induction k as [|k IH]; intros s; cbn [TrySynchronize].
  - apply tot_pret; split; [apply step_refl|]; repeat split; congruence.
  - apply tot_CanConsume; intros Hn; cbn [negb].
    + apply tot_Current; intros t Ht; rewrite Ht.
      destruct (one_of l (cur s)) eqn:E1.
      { apply tot_pret; split; [apply step_refl|]; repeat split; congruence. }
      destruct (IsSynchronizationToken (cur s)) eqn:E2.
      { apply tot_pret; split; [apply step_refl|]; repeat split; congruence. }
      eapply tot_call; [apply tot_Consume|]; intros _ s1 (H1 & _ & H2).
      eapply tot_mono; [apply IH|]; intros b s2 (H3 & H4 & _).
      discharge; weigh; split; [steps|]; split; [exact H4|]; split; intros; lia.
    + apply tot_pret; split; [apply step_refl|]; repeat split; congruence.
Qed.
#[export] Hint Resolve tot_TrySynchronize : parser.

(** [Expect] takes a token when the one ahead is expected or may be
    skipped; its answer always has the expected type. *)
Lemma tot_Expect X m s : tot (Expect X m) s (fun t s' =>
  step s s' /\ Type_ t = X /\
  (tokens s <> [] -> cur s = X \/ IsSynchronizationToken (cur s) = false ->
   pending s' < pending s)).
Proof.
  unfold Expect; apply tot_CanConsume; intros Hn; cbn [negb].
  - apply tot_Current; intros t Ht.
    destruct (TokenType.eqb_spec (Type_ t) X) as [E|E].
    { eapply tot_call; [apply tot_Consume|]; intros _ s1 (H1 & _ & H2).
      apply tot_pret; split; [exact H1|]; split; [exact E|]; intros _ _; exact (H2 Hn). }
    eapply tot_call; [apply tot_ReportError|]; intros _ s1 (H1 & E1).
    eapply tot_call; [apply tot_TrySynchronize|]; intros b s2 (H2 & H3 & H4 & _).
    weigh.
    assert (Hlt : cur s = X \/ IsSynchronizationToken (cur s) = false -> pending s2 < pending s).
    { intros [Ec|Ec]; [congruence|]; replace (pending s) with (pending s1); apply H4; auto.
      - rewrite E1; exact Hn.
      - rewrite (cur_same _ _ E1), <- Ht; unfold one_of, existsb.
        destruct (TokenType.eqb_spec (Type_ t) X); [congruence|reflexivity].
      - congruence. }
    destruct b.
    + destruct (H3 eq_refl) as [Hin Hne].
      apply tot_Current; intros t2 Ht2.
      eapply tot_call; [apply tot_Consume|]; intros _ s3 (H5 & _ & H6).
      apply tot_pret; split; [steps|]; split.
      * apply one_of_In in Hin; destruct Hin as [Eh|[]]; congruence.
      * intros _ Hc; specialize (Hlt Hc); specialize (H6 Hne); lia.
    + apply tot_pret; split; [steps|]; split; [reflexivity|]; auto.
  - eapply tot_call; [apply tot_ReportError|]; intros _ s1 (H1 & _).
    apply tot_pret; split; [exact H1|]; split; [reflexivity|congruence].
Qed.

(** What was skipped shows in the weight. *)
Definition moved {A} (s : PState) (_ : A) (s' : PState) : Prop :=
  step s s' /\ (pending s' < pending s \/ tokens s' = tokens s).

Lemma tot_TrySynchronize_moved l k : forall s, tot (TrySynchronize l k) s (moved s).
Proof.
  induction k as [|k IH]; intros s; cbn [TrySynchronize].
  - apply tot_pret; split; [apply step_refl|auto].
  - apply tot_CanConsume; intros Hn; cbn [negb].
    + apply tot_Current; intros t Ht.
      destruct (one_of l (Type_ t)), (IsSynchronizationToken (Type_ t));
        try (apply tot_pret; split; [apply step_refl|auto]).
      eapply tot_call; [apply tot_Consume|]; intros _ s1 (H1 & _ & H2).
      eapply tot_mono; [apply IH|]; intros b s2 (H3 & _).
      discharge; weigh; split; [steps|left; lia].
    + apply tot_pret; split; [apply step_refl|auto].
Qed.

Lemma tot_Expect_moved X m s : tot (Expect X m) s (moved s).
Proof.
  unfold Expect; apply tot_CanConsume; intros Hn; cbn [negb].
  - apply tot_Current; intros t Ht; destruct (Type_ t =tt X).
    { eapply tot_call; [apply tot_Consume|]; intros _ s1 (H1 & _ & H2).
      apply tot_pret; split; [exact H1|left; exact (H2 Hn)]. }
    eapply tot_call; [apply tot_ReportError|]; intros _ s1 (H1 & E1).
    eapply tot_call; [apply tot_TrySynchronize_moved|]; intros b s2 (H2 & H3); weigh.
    assert (H4 : pending s2 < pending s \/ tokens s2 = tokens s)
      by (destruct H3; [left; lia|right; congruence]).
    destruct b; [|apply tot_pret; split; [steps|exact H4]].
    apply tot_Current; intros t2 Ht2.
    eapply tot_call; [apply tot_Consume|]; intros _ s3 (H5 & _ & H6); apply tot_pret.
    split; [steps|]; left; weigh; destruct H4 as [H4|H4]; [lia|].
    specialize (H6 ltac:(rewrite H4; exact Hn)); lia.
  - eapply tot_call; [apply tot_ReportError|]; intros _ s1 (H1 & E1).
    apply tot_pret; split; [exact H1|right; exact E1].
Qed.

(** The two ways it is used: on any token, and on one that is there. *)
Lemma tot_Expect_any X m s : tot (Expect X m) s (fun t s' => step s s' /\ Type_ t = X).
Proof. eapply tot_mono; [apply tot_Expect|]; intros t s' (H1 & H2 & _); auto. Qed.

Lemma tot_Expect_here X m s : X <> TokenType.EndOfFile -> cur s = X ->
  tot (Expect X m) s (fun t s' => step s s' /\ Type_ t = X /\ pending s' < pending s).
Proof.
  intros HX E; eapply tot_mono; [apply tot_Expect|]; intros t s' (H1 & H2 & H3).
  split; [exact H1|]; split; [exact H2|]; apply H3; [apply cur_nonempty; congruence|auto].
Qed.
#[export] Hint Extern 1 (tot (Expect _ _) _ _) =>
  (apply tot_Expect_here; [discriminate|congruence]) : parser.
#[export] Hint Extern 2 (tot (Expect _ _) _ _) => apply tot_Expect_any : parser.

Lemma tot_Matches {B} l (k : bool -> P B) s Q :
  tot (k (match tokens s with [] => false | _ => one_of l (cur s) end)) s Q ->
  tot (pbind (Matches l) k) s Q.
Proof.
  intros H; unfold Matches; apply tot_assoc, tot_CanConsume; intros Hn; cbn [negb].
  - apply tot_assoc, tot_Current; intros t Ht; apply tot_ret_bind; rewrite Ht.
    destruct (tokens s); [congruence|exact H].
  - apply tot_ret_bind; rewrite Hn in H; exact H.
Qed.

Lemma tot_TryMatch l m k s : tot (TryMatch l m k) s (fun b s' =>
  step s s' /\ (b = true -> one_of l (cur s') = true /\ tokens s' <> []) /\
  (b = true -> one_of l (cur s) = false -> pending s' < pending s) /\
  (tokens s <> [] -> k <> 0 -> one_of l (cur s) = false ->
   IsSynchronizationToken (cur s) = false -> pending s' < pending s)).
Proof.
  unfold TryMatch; apply tot_CanConsume; intros Hn; cbn [negb].
  - apply tot_Matches; destruct (tokens s) as [|t0 ts0] eqn:E0; [congruence|].
    destruct (one_of l (cur s)) eqn:E.
    { apply tot_pret; split; [apply step_refl|]; repeat split; congruence. }
    eapply (tot_call _ _ _ (fun _ s' => step s s' /\ tokens s' = tokens s)).
    { destruct m; [apply tot_ReportCurrent|apply tot_pret; split; [apply step_refl|reflexivity]]. }
    intros _ s1 (H1 & E1); weigh.
    eapply tot_mono; [apply tot_TrySynchronize|]; intros b s2 (H2 & H3 & H4 & H5).
    split; [steps|]; split; [exact H3|]; split.
    + intros Hb _; specialize (H5 Hb); lapply H5; [lia|congruence].
    + intros _ Hk _ Hsy; assert (pending s2 < pending s1); [|lia].
      apply H4; try congruence; rewrite E1, E0; discriminate.
  - apply tot_pret; split; [apply step_refl|]; repeat split; congruence.
Qed.
#[export] Hint Resolve tot_TryMatch : parser.

Lemma tot_TryMatch_moved l m k s : tot (TryMatch l m k) s (moved s).
Proof.
  unfold TryMatch; apply tot_CanConsume; intros Hn; cbn [negb].
  - apply tot_Matches; destruct (tokens s) as [|t0 ts0] eqn:E0; [congruence|].
    destruct (one_of l (cur s)); [apply tot_pret; split; [apply step_refl|auto]|].
    eapply (tot_call _ _ _ (fun _ s' => step s s' /\ tokens s' = tokens s)).
    { destruct m; [apply tot_ReportCurrent|apply tot_pret; split; [apply step_refl|reflexivity]]. }
    intros _ s1 (H1 & E1); weigh.
    eapply tot_mono; [apply tot_TrySynchronize_moved|]; intros b s2 (H2 & H3); weigh.
    split; [steps|]; destruct H3; [left; lia|right; congruence].
  - apply tot_pret; split; [apply step_refl|auto].
Qed.

Lemma tot_TryMatchIdentifier k s : tot (TryMatchIdentifier k) s (fun b s' =>
  step s s' /\ (b = true -> cur s' = TokenType.Identifier)).
Proof.
  unfold TryMatchIdentifier; apply tot_CanConsume; intros Hn; cbn [negb].
  - apply tot_Current; intros t Ht.
    destruct (TokenType.eqb_spec (Type_ t) TokenType.Identifier) as [E|E].
    { apply tot_pret; split; [apply step_refl|congruence]. }
    destruct (IsReservedIdentifier (Type_ t)).
    { eapply tot_call; [apply tot_ReportError|]; intros _ s1 (H1 & _).
      apply tot_pret; split; [exact H1|congruence]. }
    eapply tot_mono; [apply tot_TrySynchronize|]; intros b s2 (H2 & H3 & _); split; [exact H2|].
    intros Hb; destruct (H3 Hb) as [Hi _]; apply one_of_In in Hi; destruct Hi as [Eh|[]]; auto.
  - apply tot_pret; split; [apply step_refl|congruence].
Qed.
#[export] Hint Resolve tot_TryMatchIdentifier : parser.

Lemma tot_separator X m s : tot (separator X m) s (fun r s' =>
  step s s' /\ match r with
               | Some t => pending s' < pending s
               | None => True
               end).
Proof.
  unfold separator; eapply tot_call; [apply tot_TryMatch|]; intros b s1 (H1 & H2 & _).
  destruct b; cbn [negb]; [|apply tot_pret; auto].
  destruct (H2 eq_refl) as [_ Hne]; apply tot_Current; intros t _.
  eapply tot_call; [apply tot_Consume|]; intros _ s2 (H3 & _ & H4); apply tot_pret.
  specialize (H4 Hne); weigh; split; [steps|lia].
Qed.
#[export] Hint Resolve tot_separator : parser.

Lemma tot_skip_until X n s : pending s < n -> tot (skip_until n X) s (fun _ s' => step s s').
Proof.
  intros Hn; unfold skip_until.
  apply (tot_loop (fun _ s1 => step s s1) (fun _ s1 => pending s1)); [|apply step_refl|exact Hn].
  intros _ s1 H1; run.
Qed.

Lemma tot_consume_if_any s : tot consume_if_any s (fun _ s' => step s s').
Proof. unfold consume_if_any; run. Qed.
#[export] Hint Resolve tot_consume_if_any : parser.
#[export] Hint Extern 1 (tot (skip_until _ _) _ _) => (apply tot_skip_until; arith) : parser.
