(* ===== verification/ParserTotal.v ===== *)
(** * The parser terminates: types and lists

    The functions of the file ParserTypes answer on every queue of tokens
    when their fuel is at least a multiple of its weight. *)
From Stdlib Require Import ZArith Lia Bool List String.
From stdpp Require Import base list.
From S2P Require Import Prelude Tokens SyntaxFacts SyntaxTree ParserState ParserTypes ParserFacts.
Import ListNotations SyntaxFacts.
Open Scope Z_scope.
Open Scope shard_scope.
Open Scope parser_scope.
Open Scope nat_scope.

(** The tokens a type begins with. *)
Definition starts_type (X : TokenType) : bool :=
  IsPredefinedType X || (X =tt TokenType.DelegateKeyword) || (X =tt TokenType.Identifier).

Lemma starts_type_nonempty s : starts_type (cur s) = true -> tokens s <> [].
Proof. intros H; apply cur_nonempty; intros E; rewrite E in H; discriminate. Qed.

Lemma predefined_nonempty s : IsPredefinedType (cur s) = true -> tokens s <> [].
Proof. intros H; apply cur_nonempty; intros E; rewrite E in H; discriminate. Qed.

Lemma tot_split_shift t s : cur s = TokenType.RightShiftOperator ->
  tot (split_shift t) s (fun _ s' => step s s' /\ pending s' < pending s).
Proof.
  intros E; unfold split_shift, tot, pbind, Consume, PutBackToken, pmodify, pret, done; simpl.
  unfold cur, pending in *; cbn [tokens set_tokens].
  assert (Hw : weight (made TokenType.GreaterOperator ">" (Location t) false :: tl (tokens s))
               < weight (tokens s)).
  { destruct (tokens s) as [|t0 ts]; [discriminate|].
    change (weight (t0 :: ts)) with (token_weight t0 + weight ts).
    unfold token_weight; cbn in E; rewrite E; cbn; fold (weight ts); lia. }
  split; [|exact Hw]; split; try reflexivity.
  - exact (Nat.lt_le_incl _ _ Hw).
  - exists []; rewrite app_nil_r; reflexivity.
  - unfold no_eof; cbn; intros H; constructor; [discriminate|].
    destruct (tokens s); [constructor|inversion H; assumption].
Qed.
#[export] Hint Extern 1 (tot (split_shift _) _ _) => (apply tot_split_shift; congruence) : parser.

(** The loop of a bracketed list: each round but the last takes a
    separator. *)
Lemma tot_list_loop {X R} (body : X -> P (X + R)) n s (Q : R -> PState -> Prop) x :
  (forall x s1, step s s1 ->
     tot (body x) s1 (fun r s' => match r with
                                  | inl _ => step s s' /\ pending s' < pending s1
                                  | inr r => Q r s'
                                  end)) ->
  pending s < n -> tot (loop n body x) s Q.
Proof.
  intros H Hn; apply (tot_loop (fun _ s1 => step s s1) (fun _ s1 => pending s1));
    [exact H|apply step_refl|exact Hn].
Qed.

Section Types.
Context (n : nat) (g : TypeParsers).
Context (HT : forall allow s, 2 * pending s + 4 <= n ->
  tot (call_ReadType g allow) s (fun _ s' =>
    step s s' /\ (starts_type (cur s) = true -> pending s' < pending s))).
Context (HM : forall t allow s, 2 * pending s + 3 <= n ->
  tot (call_ReadModifiedType g t allow) s (fun _ s' => step s s')).

Lemma tot_ReadTypeArgumentsList_loop s : 2 * pending s + 4 <= n ->
  tot (ReadTypeArgumentsList_loop n g) s (fun _ s' => step s s').
Proof.
  intros Hn; apply tot_list_loop; [|lia]; intros ts s1 H1; weigh; run.
Qed.
Hint Extern 1 (tot (ReadTypeArgumentsList_loop _ _) _ _) =>
  (apply tot_ReadTypeArgumentsList_loop; arith) : parser.

Lemma tot_ReadTypeArgumentsList s : 2 * pending s + 4 <= n ->
  tot (ReadTypeArgumentsList n g) s (fun _ s' => step s s').
Proof. intros Hn; unfold ReadTypeArgumentsList; run. Qed.

Lemma tot_ReadTypeArgumentsList_here s : 2 * pending s + 2 <= n ->
  cur s = TokenType.LessOperator ->
  tot (ReadTypeArgumentsList n g) s (fun _ s' => step s s' /\ pending s' < pending s).
Proof. intros Hn E; unfold ReadTypeArgumentsList; run. Qed.
Hint Extern 1 (tot (ReadTypeArgumentsList _ _) _ _) =>
  (apply tot_ReadTypeArgumentsList_here; [arith|congruence]) : parser.

Lemma tot_ReadDelegateParametersList_loop s : 2 * pending s + 4 <= n ->
  tot (ReadDelegateParametersList_loop n g) s (fun _ s' => step s s').
Proof.
  intros Hn; apply tot_list_loop; [|lia]; intros ts s1 H1; weigh; run.
Qed.
Hint Extern 1 (tot (ReadDelegateParametersList_loop _ _) _ _) =>
  (apply tot_ReadDelegateParametersList_loop; arith) : parser.

Lemma tot_ReadDelegateParametersList s : 2 * pending s + 4 <= n ->
  tot (ReadDelegateParametersList n g) s (fun _ s' => step s s').
Proof. intros Hn; unfold ReadDelegateParametersList; run. Qed.
Hint Extern 1 (tot (ReadDelegateParametersList _ _) _ _) =>
  (apply tot_ReadDelegateParametersList; arith) : parser.

Lemma tot_ReadModifiedType_body t allow s : 2 * pending s + 2 <= n ->
  tot (ReadModifiedType n g t allow) s (fun _ s' => step s s').
Proof.
  intros Hn; unfold ReadModifiedType, ReadArrayType, ReadGenericType; run.
Qed.

Lemma tot_ReadType_body allow s : 2 * pending s + 3 <= n ->
  tot (ReadType n g allow) s (fun _ s' =>
    step s s' /\ (starts_type (cur s) = true -> pending s' < pending s)).
Proof.
  intros Hn; unfold ReadType, ReadDelegateType, ReadIdentifierNameType.
  apply tot_Current; intros t Ht; rewrite Ht; unfold starts_type.
  destruct (IsPredefinedType (cur s)) eqn:E1.
  { pose proof (predefined_nonempty s E1); run. }
  run; destruct (TokenType.eqb_spec (cur s) TokenType.DelegateKeyword), 
    (TokenType.eqb_spec (cur s) TokenType.Identifier); try discriminate; try congruence; lia.
Qed.
End Types.

(** Fuel twice the weight, and a little more, is enough for a type. *)
Lemma types_total n :
  (forall allow s, 2 * pending s + 4 <= n ->
     tot (call_ReadType (types n) allow) s (fun _ s' =>
       step s s' /\ (starts_type (cur s) = true -> pending s' < pending s))) /\
  (forall t allow s, 2 * pending s + 3 <= n ->
     tot (call_ReadModifiedType (types n) t allow) s (fun _ s' => step s s')).
Proof.
  induction n as [|n [IHT IHM]]; [split; intros; lia|]; cbn [types].
  cbv zeta; cbn [call_ReadType call_ReadModifiedType]; split.
  - intros allow s Hn; apply tot_ReadType_body; [exact IHT|exact IHM|lia].
  - intros t allow s Hn; apply tot_ReadModifiedType_body; [exact IHT|exact IHM|lia].
Qed.

Lemma tot_read_type n allow s : 2 * pending s + 4 <= n ->
  tot (read_type n allow) s (fun _ s' =>
    step s s' /\ (starts_type (cur s) = true -> pending s' < pending s)).
Proof. apply (proj1 (types_total n)). Qed.
#[export] Hint Extern 1 (tot (read_type _ _) _ _) => (apply tot_read_type; arith) : parser.

Lemma tot_read_type_arguments n s : 2 * pending s + 4 <= n -> cur s = TokenType.LessOperator ->
  tot (read_type_arguments n) s (fun _ s' => step s s' /\ pending s' < pending s).
Proof.
  intros Hn E; unfold read_type_arguments; destruct (types_total n) as [HT HM].
  apply tot_ReadTypeArgumentsList_here; [exact HT|lia|exact E].
Qed.
#[export] Hint Extern 1 (tot (read_type_arguments _) _ _) =>
  (apply tot_read_type_arguments; [arith|congruence]) : parser.

(** ** Parameters, type parameters, constraints *)
Lemma tot_ReadIndexerParameterName s :
  tot ReadIndexerParameterName s (fun _ s' => step s s').
Proof. unfold ReadIndexerParameterName; run. Qed.
Lemma tot_ReadParameterName s : tot ReadParameterName s (fun _ s' => step s s').
Proof. unfold ReadParameterName; run. Qed.
#[export] Hint Resolve tot_ReadIndexerParameterName tot_ReadParameterName : parser.

Section Lists.
Context (n : nat).

Lemma tot_ReadParameters_loop name closer m s :
  (forall s1, tot name s1 (fun _ s' => step s1 s')) -> 2 * pending s + 4 <= n ->
  tot (ReadParameters_loop n name closer m) s (fun _ s' => step s s').
Proof.
  intros Hname Hn; apply tot_list_loop; [|lia]; intros ps s1 H1; weigh.
  run1; [|run]; eapply tot_call; [apply Hname|]; intros r s2 H2; weigh; run.
Qed.
Hint Extern 1 (tot (ReadParameters_loop _ _ _ _) _ _) =>
  (apply tot_ReadParameters_loop; [auto with parser|arith]) : parser.

Lemma tot_ReadIndexerParametersList s : 2 * pending s + 4 <= n ->
  tot (ReadIndexerParametersList n) s (fun _ s' => step s s').
Proof. intros Hn; unfold ReadIndexerParametersList; run. Qed.

Lemma tot_ReadParametersList s : 2 * pending s + 4 <= n ->
  tot (ReadParametersList n) s (fun _ s' => step s s').
Proof. intros Hn; unfold ReadParametersList; run. Qed.

Lemma tot_ReadTypeParametersList s : 2 * pending s + 4 <= n ->
  tot (ReadTypeParametersList n) s (fun _ s' => step s s').
Proof.
  intros Hn; unfold ReadTypeParametersList.
  assert (Hl : forall s1, pending s1 < n ->
    tot (ReadTypeParametersList_loop n) s1 (fun _ s' => step s1 s')).
  { intros s1 H1; apply tot_list_loop; [|exact H1]; intros ts s2 H2; weigh; run. }
  run.
Qed.

Lemma tot_ReadWhereClause_loop s : 2 * pending s + 4 <= n ->
  tot (ReadWhereClause_loop n) s (fun _ s' => step s s').
Proof.
  intros Hn; apply tot_list_loop; [|lia]; intros ts s1 H1; weigh; run.
Qed.
Hint Extern 1 (tot (ReadWhereClause_loop _) _ _) =>
  (apply tot_ReadWhereClause_loop; arith) : parser.

Lemma tot_ReadWhereClause s : 2 * pending s + 4 <= n ->
  cur s = TokenType.WhereKeyword ->
  tot (ReadWhereClause n) s (fun _ s' => step s s' /\ pending s' < pending s).
Proof. intros Hn E; unfold ReadWhereClause; run. Qed.
Hint Extern 1 (tot (ReadWhereClause _) _ _) =>
  (apply tot_ReadWhereClause; [arith|congruence]) : parser.

Lemma tot_ReadWhereClauses s : 2 * pending s + 4 <= n ->
  tot (ReadWhereClauses n) s (fun _ s' => step s s').
Proof.
  intros Hn; apply tot_list_loop; [|lia]; intros ts s1 H1; weigh; run.
Qed.

Lemma tot_ReadBaseInterfacesList s : 2 * pending s + 4 <= n ->
  tot (ReadBaseInterfacesList n) s (fun _ s' => step s s').
Proof.
  intros Hn; apply tot_list_loop; [|lia]; intros ts s1 H1; weigh; run.
Qed.
End Lists.
#[export] Hint Extern 1 (tot (ReadIndexerParametersList _) _ _) =>
  (apply tot_ReadIndexerParametersList; arith) : parser.
#[export] Hint Extern 1 (tot (ReadParametersList _) _ _) =>
  (apply tot_ReadParametersList; arith) : parser.
#[export] Hint Extern 1 (tot (ReadTypeParametersList _) _ _) =>
  (apply tot_ReadTypeParametersList; arith) : parser.
#[export] Hint Extern 1 (tot (ReadWhereClauses _) _ _) =>
  (apply tot_ReadWhereClauses; arith) : parser.
#[export] Hint Extern 1 (tot (ReadBaseInterfacesList _) _ _) =>
  (apply tot_ReadBaseInterfacesList; arith) : parser.
