(* ===== verification/ParserTotalCode.v ===== *)
(** * The parser terminates: expressions and statements

    With [c] beyond the bound of the loop guards, fuel eight times the
    weight of the tokens ahead plus [c] and a few units for the chain of
    calls that take no token is enough for [parsers]. *)
From Stdlib Require Import ZArith Lia Bool List String.
From stdpp Require Import base list.
From S2P Require Import Prelude Tokens SyntaxFacts SyntaxTree ParserState ParserTypes ParserExpr ParserStmt ParserFacts ParserTotal.
Import ListNotations SyntaxFacts.
Open Scope Z_scope.
Open Scope shard_scope.
Open Scope parser_scope.
Open Scope nat_scope.

(** What reading an expression does to the tokens: it takes one, unless the
    chain of members is too deep to start another. *)
Definition progress {A} (s : PState) (_ : A) (s' : PState) : Prop :=
  step s s' /\ (no_eof s -> tokens s <> [] ->
    pending s' < pending s \/ (tokens s' = tokens s /\ one_of linked_start (cur s) = true)).

Lemma progress_step {A} s (a : A) s' : progress s a s' -> step s s'.
Proof. intros [H _]; exact H. Qed.

Lemma linked_start_precedence X : one_of linked_start X = true -> GetOperatorPrecendence X = 0%Z.
Proof. destruct X; first [reflexivity|discriminate]. Qed.

Lemma linked_start_skipped X : one_of linked_start X = true ->
  IsSynchronizationToken X = false.
Proof. destruct X; first [reflexivity|discriminate]. Qed.

Lemma precedence_nonempty s : GetOperatorPrecendence (cur s) <> 0%Z -> tokens s <> [].
Proof. intros H; apply cur_nonempty; intros E; rewrite E in H; apply H; reflexivity. Qed.

Lemma nth_nonempty s k : Type_ (nth k (tokens s) eof_token) <> TokenType.EndOfFile ->
  k < length (tokens s).
Proof.
  intros H; destruct (Nat.lt_ge_cases k (length (tokens s))) as [|Hk]; [assumption|].
  rewrite nth_overflow in H by exact Hk; destruct H; reflexivity.
Qed.

(** The fuel [n] is enough, with [k] to spare for calls that take no
    token, and the queue has no end-of-file token. *)
Definition fits (k n : nat) (s : PState) : Prop := no_eof s /\ 8 * pending s + k <= n.

Lemma no_eof_same s s' : tokens s' = tokens s -> no_eof s -> no_eof s'.
Proof. unfold no_eof; intros ->; auto. Qed.

Ltac keeps_eof :=
  lazymatch goal with
  | _ : no_eof ?s |- no_eof ?s => assumption
  | H : step ?a ?s |- no_eof ?s => apply (step_no_eof a s H); keeps_eof
  | H : tokens ?s = tokens ?a |- no_eof ?s => apply (no_eof_same a s H); keeps_eof
  end.

Ltac fit := first [ split; [keeps_eof|arith] | arith ].
Ltac side ::= first [steps | fit].

(** The facts about the recursive calls, for fuel [n]. *)
Record calls_ok (c n : nat) (g : Parsers) : Prop := {
  ok_Expression bp r s : fits (c + 4) n s ->
    tot (call_ReadExpression g bp r) s (progress s);
  ok_NullDenotation s : fits (c + 3) n s ->
    tot (call_ReadNullDenotation g) s (progress s);
  ok_Linked_first prev s : fits (c + 2) n s ->
    tot (call_ReadLinkedExpressionNode g prev true) s (moved s);
  ok_Linked_next prev s : fits (c + 6) n s ->
    tot (call_ReadLinkedExpressionNode g prev false) s (fun _ s' => step s s');
  ok_Indexator last s : cur s = TokenType.OpenSquare -> fits (c + 2) n s ->
    tot (call_ReadIndexatorExpressionNode g last) s (fun _ s' =>
      step s s' /\ pending s' < pending s);
  ok_Block s : fits (c + 7) n s ->
    tot (call_ReadStatementsBlock g) s (fun _ s' => step s s');
  ok_Conditional s : IsConditionalKeyword (cur s) = true ->
    cur s <> TokenType.SwitchKeyword -> fits (c + 2) n s ->
    tot (call_ReadConditionalClause g) s (fun _ s' => step s s' /\ pending s' < pending s)
}.

Section Code.
Context (c n : nat) (g : Parsers) (Hc : 10 <= c) (Hok : calls_ok c n g).

Lemma step_Expression bp r s : fits (c + 4) n s ->
  tot (call_ReadExpression g bp r) s (fun _ s' => step s s').
Proof. intros H; eapply tot_mono; [apply (ok_Expression _ _ _ Hok), H|apply progress_step]. Qed.
Lemma step_NullDenotation s : fits (c + 3) n s ->
  tot (call_ReadNullDenotation g) s (fun _ s' => step s s').
Proof. intros H; eapply tot_mono; [apply (ok_NullDenotation _ _ _ Hok), H|apply progress_step]. Qed.

Hint Extern 1 (tot (call_ReadExpression _ _ _) _ _) => (apply step_Expression; fit) : parser.
Hint Extern 1 (tot (call_ReadNullDenotation _) _ _) => (apply step_NullDenotation; fit) : parser.
Hint Extern 1 (tot (call_ReadLinkedExpressionNode _ _ false) _ _) =>
  (apply (ok_Linked_next _ _ _ Hok); fit) : parser.
Hint Extern 1 (tot (call_ReadIndexatorExpressionNode _ _) _ _) =>
  (apply (ok_Indexator _ _ _ Hok); [congruence|fit]) : parser.
Hint Extern 1 (tot (call_ReadStatementsBlock _) _ _) =>
  (apply (ok_Block _ _ _ Hok); fit) : parser.

(** ** Lists *)
Lemma tot_ReadArguments_loop closer m s : fits (c + 4) n s ->
  tot (ReadArguments_loop n g closer m) s (fun _ s' => step s s').
Proof. intros [He Hn]; apply tot_list_loop; [|lia]; intros a s1 H1; weigh; run. Qed.
Hint Extern 1 (tot (ReadArguments_loop _ _ _ _) _ _) =>
  (apply tot_ReadArguments_loop; fit) : parser.

Lemma tot_ReadArgumentsList s : fits (c + 4) n s ->
  tot (ReadArgumentsList n g) s (fun _ s' => step s s').
Proof. intros [He Hn]; unfold ReadArgumentsList; run. Qed.

Lemma tot_ReadArgumentsList_here s : cur s = TokenType.OpenCurl -> fits c n s ->
  tot (ReadArgumentsList n g) s (fun _ s' => step s s' /\ pending s' < pending s).
Proof. intros E [He Hn]; unfold ReadArgumentsList; run. Qed.

Lemma tot_ReadIndexatorList s : cur s = TokenType.OpenSquare -> fits c n s ->
  tot (ReadIndexatorList n g) s (fun _ s' => step s s' /\ pending s' < pending s).
Proof. intros E [He Hn]; unfold ReadIndexatorList; run. Qed.

Lemma tot_ReadCollectionExpression s : cur s = TokenType.OpenSquare -> fits c n s ->
  tot (ReadCollectionExpression n g) s (fun _ s' => step s s' /\ pending s' < pending s).
Proof.
  intros E [He Hn]; unfold ReadCollectionExpression.
  assert (Hl : forall s1, fits (c + 4) n s1 ->
    tot (ReadCollectionExpression_loop n g) s1 (fun _ s' => step s1 s')).
  { intros s1 [He1 H1]; apply tot_list_loop; [|lia]; intros a s2 H2; weigh; run. }
  run.
Qed.
Hint Extern 1 (tot (ReadArgumentsList _ _) _ _) =>
  (apply tot_ReadArgumentsList_here; [congruence|fit]) : parser.
Hint Extern 2 (tot (ReadArgumentsList _ _) _ _) => (apply tot_ReadArgumentsList; fit) : parser.
Hint Extern 1 (tot (ReadIndexatorList _ _) _ _) =>
  (apply tot_ReadIndexatorList; [congruence|fit]) : parser.
Hint Extern 1 (tot (ReadCollectionExpression _ _) _ _) =>
  (apply tot_ReadCollectionExpression; [congruence|fit]) : parser.

(** ** Member chains *)
Lemma tot_ReadIndexatorExpressionNode last s : cur s = TokenType.OpenSquare ->
  fits (c + 1) n s ->
  tot (ReadIndexatorExpressionNode n g last) s (fun _ s' => step s s' /\ pending s' < pending s).
Proof. intros E [He Hn]; unfold ReadIndexatorExpressionNode; run. Qed.

(** Both scans leave the tokens alone and end at the end of the queue. *)
Lemma tot_scan (body : nat * Z -> P ((nat * Z) + bool)) s : pending s < n ->
  (forall index depth, tot (body (index, depth)) s (fun r s' =>
     s' = s /\ match r with
               | inl (index', _) => index' = S index /\
                   Type_ (nth (S index) (tokens s) eof_token) <> TokenType.EndOfFile
               | inr _ => True
               end)) ->
  tot (loop n body (0, 1%Z)) s (fun _ s' => s' = s).
Proof.
  intros Hn Hb.
  apply (tot_loop (fun _ s1 => s1 = s) (fun x s1 => length (tokens s1) - fst x));
    [|reflexivity|cbn; pose proof (length_weight (tokens s)); unfold pending in Hn; lia].
  intros [index depth] s1 ->; eapply tot_mono; [apply Hb|].
  intros [[index' depth']|b] s' [-> H]; [|reflexivity].
  destruct H as [-> H]; apply nth_nonempty in H; cbn; split; [reflexivity|lia].
Qed.

Lemma tot_IsGenericInvocation s : pending s < n ->
  tot (IsGenericInvocation n) s (fun _ s' => s' = s).
Proof.
  intros Hn; apply tot_scan; [exact Hn|]; intros index depth; cbn beta iota.
  apply tot_get; intros t ->.
  destruct (Type_ (nth (S index) (tokens s) eof_token)) eqn:E; run.
Qed.

Lemma tot_IsGenericTypeReceiver s : pending s < n ->
  tot (IsGenericTypeReceiver n) s (fun _ s' => s' = s).
Proof.
  intros Hn; apply tot_scan; [exact Hn|]; intros index depth; cbn beta iota.
  apply tot_get; intros t ->.
  destruct (Type_ (nth (S index) (tokens s) eof_token)) eqn:E; run.
Qed.

Lemma tot_linked_name_first s : tokens s <> [] ->
  tot (linked_name true) s (fun _ s' => step s s' /\ pending s' < pending s).
Proof.
  intros Hne; unfold linked_name; run1; apply tot_Matches; run1; run.
Qed.

Lemma tot_linked_name_next s : tot (linked_name false) s (fun _ s' =>
  step s s' /\ (pending s' < pending s \/
                tokens s' = tokens s /\ cur s <> TokenType.Delimeter)).
Proof.
  unfold linked_name; destruct (TokenType.eqb_spec (cur s) TokenType.Delimeter) as [E|E].
  - run.
  - eapply tot_call; [apply tot_Expect_moved|]; intros d s1 [H1 M1].
    eapply tot_call; [apply tot_Expect_moved|]; intros i s2 [H2 M2].
    apply tot_pret; weigh; split; [steps|].
    destruct M1 as [M1|M1]; [left; lia|]; destruct M2 as [M2|M2]; weigh; [left; lia|].
    right; split; congruence.
Qed.

Lemma tot_linked_rest node s : fits (c + 6) n s ->
  tot (linked_rest g node) s (fun _ s' => step s s').
Proof. intros [He Hn]; unfold linked_rest; run. Qed.
Hint Extern 1 (tot (linked_rest _ _) _ _) => (apply tot_linked_rest; fit) : parser.

Lemma tot_linked_rest_end s : cur s <> TokenType.Delimeter -> cur s <> TokenType.OpenSquare ->
  tot (linked_rest g None) s (fun _ s' => step s s').
Proof. intros H1 H2; unfold linked_rest; run. Qed.
Hint Extern 2 (tot (linked_rest _ None) _ _) =>
  (apply tot_linked_rest_end; congruence) : parser.

Lemma tot_linked_generic d i prev s : cur s = TokenType.LessOperator ->
  fits (c + 1) n s ->
  tot (linked_generic n g d i prev) s (fun _ s' => step s s').
Proof.
  intros E [He Hn]; unfold linked_generic.
  eapply tot_call; [apply tot_IsGenericInvocation; lia|]; intros b s1 ->.
  eapply (tot_call _ _ _ (fun _ s' => s' = s)).
  { destruct b; [apply tot_pret; reflexivity|apply tot_IsGenericTypeReceiver; lia]. }
  intros b2 s1 ->; run.
Qed.
Hint Extern 1 (tot (linked_generic _ _ _ _ _) _ _) =>
  (apply tot_linked_generic; [congruence|fit]) : parser.

Lemma tot_linked_node d i prev s (Hd : cur s <> TokenType.Delimeter \/ fits (c + 6) n s) :
  fits (c + 5) n s ->
  tot (linked_node n g d i prev) s (fun _ s' => step s s').
Proof.
  intros [He Hn]; unfold linked_node; apply tot_Current; intros t Ht; rewrite Ht.
  destruct (cur s) eqn:E; try (destruct Hd as [Hd|[He' Hn']]; [congruence|]); run.
Qed.

Lemma tot_ReadLinkedExpressionNode_first prev s : fits (c + 1) n s ->
  tot (ReadLinkedExpressionNode n g prev true) s (moved s).
Proof.
  intros [He Hn]; unfold ReadLinkedExpressionNode.
  apply tot_guarded; [unfold is_guard; auto|]; intros s1 E1; weigh.
  run1; run1.
  { eapply tot_call; [apply tot_ReportCurrent|]; intros _ s2 [H2 E2]; apply tot_pret.
    split; [exact H2|]; intros s' E' H'; split; [exact H'|right; congruence]. }
  apply tot_CanConsume; intros Hne; cbn [negb].
  2: { apply tot_pret; split; [apply step_refl|]; intros s' E' H'; split; [exact H'|].
       right; congruence. }
  eapply tot_call; [apply tot_linked_name_first, Hne|]; intros [d i] s2 [H2 L2]; cbn beta iota.
  assert (Hq : forall (a : option ExpressionSyntax) s3, step s2 s3 ->
    step s1 s3 /\ (forall s', tokens s' = tokens s3 -> step s s' -> moved s a s')).
  { intros e2 s3 H3; split; [steps|]; intros s' E' H'; split; [exact H'|]; left; weigh; lia. }
  apply tot_CanConsume; intros Hne2; cbn [negb]; [|apply tot_pret, Hq, step_refl].
  eapply tot_mono; [apply tot_linked_node; [right|]; fit|exact Hq].
Qed.

Lemma tot_ReadLinkedExpressionNode_next prev s : fits (c + 5) n s ->
  tot (ReadLinkedExpressionNode n g prev false) s (fun _ s' => step s s').
Proof.
  intros [He Hn]; unfold ReadLinkedExpressionNode.
  apply tot_guarded; [unfold is_guard; auto|]; intros s1 E1; weigh.
  eapply (tot_mono _ _ (fun _ s2 => step s1 s2)); [|intros e2 s2 H2; split; auto].
  run1; run1; [run|]; run1; [|run].
  eapply tot_call; [apply tot_linked_name_next|]; intros [d i] s2 [H2 L2]; cbn beta iota; weigh.
  apply tot_CanConsume; intros Hne2; cbn [negb]; [|run].
  eapply tot_mono; [apply tot_linked_node|]; [ | |intros e3 s3 H3; cbn beta in *; steps].
  - destruct L2 as [L2|[L2 L3]]; weigh; [right; fit|left; congruence].
  - destruct L2 as [L2|[L2 L3]]; weigh; fit.
Qed.

(** ** Creation, lambdas, [if] and [switch] *)
Lemma tot_ReadExpressionBodyOrBlock what s : fits (c + 7) n s ->
  tot (ReadExpressionBodyOrBlock g what) s (fun _ s' => step s s').
Proof. intros [He Hn]; unfold ReadExpressionBodyOrBlock; run. Qed.
Hint Extern 1 (tot (ReadLambdaBody _) _ _) =>
  (apply tot_ReadExpressionBodyOrBlock; fit) : parser.

Lemma tot_ReadLambdaExpression m s : cur s = TokenType.LambdaKeyword ->
  fits (c + 2) n s ->
  tot (ReadLambdaExpression n g m) s (fun _ s' => step s s' /\ pending s' < pending s).
Proof. intros E [He Hn]; unfold ReadLambdaExpression; run. Qed.
Hint Extern 1 (tot (ReadLambdaExpression _ _ _) _ _) =>
  (apply tot_ReadLambdaExpression; [congruence|fit]) : parser.

Lemma tot_ReadObjectExpression s : cur s = TokenType.NewKeyword -> fits (c + 2) n s ->
  tot (ReadObjectExpression n g) s (fun _ s' => step s s' /\ pending s' < pending s).
Proof. intros E [He Hn]; unfold ReadObjectExpression; run. Qed.
Hint Extern 1 (tot (ReadObjectExpression _ _) _ _) =>
  (apply tot_ReadObjectExpression; [congruence|fit]) : parser.

Lemma tot_ReadIfExpression s : cur s = TokenType.IfKeyword -> fits (c + 2) n s ->
  tot (ReadIfExpression g) s (fun _ s' => step s s' /\ pending s' < pending s).
Proof. intros E [He Hn]; unfold ReadIfExpression; run. Qed.
Hint Extern 1 (tot (ReadIfExpression _) _ _) =>
  (apply tot_ReadIfExpression; [congruence|fit]) : parser.

Lemma tot_ReadIsPattern s : cur s = TokenType.IsOperator -> fits (c + 2) n s ->
  tot (ReadIsPattern n) s (fun _ s' => step s s' /\ pending s' < pending s).
Proof. intros E [He Hn]; unfold ReadIsPattern; run. Qed.
Hint Extern 1 (tot (ReadIsPattern _) _ _) =>
  (apply tot_ReadIsPattern; [congruence|fit]) : parser.

Lemma tot_ReadSwitchArmPattern s : tokens s <> [] -> fits (c + 4) n s ->
  tot (ReadSwitchArmPattern n g) s (progress s).
Proof.
  intros Hne [He Hn]; unfold ReadSwitchArmPattern; apply tot_Current; intros t Ht.
  destruct (_ && _).
  { run1; run1; split; [assumption|]; intros _ _; left; lia. }
  run1; [|apply (ok_Expression _ _ _ Hok); fit].
  run1; run1; split; [assumption|]; intros _ _; left; lia.
Qed.

(** After a pattern that took nothing, the arrow is looked for among the
    tokens that follow, which takes one. *)
Lemma tot_arm_arrow {A} s (a : A) s1 : no_eof s -> tokens s <> [] -> progress s a s1 ->
  tot (Expect TokenType.LambdaOperator "Expected '=>'") s1 (fun _ s' =>
    step s s' /\ pending s' < pending s).
Proof.
  intros He Hne [H1 H2]; specialize (H2 He Hne).
  eapply tot_mono; [apply tot_Expect|]; intros t s2 (H3 & _ & H4); weigh.
  split; [steps|]; destruct H2 as [H2|[E2 L2]]; [lia|]; weigh.
  rewrite E2 in H4; specialize (H4 Hne); rewrite (cur_same _ _ E2) in H4.
  specialize (H4 (or_intror (linked_start_skipped _ L2))); lia.
Qed.

Lemma tot_ReadSwitchExpression s : cur s = TokenType.SwitchKeyword ->
  fits (c + 2) n s ->
  tot (ReadSwitchExpression n g) s (fun _ s' => step s s' /\ pending s' < pending s).
Proof.
  intros E [He Hn]; unfold ReadSwitchExpression.
  do 3 run1; apply tot_bind.
  apply (tot_loop (fun _ s1 => step s s1 /\ pending s1 < pending s) (fun _ s1 => pending s1));
    [|split; [steps|lia]|lia].
  intros arms s1 [Hs1 L1]; apply tot_more_not; [intros _ Hne; cbn [negb]|run].
  assert (He1 : no_eof s1) by (apply (step_no_eof _ _ Hs1), He).
  eapply tot_call; [apply tot_ReadSwitchArmPattern; [exact Hne|fit]|]; intros p s2 Hp.
  pose proof (progress_step s1 p s2 Hp) as Hs2.
  eapply tot_call; [apply (tot_arm_arrow s1 p s2 He1 Hne Hp)|]; intros t' s3 [Hs3 Ls3]; cbn beta.
  run.
Qed.
Hint Extern 1 (tot (ReadSwitchExpression _ _) _ _) =>
  (apply tot_ReadSwitchExpression; [congruence|fit]) : parser.

(** ** Denotations *)
Lemma tot_ReadPrefix build s : tokens s <> [] -> fits (c + 2) n s ->
  tot (ReadPrefix g build) s (fun _ s' => step s s' /\ pending s' < pending s).
Proof. intros Hne [He Hn]; unfold ReadPrefix; run. Qed.
Hint Extern 1 (tot (ReadPrefix _ _) _ _) =>
  (apply tot_ReadPrefix; [ahead|fit]) : parser.

Lemma strict_progress {A} s (a : A) s' : step s s' /\ pending s' < pending s -> progress s a s'.
Proof. intros [H L]; split; auto. Qed.

Lemma tot_ReadNullDenotation s : fits (c + 2) n s ->
  tot (ReadNullDenotation n g) s (progress s).
Proof.
  intros [He Hn]; unfold ReadNullDenotation; apply tot_Current; intros t Ht; rewrite Ht.
  destruct (cur s) eqn:E.
  all: try (eapply tot_mono; [|intros a s'; apply strict_progress]; cbn beta; solve [run]).
  all: try (eapply tot_mono; [apply (ok_Linked_first _ _ _ Hok); fit|];
            intros a s' [H1 [H2|H2]]; split; auto; intros _ _; right; rewrite E; auto).
  - eapply (tot_mono _ _ (fun _ s' => step s s')); [run|]; intros a s' H1; split; [exact H1|].
    intros _ Hne; destruct (cur_no_eof s He Hne E).
  - eapply tot_mono; [|intros a s'; apply strict_progress]; cbn beta.
    apply tot_get; intros next ->.
    destruct (TokenType.eqb_spec (Type_ (nth 1 (tokens s) eof_token)) TokenType.LambdaKeyword)
      as [El|]; [|run].
    eapply tot_call; [apply tot_Consume|]; intros _ s1 (H1 & E1 & L1); discharge.
    assert (cur s1 = TokenType.LambdaKeyword).
    { unfold cur; rewrite E1; destruct (tokens s) as [|t0 [|t1 ts]]; exact El. }
    run.
Qed.

(** An infix or postfix operator is always taken. *)
Lemma tot_ReadInfix left build t s : tokens s <> [] -> Type_ t = cur s ->
  GetOperatorPrecendence (cur s) <> 0%Z -> fits (c + 2) n s ->
  tot (ReadInfix g left t build) s (fun _ s' => step s s' /\ pending s' < pending s).
Proof.
  intros Hne Et Hp [He Hn]; unfold ReadInfix; rewrite Et.
  destruct (Z.eqb_spec (GetOperatorPrecendence (cur s)) 0) as [|_]; [congruence|]; run.
Qed.

Lemma tot_ReadLeftDenotation left s : GetOperatorPrecendence (cur s) <> 0%Z ->
  fits (c + 2) n s ->
  tot (ReadLeftDenotation n g left) s (fun _ s' => step s s' /\ pending s' < pending s).
Proof.
  intros Hp [He Hn]; pose proof (precedence_nonempty s Hp) as Hne.
  unfold ReadLeftDenotation; run1; [|congruence].
  apply tot_Current; intros t Ht; rewrite Ht.
  destruct (cur s) eqn:E; try (destruct (Hp eq_refl));
    try (apply tot_ReadInfix; [exact Hne|congruence|rewrite E; exact Hp|fit]);
    cbn [IsRightUnaryOperator IsBinaryOperator IsRightUnaryArithmeticOperator
         IsRightUnaryBooleanOperator IsBinaryArithmeticOperator IsBinaryBooleanOperator
         IsBinaryBitOperator TokenType.eqb TokenType.value Nat.eqb orb Z.eqb];
    try (apply tot_ReadInfix; [exact Hne|congruence|rewrite E; exact Hp|fit]); run.
Qed.

Lemma tot_skip_expression s : pending s < n ->
  tot (skip_expression n) s (fun _ s' => step s s').
Proof.
  intros Hn; unfold skip_expression.
  apply (tot_loop (fun _ s1 => step s s1) (fun _ s1 => pending s1)); [|apply step_refl|exact Hn].
  intros _ s1 H1; run.
Qed.
Hint Extern 1 (tot (skip_expression _) _ _) => (apply tot_skip_expression; arith) : parser.

Lemma tot_ReadExpression_loop bp left p s : p = GetOperatorPrecendence (cur s) ->
  fits (c + 2) n s ->
  tot (ReadExpression_loop n g bp left p) s (fun _ s' =>
    step s s' /\ (p = 0%Z -> tokens s' = tokens s)).
Proof.
  intros Ep [He Hn]; unfold ReadExpression_loop.
  apply (tot_loop (fun x s1 => step s s1 /\ snd x = GetOperatorPrecendence (cur s1) /\
                               (p = 0%Z -> tokens s1 = tokens s)) (fun _ s1 => pending s1));
    [|split; [apply step_refl|auto]|lia].
  intros [left1 p1] s1 (H1 & E1 & Z1); cbn [snd] in E1; weigh.
  apply tot_CanConsume; intros Hne; cbn [andb negb]; [|apply tot_pret; auto].
  destruct (Z.eqb_spec p1 0) as [E0|E0]; cbn [andb negb]; [apply tot_pret; auto|].
  assert (Hp0 : p = 0%Z -> False).
  { intros Hp; rewrite (cur_same _ _ (Z1 Hp)) in E1; congruence. }
  destruct (bp <? p1)%Z; cbn [negb]; [|apply tot_pret; auto].
  eapply tot_call; [apply tot_operators|]; intros _ s2 [H2 E2]; weigh.
  apply tot_get; intros k _; destruct (MaxExpressionOperators <? k)%Z.
  { run1; run1; run1; split; [steps|intros Hp; destruct (Hp0 Hp)]. }
  eapply tot_call; [apply tot_ReadLeftDenotation; [rewrite (cur_same _ _ E2); congruence|fit]|].
  intros left3 s3 [H3 L3]; weigh.
  apply tot_CanConsume; intros Hne3; cbn [negb].
  - apply tot_Current; intros t Ht; apply tot_pret; cbn [snd].
    split; [|lia]; split; [steps|]; split; [congruence|]; intros Hp; destruct (Hp0 Hp).
  - apply tot_pret; split; [steps|]; intros Hp; destruct (Hp0 Hp).
Qed.

Lemma tot_ReadExpression_body bp r s : fits (c + 3) n s ->
  tot (ReadExpression n g bp r) s (progress s).
Proof.
  intros [He Hn]; unfold ReadExpression.
  eapply (tot_call _ _ _ (fun _ s' => step s s' /\ tokens s' = tokens s)).
  { destruct r; [apply tot_operators|apply tot_pret; split; [apply step_refl|reflexivity]]. }
  intros _ s0 [H0 E0]; weigh.
  apply tot_guarded; [unfold is_guard; auto|]; intros s1 E1; weigh.
  apply tot_get; intros depth _; destruct (MaxExpressionDepth <? depth)%Z.
  { eapply tot_call; [apply tot_ReportCurrent|]; intros _ s2 [H2 E2]; weigh.
    apply tot_Current; intros t Ht.
    eapply tot_call; [apply tot_Consume|]; intros _ s3 (H3 & _ & L3); apply tot_pret.
    split; [steps|]; intros s' E' H'; split; [steps|]; intros _ Hne; left; weigh.
    lapply L3; [lia|congruence]. }
  eapply tot_call; [apply (ok_NullDenotation _ _ _ Hok); fit|]; intros left s2 Hp.
  pose proof (progress_step _ _ _ Hp) as H2; destruct Hp as [_ Hp]; weigh.
  assert (Hend : forall (e : option ExpressionSyntax) s3, step s2 s3 ->
    (GetOperatorPrecendence (cur s2) = 0%Z -> tokens s3 = tokens s2) ->
    step s1 s3 /\ (forall s', tokens s' = tokens s3 -> step s0 s' -> progress s e s')).
  { intros e s3 H3 Z3; split; [steps|]; intros s' E' H'; split; [steps|]; intros _ Hne.
    weigh; destruct Hp as [Hp|[E2 L2]]; [keeps_eof|congruence|left; lia|].
    right; rewrite <- (cur_same s s0 E0), <- (cur_same s0 s1 E1); split; [|exact L2].
    rewrite E', Z3, E2; [congruence|].
    rewrite (cur_same _ _ E2); apply linked_start_precedence, L2. }
  apply tot_CanConsume; intros Hne; cbn [negb]; [|apply tot_pret, Hend; [apply step_refl|auto]].
  apply tot_Current; intros t Ht; rewrite Ht.
  eapply tot_mono; [apply tot_ReadExpression_loop; [reflexivity|fit]|].
  intros e s3 [H3 Z3]; apply Hend; assumption.
Qed.

(** ** Statements *)
Lemma tot_ReadTypedVariable name s : fits (c + 4) n s ->
  tot (ReadTypedVariable n g name) s (fun _ s' => step s s').
Proof. intros [He Hn]; unfold ReadTypedVariable; run. Qed.
Lemma tot_ReadInferredVariable name s : fits (c + 4) n s ->
  tot (ReadInferredVariable g name) s (fun _ s' => step s s').
Proof. intros [He Hn]; unfold ReadInferredVariable; run. Qed.
Lemma tot_ReadWrongVariable t s : fits (c + 4) n s ->
  tot (ReadWrongVariable n g t) s (fun _ s' => step s s').
Proof. intros [He Hn]; unfold ReadWrongVariable; run. Qed.
Lemma tot_ReadExpressionStatement s : fits (c + 4) n s ->
  tot (ReadExpressionStatement g) s (fun _ s' => step s s').
Proof. intros [He Hn]; unfold ReadExpressionStatement; run. Qed.
Hint Extern 1 (tot (ReadTypedVariable _ _ _) _ _) => (apply tot_ReadTypedVariable; fit) : parser.
Hint Extern 1 (tot (ReadInferredVariable _ _) _ _) =>
  (apply tot_ReadInferredVariable; fit) : parser.
Hint Extern 1 (tot (ReadWrongVariable _ _ _) _ _) => (apply tot_ReadWrongVariable; fit) : parser.
Hint Extern 1 (tot (ReadExpressionStatement _) _ _) =>
  (apply tot_ReadExpressionStatement; fit) : parser.

Lemma tot_ReadStatement s : fits (c + 4) n s ->
  tot (ReadStatement n g) s (fun _ s' => step s s').
Proof. intros [He Hn]; unfold ReadStatement; run. Qed.
Hint Extern 1 (tot (ReadStatement _ _) _ _) => (apply tot_ReadStatement; fit) : parser.

Lemma tot_ReadOperand s : fits (c + 4) n s ->
  tot (ReadOperand g) s (fun _ s' => step s s').
Proof. intros [He Hn]; unfold ReadOperand; run. Qed.
Hint Extern 1 (tot (ReadOperand _) _ _) => (apply tot_ReadOperand; fit) : parser.
Hint Unfold expect_semicolon : parser.
Hint Extern 1 (tot expect_semicolon _ _) => apply tot_Expect_any : parser.

Ltac conditional :=
  match goal with
  | H : ?X = cur ?s |- IsConditionalKeyword (cur ?s) = true => rewrite <- H; reflexivity
  | H : cur ?s = ?X |- IsConditionalKeyword (cur ?s) = true => rewrite H; reflexivity
  end.
Hint Extern 1 (tot (call_ReadConditionalClause _) _ _) =>
  (apply (ok_Conditional _ _ _ Hok); [conditional|congruence|fit]) : parser.

Lemma tot_ReadCondition build s : tokens s <> [] -> fits (c + 1) n s ->
  tot (ReadCondition n g build) s (fun _ s' => step s s' /\ pending s' < pending s).
Proof.
  intros Hne [He Hn]; unfold ReadCondition; run.
Qed.
Hint Extern 1 (tot (ReadCondition _ _ _) _ _) => (apply tot_ReadCondition; [ahead|fit]) : parser.

Lemma tot_ReadConditionalClause s : IsConditionalKeyword (cur s) = true ->
  cur s <> TokenType.SwitchKeyword -> fits (c + 1) n s ->
  tot (ReadConditionalClause n g) s (fun _ s' => step s s' /\ pending s' < pending s).
Proof.
  intros Hk Hsw [He Hn].
  assert (Hne : tokens s <> []).
  { apply cur_nonempty; intros E; rewrite E in Hk; discriminate. }
  unfold ReadConditionalClause.
  apply (tot_loop (fun _ s1 => s1 = s) (fun _ _ => 0)); [|reflexivity|lia].
  intros _ s1 ->; run1; [|congruence].
  apply tot_Current; intros t Ht; rewrite Ht.
  destruct (cur s) eqn:E; try discriminate Hk; try congruence; [run|run|].
  run.
Qed.

Lemma tot_refuse_keyword o m s : tot (refuse_keyword o m) s (fun _ s' => step s s').
Proof. unfold refuse_keyword; run. Qed.
Hint Resolve tot_refuse_keyword : parser.

Lemma tot_ReadRange m build s : fits (c + 7) n s ->
  tot (ReadRange g m build) s (fun _ s' => step s s').
Proof. intros [He Hn]; unfold ReadRange; run. Qed.
Hint Extern 1 (tot (ReadRange _ _ _) _ _) => (apply tot_ReadRange; fit) : parser.

Lemma tot_ReadCatchClause s : cur s = TokenType.CatchKeyword -> fits (c + 1) n s ->
  tot (ReadCatchClause n g) s (fun _ s' => step s s' /\ pending s' < pending s).
Proof. intros E [He Hn]; unfold ReadCatchClause; run. Qed.
Hint Extern 1 (tot (ReadCatchClause _ _) _ _) =>
  (apply tot_ReadCatchClause; [congruence|fit]) : parser.

Lemma tot_ReadTryStatement s : cur s = TokenType.TryKeyword -> fits (c + 1) n s ->
  tot (ReadTryStatement n g) s (fun _ s' => step s s').
Proof.
  intros E [He Hn]; unfold ReadTryStatement; do 2 run1; apply tot_bind.
  apply (tot_loop (fun _ s1 => step s s1 /\ pending s1 < pending s) (fun _ s1 => pending s1));
    [|split; [steps|lia]|lia].
  intros clauses s1 [Hs1 L1]; run.
Qed.

Lemma tot_ReadCaseHead s : tokens s <> [] -> fits (c + 4) n s ->
  tot (ReadCaseHead n g) s (fun _ s' => step s s' /\ pending s' < pending s).
Proof. intros Hne [He Hn]; unfold ReadCaseHead; run. Qed.
Hint Extern 1 (tot (ReadCaseHead _ _) _ _) => (apply tot_ReadCaseHead; [ahead|fit]) : parser.

Lemma tot_ReadSwitchStatement s : cur s = TokenType.SwitchKeyword -> fits (c + 1) n s ->
  tot (ReadSwitchStatement n g) s (fun _ s' => step s s').
Proof.
  intros E [He Hn]; unfold ReadSwitchStatement.
  assert (Hl : forall s1, step s s1 -> pending s1 < pending s ->
    tot (loop n (fun clauses =>
      more <- more_not TokenType.CloseBrace ;;
      if negb more then break_ clauses else
      head <- ReadCaseHead n g ;;
      match head with
      | None => continue_ clauses
      | Some (KeywordToken, Pattern) =>
          ColonToken <- Expect TokenType.Colon "Expected ':' after case pattern" ;;
          Body <- call_ReadStatementsBlock g ;;
          continue_ (clauses ++ [SwitchCaseClause KeywordToken ColonToken Pattern Body])
      end) []) s1 (fun _ s' => step s1 s')).
  { intros s1 Hs1 L1.
    apply (tot_loop (fun _ s2 => step s1 s2) (fun _ s2 => pending s2)); [|apply step_refl|lia].
    intros clauses s2 H2; weigh; run. }
  run.
Qed.

Lemma tot_IsRangeFor {B} (k : bool -> P B) s Q :
  (forall b, tot (k b) s Q) -> tot (pbind IsRangeFor k) s Q.
Proof.
  intros H; unfold IsRangeFor; apply tot_assoc, tot_get; intros b _.
  destruct b; cbn [negb]; [|apply tot_ret_bind, H].
  do 3 (apply tot_assoc, tot_get; intros ? _); apply tot_ret_bind, H.
Qed.

Lemma tot_ReadKeywordStatement s : fits (c + 6) n s ->
  tot (ReadKeywordStatement n g) s (fun _ s' => step s s').
Proof.
  intros [He Hn]; unfold ReadKeywordStatement; run1; [|run].
  apply tot_Current; intros t Ht; rewrite Ht; unfold some_statement.
  destruct (cur s) eqn:E; try solve [run].
  all: try (apply tot_IsRangeFor; intros range;
            destruct range; unfold ReadForInStatement, ReadForStatement; solve [run]).
  all: try (unfold ReadForEachStatement, ReadWhileStatement, ReadUntilStatement,
              ReadReturnStatement, ReadBreakStatement, ReadContinueStatement,
              ReadDeferStatement, ReadThrowStatement; solve [run]).
  all: first [ eapply tot_call; [apply tot_ReadTryStatement; [exact E|fit]|]
             | eapply tot_call; [apply tot_ReadSwitchStatement; [exact E|fit]|] ];
    intros st s1 H1; run.
Qed.
Hint Extern 1 (tot (ReadKeywordStatement _ _) _ _) => (apply tot_ReadKeywordStatement; fit) : parser.

(** ** Blocks *)
Lemma tot_ReadBlockStatement t s : fits (c + 6) n s ->
  tot (ReadBlockStatement n g t) s (fun _ s' => step s s').
Proof. intros [He Hn]; unfold ReadBlockStatement; run. Qed.
Hint Extern 1 (tot (ReadBlockStatement _ _ _) _ _) => (apply tot_ReadBlockStatement; fit) : parser.

Context (Hguard : Z.to_nat (loopGuard_max + 1) < c).

Lemma tot_ReadStatementsBlock_loop s : fits (c + 6) n s ->
  tot (ReadStatementsBlock_loop n g) s (fun _ s' => step s s').
Proof.
  intros [He Hn]; unfold ReadStatementsBlock_loop.
  apply (tot_loop (fun x s1 => step s s1 /\ (0 <= fst x <= loopGuard_max)%Z)
           (fun x _ => Z.to_nat (loopGuard_max + 1 - fst x))).
  - intros [guard statements] s1 [Hs1 Hg]; cbn [fst] in *; weigh.
    run1; [|run]; destruct (Z.ltb_spec loopGuard_max (guard + 1)); [run|].
    run1; run1; [run|]; run1; [run|]; run1; run1; [|run1; run1].
    all: apply tot_pret; cbn [fst]; try (split; [split; [steps|lia]|lia]); steps.
  - split; [apply step_refl|cbn; unfold loopGuard_max; lia].
  - cbn [fst]; rewrite Z.sub_0_r; lia.
Qed.
Hint Extern 1 (tot (ReadStatementsBlock_loop _ _) _ _) =>
  (apply tot_ReadStatementsBlock_loop; fit) : parser.

Lemma tot_ReadBraces t s : cur s = TokenType.OpenBrace -> fits (c + 6) n s ->
  tot (ReadBraces n g t) s (fun _ s' => step s s').
Proof. intros E [He Hn]; unfold ReadBraces; run. Qed.
Hint Extern 1 (tot (ReadBraces _ _ _) _ _) => (apply tot_ReadBraces; [congruence|fit]) : parser.

Lemma tot_ReadStatementsBlock s : fits (c + 6) n s ->
  tot (ReadStatementsBlock n g) s (fun _ s' => step s s').
Proof.
  intros [He Hn]; unfold ReadStatementsBlock.
  apply tot_guarded; [unfold is_guard; auto|]; intros s1 E1; weigh.
  eapply (tot_mono _ _ (fun _ s2 => step s1 s2)); [|intros b s2 H2; split; auto].
  pose proof (no_eof_same _ _ E1 He); run.
Qed.
End Code.

(** ** The fixpoint *)
Lemma parsers_ok c n : Z.to_nat (loopGuard_max + 1) < c -> 10 <= c -> calls_ok c n (parsers n).
Proof.
  intros Hg Hc; induction n as [|n IH].
  - split; intros; match goal with H : fits _ _ _ |- _ => destruct H; lia end.
  - assert (Hf : forall k s, fits (c + S k) (S n) s -> fits (c + k) n s)
      by (intros k s [H1 H2]; split; [exact H1|lia]).
    split; cbn [parsers]; cbv zeta; cbn [call_ReadExpression call_ReadNullDenotation
      call_ReadLinkedExpressionNode call_ReadIndexatorExpressionNode call_ReadStatementsBlock
      call_ReadConditionalClause]; intros.
    + eapply tot_ReadExpression_body; eauto.
    + eapply tot_ReadNullDenotation; eauto.
    + eapply tot_ReadLinkedExpressionNode_first; eauto.
    + eapply tot_ReadLinkedExpressionNode_next; eauto.
    + eapply tot_ReadIndexatorExpressionNode; eauto.
    + eapply tot_ReadStatementsBlock; eauto.
    + eapply tot_ReadConditionalClause; eauto.
Qed.
