(* ===== verification/ParserTotalDecl.v ===== *)
(** * The parser terminates: declarations and units

    The functions of the file ParserDecl, down to a whole compilation unit,
    with the fuel [fuel_for_tokens]. *)
From Stdlib Require Import ZArith Lia Bool List String.
From stdpp Require Import base list.
From S2P Require Import Prelude Tokens SyntaxFacts SyntaxTree ParserState ParserTypes ParserExpr ParserStmt ParserDecl ParserFacts ParserTotal ParserTotalCode.
Import ListNotations SyntaxFacts.
Open Scope Z_scope.
Open Scope shard_scope.
Open Scope parser_scope.
Open Scope nat_scope.

(** The part of the fuel that does not depend on the tokens. *)
Definition slack : nat := 10 + S (Z.to_nat (loopGuard_max + 1)).

Lemma slack_guard : Z.to_nat (loopGuard_max + 1) < slack.
Proof. unfold slack; lia. Qed.
Lemma slack_10 : 10 <= slack.
Proof. unfold slack; lia. Qed.
Opaque slack.

Lemma tot_read_expression n s : fits (slack + 4) n s ->
  tot (read_expression n) s (fun _ s' => step s s').
Proof.
  intros H; eapply tot_mono; [|apply progress_step].
  apply (ok_Expression _ _ _ (parsers_ok slack n slack_guard slack_10)), H.
Qed.
#[export] Hint Extern 1 (tot (read_expression _) _ _) => (apply tot_read_expression; fit) : parser.

Lemma tot_read_method_body n s : fits (slack + 7) n s ->
  tot (read_method_body n) s (fun _ s' => step s s').
Proof.
  intros H; unfold read_method_body, ReadMethodBody.
  eapply tot_ReadExpressionBodyOrBlock; [exact slack_10| |exact H].
  exact (parsers_ok slack n slack_guard slack_10).
Qed.
#[export] Hint Extern 1 (tot (read_method_body _) _ _) => (apply tot_read_method_body; fit) : parser.

(** ** Members *)
Section Members.
Context (n : nat).

Lemma index_of_In X l i : index_of X l = Some i -> In X l.
Proof.
  revert i; induction l as [|Y l IH]; simpl; [discriminate|]; intros i.
  destruct (TokenType.eqb_spec Y X); [auto|].
  destruct (index_of X l); [|discriminate]; eauto.
Qed.

Lemma modifier_index X : IsModifier X = true -> exists i, index_of X expectedOrder = Some i.
Proof. destruct X; try discriminate; intros _; eexists; reflexivity. Qed.

Lemma tot_ReadMemberModifiers s : pending s < n ->
  tot (ReadMemberModifiers n) s (fun _ s' =>
    step s s' /\ (IsModifier (cur s) = true -> pending s' < pending s)).
Proof.
  intros Hn; unfold ReadMemberModifiers.
  apply (tot_loop (fun _ s1 => step s s1 /\ (pending s1 < pending s \/ s1 = s))
           (fun _ s1 => pending s1)); [|split; [apply step_refl|auto]|exact Hn].
  intros [ms i] s1 [Hs1 D]; weigh.
  assert (Hend : index_of (cur s1) expectedOrder = None ->
    step s s1 /\ (IsModifier (cur s) = true -> pending s1 < pending s)).
  { intros E; split; [exact Hs1|]; intros Hm; destruct D as [D| ->]; [exact D|].
    destruct (modifier_index _ Hm); congruence. }
  assert (Hlt : forall s2, step s1 s2 -> pending s2 < pending s1 ->
    (step s s2 /\ (pending s2 < pending s \/ s2 = s)) /\ pending s2 < pending s1).
  { intros s2 H2 L2; split; [split; [steps|left; lia]|exact L2]. }
  apply tot_CanConsume; intros Hne; cbn [negb].
  2: { apply tot_pret, Hend; unfold cur; rewrite Hne; reflexivity. }
  apply tot_Current; intros t Ht; rewrite Ht.
  destruct (index_of (cur s1) expectedOrder) as [k|] eqn:Ek; [|apply tot_pret, Hend; reflexivity].
  destruct (one_of _ _).
  - do 3 run1; apply Hlt; [steps|lia].
  - run1; destruct (Nat.ltb k i); repeat run1; apply Hlt; first [steps|lia].
Qed.
Hint Extern 1 (tot (ReadMemberModifiers _) _ _) => (apply tot_ReadMemberModifiers; arith) : parser.

Lemma tot_ReadAttribute s : cur s = TokenType.OpenSquare -> pending s < n ->
  tot (ReadAttribute n) s (fun _ s' => step s s' /\ pending s' < pending s).
Proof.
  intros E Hn; unfold ReadAttribute.
  assert (Hl : forall s1, pending s1 < n ->
    tot (ReadAttribute_loop n) s1 (fun _ s' => step s1 s')).
  { intros s1 H1; apply tot_list_loop; [|exact H1]; intros ts s2 H2; weigh; run. }
  run.
Qed.
Hint Extern 1 (tot (ReadAttribute _) _ _) => (apply tot_ReadAttribute; [congruence|arith]) : parser.

Lemma tot_ReadAttributeList s : pending s < n ->
  tot (ReadAttributeList n) s (fun _ s' =>
    step s s' /\ (pending s' < pending s \/ s' = s /\ cur s <> TokenType.OpenSquare)).
Proof.
  intros Hn; unfold ReadAttributeList.
  apply (tot_loop (fun _ s1 => step s s1 /\ (pending s1 < pending s \/ s1 = s))
           (fun _ s1 => pending s1)); [|split; [apply step_refl|auto]|exact Hn].
  intros attrs s1 [Hs1 D]; weigh; unfold more_at.
  apply tot_assoc, tot_CanConsume; intros Hne; cbn [negb].
  - apply tot_at_type; intros E; cbn [negb].
    + run1; run1; cbn beta iota; split; [split; [steps|left; lia]|lia].
    + apply tot_pret; split; [exact Hs1|]; destruct D as [D| ->]; [left; lia|right; auto].
  - apply tot_ret_bind; cbn [negb]; apply tot_pret; split; [exact Hs1|]; destruct D as [D| ->]; [left; lia|right; split; [reflexivity|]].
    unfold cur; rewrite Hne; discriminate.
Qed.
Hint Extern 1 (tot (ReadAttributeList _) _ _) => (apply tot_ReadAttributeList; arith) : parser.

(** ** Functions *)
Lemma tot_ReadBodyOrSemicolon s : fits (slack + 7) n s ->
  tot (ReadBodyOrSemicolon n) s (fun _ s' => step s s').
Proof. intros [He Hn]; unfold ReadBodyOrSemicolon, ReadBodyAndSemicolon; run. Qed.
Hint Extern 1 (tot (ReadBodyOrSemicolon _) _ _) => (apply tot_ReadBodyOrSemicolon; fit) : parser.

Lemma tot_ReadReturnType m d s : 2 * pending s + 4 <= n ->
  tot (ReadReturnType n m d) s (fun _ s' => step s s').
Proof. intros Hn; unfold ReadReturnType; run. Qed.
Hint Extern 1 (tot (ReadReturnType _ _ _) _ _) => (apply tot_ReadReturnType; arith) : parser.

Lemma tot_ReadConstructorDeclaration info s : fits (slack + 7) n s ->
  tot (ReadConstructorDeclaration n info) s (fun _ s' => step s s').
Proof. pose proof slack_10; intros [He Hn]; unfold ReadConstructorDeclaration; run. Qed.

Lemma tot_ReadMethodDeclaration info s : fits (slack + 7) n s ->
  tot (ReadMethodDeclaration n info) s (fun _ s' => step s s').
Proof. pose proof slack_10; intros [He Hn]; unfold ReadMethodDeclaration; run. Qed.

Lemma tot_ReadOperatorToken s : tot ReadOperatorToken s (fun _ s' => step s s').
Proof. unfold ReadOperatorToken; cbv zeta; run. Qed.
Hint Resolve tot_ReadOperatorToken : parser.

Lemma tot_ReadOperatorDeclaration info s : fits (slack + 7) n s ->
  tot (ReadOperatorDeclaration n info) s (fun _ s' => step s s').
Proof. pose proof slack_10; intros [He Hn]; unfold ReadOperatorDeclaration; run. Qed.

(** ** Fields, properties, indexers *)
Hint Extern 1 (tot expect_end _ _) => apply tot_Expect_any : parser.

Lemma tot_ReadFieldDeclaration info s : fits (slack + 7) n s ->
  tot (ReadFieldDeclaration n info) s (fun _ s' => step s s').
Proof. intros [He Hn]; unfold ReadFieldDeclaration; cbv zeta; run. Qed.

Lemma tot_ReadComputedPropertyDeclaration info s : fits (slack + 7) n s ->
  tot (ReadComputedPropertyDeclaration n info) s (fun _ s' => step s s').
Proof. intros [He Hn]; unfold ReadComputedPropertyDeclaration; run. Qed.

Lemma tot_ReadAccessorBody a m k s : fits (slack + 7) n s ->
  tot (ReadAccessorBody n a m k) s (fun _ s' => step s s').
Proof. intros [He Hn]; unfold ReadAccessorBody; cbv zeta; run. Qed.
Hint Extern 1 (tot (ReadAccessorBody _ _ _ _) _ _) => (apply tot_ReadAccessorBody; fit) : parser.

(** A token that may begin an accessor is taken by reading it. *)
Definition starts_accessor (X : TokenType) : bool :=
  IsModifier X || (X =tt TokenType.GetKeyword) || (X =tt TokenType.SetKeyword)
  || (X =tt TokenType.OpenSquare).

Lemma starts_accessor_cases X : starts_accessor X = true -> X <> TokenType.OpenSquare ->
  IsModifier X = true \/
  (IsModifier X = false /\ one_of [TokenType.SetKeyword; TokenType.GetKeyword] X = true).
Proof. destruct X; cbn; intros H1 H2; auto; discriminate. Qed.

Lemma tot_ReadAccessorDeclaration s : starts_accessor (cur s) = true -> fits (slack + 7) n s ->
  tot (ReadAccessorDeclaration n) s (fun _ s' => step s s' /\ pending s' < pending s).
Proof.
  pose proof slack_10; intros Hst [He Hn]; unfold ReadAccessorDeclaration.
  assert (Hne : tokens s <> []).
  { apply cur_nonempty; intros E; rewrite E in Hst; discriminate. }
  eapply tot_call; [apply tot_ReadAttributeList; lia|]; intros attrs s1 [H1 D1]; weigh.
  destruct D1 as [L1|[-> Hsq]]; [run|].
  run1; [|congruence]; run1.
  destruct (starts_accessor_cases _ Hst Hsq) as [Hm|[Hm Hg]].
  - match goal with E : Type_ ?t = cur s |- _ => rewrite E end; rewrite Hm.
    eapply tot_call; [apply tot_ReadMemberModifiers; lia|]; intros ms s2 [Hs2 Ls2]; specialize (Ls2 Hm).
    weigh; run.
  - match goal with E : Type_ ?t = cur s |- _ => rewrite E end; rewrite Hm; run1.
    unfold TryMatch; apply tot_assoc, tot_CanConsume; [|congruence]; intros _; cbn [negb].
    apply tot_assoc, tot_Matches; destruct (tokens s) eqn:Et; [congruence|]; rewrite Hg.
    run1; cbn [negb]; run1.
    eapply tot_call; [apply tot_Consume|]; intros _ s2 (Hs2 & _ & Ls2); rewrite Et in Ls2.
    specialize (Ls2 Hne); weigh; run.
Qed.
Hint Extern 1 (tot (ReadAccessorDeclaration _) _ _) =>
  (apply tot_ReadAccessorDeclaration; [congruence|fit]) : parser.

Lemma tot_place_accessor t a x s : tot (place_accessor t a x) s (fun _ s' => step s s').
Proof. unfold place_accessor; run. Qed.
Hint Resolve tot_place_accessor : parser.

Lemma tot_ReadAccessors what s : fits (slack + 7) n s ->
  tot (ReadAccessors n what) s (fun _ s' => step s s').
Proof.
  intros [He Hn]; apply tot_list_loop; [|lia]; intros a s1 Hs1; weigh.
  run1; [|run]; apply tot_Current; intros t Ht; rewrite Ht.
  run1; [run|]; run1; [run|].
  destruct (IsModifier (cur s1) || (cur s1 =tt TokenType.GetKeyword)
            || (cur s1 =tt TokenType.SetKeyword) || (cur s1 =tt TokenType.OpenSquare)) eqn:Ea.
  - change (starts_accessor (cur s1) = true) in Ea; run.
  - run1; eapply tot_call; [apply tot_and; [apply tot_TryMatch|apply tot_TryMatch_moved]|].
    intros b s3 [(H3 & H4 & H5 & _) [_ M3]]; weigh.
    assert (Ho : one_of [TokenType.GetKeyword; TokenType.SetKeyword; TokenType.CloseBrace] (cur s') = false).
    { match goal with E : tokens s' = tokens s1 |- _ => rewrite (cur_same _ _ E) end.
      destruct (cur s1); try discriminate Ea; try congruence; reflexivity. }
    destruct b; [specialize (H5 eq_refl Ho); run|].
    destruct M3 as [M3|M3]; [run|]; weigh.
    assert (tokens s3 <> []) by congruence; run.
Qed.
Hint Extern 1 (tot (ReadAccessors _ _) _ _) => (apply tot_ReadAccessors; fit) : parser.

Lemma tot_require_accessor t m a s : tot (require_accessor t m a) s (fun _ s' => step s s').
Proof. unfold require_accessor; run. Qed.
Hint Resolve tot_require_accessor : parser.

Lemma tot_ReadPropertyDeclaration info s : fits (slack + 7) n s ->
  tot (ReadPropertyDeclaration n info) s (fun _ s' => step s s').
Proof. intros [He Hn]; unfold ReadPropertyDeclaration; run. Qed.

Lemma tot_ReadIndexatorDeclaration info s : fits (slack + 7) n s ->
  tot (ReadIndexatorDeclaration n info) s (fun _ s' => step s s').
Proof. pose proof slack_10; intros [He Hn]; unfold ReadIndexatorDeclaration; run. Qed.

(** ** Enumerations and delegates *)
Lemma tot_ReadDeclaredName k s : tot (ReadDeclaredName k) s (fun _ s' => step s s').
Proof. unfold ReadDeclaredName; run. Qed.
Hint Resolve tot_ReadDeclaredName : parser.

Lemma tot_ReadEnumFieldDeclaration s : fits (slack + 7) n s ->
  tot (ReadEnumFieldDeclaration n) s (fun _ s' => step s s').
Proof. intros [He Hn]; unfold ReadEnumFieldDeclaration; run. Qed.
Hint Extern 1 (tot (ReadEnumFieldDeclaration _) _ _) =>
  (apply tot_ReadEnumFieldDeclaration; fit) : parser.

Lemma tot_ReadEnumBody s : fits (slack + 7) n s ->
  tot (ReadEnumBody n) s (fun _ s' => step s s').
Proof.
  intros [He Hn]; unfold ReadEnumBody.
  assert (Hl : forall s1, fits (slack + 7) n s1 ->
    tot (ReadEnumBody_loop n) s1 (fun _ s' => step s1 s')).
  { intros s1 [He1 Hn1]; apply tot_list_loop; [|lia]; intros fs s2 H2; weigh; run. }
  run.
Qed.
Hint Extern 1 (tot (ReadEnumBody _) _ _) => (apply tot_ReadEnumBody; fit) : parser.

Lemma tot_ReadEnumUnderlying s : tot ReadEnumUnderlying s (fun _ s' => step s s').
Proof. unfold ReadEnumUnderlying; run. Qed.
Hint Resolve tot_ReadEnumUnderlying : parser.

Lemma tot_ReadBodyStart m s : tot (ReadBodyStart m) s (fun b s' =>
  step s s' /\ (b = true -> cur s' = TokenType.OpenBrace)).
Proof.
  unfold ReadBodyStart; run1; run1; [|run].
  unfold at_type; apply tot_Current; intros t Ht; rewrite Ht; apply tot_pret.
  split; [steps|]; destruct (TokenType.eqb_spec (cur s') TokenType.OpenBrace); congruence.
Qed.
Hint Resolve tot_ReadBodyStart : parser.

Lemma tot_ReadEnumDeclaration info s : fits (slack + 7) n s ->
  tot (ReadEnumDeclaration n info) s (fun _ s' => step s s').
Proof. intros [He Hn]; unfold ReadEnumDeclaration; run. Qed.

Lemma tot_ReadTypeParametersIfAny d s : 2 * pending s + 4 <= n ->
  tot (ReadTypeParametersIfAny n d) s (fun _ s' => step s s').
Proof. intros Hn; unfold ReadTypeParametersIfAny; run. Qed.
Hint Extern 1 (tot (ReadTypeParametersIfAny _ _) _ _) =>
  (apply tot_ReadTypeParametersIfAny; arith) : parser.

Lemma tot_ReadDeclarationHead info s : 2 * pending s + 4 <= n ->
  tot (ReadDeclarationHead n info) s (fun _ s' => step s s').
Proof. intros Hn; unfold ReadDeclarationHead; run. Qed.
Hint Extern 1 (tot (ReadDeclarationHead _ _) _ _) =>
  (apply tot_ReadDeclarationHead; arith) : parser.

Lemma tot_ReadDelegateDeclaration info s : fits (slack + 7) n s ->
  tot (ReadDelegateDeclaration n info) s (fun _ s' => step s s').
Proof. pose proof slack_10; intros [He Hn]; unfold ReadDelegateDeclaration; run. Qed.

(** ** Type declarations *)
Section Nested.
Context (rec : SyntaxKind.t -> P (option MemberDeclarationSyntax)).
Context (Hrec : forall kind s, fits (slack + 8) n s ->
  tot (rec kind) s (fun _ s' => step s s')).

Lemma tot_ReadTypeBody_loop kind s : fits (slack + 8) n s ->
  tot (ReadTypeBody_loop n rec kind) s (fun _ s' => step s s').
Proof.
  pose proof slack_guard; intros [He Hn]; unfold ReadTypeBody_loop.
  apply (tot_loop (fun x s1 => step s s1 /\ (0 <= fst x <= loopGuard_max)%Z)
           (fun x _ => Z.to_nat (loopGuard_max + 1 - fst x))).
  - intros [guard ms] s1 [Hs1 Hg]; cbn [fst] in *; weigh.
    run1; [|run]; destruct (Z.ltb_spec loopGuard_max (guard + 1)); [run|].
    assert (Hgo : forall s2 (ms' : list MemberDeclarationSyntax), step s1 s2 ->
      (step s s2 /\ (0 <= fst ((guard + 1)%Z, ms') <= loopGuard_max)%Z) /\
      Z.to_nat (loopGuard_max + 1 - fst ((guard + 1)%Z, ms')) < Z.to_nat (loopGuard_max + 1 - guard)).
    { intros s2 ms' H2; cbn [fst]; split; [split; [steps|lia]|lia]. }
    repeat run1; cbn beta iota; first [apply Hgo; steps|steps].
  - split; [apply step_refl|cbn; unfold loopGuard_max; lia].
  - cbn [fst]; rewrite Z.sub_0_r; lia.
Qed.
Hint Extern 1 (tot (ReadTypeBody_loop _ _ _) _ _) => (apply tot_ReadTypeBody_loop; fit) : parser.

Lemma tot_ReadTypeBody kind b l s : cur s = TokenType.OpenBrace -> fits (slack + 7) n s ->
  tot (ReadTypeBody n rec kind b l) s (fun _ s' => step s s').
Proof. intros E [He Hn]; unfold ReadTypeBody; run. Qed.
Hint Extern 1 (tot (ReadTypeBody _ _ _ _ _) _ _) =>
  (apply tot_ReadTypeBody; [congruence|fit]) : parser.

Lemma tot_ReadOptionalBody kind m b l s : fits (slack + 7) n s ->
  tot (ReadOptionalBody n rec kind m b l) s (fun _ s' => step s s').
Proof.
  intros [He Hn]; unfold ReadOptionalBody; run1.
  match goal with |- tot (if ?b then _ else _) _ _ => destruct b end; discharge; run.
Qed.
Hint Extern 1 (tot (ReadOptionalBody _ _ _ _ _ _) _ _) =>
  (apply tot_ReadOptionalBody; fit) : parser.

Lemma tot_ReadBaseInterfacesIfAny s : 2 * pending s + 4 <= n ->
  tot (ReadBaseInterfacesIfAny n) s (fun _ s' => step s s').
Proof. intros Hn; unfold ReadBaseInterfacesIfAny; run. Qed.
Hint Extern 1 (tot (ReadBaseInterfacesIfAny _) _ _) =>
  (apply tot_ReadBaseInterfacesIfAny; arith) : parser.

Lemma tot_some_member {D} (build : D -> MemberDeclarationSyntax) m s :
  tot m s (fun _ s' => step s s') -> tot (some_member build m) s (fun _ s' => step s s').
Proof. intros H; unfold some_member; eapply tot_call; [exact H|]; intros d s1 H1; exact H1. Qed.

Hint Extern 1 (tot (ReadMethodDeclaration _ _) _ _) =>
  (apply tot_ReadMethodDeclaration; fit) : parser.
Hint Extern 1 (tot (ReadOperatorDeclaration _ _) _ _) =>
  (apply tot_ReadOperatorDeclaration; fit) : parser.
Hint Extern 1 (tot (ReadConstructorDeclaration _ _) _ _) =>
  (apply tot_ReadConstructorDeclaration; fit) : parser.
Hint Extern 1 (tot (ReadIndexatorDeclaration _ _) _ _) =>
  (apply tot_ReadIndexatorDeclaration; fit) : parser.
Hint Extern 1 (tot (ReadPropertyDeclaration _ _) _ _) =>
  (apply tot_ReadPropertyDeclaration; fit) : parser.
Hint Extern 1 (tot (ReadComputedPropertyDeclaration _ _) _ _) =>
  (apply tot_ReadComputedPropertyDeclaration; fit) : parser.
Hint Extern 1 (tot (ReadFieldDeclaration _ _) _ _) =>
  (apply tot_ReadFieldDeclaration; fit) : parser.
Hint Extern 1 (tot (ReadDelegateDeclaration _ _) _ _) =>
  (apply tot_ReadDelegateDeclaration; fit) : parser.
Hint Extern 1 (tot (ReadEnumDeclaration _ _) _ _) =>
  (apply tot_ReadEnumDeclaration; fit) : parser.
Hint Extern 1 (tot (some_member _ _) _ _) => (apply tot_some_member) : parser.

Lemma tot_ReadClassDeclaration info s : fits (slack + 7) n s ->
  tot (ReadClassDeclaration n rec info) s (fun _ s' => step s s').
Proof. pose proof slack_10; intros [He Hn]; unfold ReadClassDeclaration; run. Qed.
Lemma tot_ReadStructDeclaration info s : fits (slack + 7) n s ->
  tot (ReadStructDeclaration n rec info) s (fun _ s' => step s s').
Proof. pose proof slack_10; intros [He Hn]; unfold ReadStructDeclaration; run. Qed.
Lemma tot_ReadInterfaceDeclaration info s : fits (slack + 7) n s ->
  tot (ReadInterfaceDeclaration n rec info) s (fun _ s' => step s s').
Proof. pose proof slack_10; intros [He Hn]; unfold ReadInterfaceDeclaration; run. Qed.
Hint Extern 1 (tot (ReadClassDeclaration _ _ _) _ _) =>
  (apply tot_ReadClassDeclaration; fit) : parser.
Hint Extern 1 (tot (ReadStructDeclaration _ _ _) _ _) =>
  (apply tot_ReadStructDeclaration; fit) : parser.
Hint Extern 1 (tot (ReadInterfaceDeclaration _ _ _) _ _) =>
  (apply tot_ReadInterfaceDeclaration; fit) : parser.

Lemma tot_ReadTypeDeclaration t info s : fits (slack + 7) n s ->
  tot (ReadTypeDeclaration n rec t info) s (fun _ s' => step s s').
Proof. intros [He Hn]; unfold ReadTypeDeclaration; run. Qed.

Lemma tot_ReadTypedMember kind info s : fits (slack + 7) n s ->
  tot (ReadTypedMember n kind info) s (fun _ s' => step s s').
Proof. intros [He Hn]; unfold ReadTypedMember; run. Qed.
Hint Extern 1 (tot (ReadTypedMember _ _ _) _ _) => (apply tot_ReadTypedMember; fit) : parser.

Lemma tot_ReadNamedMember kind info s : fits (slack + 7) n s ->
  tot (ReadNamedMember n kind info) s (fun _ s' => step s s').
Proof. pose proof slack_10; intros [He Hn]; unfold ReadNamedMember; run. Qed.

Lemma tot_ReadFunction info s : fits (slack + 7) n s ->
  tot (ReadFunction n info) s (fun _ s' => step s s').
Proof. pose proof slack_10; intros [He Hn]; unfold ReadFunction; run. Qed.
Hint Extern 1 (tot (ReadTypeDeclaration _ _ _ _) _ _) =>
  (apply tot_ReadTypeDeclaration; fit) : parser.
Hint Extern 1 (tot (ReadNamedMember _ _ _) _ _) => (apply tot_ReadNamedMember; fit) : parser.
Hint Extern 1 (tot (ReadFunction _ _) _ _) => (apply tot_ReadFunction; fit) : parser.

Lemma tot_ReadAttributeList_step s : pending s < n ->
  tot (ReadAttributeList n) s (fun _ s' => step s s').
Proof. intros H; eapply tot_mono; [apply tot_ReadAttributeList, H|]; intros a s' [H1 _]; exact H1. Qed.

Lemma tot_ReadMemberDeclaration kind s : fits (slack + 7) n s ->
  tot (ReadMemberDeclaration n rec kind) s (fun _ s' => step s s').
Proof.
  pose proof slack_10; intros [He Hn]; unfold ReadMemberDeclaration; cbv zeta.
  eapply tot_call; [apply tot_ReadAttributeList_step; lia|]; intros attrs s1 H1; cbn beta in H1; weigh; run.
Qed.
End Nested.
End Members.

Lemma members_ok n : forall kind s, fits (slack + 8) n s ->
  tot (members n kind) s (fun _ s' => step s s').
Proof.
  induction n as [|n IH]; intros kind s [He Hn]; [lia|]; cbn [members].
  apply tot_ReadMemberDeclaration; [exact IH|split; [exact He|lia]].
Qed.
#[export] Hint Extern 1 (tot (members _ _) _ _) => (apply members_ok; fit) : parser.

(** ** Units *)
Section Units.
Hint Resolve tot_ReadDeclaredName : parser.
Context (n : nat).

Lemma tot_SynchronizeToNextTopLevel s : pending s < n ->
  tot (SynchronizeToNextTopLevel n) s (fun _ s' => step s s').
Proof.
  intros Hn; unfold SynchronizeToNextTopLevel.
  apply (tot_loop (fun _ s1 => step s s1) (fun _ s1 => pending s1)); [|apply step_refl|exact Hn].
  intros [b p] s1 H1; cbv zeta; run1; [|run]; apply tot_Current; intros t Ht.
  match goal with |- tot (if ?b then _ else _) _ _ => destruct b end; [run|].
  eapply tot_call; [apply tot_Consume|]; intros _ s2 (H2 & _ & L2); discharge.
  destruct (Type_ t); apply tot_pret; split; first [steps|lia].
Qed.
Hint Extern 1 (tot (SynchronizeToNextTopLevel _) _ _) =>
  (apply tot_SynchronizeToNextTopLevel; arith) : parser.

Lemma tot_ReadUsingDirective s : pending s < n ->
  tot (ReadUsingDirective n) s (fun _ s' => step s s').
Proof.
  intros Hn; unfold ReadUsingDirective.
  assert (Hl : forall s1, pending s1 < n ->
    tot (ReadUsingDirective_loop n) s1 (fun _ s' => step s1 s')).
  { intros s1 Hn1; apply tot_list_loop; [|exact Hn1]; intros ns s2 H2; weigh; run. }
  run.
Qed.
Hint Extern 1 (tot (ReadUsingDirective _) _ _) => (apply tot_ReadUsingDirective; arith) : parser.

Lemma tot_ReadNamespaceDeclaration s : pending s < n ->
  tot (ReadNamespaceDeclaration n) s (fun _ s' => step s s').
Proof.
  intros Hn; unfold ReadNamespaceDeclaration.
  assert (Hl : forall l s1, pending s1 < n ->
    tot (ReadNamespaceDeclaration_loop n l) s1 (fun _ s' => step s1 s')).
  { intros l s1 Hn1; apply tot_list_loop; [|exact Hn1]; intros ns s2 H2; weigh; run. }
  run.
Qed.
Hint Extern 1 (tot (ReadNamespaceDeclaration _) _ _) =>
  (apply tot_ReadNamespaceDeclaration; arith) : parser.

Lemma tot_ReadUnitUsing u t s : pending s < n ->
  tot (ReadUnitUsing n u t) s (fun _ s' => step s s').
Proof. intros Hn; unfold ReadUnitUsing; run. Qed.
Lemma tot_ReadUnitNamespace u t s : pending s < n ->
  tot (ReadUnitNamespace n u t) s (fun _ s' => step s s').
Proof. intros Hn; unfold ReadUnitNamespace; run. Qed.
Lemma tot_ReadUnitMember u t s : fits (slack + 8) n s ->
  tot (ReadUnitMember n u t) s (fun _ s' => step s s').
Proof. intros [He Hn]; unfold ReadUnitMember; run. Qed.
Hint Extern 1 (tot (ReadUnitUsing _ _ _) _ _) => (apply tot_ReadUnitUsing; arith) : parser.
Hint Extern 1 (tot (ReadUnitNamespace _ _ _) _ _) => (apply tot_ReadUnitNamespace; arith) : parser.
Hint Extern 1 (tot (ReadUnitMember _ _ _) _ _) => (apply tot_ReadUnitMember; fit) : parser.

(** The report with which a unit is abandoned. *)
Definition abandoned : string := "Parser loop detected - aborting compilation unit".

Lemma tot_ReadCompilationUnit_loop s : fits (slack + 8) n s ->
  tot (ReadCompilationUnit_loop n) s (fun _ s' =>
    step s s' /\ (tokens s' = [] \/
                  exists ds t, Diagnostics s' = (ds ++ [mkDiagnostic t abandoned])%list)).
Proof.
  pose proof slack_guard; intros [He Hn]; unfold ReadCompilationUnit_loop.
  apply (tot_loop (fun x s1 => step s s1 /\ (0 <= fst x <= loopGuard_max)%Z)
           (fun x _ => Z.to_nat (loopGuard_max + 1 - fst x))).
  - intros [guard u] s1 [Hs1 Hg]; cbn [fst] in *; weigh.
    apply tot_CanConsume; intros Hne; cbn [negb]; [|apply tot_pret; auto].
    destruct (Z.ltb_spec loopGuard_max (guard + 1)).
    { unfold ReportCurrent; apply tot_assoc, tot_Current; intros t Ht.
      eapply (tot_call _ _ _ (fun _ s2 => step s1 s2 /\
        exists ds t, Diagnostics s2 = (ds ++ [mkDiagnostic t abandoned])%list)).
      - apply tot_and; [eapply tot_mono; [apply tot_ReportError|]; intros x s2 [H2 _]; exact H2|].
        cbn; eauto.
      - intros _ s2 [H2 D2]; apply tot_pret; split; [steps|auto]. }
    run1; eapply (tot_call _ _ _ (fun _ s2 => step s1 s2)); [run|].
    intros u2 s2 H2; apply tot_pret; cbn [fst]; split; [split; [steps|lia]|lia].
  - split; [apply step_refl|cbn; unfold loopGuard_max; lia].
  - cbn [fst]; rewrite Z.sub_0_r; lia.
Qed.
End Units.

(** Fuel that is enough for a list of tokens. *)
Definition fuel_for_tokens (ts : list SyntaxToken) : nat := 8 * weight ts + slack + 8.
