(* ===== verification/ParserSpec.v ===== *)
(** * The parser: what it promises

    Termination of the parser on every source text, alone and behind the
    lexical analyser, and the behaviour of its error paths. *)
From Stdlib Require Import ZArith Lia Bool List String.
From stdpp Require Import base list.
From S2P Require Import Prelude Tokens Reader Lexer LexBuffer LexerFacts LexerWords LexerStream SyntaxFacts SyntaxTree ParserState ParserTypes ParserExpr ParserStmt ParserDecl ParserFacts ParserTotal ParserTotalCode ParserTotalDecl.
Import ListNotations SyntaxFacts.
Open Scope Z_scope.
Open Scope shard_scope.
Open Scope parser_scope.
Open Scope nat_scope.

(** ** Termination *)
(** How reading a compilation unit ends: every counter is back at zero, and
    either all tokens were read or the last report says that the unit was
    abandoned. *)
Definition unit_read (s : PState) : Prop :=
  depths s = (0, 0, 0)%Z /\
  (tokens s = [] \/ exists ds t, Diagnostics s = (ds ++ [mkDiagnostic t abandoned])%list).

Lemma unit_total n ts :
  List.Forall (fun t => Type_ t <> TokenType.EndOfFile) ts -> fuel_for_tokens ts <= n ->
  tot (ReadCompilationUnit n) (new_parser ts) (fun _ s' => unit_read s').
Proof.
  intros He Hn; unfold ReadCompilationUnit, fuel_for_tokens in *.
  apply tot_bind; cbn; eapply tot_mono.
  - apply tot_ReadCompilationUnit_loop; split; [exact He|unfold pending; cbn [tokens new_parser]; lia].
  - intros u s' [H1 H2]; split; [rewrite (step_depths _ _ H1); reflexivity|exact H2].
Qed.

(** The buffer of a text: real tokens, whose number bounds the fuel. *)
Lemma text_tokens `{LocaleLaws} (reader : Reader) : exists ts,
  LexicalBuffer.FromText reader = Some (LexicalBuffer.mkBuffer ts 0) /\
  List.length ts <= List.length (stream reader) /\
  List.Forall (fun t => Type_ t <> TokenType.EndOfFile) ts /\
  fuel_for_tokens ts <= 16 * List.length (stream reader) + slack + 8.
Proof.
  destruct (FromText_total reader) as (ts & s' & Hs & Hl & E); exists ts; repeat split; auto.
  - eapply List.Forall_impl; [|apply (stream_tokens_ok _ _ _ Hs)]; intros t [_ Ht] Et.
    apply token_ok_not_eof in Ht; unfold is_eof in Ht; rewrite Et in Ht; discriminate.
  - unfold fuel_for_tokens; pose proof (weight_length ts); lia.
Qed.

(** Parsing any queue of tokens ends: with fuel linear in the number of
    tokens no loop and no recursion of the parser runs out, whatever the
    tokens are.  When the behaviour is defined the unit is left with every
    depth counter at zero, and with all tokens read unless the parser gave
    the unit up with its last report. *)
Theorem parser_total (n : nat) (ts : list SyntaxToken) :
  List.Forall (fun t => Type_ t <> TokenType.EndOfFile) ts ->
  fuel_for_tokens ts <= n ->
  ReadCompilationUnit n (new_parser ts) = Some UB \/
  exists unit s, ReadCompilationUnit n (new_parser ts) = done (unit, s) /\ unit_read s.
Proof.
  intros He Hn; pose proof (unit_total n ts He Hn) as H; unfold tot in H.
  destruct (ReadCompilationUnit n (new_parser ts)) as [[[u s]|e|]|]; try tauto.
  right; exists u, s; split; [reflexivity|exact H].
Qed.

(** C11: Reading a source text ends, from characters to tree: the buffer filled
    by the lexical analyser from any text is parsed with fuel linear in the
    length of the text, whichever characters it has. *)
Theorem source_total `{LocaleLaws} (reader : Reader) :
  exists ts, LexicalBuffer.FromText reader = Some (LexicalBuffer.mkBuffer ts 0) /\
    List.length ts <= List.length (stream reader) /\
    forall n tree, 16 * List.length (stream reader) + slack + 8 <= n ->
      FromSourceProvider n tree (new_parser ts) = Some UB \/
      exists unit s, FromSourceProvider n tree (new_parser ts) = done ((tree ++ [unit])%list, s)
        /\ unit_read s.
Proof.
  destruct (text_tokens reader) as (ts & E & Hl & He & Hf); exists ts; repeat split; auto.
  intros n tree Hn; pose proof (unit_total n ts He ltac:(lia)) as Hu; unfold tot in Hu.
  unfold FromSourceProvider, pbind.
  destruct (ReadCompilationUnit n (new_parser ts)) as [[[u s]|e|]|]; cbn; try tauto.
  right; exists u, s; auto.
Qed.

(** ** Witnesses *)
Lemma parser_total_witness :
  let ts := map (fun X => made X "x" empty_location false)
    [TokenType.ClassKeyword; TokenType.CloseCurl; TokenType.OpenSquare; TokenType.Identifier] in
  ReadCompilationUnit (fuel_for_tokens ts) (new_parser ts) = Some UB \/
  exists unit s, ReadCompilationUnit (fuel_for_tokens ts) (new_parser ts) = done (unit, s) /\ unit_read s.
Proof.
  apply parser_total; [|apply le_n].
  repeat (apply List.Forall_cons; [discriminate|]); apply List.Forall_nil.
Defined.

Lemma source_total_witness :
  exists ts, @LexicalBuffer.FromText classic (mkReader (L "a.shard") (L "class A { x"))
      = Some (LexicalBuffer.mkBuffer ts 0) /\
    List.length ts <= 11 /\
    forall n tree, 16 * 11 + slack + 8 <= n ->
      FromSourceProvider n tree (new_parser ts) = Some UB \/
      exists unit s, FromSourceProvider n tree (new_parser ts) = done ((tree ++ [unit])%list, s)
        /\ unit_read s.
Proof.
  exact (@source_total classic classic_laws (mkReader (L "a.shard") (L "class A { x"))).
Defined.
