(* ===== verification/Grammar.v ===== *)
(** * The grammar of the language

    What the parser is meant to read, stated without the parser: a definite
    clause grammar over queues of tokens.  [GType a q q' ty] says that the
    queue [q] begins with the type [ty] and that [q'] is what is left.  The
    precedence of operators is given by levels, as in a textbook grammar, and
    not by the loop of [ReadExpression]; what a phrase may be followed by is a
    condition on [q'].

    The judgements on expressions and statements have two budgets: [d] bounds
    the nesting of expressions, blocks and member chains and [k] the number of
    operators of an expression, which the parser limits to 64 each. *)
From Stdlib Require Import ZArith Lia Bool List String.
From stdpp Require Import base list.
From S2P Require Import Prelude Tokens SyntaxFacts SyntaxTree ParserState ParserExpr ParserStmt.
Import ListNotations SyntaxFacts.
Open Scope Z_scope.
Open Scope shard_scope.

(** A queue of tokens, and the type of the token ahead. *)
Abbreviation queue := (list SyntaxToken) (only parsing).
Definition ahead (q : queue) : TokenType := Type_ (hd eof_token q).

(** ** Types *)
(** The tokens that continue a type; [a] says whether [\[\]] does. *)
Definition continues_type (a : bool) (X : TokenType) : bool :=
  one_of ((if a then [TokenType.OpenSquare] else [])
          ++ [TokenType.Question; TokenType.LessOperator; TokenType.Delimeter]) X.

(** What closes a list of type arguments: [>], or the first half of [>>]
    whose second half is left. *)
Inductive closes_types : queue -> SyntaxToken -> queue -> Prop :=
| close_greater t q : Type_ t = TokenType.GreaterOperator -> closes_types (t :: q) t q
| close_shift t q : Type_ t = TokenType.RightShiftOperator ->
    let half := made TokenType.GreaterOperator ">" (Location t) false in
    closes_types (t :: q) half (half :: q).

Inductive GType : bool -> queue -> queue -> TypeSyntax -> Prop :=
| T_predefined a t q q' ty : IsPredefinedType (Type_ t) = true ->
    GModifiers a (PredefinedTypeSyntax t) q q' ty -> GType a (t :: q) q' ty
| T_name a t q q' ty : Type_ t = TokenType.Identifier ->
    GModifiers a (IdentifierNameTypeSyntax t) q q' ty -> GType a (t :: q) q' ty
| T_delegate a t o c q q1 q2 q' r ps ty : Type_ t = TokenType.DelegateKeyword ->
    Type_ o = TokenType.OpenCurl ->
    GType a q (o :: q1) r -> GDelegateParameters q1 c q2 ps ->
    GModifiers a (DelegateTypeSyntax t (Some r) (ParametersList o c ps)) q2 q' ty ->
    GType a (t :: q) q' ty
(** The suffixes of a type: [GModifiers a u q q' ty] reads them after [u]. *)
with GModifiers : bool -> TypeSyntax -> queue -> queue -> TypeSyntax -> Prop :=
| M_end a u q : continues_type a (ahead q) = false -> GModifiers a u q q u
| M_nullable a u t q : Type_ t = TokenType.Question ->
    GModifiers a u (t :: q) q (NullableTypeSyntax u t)
| M_array u o c q q' ty : Type_ o = TokenType.OpenSquare -> Type_ c = TokenType.CloseSquare ->
    GModifiers true (ArrayTypeSyntax u o c 1) q q' ty -> GModifiers true u (o :: c :: q) q' ty
| M_generic a u q q1 q' args ty : GTypeArguments q q1 args ->
    GModifiers a (GenericTypeSyntax u args) q1 q' ty -> GModifiers a u q q' ty
| M_qualified a u t i q q' ty : Type_ t = TokenType.Delimeter -> Type_ i = TokenType.Identifier ->
    GModifiers a (QualifiedNameTypeSyntax u i) q q' ty -> GModifiers a u (t :: i :: q) q' ty
with GTypeArguments : queue -> queue -> TypeArgumentsListSyntax -> Prop :=
| TA_list t c q q' tys : Type_ t = TokenType.LessOperator -> GTypes q c q' tys ->
    GTypeArguments (t :: q) q' (TypeArgumentsList t c tys)
with GTypes : queue -> SyntaxToken -> queue -> list (option TypeSyntax) -> Prop :=
| TS_last q q1 c q' ty : GType true q q1 ty -> closes_types q1 c q' ->
    GTypes q c q' [Some ty]
| TS_more q t q1 c q' ty tys : GType true q (t :: q1) ty -> Type_ t = TokenType.Comma ->
    GTypes q1 c q' tys -> GTypes q c q' (Some ty :: tys)
(** The parameters of a delegate, up to the token that closes them. *)
with GDelegateParameters : queue -> SyntaxToken -> queue -> list ParameterSyntax -> Prop :=
| D_none c q : Type_ c = TokenType.CloseCurl -> GDelegateParameters (c :: q) c q []
| D_some q c q' ps : GDelegateTypes q c q' ps -> GDelegateParameters q c q' ps
with GDelegateTypes : queue -> SyntaxToken -> queue -> list ParameterSyntax -> Prop :=
| DT_last q c q' ty : GType true q (c :: q') ty -> Type_ c = TokenType.CloseCurl ->
    GDelegateTypes q c q' [Parameter_ (Some ty) default_token]
| DT_more q t q1 c q' ty ps : GType true q (t :: q1) ty -> Type_ t = TokenType.Comma ->
    GDelegateTypes q1 c q' ps ->
    GDelegateTypes q c q' (Parameter_ (Some ty) default_token :: ps).

Scheme GType_ind' := Induction for GType Sort Prop
with GModifiers_ind' := Induction for GModifiers Sort Prop
with GTypeArguments_ind' := Induction for GTypeArguments Sort Prop
with GTypes_ind' := Induction for GTypes Sort Prop
with GDelegateParameters_ind' := Induction for GDelegateParameters Sort Prop
with GDelegateTypes_ind' := Induction for GDelegateTypes Sort Prop.
Combined Scheme types_mutind from GType_ind', GModifiers_ind', GTypeArguments_ind', GTypes_ind',
  GDelegateParameters_ind', GDelegateTypes_ind'.

(** [name : type, ...)] *)
Inductive parameter_name : SyntaxToken -> SyntaxToken -> Prop :=
| name_identifier t : Type_ t = TokenType.Identifier -> parameter_name t t
| name_value t : Type_ t = TokenType.ValueKeyword ->
    parameter_name t (mkToken (IsMissing t) TokenType.Identifier (Word t) (Location t)).

Inductive GParameters : queue -> SyntaxToken -> queue -> list ParameterSyntax -> Prop :=
| PS_last t x colon q c q' ty : parameter_name t x -> Type_ colon = TokenType.Colon ->
    GType true q (c :: q') ty -> Type_ c = TokenType.CloseCurl ->
    GParameters (t :: colon :: q) c q' [Parameter_ (Some ty) x]
| PS_more t x colon q comma q1 c q' ty ps : parameter_name t x -> Type_ colon = TokenType.Colon ->
    GType true q (comma :: q1) ty -> Type_ comma = TokenType.Comma ->
    GParameters q1 c q' ps ->
    GParameters (t :: colon :: q) c q' (Parameter_ (Some ty) x :: ps).

(** [( parameters )] *)
Inductive GParametersList : queue -> queue -> ParametersListSyntax -> Prop :=
| PL_none o c q : Type_ o = TokenType.OpenCurl -> Type_ c = TokenType.CloseCurl ->
    GParametersList (o :: c :: q) q (ParametersList o c [])
| PL_some o c q q' ps : Type_ o = TokenType.OpenCurl -> GParameters q c q' ps ->
    GParametersList (o :: q) q' (ParametersList o c ps).

(** ** What follows a name

    Whether the tokens after [name <] look like the arguments of a generic
    call or of a generic type: [closes] says how many levels a token closes and
    [X] is the token that must follow. *)
Fixpoint looks_generic (closes : TokenType -> Z) (X : TokenType) (depth : Z) (q : queue) : bool :=
  match q with
  | [] => false
  | t :: q =>
      match Type_ t with
      | TokenType.EndOfFile | TokenType.Unknown => false
      | TokenType.LessOperator => looks_generic closes X (depth + 1) q
      | type =>
          if (0 <? closes type) && (depth - closes type =? 0) then ahead q =tt X
          else looks_generic closes X (depth - closes type) q
      end
  end.

Definition closes_call (X : TokenType) : Z :=
  match X with
  | TokenType.GreaterOperator => 1
  | TokenType.RightShiftOperator => 2
  | _ => 0
  end.
Definition closes_receiver (X : TokenType) : Z :=
  match X with TokenType.GreaterOperator => 1 | _ => 0 end.

(** [q] begins after the [<]. *)
Definition generic_call (q : queue) : bool := looks_generic closes_call TokenType.OpenCurl 1 q.
Definition generic_receiver (q : queue) : bool :=
  looks_generic closes_receiver TokenType.Delimeter 1 q.

(** A name ends at an operator or at punctuation that does not continue it. *)
Definition ends_name (q : queue) : bool :=
  let X := ahead q in
  (IsOperator X || IsPunctuation X)
  && negb (one_of [TokenType.Delimeter; TokenType.OpenSquare; TokenType.OpenCurl] X)
  && negb ((X =tt TokenType.LessOperator) && (generic_call (tl q) || generic_receiver (tl q))).

(** ** Operators *)
Definition level (X : TokenType) : Z := GetOperatorPrecendence X.
(** The level of what is no infix or postfix expression. *)
Definition primary_level : Z := 13.

Definition literal (X : TokenType) : bool :=
  one_of [TokenType.NullLiteral; TokenType.BooleanLiteral; TokenType.NumberLiteral;
          TokenType.DoubleLiteral; TokenType.StringLiteral; TokenType.CharLiteral] X.
Definition prefix (X : TokenType) : bool :=
  one_of [TokenType.SubOperator; TokenType.AddOperator; TokenType.NotOperator;
          TokenType.IncrementOperator; TokenType.DecrementOperator; TokenType.ThrowKeyword] X.
Definition postfix (X : TokenType) : bool :=
  one_of [TokenType.IncrementOperator; TokenType.DecrementOperator] X.
Definition infix (X : TokenType) : bool :=
  (IsBinaryOperator X || (X =tt TokenType.AssignOperator))
  && negb (one_of [TokenType.AsOperator; TokenType.IsOperator] X).

(** The node of an infix operator. *)
Definition infix_node (op : SyntaxToken) (l r : option ExpressionSyntax) : ExpressionSyntax :=
  match Type_ op with
  | TokenType.RangeOperator => RangeExpressionSyntax op false l r
  | TokenType.RangeInclusiveOperator => RangeExpressionSyntax op true l r
  | _ => BinaryExpressionSyntax op l r
  end.

(** The node of [as] and [is]. *)
Definition type_test_node (op : SyntaxToken) (e : option ExpressionSyntax) (ty : option TypeSyntax) :
    ExpressionSyntax :=
  if Type_ op =tt TokenType.AsOperator then CastExpressionSyntax op e ty
  else IsExpressionSyntax op e ty.

(** ** Nodes the parser makes up *)
Definition no_delimiter : SyntaxToken := made TokenType.Delimeter "" empty_location false.
Definition index_name : SyntaxToken := made TokenType.IndexerKeyword "indexer" empty_location false.
Definition no_name : SyntaxToken := made TokenType.Unknown "" empty_location true.

(** A range alone between brackets is the range. *)
Definition collection_node (o c : SyntaxToken) (es : list (option ExpressionSyntax)) :
    ExpressionSyntax :=
  match es with
  | [Some (RangeExpressionSyntax _ _ _ _ as range)] => range
  | _ => CollectionExpressionSyntax o c es
  end.

(** The block an expression body [=> e] stands for, [q] being what follows. *)
Definition expression_body (arrow : SyntaxToken) (e : ExpressionSyntax) (q : queue) :
    StatementsBlockSyntax :=
  let loc := match q with [] => Location arrow | t :: _ => Location t end in
  StatementsBlock default_token default_token default_token
    [ReturnStatementSyntax (made TokenType.Semicolon ";" loc false)
       (made TokenType.ReturnKeyword "return" (Location arrow) false) (Some e)] arrow true.

(** The block of one statement without braces. *)
Definition single_statement (s : StatementSyntax) : StatementsBlockSyntax :=
  StatementsBlock default_token default_token default_token [s] default_token false.

(** The name of a link of a chain, [first] when it begins the chain. *)
Inductive link_name : bool -> queue -> SyntaxToken -> SyntaxToken -> queue -> Prop :=
| link_first t q : one_of linked_start (Type_ t) = true -> link_name true (t :: q) no_delimiter t q
| link_next dot t q : Type_ dot = TokenType.Delimeter -> Type_ t = TokenType.Identifier ->
    link_name false (dot :: t :: q) dot t q.

(** [async lambda] or [lambda]: the modifier is the default token then. *)
Inductive lambda_head : queue -> SyntaxToken -> SyntaxToken -> queue -> Prop :=
| lambda_async a t q : Type_ a = TokenType.AsyncKeyword -> Type_ t = TokenType.LambdaKeyword ->
    lambda_head (a :: t :: q) a t q
| lambda_plain t q : Type_ t = TokenType.LambdaKeyword -> lambda_head (t :: q) default_token t q.

(** [-> type], or nothing. *)
Inductive GReturnType : queue -> SyntaxToken -> queue -> option TypeSyntax -> Prop :=
| RT_none q : ahead q <> TokenType.ArrowOperator -> GReturnType q default_token q None
| RT_type t q q' ty : Type_ t = TokenType.ArrowOperator -> GType true q q' ty ->
    GReturnType (t :: q) t q' (Some ty).

(** [is type name], the name being optional. *)
Inductive GIsPattern : queue -> queue -> ExpressionSyntax -> Prop :=
| IP_named t q x q' ty : Type_ t = TokenType.IsOperator -> GType true q (x :: q') ty ->
    Type_ x = TokenType.Identifier -> GIsPattern (t :: q) q' (IsPatternSyntax t (Some ty) x)
| IP_plain t q q' ty : Type_ t = TokenType.IsOperator -> GType true q q' ty ->
    ahead q' <> TokenType.Identifier ->
    GIsPattern (t :: q) q' (IsPatternSyntax t (Some ty) default_token).

(** [: type], or nothing. *)
Inductive GCatchType : queue -> SyntaxToken -> queue -> option TypeSyntax -> Prop :=
| CY_none q : ahead q <> TokenType.Colon -> GCatchType q default_token q None
| CY_type t q q' ty : Type_ t = TokenType.Colon -> GType true q q' ty ->
    GCatchType (t :: q) t q' (Some ty).

(** The header of [for] is that of a range loop; [q] begins after [for]. *)
Definition range_for (q : queue) : bool :=
  match q with
  | p0 :: p1 :: q =>
      (Type_ p0 =tt TokenType.Identifier) && (Type_ p1 =tt TokenType.InKeyword)
      || (Type_ p0 =tt TokenType.OpenCurl) && (Type_ p1 =tt TokenType.Identifier)
         && (ahead q =tt TokenType.InKeyword)
  | _ => false
  end.

(** A statement that begins like a variable declaration. *)
Definition declares (q : queue) : bool :=
  match q with
  | t :: p :: _ =>
      (Type_ t =tt TokenType.Identifier)
      && one_of [TokenType.Colon; TokenType.DeclareAssignOperator] (Type_ p)
      || IsPredefinedType (Type_ t) && (Type_ p =tt TokenType.Identifier)
  | _ => false
  end.

(** ** Expressions and statements *)
Inductive GExpression : nat -> nat -> Z -> queue -> queue -> ExpressionSyntax -> Prop :=
| E_primary d k q q' e : GPrimary d k q q' e -> GExpression (S d) k primary_level q q' e
| E_infix d k1 k2 lv op q q1 q' l r : GExpression (S d) k1 lv q (op :: q1) l ->
    infix (Type_ op) = true -> level (Type_ op) <= lv ->
    GOperand d k2 (level (Type_ op)) q1 q' r ->
    GExpression (S d) (k1 + S k2) (level (Type_ op)) q q' (infix_node op (Some l) (Some r))
| E_type_test d k lv op q q1 q' l ty : GExpression (S d) k lv q (op :: q1) l ->
    one_of [TokenType.AsOperator; TokenType.IsOperator] (Type_ op) = true ->
    level (Type_ op) <= lv -> GType true q1 q' ty ->
    GExpression (S d) (S k) (level (Type_ op)) q q' (type_test_node op (Some l) (Some ty))
| E_postfix d k lv op q q' e : GExpression (S d) k lv q (op :: q') e ->
    postfix (Type_ op) = true -> level (Type_ op) <= lv ->
    GExpression (S d) (S k) (level (Type_ op)) q q' (UnaryExpressionSyntax op true (Some e))
| E_invocation d k1 k2 lv q q1 q' f args : GExpression (S d) k1 lv q q1 f ->
    level TokenType.OpenCurl <= lv -> GArguments d k2 q1 q' args ->
    GExpression (S d) (k1 + S k2) (level TokenType.OpenCurl) q q'
      (InvokationExpressionSyntax default_token no_name (Some f) None (Some args))
(** An expression whose operators bind tighter than [bp], and that ends where
    no such operator follows. *)
with GOperand : nat -> nat -> Z -> queue -> queue -> ExpressionSyntax -> Prop :=
| O_operand d k bp lv q q' e : GExpression d k lv q q' e -> 0 <= bp < lv -> level (ahead q') <= bp ->
    GOperand d k bp q q' e
with GPrimary : nat -> nat -> queue -> queue -> ExpressionSyntax -> Prop :=
| P_literal d k t q : literal (Type_ t) = true ->
    GPrimary d k (t :: q) q (LiteralExpressionSyntax t)
| P_prefix d k t q q' e : prefix (Type_ t) = true -> GPrimary d k q q' e ->
    GPrimary d k (t :: q) q' (UnaryExpressionSyntax t false (Some e))
| P_await d k t q q' e : Type_ t = TokenType.AwaitKeyword -> GPrimary d k q q' e ->
    GPrimary d k (t :: q) q' (AwaitExpressionSyntax t (Some e))
| P_parens d k o c q q' e : Type_ o = TokenType.OpenCurl -> GOperand d k 0 q (c :: q') e ->
    Type_ c = TokenType.CloseCurl -> ahead q' <> TokenType.Delimeter ->
    GPrimary d k (o :: q) q' e
| P_parens_chain d k1 k2 o c q q1 q' e e' : Type_ o = TokenType.OpenCurl ->
    GOperand d k1 0 q (c :: q1) e -> Type_ c = TokenType.CloseCurl ->
    ahead q1 = TokenType.Delimeter -> GLink d k2 (Some e) false q1 q' e' ->
    GPrimary d (k1 + k2) (o :: q) q' e'
| P_chain d k q q' e : GLink d k None true q q' e -> GPrimary d k q q' e
| P_empty_collection d k o c q : Type_ o = TokenType.OpenSquare -> Type_ c = TokenType.CloseSquare ->
    GPrimary d k (o :: c :: q) q (CollectionExpressionSyntax o c [])
| P_collection d k o c q q' es : Type_ o = TokenType.OpenSquare ->
    GSequence d k TokenType.CloseSquare q c q' es ->
    GPrimary d k (o :: q) q' (collection_node o c (map Some es))
| P_new d k t q q1 q' ty args : Type_ t = TokenType.NewKeyword -> GType false q q1 ty ->
    GArguments d k q1 q' args ->
    GPrimary d k (t :: q) q' (ObjectExpressionSyntax t (Some ty) false None (Some args))
| P_new_array d k t o c q q1 q' ty e : Type_ t = TokenType.NewKeyword ->
    GType false q (o :: q1) ty -> Type_ o = TokenType.OpenSquare ->
    GOperand d k 0 q1 (c :: q') e -> Type_ c = TokenType.CloseSquare ->
    GPrimary d k (t :: q) q' (ObjectExpressionSyntax t (Some ty) true (Some e) None)
| P_lambda d k async t q q1 q2 ps arrow q3 r op q' e : lambda_head q async t q1 ->
    GParametersList q1 q2 ps -> GReturnType q2 arrow (op :: q3) r ->
    Type_ op = TokenType.LambdaOperator -> GOperand d k 0 q3 q' e ->
    GPrimary d k q q'
      (LambdaExpressionSyntax t op arrow async ps r (expression_body op e q'))
| P_lambda_block d k async t q q1 q2 ps arrow q3 ty q' b : lambda_head q async t q1 ->
    GParametersList q1 q2 ps -> GReturnType q2 arrow q3 (Some ty) ->
    ahead q3 = TokenType.OpenBrace -> GBlock d k q3 q' b ->
    GPrimary d k q q' (LambdaExpressionSyntax t default_token arrow async ps (Some ty) b)
| P_if d k1 k2 t q q1 q' c a : Type_ t = TokenType.IfKeyword -> GOperand d k1 0 q q1 c ->
    GOperand d k2 0 q1 q' a -> ahead q' <> TokenType.ElseKeyword ->
    GPrimary d (k1 + k2) (t :: q) q' (IfExpressionSyntax t default_token (Some c) (Some a) None)
| P_if_else d k1 k2 k3 t else_ q q1 q2 q' c a b : Type_ t = TokenType.IfKeyword ->
    GOperand d k1 0 q q1 c -> GOperand d k2 0 q1 (else_ :: q2) a ->
    Type_ else_ = TokenType.ElseKeyword -> GOperand d k3 0 q2 q' b ->
    GPrimary d (k1 + k2 + k3) (t :: q) q'
      (IfExpressionSyntax t else_ (Some c) (Some a) (Some b))
| P_switch d k1 k2 t o c q q1 q' e arms : Type_ t = TokenType.SwitchKeyword ->
    GOperand d k1 0 q (o :: q1) e -> Type_ o = TokenType.OpenBrace ->
    GArms d k2 q1 c q' arms ->
    GPrimary d (k1 + k2) (t :: q) q' (SwitchExpressionSyntax t o c (Some e) arms)
(** The links of a member chain after [prev]. *)
with GLink : nat -> nat -> option ExpressionSyntax -> bool -> queue -> queue ->
    ExpressionSyntax -> Prop :=
| L_name d k prev first q dot x q' : link_name first q dot x q' -> ends_name q' = true ->
    GLink (S d) k prev first q q' (MemberAccessExpressionSyntax dot x prev)
| L_member d k prev first q dot x q1 q' e : link_name first q dot x q1 ->
    ahead q1 = TokenType.Delimeter ->
    GLink d k (Some (MemberAccessExpressionSyntax dot x prev)) false q1 q' e ->
    GLink (S d) k prev first q q' e
| L_index d k1 k2 prev first q dot x q1 q2 q' e e' : link_name first q dot x q1 ->
    ahead q1 = TokenType.OpenSquare ->
    GIndex d k1 (Some (MemberAccessExpressionSyntax dot x prev)) q1 q2 e ->
    GRest d k2 e q2 q' e' -> GLink (S d) (k1 + k2) prev first q q' e'
| L_call d k1 k2 prev first q dot x q1 q2 q' args e : link_name first q dot x q1 ->
    GArguments d k1 q1 q2 args ->
    GRest d k2 (InvokationExpressionSyntax dot x prev None (Some args)) q2 q' e ->
    GLink (S d) (k1 + k2) prev first q q' e
| L_generic_call d k1 k2 prev first q dot x q1 q2 q3 q' tys args e : link_name first q dot x q1 ->
    generic_call (tl q1) = true -> GTypeArguments q1 q2 tys -> GArguments d k1 q2 q3 args ->
    GRest d k2 (InvokationExpressionSyntax dot x prev (Some tys) (Some args)) q3 q' e ->
    GLink (S d) (k1 + k2) prev first q q' e
| L_generic_receiver d k x q dot q1 q2 q' tys e : link_name true q dot x q1 ->
    generic_call (tl q1) = false -> generic_receiver (tl q1) = true ->
    GTypeArguments q1 q2 tys ->
    GLink d k (Some (TypeExpressionSyntax (GenericTypeSyntax (IdentifierNameTypeSyntax x) tys)))
      false q2 q' e ->
    GLink (S d) k None true q q' e
(** What follows a call or an index in a chain. *)
with GRest : nat -> nat -> ExpressionSyntax -> queue -> queue -> ExpressionSyntax -> Prop :=
| R_end d k e q : ahead q <> TokenType.OpenSquare -> ahead q <> TokenType.Delimeter ->
    GRest d k e q q e
| R_member d k e q q' e' : ahead q = TokenType.Delimeter -> GLink d k (Some e) false q q' e' ->
    GRest d k e q q' e'
| R_index d k e q q' e' : ahead q = TokenType.OpenSquare -> GIndex d k (Some e) q q' e' ->
    ahead q' <> TokenType.Delimeter -> GRest d k e q q' e'
| R_index_member d k1 k2 e q q1 q' e1 e' : ahead q = TokenType.OpenSquare ->
    GIndex d k1 (Some e) q q1 e1 -> ahead q1 = TokenType.Delimeter ->
    GLink d k2 (Some e1) false q1 q' e' -> GRest d (k1 + k2) e q q' e'
(** [\[ ... \]] once or more. *)
with GIndex : nat -> nat -> option ExpressionSyntax -> queue -> queue -> ExpressionSyntax -> Prop :=
| I_last d k prev q q' args : GIndexList d k q q' args -> ahead q' <> TokenType.OpenSquare ->
    GIndex d k prev q q' (IndexatorExpressionSyntax default_token index_name prev args)
| I_more d k1 k2 prev q q1 q' args e : GIndexList d k1 q q1 args ->
    ahead q1 = TokenType.OpenSquare ->
    GIndex d k2 (Some (IndexatorExpressionSyntax default_token index_name prev args)) q1 q' e ->
    GIndex d (k1 + k2) prev q q' e
with GIndexList : nat -> nat -> queue -> queue -> ArgumentsListSyntax -> Prop :=
| IL_none d k o c q : Type_ o = TokenType.OpenSquare -> Type_ c = TokenType.CloseSquare ->
    GIndexList d k (o :: c :: q) q (ArgumentsList o c [])
| IL_some d k o c q q' es : Type_ o = TokenType.OpenSquare ->
    GSequence d k TokenType.CloseSquare q c q' es ->
    GIndexList d k (o :: q) q' (ArgumentsList o c (map (fun e => Argument (Some e)) es))
with GArguments : nat -> nat -> queue -> queue -> ArgumentsListSyntax -> Prop :=
| A_none d k o c q : Type_ o = TokenType.OpenCurl -> Type_ c = TokenType.CloseCurl ->
    GArguments d k (o :: c :: q) q (ArgumentsList o c [])
| A_some d k o c q q' es : Type_ o = TokenType.OpenCurl ->
    GSequence d k TokenType.CloseCurl q c q' es ->
    GArguments d k (o :: q) q' (ArgumentsList o c (map (fun e => Argument (Some e)) es))
(** One expression or more, separated by commas, up to [closer]. *)
with GSequence : nat -> nat -> TokenType -> queue -> SyntaxToken -> queue ->
    list ExpressionSyntax -> Prop :=
| Q_last d k X q c q' e : GOperand d k 0 q (c :: q') e -> Type_ c = X ->
    GSequence d k X q c q' [e]
| Q_more d k1 k2 X q comma q1 c q' e es : GOperand d k1 0 q (comma :: q1) e ->
    Type_ comma = TokenType.Comma -> GSequence d k2 X q1 c q' es ->
    GSequence d (k1 + k2) X q c q' (e :: es)
(** The arms of a [switch] expression, up to the brace. *)
with GArms : nat -> nat -> queue -> SyntaxToken -> queue -> list SwitchArmSyntax -> Prop :=
| AR_none d k c q : Type_ c = TokenType.CloseBrace -> GArms d k (c :: q) c q []
| AR_comma d k1 k2 k3 q arrow q1 comma q2 c q' p e arms : GPattern d k1 q (arrow :: q1) p ->
    Type_ arrow = TokenType.LambdaOperator -> GOperand d k2 0 q1 (comma :: q2) e ->
    Type_ comma = TokenType.Comma -> GArms d k3 q2 c q' arms ->
    GArms d (k1 + k2 + k3) q c q' (SwitchArm arrow (Some p) (Some e) :: arms)
| AR_plain d k1 k2 k3 q arrow q1 q2 c q' p e arms : GPattern d k1 q (arrow :: q1) p ->
    Type_ arrow = TokenType.LambdaOperator -> GOperand d k2 0 q1 q2 e ->
    ahead q2 <> TokenType.Comma -> GArms d k3 q2 c q' arms ->
    GArms d (k1 + k2 + k3) q c q' (SwitchArm arrow (Some p) (Some e) :: arms)
with GPattern : nat -> nat -> queue -> queue -> ExpressionSyntax -> Prop :=
| PT_wildcard d k t q : Type_ t = TokenType.Identifier -> Word t = L "_" ->
    GPattern d k (t :: q) q
      (LiteralExpressionSyntax (made TokenType.Identifier "_" (Location t) false))
| PT_is d k q q' p : GIsPattern q q' p -> GPattern d k q q' p
| PT_expression d k q q' e : (Word (hd eof_token q) =w L "_") = false ->
    GOperand d k 0 q q' e -> GPattern d k q q' e
(** The plain statements; the semicolon is not part of them. *)
with GPlain : nat -> nat -> queue -> queue -> StatementSyntax -> Prop :=
| S_empty d k q : ahead q = TokenType.Semicolon ->
    GPlain d k q q (ExpressionStatementSyntax default_token None)
| S_typed d k x colon a q q1 q' ty e : Type_ x = TokenType.Identifier ->
    Type_ colon = TokenType.Colon -> GType true q (a :: q1) ty ->
    Type_ a = TokenType.AssignOperator -> GOperand d k 0 q1 q' e ->
    GPlain d k (x :: colon :: q) q' (VariableStatementSyntax default_token ty x a (Some e))
| S_inferred d k x a q q' e : Type_ x = TokenType.Identifier ->
    Type_ a = TokenType.DeclareAssignOperator -> GOperand d k 0 q q' e ->
    GPlain d k (x :: a :: q) q'
      (VariableStatementSyntax default_token
         (PredefinedTypeSyntax (made TokenType.VarKeyword "var" (Location x) false)) x a (Some e))
| S_expression d k q q' e : declares q = false -> GOperand d k 0 q q' e ->
    GPlain d k q q' (ExpressionStatementSyntax default_token (Some e))
(** A statement of a block. *)
with GStatement : nat -> nat -> queue -> queue -> StatementSyntax -> Prop :=
| N_plain d k q semi q' s : IsKeyword (ahead q) = false -> GPlain d k q (semi :: q') s ->
    Type_ semi = TokenType.Semicolon -> GStatement d k q q' (set_SemicolonToken s semi)
| N_return d k t semi q q' e : Type_ t = TokenType.ReturnKeyword -> GOptional d k q (semi :: q') e ->
    GStatement d k (t :: q) q' (ReturnStatementSyntax semi t e)
| N_throw d k t semi q q' e : Type_ t = TokenType.ThrowKeyword -> GOptional d k q (semi :: q') e ->
    GStatement d k (t :: q) q' (ThrowStatementSyntax semi t e)
| N_break d k t semi q : Type_ t = TokenType.BreakKeyword -> Type_ semi = TokenType.Semicolon ->
    GStatement d k (t :: semi :: q) q (BreakStatementSyntax semi t)
| N_continue d k t semi q : Type_ t = TokenType.ContinueKeyword ->
    Type_ semi = TokenType.Semicolon ->
    GStatement d k (t :: semi :: q) q (ContinueStatementSyntax semi t)
| N_defer d k t semi q q' s : Type_ t = TokenType.DeferKeyword -> ahead q <> TokenType.Semicolon ->
    GPlain d k q (semi :: q') s -> Type_ semi = TokenType.Semicolon ->
    GStatement d k (t :: q) q' (DeferStatementSyntax semi t (Some s))
| N_condition d k q q' s :
    one_of [TokenType.IfKeyword; TokenType.UnlessKeyword] (ahead q) = true ->
    GCondition d k q q' s -> GStatement d k q q' s
| N_while d k t o c q q1 q' e b : Type_ t = TokenType.WhileKeyword -> Type_ o = TokenType.OpenCurl ->
    GOperand d k 0 q (c :: q1) e -> Type_ c = TokenType.CloseCurl -> GBlock d k q1 q' b ->
    GStatement d k (t :: o :: q) q' (WhileStatementSyntax loop_semicolon t o c (Some e) b)
| N_until d k t o c q q1 q' e b : Type_ t = TokenType.UntilKeyword -> Type_ o = TokenType.OpenCurl ->
    GOperand d k 0 q (c :: q1) e -> Type_ c = TokenType.CloseCurl -> GBlock d k q1 q' b ->
    GStatement d k (t :: o :: q) q' (UntilStatementSyntax loop_semicolon t o c (Some e) b)
| N_for d k t o s1 s2 c q q1 q2 q3 q' i e r b : Type_ t = TokenType.ForKeyword ->
    Type_ o = TokenType.OpenCurl -> range_for (o :: q) = false ->
    GPlain d k q (s1 :: q1) i -> Type_ s1 = TokenType.Semicolon ->
    GOperand d k 0 q1 (s2 :: q2) e -> Type_ s2 = TokenType.Semicolon ->
    GPlain d k q2 (c :: q3) r -> Type_ c = TokenType.CloseCurl -> GBlock d k q3 q' b ->
    GStatement d k (t :: o :: q) q'
      (ForStatementSyntax loop_semicolon t o s1 s2 c (Some i) (Some e) (Some r) b)
| N_foreach d k t x in_ q q' e b : Type_ t = TokenType.ForeachKeyword ->
    GRange d k q x in_ q' e b ->
    GStatement d k (t :: q) q' (ForEachStatementSyntax t x in_ (Some e) b)
| N_for_in d k t x in_ q q' e b : Type_ t = TokenType.ForKeyword -> GRange d k q x in_ q' e b ->
    GStatement d k (t :: q) q' (ForInStatementSyntax t x in_ (Some e) b)
| N_try d k t q q1 q' b c cs : Type_ t = TokenType.TryKeyword -> GBlock d k q q1 b ->
    GCatches d k q1 q' (c :: cs) -> GStatement d k (t :: q) q' (TryStatementSyntax t b (c :: cs))
| N_switch d k t o c ob cb q q1 q' e cases : Type_ t = TokenType.SwitchKeyword ->
    Type_ o = TokenType.OpenCurl -> GOperand d k 0 q (c :: ob :: q1) e ->
    Type_ c = TokenType.CloseCurl -> Type_ ob = TokenType.OpenBrace ->
    GCases d k q1 cb q' cases ->
    GStatement d k (t :: o :: q) q' (SwitchStatementSyntax t o c ob cb (Some e) cases)
(** The operand of [return] and [throw], and the semicolon that follows it. *)
with GOptional : nat -> nat -> queue -> queue -> option ExpressionSyntax -> Prop :=
| OP_none d k q : ahead q = TokenType.Semicolon -> GOptional d k q q None
| OP_some d k q q' e : GOperand d k 0 q q' e -> ahead q' = TokenType.Semicolon ->
    GOptional d k q q' (Some e)
(** [if], [unless] and [else]. *)
with GCondition : nat -> nat -> queue -> queue -> StatementSyntax -> Prop :=
| C_if d k t o c q q1 q2 q' s b next : Type_ t = TokenType.IfKeyword ->
    Type_ o = TokenType.OpenCurl -> GPlain d k q (c :: q1) s -> Type_ c = TokenType.CloseCurl ->
    GBlock d k q1 q2 b -> ahead q1 <> TokenType.Semicolon -> GElse d k q2 q' next ->
    GCondition d k (t :: o :: q) q' (IfStatementSyntax t o c (Some s) b next)
| C_unless d k t o c q q1 q2 q' s b next : Type_ t = TokenType.UnlessKeyword ->
    Type_ o = TokenType.OpenCurl -> GPlain d k q (c :: q1) s -> Type_ c = TokenType.CloseCurl ->
    GBlock d k q1 q2 b -> ahead q1 <> TokenType.Semicolon -> GElse d k q2 q' next ->
    GCondition d k (t :: o :: q) q' (UnlessStatementSyntax t o c (Some s) b next)
| C_else d k t q q' b : Type_ t = TokenType.ElseKeyword ->
    one_of [TokenType.IfKeyword; TokenType.UnlessKeyword] (ahead q) = false ->
    GBlock d k q q' b -> GCondition d k (t :: q) q' (ElseStatementSyntax t b)
| C_else_if d k t q q' s : Type_ t = TokenType.ElseKeyword ->
    one_of [TokenType.IfKeyword; TokenType.UnlessKeyword] (ahead q) = true ->
    GCondition d k q q' s -> GCondition d k (t :: q) q' s
with GElse : nat -> nat -> queue -> queue -> option StatementSyntax -> Prop :=
| EL_none d k q : ahead q <> TokenType.ElseKeyword -> GElse d k q q None
| EL_some d k q q' s : ahead q = TokenType.ElseKeyword -> GCondition d k q q' s ->
    GElse d k q q' (Some s)
(** [name in range block], in parentheses or not. *)
with GRange : nat -> nat -> queue -> SyntaxToken -> SyntaxToken -> queue -> ExpressionSyntax ->
    StatementsBlockSyntax -> Prop :=
| RG_plain d k x in_ q q1 q' e b : Type_ x = TokenType.Identifier -> Type_ in_ = TokenType.InKeyword ->
    GOperand d k 0 q q1 e -> GBlock d k q1 q' b -> GRange d k (x :: in_ :: q) x in_ q' e b
| RG_parens d k o x in_ c q q1 q' e b : Type_ o = TokenType.OpenCurl ->
    Type_ x = TokenType.Identifier -> Type_ in_ = TokenType.InKeyword ->
    GOperand d k 0 q (c :: q1) e -> Type_ c = TokenType.CloseCurl -> GBlock d k q1 q' b ->
    GRange d k (o :: x :: in_ :: q) x in_ q' e b
with GCatches : nat -> nat -> queue -> queue -> list CatchClauseSyntax -> Prop :=
| CT_none d k q : ahead q <> TokenType.CatchKeyword -> GCatches d k q q []
| CT_parens d k t o x c colon q q1 q2 q' ty b cs : Type_ t = TokenType.CatchKeyword ->
    Type_ o = TokenType.OpenCurl -> Type_ x = TokenType.Identifier ->
    GCatchType q colon (c :: q1) ty -> Type_ c = TokenType.CloseCurl ->
    GBlock d k q1 q2 b -> GCatches d k q2 q' cs ->
    GCatches d k (t :: o :: x :: q) q' (CatchClause t o x colon c ty b :: cs)
| CT_plain d k t x colon q q1 q2 q' ty b cs : Type_ t = TokenType.CatchKeyword ->
    Type_ x = TokenType.Identifier -> GCatchType q colon q1 ty ->
    GBlock d k q1 q2 b -> GCatches d k q2 q' cs ->
    GCatches d k (t :: x :: q) q' (CatchClause t default_token x colon default_token ty b :: cs)
with GCases : nat -> nat -> queue -> SyntaxToken -> queue -> list SwitchCaseClauseSyntax -> Prop :=
| CS_none d k c q : Type_ c = TokenType.CloseBrace -> GCases d k (c :: q) c q []
| CS_default d k t colon q q1 c q' b cs : Type_ t = TokenType.DefaultKeyword ->
    Type_ colon = TokenType.Colon -> GBlock d k q q1 b -> GCases d k q1 c q' cs ->
    GCases d k (t :: colon :: q) c q' (SwitchCaseClause t colon None b :: cs)
| CS_is d k t colon q q1 q2 c q' p b cs : Type_ t = TokenType.CaseKeyword ->
    GIsPattern q (colon :: q1) p -> Type_ colon = TokenType.Colon ->
    GBlock d k q1 q2 b -> GCases d k q2 c q' cs ->
    GCases d k (t :: q) c q' (SwitchCaseClause t colon (Some p) b :: cs)
| CS_expression d k t colon q q1 q2 c q' e b cs : Type_ t = TokenType.CaseKeyword ->
    GOperand d k 0 q (colon :: q1) e -> Type_ colon = TokenType.Colon ->
    GBlock d k q1 q2 b -> GCases d k q2 c q' cs ->
    GCases d k (t :: q) c q' (SwitchCaseClause t colon (Some e) b :: cs)
(** [;], [{ statements }] or one statement. *)
with GBlock : nat -> nat -> queue -> queue -> StatementsBlockSyntax -> Prop :=
| B_semicolon d k t q : Type_ t = TokenType.Semicolon ->
    GBlock (S d) k (t :: q) q
      (StatementsBlock default_token default_token t [] default_token false)
| B_braces d k o c q q' ss : Type_ o = TokenType.OpenBrace -> GStatements d k q c q' ss ->
    Z.of_nat (List.length ss) < loopGuard_max ->
    GBlock (S d) k (o :: q) q' (StatementsBlock o c default_token ss default_token false)
| B_single d k q q' s : ahead q <> TokenType.Semicolon -> ahead q <> TokenType.OpenBrace ->
    GStatement d k q q' s -> GBlock (S d) k q q' (single_statement s)
with GStatements : nat -> nat -> queue -> SyntaxToken -> queue -> list StatementSyntax -> Prop :=
| SS_none d k c q : Type_ c = TokenType.CloseBrace -> GStatements d k (c :: q) c q []
| SS_more d k q q1 c q' s ss : GStatement d k q q1 s -> GStatements d k q1 c q' ss ->
    GStatements d k q c q' (s :: ss).

Scheme GExpression_ind' := Induction for GExpression Sort Prop
with GOperand_ind' := Induction for GOperand Sort Prop
with GPrimary_ind' := Induction for GPrimary Sort Prop
with GLink_ind' := Induction for GLink Sort Prop
with GRest_ind' := Induction for GRest Sort Prop
with GIndex_ind' := Induction for GIndex Sort Prop
with GIndexList_ind' := Induction for GIndexList Sort Prop
with GArguments_ind' := Induction for GArguments Sort Prop
with GSequence_ind' := Induction for GSequence Sort Prop
with GArms_ind' := Induction for GArms Sort Prop
with GPattern_ind' := Induction for GPattern Sort Prop
with GPlain_ind' := Induction for GPlain Sort Prop
with GStatement_ind' := Induction for GStatement Sort Prop
with GOptional_ind' := Induction for GOptional Sort Prop
with GCondition_ind' := Induction for GCondition Sort Prop
with GElse_ind' := Induction for GElse Sort Prop
with GRange_ind' := Induction for GRange Sort Prop
with GCatches_ind' := Induction for GCatches Sort Prop
with GCases_ind' := Induction for GCases Sort Prop
with GBlock_ind' := Induction for GBlock Sort Prop
with GStatements_ind' := Induction for GStatements Sort Prop.
Combined Scheme code_mutind from GExpression_ind', GOperand_ind', GPrimary_ind', GLink_ind', GRest_ind', GIndex_ind', GIndexList_ind', GArguments_ind', GSequence_ind', GArms_ind', GPattern_ind', GPlain_ind', GStatement_ind', GOptional_ind', GCondition_ind', GElse_ind', GRange_ind', GCatches_ind', GCases_ind', GBlock_ind', GStatements_ind'.
