(* ===== verification/ParserRun.v ===== *)
(** * Running the parser on tokens that are known

    [par m s Q]: run in [s], [m] has a defined behaviour, and unless it runs
    out of fuel its answer and final state satisfy [Q].  Together with the
    totality theorems this says what the parser answers.  The rules execute a
    function step by step while the tokens ahead are known. *)
From Stdlib Require Import ZArith Lia Bool List String.
From stdpp Require Import base list.
From S2P Require Import Prelude Tokens SyntaxFacts SyntaxTree ParserState Grammar.
Import ListNotations SyntaxFacts.
Open Scope Z_scope.
Open Scope shard_scope.
Open Scope parser_scope.

Definition par {A} (m : P A) (s : PState) (Q : A -> PState -> Prop) : Prop :=
  match m s with
  | Some (Ok (a, s')) => Q a s'
  | Some _ => False
  | None => True
  end.

Lemma par_mono {A} (m : P A) s (Q R : A -> PState -> Prop) :
  par m s Q -> (forall a s', Q a s' -> R a s') -> par m s R.
Proof. unfold par; destruct (m s) as [[[a s']|e|]|]; auto. Qed.

Lemma par_bind {A B} (m : P A) (k : A -> P B) s Q :
  par m s (fun a s' => par (k a) s' Q) -> par (pbind m k) s Q.
Proof. unfold par, pbind; destruct (m s) as [[[a s']|e|]|]; cbn; auto. Qed.

Lemma par_call {A B} (m : P A) (k : A -> P B) s (Q : A -> PState -> Prop) R :
  par m s Q -> (forall a s', Q a s' -> par (k a) s' R) -> par (pbind m k) s R.
Proof. intros H HQ; apply par_bind; eapply par_mono; eauto. Qed.

Lemma par_assoc {A B C} (m : P A) (k : A -> P B) (h : B -> P C) s Q :
  par (pbind m (fun a => pbind (k a) h)) s Q -> par (pbind (pbind m k) h) s Q.
Proof. unfold par, pbind; destruct (m s) as [[[a s']|e|]|]; cbn; auto. Qed.

Lemma par_pret {A} (a : A) s (Q : A -> PState -> Prop) : Q a s -> par (pret a) s Q.
Proof. auto. Qed.

Lemma par_ret_bind {A B} (a : A) (k : A -> P B) s Q : par (k a) s Q -> par (pbind (pret a) k) s Q.
Proof. intros H; apply par_bind; exact H. Qed.

Lemma par_get {A B} (f : PState -> A) (k : A -> P B) s Q :
  par (k (f s)) s Q -> par (pbind (pget f) k) s Q.
Proof. intros H; apply par_bind, H. Qed.

Lemma par_pfuel {A} s (Q : A -> PState -> Prop) : par pfuel s Q.
Proof. exact I. Qed.

(** ** What a phrase leaves as it was *)
(** All of the state but the tokens. *)
Record same (s s' : PState) : Prop := mk_same {
  same_diagnostics : Diagnostics s' = Diagnostics s;
  same_expression : ExpressionDepth s' = ExpressionDepth s;
  same_operators : OperatorsInExpression s' = OperatorsInExpression s;
  same_block : BlockDepth s' = BlockDepth s;
  same_linked : LinkedExpressionDepth s' = LinkedExpressionDepth s
}.

(** All but the tokens and the number of operators, which is [b] at most. *)
Record fine (b : Z) (s s' : PState) : Prop := mk_fine {
  fine_diagnostics : Diagnostics s' = Diagnostics s;
  fine_expression : ExpressionDepth s' = ExpressionDepth s;
  fine_block : BlockDepth s' = BlockDepth s;
  fine_linked : LinkedExpressionDepth s' = LinkedExpressionDepth s;
  fine_operators : 0 <= OperatorsInExpression s' <= b
}.

Definition reads_same {A} (a : A) (q : queue) (s : PState) (r : A) (s' : PState) : Prop :=
  r = a /\ tokens s' = q /\ same s s'.
Definition reads {A} (b : Z) (a : A) (q : queue) (s : PState) (r : A) (s' : PState) : Prop :=
  r = a /\ tokens s' = q /\ fine b s s'.

Lemma same_refl s : same s s.
Proof. split; reflexivity. Qed.

Lemma same_trans s1 s2 s3 : same s1 s2 -> same s2 s3 -> same s1 s3.
Proof. intros [] []; split; congruence. Qed.

Lemma same_fine b s s' : same s s' -> 0 <= OperatorsInExpression s <= b -> fine b s s'.
Proof. intros [] H; split; try assumption; lia. Qed.

Lemma fine_trans b1 b2 s1 s2 s3 : fine b1 s1 s2 -> fine b2 s2 s3 -> fine b2 s1 s3.
Proof. intros [] []; split; congruence || assumption. Qed.

Lemma fine_le b1 b2 s s' : fine b1 s s' -> b1 <= b2 -> fine b2 s s'.
Proof. intros [] H; split; try assumption; lia. Qed.

(** The budgets of a phrase fit the counters; [fresh] for the phrases that
    reset the count of operators. *)
Definition depths_fit (d : nat) (s : PState) : Prop :=
  ExpressionDepth s + Z.of_nat d <= MaxExpressionDepth /\
  BlockDepth s + Z.of_nat d <= MaxBlockDepth /\
  LinkedExpressionDepth s + Z.of_nat d <= MaxLinkedExpressionDepth.
Definition room (d k : nat) (s : PState) : Prop :=
  depths_fit d s /\ 0 <= OperatorsInExpression s /\
  OperatorsInExpression s + Z.of_nat k <= MaxExpressionOperators.
Definition fresh (d k : nat) (s : PState) : Prop :=
  depths_fit d s /\ 0 <= OperatorsInExpression s /\ Z.of_nat k <= MaxExpressionOperators.

Ltac budget :=
  unfold room, fresh, depths_fit, MaxExpressionDepth, MaxBlockDepth, MaxLinkedExpressionDepth,
    MaxExpressionOperators in *;
  repeat match goal with
  | H : _ /\ _ |- _ => destruct H
  | H : same _ _ |- _ => destruct H
  | H : fine _ _ _ |- _ => destruct H
  end;
  repeat match goal with
  | |- _ /\ _ => split
  | |- same _ _ => split
  | |- fine _ _ _ => split
  end;
  first [congruence | lia].

(** ** Execution *)
Lemma par_Current {B} (k : SyntaxToken -> P B) q s Q : tokens s = q ->
  par (k (hd eof_token q)) s Q -> par (pbind Current k) s Q.
Proof. intros <- H; apply par_get; exact H. Qed.

Lemma par_at_type {B} (k : bool -> P B) X q s Q : tokens s = q ->
  par (k (ahead q =tt X)) s Q -> par (pbind (at_type X) k) s Q.
Proof. intros <- H; unfold at_type; apply par_assoc, par_get, par_ret_bind; exact H. Qed.

Definition some_ahead (q : queue) : bool := match q with [] => false | _ :: _ => true end.

Lemma par_CanConsume {B} (k : bool -> P B) q s Q : tokens s = q ->
  par (k (some_ahead q)) s Q -> par (pbind CanConsume k) s Q.
Proof. intros <- H; apply par_get; exact H. Qed.

Lemma par_more_at {B} (k : bool -> P B) X q s Q : X <> TokenType.EndOfFile -> tokens s = q ->
  par (k (ahead q =tt X)) s Q -> par (pbind (more_at X) k) s Q.
Proof.
  intros HX E H; unfold more_at; apply par_assoc; eapply par_CanConsume; [exact E|].
  destruct q as [|t q]; cbn [some_ahead negb].
  - apply par_ret_bind; replace false with (TokenType.EndOfFile =tt X); [exact H|].
    destruct (TokenType.eqb_spec TokenType.EndOfFile X); congruence.
  - eapply par_at_type; [exact E|exact H].
Qed.

Lemma par_more_not {B} (k : bool -> P B) X q s Q : tokens s = q ->
  par (k (some_ahead q && negb (ahead q =tt X))) s Q -> par (pbind (more_not X) k) s Q.
Proof.
  intros E H; unfold more_not; apply par_assoc; eapply par_CanConsume; [exact E|].
  destruct q as [|t q]; cbn [some_ahead negb andb] in *.
  - apply par_ret_bind, H.
  - apply par_assoc; eapply par_at_type; [exact E|]; apply par_ret_bind, H.
Qed.

Lemma par_Peek {B} (k : SyntaxToken -> P B) i q s Q : tokens s = q ->
  par (k (nth (S i) q eof_token)) s Q -> par (pbind (Peek i) k) s Q.
Proof. intros <- H; apply par_get; exact H. Qed.

Lemma par_CanPeek {B} (k : bool -> P B) q s Q : tokens s = q ->
  par (k (some_ahead (tl q))) s Q -> par (pbind CanPeek k) s Q.
Proof. intros <- H; apply par_get; destruct (tokens s) as [|? [|]]; exact H. Qed.

Lemma par_Consume q s : tokens s = q -> par Consume s (reads_same tt (tl q) s).
Proof. intros <-; repeat split. Qed.

Lemma par_PutBackToken t q s : tokens s = q -> par (PutBackToken t) s (reads_same tt (t :: q) s).
Proof. intros <-; repeat split. Qed.

Lemma par_Expect X m t q s : tokens s = t :: q -> Type_ t = X ->
  par (Expect X m) s (reads_same t q s).
Proof.
  intros E <-; unfold Expect; eapply par_CanConsume; [exact E|]; cbn [some_ahead negb].
  eapply par_Current; [exact E|]; cbn [hd]; destruct (TokenType.eqb_spec (Type_ t) (Type_ t)); [|congruence].
  eapply par_call; [apply (par_Consume _ _ E)|]; intros [] s1 (_ & E1 & H1); apply par_pret.
  split; [reflexivity|split; [exact E1|exact H1]].
Qed.

Lemma par_loop_step {X R} (body : X -> P (X + R)) m x s Q :
  (forall m', par (pbind (body x) (fun r => match r with inl x => loop m' body x
                                                       | inr r => pret r end)) s Q) ->
  par (loop m body x) s Q.
Proof. destruct m as [|m]; intros H; [exact I|apply H]. Qed.

Lemma par_guarded {A} set (body : P A) s (Q : A -> PState -> Prop) d :
  (set = set_ExpressionDepth /\ d = (1, 0, 0)) \/ (set = set_BlockDepth /\ d = (0, 1, 0))
  \/ (set = set_LinkedExpressionDepth /\ d = (0, 0, 1)) ->
  (forall s1, tokens s1 = tokens s -> Diagnostics s1 = Diagnostics s ->
     OperatorsInExpression s1 = OperatorsInExpression s ->
     ExpressionDepth s1 = ExpressionDepth s + fst (fst d) ->
     BlockDepth s1 = BlockDepth s + snd (fst d) ->
     LinkedExpressionDepth s1 = LinkedExpressionDepth s + snd d ->
     par body s1 (fun a s2 => exists b, fine b s1 s2 /\
       forall s', tokens s' = tokens s2 -> fine b s s' -> Q a s')) ->
  par (guarded_by set body) s Q.
Proof.
  intros G H; unfold guarded_by.
  destruct G as [[-> ->]|[[-> ->]|[-> ->]]]; unfold par, pbind, pmodify; cbn;
    (match goal with |- context [body ?s1] => specialize (H s1); cbn in H;
       specialize (H eq_refl eq_refl eq_refl) end);
    repeat (specialize (H ltac:(lia)));
    unfold par in H; destruct (body _) as [[[a s2]|e|]|]; cbn; auto;
    destruct H as (b & [] & HQ); cbn in *; (apply HQ; [reflexivity|]);
    split; cbn; try assumption; lia.
Qed.

(** ** The automation

    [exec] runs a function forward.  It knows the queue from an equation on
    [tokens], decides the tests on tokens whose type is known, and discards the
    branches that contradict what is known of the token ahead. *)
Ltac reduce_test f X :=
  let v := eval cbv in (f X) in
  lazymatch v with
  | true => change (f X) with true
  | false => change (f X) with false
  end.

Ltac reduce_tests :=
  repeat match goal with
  | |- context [ahead (?t :: ?q)] => change (ahead (t :: q)) with (Type_ t)
  | H : context [ahead (?t :: ?q)] |- _ => change (ahead (t :: q)) with (Type_ t) in H
  | |- context [Type_ (hd eof_token ?q)] => change (Type_ (hd eof_token q)) with (ahead q)
  | |- context [ahead []] => change (ahead []) with TokenType.EndOfFile
  | H : Type_ ?t = _ |- context [Type_ ?t] => rewrite H
  | H : ahead ?q = _ |- context [ahead ?q] => rewrite H
  | |- context [?X =tt ?Y] => reduce_test (TokenType.eqb X) Y
  | |- context [one_of ?l ?X] => reduce_test (one_of l) X
  | |- context [IsPredefinedType ?X] => reduce_test IsPredefinedType X
  | |- context [IsKeyword ?X] => reduce_test IsKeyword X
  | |- context [IsTypeKeyword ?X] => reduce_test IsTypeKeyword X
  | |- context [IsModifier ?X] => reduce_test IsModifier X
  end; cbn beta iota delta [negb andb orb some_ahead hd tl].

Lemma one_of_here X l : one_of (X :: l) X = true.
Proof. unfold one_of; cbn; destruct (TokenType.eqb_spec X X); [reflexivity|congruence]. Qed.

(** Closes a branch whose assumptions about a token contradict. *)
Ltac dead :=
  exfalso;
  solve [ congruence
        | discriminate
        | match goal with
          | E : ahead ?q = _, H : context [ahead ?q] |- _ => rewrite E in H; discriminate
          | E : Type_ ?t = _, H : context [Type_ ?t] |- _ => rewrite E in H; discriminate
          | H : context [ahead []] |- _ => cbn in H; first [discriminate|congruence]
          | H : context [ahead (?t :: _)] |- _ =>
              change (ahead (t :: _)) with (Type_ t) in H;
              match goal with E : Type_ t = _ |- _ => rewrite E in H; discriminate end
          end ].

Ltac test b :=
  first [ match goal with H : b = _ |- _ => rewrite H end; cbn [negb andb orb] | test_cases b ]
with test_cases b :=
  lazymatch b with
  | negb ?c => test c
  | ?x && ?y => test x
  | ?x || ?y => test x
  | ?x =tt ?y => destruct (TokenType.eqb_spec x y); try dead; cbn [negb andb orb]
  | some_ahead ?q => destruct q eqn:?; try dead; cbn [some_ahead negb andb orb]
  | _ => destruct b eqn:?; try dead; cbn [negb andb orb]
  end.

Ltac take :=
  let s := fresh "s" in
  intros ? s (-> & ?E & ?Same); cbn [tl] in *.

Ltac exec1 :=
  cbn beta iota; reduce_tests;
  lazymatch goal with
  | |- par pfuel _ _ => exact I
  | |- par (pbind (pbind _ _) _) _ _ => apply par_assoc
  | |- par (pbind (pret _) _) _ _ => apply par_ret_bind
  | |- par (pbind (continue_ _) _) _ _ => apply par_ret_bind
  | |- par (pbind (break_ _) _) _ _ => apply par_ret_bind
  | |- par (pbind CanConsume _) ?s _ =>
      match goal with E : tokens s = ?q |- _ => apply (par_CanConsume _ q s _ E) end
  | |- par (pbind Current _) ?s _ =>
      match goal with E : tokens s = ?q |- _ => apply (par_Current _ q s _ E) end
  | |- par (pbind (at_type _) _) ?s _ =>
      match goal with E : tokens s = ?q |- _ => apply (par_at_type _ _ q s _ E) end
  | |- par (pbind (more_at _) _) ?s _ =>
      match goal with E : tokens s = ?q |- _ =>
        apply (par_more_at _ _ q s); [discriminate|exact E|] end
  | |- par (pbind (more_not _) _) ?s _ =>
      match goal with E : tokens s = ?q |- _ => apply (par_more_not _ _ q s _ E) end
  | |- par (pbind (Peek _) _) ?s _ =>
      match goal with E : tokens s = ?q |- _ => apply (par_Peek _ _ q s _ E); cbn [nth] end
  | |- par (pbind CanPeek _) ?s _ =>
      match goal with E : tokens s = ?q |- _ => apply (par_CanPeek _ q s _ E) end
  | |- par (pbind Consume _) ?s _ =>
      match goal with E : tokens s = ?q |- _ =>
        eapply par_call; [apply (par_Consume q s E)|take] end
  | |- par (pbind (PutBackToken ?t) _) ?s _ =>
      match goal with E : tokens s = ?q |- _ =>
        eapply par_call; [apply (par_PutBackToken t q s E)|take] end
  | |- par (pbind (Expect ?X ?m) _) ?s _ =>
      match goal with E : tokens s = ?t :: ?q |- _ =>
        eapply par_call; [apply (par_Expect X m t q s E); assumption|take] end
  | |- par (pbind (if ?b then _ else _) _) _ _ => test b
  | |- par (if ?b then _ else _) _ _ => test b
  | |- par (let _ := _ in _) _ _ => cbv zeta
  | |- par (pret _) _ _ => apply par_pret
  | |- par (continue_ _) _ _ => apply par_pret
  | |- par (break_ _) _ _ => apply par_pret
  end.
Ltac exec := repeat exec1; cbn beta iota; reduce_tests.

(** A call whose result is known by [H]. *)
Ltac call H := exec; eapply par_call; [apply H|take].

(** The end of a run: what was read, what is left, what is as before. *)
Ltac ends := split; [reflexivity|split; [assumption|budget]].
