(* ===== verification/GrammarTypes.v ===== *)
(** * The parser reads types

    A type of the grammar is read as the tree the grammar gives it, and what
    follows it is left, also where a [>>] closes two lists. *)
From Stdlib Require Import ZArith Lia Bool List String.
From stdpp Require Import base list.
From S2P Require Import Prelude Tokens SyntaxFacts SyntaxTree ParserState ParserTypes ParserExpr ParserTotal Grammar ParserRun.
Import ListNotations SyntaxFacts.
Open Scope Z_scope.
Open Scope shard_scope.
Open Scope parser_scope.

(** The separators of a list. *)
Lemma par_separator X m t q s : tokens s = t :: q ->
  one_of [TokenType.Comma; X] (Type_ t) = true ->
  par (separator X m) s (reads_same (Some t) q s).
Proof.
  intros E Ht; unfold separator, TryMatch, Matches; exec; ends.
Qed.

Ltac separates Ht :=
  exec; eapply par_call; [eapply par_separator; [eassumption|rewrite Ht; reflexivity]|take]; exec.

(** The body of a loop of the parser. *)
Ltac body_of t :=
  let t := eval red in t in
  lazymatch t with loop _ ?b _ => exact b end.

Definition type_arguments_body n : list (option TypeSyntax) -> P _ :=
  ltac:(body_of (ReadTypeArgumentsList_loop n (types n))).
Definition delegate_types_body n : list ParameterSyntax -> P _ :=
  ltac:(body_of (ReadDelegateParametersList_loop n (types n))).

(** ** What it means that the parser reads a judgement *)
Definition reads_type (a : bool) (q q' : queue) (ty : TypeSyntax) : Prop :=
  starts_type (ahead q) = true /\
  forall n s, tokens s = q -> par (read_type n a) s (reads_same (Some ty) q' s).
Definition reads_modifiers (a : bool) (u : TypeSyntax) (q q' : queue) (ty : TypeSyntax) : Prop :=
  forall n s, tokens s = q -> par (call_ReadModifiedType (types n) u a) s (reads_same ty q' s).
Definition reads_type_arguments (q q' : queue) (args : TypeArgumentsListSyntax) : Prop :=
  ahead q = TokenType.LessOperator /\
  forall n s, tokens s = q -> par (read_type_arguments n) s (reads_same args q' s).
Definition reads_types (q : queue) (c : SyntaxToken) (q' : queue) (tys : list (option TypeSyntax)) :
    Prop :=
  starts_type (ahead q) = true /\
  forall n m acc s, tokens s = q ->
    par (loop m (type_arguments_body n) acc) s (reads_same (c, (acc ++ tys)%list) q' s).
Definition reads_delegate_parameters (q : queue) (c : SyntaxToken) (q' : queue)
    (ps : list ParameterSyntax) : Prop :=
  forall n o s, Type_ o = TokenType.OpenCurl -> tokens s = o :: q ->
    par (ReadDelegateParametersList n (types n)) s (reads_same (ParametersList o c ps) q' s).
Definition reads_delegate_types (q : queue) (c : SyntaxToken) (q' : queue)
    (ps : list ParameterSyntax) : Prop :=
  starts_type (ahead q) = true /\
  forall n m acc s, tokens s = q ->
    par (loop m (delegate_types_body n) acc) s (reads_same (c, (acc ++ ps)%list) q' s).

Lemma read_predefined a t q q' ty : IsPredefinedType (Type_ t) = true ->
  reads_modifiers a (PredefinedTypeSyntax t) q q' ty -> reads_type a (t :: q) q' ty.
Proof.
  intros Ht H; split; [unfold starts_type, ahead; cbn [hd]; rewrite Ht; reflexivity|].
  intros [|n] s E; [exact I|]; unfold read_type; cbn [types call_ReadType]; unfold ReadType.
  exec; call H; [assumption|]; exec; ends.
Qed.

Lemma read_name a t q q' ty : Type_ t = TokenType.Identifier ->
  reads_modifiers a (IdentifierNameTypeSyntax t) q q' ty -> reads_type a (t :: q) q' ty.
Proof.
  intros Ht H; split; [unfold starts_type, ahead; cbn [hd]; rewrite Ht; reflexivity|].
  intros [|n] s E; [exact I|]; unfold read_type; cbn [types call_ReadType]; unfold ReadType.
  exec; unfold ReadIdentifierNameType; exec; call H; [assumption|]; exec; ends.
Qed.

Lemma read_delegate a t o c q q1 q2 q' r ps ty : Type_ t = TokenType.DelegateKeyword ->
  Type_ o = TokenType.OpenCurl -> reads_type a q (o :: q1) r ->
  reads_delegate_parameters q1 c q2 ps ->
  reads_modifiers a (DelegateTypeSyntax t (Some r) (ParametersList o c ps)) q2 q' ty ->
  reads_type a (t :: q) q' ty.
Proof.
  intros Ht Ho [_ Hr] Hp Hm; split; [unfold starts_type, ahead; cbn [hd]; rewrite Ht; reflexivity|].
  intros [|n] s E; [exact I|]; unfold read_type; cbn [types call_ReadType]; unfold ReadType.
  exec; unfold ReadDelegateType; exec; call Hr; [assumption|].
  call Hp; [eassumption..|]; call Hm; [assumption|]; exec; ends.
Qed.

Lemma read_end a u q : continues_type a (ahead q) = false -> reads_modifiers a u q q u.
Proof.
  intros H [|n] s E; [exact I|]; cbn [types call_ReadModifiedType]; unfold ReadModifiedType.
  exec; [ends|]; change (ahead (s0 :: l)) with (Type_ s0) in H.
  change (hd eof_token (s0 :: l)) with s0; unfold continues_type in H.
  destruct a, (Type_ s0) eqn:Es; try discriminate H; exec; ends.
Qed.

Lemma read_nullable a u t q : Type_ t = TokenType.Question ->
  reads_modifiers a u (t :: q) q (NullableTypeSyntax u t).
Proof.
  intros Ht [|n] s E; [exact I|]; cbn [types call_ReadModifiedType]; unfold ReadModifiedType.
  exec; ends.
Qed.

Lemma read_array u o c q q' ty : Type_ o = TokenType.OpenSquare ->
  Type_ c = TokenType.CloseSquare ->
  reads_modifiers true (ArrayTypeSyntax u o c 1) q q' ty ->
  reads_modifiers true u (o :: c :: q) q' ty.
Proof.
  intros Ho Hc H [|n] s E; [exact I|]; cbn [types call_ReadModifiedType]; unfold ReadModifiedType.
  exec; unfold ReadArrayType; exec; eapply par_mono; [apply H; assumption|].
  intros r s' (-> & E' & S'); ends.
Qed.

Lemma read_generic a u q q1 q' args ty : reads_type_arguments q q1 args ->
  reads_modifiers a (GenericTypeSyntax u args) q1 q' ty -> reads_modifiers a u q q' ty.
Proof.
  intros [Hq Ha] H [|n] s E; [exact I|]; cbn [types call_ReadModifiedType]; unfold ReadModifiedType.
  destruct q as [|t q]; [discriminate|]; change (Type_ t = TokenType.LessOperator) in Hq.
  exec; unfold ReadGenericType; call Ha; [assumption|].
  eapply par_mono; [apply H; assumption|]; intros r s' (-> & E' & S'); ends.
Qed.

Lemma read_qualified a u t i q q' ty : Type_ t = TokenType.Delimeter ->
  Type_ i = TokenType.Identifier -> reads_modifiers a (QualifiedNameTypeSyntax u i) q q' ty ->
  reads_modifiers a u (t :: i :: q) q' ty.
Proof.
  intros Ht Hi H [|n] s E; [exact I|]; cbn [types call_ReadModifiedType]; unfold ReadModifiedType.
  exec; eapply par_mono; [apply H; assumption|]; intros r s' (-> & E' & S'); ends.
Qed.

(** ** Lists of types *)
Lemma starts_type_not X Y : starts_type X = true -> starts_type Y = false -> (X =tt Y) = false.
Proof. intros H1 H2; destruct (TokenType.eqb_spec X Y); congruence. Qed.

Lemma read_type_arguments_list t c q q' tys : Type_ t = TokenType.LessOperator ->
  reads_types q c q' tys -> reads_type_arguments (t :: q) q' (TypeArgumentsList t c tys).
Proof.
  intros Ht [Hq H]; split; [exact Ht|]; intros n s E.
  unfold read_type_arguments, ReadTypeArgumentsList; exec.
  - eapply par_call; [apply (H n n []); assumption|take]; exec; ends.
Qed.

Lemma read_last_type q q1 c q' ty : reads_type true q q1 ty -> closes_types q1 c q' ->
  reads_types q c q' [Some ty].
Proof.
  intros [Hq H] Hc; split; [exact Hq|]; intros n m acc s E; apply par_loop_step; intros m'.
  unfold type_arguments_body; exec; call H; [assumption|].
  destruct Hc as [t q0 Ht|t q0 Ht half]; exec.
  - separates Ht; ends.
  - unfold split_shift; exec; ends.
Qed.

Lemma read_more_types q t q1 c q' ty tys : reads_type true q (t :: q1) ty ->
  Type_ t = TokenType.Comma -> reads_types q1 c q' tys -> reads_types q c q' (Some ty :: tys).
Proof.
  intros [Hq H] Ht [_ IH]; split; [exact Hq|]; intros n m acc s E; apply par_loop_step; intros m'.
  unfold type_arguments_body; exec; call H; [assumption|]; separates Ht.
  eapply par_mono; [apply IH; assumption|]; intros r s' (-> & E' & S').
  rewrite <- app_assoc; ends.
Qed.

Lemma read_no_parameters c q : Type_ c = TokenType.CloseCurl ->
  reads_delegate_parameters (c :: q) c q [].
Proof. intros Hc n o s Ho E; unfold ReadDelegateParametersList; exec; ends. Qed.

Lemma read_some_parameters q c q' ps : reads_delegate_types q c q' ps ->
  reads_delegate_parameters q c q' ps.
Proof.
  intros [Hq H] n o s Ho E; unfold ReadDelegateParametersList; exec.
  eapply par_call; [apply (H n n []); assumption|take]; exec; ends.
Qed.

Lemma read_last_delegate_type q c q' ty : reads_type true q (c :: q') ty ->
  Type_ c = TokenType.CloseCurl ->
  reads_delegate_types q c q' [Parameter_ (Some ty) default_token].
Proof.
  intros [Hq H] Hc; split; [exact Hq|]; intros n m acc s E; apply par_loop_step; intros m'.
  unfold delegate_types_body; exec; call H; [assumption|]; separates Hc; ends.
Qed.

Lemma read_more_delegate_types q t q1 c q' ty ps : reads_type true q (t :: q1) ty ->
  Type_ t = TokenType.Comma -> reads_delegate_types q1 c q' ps ->
  reads_delegate_types q c q' (Parameter_ (Some ty) default_token :: ps).
Proof.
  intros [Hq H] Ht [_ IH]; split; [exact Hq|]; intros n m acc s E; apply par_loop_step; intros m'.
  unfold delegate_types_body; exec; call H; [assumption|]; separates Ht.
  eapply par_mono; [apply IH; assumption|]; intros r s' (-> & E' & S').
  rewrite <- app_assoc; ends.
Qed.

(** ** Every judgement on types *)
Lemma types_read :
  (forall a q q' ty, GType a q q' ty -> reads_type a q q' ty) /\
  (forall a u q q' ty, GModifiers a u q q' ty -> reads_modifiers a u q q' ty) /\
  (forall q q' args, GTypeArguments q q' args -> reads_type_arguments q q' args) /\
  (forall q c q' tys, GTypes q c q' tys -> reads_types q c q' tys) /\
  (forall q c q' ps, GDelegateParameters q c q' ps -> reads_delegate_parameters q c q' ps) /\
  (forall q c q' ps, GDelegateTypes q c q' ps -> reads_delegate_types q c q' ps).
Proof.
  apply types_mutind; intros;
    eauto using read_predefined, read_name, read_delegate, read_end, read_nullable, read_array,
      read_generic, read_qualified, read_type_arguments_list, read_last_type, read_more_types,
      read_no_parameters, read_some_parameters, read_last_delegate_type,
      read_more_delegate_types.
Qed.

Lemma type_starts a q q' ty : GType a q q' ty -> starts_type (ahead q) = true.
Proof. intros H; apply types_read in H; apply H. Qed.

Lemma type_read a q q' ty n s : GType a q q' ty -> tokens s = q ->
  par (read_type n a) s (reads_same (Some ty) q' s).
Proof. intros H; apply types_read in H; apply H. Qed.

Lemma type_arguments_start q q' args : GTypeArguments q q' args ->
  ahead q = TokenType.LessOperator.
Proof. intros H; apply types_read in H; apply H. Qed.

Lemma type_arguments_read q q' args n s : GTypeArguments q q' args -> tokens s = q ->
  par (read_type_arguments n) s (reads_same args q' s).
Proof. intros H; apply types_read in H; apply H. Qed.

(** ** Parameters *)
Definition parameters_body n : list ParameterSyntax -> P _ :=
  ltac:(body_of (ReadParameters_loop n ReadParameterName TokenType.CloseCurl "Expected ',' or ')'")).

Lemma name_read t x q s : parameter_name t x -> tokens s = t :: q ->
  par ReadParameterName s (reads_same (inl x) q s).
Proof.
  intros Hx E; unfold ReadParameterName; destruct Hx as [t Ht|t Ht]; exec; [|ends].
  unfold TryMatchIdentifier; exec; ends.
Qed.

Lemma name_not_closing t x X : parameter_name t x -> X <> TokenType.Identifier ->
  X <> TokenType.ValueKeyword -> Type_ t <> X.
Proof. intros [] ? ?; congruence. Qed.

Lemma parameters_read q c q' ps : GParameters q c q' ps -> forall n m acc s, tokens s = q ->
  par (loop m (parameters_body n) acc) s (reads_same (c, (acc ++ ps)%list) q' s).
Proof.
  induction 1 as [t x colon q c q' ty Hx Hcolon HT Hc
                 |t x colon q comma q1 c q' ty ps Hx Hcolon HT Hcomma _ IH];
    intros n m acc s E; apply par_loop_step; intros m'; unfold parameters_body; exec;
    (eapply par_call; [eapply name_read; eassumption|take]); exec;
    (eapply par_call; [eapply type_read; eassumption|take]).
  - separates Hc; ends.
  - separates Hcomma; eapply par_mono; [apply IH; assumption|]; intros r s' (-> & E' & S').
    rewrite <- app_assoc; ends.
Qed.

Lemma parameters_list_read q q' ps n s : GParametersList q q' ps -> tokens s = q ->
  par (ReadParametersList n) s (reads_same ps q' s).
Proof.
  intros [o c q0 Ho Hc|o c q0 q0' ps0 Ho H] E; unfold ReadParametersList; [exec; ends|].
  assert (Hn : ahead q0 <> TokenType.CloseCurl) by
    (destruct H; eapply name_not_closing; (eassumption || discriminate)).
  exec; eapply par_call; [apply (parameters_read _ _ _ _ H n n []); assumption|take]; exec; ends.
Qed.

(** ** The other phrases made of a type *)
Lemma is_pattern_starts q q' p : GIsPattern q q' p -> ahead q = TokenType.IsOperator.
Proof. intros []; assumption. Qed.

Lemma is_pattern_read q q' p n s : GIsPattern q q' p -> tokens s = q ->
  par (ReadIsPattern n) s (reads_same p q' s).
Proof.
  intros [t q0 x q0' ty Ht HT Hx|t q0 q0' ty Ht HT Hn] E; unfold ReadIsPattern; exec;
    (eapply par_call; [eapply type_read; eassumption|take]); exec; ends.
Qed.
