(* ===== verification/GrammarExpr.v ===== *)
(** * The parser reads expressions

    What it means that the parser reads a judgement of the grammar, and, rule
    by rule, that it reads the conclusion when it reads the premises.  The
    precedence loop is run by [go]: after the left operand it goes on with
    whatever the grammar puts to the right of it. *)
From Stdlib Require Import ZArith Lia Bool List String.
From stdpp Require Import base list.
From S2P Require Import Prelude Tokens SyntaxFacts SyntaxTree ParserState ParserTypes ParserExpr ParserStmt ParserTotal Grammar ParserRun GrammarTypes.
Import ListNotations SyntaxFacts.
Open Scope Z_scope.
Open Scope shard_scope.
Open Scope parser_scope.

(** ** What is read *)
Definition starts_expression (X : TokenType) : bool :=
  literal X || prefix X || one_of linked_start X
  || one_of [TokenType.OpenCurl; TokenType.OpenSquare; TokenType.AsyncKeyword;
             TokenType.LambdaKeyword; TokenType.NewKeyword; TokenType.AwaitKeyword;
             TokenType.IfKeyword; TokenType.SwitchKeyword] X.

Definition spent (k : nat) (s : PState) : Z := OperatorsInExpression s + Z.of_nat k.
Definition most (k : nat) (s : PState) : Z := Z.max (OperatorsInExpression s) (Z.of_nat k).

Definition reads_primary d k q q' e : Prop :=
  starts_expression (ahead q) = true /\
  forall n s, tokens s = q -> room d k s ->
    par (call_ReadNullDenotation (parsers n)) s (reads (spent k s) (Some e) q' s).
Definition reads_operand d k bp q q' e : Prop :=
  starts_expression (ahead q) = true /\
  (forall n s, tokens s = q -> room d k s ->
     par (call_ReadExpression (parsers n) bp false) s (reads (spent k s) (Some e) q' s)) /\
  (forall n s, tokens s = q -> fresh d k s ->
     par (call_ReadExpression (parsers n) bp true) s (reads (Z.of_nat k) (Some e) q' s)).
Definition reads_link d k prev (first : bool) q q' e : Prop :=
  (first = true -> one_of linked_start (ahead q) = true) /\
  forall n s, tokens s = q -> room d k s ->
    par (call_ReadLinkedExpressionNode (parsers n) prev first) s (reads (spent k s) (Some e) q' s).
Definition reads_rest d k e q q' e' : Prop :=
  forall n s, tokens s = q -> room d k s ->
    par (linked_rest (parsers n) (Some e)) s (reads (spent k s) (Some e') q' s).
Definition reads_index d k prev q q' e : Prop :=
  forall n s, tokens s = q -> room d k s ->
    par (call_ReadIndexatorExpressionNode (parsers n) prev) s (reads (spent k s) e q' s).
Definition reads_index_list d k q q' args : Prop :=
  forall n s, tokens s = q -> room d k s ->
    par (ReadIndexatorList n (parsers n)) s (reads (spent k s) args q' s).
Definition reads_arguments d k q q' args : Prop :=
  ahead q = TokenType.OpenCurl /\
  forall n s, tokens s = q -> room d k s ->
    par (ReadArgumentsList n (parsers n)) s (reads (spent k s) args q' s).
Definition reads_block d k q q' b : Prop :=
  forall n s, tokens s = q -> fresh d k s ->
    par (call_ReadStatementsBlock (parsers n)) s (reads (most k s) b q' s).

(** The bodies of the loops. *)
Definition arguments_body n closer m : list ArgumentSyntax -> P _ :=
  ltac:(body_of (ReadArguments_loop n (parsers n) closer m)).
Definition collection_body n : list (option ExpressionSyntax) -> P _ :=
  ltac:(body_of (ReadCollectionExpression_loop n (parsers n))).
Definition operators_body n bp : option ExpressionSyntax * Z -> P _ :=
  ltac:(body_of (ReadExpression_loop n (parsers n) bp None 0)).
Definition operand_body n bp : P (option ExpressionSyntax) :=
  ltac:(let t := eval unfold ReadExpression in (ReadExpression n (parsers n) bp false) in
        lazymatch t with pbind _ (fun _ => ?b) => exact b end).
Definition left_cases n left_ : SyntaxToken -> P (option ExpressionSyntax) :=
  ltac:(let t := eval unfold ReadLeftDenotation in (ReadLeftDenotation n (parsers n) left_) in
        lazymatch t with pbind _ (fun more => if negb more then _ else pbind _ ?k) => exact k end).
Definition arms_body n : list SwitchArmSyntax -> P (list SwitchArmSyntax + list SwitchArmSyntax) :=
  ltac:(let t := eval unfold ReadSwitchExpression in (ReadSwitchExpression n (parsers n)) in
        lazymatch t with context [loop _ ?b _] => exact b end).

Definition reads_sequence d k X q c q' es : Prop :=
  starts_expression (ahead q) = true /\
  forall n m s, tokens s = q -> fresh d k s ->
    (forall message acc, par (loop m (arguments_body n X message) acc) s
       (reads (Z.of_nat k) (c, (acc ++ map (fun e => Argument (Some e)) es)%list) q' s)) /\
    (X = TokenType.CloseSquare -> forall acc, par (loop m (collection_body n) acc) s
       (reads (Z.of_nat k) (c, (acc ++ map Some es)%list) q' s)).
Definition reads_pattern d k q q' e : Prop :=
  some_ahead q = true /\ ahead q <> TokenType.CloseBrace /\
  forall n s, tokens s = q -> fresh d k s ->
    par (ReadSwitchArmPattern n (parsers n)) s (reads (most k s) (Some e) q' s).
Definition reads_arms d k q c q' arms : Prop :=
  forall n m acc s, tokens s = q -> fresh d k s ->
    par (loop m (arms_body n) acc) s
      (fun r s' => r = (acc ++ arms)%list /\ tokens s' = c :: q' /\
         Type_ c = TokenType.CloseBrace /\ fine (most k s) s s').

(** What follows the left operand in [ReadExpression]. *)
Definition go n m bp (left_ : option ExpressionSyntax) : P (option ExpressionSyntax) :=
  more <- CanConsume ;;
  if negb more then pret left_ else
  current <- Current ;;
  loop m (operators_body n bp) (left_, GetOperatorPrecendence (Type_ current)).

Definition reads_expression d k lv q q' e : Prop :=
  starts_expression (ahead q) = true /\ exists d', d = S d' /\
  forall n m bp s Q, tokens s = q -> room d' k s -> bp < lv ->
    (forall m' s', tokens s' = q' -> fine (spent k s) s s' ->
       par (go n m' bp (Some e)) s' Q) ->
    par (e0 <- call_ReadNullDenotation (parsers n) ;; go n m bp e0) s Q.

(** ** The precedence loop *)
Lemma go_ends n m bp e q s : tokens s = q -> level (ahead q) <= bp -> 0 <= bp ->
  par (go n m bp (Some e)) s (reads_same (Some e) q s).
Proof.
  intros E Hl Hb; unfold go; exec; [ends|].
  change (level (Type_ s0) <= bp) in Hl; unfold level in Hl.
  apply par_loop_step; intros m'; unfold operators_body; exec; first [exfalso; lia|ends].
Qed.

Lemma go_inv n m bp e q s Q : tokens s = q -> par (go n m bp e) s Q ->
  match q with
  | [] => Q e s
  | t :: _ => par (loop m (operators_body n bp) (e, GetOperatorPrecendence (Type_ t))) s Q
  end.
Proof.
  intros E; unfold go, par, pbind, CanConsume, Current, pget, done; cbn [fbind]; rewrite E.
  destruct q; cbn [negb]; rewrite ?E; exact (fun H => H).
Qed.

Lemma par_set_operators f s : par (set_OperatorsInExpression f) s (fun _ s' =>
  tokens s' = tokens s /\ Diagnostics s' = Diagnostics s /\
  ExpressionDepth s' = ExpressionDepth s /\ BlockDepth s' = BlockDepth s /\
  LinkedExpressionDepth s' = LinkedExpressionDepth s /\
  OperatorsInExpression s' = f (OperatorsInExpression s)).
Proof. repeat split. Qed.

(** An infix or postfix phrase after the left operand [e]: the count of
    operators goes up by one, and [ReadLeftDenotation] reads the phrase. *)
Lemma go_on n m bp e e' t q q1 k s Q : tokens s = t :: q -> 0 < level (Type_ t) ->
  bp < level (Type_ t) -> OperatorsInExpression s + 1 <= MaxExpressionOperators ->
  (forall s1, tokens s1 = t :: q -> fine (OperatorsInExpression s + 1) s s1 ->
     OperatorsInExpression s1 = OperatorsInExpression s + 1 ->
     par (ReadLeftDenotation n (parsers n) (Some e)) s1 (reads (spent k s1) (Some e') q1 s1)) ->
  0 <= OperatorsInExpression s ->
  (forall m' s', tokens s' = q1 -> fine (spent (S k) s) s s' ->
     par (go n m' bp (Some e')) s' Q) ->
  par (go n m bp (Some e)) s Q.
Proof.
  intros E Hl Hb Ho Hd H0 Hk; unfold go; exec; apply par_loop_step; intros m'.
  unfold level, MaxExpressionOperators in *; unfold operators_body; exec; try (exfalso; lia).
  eapply par_call; [apply par_set_operators|]; intros [] s1 (E1 & D1 & X1 & B1 & L1 & O1).
  rewrite E in E1; apply par_assoc, par_get; cbv beta; rewrite O1.
  replace (MaxExpressionOperators <? OperatorsInExpression s + 1) with false
    by (unfold MaxExpressionOperators; lia).
  exec; eapply par_call; [apply Hd; [exact E1|split; (congruence || lia)|exact O1]|].
  intros r s2 (-> & E2 & F2); specialize (Hk m' s2 E2 ltac:(unfold spent in *; budget)); unfold go in Hk.
  apply (go_inv _ _ _ _ q1 _ _ E2) in Hk; destruct q1 as [|t1 q1]; exec; exact Hk.
Qed.

(** ** The phrases to the right of an operand *)
Lemma read_primary_expression d k q q' e : reads_primary d k q q' e ->
  reads_expression (S d) k primary_level q q' e.
Proof.
  intros [Hq H]; split; [exact Hq|]; exists d; split; [reflexivity|]; intros n m bp s Q E R Hb HQ.
  eapply par_call; [apply H; assumption|]; intros r s' (-> & E' & F); apply HQ; assumption.
Qed.

Lemma left_cases_run n l t q s Q : tokens s = t :: q -> par (left_cases n l t) s Q ->
  par (ReadLeftDenotation n (parsers n) l) s Q.
Proof.
  intros E H; unfold ReadLeftDenotation; eapply par_CanConsume; [exact E|].
  apply (par_Current (left_cases n l) _ _ _ E); exact H.
Qed.

Lemma infix_level X : infix X = true -> 0 < level X.
Proof. destruct X; first [discriminate|reflexivity]. Qed.

Lemma infix_read d k op q q' l r n s : infix (Type_ op) = true ->
  reads_operand d k (level (Type_ op)) q q' r -> tokens s = op :: q -> room d k s ->
  par (ReadLeftDenotation n (parsers n) (Some l)) s
    (reads (spent k s) (Some (infix_node op (Some l) (Some r))) q' s).
Proof.
  intros Ho [_ [H _]] E R; apply (left_cases_run _ _ _ _ _ _ E); unfold left_cases.
  assert (HI : forall build, build (Some r) = infix_node op (Some l) (Some r) ->
    par (ReadInfix (parsers n) (Some l) op build) s
      (reads (spent k s) (Some (infix_node op (Some l) (Some r))) q' s)).
  { intros build Hb; pose proof (infix_level _ Ho) as Hl; unfold ReadInfix.
    unfold level in *; exec; [exfalso; lia|].
    eapply par_call; [apply H; [assumption|budget]|].
    intros x s1 (-> & E1 & F1); exec; rewrite Hb; unfold spent in *; ends. }
  destruct (Type_ op) eqn:Et; try discriminate Ho; exec;
    apply HI; unfold infix_node; rewrite Et; reflexivity.
Qed.

(** The level of a phrase is that of its last operator. *)
Lemma read_tail d k1 k2 lv e e' q t q1 q' : reads_expression (S d) k1 lv q (t :: q1) e ->
  0 < level (Type_ t) -> level (Type_ t) <= lv ->
  (forall n s, tokens s = t :: q1 -> room d k2 s ->
     par (ReadLeftDenotation n (parsers n) (Some e)) s (reads (spent k2 s) (Some e') q' s)) ->
  reads_expression (S d) (k1 + S k2) (level (Type_ t)) q q' e'.
Proof.
  intros [Hq (d' & Ed & H)] H0 Hl Hd; injection Ed as <-.
  split; [exact Hq|]; exists d; split; [reflexivity|]; intros n m bp s Q E R Hb HQ.
  apply H; [exact E|budget|lia|]; intros m' s1 E1 F1; unfold spent in *.
  eapply (go_on _ _ _ _ _ _ _ q' k2); [exact E1|exact H0|exact Hb|budget| |budget|].
  - intros s2 E2 F2 O2; apply Hd; [exact E2|budget].
  - intros m2 s2 E2 F2; apply HQ; [exact E2|unfold spent in *; budget].
Qed.

Lemma read_infix_expression d k1 k2 lv op q q1 q' l r :
  reads_expression (S d) k1 lv q (op :: q1) l -> infix (Type_ op) = true ->
  level (Type_ op) <= lv -> reads_operand d k2 (level (Type_ op)) q1 q' r ->
  reads_expression (S d) (k1 + S k2) (level (Type_ op)) q q' (infix_node op (Some l) (Some r)).
Proof.
  intros Hl Ho Hlv Hr; eapply read_tail; eauto using infix_level, infix_read.
Qed.

Lemma read_type_test d k lv op q q1 q' l ty : reads_expression (S d) k lv q (op :: q1) l ->
  one_of [TokenType.AsOperator; TokenType.IsOperator] (Type_ op) = true ->
  level (Type_ op) <= lv -> GType true q1 q' ty ->
  reads_expression (S d) (S k) (level (Type_ op)) q q' (type_test_node op (Some l) (Some ty)).
Proof.
  intros Hl Ho Hlv HT; replace (S k) with (k + 1)%nat by lia.
  eapply read_tail; [exact Hl| |exact Hlv|].
  - destruct (Type_ op); first [discriminate|reflexivity].
  - intros n s E R; apply (left_cases_run _ _ _ _ _ _ E); unfold left_cases, type_test_node.
    destruct (Type_ op) eqn:Et; try discriminate Ho; exec;
      (eapply par_call; [eapply type_read; eassumption|take]); exec; unfold spent in *; ends.
Qed.

Lemma read_postfix d k lv op q q' e : reads_expression (S d) k lv q (op :: q') e ->
  postfix (Type_ op) = true -> level (Type_ op) <= lv ->
  reads_expression (S d) (S k) (level (Type_ op)) q q' (UnaryExpressionSyntax op true (Some e)).
Proof.
  intros Hl Ho Hlv; replace (S k) with (k + 1)%nat by lia; eapply read_tail; [exact Hl| |exact Hlv|].
  - destruct (Type_ op); first [discriminate|reflexivity].
  - intros n s E R; apply (left_cases_run _ _ _ _ _ _ E); unfold left_cases.
    destruct (Type_ op) eqn:Et; try discriminate Ho; exec; unfold spent in *; ends.
Qed.

Lemma read_invocation d k1 k2 lv q q1 q' f args : reads_expression (S d) k1 lv q q1 f ->
  level TokenType.OpenCurl <= lv -> reads_arguments d k2 q1 q' args ->
  reads_expression (S d) (k1 + S k2) (level TokenType.OpenCurl) q q'
    (InvokationExpressionSyntax default_token no_name (Some f) None (Some args)).
Proof.
  intros Hl Hlv [Ha H]; destruct q1 as [|t q1]; [discriminate|].
  change (Type_ t = TokenType.OpenCurl) in Ha; rewrite <- Ha in Hlv |- *.
  eapply read_tail; [exact Hl| |exact Hlv|]; [rewrite Ha; reflexivity|].
  intros n s E R; apply (left_cases_run _ _ _ _ _ _ E); unfold left_cases; rewrite Ha.
  eapply par_call; [apply H; assumption|]; intros r s' (-> & E' & F'); exec; ends.
Qed.

(** ** Operands *)
Lemma read_operand d k bp lv q q' e : reads_expression d k lv q q' e -> 0 <= bp < lv ->
  level (ahead q') <= bp -> reads_operand d k bp q q' e.
Proof.
  intros [Hq (d' & -> & H)] Hb Hl.
  assert (Hg : forall n s, tokens s = q -> room (S d') k s ->
    par (operand_body n bp) s (reads (spent k s) (Some e) q' s)).
  { intros n s E R; unfold operand_body; eapply par_guarded; [left; split; reflexivity|].
    intros s1 E1 D1 O1 X1 B1 L1; cbn [fst snd] in *; rewrite E in E1.
    apply par_get; cbv beta; rewrite X1; unfold room, depths_fit in R.
    destruct (Z.ltb_spec MaxExpressionDepth (ExpressionDepth s + 1)); [exfalso; lia|].
    apply (H n n bp); [exact E1|budget|lia|]; intros m' s2 E2 F2.
    eapply par_mono; [eapply go_ends; [exact E2|exact Hl|lia]|].
    intros r s3 (-> & E3 & S3); exists (spent k s); split; [unfold spent in *; budget|].
    intros s4 E4 F4; split; [reflexivity|split; [congruence|exact F4]]. }
  split; [exact Hq|split]; intros [|n] s E R; try exact I; cbn [parsers call_ReadExpression].
  - unfold ReadExpression; apply par_ret_bind; apply Hg; assumption.
  - unfold ReadExpression; eapply par_call; [apply par_set_operators|].
    intros [] s1 (E1 & D1 & X1 & B1 & L1 & O1); rewrite E in E1.
    eapply par_mono; [apply Hg; [exact E1|budget]|]; intros r s2 (-> & E2 & F2).
    unfold spent in *; ends.
Qed.

(** ** Lists of expressions *)
Lemma starts_not q Y : starts_expression (ahead q) = true -> starts_expression Y = false ->
  ahead q <> Y.
Proof. intros H1 H2 E; congruence. Qed.

Lemma starts_some q : starts_expression (ahead q) = true -> some_ahead q = true.
Proof. destruct q; [discriminate|reflexivity]. Qed.

(** Runs on with [H], a fact about a call that reads an operand or a list. *)
Ltac reading H :=
  exec; eapply par_call; [apply H; [assumption|unfold spent, most in *; budget]|];
  let s := fresh "s" in intros ? s (-> & ?E & ?F); cbn [tl] in *.
Ltac done_reading := exec; unfold spent, most in *; ends.

Lemma read_last_element d k X q c q' e : reads_operand d k 0 q (c :: q') e -> Type_ c = X ->
  X = TokenType.CloseCurl \/ X = TokenType.CloseSquare -> reads_sequence d k X q c q' [e].
Proof.
  intros [Hq [_ H]] Hc HX; split; [exact Hq|]; intros n m s E R; pose proof (starts_some q Hq).
  destruct HX as [-> | ->];
    (split; [intros message acc|intros HX acc; try discriminate HX]); apply par_loop_step; intros m';
    unfold arguments_body, collection_body; exec; reading H; separates Hc; done_reading.
Qed.

Lemma read_more_elements d k1 k2 X q comma q1 c q' e es :
  reads_operand d k1 0 q (comma :: q1) e -> Type_ comma = TokenType.Comma ->
  X = TokenType.CloseCurl \/ X = TokenType.CloseSquare ->
  reads_sequence d k2 X q1 c q' es -> reads_sequence d (k1 + k2) X q c q' (e :: es).
Proof.
  intros [Hq [_ H]] Hc HX [_ IH]; split; [exact Hq|]; intros n m s E R.
  pose proof (starts_some q Hq); destruct HX as [-> | ->];
    (split; [intros message acc|intros HX acc; try discriminate HX]); apply par_loop_step; intros m';
    unfold arguments_body, collection_body; exec; reading H; separates Hc;
    (eapply par_mono; [apply IH; [assumption|budget|reflexivity..]|]); intros r s' (-> & E' & F');
    rewrite <- app_assoc; unfold spent in *; ends.
Qed.

Lemma read_arguments_none d k o c q : Type_ o = TokenType.OpenCurl ->
  Type_ c = TokenType.CloseCurl -> reads_arguments d k (o :: c :: q) q (ArgumentsList o c []).
Proof.
  intros Ho Hc; split; [exact Ho|]; intros n s E R; unfold ReadArgumentsList; done_reading.
Qed.

Lemma read_arguments_some d k o c q q' es : Type_ o = TokenType.OpenCurl ->
  reads_sequence d k TokenType.CloseCurl q c q' es ->
  reads_arguments d k (o :: q) q' (ArgumentsList o c (map (fun e => Argument (Some e)) es)).
Proof.
  intros Ho [Hq H]; split; [exact Ho|]; intros n s E R; unfold ReadArgumentsList.
  pose proof (starts_not _ TokenType.CloseCurl Hq eq_refl); exec.
  eapply par_call; [apply (H n n); [assumption|budget]|]; intros r s1 (-> & E1 & F1).
  done_reading.
Qed.

Lemma read_index_none d k o c q : Type_ o = TokenType.OpenSquare ->
  Type_ c = TokenType.CloseSquare -> reads_index_list d k (o :: c :: q) q (ArgumentsList o c []).
Proof. intros Ho Hc n s E R; unfold ReadIndexatorList; done_reading. Qed.

Lemma read_index_some d k o c q q' es : Type_ o = TokenType.OpenSquare ->
  reads_sequence d k TokenType.CloseSquare q c q' es ->
  reads_index_list d k (o :: q) q' (ArgumentsList o c (map (fun e => Argument (Some e)) es)).
Proof.
  intros Ho [Hq H] n s E R; unfold ReadIndexatorList.
  pose proof (starts_not _ TokenType.CloseSquare Hq eq_refl); exec.
  eapply par_call; [apply (H n n); [assumption|budget]|]; intros r s1 (-> & E1 & F1).
  done_reading.
Qed.

(** ** Member chains *)
Lemma read_last_index d k prev q q' args : reads_index_list d k q q' args ->
  ahead q' <> TokenType.OpenSquare ->
  reads_index d k prev q q' (IndexatorExpressionSyntax default_token index_name prev args).
Proof.
  intros H Hn [|n] s E R; [exact I|]; cbn [parsers call_ReadIndexatorExpressionNode].
  unfold ReadIndexatorExpressionNode; reading H; done_reading.
Qed.

Lemma read_more_index d k1 k2 prev q q1 q' args e : reads_index_list d k1 q q1 args ->
  ahead q1 = TokenType.OpenSquare ->
  reads_index d k2 (Some (IndexatorExpressionSyntax default_token index_name prev args)) q1 q' e ->
  reads_index d (k1 + k2) prev q q' e.
Proof.
  intros H Hn IH [|n] s E R; [exact I|]; cbn [parsers call_ReadIndexatorExpressionNode].
  unfold ReadIndexatorExpressionNode; reading H; exec.
  eapply par_mono; [apply IH; [assumption|unfold spent in *; budget]|].
  intros r s2 (-> & E2 & F2); unfold spent in *; ends.
Qed.

(** The scans of [<] answer what the grammar asks. *)
Lemma scan_run (body : nat * Z -> P ((nat * Z) + bool)) closes X :
  (forall i depth s, exists r, body (i, depth) s = done (r, s) /\
     match skipn (S i) (tokens s) with
     | [] => r = inr false
     | t :: q =>
         match Type_ t with
         | TokenType.EndOfFile | TokenType.Unknown => r = inr false
         | TokenType.LessOperator => r = inl (S i, depth + 1)
         | type => r = if (0 <? closes type) && (depth - closes type =? 0)
                       then inr (ahead q =tt X) else inl (S i, depth - closes type)
         end
     end) ->
  forall m i depth s, par (loop m body (i, depth)) s (fun b s' =>
    b = looks_generic closes X depth (skipn (S i) (tokens s)) /\ s' = s).
Proof.
  intros Hb; induction m as [|m IH]; intros i depth s; [exact I|]; cbn [loop].
  destruct (Hb i depth s) as (r & Er & Hr); unfold par, pbind; rewrite Er; cbn [fbind].
  destruct (skipn (S i) (tokens s)) as [|t q] eqn:Es; [subst r; split; reflexivity|].
  assert (Eq : skipn (S (S i)) (tokens s) = q).
  { change (S (S i)) with (1 + S i)%nat; rewrite <- skipn_skipn, Es; reflexivity. }
  assert (Hgo : forall depth', r = inl (S i, depth') ->
    par (loop m body (S i, depth')) s (fun b s' =>
      b = looks_generic closes X depth' q /\ s' = s)) by
    (intros depth' _; specialize (IH (S i) depth' s); rewrite Eq in IH; exact IH).
  cbn [looks_generic]; revert Hr; destruct (Type_ t); intros ->;
    try (split; reflexivity); try (apply Hgo; reflexivity);
    (destruct (_ && _); [split; reflexivity|apply Hgo; reflexivity]).
Qed.

Lemma nth_skipn (i : nat) (q : list SyntaxToken) :
  nth i q eof_token = hd eof_token (skipn i q).
Proof. revert q; induction i as [|i IH]; intros [|t q]; cbn; auto. Qed.

Ltac scan closes :=
  apply scan_run; intros i depth s1; unfold pbind, Peek, pget; cbn [fbind done];
  rewrite nth_skipn;
  destruct (skipn (S i) (tokens s1)) as [|t q] eqn:Es; [eexists; split; reflexivity|];
  assert (Eq : nth (S (S i)) (tokens s1) eof_token = hd eof_token q) by
    (rewrite nth_skipn; change (S (S i)) with (1 + S i)%nat; rewrite <- skipn_skipn, Es;
     reflexivity);
  cbn [hd]; destruct (Type_ t); cbn [closes Z.ltb Z.compare]; rewrite ?Z.sub_0_r;
  try (eexists; split; reflexivity);
  (destruct (_ =? 0); cbn [andb]; unfold pbind, Peek, pget; cbn [fbind done]; rewrite ?Eq;
   eexists; split; reflexivity).

Lemma generic_call_read n q s : tokens s = q ->
  par (IsGenericInvocation n) s (fun b s' => b = generic_call (tl q) /\ s' = s).
Proof.
  intros <-; unfold IsGenericInvocation, generic_call.
  replace (tl (tokens s)) with (skipn 1 (tokens s)) by (destruct (tokens s); reflexivity).
  scan closes_call.
Qed.

Lemma generic_receiver_read n q s : tokens s = q ->
  par (IsGenericTypeReceiver n) s (fun b s' => b = generic_receiver (tl q) /\ s' = s).
Proof.
  intros <-; unfold IsGenericTypeReceiver, generic_receiver.
  replace (tl (tokens s)) with (skipn 1 (tokens s)) by (destruct (tokens s); reflexivity).
  scan closes_receiver.
Qed.

(** A node of a chain after its name. *)
Definition reads_node d k prev dot x q q' e : Prop :=
  forall n s, tokens s = q -> room d k s ->
    par (linked_node n (parsers n) dot x prev) s (reads (spent k s) (Some e) q' s).

Lemma read_node d k prev first q dot x q1 q' e : link_name first q dot x q1 ->
  some_ahead q1 = true -> reads_node d k prev dot x q1 q' e ->
  reads_link (S d) k prev first q q' e.
Proof.
  intros Hx Hs H; split.
  { intros ->; inversion Hx; subst; assumption. }
  intros [|n] s E R; [exact I|]; cbn [parsers call_ReadLinkedExpressionNode].
  unfold ReadLinkedExpressionNode; eapply par_guarded; [right; right; split; reflexivity|].
  intros s1 E1 D1 O1 X1 B1 L1; cbn [fst snd] in *; rewrite E in E1; unfold room, depths_fit in R.
  apply par_get; cbv beta; rewrite L1.
  destruct (Z.ltb_spec MaxLinkedExpressionDepth (LinkedExpressionDepth s + 1)); [exfalso; lia|].
  assert (Hr : forall s2, tokens s2 = q1 -> same s1 s2 ->
    par (linked_node n (parsers n) dot x prev) s2 (fun a s3 => exists b, fine b s1 s3 /\
      forall s', tokens s' = tokens s3 -> fine b s s' ->
        reads (spent k s) (Some e) q' s a s')).
  { intros s2 E2 S2; eapply par_mono; [apply (H n s2 E2); budget|].
    intros r s3 (-> & E3 & F3); exists (spent k s); split; [unfold spent in *; budget|].
    intros s' E' F'; split; [reflexivity|split; [congruence|exact F']]. }
  destruct Hx as [t q1 Ht|dt t q1 Hdot Ht]; exec.
  - unfold linked_name, Matches; exec; apply Hr; [assumption|budget].
  - unfold linked_name; exec; apply Hr; [assumption|budget].
Qed.

Lemma name_node d k prev dot x q : ends_name q = true ->
  reads_node d k prev dot x q q (MemberAccessExpressionSyntax dot x prev).
Proof.
  intros He n s E R; unfold ends_name in He; apply andb_true_iff in He as [He Hg].
  apply andb_true_iff in He as [Ho Hs]; apply negb_true_iff in Hs, Hg.
  assert (Hgo : ahead q = TokenType.LessOperator ->
    par (linked_generic n (parsers n) dot x prev) s
      (reads (spent k s) (Some (MemberAccessExpressionSyntax dot x prev)) q s)).
  { intros El; rewrite El in Hg; apply orb_false_iff in Hg as [Hc Hr]; unfold linked_generic.
    eapply par_call; [apply generic_call_read, E|]; intros b s1 [-> ->]; rewrite Hc; exec.
    eapply par_call; [apply generic_receiver_read, E|]; intros b s1 [-> ->]; rewrite Hr.
    done_reading. }
  unfold linked_node; exec; change (hd eof_token q) with (hd eof_token q).
  destruct (ahead q) eqn:Ea; try discriminate Hs; try discriminate Ho; exec;
    first [apply Hgo; reflexivity|unfold spent; ends].
Qed.

Lemma member_node d k prev dot x q q' e : ahead q = TokenType.Delimeter ->
  reads_link d k (Some (MemberAccessExpressionSyntax dot x prev)) false q q' e ->
  reads_node d k prev dot x q q' e.
Proof.
  intros Ha [_ H] n s E R; unfold linked_node; exec; apply H; assumption.
Qed.

Lemma index_node d k1 k2 prev dot x q q1 q' e e' : ahead q = TokenType.OpenSquare ->
  reads_index d k1 (Some (MemberAccessExpressionSyntax dot x prev)) q q1 e ->
  reads_rest d k2 e q1 q' e' -> reads_node d (k1 + k2) prev dot x q q' e'.
Proof.
  intros Ha H1 H2 n s E R; unfold linked_node; reading H1; exec.
  eapply par_mono; [apply H2; [assumption|unfold spent in *; budget]|].
  intros r s2 (-> & E2 & F2); unfold spent in *; ends.
Qed.

Lemma call_node d k1 k2 prev dot x q q1 q' args e : reads_arguments d k1 q q1 args ->
  reads_rest d k2 (InvokationExpressionSyntax dot x prev None (Some args)) q1 q' e ->
  reads_node d (k1 + k2) prev dot x q q' e.
Proof.
  intros [Ha H1] H2 n s E R; unfold linked_node; reading H1; exec.
  eapply par_mono; [apply H2; [assumption|unfold spent in *; budget]|].
  intros r s2 (-> & E2 & F2); unfold spent in *; ends.
Qed.

Lemma generic_call_node d k1 k2 prev dot x q q1 q2 q' tys args e :
  generic_call (tl q) = true -> GTypeArguments q q1 tys -> reads_arguments d k1 q1 q2 args ->
  reads_rest d k2 (InvokationExpressionSyntax dot x prev (Some tys) (Some args)) q2 q' e ->
  reads_node d (k1 + k2) prev dot x q q' e.
Proof.
  intros Hg HT [Ha H1] H2 n s E R; pose proof (type_arguments_start _ _ _ HT) as Hl.
  unfold linked_node; exec; unfold linked_generic.
  eapply par_call; [apply generic_call_read, E|]; intros b s1 [-> ->]; rewrite Hg; exec.
  eapply par_call; [eapply type_arguments_read; eassumption|take]; reading H1; exec.
  eapply par_mono; [apply H2; [assumption|unfold spent in *; budget]|].
  intros r s2 (-> & E2 & F2); unfold spent in *; ends.
Qed.

Lemma generic_receiver_node d k x dot q q1 q' tys e :
  generic_call (tl q) = false -> generic_receiver (tl q) = true -> GTypeArguments q q1 tys ->
  reads_link d k (Some (TypeExpressionSyntax (GenericTypeSyntax (IdentifierNameTypeSyntax x) tys)))
    false q1 q' e ->
  reads_node d k None dot x q q' e.
Proof.
  intros Hg Hr HT [_ H] n s E R; pose proof (type_arguments_start _ _ _ HT) as Hl.
  unfold linked_node; exec; unfold linked_generic.
  eapply par_call; [apply generic_call_read, E|]; intros b s1 [-> ->]; rewrite Hg; exec.
  eapply par_call; [apply generic_receiver_read, E|]; intros b s1 [-> ->]; rewrite Hr; exec.
  eapply par_call; [eapply type_arguments_read; eassumption|take]; exec.
  eapply par_mono; [apply H; [assumption|budget]|].
  intros r s2 (-> & E2 & F2); unfold spent in *; ends.
Qed.

(** The link of a chain with its name. *)
Lemma link_node d k prev first q dot x q1 q' e : link_name first q dot x q1 ->
  reads_node d k prev dot x q1 q' e -> ahead q1 <> TokenType.EndOfFile ->
  reads_link (S d) k prev first q q' e.
Proof.
  intros Hx H Ha; eapply read_node; [exact Hx| |exact H].
  destruct q1; [destruct Ha|]; reflexivity.
Qed.

Lemma ends_name_ahead q : ends_name q = true -> ahead q <> TokenType.EndOfFile.
Proof. unfold ends_name; intros H E; rewrite E in H; discriminate. Qed.

(** ** What follows a call or an index *)
Lemma rest_end d k e q : ahead q <> TokenType.OpenSquare -> ahead q <> TokenType.Delimeter ->
  reads_rest d k e q q e.
Proof. intros H1 H2 n s E R; unfold linked_rest; exec; unfold spent; ends. Qed.

Lemma rest_member d k e q q' e' : ahead q = TokenType.Delimeter ->
  reads_link d k (Some e) false q q' e' -> reads_rest d k e q q' e'.
Proof.
  intros Ha [_ H] n s E R; unfold linked_rest; exec; apply H; assumption.
Qed.

Lemma rest_index d k e q q' e' : ahead q = TokenType.OpenSquare ->
  reads_index d k (Some e) q q' e' -> ahead q' <> TokenType.Delimeter -> reads_rest d k e q q' e'.
Proof. intros Ha H Hn n s E R; unfold linked_rest; exec; reading H; done_reading. Qed.

Lemma rest_index_member d k1 k2 e q q1 q' e1 e' : ahead q = TokenType.OpenSquare ->
  reads_index d k1 (Some e) q q1 e1 -> ahead q1 = TokenType.Delimeter ->
  reads_link d k2 (Some e1) false q1 q' e' -> reads_rest d (k1 + k2) e q q' e'.
Proof.
  intros Ha H Hn [_ H2] n s E R; unfold linked_rest; exec; reading H; exec.
  eapply par_mono; [apply H2; [assumption|unfold spent in *; budget]|].
  intros r s2 (-> & E2 & F2); unfold spent in *; ends.
Qed.

(** ** Primary expressions *)
Ltac primary :=
  let n := fresh "n" in
  intros n; destruct n as [|n]; [intros; exact I|]; intros s E R;
  cbn [parsers call_ReadNullDenotation]; unfold ReadNullDenotation.
Ltac starts Ht := unfold starts_expression, ahead; cbn [hd]; rewrite Ht; reflexivity.

Lemma starts_cons (f : TokenType -> bool) t q : f (Type_ t) = true ->
  (forall X, f X = true -> starts_expression X = true) -> starts_expression (ahead (t :: q)) = true.
Proof. intros H Hf; apply Hf, H. Qed.

Lemma starts_literal X : literal X = true -> starts_expression X = true.
Proof. unfold starts_expression; intros ->; reflexivity. Qed.
Lemma starts_prefix X : prefix X = true -> starts_expression X = true.
Proof. unfold starts_expression; intros ->; rewrite orb_true_r; reflexivity. Qed.
Lemma starts_linked X : one_of linked_start X = true -> starts_expression X = true.
Proof. unfold starts_expression; intros ->; rewrite orb_true_r; reflexivity. Qed.

Lemma read_literal d k t q : literal (Type_ t) = true ->
  reads_primary d k (t :: q) q (LiteralExpressionSyntax t).
Proof.
  intros Ht; split; [apply starts_literal, Ht|]; primary.
  exec; destruct (Type_ t) eqn:Et; try discriminate Ht; done_reading.
Qed.

Lemma read_prefix d k t q q' e : prefix (Type_ t) = true -> reads_primary d k q q' e ->
  reads_primary d k (t :: q) q' (UnaryExpressionSyntax t false (Some e)).
Proof.
  intros Ht [_ H]; split; [apply starts_prefix, Ht|]; primary.
  exec; destruct (Type_ t) eqn:Et; try discriminate Ht; unfold ReadPrefix; reading H;
    done_reading.
Qed.

Lemma read_await d k t q q' e : Type_ t = TokenType.AwaitKeyword -> reads_primary d k q q' e ->
  reads_primary d k (t :: q) q' (AwaitExpressionSyntax t (Some e)).
Proof.
  intros Ht [_ H]; split; [starts Ht|]; primary; exec; unfold ReadPrefix; reading H; done_reading.
Qed.

Lemma read_parens d k o c q q' e : Type_ o = TokenType.OpenCurl ->
  reads_operand d k 0 q (c :: q') e -> Type_ c = TokenType.CloseCurl ->
  ahead q' <> TokenType.Delimeter -> reads_primary d k (o :: q) q' e.
Proof.
  intros Ho (_ & H & _) Hc Hn; split; [starts Ho|]; primary; exec; reading H; done_reading.
Qed.

Lemma read_parens_chain d k1 k2 o c q q1 q' e e' : Type_ o = TokenType.OpenCurl ->
  reads_operand d k1 0 q (c :: q1) e -> Type_ c = TokenType.CloseCurl ->
  ahead q1 = TokenType.Delimeter -> reads_link d k2 (Some e) false q1 q' e' ->
  reads_primary d (k1 + k2) (o :: q) q' e'.
Proof.
  intros Ho (_ & H & _) Hc Ha [_ H2]; split; [starts Ho|]; primary; exec; reading H; exec.
  eapply par_mono; [apply H2; [assumption|unfold spent in *; budget]|].
  intros r s3 (-> & E3 & F3); unfold spent in *; ends.
Qed.

Lemma read_chain d k q q' e : reads_link d k None true q q' e -> reads_primary d k q q' e.
Proof.
  intros [Hf H]; specialize (Hf eq_refl); split; [apply starts_linked, Hf|]; primary.
  exec; destruct (ahead q) eqn:Ea; try discriminate Hf; exec; apply H; assumption.
Qed.

Lemma read_empty_collection d k o c q : Type_ o = TokenType.OpenSquare ->
  Type_ c = TokenType.CloseSquare ->
  reads_primary d k (o :: c :: q) q (CollectionExpressionSyntax o c []).
Proof.
  intros Ho Hc; split; [starts Ho|]; primary; exec; unfold ReadCollectionExpression; done_reading.
Qed.

Lemma read_collection d k o c q q' es : Type_ o = TokenType.OpenSquare ->
  reads_sequence d k TokenType.CloseSquare q c q' es ->
  reads_primary d k (o :: q) q' (collection_node o c (map Some es)).
Proof.
  intros Ho [Hq H]; split; [starts Ho|]; primary; exec; unfold ReadCollectionExpression.
  pose proof (starts_not _ TokenType.CloseSquare Hq eq_refl); exec.
  eapply par_call; [apply (H n n); [assumption|budget|reflexivity]|].
  intros r s1 (-> & E1 & F1); cbn [app].
  assert (He : reads (spent k s) (Some (collection_node o c (map Some es))) q' s
                 (Some (collection_node o c (map Some es))) s1) by (unfold spent; ends).
  unfold collection_node in *; destruct es as [|[] [|]]; exact He.
Qed.

Lemma read_new d k t q q1 q' ty args : Type_ t = TokenType.NewKeyword -> GType false q q1 ty ->
  reads_arguments d k q1 q' args ->
  reads_primary d k (t :: q) q' (ObjectExpressionSyntax t (Some ty) false None (Some args)).
Proof.
  intros Ht HT [Ha H]; split; [starts Ht|]; primary; exec; unfold ReadObjectExpression; exec.
  eapply par_call; [eapply type_read; eassumption|take]; reading H; done_reading.
Qed.

Lemma read_new_array d k t o c q q1 q' ty e : Type_ t = TokenType.NewKeyword ->
  GType false q (o :: q1) ty -> Type_ o = TokenType.OpenSquare ->
  reads_operand d k 0 q1 (c :: q') e -> Type_ c = TokenType.CloseSquare ->
  reads_primary d k (t :: q) q' (ObjectExpressionSyntax t (Some ty) true (Some e) None).
Proof.
  intros Ht HT Ho (_ & _ & H) Hc; split; [starts Ht|]; primary; exec; unfold ReadObjectExpression.
  exec; eapply par_call; [eapply type_read; eassumption|take]; reading H; done_reading.
Qed.

(** ** Lambdas *)
Lemma lambda_head_read d k q async t q1 q' e : lambda_head q async t q1 ->
  (forall n s, tokens s = t :: q1 -> room d k s ->
     par (ReadLambdaExpression n (parsers n) async) s (reads (spent k s) e q' s)) ->
  reads_primary d k q q' e.
Proof.
  intros [a t' q0 Ha Ht|t' q0 Ht] H; (split; [first [starts Ha|starts Ht]|]); primary; exec;
    reading H; done_reading.
Qed.

Lemma expression_body_read d k what arrow q q' e n s : Type_ arrow = TokenType.LambdaOperator ->
  reads_operand d k 0 q q' e -> tokens s = arrow :: q -> fresh d k s ->
  par (ReadExpressionBodyOrBlock (parsers n) what) s
    (reads (Z.of_nat k) (expression_body arrow e q') q' s).
Proof.
  intros Ha (_ & _ & H) E R; unfold ReadExpressionBodyOrBlock; reading H.
  unfold expression_body; destruct q' as [|t q']; done_reading.
Qed.

Lemma block_body_read d k what q q' b n s : ahead q = TokenType.OpenBrace ->
  reads_block d k q q' b -> tokens s = q -> fresh d k s ->
  par (ReadExpressionBodyOrBlock (parsers n) what) s (reads (most k s) b q' s).
Proof.
  intros Ha H E R; unfold ReadExpressionBodyOrBlock; exec.
  eapply par_mono; [apply H; assumption|]; intros r s1 (-> & E1 & F1); ends.
Qed.

Lemma return_type_cases q arrow q' r : GReturnType q arrow q' r ->
  (q = q' /\ arrow = default_token /\ r = None /\ ahead q' <> TokenType.ArrowOperator) \/
  exists q0 ty, q = arrow :: q0 /\ r = Some ty /\ Type_ arrow = TokenType.ArrowOperator /\
    GType true q0 q' ty.
Proof. intros []; eauto 10. Qed.

Lemma read_lambda d k async t q q1 q2 ps arrow q3 r op q' e : lambda_head q async t q1 ->
  GParametersList q1 q2 ps -> GReturnType q2 arrow (op :: q3) r ->
  Type_ op = TokenType.LambdaOperator -> reads_operand d k 0 q3 q' e ->
  reads_primary d k q q' (LambdaExpressionSyntax t op arrow async ps r (expression_body op e q')).
Proof.
  intros Hh Hp Hr Hop He; eapply lambda_head_read; [exact Hh|]; intros n s E R.
  assert (Ht : Type_ t = TokenType.LambdaKeyword) by (destruct Hh; assumption).
  unfold ReadLambdaExpression; exec.
  eapply par_call; [eapply parameters_list_read; eassumption|take].
  destruct (return_type_cases _ _ _ _ Hr) as [(-> & -> & -> & Hn)|(q4 & ty & -> & -> & Hat & HT)];
    exec; [|eapply par_call; [eapply type_read; eassumption|take]; exec];
    (eapply par_call; [eapply expression_body_read; [exact Hop|exact He|eassumption|budget]|]);
    intros b s' (-> & E' & F'); done_reading.
Qed.

Lemma read_lambda_block d k async t q q1 q2 ps arrow q3 ty q' b : lambda_head q async t q1 ->
  GParametersList q1 q2 ps -> GReturnType q2 arrow q3 (Some ty) ->
  ahead q3 = TokenType.OpenBrace -> reads_block d k q3 q' b ->
  reads_primary d k q q' (LambdaExpressionSyntax t default_token arrow async ps (Some ty) b).
Proof.
  intros Hh Hp Hr Hop Hb; eapply lambda_head_read; [exact Hh|]; intros n s E R.
  assert (Ht : Type_ t = TokenType.LambdaKeyword) by (destruct Hh; assumption).
  unfold ReadLambdaExpression; exec.
  eapply par_call; [eapply parameters_list_read; eassumption|take].
  destruct (return_type_cases _ _ _ _ Hr) as [(_ & _ & Hty & _)|(q4 & ty' & -> & Hty & Hat & HT)];
    [discriminate Hty|]; injection Hty as ->; exec.
  eapply par_call; [eapply type_read; eassumption|take]; exec.
  eapply par_call; [eapply block_body_read; [exact Hop|exact Hb|eassumption|budget]|].
  intros b' s' (-> & E' & F'); done_reading.
Qed.

(** ** [if] and [switch] *)
Lemma read_if d k1 k2 t q q1 q' c a : Type_ t = TokenType.IfKeyword ->
  reads_operand d k1 0 q q1 c -> reads_operand d k2 0 q1 q' a ->
  ahead q' <> TokenType.ElseKeyword ->
  reads_primary d (k1 + k2) (t :: q) q'
    (IfExpressionSyntax t default_token (Some c) (Some a) None).
Proof.
  intros Ht (_ & _ & Hc) (_ & _ & Ha) Hn; split; [starts Ht|]; primary; exec.
  unfold ReadIfExpression; reading Hc; reading Ha; done_reading.
Qed.

Lemma read_if_else d k1 k2 k3 t else_ q q1 q2 q' c a b : Type_ t = TokenType.IfKeyword ->
  reads_operand d k1 0 q q1 c -> reads_operand d k2 0 q1 (else_ :: q2) a ->
  Type_ else_ = TokenType.ElseKeyword -> reads_operand d k3 0 q2 q' b ->
  reads_primary d (k1 + k2 + k3) (t :: q) q'
    (IfExpressionSyntax t else_ (Some c) (Some a) (Some b)).
Proof.
  intros Ht (_ & _ & Hc) (_ & _ & Ha) He (_ & _ & Hb); split; [starts Ht|]; primary; exec.
  unfold ReadIfExpression; reading Hc; reading Ha; reading Hb; done_reading.
Qed.

Lemma read_wildcard d k t q : Type_ t = TokenType.Identifier -> Word t = L "_" ->
  reads_pattern d k (t :: q) q
    (LiteralExpressionSyntax (made TokenType.Identifier "_" (Location t) false)).
Proof.
  intros Ht Hw; split; [reflexivity|split; [exec; discriminate|]]; intros n s E R.
  assert (Hww : (Word t =w L "_") = true) by (rewrite Hw; apply weqb_refl).
  unfold ReadSwitchArmPattern; done_reading.
Qed.

Lemma read_is_pattern d k q q' p : GIsPattern q q' p -> reads_pattern d k q q' p.
Proof.
  intros H; pose proof (is_pattern_starts _ _ _ H) as Ha.
  split; [destruct q; [discriminate Ha|reflexivity]|]; split; [congruence|]; intros n s E R.
  unfold ReadSwitchArmPattern; exec.
  eapply par_call; [eapply is_pattern_read; eassumption|take]; done_reading.
Qed.

Lemma read_pattern_expression d k q q' e : (Word (hd eof_token q) =w L "_") = false ->
  reads_operand d k 0 q q' e -> reads_pattern d k q q' e.
Proof.
  intros Hw (Hq & _ & H); split; [apply starts_some, Hq|].
  split; [apply (starts_not _ _ Hq); reflexivity|]; intros n s E R.
  pose proof (starts_not _ TokenType.IsOperator Hq eq_refl).
  unfold ReadSwitchArmPattern; exec;
    (eapply par_mono; [apply H; assumption|]); intros r s1 (-> & E1 & F1); unfold most; ends.
Qed.

Lemma read_no_arm d k c q : Type_ c = TokenType.CloseBrace -> reads_arms d k (c :: q) c q [].
Proof.
  intros Hc n m acc s E R; apply par_loop_step; intros m'; unfold arms_body; exec.
  rewrite app_nil_r; unfold most.
  split; [reflexivity|split; [assumption|split; [reflexivity|budget]]].
Qed.

Lemma read_arm_comma d k1 k2 k3 q arrow q1 comma q2 c q' p e arms :
  reads_pattern d k1 q (arrow :: q1) p -> Type_ arrow = TokenType.LambdaOperator ->
  reads_operand d k2 0 q1 (comma :: q2) e -> Type_ comma = TokenType.Comma ->
  reads_arms d k3 q2 c q' arms ->
  reads_arms d (k1 + k2 + k3) q c q' (SwitchArm arrow (Some p) (Some e) :: arms).
Proof.
  intros (Hs & Hn & Hp) Ha (_ & _ & He) Hc IH n m acc s E R; apply par_loop_step; intros m'.
  unfold arms_body; exec; reading Hp; reading He; exec.
  eapply par_mono; [apply IH; [assumption|unfold most in *; budget]|].
  intros r s9 (-> & E9 & Hcl & F9); rewrite <- app_assoc; unfold most in *.
  split; [reflexivity|split; [assumption|split; [assumption|budget]]].
Qed.

Lemma read_arm_plain d k1 k2 k3 q arrow q1 q2 c q' p e arms :
  reads_pattern d k1 q (arrow :: q1) p -> Type_ arrow = TokenType.LambdaOperator ->
  reads_operand d k2 0 q1 q2 e -> ahead q2 <> TokenType.Comma ->
  reads_arms d k3 q2 c q' arms ->
  reads_arms d (k1 + k2 + k3) q c q' (SwitchArm arrow (Some p) (Some e) :: arms).
Proof.
  intros (Hs & Hn & Hp) Ha (_ & _ & He) Hc IH n m acc s E R; apply par_loop_step; intros m'.
  unfold arms_body; exec; reading Hp; reading He; exec.
  eapply par_mono; [apply IH; [assumption|unfold most in *; budget]|].
  intros r s9 (-> & E9 & Hcl & F9); rewrite <- app_assoc; unfold most in *.
  split; [reflexivity|split; [assumption|split; [assumption|budget]]].
Qed.

Lemma read_switch d k1 k2 t o c q q1 q' e arms : Type_ t = TokenType.SwitchKeyword ->
  reads_operand d k1 0 q (o :: q1) e -> Type_ o = TokenType.OpenBrace ->
  reads_arms d k2 q1 c q' arms ->
  reads_primary d (k1 + k2) (t :: q) q' (SwitchExpressionSyntax t o c (Some e) arms).
Proof.
  intros Ht (_ & _ & He) Ho Ha; split; [starts Ht|]; primary; exec.
  unfold ReadSwitchExpression; reading He; exec.
  eapply par_call; [apply (Ha n n []); [assumption|budget]|].
  intros r s9 (-> & E9 & Hcl & F9); done_reading.
Qed.
