(* ===== verification/GrammarStmt.v ===== *)
(** * The parser reads statements

    The statements and blocks of the grammar, rule by rule; the conclusion of
    every judgement on expressions and statements is then read, by induction on
    its derivation. *)
From Stdlib Require Import ZArith Lia Bool List String.
From stdpp Require Import base list.
From S2P Require Import Prelude Tokens SyntaxFacts SyntaxTree ParserState ParserTypes ParserExpr ParserStmt ParserTotal Grammar ParserRun GrammarTypes GrammarExpr.
Import ListNotations SyntaxFacts.
Open Scope Z_scope.
Open Scope shard_scope.
Open Scope parser_scope.

(** ** What is read *)
Definition reads_plain d k q q' st : Prop :=
  (as_KeywordStatement st = None /\ ahead q <> TokenType.CloseBrace /\
   ahead q <> TokenType.EndOfFile) /\
  forall n s, tokens s = q -> fresh d k s ->
    par (ReadStatement n (parsers n)) s (reads (most k s) (Some st) q' s).
Definition reads_statement d k q q' st : Prop :=
  some_ahead q = true /\ ahead q <> TokenType.CloseBrace /\ ahead q <> TokenType.EndOfFile /\
  forall n s, tokens s = q -> fresh d k s ->
    par (ReadBlockStatement n (parsers n) (hd eof_token q)) s (reads (most k s) (Some st) q' s).
Definition reads_optional d k q q' e : Prop :=
  ahead q' = TokenType.Semicolon /\
  forall n s, tokens s = q -> fresh d k s ->
    par (ReadOperand (parsers n)) s (reads (most k s) e q' s).
Definition reads_condition d k q q' st : Prop :=
  forall n s, tokens s = q -> fresh d k s ->
    par (call_ReadConditionalClause (parsers n)) s (reads (most k s) (Some st) q' s).
Definition reads_else d k q q' next : Prop :=
  (ahead q <> TokenType.ElseKeyword /\ q' = q /\ next = None) \/
  (ahead q = TokenType.ElseKeyword /\ exists st, next = Some st /\ reads_condition d k q q' st).
Definition reads_range d k q x in_ q' e b : Prop :=
  forall n s message build, tokens s = q -> fresh d k s ->
    par (ReadRange (parsers n) message build) s (reads (most k s) (build x in_ (Some e) b) q' s).

Definition catches_body n : list CatchClauseSyntax ->
    P (list CatchClauseSyntax + list CatchClauseSyntax) :=
  ltac:(let t := eval unfold ReadTryStatement in (ReadTryStatement n (parsers n)) in
        lazymatch t with context [loop _ ?b _] => exact b end).
Definition cases_body n : list SwitchCaseClauseSyntax ->
    P (list SwitchCaseClauseSyntax + list SwitchCaseClauseSyntax) :=
  ltac:(let t := eval unfold ReadSwitchStatement in (ReadSwitchStatement n (parsers n)) in
        lazymatch t with context [loop _ ?b _] => exact b end).
Definition statements_body n : Z * list StatementSyntax -> P _ :=
  ltac:(body_of (ReadStatementsBlock_loop n (parsers n))).

Definition reads_catches d k q q' cs : Prop :=
  forall n m acc s, tokens s = q -> fresh d k s ->
    par (loop m (catches_body n) acc) s (reads (most k s) (acc ++ cs)%list q' s).
Definition reads_cases d k q c q' cs : Prop :=
  Type_ c = TokenType.CloseBrace /\
  forall n m acc s, tokens s = q -> fresh d k s ->
    par (loop m (cases_body n) acc) s (reads (most k s) (acc ++ cs)%list (c :: q') s).
Definition reads_statements d k q c q' ss : Prop :=
  Type_ c = TokenType.CloseBrace /\
  forall n m guard acc s, tokens s = q -> fresh d k s ->
    guard + Z.of_nat (List.length ss) < loopGuard_max ->
    par (loop m (statements_body n) (guard, acc)) s
      (reads (most k s) (c, (acc ++ ss)%list) q' s).

(** ** Plain statements *)
Ltac plain_start Hx :=
  split; [reflexivity|split; unfold ahead; cbn [hd]; congruence].

Lemma read_empty_statement d k q : ahead q = TokenType.Semicolon ->
  reads_plain d k q q (ExpressionStatementSyntax default_token None).
Proof.
  intros Ha; split; [repeat split; congruence|]; intros n s E R; unfold ReadStatement; done_reading.
Qed.

Lemma read_typed d k x colon a q q1 q' ty e : Type_ x = TokenType.Identifier ->
  Type_ colon = TokenType.Colon -> GType true q (a :: q1) ty ->
  Type_ a = TokenType.AssignOperator -> reads_operand d k 0 q1 q' e ->
  reads_plain d k (x :: colon :: q) q' (VariableStatementSyntax default_token ty x a (Some e)).
Proof.
  intros Hx Hc HT Ha (_ & _ & H); split; [plain_start Hx|]; intros n s E R.
  unfold ReadStatement; exec; unfold ReadTypedVariable; exec.
  eapply par_call; [eapply type_read; eassumption|take]; exec; reading H; done_reading.
Qed.

Lemma read_inferred d k x a q q' e : Type_ x = TokenType.Identifier ->
  Type_ a = TokenType.DeclareAssignOperator -> reads_operand d k 0 q q' e ->
  reads_plain d k (x :: a :: q) q'
    (VariableStatementSyntax default_token
       (PredefinedTypeSyntax (made TokenType.VarKeyword "var" (Location x) false)) x a (Some e)).
Proof.
  intros Hx Ha (_ & _ & H); split; [plain_start Hx|]; intros n s E R.
  unfold ReadStatement; exec; unfold ReadInferredVariable; exec; reading H; done_reading.
Qed.

Lemma read_expression_statement d k q q' e : declares q = false ->
  reads_operand d k 0 q q' e ->
  reads_plain d k q q' (ExpressionStatementSyntax default_token (Some e)).
Proof.
  intros Hd (Hq & _ & H); split;
    [split; [reflexivity|split; apply (starts_not _ _ Hq); reflexivity]|]; intros n s E R.
  pose proof (starts_not _ TokenType.Semicolon Hq eq_refl).
  assert (He : par (ReadExpressionStatement (parsers n)) s
    (reads (most k s) (Some (ExpressionStatementSyntax default_token (Some e))) q' s)).
  { unfold ReadExpressionStatement; reading H; done_reading. }
  unfold ReadStatement; destruct q as [|t [|p q]]; [discriminate Hq|exec; exact He|].
  unfold declares, one_of in Hd; cbn [existsb] in Hd; exec; try exact He;
    exfalso; repeat (rewrite ?e0, ?e1 in Hd); reduce_tests; discriminate Hd.
Qed.

(** ** Statements of a block *)
(** The token ahead begins a statement. *)
Ltac begins Ht :=
  split; [reflexivity|]; split; [unfold ahead; cbn [hd]; congruence|];
  split; [unfold ahead; cbn [hd]; congruence|].
Ltac statement Ht :=
  begins Ht; intros n s E R; unfold ReadBlockStatement; exec; unfold ReadKeywordStatement; exec;
  unfold some_statement.

Lemma read_plain_statement d k q semi q' st : IsKeyword (ahead q) = false ->
  reads_plain d k q (semi :: q') st -> Type_ semi = TokenType.Semicolon ->
  reads_statement d k q q' (set_SemicolonToken st semi).
Proof.
  intros Hk [(_ & Hb & He) H] Hs; split; [destruct q; [destruct He|]; reflexivity|].
  split; [exact Hb|split; [exact He|]]; intros n s E R.
  unfold ReadBlockStatement; exec; reading H; unfold expect_semicolon; done_reading.
Qed.

Lemma read_no_operand d k q : ahead q = TokenType.Semicolon -> reads_optional d k q q None.
Proof. intros Ha; split; [exact Ha|]; intros n s E R; unfold ReadOperand; done_reading. Qed.

Lemma read_some_operand d k q q' e : reads_operand d k 0 q q' e ->
  ahead q' = TokenType.Semicolon -> reads_optional d k q q' (Some e).
Proof.
  intros (Hq & _ & H) Ha; split; [exact Ha|]; intros n s E R; unfold ReadOperand.
  pose proof (starts_not _ TokenType.Semicolon Hq eq_refl); exec.
  eapply par_mono; [apply H; assumption|]; intros r s1 (-> & E1 & F1); unfold most; ends.
Qed.

Lemma read_return d k t semi q q' e : Type_ t = TokenType.ReturnKeyword ->
  reads_optional d k q (semi :: q') e ->
  reads_statement d k (t :: q) q' (ReturnStatementSyntax semi t e).
Proof.
  intros Ht [Hs H]; statement Ht; unfold ReadReturnStatement; reading H.
  unfold expect_semicolon; done_reading.
Qed.

Lemma read_throw d k t semi q q' e : Type_ t = TokenType.ThrowKeyword ->
  reads_optional d k q (semi :: q') e ->
  reads_statement d k (t :: q) q' (ThrowStatementSyntax semi t e).
Proof.
  intros Ht [Hs H]; statement Ht; unfold ReadThrowStatement; reading H.
  unfold expect_semicolon; done_reading.
Qed.

Lemma read_break d k t semi q : Type_ t = TokenType.BreakKeyword ->
  Type_ semi = TokenType.Semicolon ->
  reads_statement d k (t :: semi :: q) q (BreakStatementSyntax semi t).
Proof.
  intros Ht Hs; statement Ht; unfold ReadBreakStatement, expect_semicolon; done_reading.
Qed.

Lemma read_continue d k t semi q : Type_ t = TokenType.ContinueKeyword ->
  Type_ semi = TokenType.Semicolon ->
  reads_statement d k (t :: semi :: q) q (ContinueStatementSyntax semi t).
Proof.
  intros Ht Hs; statement Ht; unfold ReadContinueStatement, expect_semicolon; done_reading.
Qed.

Lemma read_defer d k t semi q q' st : Type_ t = TokenType.DeferKeyword ->
  ahead q <> TokenType.Semicolon -> reads_plain d k q (semi :: q') st ->
  Type_ semi = TokenType.Semicolon ->
  reads_statement d k (t :: q) q' (DeferStatementSyntax semi t (Some st)).
Proof.
  intros Ht Hn [_ H] Hs; statement Ht; unfold ReadDeferStatement; exec; reading H.
  unfold expect_semicolon; done_reading.
Qed.

Lemma read_conditional d k q q' st :
  one_of [TokenType.IfKeyword; TokenType.UnlessKeyword] (ahead q) = true ->
  reads_condition d k q q' st -> reads_statement d k q q' st.
Proof.
  intros Ha H; assert (Hc : ahead q = TokenType.IfKeyword \/ ahead q = TokenType.UnlessKeyword) by
    (destruct (ahead q); try discriminate Ha; auto).
  split; [destruct q; [discriminate|reflexivity]|].
  split; [destruct Hc; congruence|split; [destruct Hc; congruence|]]; intros n s E R.
  unfold ReadBlockStatement; destruct Hc as [Hc|Hc]; exec; unfold ReadKeywordStatement; exec;
    apply H; assumption.
Qed.

Lemma read_while d k t o c q q1 q' e b : Type_ t = TokenType.WhileKeyword ->
  Type_ o = TokenType.OpenCurl -> reads_operand d k 0 q (c :: q1) e ->
  Type_ c = TokenType.CloseCurl -> reads_block d k q1 q' b ->
  reads_statement d k (t :: o :: q) q' (WhileStatementSyntax loop_semicolon t o c (Some e) b).
Proof.
  intros Ht Ho (_ & _ & H) Hc Hb; statement Ht; unfold ReadWhileStatement; reading H; reading Hb.
  done_reading.
Qed.

Lemma read_until d k t o c q q1 q' e b : Type_ t = TokenType.UntilKeyword ->
  Type_ o = TokenType.OpenCurl -> reads_operand d k 0 q (c :: q1) e ->
  Type_ c = TokenType.CloseCurl -> reads_block d k q1 q' b ->
  reads_statement d k (t :: o :: q) q' (UntilStatementSyntax loop_semicolon t o c (Some e) b).
Proof.
  intros Ht Ho (_ & _ & H) Hc Hb; statement Ht; unfold ReadUntilStatement; reading H; reading Hb.
  done_reading.
Qed.

(** [for] and the range loops *)
Lemma range_for_read {B} (k : bool -> P B) t q s Q : tokens s = t :: q ->
  par (k (range_for q)) s Q -> par (pbind IsRangeFor k) s Q.
Proof.
  intros E H; unfold IsRangeFor; apply par_assoc; eapply par_CanPeek; [exact E|]; cbn [tl].
  destruct q as [|p0 [|p1 q]]; cbn [some_ahead negb].
  - apply par_ret_bind, H.
  - exec; rewrite !andb_false_r; exact H.
  - exec; destruct q; exact H.
Qed.

Lemma plain_not_keyword d k q q' st m : reads_plain d k q q' st ->
  refuse_keyword (Some st) m = pret tt.
Proof. intros [[Hk _] _]; unfold refuse_keyword; rewrite Hk; reflexivity. Qed.

Lemma read_for d k t o s1 s2 c q q1 q2 q3 q' i e r b : Type_ t = TokenType.ForKeyword ->
  Type_ o = TokenType.OpenCurl -> range_for (o :: q) = false ->
  reads_plain d k q (s1 :: q1) i -> Type_ s1 = TokenType.Semicolon ->
  reads_operand d k 0 q1 (s2 :: q2) e -> Type_ s2 = TokenType.Semicolon ->
  reads_plain d k q2 (c :: q3) r -> Type_ c = TokenType.CloseCurl -> reads_block d k q3 q' b ->
  reads_statement d k (t :: o :: q) q'
    (ForStatementSyntax loop_semicolon t o s1 s2 c (Some i) (Some e) (Some r) b).
Proof.
  intros Ht Ho Hf Hi Hs1 (_ & _ & He) Hs2 Hr Hc Hb; statement Ht.
  eapply range_for_read; [exact E|]; rewrite Hf; exec; unfold ReadForStatement.
  pose proof Hi as [_ Hi']; reading Hi'; rewrite (plain_not_keyword _ _ _ _ _ _ Hi); reading He.
  pose proof Hr as [_ Hr']; reading Hr'; rewrite (plain_not_keyword _ _ _ _ _ _ Hr); reading Hb.
  done_reading.
Qed.

Lemma read_range_plain d k x in_ q q1 q' e b : Type_ x = TokenType.Identifier ->
  Type_ in_ = TokenType.InKeyword -> reads_operand d k 0 q q1 e -> reads_block d k q1 q' b ->
  reads_range d k (x :: in_ :: q) x in_ q' e b.
Proof.
  intros Hx Hin (_ & _ & H) Hb n s m build E R; unfold ReadRange; reading H; reading Hb.
  done_reading.
Qed.

Lemma read_range_parens d k o x in_ c q q1 q' e b : Type_ o = TokenType.OpenCurl ->
  Type_ x = TokenType.Identifier -> Type_ in_ = TokenType.InKeyword ->
  reads_operand d k 0 q (c :: q1) e -> Type_ c = TokenType.CloseCurl -> reads_block d k q1 q' b ->
  reads_range d k (o :: x :: in_ :: q) x in_ q' e b.
Proof.
  intros Ho Hx Hin (_ & _ & H) Hc Hb n s m build E R; unfold ReadRange; reading H; reading Hb.
  done_reading.
Qed.

Lemma range_is_range d k q x in_ q' e b : GRange d k q x in_ q' e b -> range_for q = true.
Proof.
  intros []; unfold range_for; repeat match goal with H : Type_ ?t = _ |- _ => rewrite H end;
    reduce_tests; reflexivity.
Qed.

Lemma read_foreach d k t x in_ q q' e b : Type_ t = TokenType.ForeachKeyword ->
  reads_range d k q x in_ q' e b ->
  reads_statement d k (t :: q) q' (ForEachStatementSyntax t x in_ (Some e) b).
Proof.
  intros Ht H; statement Ht; unfold ReadForEachStatement; reading H; done_reading.
Qed.

Lemma read_for_in d k t x in_ q q' e b : Type_ t = TokenType.ForKeyword ->
  range_for q = true -> reads_range d k q x in_ q' e b ->
  reads_statement d k (t :: q) q' (ForInStatementSyntax t x in_ (Some e) b).
Proof.
  intros Ht Hf H; statement Ht; eapply range_for_read; [exact E|]; rewrite Hf; exec.
  unfold ReadForInStatement; reading H; done_reading.
Qed.

(** ** [if], [unless] and [else] *)
Lemma block_semicolon d k q q' b : GBlock d k q q' b -> ahead q <> TokenType.Semicolon ->
  Type_ (block_SemicolonToken b) <> TokenType.Semicolon.
Proof. intros [] Hn; [destruct Hn; assumption|discriminate..]. Qed.

Lemma condition_read d k o c q q1 q2 q' st b next build t n s : Type_ o = TokenType.OpenCurl ->
  reads_plain d k q (c :: q1) st -> Type_ c = TokenType.CloseCurl -> reads_block d k q1 q2 b ->
  Type_ (block_SemicolonToken b) <> TokenType.Semicolon -> reads_else d k q2 q' next ->
  tokens s = t :: o :: q -> fresh d k s ->
  par (ReadCondition n (parsers n) build) s
    (reads (most k s) (Some (build o c (Some st) b next)) q' s).
Proof.
  intros Ho [_ Hp] Hc Hb Hs He E R; unfold ReadCondition.
  destruct He as [(Hn & -> & ->)|(Ha & st' & -> & H)]; reading Hp; reading Hb.
  - done_reading.
  - reading H; done_reading.
Qed.

Lemma read_condition_if d k t o c q q1 q2 q' st b next : Type_ t = TokenType.IfKeyword ->
  Type_ o = TokenType.OpenCurl -> reads_plain d k q (c :: q1) st ->
  Type_ c = TokenType.CloseCurl -> reads_block d k q1 q2 b ->
  Type_ (block_SemicolonToken b) <> TokenType.Semicolon -> reads_else d k q2 q' next ->
  reads_condition d k (t :: o :: q) q' (IfStatementSyntax t o c (Some st) b next).
Proof.
  intros Ht Ho Hp Hc Hb Hs He [|n] s E R; [exact I|]; cbn [parsers call_ReadConditionalClause].
  apply par_loop_step; intros m'; exec.
  eapply par_call; [eapply condition_read; eassumption|]; intros r s1 (-> & E1 & F1); done_reading.
Qed.

Lemma read_condition_unless d k t o c q q1 q2 q' st b next : Type_ t = TokenType.UnlessKeyword ->
  Type_ o = TokenType.OpenCurl -> reads_plain d k q (c :: q1) st ->
  Type_ c = TokenType.CloseCurl -> reads_block d k q1 q2 b ->
  Type_ (block_SemicolonToken b) <> TokenType.Semicolon -> reads_else d k q2 q' next ->
  reads_condition d k (t :: o :: q) q' (UnlessStatementSyntax t o c (Some st) b next).
Proof.
  intros Ht Ho Hp Hc Hb Hs He [|n] s E R; [exact I|]; cbn [parsers call_ReadConditionalClause].
  apply par_loop_step; intros m'; exec.
  eapply par_call; [eapply condition_read; eassumption|]; intros r s1 (-> & E1 & F1); done_reading.
Qed.

Lemma not_a_condition {A} X (a b : A) :
  one_of [TokenType.IfKeyword; TokenType.UnlessKeyword] X = false ->
  match X with TokenType.IfKeyword | TokenType.UnlessKeyword => a | _ => b end = b.
Proof. destruct X; first [reflexivity|discriminate]. Qed.

Lemma read_condition_else d k t q q' b : Type_ t = TokenType.ElseKeyword ->
  one_of [TokenType.IfKeyword; TokenType.UnlessKeyword] (ahead q) = false ->
  reads_block d k q q' b -> reads_condition d k (t :: q) q' (ElseStatementSyntax t b).
Proof.
  intros Ht Ha Hb [|n] s E R; [exact I|]; cbn [parsers call_ReadConditionalClause].
  apply par_loop_step; intros m'; exec; rewrite not_a_condition by exact Ha.
  reading Hb; done_reading.
Qed.

Lemma read_condition_else_if d k t q q' st : Type_ t = TokenType.ElseKeyword ->
  one_of [TokenType.IfKeyword; TokenType.UnlessKeyword] (ahead q) = true ->
  reads_condition d k q q' st -> reads_condition d k (t :: q) q' st.
Proof.
  intros Ht Ha H [|n] s E R; [exact I|]; cbn [parsers call_ReadConditionalClause].
  apply par_loop_step; intros m'; exec.
  destruct (ahead q) eqn:Eq; try discriminate Ha; reading H; done_reading.
Qed.

(** ** [try] *)
Lemma read_no_catch d k q : ahead q <> TokenType.CatchKeyword -> reads_catches d k q q [].
Proof.
  intros Hn n m acc s E R; apply par_loop_step; intros m'; unfold catches_body; exec.
  rewrite app_nil_r; unfold most; ends.
Qed.

Lemma catch_type_cases q colon q' ty : GCatchType q colon q' ty ->
  (q = q' /\ colon = default_token /\ ty = None /\ ahead q' <> TokenType.Colon) \/
  exists q0 ty0, q = colon :: q0 /\ ty = Some ty0 /\ Type_ colon = TokenType.Colon /\
    GType true q0 q' ty0.
Proof. intros []; eauto 10. Qed.

(** A clause of [try], without its keyword. *)
Lemma catch_read d k (parens : bool) t o x c colon q q1 q2 ty b n s :
  Type_ t = TokenType.CatchKeyword -> Type_ x = TokenType.Identifier ->
  Type_ o = TokenType.OpenCurl -> Type_ c = TokenType.CloseCurl ->
  GCatchType q colon (if parens then c :: q1 else q1) ty -> reads_block d k q1 q2 b ->
  tokens s = t :: (if parens then o :: x :: q else x :: q) -> fresh d k s ->
  par (ReadCatchClause n (parsers n)) s
    (reads (most k s) (Some (CatchClause t (if parens then o else default_token) x colon
       (if parens then c else default_token) ty b)) q2 s).
Proof.
  intros Ht Hx Ho Hc HT Hb E R; unfold ReadCatchClause; destruct parens;
    destruct (catch_type_cases _ _ _ _ HT) as [(-> & -> & -> & Hn)|(q0 & ty0 & -> & -> & Hcolon & HT')];
    exec; unfold TryMatchIdentifier; exec; try (eapply par_call; [eapply type_read; eassumption|take]; exec); reading Hb;
    done_reading.
Qed.

Lemma read_catch_parens d k t o x c colon q q1 q2 q' ty b cs :
  Type_ t = TokenType.CatchKeyword -> Type_ o = TokenType.OpenCurl ->
  Type_ x = TokenType.Identifier -> GCatchType q colon (c :: q1) ty ->
  Type_ c = TokenType.CloseCurl -> reads_block d k q1 q2 b -> reads_catches d k q2 q' cs ->
  reads_catches d k (t :: o :: x :: q) q' (CatchClause t o x colon c ty b :: cs).
Proof.
  intros Ht Ho Hx HT Hc Hb IH n m acc s E R; apply par_loop_step; intros m'; unfold catches_body.
  exec; eapply par_call; [eapply (catch_read d k true); eassumption|]; intros r s1 (-> & E1 & F1).
  exec; eapply par_mono; [apply IH; [assumption|unfold most in *; budget]|].
  intros r s2 (-> & E2 & F2); rewrite <- app_assoc; unfold most in *; ends.
Qed.

Lemma read_catch_plain d k t x colon q q1 q2 q' ty b cs :
  Type_ t = TokenType.CatchKeyword -> Type_ x = TokenType.Identifier ->
  GCatchType q colon q1 ty -> reads_block d k q1 q2 b -> reads_catches d k q2 q' cs ->
  reads_catches d k (t :: x :: q) q' (CatchClause t default_token x colon default_token ty b :: cs).
Proof.
  intros Ht Hx HT Hb IH n m acc s E R; apply par_loop_step; intros m'; unfold catches_body.
  exec; eapply par_call.
  { eapply (catch_read d k false t (made TokenType.OpenCurl "" empty_location false) x
              (made TokenType.CloseCurl "" empty_location false));
      first [eassumption|reflexivity]. }
  intros r s1 (-> & E1 & F1); exec.
  eapply par_mono; [apply IH; [assumption|unfold most in *; budget]|].
  intros r s2 (-> & E2 & F2); rewrite <- app_assoc; unfold most in *; ends.
Qed.

Lemma read_try d k t q q1 q' b c cs : Type_ t = TokenType.TryKeyword -> reads_block d k q q1 b ->
  reads_catches d k q1 q' (c :: cs) ->
  reads_statement d k (t :: q) q' (TryStatementSyntax t b (c :: cs)).
Proof.
  intros Ht Hb Hc; statement Ht; unfold ReadTryStatement; reading Hb; exec.
  eapply par_call; [apply (Hc n n []); [assumption|unfold most in *; budget]|].
  intros r s3 (-> & E3 & F3); cbn [app]; done_reading.
Qed.

(** ** [switch] *)
Lemma read_no_case d k c q : Type_ c = TokenType.CloseBrace -> reads_cases d k (c :: q) c q [].
Proof.
  intros Hc; split; [exact Hc|]; intros n m acc s E R; apply par_loop_step; intros m'.
  unfold cases_body; exec; rewrite app_nil_r; unfold most; ends.
Qed.

(** The rest of the clauses, once one was read. *)
Ltac next_clause IH :=
  exec; eapply par_mono; [apply IH; [assumption|unfold most in *; budget]|];
  intros ? ? (-> & ?E & ?F); rewrite <- app_assoc; unfold most in *; ends.

Lemma read_case_default d k t colon q q1 c q' b cs : Type_ t = TokenType.DefaultKeyword ->
  Type_ colon = TokenType.Colon -> reads_block d k q q1 b -> reads_cases d k q1 c q' cs ->
  reads_cases d k (t :: colon :: q) c q' (SwitchCaseClause t colon None b :: cs).
Proof.
  intros Ht Hc Hb [Hcl IH]; split; [exact Hcl|]; intros n m acc s E R; apply par_loop_step.
  intros m'; unfold cases_body, ReadCaseHead; reading Hb; next_clause IH.
Qed.

Lemma read_case_is d k t colon q q1 q2 c q' p b cs : Type_ t = TokenType.CaseKeyword ->
  GIsPattern q (colon :: q1) p -> Type_ colon = TokenType.Colon ->
  reads_block d k q1 q2 b -> reads_cases d k q2 c q' cs ->
  reads_cases d k (t :: q) c q' (SwitchCaseClause t colon (Some p) b :: cs).
Proof.
  intros Ht Hp Hc Hb [Hcl IH]; split; [exact Hcl|]; intros n m acc s E R; apply par_loop_step.
  intros m'; pose proof (is_pattern_starts _ _ _ Hp); unfold cases_body, ReadCaseHead; exec.
  eapply par_call; [eapply is_pattern_read; eassumption|take]; reading Hb; next_clause IH.
Qed.

Lemma read_case_expression d k t colon q q1 q2 c q' e b cs : Type_ t = TokenType.CaseKeyword ->
  reads_operand d k 0 q (colon :: q1) e -> Type_ colon = TokenType.Colon ->
  reads_block d k q1 q2 b -> reads_cases d k q2 c q' cs ->
  reads_cases d k (t :: q) c q' (SwitchCaseClause t colon (Some e) b :: cs).
Proof.
  intros Ht (Hq & _ & H) Hc Hb [Hcl IH]; split; [exact Hcl|]; intros n m acc s E R.
  apply par_loop_step; intros m'; pose proof (starts_not _ TokenType.IsOperator Hq eq_refl).
  unfold cases_body, ReadCaseHead; reading H; reading Hb; next_clause IH.
Qed.

Lemma read_switch_statement d k t o c ob cb q q1 q' e cases : Type_ t = TokenType.SwitchKeyword ->
  Type_ o = TokenType.OpenCurl -> reads_operand d k 0 q (c :: ob :: q1) e ->
  Type_ c = TokenType.CloseCurl -> Type_ ob = TokenType.OpenBrace ->
  reads_cases d k q1 cb q' cases ->
  reads_statement d k (t :: o :: q) q' (SwitchStatementSyntax t o c ob cb (Some e) cases).
Proof.
  intros Ht Ho (Hq & _ & H) Hc Hob [Hcl Hcs]; statement Ht; unfold ReadSwitchStatement.
  pose proof (starts_not _ TokenType.CloseCurl Hq eq_refl); reading H; exec.
  eapply par_call; [apply (Hcs n n []); [assumption|unfold most in *; budget]|].
  intros r s9 (-> & E9 & F9); cbn [app]; done_reading.
Qed.

(** ** Blocks *)
Lemma read_no_statement d k c q : Type_ c = TokenType.CloseBrace ->
  reads_statements d k (c :: q) c q [].
Proof.
  intros Hc; split; [exact Hc|]; intros n m guard acc s E R Hg; apply par_loop_step; intros m'.
  unfold statements_body; exec; [exfalso; cbn in Hg; lia|].
  rewrite app_nil_r; unfold most; ends.
Qed.

Lemma read_more_statements d k q q1 c q' st ss : reads_statement d k q q1 st ->
  reads_statements d k q1 c q' ss -> reads_statements d k q c q' (st :: ss).
Proof.
  intros (Hs & Hb & He & H) [Hcl IH]; split; [exact Hcl|]; intros n m guard acc s E R Hg.
  change (List.length (st :: ss)) with (S (List.length ss)) in Hg.
  apply par_loop_step; intros m'; unfold statements_body; exec; [exfalso; lia|].
  reading H; exec.
  eapply par_mono; [apply IH; [assumption|unfold most in *; budget|lia]|].
  intros r s2 (-> & E2 & F2); rewrite <- app_assoc; unfold most in *; ends.
Qed.

Definition block_body n : P StatementsBlockSyntax :=
  ltac:(let t := eval unfold ReadStatementsBlock in (ReadStatementsBlock n (parsers n)) in
        lazymatch t with
        | guarded_by _ (pbind _ (fun depth => if _ <? depth then _ else ?b)) => exact b
        end).

(** A block inside its guard. *)
Lemma block_guarded d k q q' b :
  (forall n s, tokens s = q -> fresh d k s ->
     par (block_body n) s (reads (most k s) b q' s)) ->
  reads_block (S d) k q q' b.
Proof.
  intros H [|n] s E R; [exact I|]; cbn [parsers call_ReadStatementsBlock].
  unfold ReadStatementsBlock; eapply par_guarded; [right; left; split; reflexivity|].
  intros s1 E1 D1 O1 X1 B1 L1; cbn [fst snd] in *; rewrite E in E1; unfold fresh, depths_fit in R.
  apply par_get; cbv beta; rewrite B1.
  destruct (Z.ltb_spec MaxBlockDepth (BlockDepth s + 1)); [exfalso; lia|].
  eapply par_mono; [apply (H n s1 E1); budget|].
  intros r s2 (-> & E2 & F2); exists (most k s); split; [unfold most in *; budget|].
  intros s3 E3 F3; split; [reflexivity|split; [congruence|exact F3]].
Qed.

Lemma read_block_semicolon d k t q : Type_ t = TokenType.Semicolon ->
  reads_block (S d) k (t :: q) q
    (StatementsBlock default_token default_token t [] default_token false).
Proof. intros Ht; apply block_guarded; intros n s E R; unfold block_body; done_reading. Qed.

Lemma read_block_braces d k o c q q' ss : Type_ o = TokenType.OpenBrace ->
  reads_statements d k q c q' ss -> Z.of_nat (List.length ss) < loopGuard_max ->
  reads_block (S d) k (o :: q) q' (StatementsBlock o c default_token ss default_token false).
Proof.
  intros Ho [Hc H] Hl; apply block_guarded; intros n s E R; unfold block_body; exec; unfold ReadBraces; exec.
  eapply par_call; [apply (H n n 0 []); [assumption|budget|lia]|].
  intros r s2 (-> & E2 & F2); cbn [app]; done_reading.
Qed.

Lemma read_block_single d k q q' st : ahead q <> TokenType.Semicolon ->
  ahead q <> TokenType.OpenBrace -> reads_statement d k q q' st ->
  reads_block (S d) k q q' (single_statement st).
Proof.
  intros Hs Ho (Hn & _ & _ & H); apply block_guarded; intros n s E R; unfold block_body; reading H.
  unfold single_statement; done_reading.
Qed.

(** ** Every judgement on expressions and statements *)
Ltac link_continues :=
  first [ apply ends_name_ahead; assumption
        | congruence
        | match goal with H : reads_arguments _ _ _ _ _ |- _ => destruct H; congruence end
        | erewrite type_arguments_start by eassumption; discriminate ].

Lemma code_read :
  (forall d k lv q q' e, GExpression d k lv q q' e -> reads_expression d k lv q q' e) /\
  (forall d k bp q q' e, GOperand d k bp q q' e -> reads_operand d k bp q q' e) /\
  (forall d k q q' e, GPrimary d k q q' e -> reads_primary d k q q' e) /\
  (forall d k prev first q q' e, GLink d k prev first q q' e ->
     reads_link d k prev first q q' e) /\
  (forall d k e q q' e', GRest d k e q q' e' -> reads_rest d k e q q' e') /\
  (forall d k prev q q' e, GIndex d k prev q q' e -> reads_index d k prev q q' e) /\
  (forall d k q q' args, GIndexList d k q q' args -> reads_index_list d k q q' args) /\
  (forall d k q q' args, GArguments d k q q' args -> reads_arguments d k q q' args) /\
  (forall d k X q c q' es, GSequence d k X q c q' es ->
     X = TokenType.CloseCurl \/ X = TokenType.CloseSquare -> reads_sequence d k X q c q' es) /\
  (forall d k q c q' arms, GArms d k q c q' arms -> reads_arms d k q c q' arms) /\
  (forall d k q q' p, GPattern d k q q' p -> reads_pattern d k q q' p) /\
  (forall d k q q' st, GPlain d k q q' st -> reads_plain d k q q' st) /\
  (forall d k q q' st, GStatement d k q q' st -> reads_statement d k q q' st) /\
  (forall d k q q' e, GOptional d k q q' e -> reads_optional d k q q' e) /\
  (forall d k q q' st, GCondition d k q q' st -> reads_condition d k q q' st) /\
  (forall d k q q' next, GElse d k q q' next -> reads_else d k q q' next) /\
  (forall d k q x in_ q' e b, GRange d k q x in_ q' e b -> reads_range d k q x in_ q' e b) /\
  (forall d k q q' cs, GCatches d k q q' cs -> reads_catches d k q q' cs) /\
  (forall d k q c q' cs, GCases d k q c q' cs -> reads_cases d k q c q' cs) /\
  (forall d k q q' b, GBlock d k q q' b -> reads_block d k q q' b) /\
  (forall d k q c q' ss, GStatements d k q c q' ss -> reads_statements d k q c q' ss).
Proof.
  apply code_mutind; intros;
    eauto using read_primary_expression, read_infix_expression, read_type_test, read_postfix,
      read_invocation, read_operand, read_literal, read_prefix, read_await, read_parens,
      read_parens_chain, read_chain, read_empty_collection, read_new, read_new_array, read_lambda,
      read_lambda_block, read_if, read_if_else, read_switch, rest_end, rest_member, rest_index,
      rest_index_member, read_last_index, read_more_index, read_index_none, read_arguments_none,
      read_last_element, read_more_elements, read_no_arm, read_arm_comma, read_arm_plain,
      read_wildcard, read_is_pattern, read_pattern_expression.
  all: try solve [
    eauto using read_empty_statement, read_typed, read_inferred, read_expression_statement,
      read_plain_statement, read_return, read_throw, read_break, read_continue, read_defer,
      read_conditional, read_while, read_until, read_for, read_foreach, read_for_in,
      range_is_range, read_try, read_switch_statement, read_no_operand, read_some_operand,
      read_condition_if, read_condition_unless, block_semicolon, read_condition_else,
      read_condition_else_if].
  all: try solve [
    eauto using read_range_plain, read_range_parens, read_no_catch, read_catch_parens,
      read_catch_plain, read_no_case, read_case_default, read_case_is, read_case_expression,
      read_block_semicolon, read_block_braces, read_block_single, read_no_statement,
      read_more_statements].
  all: try solve [auto using read_collection, read_index_some, read_arguments_some].
  all: try solve [unfold reads_else; eauto 6].
  all: eapply link_node; [eassumption| |link_continues];
    eauto using name_node, member_node, index_node, call_node, generic_call_node,
      generic_receiver_node.
Qed.

Lemma operand_read d k bp q q' e : GOperand d k bp q q' e -> reads_operand d k bp q q' e.
Proof. apply code_read. Qed.

Lemma block_read d k q q' b : GBlock d k q q' b -> reads_block d k q q' b.
Proof. apply code_read. Qed.
