(* ===== verification/GrammarDecl.v ===== *)
(** * The grammar of declarations and compilation units

    The part of the grammar above statements: attributes, modifiers, members,
    type declarations, using and namespace directives, and whole compilation
    units. *)
From Stdlib Require Import ZArith Lia Bool List String.
From stdpp Require Import base list.
From S2P Require Import Prelude Tokens SyntaxFacts SyntaxTree ParserState ParserExpr ParserStmt ParserDecl Grammar.
Import ListNotations SyntaxFacts.
Open Scope Z_scope.
Open Scope shard_scope.

(** ** Attributes and modifiers *)
(** The string literals between the parentheses of an attribute. *)
Inductive GStrings : queue -> queue -> list SyntaxToken -> Prop :=
| GS_none q : ahead q = TokenType.CloseCurl -> GStrings q q []
| GS_last t q : Type_ t = TokenType.StringLiteral -> ahead q = TokenType.CloseCurl ->
    GStrings (t :: q) q [t]
| GS_more t comma q q' ts : Type_ t = TokenType.StringLiteral -> Type_ comma = TokenType.Comma ->
    GStrings q q' ts -> GStrings (t :: comma :: q) q' (t :: ts).

Inductive GAttribute : queue -> queue -> AttributeSyntax -> Prop :=
| GA_plain o x c q : Type_ o = TokenType.OpenSquare -> Type_ x = TokenType.Identifier ->
    Type_ c = TokenType.CloseSquare ->
    GAttribute (o :: x :: c :: q) q (mkAttribute o c x default_token default_token [])
| GA_arguments o x p p' c q q' ts : Type_ o = TokenType.OpenSquare ->
    Type_ x = TokenType.Identifier -> Type_ p = TokenType.OpenCurl ->
    GStrings q (p' :: c :: q') ts -> Type_ c = TokenType.CloseSquare ->
    GAttribute (o :: x :: p :: q) q' (mkAttribute o c x p p' ts).

Inductive GAttributes : queue -> queue -> list AttributeSyntax -> Prop :=
| GAS_none q : ahead q <> TokenType.OpenSquare -> GAttributes q q []
| GAS_more q q1 q' a l : GAttribute q q1 a -> GAttributes q1 q' l -> GAttributes q q' (a :: l).

(** Modifiers in the order of [expectedOrder], from the index [i]: none
    twice. *)
Inductive GModifierList : nat -> queue -> queue -> list SyntaxToken -> Prop :=
| ML_none i q : index_of (ahead q) expectedOrder = None -> GModifierList i q q []
| ML_more i j t q q' ms : index_of (Type_ t) expectedOrder = Some j -> (i <= j)%nat ->
    GModifierList (S j) q q' ms -> GModifierList i (t :: q) q' (t :: ms).

(** ** Generic declarations *)
(** [name, ... >] *)
Inductive GTypeNames : queue -> SyntaxToken -> queue -> list SyntaxToken -> Prop :=
| TN_last t c q : Type_ t = TokenType.Identifier -> Type_ c = TokenType.GreaterOperator ->
    GTypeNames (t :: c :: q) c q [t]
| TN_more t comma q c q' ts : Type_ t = TokenType.Identifier -> Type_ comma = TokenType.Comma ->
    GTypeNames q c q' ts -> GTypeNames (t :: comma :: q) c q' (t :: ts).

(** [<names>], or nothing. *)
Inductive GTypeParameters : queue -> queue -> option TypeParametersListSyntax -> Prop :=
| TP_none q : ahead q <> TokenType.LessOperator -> GTypeParameters q q None
| TP_some o c q q' ts : Type_ o = TokenType.LessOperator -> GTypeNames q c q' ts ->
    GTypeParameters (o :: q) q' (Some (SyntaxTree.TypeParametersList o c ts)).

(** One type or more, separated by commas; [P] holds of the token each begins
    with. *)
Inductive GTypeSequence (P : TokenType -> bool) : queue -> queue -> list TypeSyntax -> Prop :=
| GTS_last q q' ty : P (ahead q) = true -> GType true q q' ty -> ahead q' <> TokenType.Comma ->
    GTypeSequence P q q' [ty]
| GTS_more q comma q1 q' ty tys : P (ahead q) = true -> GType true q (comma :: q1) ty ->
    Type_ comma = TokenType.Comma -> GTypeSequence P q1 q' tys ->
    GTypeSequence P q q' (ty :: tys).

Inductive GWhere : queue -> queue -> list WhereClauseSyntax -> Prop :=
| W_none q : ahead q <> TokenType.WhereKeyword -> GWhere q q []
| W_more t x colon q q1 q' tys l : Type_ t = TokenType.WhereKeyword ->
    Type_ x = TokenType.Identifier -> Type_ colon = TokenType.Colon ->
    GTypeSequence (fun _ => true) q q1 tys -> GWhere q1 q' l ->
    GWhere (t :: x :: colon :: q) q' (mkWhereClause t x colon tys :: l).

(** [: interfaces], or nothing. *)
Inductive GBases : queue -> queue -> list TypeSyntax -> Prop :=
| GB_none q : ahead q <> TokenType.Colon -> GBases q q []
| GB_some t q q' tys : Type_ t = TokenType.Colon ->
    GTypeSequence (TokenType.eqb TokenType.Identifier) q q' tys -> GBases (t :: q) q' tys.

(** ** Bodies and accessors *)
(** What follows the header of a function: the semicolon it ends with, if any,
    and the body. *)
Inductive GBody (d k : nat) : queue -> queue -> SyntaxToken -> option StatementsBlockSyntax ->
    Prop :=
| BD_none t q : Type_ t = TokenType.Semicolon -> GBody d k (t :: q) q t None
| BD_block q q' b : ahead q = TokenType.OpenBrace -> GBlock d k q q' b ->
    GBody d k q q' default_token (Some b)
| BD_expression arrow q semi q' e : Type_ arrow = TokenType.LambdaOperator ->
    GOperand d k 0 q (semi :: q') e -> Type_ semi = TokenType.Semicolon ->
    GBody d k (arrow :: q) q' semi (Some (expression_body arrow e (semi :: q'))).

Inductive GAccessor (d k : nat) : queue -> queue -> AccessorDeclarationSyntax -> Prop :=
| G_accessor q q1 t q2 q' attrs ms semi body : GAttributes q q1 attrs ->
    GModifierList 0 q1 (t :: q2) ms ->
    one_of [TokenType.GetKeyword; TokenType.SetKeyword] (Type_ t) = true ->
    GBody d k q2 q' semi body ->
    GAccessor d k q q' (mkAccessor attrs t ms semi body).

(** The accessors with [a] among them, unless its place is taken. *)
Definition add_accessor (acc : Accessors) (a : AccessorDeclarationSyntax) : option Accessors :=
  if Type_ (acc_KeywordToken a) =tt TokenType.GetKeyword then
    match Getter acc with Some _ => None | None => Some (mkAccessors (Some a) (Setter acc)) end
  else
    match Setter acc with Some _ => None | None => Some (mkAccessors (Getter acc) (Some a)) end.

(** The accessors up to the brace; at least one, where the list begins. *)
Inductive GAccessors (d k : nat) : Accessors -> queue -> SyntaxToken -> queue -> Accessors -> Prop :=
| AC_none acc c q : Type_ c = TokenType.CloseBrace -> GAccessors d k acc (c :: q) c q acc
| AC_more acc acc1 q q1 c q' a acc' : GAccessor d k q q1 a -> add_accessor acc a = Some acc1 ->
    GAccessors d k acc1 q1 c q' acc' -> GAccessors d k acc q c q' acc'.

Definition has_accessor (acc : Accessors) : bool :=
  match acc with mkAccessors None None => false | _ => true end.

(** [\[ parameters \]] of an indexer. *)
Inductive GIndexParameters : queue -> SyntaxToken -> queue -> list ParameterSyntax -> Prop :=
| XP_last x colon q c q' ty : Type_ x = TokenType.Identifier -> Type_ colon = TokenType.Colon ->
    GType true q (c :: q') ty -> Type_ c = TokenType.CloseSquare ->
    GIndexParameters (x :: colon :: q) c q' [Parameter_ (Some ty) x]
| XP_more x colon q comma q1 c q' ty ps : Type_ x = TokenType.Identifier ->
    Type_ colon = TokenType.Colon -> GType true q (comma :: q1) ty ->
    Type_ comma = TokenType.Comma -> GIndexParameters q1 c q' ps ->
    GIndexParameters (x :: colon :: q) c q' (Parameter_ (Some ty) x :: ps).

(** ** Enumerations *)
Inductive GEnumField (d k : nat) : queue -> queue -> EnumFieldDeclarationSyntax -> Prop :=
| EF_plain x q : Type_ x = TokenType.Identifier -> ahead q <> TokenType.AssignOperator ->
    GEnumField d k (x :: q) q (mkEnumField x default_token None)
| EF_value x a q q' e : Type_ x = TokenType.Identifier -> Type_ a = TokenType.AssignOperator ->
    GOperand d k 0 q q' e -> GEnumField d k (x :: a :: q) q' (mkEnumField x a (Some e)).

(** The fields up to the brace; a comma may precede it. *)
Inductive GEnumFields (d k : nat) : queue -> SyntaxToken -> queue ->
    list EnumFieldDeclarationSyntax -> Prop :=
| GEF_none c q : Type_ c = TokenType.CloseBrace -> GEnumFields d k (c :: q) c q []
| GEF_last q c q' f : GEnumField d k q (c :: q') f -> Type_ c = TokenType.CloseBrace ->
    GEnumFields d k q c q' [f]
| GEF_more q comma q1 c q' f fs : GEnumField d k q (comma :: q1) f ->
    Type_ comma = TokenType.Comma -> GEnumFields d k q1 c q' fs ->
    GEnumFields d k q c q' (f :: fs).

(** [: flags], [: int] or [: long], or nothing. *)
Inductive GUnderlying : queue -> queue -> SyntaxToken -> SyntaxToken -> bool -> Prop :=
| GU_none q : ahead q <> TokenType.Colon -> GUnderlying q q default_token default_token false
| GU_flags colon t q : Type_ colon = TokenType.Colon -> Type_ t = TokenType.Identifier ->
    Word t = L "flags" -> GUnderlying (colon :: t :: q) q colon t true
| GU_type colon t q : Type_ colon = TokenType.Colon ->
    one_of [TokenType.IntegerKeyword; TokenType.LongKeyword] (Type_ t) = true ->
    GUnderlying (colon :: t :: q) q colon t false.

(** The token an operator declaration names: itself, or the operator with that
    name. *)
Definition operator_token (t : SyntaxToken) : SyntaxToken :=
  if Type_ t =tt TokenType.Identifier then
    let mapped := GetTokenTypeFromOperatorName (Word t) in
    if mapped =tt TokenType.Unknown then t else mkToken (IsMissing t) mapped (Word t) (Location t)
  else t.

(** ** Members *)
(** What a member declared with attributes, modifiers, a name and type
    parameters inherits. *)
Definition member_base attrs ms name (tps : option TypeParametersListSyntax) wheres : MemberBase :=
  mkMember ms default_token name attrs tps wheres.

(** A type that may begin a field or a property, in a declaration of this
    kind. *)
Definition allows_fields (kind : SyntaxKind.t) : bool :=
  match kind with SyntaxKind.InterfaceDeclaration => false | _ => true end.

Inductive GMember (d k : nat) : SyntaxKind.t -> queue -> queue -> MemberDeclarationSyntax -> Prop :=
| G_member kind q q1 q2 q' attrs ms m : GAttributes q q1 attrs -> GModifierList 0 q1 q2 ms ->
    GDeclaration d k kind attrs ms q2 q' m -> GMember d k kind q q' m
(** A member after its attributes and modifiers. *)
with GDeclaration (d k : nat) : SyntaxKind.t -> list AttributeSyntax -> list SyntaxToken ->
    queue -> queue -> MemberDeclarationSyntax -> Prop :=
| D_function kind attrs ms t x q q1 q2 arrow q3 q4 q' tps ps ty wheres semi body :
    Type_ t = TokenType.FunctionKeyword -> Type_ x = TokenType.Identifier ->
    GTypeParameters q q1 tps -> GParametersList q1 q2 ps ->
    GReturnType q2 arrow q3 (Some ty) -> GWhere q3 q4 wheres -> GBody d k q4 q' semi body ->
    GDeclaration d k kind attrs ms (t :: x :: q) q'
      (MethodDeclaration (mkMethod (member_base attrs ms x tps wheres) (async_modifier ms) semi
         (Some ty) ps body))
| D_operator kind attrs ms t x q q1 arrow q2 q3 q' ps ty wheres semi body :
    Type_ t = TokenType.OperatorKeyword ->
    IsOverloadableOperator (Type_ (operator_token x)) = true -> GParametersList q q1 ps ->
    GReturnType q1 arrow q2 (Some ty) -> GWhere q2 q3 wheres -> GBody d k q3 q' semi body ->
    GDeclaration d k kind attrs ms (t :: x :: q) q'
      (OperatorDeclaration (mkOperator (member_base attrs ms (operator_token x) None wheres)
         (operator_token x) semi (Some ty) ps body))
| D_constructor kind attrs ms t q q1 q' ps semi body : Type_ t = TokenType.InitKeyword ->
    GParametersList q q1 ps -> GBody d k q1 q' semi body ->
    GDeclaration d k kind attrs ms (t :: q) q'
      (ConstructorDeclaration (mkConstructor
         (member_base attrs ms (made TokenType.InitKeyword "init" empty_location false) None [])
         semi body ps))
| D_indexer kind attrs ms t o c colon ob cb q q1 q2 q' ps ty acc :
    Type_ t = TokenType.IndexerKeyword -> Type_ o = TokenType.OpenSquare ->
    GIndexParameters q c (colon :: q1) ps -> Type_ colon = TokenType.Colon ->
    GType true q1 (ob :: q2) ty -> Type_ ob = TokenType.OpenBrace ->
    GAccessors d k (mkAccessors None None) q2 cb q' acc -> has_accessor acc = true ->
    GDeclaration d k kind attrs ms (t :: o :: q) q'
      (IndexatorDeclaration (mkIndexator (member_base attrs ms t None []) t ob cb (Some ty)
         (ParametersList o c ps) (Getter acc) (Setter acc)))
| D_field kind attrs ms x colon semi q q' ty : allows_fields kind = true ->
    Type_ x = TokenType.Identifier -> Type_ colon = TokenType.Colon ->
    GType true q (semi :: q') ty -> Type_ semi = TokenType.Semicolon ->
    GDeclaration d k kind attrs ms (x :: colon :: q) q'
      (FieldDeclaration (mkField (member_base attrs ms x None []) (Some ty) semi default_token None))
| D_field_value kind attrs ms x colon a semi q q1 q' ty e : allows_fields kind = true ->
    Type_ x = TokenType.Identifier -> Type_ colon = TokenType.Colon ->
    GType true q (a :: q1) ty -> Type_ a = TokenType.AssignOperator ->
    GOperand d k 0 q1 (semi :: q') e -> Type_ semi = TokenType.Semicolon ->
    GDeclaration d k kind attrs ms (x :: colon :: q) q'
      (FieldDeclaration (mkField (member_base attrs ms x None []) (Some ty) semi a (Some e)))
| D_property kind attrs ms x colon ob cb q q1 q' ty acc : Type_ x = TokenType.Identifier ->
    Type_ colon = TokenType.Colon -> GType true q (ob :: q1) ty ->
    Type_ ob = TokenType.OpenBrace -> GAccessors d k (mkAccessors None None) q1 cb q' acc ->
    has_accessor acc = true ->
    GDeclaration d k kind attrs ms (x :: colon :: q) q'
      (PropertyDeclaration (mkProperty (member_base attrs ms x None []) (Some ty) ob cb
         default_token default_token (Getter acc) (Setter acc) None))
| D_computed kind attrs ms x colon arrow semi q q1 q' ty e : Type_ x = TokenType.Identifier ->
    Type_ colon = TokenType.Colon -> GType true q (arrow :: q1) ty ->
    Type_ arrow = TokenType.ArrowOperator -> GOperand d k 0 q1 (semi :: q') e ->
    Type_ semi = TokenType.Semicolon ->
    GDeclaration d k kind attrs ms (x :: colon :: q) q'
      (PropertyDeclaration (mkProperty (member_base attrs ms x None []) (Some ty) default_token
         default_token arrow semi None None (Some e)))
| D_required attrs ms x colon semi q q' ty : Type_ x = TokenType.Identifier ->
    Type_ colon = TokenType.Colon -> GType true q (semi :: q') ty ->
    Type_ semi = TokenType.Semicolon ->
    GDeclaration d k SyntaxKind.InterfaceDeclaration attrs ms (x :: colon :: q) q'
      (PropertyDeclaration (mkProperty (member_base attrs ms x None []) (Some ty) default_token
         default_token default_token semi
         (Some (mkAccessor [] (made TokenType.GetKeyword "get" (Location x) false) []
                  default_token None)) None None))
| D_enum kind attrs ms t x colon u flags ob cb q q1 q' fs : Type_ t = TokenType.EnumKeyword ->
    Type_ x = TokenType.Identifier -> GUnderlying q (ob :: q1) colon u flags ->
    Type_ ob = TokenType.OpenBrace -> GEnumFields d k q1 cb q' fs ->
    GDeclaration d k kind attrs ms (t :: x :: q) q'
      (EnumDeclaration (mkEnum (member_base attrs ms x None []) ob cb colon u flags fs))
| D_delegate kind attrs ms t x semi q q1 q2 q3 arrow q' tps wheres ps r :
    Type_ t = TokenType.DelegateKeyword -> Type_ x = TokenType.Identifier ->
    GTypeParameters q q1 tps -> GWhere q1 q2 wheres -> GParametersList q2 q3 ps ->
    GReturnType q3 arrow (semi :: q') r -> Type_ semi = TokenType.Semicolon ->
    GDeclaration d k kind attrs ms (t :: x :: q) q'
      (DelegateDeclaration (mkDelegate (member_base attrs ms x tps wheres) t semi r ps))
| D_class kind attrs ms t x q q1 q2 q3 q' tps wheres bases ob cb l :
    Type_ t = TokenType.ClassKeyword -> Type_ x = TokenType.Identifier ->
    GTypeParameters q q1 tps -> GWhere q1 q2 wheres -> GBases q2 (ob :: q3) bases ->
    Type_ ob = TokenType.OpenBrace -> GMembers d k SyntaxKind.ClassDeclaration q3 cb q' l ->
    Z.of_nat (List.length l) < loopGuard_max ->
    GDeclaration d k kind attrs ms (t :: x :: q) q'
      (ClassDeclarationSyntax (mkTypeDeclaration (member_base attrs ms x tps wheres) ob cb bases l))
| D_struct kind attrs ms t x q q1 q2 q3 q' tps wheres bases ob cb l :
    Type_ t = TokenType.StructKeyword -> Type_ x = TokenType.Identifier ->
    GTypeParameters q q1 tps -> GWhere q1 q2 wheres -> GBases q2 (ob :: q3) bases ->
    Type_ ob = TokenType.OpenBrace -> GMembers d k SyntaxKind.StructDeclaration q3 cb q' l ->
    Z.of_nat (List.length l) < loopGuard_max ->
    GDeclaration d k kind attrs ms (t :: x :: q) q'
      (StructDeclarationSyntax (mkTypeDeclaration (member_base attrs ms x tps wheres) ob cb bases l))
| D_interface kind attrs ms t x q q1 q2 q' tps wheres ob cb l :
    Type_ t = TokenType.InterfaceKeyword -> Type_ x = TokenType.Identifier ->
    GTypeParameters q q1 tps -> GWhere q1 (ob :: q2) wheres -> Type_ ob = TokenType.OpenBrace ->
    GMembers d k SyntaxKind.InterfaceDeclaration q2 cb q' l ->
    Z.of_nat (List.length l) < loopGuard_max ->
    GDeclaration d k kind attrs ms (t :: x :: q) q'
      (InterfaceDeclarationSyntax (mkTypeDeclaration (member_base attrs ms x tps wheres) ob cb [] l))
(** The members of a type, up to the brace. *)
with GMembers (d k : nat) : SyntaxKind.t -> queue -> SyntaxToken -> queue ->
    list MemberDeclarationSyntax -> Prop :=
| GM_none kind c q : Type_ c = TokenType.CloseBrace -> GMembers d k kind (c :: q) c q []
| GM_more kind q q1 c q' m l : IsMemberDeclaration (ahead q) (ahead (tl q)) = true ->
    GMember d k kind q q1 m -> GMembers d k kind q1 c q' l ->
    GMembers d k kind q c q' (m :: l).

Scheme GMember_ind' := Induction for GMember Sort Prop
with GDeclaration_ind' := Induction for GDeclaration Sort Prop
with GMembers_ind' := Induction for GMembers Sort Prop.
Combined Scheme members_mutind from GMember_ind', GDeclaration_ind', GMembers_ind'.

(** ** Compilation units *)
(** The parts of a name, up to the semicolon. *)
Inductive GNames : queue -> SyntaxToken -> queue -> list SyntaxToken -> Prop :=
| NM_last x semi q : Type_ x = TokenType.Identifier -> Type_ semi = TokenType.Semicolon ->
    GNames (x :: semi :: q) semi q [x]
| NM_more x dot q semi q' xs : Type_ x = TokenType.Identifier -> Type_ dot = TokenType.Delimeter ->
    GNames q semi q' xs -> GNames (x :: dot :: q) semi q' (x :: xs).

Inductive GUsings : queue -> queue -> list UsingDirectiveSyntax -> Prop :=
| US_none q : GUsings q q []
| US_more t q semi q1 q' xs us : Type_ t = TokenType.UsingKeyword -> GNames q semi q1 xs ->
    GUsings q1 q' us -> GUsings (t :: q) q' (mkUsing t semi xs :: us).

Inductive GNamespace : queue -> queue -> option NamespaceDeclarationSyntax -> Prop :=
| NS_none q : GNamespace q q None
| NS_some t q semi q' x xs : Type_ t = TokenType.NamespaceKeyword -> GNames q semi q' (x :: xs) ->
    GNamespace (t :: q) q' (Some (mkNamespace t x (x :: xs) semi)).

(** The members of a unit, up to the end of the file. *)
Inductive GTopLevel (d k : nat) : queue -> list MemberDeclarationSyntax -> Prop :=
| TL_none : GTopLevel d k [] []
| TL_more q q' m l : IsMemberDeclaration (ahead q) (ahead (tl q)) = true ->
    GMember d k SyntaxKind.CompilationUnit q q' m -> GTopLevel d k q' l ->
    GTopLevel d k q (m :: l).

(** How many directives and members a unit has. *)
Definition parts (unit : CompilationUnitSyntax) : nat :=
  (List.length (Usings unit) + match Namespace_ unit with Some _ => 1 | None => 0 end
   + List.length (Members unit))%nat.

Inductive GUnit (d k : nat) : queue -> CompilationUnitSyntax -> Prop :=
| G_unit q q1 q2 us ns l : GUsings q q1 us -> GNamespace q1 q2 ns -> GTopLevel d k q2 l ->
    Z.of_nat (parts (mkUnit us l ns)) <= loopGuard_max ->
    GUnit d k q (mkUnit us l ns).
