(* ===== verification/GrammarMembers.v ===== *)
(** * The parser reads declarations

    The judgements of the file GrammarDecl on attributes, modifiers, members
    and type declarations, rule by rule. *)
From Stdlib Require Import ZArith Lia Bool List String.
From stdpp Require Import base list.
From S2P Require Import Prelude Tokens SyntaxFacts SyntaxTree ParserState ParserTypes ParserExpr ParserStmt ParserDecl ParserTotal Grammar GrammarDecl ParserRun GrammarTypes GrammarExpr GrammarStmt.
Import ListNotations SyntaxFacts.
Open Scope Z_scope.
Open Scope shard_scope.
Open Scope parser_scope.

(** The body of a loop somewhere in a function. *)
Ltac inner_body t :=
  let t := eval red in t in
  lazymatch t with context [loop _ ?b _] => exact b end.

Definition strings_body n : list SyntaxToken -> P _ := ltac:(body_of (ReadAttribute_loop n)).
Definition attributes_body n : list AttributeSyntax -> P _ :=
  ltac:(body_of (ReadAttributeList n)).
Definition modifiers_body n : list SyntaxToken * nat -> P _ :=
  ltac:(body_of (ReadMemberModifiers n)).
Definition type_names_body n : list SyntaxToken -> P _ :=
  ltac:(body_of (ReadTypeParametersList_loop n)).
Definition constraints_body n : list TypeSyntax -> P _ := ltac:(body_of (ReadWhereClause_loop n)).
Definition where_body n : list WhereClauseSyntax -> P _ := ltac:(body_of (ReadWhereClauses n)).
Definition bases_body n : list TypeSyntax -> P _ := ltac:(body_of (ReadBaseInterfacesList n)).
Definition accessors_body n what : Accessors -> P _ := ltac:(body_of (ReadAccessors n what)).
Definition index_parameters_body n : list ParameterSyntax -> P _ :=
  ltac:(body_of (ReadParameters_loop n ReadIndexerParameterName TokenType.CloseSquare
                   "Expected ',' or ']'")).
Definition enum_body n : list EnumFieldDeclarationSyntax -> P _ :=
  ltac:(body_of (ReadEnumBody_loop n)).
Definition type_body n kind : Z * list MemberDeclarationSyntax -> P _ :=
  ltac:(body_of (ReadTypeBody_loop n (members n) kind)).

(** Goes on with a loop by the induction hypothesis. *)
Ltac goes_on IH :=
  exec; eapply par_mono; [eapply IH; assumption|];
  intros ? ? (-> & ?E & ?Same); rewrite <- ?app_assoc; ends.

(** ** Attributes and modifiers *)
Lemma strings_read q q' ts : GStrings q q' ts -> ahead q' = TokenType.CloseCurl ->
  forall n m acc s, tokens s = q ->
  par (loop m (strings_body n) acc) s (reads_same (acc ++ ts)%list q' s).
Proof.
  induction 1 as [q Ha|t q Ht Ha|t comma q q' ts Ht Hc _ IH]; intros Hq n m acc s E;
    apply par_loop_step; intros m'; unfold strings_body.
  - exec; rewrite app_nil_r; ends.
  - exec; apply par_loop_step; intros m2; unfold strings_body; exec; ends.
  - specialize (IH Hq n); goes_on IH.
Qed.

Lemma attribute_read q q' a n s : GAttribute q q' a -> tokens s = q ->
  par (ReadAttribute n) s (reads_same a q' s).
Proof.
  intros [o x c q0 Ho Hx Hc|o x p p' c q0 q0' ts Ho Hx Hp HS Hc] E; unfold ReadAttribute.
  - exec; ends.
  - assert (Hp' : Type_ p' = TokenType.CloseCurl).
    { clear -HS; remember (p' :: c :: q0') as r eqn:Er; revert Er.
      induction HS; intros ->; auto. }
    exec; eapply par_call; [apply (strings_read _ _ _ HS Hp' n n []); assumption|take]; exec; ends.
Qed.

Lemma attributes_read q q' l : GAttributes q q' l -> forall n s, tokens s = q ->
  par (ReadAttributeList n) s (reads_same l q' s).
Proof.
  intros H n s E; change (par (loop n (attributes_body n) []) s (reads_same ([] ++ l)%list q' s)).
  generalize (@nil AttributeSyntax); generalize n at 1; intros m; revert m s E.
  induction H as [q Ha|q q1 q' a l HA _ IH]; intros m s E acc; apply par_loop_step; intros m';
    unfold attributes_body.
  - exec; rewrite app_nil_r; ends.
  - assert (Ha : ahead q = TokenType.OpenSquare) by (destruct HA; assumption).
    exec; eapply par_call; [eapply attribute_read; eassumption|take]; goes_on IH.
Qed.

Lemma index_of_modifier X : (exists i, index_of X expectedOrder = Some i) <-> IsModifier X = true.
Proof.
  split; [intros [i H]; destruct X; try reflexivity; discriminate|].
  destruct X; try discriminate; intros _; eexists; reflexivity.
Qed.

(** The modifiers read so far come before the index [i]. *)
Definition before (i : nat) (ms : list SyntaxToken) : Prop :=
  List.Forall (fun t => exists j, index_of (Type_ t) expectedOrder = Some j /\ (j < i)%nat) ms.

Lemma before_not_seen i j ms X : before i ms -> index_of X expectedOrder = Some j -> (i <= j)%nat ->
  one_of (map Type_ ms) X = false.
Proof.
  unfold one_of; induction 1 as [|t ms (j' & Hj & Hlt) _ IH]; intros Hx Hle; [reflexivity|]; cbn.
  rewrite (IH Hx Hle), orb_false_r.
  destruct (TokenType.eqb_spec X (Type_ t)) as [->|]; [|reflexivity].
  rewrite Hx in Hj; injection Hj as ->; lia.
Qed.

Lemma modifiers_read q q' ms : forall i, GModifierList i q q' ms -> forall n s, tokens s = q ->
  i = 0%nat -> par (ReadMemberModifiers n) s (reads_same ms q' s).
Proof.
  intros i H n s E ->.
  change (par (loop n (modifiers_body n) ([], 0%nat)) s (reads_same ([] ++ ms)%list q' s)).
  assert (Hb : before 0 []) by constructor; revert Hb.
  generalize (@nil SyntaxToken); generalize n at 1; intros m; revert m s E.
  induction H as [i q Hi|i j t q q' ms Hj Hle _ IH]; intros m s E acc Hb; apply par_loop_step;
    intros m'; unfold modifiers_body.
  - exec; [rewrite app_nil_r; ends|].
    change (ahead (s0 :: l)) with (Type_ s0) in Hi.
    change (hd eof_token (s0 :: l)) with s0; rewrite Hi; exec; rewrite app_nil_r; ends.
  - assert (Hno : Nat.ltb j i = false) by (apply Nat.ltb_ge, Hle).
    exec; rewrite Hj, (before_not_seen _ _ _ _ Hb Hj Hle); exec.
    assert (Hb' : before (S j) (acc ++ [t])).
    { apply List.Forall_app; split; [|repeat constructor; exists j; split; [exact Hj|lia]].
      eapply List.Forall_impl; [|exact Hb]; intros u (j' & Hj' & Hlt); exists j'; split; [exact Hj'|lia]. }
    exec; eapply par_mono; [apply IH; assumption|].
    intros r s1 (-> & E1 & S1); rewrite <- app_assoc; ends.
Qed.

(** ** Generic declarations *)
Lemma type_names_read q c q' ts : GTypeNames q c q' ts -> forall n m acc s, tokens s = q ->
  par (loop m (type_names_body n) acc) s (reads_same (c, (acc ++ ts)%list) q' s).
Proof.
  induction 1 as [t c q Ht Hc|t comma q c q' ts Ht Hc _ IH]; intros n m acc s E;
    apply par_loop_step; intros m'; unfold type_names_body; exec; separates Hc; [ends|].
  goes_on (IH n).
Qed.

Lemma type_parameters_read q q' tps n s : GTypeParameters q q' tps -> tokens s = q ->
  par (ReadTypeParametersIfAny n None) s (reads_same tps q' s).
Proof.
  intros [q0 Hn|o c q0 q0' ts Ho H] E; unfold ReadTypeParametersIfAny; [exec; ends|].
  assert (Hq : ahead q0 = TokenType.Identifier) by (destruct H; assumption).
  exec; unfold ReadTypeParametersList; exec.
  eapply par_call; [apply (type_names_read _ _ _ _ H n n []); assumption|take]; exec; ends.
Qed.

Lemma starts_type_tests X : starts_type X = true ->
  negb (X =tt TokenType.Identifier) && negb (IsPredefinedType X) && negb (X =tt TokenType.DelegateKeyword)
  = false.
Proof. destruct X; first [reflexivity|discriminate]. Qed.

Lemma constraints_read f q q' tys : GTypeSequence f q q' tys -> forall n m acc s, tokens s = q ->
  par (loop m (constraints_body n) acc) s (reads_same (acc ++ tys)%list q' s).
Proof.
  induction 1 as [q q' ty Hf HT Hn|q comma q1 q' ty tys Hf HT Hc _ IH]; intros n m acc s E;
    apply par_loop_step; intros m';
    pose proof (starts_type_tests _ (type_starts _ _ _ _ HT)) as Hq; unfold constraints_body;
    exec; try dead; (eapply par_call; [eapply type_read; eassumption|take]); cbn [push_type].
  - exec; ends.
  - goes_on (IH n).
Qed.

Lemma sequence_nonempty f q q' tys : GTypeSequence f q q' tys ->
  exists ty l, tys = ty :: l.
Proof. intros []; eauto. Qed.

Lemma where_read q q' l : GWhere q q' l -> forall n m acc s, tokens s = q ->
  par (loop m (where_body n) acc) s (reads_same (acc ++ l)%list q' s).
Proof.
  induction 1 as [q Hn|t x colon q q1 q' tys l Ht Hx Hc HT _ IH]; intros n m acc s E;
    apply par_loop_step; intros m'; unfold where_body; exec; [rewrite app_nil_r; ends|].
  unfold ReadWhereClause; exec.
  eapply par_call; [apply (constraints_read _ _ _ _ HT n n []); assumption|take]; cbn [app].
  destruct (sequence_nonempty _ _ _ _ HT) as (ty & tys' & ->); goes_on (IH n).
Qed.

Lemma where_clauses_read q q' l n s : GWhere q q' l -> tokens s = q ->
  par (ReadWhereClauses n) s (reads_same l q' s).
Proof. intros H E; apply (where_read _ _ _ H n n [] s E). Qed.

Lemma base_types_read q q' tys : GTypeSequence (TokenType.eqb TokenType.Identifier) q q' tys ->
  forall n m acc s, tokens s = q ->
  par (loop m (bases_body n) acc) s (reads_same (acc ++ tys)%list q' s).
Proof.
  induction 1 as [q q' ty Hf HT Hn|q comma q1 q' ty tys Hf HT Hc _ IH]; intros n m acc s E;
    apply par_loop_step; intros m'; unfold bases_body;
    (destruct (TokenType.eqb_spec TokenType.Identifier (ahead q)) as [Hq|]; [|discriminate Hf]);
    symmetry in Hq; exec; (eapply par_call; [eapply type_read; eassumption|take]);
    cbn [push_type].
  - exec; ends.
  - goes_on (IH n).
Qed.

Lemma bases_read q q' tys n s : GBases q q' tys -> tokens s = q ->
  par (ReadBaseInterfacesIfAny n) s (reads_same tys q' s).
Proof.
  intros [q0 Hn|t q0 q0' tys0 Ht HT] E; unfold ReadBaseInterfacesIfAny; exec; [ends|].
  eapply par_mono; [apply (base_types_read _ _ _ HT n n []); assumption|].
  intros r s1 (-> & E1 & S1); ends.
Qed.

(** ** Bodies *)
Lemma block_open_brace d k q q' b : GBlock d k q q' b -> ahead q = TokenType.OpenBrace ->
  Type_ (block_OpenBraceToken b) = TokenType.OpenBrace.
Proof.
  intros [? ? t ? Ht|? ? o ? ? ? ? Ho|? ? ? ? ? Hs Hn] Ha; [|exact Ho|congruence].
  unfold ahead in Ha; cbn [hd] in Ha; congruence.
Qed.

Lemma body_read d k q q' semi body n s : GBody d k q q' semi body -> tokens s = q ->
  fresh d k s -> par (ReadBodyOrSemicolon n) s (reads (most k s) (semi, body) q' s).
Proof.
  intros [t q0 Ht|q0 q0' b Ha HB|arrow q0 semi' q0' e Harrow HO Hs] E R; unfold ReadBodyOrSemicolon.
  - done_reading.
  - exec; unfold ReadBodyAndSemicolon, read_method_body, ReadMethodBody; exec.
    eapply par_call; [eapply block_body_read; [exact Ha|apply block_read, HB|exact E|exact R]|].
    intros r s1 (-> & E1 & F1); rewrite (block_open_brace _ _ _ _ _ HB Ha); done_reading.
  - exec; unfold ReadBodyAndSemicolon, read_method_body, ReadMethodBody; exec.
    eapply par_call; [eapply expression_body_read; [exact Harrow|apply operand_read, HO|exact E|exact R]|].
    intros r s1 (-> & E1 & F1); done_reading.
Qed.

(** ** Accessors *)
(** What may begin an accessor. *)
Definition starts_accessor_phrase (X : TokenType) : bool :=
  IsModifier X || (X =tt TokenType.GetKeyword) || (X =tt TokenType.SetKeyword)
  || (X =tt TokenType.OpenSquare).

Lemma modifier_list_starts i q q' ms : GModifierList i q q' ms -> ms = [] /\ q = q' \/
  IsModifier (ahead q) = true.
Proof. intros []; [auto|right]; apply index_of_modifier; eauto. Qed.

Lemma accessor_starts d k q q' a : GAccessor d k q q' a ->
  starts_accessor_phrase (ahead q) = true.
Proof.
  intros [q0 q1 t q2 q3 attrs ms semi body HA HM Ht _]; unfold starts_accessor_phrase.
  destruct HA as [q0 Hn|q0 q4 q5 at_ l HA _].
  - destruct (modifier_list_starts _ _ _ _ HM) as [[_ ->]|H]; [|rewrite H; reflexivity].
    change (ahead (t :: q2)) with (Type_ t); destruct (Type_ t); first [reflexivity|discriminate Ht].
  - replace (ahead q0) with TokenType.OpenSquare by (destruct HA; symmetry; assumption).
    reflexivity.
Qed.

Lemma par_TryMatch l m k q s : tokens s = q -> some_ahead q = true -> one_of l (ahead q) = true ->
  par (TryMatch l m k) s (reads_same true q s).
Proof.
  intros E Hs Ho; unfold TryMatch, Matches; destruct q as [|t q]; [discriminate Hs|].
  exec; ends.
Qed.

Lemma one_of_ahead l X t q : Type_ t = X -> one_of l X = true -> one_of l (ahead (t :: q)) = true.
Proof. intros <- H; exact H. Qed.

Lemma accessor_body_read d k attrs ms t q q' semi body n s : GBody d k q q' semi body ->
  tokens s = q -> fresh d k s ->
  par (ReadAccessorBody n attrs ms t) s (reads (most k s) (mkAccessor attrs t ms semi body) q' s).
Proof.
  intros [t' q0 Ht|q0 q0' b Ha HB|arrow q0 semi' q0' e Harrow HO Hs] E R; unfold ReadAccessorBody.
  - exec; eapply par_call; [eapply par_TryMatch; [eassumption|reflexivity|
      eapply one_of_ahead; [exact Ht|reflexivity]]|take]; done_reading.
  - exec; eapply par_call; [eapply par_TryMatch; [eassumption| |rewrite Ha; reflexivity]|take];
      [destruct q0; [discriminate Ha|reflexivity]|].
    unfold read_method_body, ReadMethodBody; exec.
    eapply par_call; [eapply block_body_read; [exact Ha|apply block_read, HB|assumption|budget]|].
    intros r s1 (-> & E1 & F1); done_reading.
  - exec; eapply par_call; [eapply par_TryMatch; [eassumption|reflexivity|
      eapply one_of_ahead; [exact Harrow|reflexivity]]|take].
    unfold read_method_body, ReadMethodBody; exec.
    eapply par_call; [eapply expression_body_read; [exact Harrow|apply operand_read, HO|assumption|budget]|].
    intros r s1 (-> & E1 & F1); done_reading.
Qed.

Lemma accessor_read d k q q' a n s : GAccessor d k q q' a -> tokens s = q -> fresh d k s ->
  par (ReadAccessorDeclaration n) s (reads (most k s) a q' s).
Proof.
  intros [q0 q1 t q2 q3 attrs ms semi body HA HM Ht HB] E R; unfold ReadAccessorDeclaration.
  eapply par_call; [eapply attributes_read; eassumption|take].
  destruct (modifier_list_starts _ _ _ _ HM) as [[-> ->]|Hm].
  - assert (Hm : IsModifier (Type_ t) = false) by (destruct (Type_ t); first [reflexivity|discriminate Ht]).
    exec; eapply par_call; [eapply par_TryMatch; [eassumption|reflexivity|]|take].
    { change (ahead (t :: q2)) with (Type_ t); destruct (Type_ t); first [reflexivity|discriminate Ht]. }
    exec; eapply par_mono; [eapply accessor_body_read; [exact HB|assumption|budget]|].
    intros r s9 (-> & E9 & F9); unfold most in *; ends.
  - exec; eapply par_call; [eapply modifiers_read; [exact HM|assumption|reflexivity]|take].
    exec; eapply par_call; [eapply par_TryMatch; [eassumption|reflexivity|]|take].
    { change (ahead (t :: q2)) with (Type_ t); destruct (Type_ t); first [reflexivity|discriminate Ht]. }
    exec; eapply par_mono; [eapply accessor_body_read; [exact HB|assumption|budget]|].
    intros r s9 (-> & E9 & F9); unfold most in *; ends.
Qed.

Lemma accessors_read d k acc q c q' acc' what : GAccessors d k acc q c q' acc' ->
  forall n m s, tokens s = q -> fresh d k s ->
  par (loop m (accessors_body n what) acc) s (reads (most k s) (c, acc') q' s).
Proof.
  induction 1 as [acc c q Hc|acc acc1 q q1 c q' a acc' HA Hadd _ IH]; intros n m s E R;
    apply par_loop_step; intros m'; unfold accessors_body; [done_reading|].
  pose proof (accessor_starts _ _ _ _ _ HA) as Hs.
  assert (Hb : ahead q <> TokenType.CloseBrace /\ ahead q <> TokenType.EndOfFile) by
    (split; intros Hq; rewrite Hq in Hs; discriminate Hs); destruct Hb as [Hb He].
  destruct q as [|t q]; [destruct He; reflexivity|].
  change (starts_accessor_phrase (Type_ t) = true) in Hs; unfold starts_accessor_phrase in Hs.
  exec; eapply par_call; [eapply accessor_read; eassumption|]; intros r s1 (-> & E1 & F1).
  assert (Hp : par (place_accessor t acc a) s1 (reads_same acc1 q1 s1)).
  { destruct HA as [? ? kt ? ? ? ? ? ? _ _ Ht _]; unfold place_accessor, add_accessor in *.
    cbn [acc_KeywordToken] in *; destruct acc as [get set]; cbn [Getter Setter] in *.
    destruct (Type_ kt); try discriminate Ht; cbn in Hadd; destruct get, set; try discriminate Hadd;
      injection Hadd as <-; exec; ends. }
  exec; eapply par_call; [exact Hp|take]; exec.
  eapply par_mono; [apply IH; [assumption|unfold most in *; budget]|].
  intros r s3 (-> & E3 & F3); unfold most in *; ends.
Qed.

Lemma require_accessor_read i m acc : has_accessor acc = true ->
  require_accessor i m acc = pret tt.
Proof. destruct acc as [[] []]; first [reflexivity|discriminate]. Qed.

Lemma accessor_list_read d k q c q' acc what n s :
  GAccessors d k (mkAccessors None None) q c q' acc -> tokens s = q -> fresh d k s ->
  par (ReadAccessors n what) s (reads (most k s) (c, acc) q' s).
Proof. intros H E R; apply (accessors_read _ _ _ _ _ _ _ what H n n s E R). Qed.

(** ** Indexers *)
Lemma index_parameters_read q c q' ps : GIndexParameters q c q' ps ->
  forall n m acc s, tokens s = q ->
  par (loop m (index_parameters_body n) acc) s (reads_same (c, (acc ++ ps)%list) q' s).
Proof.
  induction 1 as [x colon q c q' ty Hx Hcolon HT Hc|x colon q comma q1 c q' ty ps Hx Hcolon HT Hc _ IH];
    intros n m acc s E; apply par_loop_step; intros m'; unfold index_parameters_body,
      ReadIndexerParameterName, TryMatchIdentifier; exec;
    (eapply par_call; [eapply type_read; eassumption|take]); separates Hc; [ends|].
  goes_on (IH n).
Qed.

Lemma index_parameter_list_read o q c q' ps n s : GIndexParameters q c q' ps ->
  Type_ o = TokenType.OpenSquare -> tokens s = o :: q ->
  par (ReadIndexerParametersList n) s (reads_same (ParametersList o c ps) q' s).
Proof.
  intros H Ho E; unfold ReadIndexerParametersList.
  assert (Hq : ahead q = TokenType.Identifier) by (destruct H; assumption); exec.
  eapply par_call; [apply (index_parameters_read _ _ _ _ H n n []); assumption|take]; exec; ends.
Qed.

(** ** Enumerations *)
Lemma enum_field_read d k q q' f n s : GEnumField d k q q' f -> tokens s = q -> fresh d k s ->
  par (ReadEnumFieldDeclaration n) s (reads (most k s) f q' s).
Proof.
  intros [x q0 Hx Hn|x a q0 q0' e Hx Ha HO] E R; unfold ReadEnumFieldDeclaration; [done_reading|].
  apply operand_read in HO as (_ & _ & HO); unfold read_expression; reading HO; done_reading.
Qed.

Lemma enum_fields_read d k q c q' fs : GEnumFields d k q c q' fs -> forall n m acc s,
  tokens s = q -> fresh d k s ->
  par (loop m (enum_body n) acc) s (reads (most k s) (c, (acc ++ fs)%list) q' s).
Proof.
  assert (Hx : forall q q' f, GEnumField d k q q' f -> ahead q = TokenType.Identifier) by
    (intros ? ? ? []; assumption).
  induction 1 as [c q Hc|q c q' f HF Hc|q comma q1 c q' f fs HF Hc _ IH]; intros n m acc s E R;
    apply par_loop_step; intros m'; unfold enum_body;
    [exec; rewrite app_nil_r; unfold most; ends|pose proof (Hx _ _ _ HF)|pose proof (Hx _ _ _ HF)]; exec;
    (eapply par_call; [eapply enum_field_read; eassumption|]); intros r s1 (-> & E1 & F1).
  - done_reading.
  - exec; eapply par_mono; [apply IH; [assumption|unfold most in *; budget]|].
    intros r s3 (-> & E3 & F3); rewrite <- app_assoc; unfold most in *; ends.
Qed.

Lemma underlying_read q q' colon u flags s : GUnderlying q q' colon u flags -> tokens s = q ->
  par ReadEnumUnderlying s (reads_same (colon, u, flags) q' s).
Proof.
  intros [q0 Hn|c t q0 Hc Ht Hw|c t q0 Hc Ht] E; unfold ReadEnumUnderlying.
  - exec; ends.
  - assert (Hww : (Word t =w L "flags") = true) by (rewrite Hw; apply weqb_refl); exec; ends.
  - destruct (Type_ t) eqn:Et; try discriminate Ht; exec; ends.
Qed.

(** The body of a declaration follows. *)
Lemma body_start_read m t q s : Type_ t = TokenType.OpenBrace -> tokens s = t :: q ->
  par (ReadBodyStart m) s (reads_same true (t :: q) s).
Proof.
  intros Ht E; unfold ReadBodyStart.
  eapply par_call; [eapply par_TryMatch; [exact E|reflexivity|eapply one_of_ahead; [exact Ht|reflexivity]]|take].
  unfold at_type; exec; ends.
Qed.

(** ** Members *)
Definition declaration_body n kind attrs ms : P (option MemberDeclarationSyntax) :=
  ltac:(let t := eval unfold ReadMemberDeclaration in
                   (ReadMemberDeclaration n (members n) kind) in
        lazymatch t with pbind _ ?f =>
          let t := eval cbv beta in (f attrs) in
          lazymatch t with pbind _ ?g => let t := eval cbv beta in (g ms) in exact t end
        end).

Definition reads_member d k kind q q' m : Prop :=
  forall n s, tokens s = q -> fresh d k s ->
    par (members n kind) s (reads (most k s) (Some m) q' s).
Definition reads_declaration d k kind attrs ms q q' m : Prop :=
  forall n s, tokens s = q -> fresh d k s ->
    par (declaration_body n kind attrs ms) s (reads (most k s) (Some m) q' s).
Definition reads_members d k kind q c q' l : Prop :=
  Type_ c = TokenType.CloseBrace /\
  forall n m guard acc s, tokens s = q -> fresh d k s ->
    guard + Z.of_nat (List.length l) < loopGuard_max ->
    par (loop m (type_body n kind) (guard, acc)) s (reads (most k s) (c, (acc ++ l)%list) q' s).

(** Runs on with a lemma about a phrase. *)
Ltac sees L := exec; eapply par_call; [eapply L; eassumption|take]; exec.
Ltac reads_by L :=
  exec; eapply par_call; [eapply L; [eassumption|eassumption|unfold most in *; budget]|];
  let s := fresh "s" in intros ? s (-> & ?E & ?F); exec.
Ltac declaration := intros n s E R; unfold declaration_body; exec; unfold some_member.

Lemma name_declared x k q s : Type_ x = TokenType.Identifier -> tokens s = x :: q ->
  par (ReadDeclaredName k) s (reads_same x q s).
Proof. intros Hx E; unfold ReadDeclaredName, TryMatchIdentifier; exec; ends. Qed.

Lemma return_type_read q arrow q' ty n m r s : GReturnType q arrow q' (Some ty) -> tokens s = q ->
  par (ReadReturnType n m r) s (reads_same (Some ty) q' s).
Proof.
  intros Hr E; unfold ReadReturnType.
  destruct (return_type_cases _ _ _ _ Hr) as [(_ & _ & Hty & _)|(q0 & ty' & -> & Hty & Ha & HT)];
    [discriminate Hty|]; injection Hty as ->; exec.
  eapply par_mono; [eapply type_read; eassumption|]; intros x s' (-> & E' & S'); ends.
Qed.

Lemma read_function d k kind attrs ms t x q q1 q2 arrow q3 q4 q' tps ps ty wheres semi body :
  Type_ t = TokenType.FunctionKeyword -> Type_ x = TokenType.Identifier ->
  GTypeParameters q q1 tps -> GParametersList q1 q2 ps ->
  GReturnType q2 arrow q3 (Some ty) -> GWhere q3 q4 wheres -> GBody d k q4 q' semi body ->
  reads_declaration d k kind attrs ms (t :: x :: q) q'
    (MethodDeclaration (mkMethod (member_base attrs ms x tps wheres) (async_modifier ms) semi
       (Some ty) ps body)).
Proof.
  intros Ht Hx Htp Hp Hr Hw HB; declaration; unfold ReadFunction; sees name_declared.
  sees type_parameters_read; unfold some_member, ReadMethodDeclaration; sees parameters_list_read.
  sees return_type_read; sees where_clauses_read; reads_by body_read; done_reading.
Qed.

Lemma operator_token_read x q s : IsOverloadableOperator (Type_ (operator_token x)) = true ->
  tokens s = x :: q -> par ReadOperatorToken s (reads_same (operator_token x) q s).
Proof.
  intros Ho E; unfold ReadOperatorToken; eapply par_Current; [exact E|]; cbv zeta; cbn [hd].
  replace (if (if Type_ x =tt TokenType.Identifier then GetTokenTypeFromOperatorName (Word x)
               else TokenType.Unknown) =tt TokenType.Unknown
           then x
           else mkToken (IsMissing x)
                  (if Type_ x =tt TokenType.Identifier then GetTokenTypeFromOperatorName (Word x)
                   else TokenType.Unknown) (Word x) (Location x))
    with (operator_token x)
    by (unfold operator_token; destruct (Type_ x =tt TokenType.Identifier); reflexivity).
  rewrite Ho; exec; ends.
Qed.

Lemma read_operator d k kind attrs ms t x q q1 arrow q2 q3 q' ps ty wheres semi body :
  Type_ t = TokenType.OperatorKeyword ->
  IsOverloadableOperator (Type_ (operator_token x)) = true -> GParametersList q q1 ps ->
  GReturnType q1 arrow q2 (Some ty) -> GWhere q2 q3 wheres -> GBody d k q3 q' semi body ->
  reads_declaration d k kind attrs ms (t :: x :: q) q'
    (OperatorDeclaration (mkOperator (member_base attrs ms (operator_token x) None wheres)
       (operator_token x) semi (Some ty) ps body)).
Proof.
  intros Ht Hx Hp Hr Hw HB; declaration; unfold ReadOperatorDeclaration.
  sees operator_token_read; sees parameters_list_read.
  sees return_type_read; sees where_clauses_read; reads_by body_read; done_reading.
Qed.

Lemma body_starts d k q q' semi body : GBody d k q q' semi body ->
  ahead q <> TokenType.ArrowOperator.
Proof.
  intros [t q0 Ht|q0 q0' b Ha _|arrow q0 semi' q0' e Ha _ _]; unfold ahead in *; cbn [hd]; congruence.
Qed.

Lemma read_constructor d k kind attrs ms t q q1 q' ps semi body : Type_ t = TokenType.InitKeyword ->
  GParametersList q q1 ps -> GBody d k q1 q' semi body ->
  reads_declaration d k kind attrs ms (t :: q) q'
    (ConstructorDeclaration (mkConstructor
       (member_base attrs ms (made TokenType.InitKeyword "init" empty_location false) None [])
       semi body ps)).
Proof.
  intros Ht Hp HB; pose proof (body_starts _ _ _ _ _ _ HB); declaration.
  unfold ReadConstructorDeclaration; sees parameters_list_read; reads_by body_read; done_reading.
Qed.

Lemma read_indexer d k kind attrs ms t o c colon ob cb q q1 q2 q' ps ty acc :
  Type_ t = TokenType.IndexerKeyword -> Type_ o = TokenType.OpenSquare ->
  GIndexParameters q c (colon :: q1) ps -> Type_ colon = TokenType.Colon ->
  GType true q1 (ob :: q2) ty -> Type_ ob = TokenType.OpenBrace ->
  GAccessors d k (mkAccessors None None) q2 cb q' acc -> has_accessor acc = true ->
  reads_declaration d k kind attrs ms (t :: o :: q) q'
    (IndexatorDeclaration (mkIndexator (member_base attrs ms t None []) t ob cb (Some ty)
       (ParametersList o c ps) (Getter acc) (Setter acc))).
Proof.
  intros Ht Ho Hp Hc HT Hob HA Hacc; declaration; unfold ReadIndexatorDeclaration.
  sees index_parameter_list_read; sees type_read; reads_by accessor_list_read.
  rewrite require_accessor_read by exact Hacc; done_reading.
Qed.

(** [name : type], before what follows the type is looked at. *)
Lemma named_read d k kind attrs ms x colon q t q' ty m : Type_ x = TokenType.Identifier ->
  Type_ colon = TokenType.Colon -> GType true q (t :: q') ty ->
  (forall n s, tokens s = t :: q' -> fresh d k s ->
     par (ReadTypedMember n kind (mkInfo attrs ms default_token x (Some ty) None)) s
       (reads (most k s) (Some (fst m)) (snd m) s)) ->
  reads_declaration d k kind attrs ms (x :: colon :: q) (snd m) (fst m).
Proof.
  intros Hx Hc HT H; declaration; unfold ReadNamedMember; exec.
  eapply par_call; [eapply par_TryMatch; [eassumption|reflexivity|
    eapply one_of_ahead; [exact Hc|reflexivity]]|take]; exec.
  sees type_read; eapply par_mono; [apply H; [assumption|budget]|].
  intros r s9 (-> & E9 & F9); unfold most in *; ends.
Qed.

Lemma not_interface {A} kind (a b : A) : allows_fields kind = true ->
  match kind with SyntaxKind.InterfaceDeclaration => a | _ => b end = b.
Proof. destruct kind; first [reflexivity|discriminate]. Qed.

Lemma read_field d k kind attrs ms x colon semi q q' ty : allows_fields kind = true ->
  Type_ x = TokenType.Identifier -> Type_ colon = TokenType.Colon ->
  GType true q (semi :: q') ty -> Type_ semi = TokenType.Semicolon ->
  reads_declaration d k kind attrs ms (x :: colon :: q) q'
    (FieldDeclaration (mkField (member_base attrs ms x None []) (Some ty) semi default_token None)).
Proof.
  intros Hk Hx Hc HT Hs; eapply (named_read _ _ _ _ _ _ _ _ _ _ _ (_, q')); try eassumption.
  intros n s E R; unfold ReadTypedMember; exec; rewrite not_interface by exact Hk.
  unfold some_member, ReadFieldDeclaration; done_reading.
Qed.

Lemma read_field_value d k kind attrs ms x colon a semi q q1 q' ty e : allows_fields kind = true ->
  Type_ x = TokenType.Identifier -> Type_ colon = TokenType.Colon ->
  GType true q (a :: q1) ty -> Type_ a = TokenType.AssignOperator ->
  GOperand d k 0 q1 (semi :: q') e -> Type_ semi = TokenType.Semicolon ->
  reads_declaration d k kind attrs ms (x :: colon :: q) q'
    (FieldDeclaration (mkField (member_base attrs ms x None []) (Some ty) semi a (Some e))).
Proof.
  intros Hk Hx Hc HT Ha HO Hs; eapply (named_read _ _ _ _ _ _ _ _ _ _ _ (_, q')); try eassumption.
  intros n s E R; unfold ReadTypedMember; exec; rewrite not_interface by exact Hk.
  apply operand_read in HO as (_ & _ & HO); unfold some_member, ReadFieldDeclaration, read_expression.
  reading HO; unfold expect_end; done_reading.
Qed.

Lemma read_property d k kind attrs ms x colon ob cb q q1 q' ty acc :
  Type_ x = TokenType.Identifier -> Type_ colon = TokenType.Colon -> GType true q (ob :: q1) ty ->
  Type_ ob = TokenType.OpenBrace -> GAccessors d k (mkAccessors None None) q1 cb q' acc ->
  has_accessor acc = true ->
  reads_declaration d k kind attrs ms (x :: colon :: q) q'
    (PropertyDeclaration (mkProperty (member_base attrs ms x None []) (Some ty) ob cb
       default_token default_token (Getter acc) (Setter acc) None)).
Proof.
  intros Hx Hc HT Hob HA Hacc; eapply (named_read _ _ _ _ _ _ _ _ _ _ _ (_, q')); try eassumption.
  intros n s E R; unfold ReadTypedMember; exec; unfold some_member, ReadPropertyDeclaration; exec.
  reads_by accessor_list_read; rewrite require_accessor_read by exact Hacc; done_reading.
Qed.

Lemma read_computed d k kind attrs ms x colon arrow semi q q1 q' ty e :
  Type_ x = TokenType.Identifier -> Type_ colon = TokenType.Colon ->
  GType true q (arrow :: q1) ty -> Type_ arrow = TokenType.ArrowOperator ->
  GOperand d k 0 q1 (semi :: q') e -> Type_ semi = TokenType.Semicolon ->
  reads_declaration d k kind attrs ms (x :: colon :: q) q'
    (PropertyDeclaration (mkProperty (member_base attrs ms x None []) (Some ty) default_token
       default_token arrow semi None None (Some e))).
Proof.
  intros Hx Hc HT Ha HO Hs; eapply (named_read _ _ _ _ _ _ _ _ _ _ _ (_, q')); try eassumption.
  intros n s E R; unfold ReadTypedMember; exec; unfold some_member, ReadComputedPropertyDeclaration.
  apply operand_read in HO as (_ & _ & HO); unfold read_expression, expect_end; reading HO.
  done_reading.
Qed.

Lemma read_required d k attrs ms x colon semi q q' ty : Type_ x = TokenType.Identifier ->
  Type_ colon = TokenType.Colon -> GType true q (semi :: q') ty ->
  Type_ semi = TokenType.Semicolon ->
  reads_declaration d k SyntaxKind.InterfaceDeclaration attrs ms (x :: colon :: q) q'
    (PropertyDeclaration (mkProperty (member_base attrs ms x None []) (Some ty) default_token
       default_token default_token semi
       (Some (mkAccessor [] (made TokenType.GetKeyword "get" (Location x) false) []
                default_token None)) None None)).
Proof.
  intros Hx Hc HT Hs; eapply (named_read _ _ _ _ _ _ _ _ _ _ _ (_, q')); try eassumption.
  intros n s E R; unfold ReadTypedMember; exec; done_reading.
Qed.

Lemma read_enum d k kind attrs ms t x colon u flags ob cb q q1 q' fs :
  Type_ t = TokenType.EnumKeyword -> Type_ x = TokenType.Identifier ->
  GUnderlying q (ob :: q1) colon u flags -> Type_ ob = TokenType.OpenBrace ->
  GEnumFields d k q1 cb q' fs ->
  reads_declaration d k kind attrs ms (t :: x :: q) q'
    (EnumDeclaration (mkEnum (member_base attrs ms x None []) ob cb colon u flags fs)).
Proof.
  intros Ht Hx Hu Hob HF; declaration; unfold ReadTypeDeclaration; exec.
  unfold some_member, ReadEnumDeclaration; sees name_declared; sees underlying_read.
  sees body_start_read; unfold ReadEnumBody; exec.
  eapply par_call; [apply (enum_fields_read _ _ _ _ _ _ HF n n []); [assumption|budget]|].
  intros r s9 (-> & E9 & F9); cbn [app]; done_reading.
Qed.

(** The head of a declaration. *)
Lemma head_read info x q q1 q2 tps wheres n s : Type_ x = TokenType.Identifier ->
  info_Generics info = None -> GTypeParameters q q1 tps -> GWhere q1 q2 wheres ->
  tokens s = x :: q ->
  par (ReadDeclarationHead n info) s (reads_same
    (member_base (info_Attributes info) (info_Modifiers info) x tps wheres) q2 s).
Proof.
  intros Hx Hg Htp Hw E; unfold ReadDeclarationHead; rewrite Hg; sees name_declared.
  sees type_parameters_read; sees where_clauses_read; ends.
Qed.

Lemma read_delegate_declaration d k kind attrs ms t x semi q q1 q2 q3 arrow q' tps wheres ps r :
  Type_ t = TokenType.DelegateKeyword -> Type_ x = TokenType.Identifier ->
  GTypeParameters q q1 tps -> GWhere q1 q2 wheres -> GParametersList q2 q3 ps ->
  GReturnType q3 arrow (semi :: q') r -> Type_ semi = TokenType.Semicolon ->
  reads_declaration d k kind attrs ms (t :: x :: q) q'
    (DelegateDeclaration (mkDelegate (member_base attrs ms x tps wheres) t semi r ps)).
Proof.
  intros Ht Hx Htp Hw Hp Hr Hs; declaration; unfold ReadTypeDeclaration; exec.
  unfold some_member, ReadDelegateDeclaration; exec.
  eapply par_call; [eapply head_read; [exact Hx|reflexivity|eassumption..]|take].
  destruct (return_type_cases _ _ _ _ Hr) as [(-> & -> & -> & Hn)|(q0 & ty & -> & -> & Ha & HT)];
    sees parameters_list_read; [|sees type_read]; unfold expect_end; done_reading.
Qed.

Lemma optional_body_read d k kind m base bases ob q c q' l n s : Type_ ob = TokenType.OpenBrace ->
  reads_members d k kind q c q' l -> Z.of_nat (List.length l) < loopGuard_max ->
  tokens s = ob :: q -> fresh d k s ->
  par (ReadOptionalBody n (members n) kind m base bases) s
    (reads (most k s) (mkTypeDeclaration base ob c bases l) q' s).
Proof.
  intros Ho [Hc H] Hl E R; unfold ReadOptionalBody; sees body_start_read.
  unfold ReadTypeBody; exec.
  eapply par_call; [apply (H n n 0 []); [assumption|budget|lia]|].
  intros r s9 (-> & E9 & F9); cbn [app]; done_reading.
Qed.

Ltac type_declaration :=
  declaration; unfold ReadTypeDeclaration; exec; unfold some_member,
    ReadClassDeclaration, ReadStructDeclaration, ReadInterfaceDeclaration; exec;
  eapply par_call; [eapply head_read; [eassumption|reflexivity|eassumption..]|take].
Ltac type_body :=
  exec; eapply par_call; [eapply optional_body_read; [eassumption..|budget]|];
  let s := fresh "s" in intros ? s (-> & ?E & ?F); done_reading.

Lemma read_class d k kind attrs ms t x q q1 q2 q3 q' tps wheres bases ob cb l :
  Type_ t = TokenType.ClassKeyword -> Type_ x = TokenType.Identifier ->
  GTypeParameters q q1 tps -> GWhere q1 q2 wheres -> GBases q2 (ob :: q3) bases ->
  Type_ ob = TokenType.OpenBrace -> reads_members d k SyntaxKind.ClassDeclaration q3 cb q' l ->
  Z.of_nat (List.length l) < loopGuard_max ->
  reads_declaration d k kind attrs ms (t :: x :: q) q'
    (ClassDeclarationSyntax (mkTypeDeclaration (member_base attrs ms x tps wheres) ob cb bases l)).
Proof.
  intros Ht Hx Htp Hw Hb Ho Hm Hl; type_declaration; sees bases_read; type_body.
Qed.

Lemma read_struct d k kind attrs ms t x q q1 q2 q3 q' tps wheres bases ob cb l :
  Type_ t = TokenType.StructKeyword -> Type_ x = TokenType.Identifier ->
  GTypeParameters q q1 tps -> GWhere q1 q2 wheres -> GBases q2 (ob :: q3) bases ->
  Type_ ob = TokenType.OpenBrace -> reads_members d k SyntaxKind.StructDeclaration q3 cb q' l ->
  Z.of_nat (List.length l) < loopGuard_max ->
  reads_declaration d k kind attrs ms (t :: x :: q) q'
    (StructDeclarationSyntax (mkTypeDeclaration (member_base attrs ms x tps wheres) ob cb bases l)).
Proof.
  intros Ht Hx Htp Hw Hb Ho Hm Hl; type_declaration; sees bases_read; type_body.
Qed.

Lemma read_interface d k kind attrs ms t x q q1 q2 q' tps wheres ob cb l :
  Type_ t = TokenType.InterfaceKeyword -> Type_ x = TokenType.Identifier ->
  GTypeParameters q q1 tps -> GWhere q1 (ob :: q2) wheres -> Type_ ob = TokenType.OpenBrace ->
  reads_members d k SyntaxKind.InterfaceDeclaration q2 cb q' l ->
  Z.of_nat (List.length l) < loopGuard_max ->
  reads_declaration d k kind attrs ms (t :: x :: q) q'
    (InterfaceDeclarationSyntax (mkTypeDeclaration (member_base attrs ms x tps wheres) ob cb [] l)).
Proof.
  intros Ht Hx Htp Hw Ho Hm Hl; type_declaration; type_body.
Qed.

Lemma read_member d k kind q q1 q2 q' attrs ms m : GAttributes q q1 attrs ->
  GModifierList 0 q1 q2 ms -> reads_declaration d k kind attrs ms q2 q' m ->
  reads_member d k kind q q' m.
Proof.
  intros HA HM H [|n] s E R; [exact I|]; cbn [members]; unfold ReadMemberDeclaration.
  eapply par_call; [eapply attributes_read; eassumption|take].
  eapply par_call; [eapply modifiers_read; [eassumption|assumption|reflexivity]|take].
  eapply par_mono; [apply (H n); [assumption|budget]|].
  intros r s9 (-> & E9 & F9); unfold most in *; ends.
Qed.

Lemma read_no_member d k kind c q : Type_ c = TokenType.CloseBrace ->
  reads_members d k kind (c :: q) c q [].
Proof.
  intros Hc; split; [exact Hc|]; intros n m guard acc s E R Hg; apply par_loop_step; intros m'.
  unfold type_body; exec; [exfalso; cbn in Hg; lia|].
  rewrite app_nil_r; unfold most; ends.
Qed.

Lemma member_starts X Y : IsMemberDeclaration X Y = true ->
  X <> TokenType.EndOfFile /\ X <> TokenType.CloseBrace /\ X <> TokenType.UsingKeyword /\
  X <> TokenType.NamespaceKeyword.
Proof. destruct X; try discriminate; repeat split; discriminate. Qed.

Lemma read_more_members d k kind q q1 c q' m l :
  IsMemberDeclaration (ahead q) (ahead (tl q)) = true -> reads_member d k kind q q1 m ->
  reads_members d k kind q1 c q' l -> reads_members d k kind q c q' (m :: l).
Proof.
  intros Hd H [Hcl IH]; split; [exact Hcl|]; intros n m0 guard acc s E R Hg.
  change (List.length (m :: l)) with (S (List.length l)) in Hg.
  destruct (member_starts _ _ Hd) as (He & Hb & _).
  assert (Hg' : (loopGuard_max <? guard + 1) = false) by lia.
  destruct q as [|t [|p q]]; [destruct He; reflexivity|
    change (IsMemberDeclaration (Type_ t) (Type_ eof_token) = true) in Hd|
    change (IsMemberDeclaration (Type_ t) (Type_ p) = true) in Hd];
    apply par_loop_step; intros m'; unfold type_body; reading H; exec;
    (eapply par_mono; [apply IH; [assumption|unfold most in *; budget|lia]|]);
    intros r s2 (-> & E2 & F2); rewrite <- app_assoc; unfold most in *; ends.
Qed.

Lemma members_read d k :
  (forall kind q q' m, GMember d k kind q q' m -> reads_member d k kind q q' m) /\
  (forall kind attrs ms q q' m, GDeclaration d k kind attrs ms q q' m ->
     reads_declaration d k kind attrs ms q q' m) /\
  (forall kind q c q' l, GMembers d k kind q c q' l -> reads_members d k kind q c q' l).
Proof.
  apply members_mutind; intros;
    eauto using read_member, read_function, read_operator, read_constructor, read_indexer,
      read_field, read_field_value, read_property, read_computed, read_required, read_enum,
      read_delegate_declaration, read_no_member, read_more_members.
  all: eauto using read_class, read_struct, read_interface.
Qed.
