(* ===== verification/GrammarUnits.v ===== *)
(** * The parser reads compilation units

    Using directives, the namespace and the members at the top of a file: every
    unit the file GrammarDecl derives is read as its tree. *)
From Stdlib Require Import ZArith Lia Bool List String.
From stdpp Require Import base list.
From S2P Require Import Prelude Tokens SyntaxFacts SyntaxTree ParserState ParserTypes ParserExpr ParserStmt ParserDecl ParserTotal Grammar GrammarDecl ParserRun GrammarTypes GrammarExpr GrammarStmt GrammarMembers.
Import ListNotations SyntaxFacts.
Open Scope Z_scope.
Open Scope shard_scope.
Open Scope parser_scope.

Definition using_body n : list SyntaxToken -> P _ := ltac:(body_of (ReadUsingDirective_loop n)).
Definition namespace_body n : list SyntaxToken -> P (list SyntaxToken + list SyntaxToken) :=
  ltac:(inner_body (ReadNamespaceDeclaration_loop n [])).
Definition unit_body n : Z * CompilationUnitSyntax -> P _ :=
  ltac:(body_of (ReadCompilationUnit_loop n)).

(** ** Directives *)
Lemma names_start q semi q' xs : GNames q semi q' xs ->
  ahead q = TokenType.Identifier /\ Type_ semi = TokenType.Semicolon /\ exists x l, xs = x :: l.
Proof. induction 1 as [|? ? ? ? ? ? ? ? _ IH]; [eauto|destruct IH as (_ & ? & _); eauto]. Qed.

Lemma using_names_read q semi q' xs : GNames q semi q' xs -> forall n m acc s, tokens s = q ->
  par (loop m (using_body n) acc) s (reads_same ((acc ++ xs)%list, semi) q' s).
Proof.
  induction 1 as [x semi q Hx Hs|x dot q semi q' xs Hx Hdot _ IH]; intros n m acc s E;
    apply par_loop_step; intros m'; unfold using_body, TryMatchIdentifier; exec;
    (eapply par_call; [eapply par_TryMatch; [eassumption|reflexivity|
       eapply one_of_ahead; [eassumption|reflexivity]]|take]); exec; [ends|].
  goes_on (IH n).
Qed.

Lemma namespace_names_read q semi q' xs : GNames q semi q' xs -> forall n m acc s,
  tokens s = tl q ->
  par (loop m (namespace_body n) acc) s (reads_same (acc ++ tl xs)%list (semi :: q') s).
Proof.
  induction 1 as [x semi q Hx Hs|x dot q semi q' xs Hx Hdot Hn IH]; intros n m acc s E;
    cbn [tl] in E; apply par_loop_step; intros m'; unfold namespace_body, TryMatchIdentifier.
  - exec; cbn [tl]; rewrite app_nil_r; ends.
  - destruct q as [|y q0]; [inversion Hn|].
    assert (exists l, xs = y :: l) as [l ->] by (inversion Hn; eauto).
    destruct (names_start _ _ _ _ Hn) as (Hq & _ & _).
    assert (Hy : Type_ y = TokenType.Identifier) by exact Hq.
    exec; eapply par_mono; [apply (IH n); assumption|].
    intros r s9 (-> & E9 & S9); cbn [tl]; rewrite <- app_assoc; cbn [app]; ends.
Qed.

Lemma using_read t q semi q' xs n s : Type_ t = TokenType.UsingKeyword -> GNames q semi q' xs ->
  tokens s = t :: q -> par (ReadUsingDirective n) s (reads_same (mkUsing t semi xs) q' s).
Proof.
  intros Ht H E; unfold ReadUsingDirective; exec.
  eapply par_call; [apply (using_names_read _ _ _ _ H n n []); assumption|take]; exec; ends.
Qed.

Lemma namespace_read t q semi q' x xs n s : Type_ t = TokenType.NamespaceKeyword ->
  GNames q semi q' (x :: xs) -> tokens s = t :: q ->
  par (ReadNamespaceDeclaration n) s (reads_same (mkNamespace t x (x :: xs) semi) q' s).
Proof.
  intros Ht H E; destruct (names_start _ _ _ _ H) as (Hq & Hs & _).
  destruct q as [|x' q]; [discriminate Hq|]; assert (x' = x) as -> by (inversion H; reflexivity).
  unfold ReadNamespaceDeclaration; exec; sees name_declared.
  eapply par_call; [apply (namespace_names_read _ _ _ _ H n n [x]); assumption|take]; exec; ends.
Qed.

(** ** The loop of [ReadCompilationUnit] *)
Lemma usings_read q q' us : GUsings q q' us -> forall n m guard u s Q, tokens s = q ->
  Namespace_ u = None -> Members u = [] -> guard + Z.of_nat (List.length us) <= loopGuard_max ->
  (forall m' s', tokens s' = q' -> same s s' ->
     par (loop m' (unit_body n)
            (guard + Z.of_nat (List.length us), mkUnit (Usings u ++ us) [] None)) s' Q) ->
  par (loop m (unit_body n) (guard, u)) s Q.
Proof.
  induction 1 as [q|t q semi q1 q' xs us Ht HN HU IH]; intros n m guard u s Q E Hn Hm Hg HQ.
  - destruct u as [us ms ns]; cbn in *; subst ms ns.
    specialize (HQ m s E (same_refl s)); rewrite app_nil_r, Z.add_0_r in HQ; exact HQ.
  - change (List.length (mkUsing t semi xs :: us)) with (S (List.length us)) in *.
    assert (Hg' : (loopGuard_max <? guard + 1) = false) by lia.
    apply par_loop_step; intros m'; unfold unit_body; exec.
    unfold ReadUnitUsing; rewrite Hn, Hm; exec.
    eapply par_call; [eapply using_read; eassumption|take]; exec.
    apply IH; try assumption; try reflexivity; [lia|].
    intros m2 s2 E2 S2; cbn [Usings Members Namespace_]; rewrite <- app_assoc; cbn [app].
    replace (guard + 1 + Z.of_nat (List.length us)) with (guard + Z.of_nat (S (List.length us)))
      by lia.
    apply HQ; [assumption|budget].
Qed.

Lemma unit_namespace_read q q' ns : GNamespace q q' ns -> forall n m guard us s Q, tokens s = q ->
  guard + match ns with Some _ => 1 | None => 0 end <= loopGuard_max ->
  (forall m' s', tokens s' = q' -> same s s' ->
     par (loop m' (unit_body n)
            (guard + match ns with Some _ => 1 | None => 0 end, mkUnit us [] ns)) s' Q) ->
  par (loop m (unit_body n) (guard, mkUnit us [] None)) s Q.
Proof.
  intros [q0|t q0 semi q1 x xs Ht HN] n m guard us s Q E Hg HQ.
  - specialize (HQ m s E (same_refl s)); rewrite Z.add_0_r in HQ; exact HQ.
  - assert (Hg' : (loopGuard_max <? guard + 1) = false) by lia.
    apply par_loop_step; intros m'; unfold unit_body; exec.
    unfold ReadUnitNamespace; cbn [Namespace_ Members]; exec.
    eapply par_call; [eapply namespace_read; eassumption|take]; exec.
    apply HQ; [assumption|budget].
Qed.

Lemma top_level_read d k q l : GTopLevel d k q l -> forall n m guard u s, tokens s = q ->
  fresh d k s -> guard + Z.of_nat (List.length l) <= loopGuard_max ->
  par (loop m (unit_body n) (guard, u)) s
    (reads (most k s) (mkUnit (Usings u) (Members u ++ l) (Namespace_ u)) [] s).
Proof.
  induction 1 as [|q q' x l Hd H _ IH]; intros n m guard u s E R Hg;
    apply par_loop_step; intros m'; unfold unit_body.
  - exec; destruct u; cbn; rewrite app_nil_r; unfold most; ends.
  - change (List.length (x :: l)) with (S (List.length l)) in Hg.
    destruct (member_starts _ _ Hd) as (He & _ & Hu & Hns).
    apply members_read in H.
    assert (Hg' : (loopGuard_max <? guard + 1) = false) by lia.
    destruct q as [|t q]; [destruct He; reflexivity|].
    change (Type_ t <> TokenType.UsingKeyword) in Hu.
    change (Type_ t <> TokenType.NamespaceKeyword) in Hns.
    assert (Hc : forall (a b c : P CompilationUnitSyntax),
      match Type_ t with
      | TokenType.UsingKeyword => a
      | TokenType.NamespaceKeyword => b
      | _ => c
      end = c) by (destruct (Type_ t); congruence).
    exec; rewrite Hc; unfold ReadUnitMember.
    destruct q as [|p q];
      [change (IsMemberDeclaration (Type_ t) (Type_ eof_token) = true) in Hd|
       change (IsMemberDeclaration (Type_ t) (Type_ p) = true) in Hd]; reading H; exec;
      (eapply par_mono; [apply IH; [assumption|unfold most in *; budget|lia]|]);
      intros r s2 (-> & E2 & F2); cbn [Usings Members Namespace_]; rewrite <- app_assoc;
      unfold most in *; ends.
Qed.

(** A unit of the grammar is read as its tree. *)
Lemma unit_is_read d k q u n : GUnit d k q u -> fresh d k (new_parser q) ->
  par (ReadCompilationUnit n) (new_parser q) (reads (most k (new_parser q)) u [] (new_parser q)).
Proof.
  intros [q0 q1 q2 us ns l HU HN HT Hg] R.
  unfold parts in Hg; cbn [Usings Namespace_ Members] in Hg.
  unfold ReadCompilationUnit; apply par_bind.
  change (par (loop n (unit_body n) (0, mkUnit [] [] None)) (new_parser q0)
            (reads (most k (new_parser q0)) (mkUnit us l ns) [] (new_parser q0))).
  eapply usings_read; [exact HU|reflexivity..|lia|]; intros m1 s1 E1 S1.
  eapply unit_namespace_read; [exact HN|assumption|destruct ns; lia|]; intros m2 s2 E2 S2.
  eapply par_mono; [eapply top_level_read; [exact HT|assumption|budget|destruct ns; lia]|].
  intros r s3 (-> & E3 & F3); unfold most in *; ends.
Qed.
