(* ===== verification/GrammarSamples.v ===== *)
(** * Sample programs of the language

    A program, and phrases of it, with their derivations in the grammar: the
    concrete inputs at which the theorems on the parser are applied. *)
From Stdlib Require Import ZArith Lia Bool List String.
From stdpp Require Import base list.
From S2P Require Import Prelude Tokens Reader Lexer LexBuffer SyntaxFacts SyntaxTree ParserState ParserTypes ParserExpr ParserStmt ParserDecl Grammar GrammarDecl.
Import ListNotations SyntaxFacts.
Open Scope Z_scope.
Open Scope shard_scope.

(** The tokens of a text. *)
Definition lexed (text : string) : list SyntaxToken :=
  match @LexicalBuffer.FromText classic (mkReader (L "a.shard") (L text)) with
  | Some b => LexicalBuffer.Sequence b
  | None => []
  end.

Definition sample_type : list SyntaxToken := lexed "Map<int, List<A>>[] x".
Definition sample_expression : list SyntaxToken := lexed "x - 1 * f(y).g;".
Definition sample_block : list SyntaxToken := lexed "{ if (x > 1) return x; y := -x; }".
Definition sample_program : string :=
  "using io; namespace demo; public class A : B { n: int; func f(x: int) -> int { return x; } }".

(** ** Derivations

    The tactics below try the rules in turn; the tokens are known. *)
Ltac side :=
  first
  [ reflexivity
  | discriminate
  | split; [vm_compute; discriminate|vm_compute; reflexivity]
  | vm_compute; discriminate
  | vm_compute; reflexivity ].

Ltac gtype :=
  first [ eapply T_predefined; [side|gmodifiers] | eapply T_name; [side|gmodifiers] ]
with gmodifiers :=
  first
  [ apply M_end; side
  | eapply M_array; [side|side|gmodifiers]
  | eapply M_generic; [eapply TA_list; [side|gtypes]|gmodifiers] ]
with gtypes :=
  first
  [ eapply TS_more; [gtype|side|gtypes]
  | eapply TS_last; [gtype|first [apply close_greater; side|apply close_shift; side]] ].

Ltac glink_name := first [apply link_first; side|apply link_next; side].

Ltac goperand :=
  first
  [ eapply O_operand; [apply E_primary; gprimary|side|side]
  | eapply O_operand;
      [eapply (E_infix _ 0); [apply E_primary; gprimary|side|side|goperand]|side|side] ]
with gprimary :=
  first
  [ apply P_literal; side
  | eapply P_prefix; [side|gprimary]
  | apply P_chain; glink ]
with glink :=
  first
  [ eapply L_name; [glink_name|side]
  | eapply (L_call _ 0); [glink_name|garguments|grest] ]
with grest :=
  first [ apply R_end; side | eapply R_member; [side|glink] ]
with garguments :=
  first
  [ apply A_none; side
  | eapply A_some; [side|eapply Q_last; [goperand|side]] ].

Ltac gplain :=
  first
  [ eapply S_inferred; [side|side|goperand]
  | eapply S_expression; [side|goperand] ].

Ltac gblock :=
  first
  [ eapply B_braces; [side|gstatements|side]
  | eapply B_single; [side..|gstatement] ]
with gstatements :=
  first
  [ eapply SS_none; side
  | eapply SS_more; [side..|gstatement|gstatements] ]
with gstatement :=
  first
  [ eapply N_plain; [side|gplain|side]
  | eapply N_return; [side|eapply OP_some; [goperand|side]]
  | eapply N_condition; [side|eapply C_if; [side|side|gplain|side|gblock|side|apply EL_none; side]] ].

Lemma sample_type_derived : exists q ty, GType true sample_type q ty.
Proof. set (q := sample_type); vm_compute in q; subst q; do 2 eexists; gtype. Qed.

Lemma sample_expression_derived : exists q e, GOperand 8 8 0 sample_expression q e.
Proof. set (q := sample_expression); vm_compute in q; subst q; do 2 eexists; goperand. Qed.

Lemma sample_block_derived : exists q b, GBlock 8 8 sample_block q b.
Proof. set (q := sample_block); vm_compute in q; subst q; do 2 eexists; gblock. Qed.

Ltac gheader :=
  first
  [ apply GAS_none; side | apply TP_none; side | apply W_none; side | apply GB_none; side
  | eapply GB_some; [side|eapply GTS_last; [side|gtype|side]]
  | apply ML_none; side | eapply ML_more; [side|lia|gheader]
  | eapply PL_some; [side|eapply PS_last; [apply name_identifier; side|side|gtype|side]]
  | eapply RT_type; [side|gtype] ].

Lemma sample_program_derived : exists u, GUnit 8 8 (lexed sample_program) u.
Proof.
  set (q := lexed sample_program); vm_compute in q; subst q.
  eexists; eapply G_unit.
  - eapply US_more; [side|apply NM_last; side|apply US_none].
  - eapply NS_some; [side|apply NM_last; side].
  - eapply TL_more; [side| |apply TL_none].
    eapply G_member; [gheader|gheader|].
    eapply D_class; [side|side|gheader|gheader|gheader|side| |].
    + eapply GM_more; [side|eapply G_member; [gheader|gheader|eapply D_field; side || gtype]|].
      eapply GM_more; [side| |].
      * eapply G_member; [gheader|gheader|].
        eapply D_function; [side|side|gheader|gheader|gheader|gheader|].
        eapply BD_block; [side|gblock].
      * apply GM_none; side.
    + vm_compute; reflexivity.
  - vm_compute; discriminate.
Qed.
