(* ===== verification/GrammarSpec.v ===== *)
(** * The parser implements the grammar

    Whatever the grammar derives, the parser reads: the tree is the one the
    grammar gives, the tokens left are those after the phrase, no diagnostic is
    reported and every counter is back where it was. *)
From Stdlib Require Import ZArith Lia Bool List String.
From stdpp Require Import base list.
From S2P Require Import Prelude Tokens Reader Lexer LexBuffer LexerFacts LexerWords LexerStream SyntaxFacts SyntaxTree ParserState ParserTypes ParserExpr ParserStmt ParserDecl ParserFacts ParserTotal ParserTotalCode ParserTotalDecl ParserSpec Grammar GrammarDecl ParserRun GrammarTypes GrammarExpr GrammarStmt GrammarUnits GrammarSamples.
Import ListNotations SyntaxFacts.
Open Scope Z_scope.
Open Scope shard_scope.
Open Scope parser_scope.

(** ** Partial and total correctness together *)
Lemma par_tot_both {A} (m : P A) s Q R : par m s Q -> tot m s R ->
  exists a s', m s = done (a, s') /\ Q a s' /\ R a s'.
Proof.
  unfold par, tot; destruct (m s) as [[[a s']|e|]|]; try tauto; eauto.
Qed.

Lemma par_tot {A} (m : P A) s Q R : par m s Q -> tot m s R ->
  exists a s', m s = done (a, s') /\ Q a s'.
Proof. intros H1 H2; destruct (par_tot_both m s Q R H1 H2) as (a & s' & E & HQ & _); eauto. Qed.

(** No token of a queue is the end of the file, as no provider delivers
    one. *)
Definition real_tokens (q : list SyntaxToken) : Prop :=
  List.Forall (fun t => Type_ t <> TokenType.EndOfFile) q.

(** The result of a phrase: [a], with [q] left and the state as it was, up to
    the count of operators, which the next expression resets. *)
Definition read_as {A} (a : A) (q : list SyntaxToken) (s : PState) (r : fueled (A * PState)) :
    Prop :=
  exists s', r = done (a, s') /\ tokens s' = q /\ Diagnostics s' = Diagnostics s /\
    depths s' = depths s.

(** The budgets of a phrase are within the limits of the parser. *)
Definition within_limits (d k : nat) : Prop :=
  Z.of_nat d <= Z.min MaxExpressionDepth (Z.min MaxBlockDepth MaxLinkedExpressionDepth) /\
  Z.of_nat k <= MaxExpressionOperators.

Lemma read_as_reads {A} b (a : A) q q' ds m (R : A -> PState -> Prop) :
  let s := mkPState q ds 0 0 0 0 in
  par m s (reads b a q' s) -> tot m s R -> read_as a q' s (m s).
Proof.
  intros s Hp Ht; destruct (par_tot m s _ _ Hp Ht) as (x & s' & E & -> & Et & []).
  exists s'; split; [exact E|split; [exact Et|split; [assumption|]]].
  unfold depths; congruence.
Qed.

Lemma limits_fresh d k q ds : within_limits d k -> fresh d k (mkPState q ds 0 0 0 0).
Proof.
  intros [Hd Hk]; unfold fresh, depths_fit; cbn.
  unfold MaxExpressionDepth, MaxBlockDepth, MaxLinkedExpressionDepth, MaxExpressionOperators in *.
  lia.
Qed.

Lemma fits_tokens q ds n : real_tokens q -> (fuel_for_tokens q <= n)%nat ->
  fits (slack + 7) n (mkPState q ds 0 0 0 0).
Proof.
  intros Hq Hn; split; [exact Hq|]; unfold pending; cbn [tokens].
  unfold fuel_for_tokens in Hn; lia.
Qed.

Lemma fits_weaker j k n s : fits k n s -> (j <= k)%nat -> fits j n s.
Proof. intros [He Hn] H; split; [exact He|lia]. Qed.

Lemma operand_parsed d k q q' e ds n : GOperand d k 0 q q' e -> within_limits d k ->
  real_tokens q -> (fuel_for_tokens q <= n)%nat ->
  read_as (Some e) q' (mkPState q ds 0 0 0 0) (read_expression n (mkPState q ds 0 0 0 0)).
Proof.
  intros H Hl Hq Hn; apply operand_read in H as (_ & _ & H).
  eapply read_as_reads; [apply H; [reflexivity|apply limits_fresh, Hl]|].
  apply tot_read_expression, (fits_weaker _ (slack + 7)); [apply fits_tokens; assumption|lia].
Qed.

Lemma block_is_parsed d k q q' b ds n : GBlock d k q q' b -> within_limits d k ->
  real_tokens q -> (fuel_for_tokens q <= n)%nat ->
  read_as b q' (mkPState q ds 0 0 0 0)
    (call_ReadStatementsBlock (parsers n) (mkPState q ds 0 0 0 0)).
Proof.
  intros H Hl Hq Hn; apply block_read in H.
  eapply read_as_reads; [apply H; [reflexivity|apply limits_fresh, Hl]|].
  apply (ok_Block _ _ _ (parsers_ok slack n slack_guard slack_10)), fits_tokens; assumption.
Qed.

Lemma unit_is_parsed d k q u n : GUnit d k q u -> within_limits d k -> real_tokens q ->
  (fuel_for_tokens q <= n)%nat ->
  read_as u [] (new_parser q) (ReadCompilationUnit n (new_parser q)).
Proof.
  intros H Hl Hq Hn; eapply read_as_reads; [|apply (unit_total n q Hq Hn)].
  apply (unit_is_read d k); [exact H|apply limits_fresh, Hl].
Qed.

(** ** The phrases of the grammar are read *)
(** C15: Every type of the grammar is read as its tree, generic lists closed by
    [>>] included, whatever follows it. *)
Theorem type_parsed (a : bool) (q q' : list SyntaxToken) (ty : TypeSyntax) (ds : list Diagnostic)
    (n : nat) :
  GType a q q' ty -> (fuel_for_tokens q <= n)%nat ->
  read_as (Some ty) q' (mkPState q ds 0 0 0 0) (read_type n a (mkPState q ds 0 0 0 0)).
Proof.
  intros H Hn; set (s := mkPState q ds 0 0 0 0).
  destruct (par_tot _ s _ _ (type_read a q q' ty n s H eq_refl)
    (tot_read_type n a s ltac:(unfold pending, fuel_for_tokens in *; cbn [tokens s]; lia)))
    as (r & s' & E & -> & Et & []).
  exists s'; repeat split; try assumption; unfold depths; congruence.
Qed.

(** C14: Every expression of the grammar is read as its tree: precedence and
    associativity, member chains, calls, generic calls, collections, lambdas,
    [if] and [switch] expressions come out as the grammar has them, with no
    diagnostic, as long as the nesting and the operators stay within the
    limits of 64. *)
Theorem expression_parsed (d k : nat) (q q' : list SyntaxToken) (e : ExpressionSyntax)
    (ds : list Diagnostic) (n : nat) :
  GOperand d k 0 q q' e -> within_limits d k -> real_tokens q -> (fuel_for_tokens q <= n)%nat ->
  read_as (Some e) q' (mkPState q ds 0 0 0 0) (read_expression n (mkPState q ds 0 0 0 0)).
Proof. apply operand_parsed. Qed.

(** Every block of the grammar is read as its tree: the statements between
    braces, the single statement and the lone semicolon, with all the control
    flow of the language inside. *)
Theorem block_parsed (d k : nat) (q q' : list SyntaxToken) (b : StatementsBlockSyntax)
    (ds : list Diagnostic) (n : nat) :
  GBlock d k q q' b -> within_limits d k -> real_tokens q -> (fuel_for_tokens q <= n)%nat ->
  read_as b q' (mkPState q ds 0 0 0 0)
    (call_ReadStatementsBlock (parsers n) (mkPState q ds 0 0 0 0)).
Proof. apply block_is_parsed. Qed.

(** C1: Every compilation unit of the grammar is read as its tree: using
    directives, the namespace, and classes, structures, interfaces,
    enumerations, delegates and functions with all their members.  Every token
    is consumed, nothing is reported and every counter is back at zero. *)
Theorem unit_parsed (d k : nat) (q : list SyntaxToken) (u : CompilationUnitSyntax) (n : nat) :
  GUnit d k q u -> within_limits d k -> real_tokens q -> (fuel_for_tokens q <= n)%nat ->
  read_as u [] (new_parser q) (ReadCompilationUnit n (new_parser q)).
Proof. apply unit_is_parsed. Qed.

(** From characters to tree: when the tokens of a text are a unit of the
    grammar, the lexical analyser and the parser together add exactly that
    unit to the syntax tree, with no diagnostic, with fuel linear in the
    length of the text. *)
Theorem source_parsed `{LocaleLaws} (reader : Reader) (ts : list SyntaxToken) (d k : nat)
    (u : CompilationUnitSyntax) (tree : list CompilationUnitSyntax) (n : nat) :
  LexicalBuffer.FromText reader = Some (LexicalBuffer.mkBuffer ts 0) ->
  GUnit d k ts u -> within_limits d k ->
  (16 * List.length (stream reader) + slack + 8 <= n)%nat ->
  read_as (tree ++ [u]) [] (new_parser ts) (FromSourceProvider n tree (new_parser ts)).
Proof.
  intros Hf Hu Hl Hn.
  destruct (text_tokens reader) as (ts' & E & _ & He & Hw).
  rewrite Hf in E; injection E as <-; apply (Nat.le_trans _ _ _ Hw) in Hn.
  destruct (unit_is_parsed d k ts u n Hu Hl He Hn) as (s & E & Hs').
  exists s; unfold FromSourceProvider, pbind; rewrite E; split; [reflexivity|exact Hs'].
Qed.

(** ** The theorems at the sample programs *)
Lemma real_tokens_forallb q :
  forallb (fun t => negb (Type_ t =tt TokenType.EndOfFile)) q = true -> real_tokens q.
Proof.
  intros H; apply List.Forall_forall; intros t Ht Et.
  apply (proj1 (forallb_forall _ _) H) in Ht; rewrite Et in Ht; discriminate.
Qed.

Lemma samples_real : real_tokens sample_type /\ real_tokens sample_expression /\
  real_tokens sample_block /\ real_tokens (lexed sample_program).
Proof. repeat split; apply real_tokens_forallb; vm_compute; reflexivity. Qed.

Lemma samples_limits : within_limits 8 8.
Proof. split; vm_compute; discriminate. Qed.

Lemma type_parsed_witness : exists q ty, read_as (Some ty) q (mkPState sample_type [] 0 0 0 0)
  (read_type (fuel_for_tokens sample_type) true (mkPState sample_type [] 0 0 0 0)).
Proof.
  destruct sample_type_derived as (q & ty & H); exists q, ty.
  apply (type_parsed _ _ _ _ _ _ H), le_n.
Defined.

Lemma expression_parsed_witness : exists q e,
  read_as (Some e) q (mkPState sample_expression [] 0 0 0 0)
    (read_expression (fuel_for_tokens sample_expression) (mkPState sample_expression [] 0 0 0 0)).
Proof.
  destruct sample_expression_derived as (q & e & H); exists q, e.
  apply (expression_parsed _ _ _ _ _ _ _ H samples_limits);
    [apply samples_real|apply le_n].
Defined.

Lemma block_parsed_witness : exists q b, read_as b q (mkPState sample_block [] 0 0 0 0)
  (call_ReadStatementsBlock (parsers (fuel_for_tokens sample_block)) (mkPState sample_block [] 0 0 0 0)).
Proof.
  destruct sample_block_derived as (q & b & H); exists q, b.
  apply (block_parsed _ _ _ _ _ _ _ H samples_limits); [apply samples_real|apply le_n].
Defined.

Lemma unit_parsed_witness : exists u,
  read_as u [] (new_parser (lexed sample_program))
    (ReadCompilationUnit (fuel_for_tokens (lexed sample_program)) (new_parser (lexed sample_program))).
Proof.
  destruct sample_program_derived as (u & H); exists u.
  apply (unit_parsed _ _ _ _ _ H samples_limits); [apply samples_real|apply le_n].
Defined.

Lemma source_parsed_witness : exists u,
  read_as [u] [] (new_parser (lexed sample_program))
    (FromSourceProvider (16 * List.length (L sample_program) + slack + 8) []
       (new_parser (lexed sample_program))).
Proof.
  destruct sample_program_derived as (u & H); exists u.
  apply (@source_parsed classic classic_laws (mkReader (L "a.shard") (L sample_program))
           _ _ _ u [] _ ltac:(vm_compute; reflexivity) H samples_limits (le_n _)).
Defined.
