(* ===== verification/ParserCases.v ===== *)
(** * The parser: recovery, operators and doubtful inputs

    How [Expect] recovers, how modifiers are checked, how two operators in a row
    group, and what the parser makes of the inputs its lookahead and its null
    pointers mistreat. *)
From Stdlib Require Import ZArith Lia Bool List String.
From stdpp Require Import base list.
From S2P Require Import Prelude Tokens SyntaxFacts SyntaxTree ParserState ParserTypes ParserExpr ParserStmt ParserDecl ParserFacts ParserTotal ParserTotalCode ParserTotalDecl Grammar GrammarDecl ParserRun GrammarTypes GrammarExpr GrammarStmt GrammarMembers GrammarSpec.
Import ListNotations SyntaxFacts.
Open Scope Z_scope.
Open Scope shard_scope.
Open Scope parser_scope.

(** ** Recovery *)
(** A token that recovery passes over while it looks for one of [types]. *)
Definition passed_over (types : list TokenType) (t : SyntaxToken) : Prop :=
  one_of types (Type_ t) = false /\ IsSynchronizationToken (Type_ t) = false.

(** The rest at which recovery stops: a token wanted, a token to synchronise
    at, the end of the tokens, or the limit of the skips. *)
Definition recovery_stops (types : list TokenType) (k : nat) (skipped rest : list SyntaxToken) :
    Prop :=
  List.length skipped = k \/
  match rest with [] => True | t :: _ => ~ passed_over types t end.

#[local] Arguments one_of : simpl never.
#[local] Arguments IsSynchronizationToken : simpl never.
#[local] Arguments ahead : simpl never.

Lemma set_same s : set_tokens (fun _ => tokens s) s = s.
Proof. destruct s; reflexivity. Qed.

Lemma synchronize_step types k s : TrySynchronize types (S k) s
  = match tokens s with
    | [] => done (false, s)
    | t :: q =>
        if one_of types (Type_ t) then done (true, s)
        else if IsSynchronizationToken (Type_ t) then done (false, s)
        else TrySynchronize types k (set_tokens (fun _ => q) s)
    end.
Proof.
  destruct s as [[|t q] ds e o b l]; [reflexivity|]; cbn.
  unfold pbind, CanConsume, Current, pget; cbn.
  destruct (one_of types (Type_ t)), (IsSynchronizationToken (Type_ t)); reflexivity.
Qed.

Lemma synchronize_spec types k : forall s, exists skipped rest,
  tokens s = skipped ++ rest /\ Forall (passed_over types) skipped /\
  (List.length skipped <= k)%nat /\ recovery_stops types k skipped rest /\
  TrySynchronize types k s
  = done ((Nat.ltb (List.length skipped) k && some_ahead rest && one_of types (ahead rest))%bool,
          set_tokens (fun _ => rest) s).
Proof.
  induction k as [|k IH]; intros s.
  { exists [], (tokens s); unfold recovery_stops; repeat split; auto; cbn; now rewrite set_same. }
  rewrite synchronize_step; pose proof (set_same s) as Hid.
  destruct (tokens s) as [|t q] eqn:E.
  { exists [], []; unfold recovery_stops; repeat split; auto; [cbn; lia|]; cbn; now rewrite Hid. }
  destruct (one_of types (Type_ t)) eqn:H1; [|destruct (IsSynchronizationToken (Type_ t)) eqn:H2].
  - exists [], (t :: q); unfold recovery_stops, passed_over; repeat split; auto; [cbn; lia| |].
    { right; intros [H _]; congruence. }
    cbn; change (ahead (t :: q)) with (Type_ t); now rewrite H1, Hid.
  - exists [], (t :: q); unfold recovery_stops, passed_over; repeat split; auto; [cbn; lia| |].
    { right; intros [_ H]; congruence. }
    cbn; change (ahead (t :: q)) with (Type_ t); now rewrite H1, Hid.
  - destruct (IH (set_tokens (fun _ => q) s)) as (skipped & rest & E1 & F & Hl & Hs & HT).
    cbn in E1; exists (t :: skipped), rest; repeat split.
    { cbn; congruence. }
    { constructor; [split; assumption|exact F]. }
    { cbn; lia. }
    { destruct Hs as [Hs|Hs]; [left; cbn; lia|right; exact Hs]. }
    rewrite HT; reflexivity.
Qed.

#[local] Arguments TrySynchronize : simpl never.

Definition report (t : SyntaxToken) (message : string) (s : PState) : PState :=
  mkPState (tokens s) (Diagnostics s ++ [mkDiagnostic t message]) (ExpressionDepth s)
    (OperatorsInExpression s) (BlockDepth s) (LinkedExpressionDepth s).

Lemma expect_step kind message s t q : tokens s = t :: q ->
  Expect kind message s
  = if Type_ t =tt kind then done (t, set_tokens (fun _ => q) s)
    else fbind (TrySynchronize [kind] 5 (report t message s)) (fun r =>
      let (found, s1) := r in
      if found then done (hd eof_token (tokens s1), set_tokens (@tl _) s1)
      else done (mkToken true kind [] (Location t), s1)).
Proof.
  destruct s as [ts ds e o b l]; cbn [tokens]; intros ->.
  unfold Expect, ReportError, Current, CanConsume, Consume, pget, pmodify, report, pbind; cbn.
  destruct (Type_ t =tt kind); [reflexivity|].
  destruct (TrySynchronize _ _ _) as [[[found s1]|e1|]|]; try reflexivity; cbn.
  destruct found; reflexivity.
Qed.

(** C32: [Expect] takes the token it wants without a report.  Otherwise it reports
    once, at the token ahead, and recovers: it passes over five tokens at most,
    none of which is a token to synchronise at, and takes the wanted token when
    recovery stops there, or makes up a missing one with the location of the
    token reported.  The
    counters of the parser are untouched. *)
Theorem expect_recovers (kind : TokenType) (message : string) (s : PState) (t : SyntaxToken)
    (q : list SyntaxToken) :
  tokens s = t :: q ->
  let reported := [mkDiagnostic t message] in
  exists answer s', Expect kind message s = done (answer, s') /\ depths s' = depths s /\
    OperatorsInExpression s' = OperatorsInExpression s /\ Type_ answer = kind /\
    (Type_ t = kind /\ answer = t /\ tokens s' = q /\ Diagnostics s' = Diagnostics s \/
     Type_ t <> kind /\ Diagnostics s' = (Diagnostics s ++ reported)%list /\
     exists skipped rest, t :: q = skipped ++ rest /\ (List.length skipped <= 5)%nat /\
       Forall (passed_over [kind]) skipped /\ recovery_stops [kind] 5 skipped rest /\
       (rest = answer :: tokens s' \/
        answer = mkToken true kind [] (Location t) /\ tokens s' = rest)).
Proof.
  intros E reported; rewrite (expect_step _ _ _ _ _ E).
  destruct (TokenType.eqb_spec (Type_ t) kind) as [Ht|Ht].
  { exists t, (set_tokens (fun _ => q) s); repeat split; auto; left; auto. }
  destruct (synchronize_spec [kind] 5 (report t message s))
    as (skipped & rest & Er & F & Hl & Hs & ->).
  cbn [fbind]; cbn [tokens report] in Er; rewrite E in Er.
  set (found := (_ && _ && _)%bool).
  set (s1 := set_tokens (fun _ => rest) (report t message s)).
  exists (if found then hd eof_token rest else mkToken true kind [] (Location t)),
    (if found then set_tokens (@tl _) s1 else s1).
  assert (Hf : found = true -> exists x r, rest = x :: r /\ Type_ x = kind).
  { unfold found; rewrite !andb_true_iff; intros [[_ Hr] Hk]; destruct rest as [|x r]; [discriminate|].
    exists x, r; split; [reflexivity|]; change (ahead (x :: r)) with (Type_ x) in Hk.
    unfold one_of in Hk; cbn in Hk; rewrite orb_false_r in Hk.
    destruct (TokenType.eqb_spec (Type_ x) kind); [assumption|discriminate]. }
  destruct found.
  - destruct (Hf eq_refl) as (x & r & -> & Hx); cbn [hd].
    repeat split; [exact Hx|]; right; repeat split; [exact Ht|].
    exists skipped, (x :: r); repeat split; auto.
  - repeat split; right; repeat split; [exact Ht|].
    exists skipped, rest; repeat split; auto.
Qed.

(** ** Modifiers *)
(** The first occurrence of each type, those in [seen] left out. *)
Fixpoint firsts (seen : list TokenType) (ms : list SyntaxToken) : list SyntaxToken :=
  match ms with
  | [] => []
  | t :: ms =>
      if one_of seen (Type_ t) then firsts seen ms
      else t :: firsts (seen ++ [Type_ t]) ms
  end.

(** One message per modifier that is repeated or out of order. *)
Inductive complaints : list TokenType -> nat -> list SyntaxToken -> list Diagnostic -> Prop :=
| co_none seen i : complaints seen i [] []
| co_repeated seen i t ms ds : one_of seen (Type_ t) = true -> complaints seen i ms ds ->
    complaints seen i (t :: ms) (mkDiagnostic t "Duplicate modifier" :: ds)
| co_misplaced seen i j t ms ds : one_of seen (Type_ t) = false ->
    index_of (Type_ t) expectedOrder = Some j -> (j < i)%nat ->
    complaints (seen ++ [Type_ t]) i ms ds ->
    complaints seen i (t :: ms) (mkDiagnostic t "Modifier out of order" :: ds)
| co_placed seen i j t ms ds : one_of seen (Type_ t) = false ->
    index_of (Type_ t) expectedOrder = Some j -> (i <= j)%nat ->
    complaints (seen ++ [Type_ t]) (S j) ms ds -> complaints seen i (t :: ms) ds.

Lemma complaints_exist ms : Forall (fun t => IsModifier (Type_ t) = true) ms -> forall seen i,
  exists ds, complaints seen i ms ds.
Proof.
  induction 1 as [|t ms Ht _ IH]; intros seen i; [eexists; constructor|].
  destruct (one_of seen (Type_ t)) eqn:Hs.
  - destruct (IH seen i) as [ds H]; eexists; apply co_repeated; eassumption.
  - apply index_of_modifier in Ht as [j Hj].
    destruct (le_lt_dec i j) as [Hle|Hlt].
    + destruct (IH (seen ++ [Type_ t]) (S j)) as [ds H]; eexists; eapply co_placed; eassumption.
    + destruct (IH (seen ++ [Type_ t]) i) as [ds H]; eexists; eapply co_misplaced; eassumption.
Qed.

(** Everything seen comes before the index [i] as long as nothing was
    reported. *)
Definition seen_before (seen : list TokenType) (i : nat) : Prop :=
  forall X, one_of seen X = true -> exists j, index_of X expectedOrder = Some j /\ (j < i)%nat.

Lemma one_of_app l1 l2 X : one_of (l1 ++ l2) X = one_of l1 X || one_of l2 X.
Proof. apply existsb_app. Qed.

Lemma one_of_single X Y : one_of [Y] X = (X =tt Y).
Proof. apply orb_false_r. Qed.

Lemma no_complaint ms seen i ds : complaints seen i ms ds -> seen_before seen i ->
  forall q, index_of (ahead q) expectedOrder = None ->
  ds = [] <-> GModifierList i (ms ++ q) q ms.
Proof.
  induction 1 as [seen i|seen i t ms ds Hs _ IH|seen i j t ms ds Hs Hj Hlt _ IH
                 |seen i j t ms ds Hs Hj Hle _ IH]; intros Hb q Hq.
  - split; [intros _; apply ML_none, Hq|reflexivity].
  - split; [discriminate|]; intros H; inversion H; subst.
    destruct (Hb _ Hs) as (j' & Hj' & Hlt); rewrite Hj' in *; simplify_eq; lia.
  - split; [discriminate|]; intros H; inversion H; subst; simplify_eq; lia.
  - assert (Hb' : seen_before (seen ++ [Type_ t]) (S j)).
    { intros X; rewrite one_of_app, one_of_single, orb_true_iff; intros [HX|HX].
      - destruct (Hb _ HX) as (j' & Hj' & Hlt); exists j'; split; [exact Hj'|lia].
      - destruct (TokenType.eqb_spec X (Type_ t)) as [E|]; [rewrite E|discriminate].
        exists j; split; [exact Hj|lia]. }
    rewrite (IH Hb' q Hq); split; intros H; [eapply ML_more; eassumption|].
    inversion H; subst; simplify_eq; assumption.
Qed.

Lemma par_ReportError {B} t message (k : unit -> P B) q s Q : tokens s = q ->
  (forall s1, tokens s1 = q -> Diagnostics s1 = (Diagnostics s ++ [mkDiagnostic t message])%list ->
     par (k tt) s1 Q) ->
  par (pbind (ReportError t message) k) s Q.
Proof. intros E H; apply par_bind; apply (H (report t message s)); [exact E|reflexivity]. Qed.

(** Runs over a report, and goes on with a loop by its induction hypothesis. *)
Ltac complain := eapply par_ReportError; [eassumption|]; intros ? ?E ?D; exec.
Ltac resume IH :=
  eapply par_mono; [eapply IH with (n := O); try eassumption|
    intros r s2 (-> & ?E & ?D); rewrite <- ?app_assoc; repeat split; [assumption|];
    match goal with S : same _ _ |- _ => destruct S end; try congruence].

Lemma modifiers_loop ms seen i ds : complaints seen i ms ds ->
  Forall (fun t => IsModifier (Type_ t) = true) ms ->
  forall q, index_of (ahead q) expectedOrder = None ->
  forall acc n m s, seen = map Type_ acc -> tokens s = ms ++ q ->
  par (loop m (modifiers_body n) (acc, i)) s (fun r s' =>
    r = (acc ++ firsts seen ms)%list /\ tokens s' = q /\
    Diagnostics s' = (Diagnostics s ++ ds)%list).
Proof.
  induction 1 as [seen i|seen i t ms ds Hs _ IH|seen i j t ms ds Hs Hj Hlt _ IH
                 |seen i j t ms ds Hs Hj Hle _ IH]; intros Hms q Hq acc n m s Ha E;
    apply par_loop_step; intros m'; unfold modifiers_body; cbn [app] in E; cbn [firsts];
    rewrite ?Hs.
  - exec; [rewrite !app_nil_r; auto|].
    change (index_of (Type_ s0) expectedOrder = None) in Hq.
    change (hd eof_token (s0 :: l)) with s0; rewrite Hq; exec; rewrite !app_nil_r; auto.
  - apply List.Forall_cons_iff in Hms as [Ht Hms].
    destruct (proj2 (index_of_modifier _) Ht) as [j Hj].
    exec; rewrite Hj, <- Ha, Hs; exec; complain; resume IH.
    change (mkDiagnostic t "Duplicate modifier" :: ds) with ([mkDiagnostic t "Duplicate modifier"] ++ ds).
    rewrite app_assoc; congruence.
  - apply List.Forall_cons_iff in Hms as [_ Hms].
    exec; rewrite Hj, <- Ha, Hs; exec; [|apply Nat.ltb_ge in Heqb; lia].
    complain; resume IH; [subst; rewrite map_app; reflexivity|].
    change (mkDiagnostic t "Modifier out of order" :: ds) with ([mkDiagnostic t "Modifier out of order"] ++ ds).
    rewrite app_assoc; congruence.
  - apply List.Forall_cons_iff in Hms as [_ Hms].
    exec; rewrite Hj, <- Ha, Hs; exec; [apply Nat.ltb_lt in Heqb; lia|].
    resume IH; subst; rewrite map_app; reflexivity.
Qed.

Lemma firsts_distinct ms : forall seen,
  List.NoDup (map Type_ (firsts seen ms)) /\
  forall t, In t (firsts seen ms) -> one_of seen (Type_ t) = false /\ In t ms.
Proof.
  induction ms as [|t ms IH]; intros seen; cbn [firsts]; [split; [constructor|contradiction]|].
  destruct (one_of seen (Type_ t)) eqn:Hs.
  - destruct (IH seen) as [H1 H2]; split; [exact H1|]; intros x Hx.
    destruct (H2 x Hx); split; [assumption|right; assumption].
  - destruct (IH (seen ++ [Type_ t])) as [H1 H2]; split.
    + cbn [map]; constructor; [|exact H1]; rewrite in_map_iff; intros (x & Ex & Hx).
      apply H2 in Hx as [Hx _]; rewrite one_of_app, one_of_single, Ex in Hx.
      destruct (TokenType.eqb_spec (Type_ t) (Type_ t)); [|congruence].
      rewrite orb_true_r in Hx; discriminate.
    + intros x [<-|Hx]; [split; [exact Hs|left; reflexivity]|].
      apply H2 in Hx as [Hx Hi]; rewrite one_of_app, orb_false_iff in Hx.
      split; [apply Hx|right; exact Hi].
Qed.

(** The modifiers before a member: the parser keeps the first of each kind, in
    the order written, reports every repeated one and every one that comes
    after a later one, and reports nothing exactly when the grammar accepts
    the list, each modifier in the place the language orders it. *)
Theorem modifiers_checked (ms q : list SyntaxToken) (n : nat) (s : PState) :
  Forall (fun t => IsModifier (Type_ t) = true) ms -> IsModifier (ahead q) = false ->
  tokens s = ms ++ q -> (pending s < n)%nat ->
  exists ds s', ReadMemberModifiers n s = done (firsts [] ms, s') /\ tokens s' = q /\
    Diagnostics s' = (Diagnostics s ++ ds)%list /\ depths s' = depths s /\
    complaints [] 0 ms ds /\ List.NoDup (map Type_ (firsts [] ms)) /\
    (ds = [] <-> GModifierList 0 (ms ++ q) q ms).
Proof.
  intros Hms Hq E Hn.
  assert (Hi : index_of (ahead q) expectedOrder = None).
  { destruct (index_of (ahead q) expectedOrder) as [j|] eqn:Hj; [|reflexivity].
    assert (IsModifier (ahead q) = true) by (apply index_of_modifier; eauto); congruence. }
  destruct (complaints_exist ms Hms [] 0%nat) as [ds C].
  pose proof (modifiers_loop ms [] 0%nat ds C Hms q Hi [] n n s eq_refl E) as Hp.
  change (loop n (modifiers_body n) ([], 0%nat)) with (ReadMemberModifiers n) in Hp.
  destruct (par_tot_both _ _ _ _ Hp (tot_ReadMemberModifiers n s Hn))
    as (r & s' & Er & (-> & Et & Ed) & Hs & _).
  exists ds, s'; split; [exact Er|]; do 2 (split; [assumption|]); split; [apply Hs|].
  split; [exact C|]; split; [apply firsts_distinct|].
  apply (no_complaint _ _ _ _ C); [discriminate|exact Hi].
Qed.

(** ** Operators *)
Lemma name_is_read d k x q : Type_ x = TokenType.Identifier -> ends_name q = true ->
  GPrimary (S d) k (x :: q) q (MemberAccessExpressionSyntax no_delimiter x None).
Proof.
  intros Hx Hq; apply P_chain; eapply L_name; [|exact Hq].
  constructor; rewrite Hx; reflexivity.
Qed.

Lemma infix_levels X : infix X = true -> 0 < level X < primary_level.
Proof. destruct X; try discriminate; intros _; split; reflexivity. Qed.

Lemma operator_ends_name op q : infix (Type_ op) = true -> Type_ op <> TokenType.LessOperator ->
  ends_name (op :: q) = true.
Proof.
  intros Ho Hl; unfold ends_name; cbv zeta; change (ahead (op :: q)) with (Type_ op).
  destruct (TokenType.eqb_spec (Type_ op) TokenType.LessOperator); [contradiction|].
  cbn [andb negb]; rewrite andb_true_r; destruct (Type_ op); try discriminate; reflexivity.
Qed.

Lemma looks_generic_step closes X t q : (forall d, looks_generic closes X d q = false) ->
  (ahead q =tt X) = false -> forall d, looks_generic closes X d (t :: q) = false.
Proof.
  intros Hq Ha d; cbn [looks_generic]; rewrite Ha, !Hq.
  destruct (Type_ t); try reflexivity; destruct (_ && _); reflexivity.
Qed.

Lemma looks_generic_none closes X q : Forall (fun t => Type_ t <> X) q ->
  X <> TokenType.EndOfFile -> forall d, looks_generic closes X d q = false.
Proof.
  induction 1 as [|t q _ Hq IH]; intros HX d; [reflexivity|].
  apply looks_generic_step; [intros e; apply IH, HX|].
  destruct Hq as [|u q Hu _]; [change (ahead []) with TokenType.EndOfFile|
    change (ahead (u :: q)) with (Type_ u)];
    match goal with |- (?a =tt ?b) = _ => destruct (TokenType.eqb_spec a b); congruence end.
Qed.

(** An operator ends a name when neither a parenthesis nor a dot follows. *)
Lemma operators_end_names op q : infix (Type_ op) = true ->
  Forall (fun t => Type_ t <> TokenType.OpenCurl) q ->
  Forall (fun t => Type_ t <> TokenType.Delimeter) q -> ends_name (op :: q) = true.
Proof.
  intros Ho H1 H2; destruct (TokenType.eqb_spec (Type_ op) TokenType.LessOperator) as [E|E];
    [|apply operator_ends_name; assumption].
  unfold ends_name, generic_call, generic_receiver; cbn [tl].
  rewrite !looks_generic_none by (assumption || discriminate).
  change (ahead (op :: q)) with (Type_ op); rewrite E; reflexivity.
Qed.

Definition name_node (x : SyntaxToken) : ExpressionSyntax :=
  MemberAccessExpressionSyntax no_delimiter x None.

Lemma operand_of_name d k bp x q : Type_ x = TokenType.Identifier -> ends_name q = true ->
  0 <= bp < primary_level -> level (ahead q) <= bp -> GOperand (S (S d)) k bp (x :: q) q (name_node x).
Proof.
  intros Hx Hq Hb Hl; eapply O_operand; [apply E_primary, name_is_read; assumption|exact Hb|exact Hl].
Qed.

(** Two operators in a row, of the 27 infix operators of the language: the
    first groups when it binds at least as tight as the second, so every
    infix operator is left-associative, the assignments and [??] among them:
    [a = b = c] is read as [(a = b) = c]. *)
Theorem infix_grouping (x o1 y o2 z semi : SyntaxToken) (ds : list Diagnostic) (n : nat) :
  Type_ x = TokenType.Identifier -> Type_ y = TokenType.Identifier ->
  Type_ z = TokenType.Identifier -> Type_ semi = TokenType.Semicolon ->
  infix (Type_ o1) = true -> infix (Type_ o2) = true ->
  let q := [x; o1; y; o2; z; semi] in
  (fuel_for_tokens q <= n)%nat ->
  read_as
    (Some (if level (Type_ o2) <=? level (Type_ o1)
           then infix_node o2 (Some (infix_node o1 (Some (name_node x)) (Some (name_node y))))
                  (Some (name_node z))
           else infix_node o1 (Some (name_node x))
                  (Some (infix_node o2 (Some (name_node y)) (Some (name_node z))))))
    [semi] (mkPState q ds 0 0 0 0) (read_expression n (mkPState q ds 0 0 0 0)).
Proof.
  intros Hx Hy Hz Hs H1 H2 q Hn.
  pose proof (infix_levels _ H1) as L1; pose proof (infix_levels _ H2) as L2.
  assert (Hq : forall X, X = TokenType.OpenCurl \/ X = TokenType.Delimeter ->
    Forall (fun t => Type_ t <> X) [y; o2; z; semi]).
  { intros X HX; repeat (apply List.Forall_cons; [|]); try apply List.Forall_nil;
      destruct HX as [-> | ->]; try congruence; intros E; rewrite E in H2; discriminate. }
  assert (Hq' : forall X, X = TokenType.OpenCurl \/ X = TokenType.Delimeter ->
    Forall (fun t => Type_ t <> X) [z; semi])
    by (intros X HX; apply Hq in HX; inversion HX as [|? ? _ HX']; inversion HX'; assumption).
  assert (Ex : ends_name [o1; y; o2; z; semi] = true) by (apply operators_end_names; auto).
  assert (Ey : ends_name [o2; z; semi] = true) by (apply operators_end_names; auto).
  assert (Ez : ends_name [semi] = true) by (unfold ends_name, ahead; cbn; rewrite Hs; reflexivity).
  apply (operand_parsed 4 2); [|split; vm_compute; discriminate| |exact Hn].
  2: { unfold q; repeat (apply List.Forall_cons;
         [congruence || (intros E; rewrite E in *; discriminate)|]).
       apply List.Forall_nil. }
  assert (Hend : forall bp, 0 <= bp -> level (ahead [semi]) <= bp)
    by (intros bp Hb; change (ahead [semi]) with (Type_ semi); rewrite Hs; exact Hb).
  assert (Hname : forall d k u r, Type_ u = TokenType.Identifier -> ends_name r = true ->
    GExpression (S (S d)) k primary_level (u :: r) r (name_node u))
    by (intros; apply E_primary, name_is_read; assumption).
  destruct (Z.leb_spec (level (Type_ o2)) (level (Type_ o1))) as [Hle|Hlt].
  - eapply O_operand; [apply (E_infix 3 1 0 (level (Type_ o1)) o2 q [z; semi])|lia|apply Hend; lia]; try assumption.
    + apply (E_infix 3 0 0 primary_level o1 q [y; o2; z; semi]); try assumption; try lia.
      * apply Hname; assumption.
      * apply operand_of_name; try assumption; try lia; exact Hle.
    + apply operand_of_name; try assumption; [lia|apply Hend; lia].
  - eapply O_operand; [apply (E_infix 3 0 1 primary_level o1 q [y; o2; z; semi])|lia|apply Hend; lia];
      try assumption; try lia; [apply Hname; assumption|].
    eapply O_operand; [apply (E_infix 2 0 0 primary_level o2 [y; o2; z; semi] [z; semi])|lia|apply Hend; lia];
      try assumption; try lia; [apply Hname; assumption|].
    apply operand_of_name; try assumption; [lia|apply Hend; lia].
Qed.

(** ** Doubtful inputs *)
(** A name followed by a token that is no operator and no punctuation is
    dropped without a word: the expression is null, the name is consumed, and
    nothing is reported. *)
Theorem name_dropped_silently (x y : SyntaxToken) (q : list SyntaxToken) (ds : list Diagnostic)
    (n : nat) :
  Type_ x = TokenType.Identifier -> IsOperator (Type_ y) = false ->
  IsPunctuation (Type_ y) = false -> level (Type_ y) = 0 -> (4 <= n)%nat ->
  read_expression n (mkPState (x :: y :: q) ds 0 0 0 0) = done (None, mkPState (y :: q) ds 0 0 0 0).
Proof.
  intros Hx Ho Hp Hl Hn; replace n with (4 + (n - 4))%nat by lia; generalize (n - 4)%nat as m.
  destruct x as [mx X wx lx], y as [my Y wy ly]; cbn in Hx, Ho, Hp, Hl; subst X; intros m.
  destruct Y; try discriminate; vm_compute; reflexivity.
Qed.

(** Two names between brackets, a comma forgotten: the parser dereferences a
    null pointer, whatever follows. *)
Theorem collection_missing_comma (o x y c : SyntaxToken) (q : list SyntaxToken)
    (ds : list Diagnostic) (n : nat) :
  Type_ o = TokenType.OpenSquare -> Type_ x = TokenType.Identifier ->
  Type_ y = TokenType.Identifier -> Type_ c = TokenType.CloseSquare -> (6 <= n)%nat ->
  read_expression n (mkPState (o :: x :: y :: c :: q) ds 0 0 0 0) = Some UB.
Proof.
  intros Ho Hx Hy Hc Hn; replace n with (6 + (n - 6))%nat by lia; generalize (n - 6)%nat as m.
  destruct o, x, y, c; cbn in Ho, Hx, Hy, Hc; subst; intros m; vm_compute; reflexivity.
Qed.

(** Two statements, [i < n;] and [j > (k);], are misread: the lookahead for a
    generic call runs over the semicolon, so the first comparison is read as a
    call [i<n> ...], a missing [>] is reported at the semicolon, and the
    comparison is lost. *)
Theorem comparison_misread (i less n semi j greater o : SyntaxToken) (q : list SyntaxToken)
    (ds : list Diagnostic) (fuel : nat) :
  Type_ i = TokenType.Identifier -> Type_ less = TokenType.LessOperator ->
  Type_ n = TokenType.Identifier -> Type_ semi = TokenType.Semicolon ->
  Type_ j = TokenType.Identifier -> Type_ greater = TokenType.GreaterOperator ->
  Type_ o = TokenType.OpenCurl -> (10 <= fuel)%nat ->
  exists args, read_expression fuel
      (mkPState (i :: less :: n :: semi :: j :: greater :: o :: q) ds 0 0 0 0)
    = done (Some (InvokationExpressionSyntax no_delimiter i None (Some args) None),
            mkPState (semi :: j :: greater :: o :: q)
              (ds ++ [mkDiagnostic semi "Expected ',' or '>'"]) 0 0 0 0).
Proof.
  intros Hi Hl Hn Hs Hj Hg Ho Hf; replace fuel with (10 + (fuel - 10))%nat by lia.
  generalize (fuel - 10)%nat as m.
  destruct i, less, n, semi, j, greater, o; cbn in Hi, Hl, Hn, Hs, Hj, Hg, Ho; subst.
  intros m; eexists; vm_compute; reflexivity.
Qed.

(** ** Witnesses *)
Definition tok (type : TokenType) : SyntaxToken := made type "t" empty_location false.

Lemma expect_recovers_witness : exists answer s',
  Expect TokenType.Semicolon "';'" (new_parser (map tok [TokenType.Identifier; TokenType.Semicolon]))
    = done (answer, s') /\ Type_ answer = TokenType.Semicolon.
Proof.
  destruct (expect_recovers TokenType.Semicolon "';'"
    (new_parser (map tok [TokenType.Identifier; TokenType.Semicolon])) _ _ eq_refl)
    as (answer & s' & E & _ & _ & T & _).
  exists answer, s'; split; assumption.
Defined.

Lemma modifiers_checked_witness :
  let ms := map tok [TokenType.StaticKeyword; TokenType.PublicKeyword; TokenType.StaticKeyword] in
  exists (ds : list Diagnostic) s', ReadMemberModifiers 10 (new_parser (ms ++ [tok TokenType.FunctionKeyword]))
      = done (firsts [] ms, s') /\ tokens s' = [tok TokenType.FunctionKeyword] /\
    Diagnostics s' = ds /\ complaints [] 0 ms ds.
Proof.
  intros ms.
  destruct (modifiers_checked ms [tok TokenType.FunctionKeyword] 10
    (new_parser (ms ++ [tok TokenType.FunctionKeyword])))
    as (ds & s' & E & T & D & _ & C & _);
    [repeat constructor|reflexivity|reflexivity|vm_compute; lia|].
  exists ds, s'; split; [exact E|]; split; [exact T|]; split; [exact D|exact C].
Defined.

Lemma infix_grouping_witness :
  let q := map tok [TokenType.Identifier; TokenType.AssignOperator; TokenType.Identifier;
                    TokenType.AssignOperator; TokenType.Identifier; TokenType.Semicolon] in
  let x := name_node (tok TokenType.Identifier) in
  let assign l r := BinaryExpressionSyntax (tok TokenType.AssignOperator) (Some l) (Some r) in
  read_as (Some (assign (assign x x) x)) [tok TokenType.Semicolon] (mkPState q [] 0 0 0 0)
    (read_expression (fuel_for_tokens q) (mkPState q [] 0 0 0 0)).
Proof.
  intros q x assign.
  exact (infix_grouping (tok TokenType.Identifier) (tok TokenType.AssignOperator)
    (tok TokenType.Identifier) (tok TokenType.AssignOperator) (tok TokenType.Identifier)
    (tok TokenType.Semicolon) [] (fuel_for_tokens q) eq_refl eq_refl eq_refl eq_refl eq_refl eq_refl
    (le_n _)).
Defined.

Lemma name_dropped_silently_witness :
  let y := tok TokenType.Identifier in
  read_expression 4 (mkPState [y; y; tok TokenType.Semicolon] [] 0 0 0 0)
  = done (None, mkPState [y; tok TokenType.Semicolon] [] 0 0 0 0).
Proof. apply name_dropped_silently; reflexivity || lia. Defined.

Lemma collection_missing_comma_witness :
  let x := tok TokenType.Identifier in
  read_expression 6 (mkPState [tok TokenType.OpenSquare; x; x; tok TokenType.CloseSquare] [] 0 0 0 0)
  = Some UB.
Proof. apply collection_missing_comma; reflexivity || lia. Defined.

Lemma comparison_misread_witness :
  let x := tok TokenType.Identifier in
  let q := [tok TokenType.Semicolon; x; tok TokenType.GreaterOperator; tok TokenType.OpenCurl] in
  exists args, read_expression 10 (mkPState (x :: tok TokenType.LessOperator :: x :: q) [] 0 0 0 0)
    = done (Some (InvokationExpressionSyntax no_delimiter x None (Some args) None),
            mkPState q [mkDiagnostic (tok TokenType.Semicolon) "Expected ',' or '>'"] 0 0 0 0).
Proof. apply comparison_misread with (q := []); reflexivity || lia. Defined.
