(* ===== verification/SemVer.v ===== *)
(** * Semantic versions

    [shard::semver] (src/utilities/SemanticVersion.cpp): versions and their
    order, the version parser, version expressions and the range test the
    package references are resolved with.  A position in a string is kept as
    the characters from it on.  Signed overflow of [int] is [UB]. *)
From Stdlib Require Import ZArith Lia Bool List String.
From stdpp Require Import base list.
From S2P Require Import Prelude Reader.
Import ListNotations.
Open Scope Z_scope.
Open Scope shard_scope.

Module SemVer.
(** [INT_MAX], and a result of [int] arithmetic. *)
Definition INT_MAX : Z := 2147483647.
Definition int_result (z : Z) : result Z :=
  if (-2147483648 <=? z) && (z <=? INT_MAX) then Ok z else UB.

(** ** Versions *)
Record SemanticVersion := mkVersion {
  Major : Z;
  Minor : Z;
  Patch : Z;
  Prerelease : wstring
}.

(** [SemanticVersion::operator==] and the other comparisons *)
Definition eq (a b : SemanticVersion) : bool :=
  (Major a =? Major b) && (Minor a =? Minor b) && (Patch a =? Patch b).
Definition ne (a b : SemanticVersion) : bool := negb (eq a b).
Definition lt (a b : SemanticVersion) : bool :=
  if negb (Major a =? Major b) then Major a <? Major b
  else if negb (Minor a =? Minor b) then Minor a <? Minor b
  else Patch a <? Patch b.
Definition gt (a b : SemanticVersion) : bool := lt b a.
Definition le (a b : SemanticVersion) : bool := negb (lt b a).
Definition ge (a b : SemanticVersion) : bool := negb (lt a b).

(** ** Parsing *)

(** [std::iswdigit]: the decimal digits. *)
Definition iswdigit (c : wchar) : bool := is_digit c.

(** The digit loop of [ParseInt]. *)
Fixpoint ParseInt_loop (value : Z) (text : wstring) : result (Z * wstring) :=
  match text with
  | c :: text' =>
      if iswdigit c then
        scaled <-? int_result (value * 10) ;;
        value <-? int_result (scaled + (c - ch "0")) ;;
        ParseInt_loop value text'
      else Ok (value, text)
  | [] => Ok (value, [])
  end.

(** [ParseInt] *)
Definition ParseInt (text : wstring) : result (option (Z * wstring)) :=
  match text with
  | c :: _ =>
      if negb (iswdigit c) then Ok None
      else r <-? ParseInt_loop 0 text ;; Ok (Some r)
  | [] => Ok None
  end.

Section WithLocale.
Context `{Locale}.

(** The loop of [Trim] that moves [start]. *)
Fixpoint skip_spaces (text : wstring) : wstring :=
  match text with
  | c :: text' => if iswspace c then skip_spaces text' else text
  | [] => []
  end.

(** [Trim]: the second loop moves [end] towards [start]. *)
Definition Trim (text : wstring) : wstring := rev (skip_spaces (rev (skip_spaces text))).

(** [text[pos] == c], then [++pos] *)
Definition expect (c : wchar) (text : wstring) : option wstring :=
  match text with
  | x :: text' => if x =? c then Some text' else None
  | [] => None
  end.

(** [ParseVersion] *)
Definition ParseVersion (text : wstring) : result (option SemanticVersion) :=
  let input := Trim text in
  match input with
  | [] => Ok None
  | _ :: _ =>
      major <-? ParseInt input ;;
      match major with None => Ok None | Some (major, input) =>
      match expect (ch ".") input with None => Ok None | Some input =>
      minor <-? ParseInt input ;;
      match minor with None => Ok None | Some (minor, input) =>
      match expect (ch ".") input with None => Ok None | Some input =>
      patch <-? ParseInt input ;;
      match patch with None => Ok None | Some (patch, input) =>
      match input with
      | [] => Ok (Some (mkVersion major minor patch []))
      | c :: prerelease =>
          if negb (c =? ch "-") then Ok None
          else match prerelease with
               | [] => Ok None
               | _ :: _ => Ok (Some (mkVersion major minor patch prerelease))
               end
      end end end end end end
  end.

(** ** Version expressions *)
Inductive Operator :=
| Equal | Greater | GreaterOrEqual | Less | LessOrEqual | Compatible | Approximately.

Record Constraint := mkConstraint {
  Op : Operator;
  Version : SemanticVersion
}.

(** The operator prefix of a constraint, and the text after it. *)
Definition ParseOperator (text : wstring) : Operator * wstring :=
  match text with
  | [] => (Equal, [])
  | c :: rest =>
      if c =? ch "^" then (Compatible, rest)
      else if c =? ch "~" then (Approximately, rest)
      else if c =? ch ">" then
        match expect (ch "=") rest with
        | Some rest => (GreaterOrEqual, rest)
        | None => (Greater, rest)
        end
      else if c =? ch "<" then
        match expect (ch "=") rest with
        | Some rest => (LessOrEqual, rest)
        | None => (Less, rest)
        end
      else if c =? ch "=" then (Equal, rest)
      else (Equal, text)
  end.

(** [ParseConstraint] *)
Definition ParseConstraint (text : wstring) : result (option Constraint) :=
  match Trim text with
  | [] => Ok None
  | (_ :: _) as text =>
      let (op, rest) := ParseOperator text in
      version <-? ParseVersion rest ;;
      match version with
      | None => Ok None
      | Some version => Ok (Some (mkConstraint op version))
      end
  end.

Definition separator (c : wchar) : bool := iswspace c || (c =? ch ",").

(** The loop that skips separators, and the one that finds the end of a
    constraint. *)
Fixpoint skip_separators (text : wstring) : wstring :=
  match text with
  | c :: text' => if separator c then skip_separators text' else text
  | [] => []
  end.
Fixpoint take_word (text : wstring) : wstring * wstring :=
  match text with
  | c :: text' =>
      if separator c then ([], text)
      else let (word, rest) := take_word text' in (c :: word, rest)
  | [] => ([], [])
  end.

(** The loop of [VersionExpression::Parse]. *)
Fixpoint Parse_loop (n : nat) (text : wstring) (constraints : list Constraint)
  : option (result (option (list Constraint))) :=
  match n with
  | O => None
  | S n =>
      match text with
      | [] => Some (Ok (Some constraints))
      | _ :: _ =>
          match skip_separators text with
          | [] => Some (Ok (Some constraints))
          | (_ :: _) as text =>
              let (word, rest) := take_word text in
              match ParseConstraint word with
              | Ok (Some c) => Parse_loop n rest (constraints ++ [c])
              | Ok None => Some (Ok None)
              | Throw m => Some (Throw m)
              | UB => Some UB
              end
          end
      end
  end.

(** [VersionExpression::Parse] *)
Definition Parse (text : wstring) : option (result (option (list Constraint))) :=
  match Parse_loop (S (List.length text)) text [] with
  | Some (Ok (Some [])) => Some (Ok None)
  | r => r
  end.
End WithLocale.

(** The upper bound of the two range operators. *)
Definition increment (z : Z) : result Z := int_result (z + 1).

Definition compatible_upper (v : SemanticVersion) : result SemanticVersion :=
  if 0 <? Major v then m <-? increment (Major v) ;; Ok (mkVersion m 0 0 (Prerelease v))
  else if 0 <? Minor v then
    m <-? increment (Minor v) ;; Ok (mkVersion (Major v) m 0 (Prerelease v))
  else p <-? increment (Patch v) ;; Ok (mkVersion (Major v) (Minor v) p (Prerelease v)).

Definition approximately_upper (v : SemanticVersion) : result SemanticVersion :=
  m <-? increment (Minor v) ;; Ok (mkVersion (Major v) m 0 (Prerelease v)).

(** One iteration of [Satisfies]: [false] is its early return. *)
Definition satisfies (c : Constraint) (version : SemanticVersion) : result bool :=
  match Op c with
  | Equal => Ok (negb (ne version (Version c)))
  | Greater => Ok (gt version (Version c))
  | GreaterOrEqual => Ok (ge version (Version c))
  | Less => Ok (lt version (Version c))
  | LessOrEqual => Ok (le version (Version c))
  | Compatible =>
      if lt version (Version c) then Ok false
      else upper <-? compatible_upper (Version c) ;; Ok (lt version upper)
  | Approximately =>
      if lt version (Version c) then Ok false
      else upper <-? approximately_upper (Version c) ;; Ok (lt version upper)
  end.

(** [VersionExpression::Satisfies] *)
Fixpoint Satisfies (constraints : list Constraint) (version : SemanticVersion) : result bool :=
  match constraints with
  | [] => Ok true
  | c :: constraints =>
      ok <-? satisfies c version ;;
      if ok then Satisfies constraints version else Ok false
  end.
End SemVer.
