(* ===== verification/SemVerSpec.v ===== *)
(** * Properties of semantic versions

    The order, the version parser against a printer, the two range operators
    against the intervals they abbreviate, and conjunction of constraints. *)
From Stdlib Require Import ZArith Lia Bool List String.
From stdpp Require Import base list.
From S2P Require Import Prelude Reader SemVer.
Import ListNotations SemVer.
Open Scope Z_scope.
Open Scope shard_scope.

(** ** The order *)

(** The three numbers a version is compared by. *)
Definition core (v : SemanticVersion) : Z * Z * Z := (Major v, Minor v, Patch v).

Lemma lt_spec a b : lt a b = true <->
  Major a < Major b \/ (Major a = Major b /\ (Minor a < Minor b
    \/ (Minor a = Minor b /\ Patch a < Patch b))).
Proof. unfold lt; repeat case_if; zbool; lia. Qed.

Lemma lt_false a b : lt a b = false <->
  ~ (Major a < Major b \/ (Major a = Major b /\ (Minor a < Minor b
    \/ (Minor a = Minor b /\ Patch a < Patch b)))).
Proof. rewrite <- lt_spec; destruct (lt a b); split; congruence. Qed.

Lemma eq_spec a b : eq a b = true <-> core a = core b.
Proof.
  unfold eq, core; rewrite !andb_true_iff, !Z.eqb_eq; split; [intros [[-> ->] ->]; reflexivity|].
  intros [= -> -> ->]; auto.
Qed.

(** ** Intervals *)

Lemma compatible_upper_spec v u : compatible_upper v = Ok u ->
  (0 < Major v /\ core u = (Major v + 1, 0, 0))
  \/ (Major v <= 0 /\ 0 < Minor v /\ core u = (Major v, Minor v + 1, 0))
  \/ (Major v <= 0 /\ Minor v <= 0 /\ core u = (Major v, Minor v, Patch v + 1)).
Proof.
  unfold compatible_upper, increment, int_result, core; repeat case_if; cbn;
    try discriminate; intros [= <-]; zbool; cbn; auto.
Qed.

Lemma increment_ok z : -2147483648 <= z < INT_MAX -> increment z = Ok (z + 1).
Proof.
  intros Hz; unfold increment, int_result, INT_MAX in *.
  destruct (Z.leb_spec (-2147483648) (z + 1)), (Z.leb_spec (z + 1) 2147483647);
    try reflexivity; lia.
Qed.

(** ** Conjunction *)
Lemma Satisfies_app a b v :
  Satisfies (a ++ b) v = (ok <-? Satisfies a v ;; if ok then Satisfies b v else Ok false).
Proof.
  induction a as [|c a IH]; cbn [Satisfies app]; [reflexivity|].
  destruct (satisfies c v) as [[] | |]; cbn; auto.
Qed.

Lemma Satisfies_true cs v :
  Satisfies cs v = Ok true <-> Forall (fun c => satisfies c v = Ok true) cs.
Proof.
  induction cs as [|c cs IH]; cbn; [split; auto|].
  rewrite List.Forall_cons_iff, <- IH.
  destruct (satisfies c v) as [[] | |]; cbn; intuition congruence.
Qed.

(** ** Decimal numbers *)

Definition decimal (ds : wstring) : Z :=
  fold_left (fun v c => v * 10 + (c - 48)) ds 0.

Lemma is_digit_spec c : is_digit c = true <-> 48 <= c <= 57.
Proof. unfold is_digit; rewrite andb_true_iff, !Z.leb_le; reflexivity. Qed.

Lemma decimal_from_le ds : forall v, forallb is_digit ds = true -> 0 <= v ->
  v <= fold_left (fun v c => v * 10 + (c - 48)) ds v.
Proof.
  induction ds as [|c ds IH]; intros v Hd Hv; cbn [fold_left]; [lia|].
  cbn in Hd; apply andb_true_iff in Hd as [Hc Hd]; apply is_digit_spec in Hc.
  etransitivity; [|apply IH; [exact Hd|lia]]; lia.
Qed.

Definition stops (rest : wstring) : Prop :=
  match rest with c :: _ => is_digit c = false | [] => True end.

Lemma int_result_ok z : -2147483648 <= z <= INT_MAX -> int_result z = Ok z.
Proof.
  intros Hz; unfold int_result.
  destruct (Z.leb_spec (-2147483648) z), (Z.leb_spec z INT_MAX); try reflexivity; lia.
Qed.

Lemma int_result_big z : INT_MAX < z -> int_result z = UB.
Proof.
  intros Hz; unfold int_result; destruct (Z.leb_spec z INT_MAX); [lia|].
  rewrite andb_false_r; reflexivity.
Qed.

Lemma ParseInt_loop_spec ds : forall v rest,
  forallb is_digit ds = true -> stops rest -> 0 <= v ->
  v <= INT_MAX ->
  let n := fold_left (fun v c => v * 10 + (c - 48)) ds v in
  ParseInt_loop v (ds ++ rest) = if n <=? INT_MAX then Ok (n, rest) else UB.
Proof.
  induction ds as [|c ds IH]; intros v rest Hd Hr Hv Hm; cbn [fold_left app].
  - destruct (Z.leb_spec v INT_MAX); [|lia].
    destruct rest as [|x rest]; cbn; [reflexivity|]; unfold iswdigit; rewrite Hr; reflexivity.
  - cbn in Hd; apply andb_true_iff in Hd as [Hc Hd]; cbn [ParseInt_loop].
    unfold iswdigit; rewrite Hc; change (ch "0") with 48; apply is_digit_spec in Hc.
    pose proof (decimal_from_le ds (v * 10 + (c - 48)) Hd ltac:(lia)) as Hle.
    destruct (Z.leb_spec (v * 10 + (c - 48)) INT_MAX) as [Hn|Hn].
    + rewrite int_result_ok by lia; cbn [rbind]; rewrite int_result_ok by lia; cbn [rbind].
      apply IH; auto; lia.
    + match goal with |- _ = if ?n <=? _ then _ else _ => destruct (Z.leb_spec n INT_MAX); [lia|] end.
      destruct (Z.leb_spec (v * 10) INT_MAX); [|rewrite int_result_big by lia; reflexivity].
      rewrite int_result_ok by lia; cbn [rbind]; rewrite int_result_big by lia; reflexivity.
Qed.

Lemma ParseInt_spec ds rest :
  ds <> [] -> forallb is_digit ds = true -> stops rest ->
  ParseInt (ds ++ rest) =
    if decimal ds <=? INT_MAX then Ok (Some (decimal ds, rest)) else UB.
Proof.
  intros Hne Hd Hr; destruct ds as [|c ds]; [contradiction|].
  unfold ParseInt; cbn [app]; pose proof Hd as Hd'; cbn in Hd'; apply andb_true_iff in Hd' as [Hc _].
  unfold iswdigit; rewrite Hc; cbn [negb].
  pose proof (ParseInt_loop_spec (c :: ds) 0 rest Hd Hr ltac:(lia) ltac:(unfold INT_MAX; lia)) as E.
  cbn zeta in E; cbn [app] in E; fold (decimal (c :: ds)) in E; rewrite E.
  destruct (decimal (c :: ds) <=? INT_MAX); reflexivity.
Qed.

(** The decimal digits of a non-negative number. *)
Fixpoint print_digits (n : nat) (z : Z) : wstring :=
  match n with
  | O => []
  | S n => if z <? 10 then [48 + z] else print_digits n (z / 10) ++ [48 + z mod 10]
  end.
Definition print_int (z : Z) : wstring := print_digits 10 z.

Lemma print_digits_spec n : forall z, 0 <= z < 10 ^ Z.of_nat n -> (n > 0)%nat ->
  print_digits n z <> [] /\ forallb is_digit (print_digits n z) = true
  /\ decimal (print_digits n z) = z.
Proof.
  induction n as [|n IH]; intros z Hz Hn; [lia|]; cbn [print_digits].
  destruct (Z.ltb_spec z 10) as [Hs|Hs].
  - split; [discriminate|]; split; [|unfold decimal; cbn; lia].
    cbn; rewrite andb_true_r; apply is_digit_spec; lia.
  - assert (Hn' : (n > 0)%nat) by (destruct n; [cbn in Hz; lia|lia]).
    pose proof (Z.div_mod z 10 ltac:(lia)); pose proof (Z.mod_pos_bound z 10 ltac:(lia)).
    destruct (IH (z / 10)) as (_ & Hd & Hv); [|exact Hn'|].
    + split; [apply Z.div_pos; lia|]; apply Z.div_lt_upper_bound; [lia|].
      rewrite Nat2Z.inj_succ, Z.pow_succ_r in Hz by lia; lia.
    + split; [intros E; apply app_eq_nil in E as [_ [=]]|]; split.
      * rewrite forallb_app, Hd; cbn; rewrite andb_true_r; apply is_digit_spec; lia.
      * unfold decimal in *; rewrite fold_left_app, Hv; cbn; lia.
Qed.

Lemma print_int_spec z : 0 <= z <= INT_MAX ->
  print_int z <> [] /\ forallb is_digit (print_int z) = true /\ decimal (print_int z) = z.
Proof. intros Hz; apply print_digits_spec; unfold INT_MAX in Hz; cbn; lia. Qed.

Lemma ParseInt_print z rest : 0 <= z <= INT_MAX -> stops rest ->
  ParseInt (print_int z ++ rest) = Ok (Some (z, rest)).
Proof.
  intros Hz Hr; destruct (print_int_spec z Hz) as (Hne & Hd & Hv).
  rewrite ParseInt_spec, Hv by assumption; destruct (Z.leb_spec z INT_MAX); [reflexivity|lia].
Qed.

(** ** Printing *)

Definition print_version (v : SemanticVersion) : wstring :=
  print_int (Major v) ++ L "." ++ print_int (Minor v) ++ L "." ++ print_int (Patch v)
  ++ match Prerelease v with [] => [] | _ :: _ => L "-" ++ Prerelease v end.

Definition print_operator (op : Operator) : wstring :=
  match op with
  | Equal => []
  | Greater => L ">"
  | GreaterOrEqual => L ">="
  | Less => L "<"
  | LessOrEqual => L "<="
  | Compatible => L "^"
  | Approximately => L "~"
  end.

Definition print_constraint (c : Constraint) : wstring :=
  print_operator (Op c) ++ print_version (Version c).
Definition print_expression (cs : list Constraint) : wstring :=
  flat_map (fun c => print_constraint c ++ L ", ") cs.

Definition in_int (z : Z) : Prop := 0 <= z <= INT_MAX.

Section WithLocale.
Context `{LocaleLaws}.

Definition solid (c : wchar) : bool := negb (iswspace c).

(** What a parsed version looks like: numbers in range, and a prerelease
    that does not end in a space. *)
Definition valid (v : SemanticVersion) : Prop :=
  in_int (Major v) /\ in_int (Minor v) /\ in_int (Patch v)
  /\ match rev (Prerelease v) with c :: _ => solid c = true | [] => True end.

Definition starts_solid (w : wstring) : Prop :=
  match w with c :: _ => solid c = true | [] => False end.

Lemma digit_not_space c : is_digit c = true -> iswspace c = false.
Proof.
  intros Hd; apply is_digit_spec in Hd.
  rewrite iswspace_ascii by (unfold is_ascii; apply andb_true_iff; rewrite Z.leb_le, Z.ltb_lt; lia).
  unfold ascii_space; apply orb_false_iff; rewrite andb_false_iff, !Z.leb_gt, Z.eqb_neq; lia.
Qed.

Lemma skip_spaces_app pre w : forallb iswspace pre = true -> starts_solid w ->
  skip_spaces (pre ++ w) = w.
Proof.
  intros Hp Hw; induction pre as [|c pre IH]; cbn in *.
  - destruct w as [|c w]; [contradiction|]; cbn in *.
    unfold solid in Hw; apply negb_true_iff in Hw; rewrite Hw; reflexivity.
  - apply andb_true_iff in Hp as [-> Hp]; auto.
Qed.

Lemma forallb_rev (f : wchar -> bool) l : forallb f (rev l) = forallb f l.
Proof.
  induction l as [|c l IH]; cbn; [reflexivity|].
  rewrite forallb_app, IH; cbn; rewrite andb_true_r, andb_comm; reflexivity.
Qed.

Lemma Trim_solid pre w post :
  forallb iswspace pre = true -> forallb iswspace post = true ->
  starts_solid w -> starts_solid (rev w) -> Trim (pre ++ w ++ post) = w.
Proof.
  intros Hpre Hpost Hw Hr; unfold Trim.
  rewrite skip_spaces_app; [|exact Hpre|destruct w; [contradiction|exact Hw]].
  rewrite rev_app_distr, skip_spaces_app, rev_involutive; auto.
  rewrite forallb_rev; exact Hpost.
Qed.

Lemma starts_solid_app a b : starts_solid a -> starts_solid (a ++ b).
Proof. destruct a; [contradiction|auto]. Qed.

Lemma digits_start_solid ds : ds <> [] -> forallb is_digit ds = true -> starts_solid ds.
Proof.
  destruct ds as [|c ds]; [contradiction|]; cbn; intros _ Hd.
  apply andb_true_iff in Hd as [Hc _]; unfold solid; rewrite digit_not_space by exact Hc; reflexivity.
Qed.

Lemma print_int_solid z : in_int z -> starts_solid (print_int z).
Proof. intros Hz; destruct (print_int_spec z Hz) as (Hn & Hd & _); apply digits_start_solid; auto. Qed.

Lemma print_int_solid_rev z : in_int z -> starts_solid (rev (print_int z)).
Proof.
  intros Hz; destruct (print_int_spec z Hz) as (Hn & Hd & _); apply digits_start_solid.
  - intros E; apply Hn; rewrite <- (rev_involutive (print_int z)), E; reflexivity.
  - rewrite forallb_rev; exact Hd.
Qed.

Lemma print_version_solid v : valid v ->
  starts_solid (print_version v) /\ starts_solid (rev (print_version v)).
Proof.
  intros (HM & Hm & Hp & Hr); unfold print_version; split.
  - apply starts_solid_app, print_int_solid, HM.
  - rewrite !rev_app_distr, <- !app_assoc.
    destruct (Prerelease v) as [|c p] eqn:E; cbn [rev app].
    + rewrite !app_assoc; do 4 apply starts_solid_app; apply print_int_solid_rev, Hp.
    + apply starts_solid_app; rewrite rev_app_distr; apply starts_solid_app.
      destruct (rev (c :: p)) as [|x l] eqn:E'; [|exact Hr].
      apply (f_equal (@List.length _)) in E'; rewrite length_rev in E'; discriminate.
Qed.

Lemma ParseVersion_print pre v post :
  forallb iswspace pre = true -> forallb iswspace post = true -> valid v ->
  ParseVersion (pre ++ print_version v ++ post) = Ok (Some v).
Proof.
  intros Hpre Hpost Hv; destruct (print_version_solid v Hv) as [Hs Hs'].
  unfold ParseVersion; rewrite Trim_solid by assumption.
  destruct (print_version v) as [|c0 l0] eqn:E0; [contradiction|]; rewrite <- E0; clear Hs Hs'.
  destruct Hv as (HM & Hm & Hp & Hr); unfold print_version.
  rewrite ParseInt_print by (assumption || reflexivity); cbn [rbind].
  change (L "." ++ print_int (Minor v) ++ ?t) with (ch "." :: print_int (Minor v) ++ t).
  cbn [expect]; rewrite Z.eqb_refl; rewrite ParseInt_print by (assumption || reflexivity).
  cbn [rbind]; change (L "." ++ print_int (Patch v) ++ ?t) with (ch "." :: print_int (Patch v) ++ t).
  cbn [expect]; rewrite Z.eqb_refl; rewrite ParseInt_print;
    [cbn [rbind]|assumption|destruct (Prerelease v); [exact I|reflexivity]].
  destruct v as [M m p [|c r]]; reflexivity.
Qed.

(** ** Constraints and expressions *)

(** A version that can stand in an expression: no separator inside. *)
Definition embeddable (v : SemanticVersion) : Prop :=
  valid v /\ forallb (fun c => negb (separator c)) (Prerelease v) = true.

Lemma digit_not_separator c : is_digit c = true -> separator c = false.
Proof.
  intros Hd; unfold separator; rewrite digit_not_space by exact Hd.
  apply is_digit_spec in Hd; change (ch ",") with 44; destruct (Z.eqb_spec c 44); [lia|reflexivity].
Qed.

Lemma digits_no_separator ds : forallb is_digit ds = true ->
  forallb (fun c => negb (separator c)) ds = true.
Proof.
  intros Hd; rewrite forallb_forall in *; intros c Hc.
  rewrite digit_not_separator by (apply Hd, Hc); reflexivity.
Qed.

Lemma ascii_not_separator c : is_ascii c = true -> ascii_space c = false -> c <> 44 ->
  separator c = false.
Proof.
  intros Ha Hs Hc; unfold separator; rewrite iswspace_ascii, Hs by exact Ha.
  apply Z.eqb_neq, Hc.
Qed.

Lemma constraint_no_separator c : embeddable (Version c) ->
  forallb (fun x => negb (separator x)) (print_constraint c) = true.
Proof.
  intros [(HM & Hm & Hp & _) Hr]; unfold print_constraint, print_version.
  rewrite !forallb_app.
  assert (Hi : forall z, in_int z -> forallb (fun x => negb (separator x)) (print_int z) = true)
    by (intros z Hz; apply digits_no_separator, (print_int_spec z Hz)).
  rewrite !Hi by assumption.
  assert (Hdot : forallb (fun x => negb (separator x)) (L ".") = true)
    by (cbn; rewrite ascii_not_separator by (reflexivity || discriminate); reflexivity).
  assert (Hpre : forallb (fun x => negb (separator x))
            match Prerelease (Version c) with [] => [] | _ :: _ => L "-" ++ Prerelease (Version c) end
            = true).
  { destruct (Prerelease (Version c)); [reflexivity|]; rewrite forallb_app, Hr, andb_true_r.
    cbn; rewrite ascii_not_separator by (reflexivity || discriminate); reflexivity. }
  rewrite Hdot, Hpre; cbn [andb]; rewrite andb_true_r.
  destruct (Op c); cbn; rewrite ?ascii_not_separator by (reflexivity || discriminate); reflexivity.
Qed.

Lemma ParseOperator_print op w : starts_solid w ->
  match w with c :: _ => is_digit c = true | [] => False end ->
  ParseOperator (print_operator op ++ w) = (op, w).
Proof.
  intros _ Hw; destruct w as [|c w]; [contradiction|]; apply is_digit_spec in Hw.
  assert (Hn : forall x, (x <? 48) || (57 <? x) = true -> (c =? x) = false).
  { intros x Hx; apply Z.eqb_neq; apply orb_true_iff in Hx as [Hx|Hx]; apply Z.ltb_lt in Hx; lia. }
  destruct op; cbn; rewrite ?Hn by reflexivity; reflexivity.
Qed.

Lemma print_version_digit v : valid v ->
  match print_version v with c :: _ => is_digit c = true | [] => False end.
Proof.
  intros (HM & _); unfold print_version; destruct (print_int_spec _ HM) as (Hn & Hd & _).
  destruct (print_int (Major v)) as [|c l]; [contradiction|].
  cbn in Hd; apply andb_true_iff in Hd as [Hd _]; exact Hd.
Qed.

Lemma print_constraint_solid c : valid (Version c) ->
  starts_solid (print_constraint c) /\ starts_solid (rev (print_constraint c)).
Proof.
  intros Hv; destruct (print_version_solid _ Hv) as [Hs Hs']; unfold print_constraint; split.
  - destruct (Op c); cbn; [exact Hs|..];
      unfold solid; rewrite iswspace_ascii by reflexivity; reflexivity.
  - rewrite rev_app_distr; apply starts_solid_app, Hs'.
Qed.

Lemma ParseConstraint_print c : valid (Version c) ->
  ParseConstraint (print_constraint c) = Ok (Some c).
Proof.
  intros Hv; destruct (print_constraint_solid c Hv) as [Hs Hs'].
  unfold ParseConstraint.
  pose proof (Trim_solid [] (print_constraint c) [] eq_refl eq_refl Hs Hs') as ET.
  cbn [app] in ET; rewrite app_nil_r in ET; rewrite ET.
  destruct (print_constraint c) as [|x l] eqn:E; [contradiction|]; rewrite <- E; unfold print_constraint.
  rewrite ParseOperator_print by (apply print_version_solid || apply print_version_digit; exact Hv).
  pose proof (ParseVersion_print [] (Version c) [] eq_refl eq_refl Hv) as EV.
  cbn [app] in EV; rewrite app_nil_r in EV; rewrite EV; destruct c; reflexivity.
Qed.

Lemma skip_separators_app sp w : forallb separator sp = true ->
  match w with c :: _ => separator c = false | [] => True end -> skip_separators (sp ++ w) = w.
Proof.
  intros Hs Hw; induction sp as [|c sp IH]; cbn in *.
  - destruct w as [|c w]; [reflexivity|]; cbn; rewrite Hw; reflexivity.
  - apply andb_true_iff in Hs as [-> Hs]; auto.
Qed.

Lemma take_word_app w c rest : forallb (fun c => negb (separator c)) w = true ->
  separator c = true -> take_word (w ++ c :: rest) = (w, c :: rest).
Proof.
  intros Hw Hc; induction w as [|x w IH]; cbn in *; [rewrite Hc; reflexivity|].
  apply andb_true_iff in Hw as [Hx Hw]; apply negb_true_iff in Hx; rewrite Hx, IH by exact Hw.
  reflexivity.
Qed.

Lemma separators_list : separator (ch ",") = true /\ separator (ch " ") = true.
Proof.
  unfold separator; split; [rewrite orb_true_r; reflexivity|].
  rewrite iswspace_ascii by reflexivity; reflexivity.
Qed.

Lemma Parse_loop_print cs : forall n sp acc,
  Forall (fun c => embeddable (Version c)) cs -> forallb separator sp = true ->
  (List.length (sp ++ print_expression cs) < n)%nat ->
  Parse_loop n (sp ++ print_expression cs) acc = Some (Ok (Some (acc ++ cs))).
Proof.
  destruct separators_list as [Hcomma Hspace].
  induction cs as [|c cs IH]; intros n sp acc Hcs Hsp Hn; (destruct n as [|n]; [lia|]).
  - cbn [print_expression flat_map] in *; rewrite !app_nil_r; cbn [Parse_loop].
    destruct sp as [|x sp]; [reflexivity|].
    rewrite <- (app_nil_r (x :: sp)), skip_separators_app by (exact Hsp || exact I); reflexivity.
  - apply List.Forall_cons_iff in Hcs as [Hc Hcs]; pose proof (constraint_no_separator c Hc) as Hw.
    destruct (print_constraint_solid c (proj1 Hc)) as [Hs _].
    pose proof (ParseConstraint_print c (proj1 Hc)) as EC.
    cbn [print_expression flat_map] in *; fold (print_expression cs) in *.
    rewrite <- app_assoc in *; change (L ", ") with ([ch ","; ch " "]) in *.
    cbn [app] in *; destruct (print_constraint c) as [|x w] eqn:E; [contradiction|].
    assert (Hlen : (List.length ([ch ","; ch " "] ++ print_expression cs) < n)%nat)
      by (rewrite length_app in Hn; cbn in Hn |- *; rewrite length_app in Hn; cbn in Hn; lia).
    pose proof (skip_separators_app sp ((x :: w) ++ ch "," :: ch " " :: print_expression cs) Hsp
      ltac:(cbn in Hw |- *; apply andb_true_iff in Hw as [Hx _]; apply negb_true_iff, Hx)) as ES.
    pose proof (take_word_app (x :: w) (ch ",") (ch " " :: print_expression cs) Hw Hcomma) as ET.
    pose proof (IH n [ch ","; ch " "] (acc ++ [c]) Hcs
      ltac:(cbn [forallb]; rewrite Hcomma, Hspace; reflexivity) Hlen) as EI.
    rewrite <- app_assoc in EI; cbn [app] in ES, ET, EI |- *.
    cbn [Parse_loop]; rewrite ES, ET, EC, EI; destruct sp; reflexivity.
Qed.

Lemma take_word_length text : forall word rest, take_word text = (word, rest) ->
  (List.length rest <= List.length text)%nat.
Proof.
  induction text as [|c text IH]; cbn; [intros ? ? [= <- <-]; cbn; lia|].
  destruct (separator c); [intros ? ? [= <- <-]; cbn; lia|].
  destruct (take_word text) as [w r]; intros ? ? [= <- <-]; specialize (IH w r eq_refl); lia.
Qed.

Lemma skip_separators_head text c l : skip_separators text = c :: l ->
  separator c = false /\ (List.length (c :: l) <= List.length text)%nat.
Proof.
  induction text as [|x text IH]; cbn; [discriminate|].
  destruct (separator x) eqn:Ex; [intros E; specialize (IH E); cbn in IH; lia || (destruct IH; split; [assumption|cbn; lia])|].
  intros [= -> ->]; split; [exact Ex|cbn; lia].
Qed.

Lemma Parse_loop_total n : forall text acc, (List.length text < n)%nat ->
  Parse_loop n text acc <> None.
Proof.
  induction n as [|n IH]; intros text acc Hn; [lia|]; cbn [Parse_loop].
  destruct text as [|c0 text0] eqn:Et; [discriminate|]; rewrite <- Et in *; clear Et c0 text0.
  destruct (skip_separators text) as [|c l] eqn:Es; [discriminate|].
  apply skip_separators_head in Es as [Hc Hl]; cbn [take_word]; rewrite Hc.
  destruct (take_word l) as [w r] eqn:Et; apply take_word_length in Et.
  destruct (ParseConstraint (c :: w)) as [[k|]|m|]; try discriminate.
  apply IH; cbn in Hl; lia.
Qed.

Lemma Trim_digits w : starts_solid w -> starts_solid (rev w) -> Trim w = w.
Proof.
  intros Hs Hs'; pose proof (Trim_solid [] w [] eq_refl eq_refl Hs Hs') as E.
  cbn [app] in E; rewrite app_nil_r in E; exact E.
Qed.

(** ** The properties *)

(** C31: Printing a version and parsing the text gives the version back, whatever
    white space surrounds it: numbers up to [INT_MAX] and any prerelease that
    does not end in a space. *)
Theorem version_roundtrip (pre post : wstring) (v : SemanticVersion) :
  forallb iswspace pre = true -> forallb iswspace post = true -> valid v ->
  ParseVersion (pre ++ print_version v ++ post) = Ok (Some v).
Proof. apply ParseVersion_print. Qed.

(** C33: Printing a version expression and parsing it gives its constraints back
    in order, for every operator. *)
Theorem expression_roundtrip (cs : list Constraint) :
  cs <> [] -> Forall (fun c => embeddable (Version c)) cs ->
  Parse (print_expression cs) = Some (Ok (Some cs)).
Proof.
  intros Hne Hcs; unfold Parse.
  rewrite (Parse_loop_print cs _ [] [] Hcs eq_refl) by (cbn; lia).
  destruct cs; [contradiction|reflexivity].
Qed.

(** Parsing any expression ends. *)
Theorem expression_parse_total (text : wstring) : exists r, Parse text = Some r.
Proof.
  pose proof (Parse_loop_total (S (List.length text)) text [] ltac:(lia)) as Ht; unfold Parse.
  destruct (Parse_loop (S (List.length text)) text []) as [[[[|c cs]|]|m|]|]; eauto; contradiction.
Qed.

(** A number past [INT_MAX] in a version text is a signed overflow, not a
    rejected version. *)
Theorem version_number_overflow (ds rest : wstring) :
  forallb is_digit ds = true -> INT_MAX < decimal ds -> starts_solid (rev (ch "." :: rest)) ->
  ParseVersion (ds ++ ch "." :: rest) = UB.
Proof.
  intros Hd Hbig Hr.
  assert (Hne : ds <> []) by (intros ->; unfold decimal, INT_MAX in Hbig; cbn in Hbig; lia).
  unfold ParseVersion; rewrite Trim_digits.
  - destruct ds as [|c ds]; [contradiction|]; cbn [app]; change (c :: ds ++ ?t) with ((c :: ds) ++ t).
    rewrite (ParseInt_spec (c :: ds)) by (assumption || reflexivity).
    destruct (Z.leb_spec (decimal (c :: ds)) INT_MAX); [lia|reflexivity].
  - apply starts_solid_app, digits_start_solid; assumption.
  - rewrite rev_app_distr; apply starts_solid_app, Hr.
Qed.
End WithLocale.

(** The comparison of versions is a strict total order up to the prerelease:
    transitive, irreflexive, and of two versions one is smaller or they have
    the same three numbers; the six operators are consistent with it. *)
Theorem version_order (a b c : SemanticVersion) :
  (lt a b = true -> lt b c = true -> lt a c = true)
  /\ lt a a = false
  /\ (lt a b = true \/ eq a b = true \/ lt b a = true)
  /\ (eq a b = true <-> lt a b = false /\ lt b a = false)
  /\ gt a b = lt b a /\ le a b = (lt a b || eq a b) /\ ge a b = (lt b a || eq a b)
  /\ ne a b = negb (eq a b).
Proof.
  assert (Heq : eq a b = true <-> lt a b = false /\ lt b a = false).
  { rewrite eq_spec, !lt_false; unfold core; split; [intros [= -> -> ->]; lia|].
    intros [H1 H2]; f_equal; [f_equal|]; lia. }
  assert (Hasym : lt a b = true -> lt b a = false) by (rewrite lt_false, lt_spec; lia).
  assert (Hasym' : lt b a = true -> lt a b = false) by (rewrite lt_false, lt_spec; lia).
  split; [rewrite !lt_spec; lia|split; [rewrite lt_false; lia|split; [|split; [exact Heq|]]]].
  - destruct (lt a b) eqn:E1, (lt b a) eqn:E2; try tauto; right; left; apply Heq; auto.
  - unfold gt, le, ge, ne; clear - Heq Hasym; destruct Heq as [Q1 Q2].
    destruct (lt a b), (lt b a), (eq a b); repeat split; try reflexivity; exfalso;
      solve [ discriminate (Hasym eq_refl) | discriminate (proj1 (Q1 eq_refl))
            | discriminate (proj2 (Q1 eq_refl)) | discriminate (Q2 (conj eq_refl eq_refl)) ].
Qed.

(** C34: The caret and the tilde mean the intervals the source documents:
    [^] lets the version grow below the next major, minor or patch number,
    whichever is the first non-zero one, and [~] below the next minor; both
    agree with the expression [>=] lower bound, [<] upper bound. *)
Theorem range_operators_expand (v x u w : SemanticVersion) :
  0 <= Major v < INT_MAX -> 0 <= Minor v < INT_MAX -> 0 <= Patch v < INT_MAX ->
  core u = (if 0 <? Major v then (Major v + 1, 0, 0)
            else if 0 <? Minor v then (0, Minor v + 1, 0) else (0, 0, Patch v + 1)) ->
  core w = (Major v, Minor v + 1, 0) ->
  Satisfies [mkConstraint Compatible v] x
    = Satisfies [mkConstraint GreaterOrEqual v; mkConstraint Less u] x
  /\ Satisfies [mkConstraint Approximately v] x
    = Satisfies [mkConstraint GreaterOrEqual v; mkConstraint Less w] x.
Proof.
  intros HM Hm Hp Hu Hw.
  assert (Hlt : forall y z, core y = core z -> lt x y = lt x z)
    by (unfold core, lt; intros y z [= -> -> ->]; reflexivity).
  cbn [Satisfies satisfies Op Version rbind]; unfold ge; destruct (lt x v); cbn [negb rbind];
    [split; reflexivity|].
  unfold compatible_upper, approximately_upper.
  assert (HM' := increment_ok (Major v)); assert (Hm' := increment_ok (Minor v)).
  assert (Hp' := increment_ok (Patch v)).
  rewrite Hm' by lia; rewrite (Hlt w (mkVersion (Major v) (Minor v + 1) 0 (Prerelease v)))
    by exact Hw.
  split; [|reflexivity].
  destruct (Z.ltb_spec 0 (Major v)); [rewrite HM' by lia; erewrite (Hlt u); [reflexivity|exact Hu]|].
  assert (E0 : Major v = 0) by lia.
  destruct (Z.ltb_spec 0 (Minor v)).
  - cbn [rbind]; rewrite E0 in *; erewrite (Hlt u); [reflexivity|exact Hu].
  - assert (E1 : Minor v = 0) by lia; rewrite Hp' by lia; rewrite E0, E1 in *.
    erewrite (Hlt u); [reflexivity|exact Hu].
Qed.

(** An expression is satisfied exactly when each of its constraints is, so
    the order they are written in does not matter, and two versions that
    differ in the prerelease only satisfy the same expressions. *)
Theorem satisfies_conjunction (cs ds : list Constraint) (x y : SemanticVersion) :
  (Satisfies cs x = Ok true <-> Forall (fun c => satisfies c x = Ok true) cs)
  /\ (cs ≡ₚ ds -> Satisfies cs x = Ok true -> Satisfies ds x = Ok true)
  /\ (core x = core y -> Satisfies cs x = Satisfies cs y).
Proof.
  split; [apply Satisfies_true|split].
  - intros Hp; rewrite !Satisfies_true; intros Hc; rewrite <- Hp; exact Hc.
  - intros E; assert (Hl : forall c, lt x c = lt y c) by
      (unfold lt, core in *; injection E as -> -> ->; reflexivity).
    assert (Hr : forall c, lt c x = lt c y) by
      (unfold lt, core in *; injection E as -> -> ->; reflexivity).
    assert (He : forall c, eq x c = eq y c) by
      (unfold eq, core in *; injection E as -> -> ->; reflexivity).
    induction cs as [|c cs IH]; [reflexivity|]; cbn [Satisfies]; rewrite IH.
    unfold satisfies, gt, ge, le, ne; rewrite !Hl, !Hr, !He.
    destruct (Op c); try reflexivity; destruct (lt y (Version c)); try reflexivity;
      [destruct (compatible_upper (Version c))|destruct (approximately_upper (Version c))];
      cbn; rewrite ?Hl; reflexivity.
Qed.

(** ** Instances *)

Definition v123 : SemanticVersion := mkVersion 1 2 3 (L "rc1").

Lemma v123_embeddable : @embeddable classic v123.
Proof.
  split; [|reflexivity]; repeat split; vm_compute; discriminate || reflexivity.
Qed.

Lemma version_roundtrip_witness :
  @ParseVersion classic (L "  " ++ print_version v123 ++ L " ") = Ok (Some v123).
Proof.
  apply (@version_roundtrip classic classic_laws); [reflexivity|reflexivity|apply v123_embeddable].
Defined.

Lemma expression_roundtrip_witness :
  @Parse classic (print_expression [mkConstraint Compatible v123; mkConstraint LessOrEqual v123])
    = Some (Ok (Some [mkConstraint Compatible v123; mkConstraint LessOrEqual v123])).
Proof.
  apply (@expression_roundtrip classic classic_laws); [discriminate|].
  repeat constructor; apply v123_embeddable.
Defined.

Lemma version_number_overflow_witness :
  @ParseVersion classic (L "2147483648" ++ ch "." :: L "0.0") = UB.
Proof. apply (@version_number_overflow classic classic_laws); reflexivity. Defined.

Lemma version_order_witness :
  lt (mkVersion 1 2 3 []) (mkVersion 2 0 0 []) = true.
Proof.
  apply (proj1 (version_order (mkVersion 1 2 3 []) (mkVersion 1 3 0 []) (mkVersion 2 0 0 [])));
    reflexivity.
Defined.

Lemma range_operators_expand_witness :
  Satisfies [mkConstraint Compatible (mkVersion 0 2 3 [])] (mkVersion 0 2 9 [])
    = Satisfies [mkConstraint GreaterOrEqual (mkVersion 0 2 3 []);
                 mkConstraint Less (mkVersion 0 3 0 [])] (mkVersion 0 2 9 [])
  /\ Satisfies [mkConstraint Approximately (mkVersion 0 2 3 [])] (mkVersion 0 2 9 [])
    = Satisfies [mkConstraint GreaterOrEqual (mkVersion 0 2 3 []);
                 mkConstraint Less (mkVersion 0 3 0 [])] (mkVersion 0 2 9 []).
Proof. apply range_operators_expand; cbn; reflexivity || (unfold INT_MAX; lia). Defined.

Lemma satisfies_conjunction_witness :
  Satisfies [mkConstraint Equal v123] (mkVersion 1 2 3 []) = Satisfies [mkConstraint Equal v123] v123.
Proof.
  apply (satisfies_conjunction [mkConstraint Equal v123] [] (mkVersion 1 2 3 []) v123); reflexivity.
Defined.
