(* ===== verification/Libraries.v ===== *)
(** * Library resolution

    The dependency resolution of CompilationContext
    (src/CompilationContext.cpp, [ResolveLibraryDependencies]): every
    dependency is bound to the best matching library, and the libraries are
    put in load order by Kahn's algorithm.  A pointer to a library is its
    index in the vector of libraries; [false] with a diagnostic is [inl] of
    the message. *)
From Stdlib Require Import ZArith Lia Bool List String.
From stdpp Require Import base list gmap.
From S2P Require Import Prelude Reader SemVer.
Import ListNotations.
Open Scope Z_scope.
Open Scope shard_scope.

Module Libraries.
Record ResolvedLibrary := mkLibrary {
  Path : wstring;
  Name : wstring;
  Description : wstring;
  Version : wstring;
  Dependencies : list (wstring * wstring)
}.

Record LibraryDependency := mkDependency {
  Source : nat;
  DependencyName : wstring;
  VersionExpression : wstring;
  Target : nat
}.

Definition no_library : ResolvedLibrary := mkLibrary [] [] [] [] [].
Definition library (libraries : list ResolvedLibrary) (i : nat) : ResolvedLibrary :=
  nth i libraries no_library.

Definition is_empty (w : wstring) : bool := match w with [] => true | _ :: _ => false end.

(** [GetLibraryDisplayName] *)
Definition GetLibraryDisplayName (lib : option ResolvedLibrary) : wstring :=
  match lib with
  | None => L "<unknown>"
  | Some lib =>
      if negb (is_empty (Name lib)) then
        if negb (is_empty (Version lib)) then Name lib ++ L "@" ++ Version lib else Name lib
      else Path lib
  end.

(** [std::unordered_multimap]: the elements under a key, in an order the
    standard leaves open. *)
Class Multimap := {
  equal_range : list (wstring * nat) -> wstring -> list nat;
  equal_range_spec : forall m k,
    equal_range m k ≡ₚ map snd (List.filter (fun e => fst e =w k) m)
}.

(** The multimap that keeps the insertion order. *)
#[global] Program Definition insertion_order : Multimap :=
  {| equal_range m k := map snd (List.filter (fun e => fst e =w k) m) |}.
Next Obligation. reflexivity. Qed.

(** [librariesByName] *)
Definition librariesByName (libraries : list ResolvedLibrary) : list (wstring * nat) :=
  map (fun i => (Name (library libraries i), i))
    (List.filter (fun i => negb (is_empty (Name (library libraries i))))
       (seq 0 (List.length libraries))).

Section Resolve.
Context `{Locale} `{Multimap}.
Variable libraries : list ResolvedLibrary.

(** The version of a candidate, [0.0.0] when it has none. *)
Definition version_text (i : nat) : wstring :=
  let version := Version (library libraries i) in
  if negb (is_empty version) then version else L "0.0.0".

(** The loop that keeps the best match. *)
Fixpoint best_match (expr : option (list SemVer.Constraint)) (bestMatch : option nat)
    (range : list nat) : result (option nat) :=
  match range with
  | [] => Ok bestMatch
  | candidate :: range =>
      matches <-? match expr with
                  | None => Ok true
                  | Some expr =>
                      candidateVersion <-? SemVer.ParseVersion (version_text candidate) ;;
                      match candidateVersion with
                      | None => Ok false
                      | Some v => SemVer.Satisfies expr v
                      end
                  end ;;
      if negb matches then best_match expr bestMatch range else
      match bestMatch with
      | None => best_match expr (Some candidate) range
      | Some best =>
          bestVersion <-? SemVer.ParseVersion (version_text best) ;;
          candidateVersion <-? SemVer.ParseVersion (version_text candidate) ;;
          match bestVersion, candidateVersion with
          | Some b, Some c =>
              best_match expr (Some (if SemVer.gt c b then candidate else best)) range
          | _, _ => best_match expr (Some best) range
          end
      end
  end.

(** The body of the loop over the dependencies of a library. *)
Definition resolve_dependency (lib : nat) (dep : wstring * wstring)
    : fueled (wstring + LibraryDependency) :=
  let (depName, dep_expr) := dep in
  let versionExpr := if negb (is_empty dep_expr) then dep_expr else L "*" in
  let display := GetLibraryDisplayName (Some (library libraries lib)) in
  match equal_range (librariesByName libraries) depName with
  | [] => done (inl (L "Library '" ++ display ++ L "' depends on '" ++ depName
                     ++ L "' which was not found."))
  | (_ :: _) as range =>
      parsed <-! (if negb (versionExpr =w L "*")
                  then match SemVer.Parse versionExpr with
                       | Some (Ok (Some e)) => done (Some (Some e))
                       | Some (Ok None) => done None
                       | Some (Throw m) => Some (Throw m)
                       | Some UB => Some UB
                       | None => None
                       end
                  else done (Some None)) ;;
      match parsed with
      | None => done (inl (L "Library '" ++ display ++ L "' has invalid version expression '"
                           ++ versionExpr ++ L "' for dependency '" ++ depName ++ L "'."))
      | Some expr =>
          best <-! Some (best_match expr None range) ;;
          match best with
          | None => done (inl (L "Library '" ++ display ++ L "' requires '" ++ depName ++ L " "
                               ++ versionExpr ++ L "' but no matching version was found."))
          | Some target => done (inr (mkDependency lib depName versionExpr target))
          end
      end
  end.

(** The two nested loops: [resolved] is the vector built so far. *)
Fixpoint resolve_dependencies (lib : nat) (deps : list (wstring * wstring))
    (resolved : list LibraryDependency) : fueled (wstring + list LibraryDependency) :=
  match deps with
  | [] => done (inr resolved)
  | dep :: deps =>
      r <-! resolve_dependency lib dep ;;
      match r with
      | inl message => done (inl message)
      | inr d => resolve_dependencies lib deps (resolved ++ [d])
      end
  end.

Fixpoint resolve_libraries (libs : list nat) (resolved : list LibraryDependency)
    : fueled (wstring + list LibraryDependency) :=
  match libs with
  | [] => done (inr resolved)
  | lib :: libs =>
      r <-! resolve_dependencies lib (Dependencies (library libraries lib)) resolved ;;
      match r with
      | inl message => done (inl message)
      | inr resolved => resolve_libraries libs resolved
      end
  end.

(** ** Kahn's algorithm *)

(** [map[key]] of a [std::unordered_map] with a numeric value. *)
Definition at_or_zero (m : gmap nat Z) (k : nat) : Z := default 0 (m !! k).
Definition size_t (z : Z) : Z := z mod 2 ^ 64.

Definition indices : list nat := seq 0 (List.length libraries).

(** The graph: [edges] and [inDegree]. *)
Definition zero_degrees : gmap nat Z :=
  fold_left (fun m i => <[ i := 0 ]> m) indices ∅.
Definition add_edge (g : gmap nat (list nat) * gmap nat Z) (dep : LibraryDependency)
    : gmap nat (list nat) * gmap nat Z :=
  let (edges, inDegree) := g in
  (<[ Target dep := default [] (edges !! Target dep) ++ [Source dep] ]> edges,
   <[ Source dep := size_t (at_or_zero inDegree (Source dep) + 1) ]> inDegree).
Definition build_graph (resolved : list LibraryDependency)
    : gmap nat (list nat) * gmap nat Z :=
  fold_left add_edge resolved (∅, zero_degrees).

(** The loop over the dependents of the library taken from the queue. *)
Fixpoint release (dependents : list nat) (inDegree : gmap nat Z) (queue : list nat)
    : gmap nat Z * list nat :=
  match dependents with
  | [] => (inDegree, queue)
  | dependent :: dependents =>
      let degree := size_t (at_or_zero inDegree dependent - 1) in
      release dependents (<[ dependent := degree ]> inDegree)
        (if degree =? 0 then queue ++ [dependent] else queue)
  end.

(** The [while] loop over the queue. *)
Fixpoint kahn (n : nat) (edges : gmap nat (list nat)) (inDegree : gmap nat Z)
    (queue loadOrder : list nat) : option (gmap nat Z * list nat) :=
  match n with
  | O => None
  | S n =>
      match queue with
      | [] => Some (inDegree, loadOrder)
      | current :: queue =>
          let loadOrder := loadOrder ++ [current] in
          match edges !! current with
          | Some dependents =>
              let (inDegree, queue) := release dependents inDegree queue in
              kahn n edges inDegree queue loadOrder
          | None => kahn n edges inDegree queue loadOrder
          end
      end
  end.

Definition circular_message (cycleNode : option nat) : wstring :=
  let cycleNodeName :=
    GetLibraryDisplayName (match cycleNode with Some i => Some (library libraries i) | None => None end) in
  L "Circular library dependency detected"
  ++ (if is_empty cycleNodeName then [] else L " involving '" ++ cycleNodeName ++ L "'") ++ L ".".

(** The topological sort. *)
Definition load_order (resolved : list LibraryDependency) : option (wstring + list nat) :=
  let (edges, inDegree) := build_graph resolved in
  let queue := List.filter (fun i => at_or_zero inDegree i =? 0) indices in
  match kahn (S (List.length libraries)) edges inDegree queue [] with
  | None => None
  | Some (inDegree, loadOrder) =>
      if negb (Nat.eqb (List.length loadOrder) (List.length libraries)) then
        Some (inl (circular_message (List.find (fun i => 0 <? at_or_zero inDegree i) indices)))
      else Some (inr loadOrder)
  end.

(** [ResolveLibraryDependencies] *)
Definition ResolveLibraryDependencies
    : fueled (wstring + list nat * list LibraryDependency) :=
  r <-! resolve_libraries indices [] ;;
  match r with
  | inl message => done (inl message)
  | inr resolved =>
      match load_order resolved with
      | None => None
      | Some (inl message) => done (inl message)
      | Some (inr loadOrder) => done (inr (loadOrder, resolved))
      end
  end.
End Resolve.
End Libraries.
