(* ===== verification/LibrariesFacts.v ===== *)
(** * Kahn's algorithm and the best match

    The invariant of the load-order loop of [ResolveLibraryDependencies], and
    what the loop over candidate versions keeps. *)
From Stdlib Require Import ZArith Lia Bool List String.
From stdpp Require Import base list gmap.
From S2P Require Import Prelude Reader SemVer SemVerSpec Libraries.
Import ListNotations Libraries.
Open Scope Z_scope.
Open Scope shard_scope.

(** ** Counting *)

Definition sources_of (deps : list LibraryDependency) (t : nat) : list nat :=
  map Source (List.filter (fun d => Nat.eqb (Target d) t) deps).

Definition mem (i : nat) (l : list nat) : bool := existsb (Nat.eqb i) l.

Lemma mem_In i l : mem i l = true <-> In i l.
Proof.
  unfold mem; rewrite existsb_exists; split.
  - intros (x & Hx & E); apply Nat.eqb_eq in E as ->; exact Hx.
  - intros Hi; exists i; split; [exact Hi|apply Nat.eqb_refl].
Qed.

(** The dependencies of [i] whose target is not loaded yet. *)
Definition pending (deps : list LibraryDependency) (loaded : list nat) (i : nat) : nat :=
  List.length (List.filter (fun d => Nat.eqb (Source d) i && negb (mem (Target d) loaded)) deps).

Definition occurs (i : nat) (l : list nat) : nat := count_occ Nat.eq_dec l i.

Lemma pending_load deps loaded c i : ~ In c loaded ->
  pending deps loaded i = (pending deps (loaded ++ [c]) i + occurs i (sources_of deps c))%nat.
Proof.
  intros Hc; unfold pending, sources_of, occurs.
  assert (Hmc : mem c loaded = false) by (apply not_true_is_false; rewrite mem_In; exact Hc).
  induction deps as [|d deps IH]; [reflexivity|]; cbn [List.filter].
  assert (Hm : mem (Target d) (loaded ++ [c]) = mem (Target d) loaded || Nat.eqb (Target d) c)
    by (unfold mem; rewrite existsb_app; cbn; rewrite orb_false_r; reflexivity).
  rewrite Hm; destruct (Nat.eqb_spec (Target d) c) as [Et|Et];
    [rewrite Et, Hmc|rewrite orb_false_r]; cbn [orb negb map count_occ andb].
  - destruct (Nat.eqb_spec (Source d) i) as [Es|Es]; cbn [andb map count_occ].
    + destruct (Nat.eq_dec (Source d) i); [|contradiction]; cbn [List.length]; lia.
    + destruct (Nat.eq_dec (Source d) i); [contradiction|]; lia.
  - destruct (Nat.eqb (Source d) i && negb (mem (Target d) loaded)); cbn [List.length]; lia.
Qed.

Lemma pending_zero deps loaded i : pending deps loaded i = 0%nat <->
  forall d, In d deps -> Source d = i -> In (Target d) loaded.
Proof.
  unfold pending; split.
  - intros E d Hd Hs; apply length_zero_iff_nil in E.
    destruct (mem (Target d) loaded) eqn:Em; [apply mem_In, Em|].
    assert (Hf : In d (List.filter (fun d => Nat.eqb (Source d) i
                && negb (mem (Target d) loaded)) deps))
      by (apply filter_In; rewrite Hs, Nat.eqb_refl, Em; auto).
    rewrite E in Hf; contradiction.
  - intros Hall; apply length_zero_iff_nil.
    destruct (List.filter _ deps) as [|d l] eqn:E; [reflexivity|exfalso].
    assert (Hd : In d (d :: l)) by (left; reflexivity); rewrite <- E in Hd.
    apply filter_In in Hd as [Hd Hb]; apply andb_true_iff in Hb as [Hs Hm].
    apply Nat.eqb_eq in Hs; apply negb_true_iff in Hm.
    apply Hall, mem_In in Hd; [congruence|exact Hs].
Qed.

Lemma pending_le deps loaded i : (pending deps loaded i <= List.length deps)%nat.
Proof. apply filter_length_le. Qed.

Lemma pending_snoc deps d loaded i :
  pending (deps ++ [d]) loaded i
  = (pending deps loaded i
     + (if Nat.eqb (Source d) i && negb (mem (Target d) loaded) then 1 else 0))%nat.
Proof.
  unfold pending; rewrite List.filter_app, length_app; cbn [List.filter].
  destruct (_ && _); reflexivity.
Qed.

(** ** The graph *)

Section Graph.
Variable libraries : list ResolvedLibrary.

Lemma zero_degrees_zero i : at_or_zero (zero_degrees libraries) i = 0.
Proof.
  unfold zero_degrees; assert (Hg : forall l m, at_or_zero m i = 0 ->
    at_or_zero (fold_left (fun (m : gmap nat Z) i => <[ i := 0 ]> m) l m) i = 0).
  { induction l as [|x l IH]; intros m Hm; [exact Hm|]; cbn; apply IH.
    unfold at_or_zero in *; destruct (decide (x = i)) as [->|Hx];
      [rewrite lookup_insert_eq; reflexivity|rewrite lookup_insert_ne by exact Hx; exact Hm]. }
  apply Hg; unfold at_or_zero; rewrite lookup_empty; reflexivity.
Qed.

Lemma build_graph_spec deps :
  Z.of_nat (List.length deps) < 2 ^ 64 ->
  let (edges, inDegree) := build_graph libraries deps in
  (forall t, default [] (edges !! t) = sources_of deps t)
  /\ (forall i, at_or_zero inDegree i = Z.of_nat (pending deps [] i)).
Proof.
  unfold build_graph; induction deps as [|d deps IH] using rev_ind; intros Hlen.
  - cbn; split; [reflexivity|intros i; apply zero_degrees_zero].
  - rewrite length_app in Hlen; cbn in Hlen; rewrite fold_left_app; cbn [fold_left].
    destruct (fold_left add_edge deps _) as [edges inDegree]; cbn [add_edge].
    destruct (IH ltac:(lia)) as [He Hd]; split.
    + intros t; unfold sources_of; rewrite List.filter_app, map_app; cbn [List.filter].
      fold (sources_of deps t); destruct (Nat.eqb_spec (Target d) t) as [->|Hne]; cbn.
      * rewrite lookup_insert_eq, He; reflexivity.
      * rewrite lookup_insert_ne, He, app_nil_r by exact Hne; reflexivity.
    + intros i; unfold at_or_zero in *; rewrite pending_snoc.
      pose proof (pending_le deps [] i) as Hle.
      destruct (Nat.eqb_spec (Source d) i) as [->|Hne]; cbn [mem existsb negb andb].
      * rewrite lookup_insert_eq; cbn [default]; unfold id; rewrite Hd.
        unfold size_t; rewrite Z.mod_small; lia.
      * rewrite lookup_insert_ne, Hd by exact Hne; f_equal; lia.
Qed.
End Graph.

(** ** Releasing the dependents of a library *)

Lemma release_spec dependents : forall inDegree queue,
  (forall i, Z.of_nat (occurs i dependents) <= at_or_zero inDegree i < 2 ^ 64) ->
  let (inDegree', queue') := release dependents inDegree queue in
  (forall i, at_or_zero inDegree' i = at_or_zero inDegree i - Z.of_nat (occurs i dependents))
  /\ exists released, queue' = queue ++ released /\ NoDup released
     /\ forall i, In i released <->
          In i dependents /\ at_or_zero inDegree i = Z.of_nat (occurs i dependents).
Proof.
  induction dependents as [|d ds IH]; intros m q Hm; cbn [release].
  - split; [intros i; cbn; lia|]; exists []; rewrite app_nil_r.
    split; [reflexivity|split; [constructor|]]; cbn; tauto.
  - assert (Hd : 0 < at_or_zero m d)
      by (specialize (Hm d); unfold occurs in Hm; cbn in Hm;
          destruct (Nat.eq_dec d d); [lia|contradiction]).
    assert (Hdeg : size_t (at_or_zero m d - 1) = at_or_zero m d - 1)
      by (unfold size_t; apply Z.mod_small; specialize (Hm d); lia).
    rewrite Hdeg; set (m' := <[ d := at_or_zero m d - 1 ]> m).
    assert (Hocc : forall i, occurs i (d :: ds) = ((if Nat.eq_dec d i then 1 else 0) + occurs i ds)%nat)
      by (intros i; unfold occurs; cbn; destruct (Nat.eq_dec d i); reflexivity).
    assert (Hm' : forall i, at_or_zero m' i = at_or_zero m i - (if Nat.eq_dec d i then 1 else 0)).
    { intros i; unfold m', at_or_zero at 1; destruct (Nat.eq_dec d i) as [<-|Hne];
        [rewrite lookup_insert_eq; reflexivity|].
      rewrite lookup_insert_ne by exact Hne; unfold at_or_zero; lia. }
    specialize (IH m' (if at_or_zero m d - 1 =? 0 then q ++ [d] else q)).
    destruct (release ds m' _) as [m2 q2]; destruct IH as [Hdeg2 (rel & Hq & Hnd & Hin)].
    { intros i; specialize (Hm i); rewrite Hocc in Hm; rewrite Hm'; destruct (Nat.eq_dec d i); lia. }
    split; [intros i; rewrite Hdeg2, Hm', Hocc; destruct (Nat.eq_dec d i); lia|].
    assert (Hzero : at_or_zero m d - 1 = 0 -> occurs d ds = 0%nat /\ ~ In d ds).
    { intros E; specialize (Hm d); rewrite Hocc in Hm; destruct (Nat.eq_dec d d); [|contradiction].
      assert (E0 : occurs d ds = 0%nat) by lia; split; [exact E0|].
      apply count_occ_not_In in E0; exact E0. }
    destruct (Z.eqb_spec (at_or_zero m d - 1) 0) as [E|E].
    + destruct (Hzero E) as [E0 Hnin]; exists (d :: rel).
      split; [rewrite Hq, <- app_assoc; reflexivity|split].
      * constructor; [|exact Hnd]; rewrite list_elem_of_In; rewrite Hin; tauto.
      * intros i; cbn [In]; rewrite Hin, Hm', Hocc.
        destruct (Nat.eq_dec d i) as [<-|Hne]; [intuition lia|].
        split; [intros [?|[? ?]]; [contradiction|split; [auto|lia]]|].
        intros [[?|?] ?]; [contradiction|right; split; [assumption|lia]].
    + exists rel; split; [exact Hq|split; [exact Hnd|]]; intros i; rewrite Hin, Hm', Hocc; cbn [In].
      destruct (Nat.eq_dec d i) as [<-|Hne].
      * split; [intros [? ?]; split; [auto|lia]|intros [_ Hc]].
        split; [|lia]; apply (count_occ_In Nat.eq_dec); fold (occurs d ds); lia.
      * split; [intros [? ?]; split; [auto|lia]|].
        intros [[?|?] ?]; [contradiction|split; [assumption|lia]].
Qed.

(** ** The invariant of the load-order loop *)

(** [ordered deps l]: every target comes before its source. *)
Definition ordered (deps : list LibraryDependency) (l : list nat) : Prop :=
  forall l1 s l2, l = l1 ++ s :: l2 -> forall d, In d deps -> Source d = s -> In (Target d) l1.

Record kahn_inv (deps : list LibraryDependency) (n : nat) (inDegree : gmap nat Z)
    (queue loaded : list nat) : Prop := {
  inv_nodup : NoDup (loaded ++ queue);
  inv_range : forall i, In i (loaded ++ queue) -> (i < n)%nat;
  inv_degree : forall i, at_or_zero inDegree i = Z.of_nat (pending deps loaded i);
  inv_ready : forall i, (i < n)%nat -> In i (loaded ++ queue) <-> pending deps loaded i = 0%nat;
  inv_ordered : ordered deps loaded
}.

Lemma ordered_snoc deps l c : ordered deps l ->
  (forall d, In d deps -> Source d = c -> In (Target d) l) -> ordered deps (l ++ [c]).
Proof.
  intros Ho Hc l1 s l2 E; destruct l2 as [|x l2] using rev_ind.
  - apply app_inj_tail in E as [<- <-]; exact Hc.
  - clear IHl2; rewrite app_comm_cons, app_assoc in E; apply app_inj_tail in E as [-> _].
    exact (Ho l1 s l2 eq_refl).
Qed.

Section Kahn.
Variables (deps : list LibraryDependency) (n : nat) (edges : gmap nat (list nat)).
Hypothesis deps_size : Z.of_nat (List.length deps) < 2 ^ 64.
Hypothesis deps_range : forall d, In d deps -> (Source d < n)%nat.
Hypothesis edges_spec : forall t, default [] (edges !! t) = sources_of deps t.

Lemma kahn_step inDegree current queue loaded :
  kahn_inv deps n inDegree (current :: queue) loaded ->
  let (inDegree', queue') := release (sources_of deps current) inDegree queue in
  kahn_inv deps n inDegree' queue' (loaded ++ [current]).
Proof.
  intros [Hnd Hrange Hdeg Hready Hord].
  assert (Hc : ~ In current loaded).
  { intros Hin; apply NoDup_app in Hnd as (_ & Hdis & _).
    apply list_elem_of_In in Hin; exact (Hdis _ Hin ltac:(left)). }
  assert (Hpend := fun i => pending_load deps loaded current i Hc).
  pose proof (release_spec (sources_of deps current) inDegree queue) as Hrel.
  destruct (release (sources_of deps current) inDegree queue) as [m' q'].
  destruct Hrel as [Hdeg' (rel & -> & Hndr & Hinr)].
  { intros i; rewrite Hdeg, Hpend; pose proof (pending_le deps loaded i) as Hle.
    rewrite Hpend in Hle; lia. }
  assert (Hrel : forall i, In i rel <->
            In i (sources_of deps current) /\ pending deps (loaded ++ [current]) i = 0%nat).
  { intros i; rewrite Hinr, Hdeg, Hpend; intuition lia. }
  assert (Hsrc : forall i, In i (sources_of deps current) -> (i < n)%nat).
  { intros i Hi; unfold sources_of in Hi; apply in_map_iff in Hi as (d & <- & Hd).
    apply List.filter_In in Hd as [Hd _]; apply deps_range, Hd. }
  assert (Hnew : forall i, In i rel -> ~ In i (loaded ++ current :: queue)).
  { intros i Hi Hin; pose proof Hi as Hi'; apply Hrel in Hi' as [Hs _].
    apply Hready in Hin; [|apply Hsrc, Hs]; rewrite Hpend in Hin.
    apply (count_occ_In Nat.eq_dec) in Hs; unfold occurs in Hin; lia. }
  assert (Happ : (loaded ++ [current]) ++ queue ++ rel = (loaded ++ current :: queue) ++ rel)
    by (rewrite <- !app_assoc; reflexivity).
  split; rewrite ?Happ.
  - apply NoDup_app; split; [exact Hnd|split; [|exact Hndr]].
    intros x Hx Hx'; rewrite list_elem_of_In in Hx, Hx'; exact (Hnew x Hx' Hx).
  - intros i Hi; apply in_app_or in Hi as [Hi|Hi]; [apply Hrange, Hi|].
    apply Hrel in Hi as [Hi _]; apply Hsrc, Hi.
  - intros i; rewrite Hdeg', Hdeg, Hpend; lia.
  - intros i Hi; rewrite in_app_iff, Hrel, (Hready i Hi), Hpend; split; [lia|].
    intros E; destruct (occurs i (sources_of deps current)) as [|k] eqn:Eo; [left; lia|].
    right; split; [|exact E]; apply (count_occ_In Nat.eq_dec); unfold occurs in Eo; lia.
  - apply ordered_snoc; [exact Hord|]; apply pending_zero, Hready.
    + apply Hrange, in_or_app; right; left; reflexivity.
    + apply in_or_app; right; left; reflexivity.
Qed.

Lemma kahn_inv_length inDegree queue loaded :
  kahn_inv deps n inDegree queue loaded -> (List.length (loaded ++ queue) <= n)%nat.
Proof.
  intros [Hnd Hrange _ _ _]; rewrite <- (length_seq n 0).
  apply List.NoDup_incl_length; [apply NoDup_ListNoDup, Hnd|].
  intros i Hi; apply in_seq; specialize (Hrange i Hi); lia.
Qed.

Lemma kahn_runs fuel : forall inDegree queue loaded,
  kahn_inv deps n inDegree queue loaded -> (n - List.length loaded < fuel)%nat ->
  exists inDegree' loaded', kahn fuel edges inDegree queue loaded = Some (inDegree', loaded')
    /\ kahn_inv deps n inDegree' [] loaded'.
Proof.
  induction fuel as [|fuel IH]; intros m q l Hinv Hf; [lia|]; cbn [kahn].
  destruct q as [|c q]; [eauto|].
  pose proof (kahn_step m c q l Hinv) as Hs; rewrite <- edges_spec in Hs.
  assert (Hl : (List.length l < n)%nat)
    by (apply kahn_inv_length in Hinv; rewrite length_app in Hinv; cbn in Hinv; lia).
  assert (Hf' : (n - List.length (l ++ [c]) < fuel)%nat) by (rewrite length_app; cbn; lia).
  destruct (edges !! c) as [ds|]; cbn [default] in Hs.
  - unfold id in Hs; destruct (release ds m q) as [m' q']; apply IH; assumption.
  - cbn [release] in Hs; apply IH; assumption.
Qed.
End Kahn.

(** ** The load order *)

Section LoadOrder.
Context `{Locale} `{Multimap}.
Variable libraries : list ResolvedLibrary.
Local Abbreviation n := (List.length libraries).

Lemma initial_inv deps edges inDegree :
  Z.of_nat (List.length deps) < 2 ^ 64 ->
  build_graph libraries deps = (edges, inDegree) ->
  kahn_inv deps n inDegree
    (List.filter (fun i => at_or_zero inDegree i =? 0) (indices libraries)) [].
Proof.
  intros Hlen E; pose proof (build_graph_spec libraries deps Hlen) as Hg; rewrite E in Hg.
  destruct Hg as [He Hd]; unfold indices; split; cbn [app].
  - apply NoDup_ListNoDup, List.NoDup_filter, seq_NoDup.
  - intros i Hi; apply List.filter_In in Hi as [Hi _]; apply in_seq in Hi; lia.
  - exact Hd.
  - intros i Hi; rewrite List.filter_In, in_seq, Z.eqb_eq, Hd; lia.
  - intros l1 s l2 E1; destruct l1; discriminate.
Qed.

(** What the topological sort returns, in terms of the final loop state. *)
Lemma load_order_spec deps :
  Z.of_nat (List.length deps) < 2 ^ 64 -> (forall d, In d deps -> (Source d < n)%nat) ->
  exists inDegree order,
    kahn_inv deps n inDegree [] order
    /\ load_order libraries deps =
       Some (if Nat.eqb (List.length order) n then inr order
             else inl (circular_message libraries
                         (List.find (fun i => 0 <? at_or_zero inDegree i) (indices libraries)))).
Proof.
  intros Hlen Hr; unfold load_order.
  destruct (build_graph libraries deps) as [edges m] eqn:E.
  pose proof (build_graph_spec libraries deps Hlen) as Hg; rewrite E in Hg; destruct Hg as [He _].
  destruct (kahn_runs deps n edges Hlen Hr He (S n) m _ [] (initial_inv deps edges m Hlen E)
              ltac:(cbn; lia)) as (m' & order & Ek & Hinv).
  exists m', order; split; [exact Hinv|]; rewrite Ek; destruct (Nat.eqb _ _); reflexivity.
Qed.

Lemma full_order deps inDegree order :
  kahn_inv deps n inDegree [] order -> List.length order = n -> order ≡ₚ indices libraries.
Proof.
  intros Hinv Hl; pose proof (inv_nodup _ _ _ _ _ Hinv) as Hnd; rewrite app_nil_r in Hnd.
  apply NoDup_Permutation_bis.
  - apply NoDup_ListNoDup, Hnd.
  - unfold indices; rewrite length_seq, Hl; reflexivity.
  - intros i Hi; unfold indices; apply in_seq.
    pose proof (inv_range _ _ _ _ _ Hinv i) as Hr; rewrite app_nil_r in Hr; specialize (Hr Hi); lia.
Qed.

(** With an acyclic dependency relation everything is loaded. *)
Lemma ranked_full deps inDegree order (rank : nat -> nat) :
  kahn_inv deps n inDegree [] order ->
  (forall d, In d deps -> (Source d < n)%nat /\ (Target d < n)%nat) ->
  (forall d, In d deps -> (rank (Target d) < rank (Source d))%nat) ->
  List.length order = n.
Proof.
  intros Hinv Hr Hrank; pose proof (kahn_inv_length _ _ _ _ _ Hinv) as Hle.
  rewrite app_nil_r in Hle.
  assert (Hall : forall k i, (rank i < k)%nat -> (i < n)%nat -> In i order).
  { induction k as [|k IH]; intros i Hk Hi; [lia|].
    pose proof (inv_ready _ _ _ _ _ Hinv i Hi) as Hready; rewrite app_nil_r in Hready.
    apply Hready, pending_zero; intros d Hd Hs; specialize (Hrank d Hd); rewrite Hs in Hrank.
    apply IH; [lia|apply Hr, Hd]. }
  assert (Hge : (List.length (indices libraries) <= List.length order)%nat).
  { apply List.NoDup_incl_length; [apply seq_NoDup|].
    intros i Hi; apply in_seq in Hi; apply (Hall (S (rank i))); lia. }
  unfold indices in Hge; rewrite length_seq in Hge; lia.
Qed.

(** The position of a library in an order. *)
Fixpoint position_in (l : list nat) (i : nat) : nat :=
  match l with
  | [] => 0
  | x :: l => if Nat.eqb x i then 0 else S (position_in l i)
  end.

Lemma position_in_app l1 l2 i : In i l1 -> position_in (l1 ++ l2) i = position_in l1 i
  /\ (position_in l1 i < List.length l1)%nat.
Proof.
  induction l1 as [|x l1 IH]; intros Hi; [contradiction|]; cbn.
  destruct (Nat.eqb_spec x i); [split; [reflexivity|lia]|].
  destruct Hi as [?|Hi]; [contradiction|]; destruct (IH Hi); split; [congruence|lia].
Qed.

Lemma position_in_mid l1 s l2 : ~ In s l1 -> position_in (l1 ++ s :: l2) s = List.length l1.
Proof.
  induction l1 as [|x l1 IH]; intros Hs; cbn; [rewrite Nat.eqb_refl; reflexivity|].
  destruct (Nat.eqb_spec x s); [exfalso; apply Hs; left; assumption|].
  rewrite IH by (intros Hin; apply Hs; right; exact Hin); reflexivity.
Qed.

Lemma ordered_ranked deps order : ordered deps order -> NoDup order ->
  (forall d, In d deps -> In (Source d) order) ->
  forall d, In d deps -> (position_in order (Target d) < position_in order (Source d))%nat.
Proof.
  intros Ho Hnd Hs d Hd.
  destruct (in_split (Source d) order (Hs d Hd)) as (l1 & l2 & E).
  pose proof (Ho l1 (Source d) l2 E d Hd eq_refl) as Ht.
  assert (Hn : ~ In (Source d) l1).
  { rewrite E in Hnd; apply NoDup_app in Hnd as (_ & Hdis & _); intros Hin.
    apply list_elem_of_In in Hin; exact (Hdis _ Hin ltac:(left)). }
  rewrite E, position_in_mid by exact Hn.
  destruct (position_in_app l1 (Source d :: l2) (Target d) Ht) as [-> Hlt]; exact Hlt.
Qed.
End LoadOrder.
