(* ===== verification/LibrariesSpec.v ===== *)
(** * Properties of library resolution

    The load order is topological, it exists exactly when the dependencies
    have no cycle, every dependency is bound, and bound to the highest version
    that satisfies its expression. *)
From Stdlib Require Import ZArith Lia Bool List String.
From stdpp Require Import base list gmap.
From S2P Require Import Prelude Reader SemVer SemVerSpec Libraries LibrariesFacts.
Import ListNotations Libraries.
Open Scope Z_scope.
Open Scope shard_scope.

Section Spec.
Context `{Locale} `{Multimap}.
Variable libraries : list ResolvedLibrary.
Local Abbreviation n := (List.length libraries).

(** ** The candidates of a dependency *)

(** [i], of version [v], is admitted by the expression; without one, any
    version is. *)
Definition candidate (expr : option (list SemVer.Constraint)) (i : nat)
    (v : SemVer.SemanticVersion) : Prop :=
  SemVer.ParseVersion (version_text libraries i) = Ok (Some v)
  /\ match expr with Some e => SemVer.Satisfies e v = Ok true | None => True end.

Definition no_better (expr : option (list SemVer.Constraint)) (l : list nat) (i : nat) : Prop :=
  forall v c w, candidate expr i v -> In c l -> candidate expr c w -> SemVer.lt v w = false.

Definition comparable (expr : option (list SemVer.Constraint)) (l : list nat) : Prop :=
  expr = None -> forall i, In i l ->
    exists v, SemVer.ParseVersion (version_text libraries i) = Ok (Some v).

Lemma candidate_fun expr i v w : candidate expr i v -> candidate expr i w -> v = w.
Proof. intros [E _] [E' _]; congruence. Qed.

Lemma lt_trans_false a b c : SemVer.lt b a = false -> SemVer.lt c b = false -> SemVer.lt c a = false.
Proof. rewrite !lt_false; lia. Qed.

Lemma lt_asym a b : SemVer.lt a b = true -> SemVer.lt b a = false.
Proof. rewrite lt_spec, lt_false; lia. Qed.

(** The loop keeps a best candidate of those seen. *)
Lemma best_match_spec expr range : forall seen best r,
  comparable expr (seen ++ range) ->
  match best with
  | Some b => In b seen /\ (exists v, candidate expr b v) /\ no_better expr seen b
  | None => forall c v, In c seen -> ~ candidate expr c v
  end ->
  best_match libraries expr best range = Ok r ->
  match r with
  | Some t => In t (seen ++ range) /\ (exists v, candidate expr t v) /\ no_better expr (seen ++ range) t
  | None => forall c v, In c (seen ++ range) -> ~ candidate expr c v
  end.
Proof.
  induction range as [|c range IH]; intros seen best r Hcomp Hbest E; cbn [best_match] in E.
  { injection E as <-; rewrite app_nil_r; exact Hbest. }
  assert (Happ : seen ++ c :: range = (seen ++ [c]) ++ range) by (rewrite <- app_assoc; reflexivity).
  rewrite Happ in *; apply rbind_Ok in E as (m & Em & E).
  assert (Hc : (m = true /\ exists v, candidate expr c v) \/ (m = false /\ forall v, ~ candidate expr c v)).
  { destruct expr as [e|].
    - apply rbind_Ok in Em as ([v|] & Ev & Em).
      + destruct m; [left|right]; split; auto; [exists v; split; assumption|].
        intros w [Ew Hw]; congruence.
      + injection Em as <-; right; split; [reflexivity|]; intros w [Ew _]; congruence.
    - injection Em as <-; left; split; [reflexivity|].
      destruct (Hcomp eq_refl c) as (v & Ev); [rewrite !in_app_iff; cbn; auto|].
      exists v; split; auto. }
  destruct Hc as [[-> (w & Hw)]|[-> Hno]]; cbn [negb] in E.
  - destruct best as [b|].
    + destruct Hbest as (Hin & (v & Hv) & Hnb).
      rewrite (proj1 Hv), (proj1 Hw) in E; cbn [rbind] in E.
      apply (IH (seen ++ [c]) _ r Hcomp) in E; [exact E|]; unfold SemVer.gt in *.
      destruct (SemVer.lt v w) eqn:Elt.
      * split; [rewrite in_app_iff; cbn; auto|split; [eauto|]].
        intros w' x y Hw' Hx Hy; rewrite (candidate_fun _ _ _ _ Hw' Hw).
        apply in_app_iff in Hx as [Hx|[<-|[]]].
        -- apply (lt_trans_false _ v); [exact (Hnb v x y Hv Hx Hy)|apply lt_asym, Elt].
        -- rewrite (candidate_fun _ _ _ _ Hy Hw); apply lt_false; lia.
      * split; [rewrite in_app_iff; auto|split; [eauto|]].
        intros v' x y Hv' Hx Hy; rewrite (candidate_fun _ _ _ _ Hv' Hv).
        apply in_app_iff in Hx as [Hx|[<-|[]]]; [exact (Hnb v x y Hv Hx Hy)|].
        rewrite (candidate_fun _ _ _ _ Hy Hw); exact Elt.
    + apply (IH (seen ++ [c]) _ r Hcomp) in E; [exact E|].
      split; [rewrite in_app_iff; cbn; auto|split; [eauto|]].
      intros w' x y Hw' Hx Hy; apply in_app_iff in Hx as [Hx|[<-|[]]]; [elim (Hbest x y Hx Hy)|].
      rewrite (candidate_fun _ _ _ _ Hy Hw'); apply lt_false; lia.
  - apply (IH (seen ++ [c]) _ r Hcomp) in E; [exact E|]; destruct best as [b|].
    + destruct Hbest as (Hin & Hv & Hnb); split; [rewrite in_app_iff; auto|split; [exact Hv|]].
      intros v x y Hv' Hx Hy; apply in_app_iff in Hx as [Hx|[<-|[]]]; [eauto|].
      elim (Hno y Hy).
    + intros x y Hx Hy; apply in_app_iff in Hx as [Hx|[<-|[]]];
        [exact (Hbest x y Hx Hy)|elim (Hno y Hy)].
Qed.

(** ** Binding a dependency *)

Definition named (k : wstring) (i : nat) : Prop :=
  In i (indices libraries) /\ Name (library libraries i) = k /\ k <> [].

Lemma equal_range_named k i : In i (equal_range (librariesByName libraries) k) <-> named k i.
Proof.
  assert (Hp : In i (equal_range (librariesByName libraries) k) <->
    In i (map snd (List.filter (fun e => fst e =w k) (librariesByName libraries))))
    by (rewrite <- !list_elem_of_In, equal_range_spec; reflexivity).
  rewrite Hp; unfold named, librariesByName, indices; rewrite in_map_iff; split.
  - intros ([x j] & E & Hin); cbn in E; subst j; apply List.filter_In in Hin as [Hin Hk].
    apply in_map_iff in Hin as (j & [= <- ->] & Hin); apply List.filter_In in Hin as [Hin Hne].
    apply weqb_eq in Hk; cbn in Hk; rewrite Hk in *; repeat split; auto.
    intros ->; discriminate.
  - intros (Hin & Hn & Hne); exists (k, i); split; [reflexivity|]; apply List.filter_In; split.
    + apply in_map_iff; exists i; split; [congruence|]; apply List.filter_In; split; [exact Hin|].
      rewrite Hn; destruct k; [contradiction|reflexivity].
    + apply weqb_refl.
Qed.

(** The constraints a dependency's text stands for. *)
Definition expression_of (text : wstring) (expr : option (list SemVer.Constraint)) : Prop :=
  match expr with
  | None => text = [] \/ text = L "*"
  | Some e => SemVer.Parse text = Some (Ok (Some e))
  end.

(** What a bound dependency promises. *)
Definition bound (lib : nat) (dep : wstring * wstring) (d : LibraryDependency) : Prop :=
  Source d = lib /\ DependencyName d = dep.1 /\ named dep.1 (Target d)
  /\ exists expr, expression_of dep.2 expr
     /\ (comparable expr (equal_range (librariesByName libraries) dep.1) ->
         (exists v, candidate expr (Target d) v)
         /\ forall v c w, candidate expr (Target d) v -> named dep.1 c -> candidate expr c w ->
              SemVer.lt v w = false).

Lemma best_match_In expr range : forall best t,
  best_match libraries expr best range = Ok (Some t) -> In t range \/ best = Some t.
Proof.
  induction range as [|c range IH]; intros best t E; cbn [best_match] in E.
  { injection E as ->; auto. }
  apply rbind_Ok in E as (m & _ & E); destruct m; cbn [negb] in E;
    [|destruct (IH _ _ E); [left; right; assumption|auto]].
  destruct best as [b|].
  - apply rbind_Ok in E as (bv & _ & E); apply rbind_Ok in E as (cv & _ & E).
    destruct bv as [bv|], cv as [cv|]; (destruct (IH _ _ E) as [?|Eb]; [left; right; assumption|]);
      try (right; assumption).
    destruct (SemVer.gt cv bv); [left; left; congruence|auto].
  - destruct (IH _ _ E) as [?|Eb]; [left; right; assumption|left; left; congruence].
Qed.

Lemma resolve_dependency_bound lib dep d :
  resolve_dependency libraries lib dep = done (inr d) -> bound lib dep d.
Proof.
  unfold resolve_dependency; destruct dep as [name text]; cbn zeta.
  set (vexpr := if negb (is_empty text) then text else L "*").
  destruct (equal_range (librariesByName libraries) name) as [|i0 range0] eqn:Er; [discriminate|].
  rewrite <- Er; clear i0 range0 Er; intros E; apply fbind_done in E as (parsed & Ep & E).
  destruct parsed as [expr|]; [|discriminate].
  apply fbind_done in E as (best & Eb & E); destruct best as [t|]; [|discriminate].
  injection E as <-; injection Eb as Eb; unfold bound; cbn [Source DependencyName Target fst snd].
  assert (Hexpr : expression_of text expr).
  { unfold vexpr in Ep; destruct text as [|x text]; cbn [is_empty negb] in Ep.
    - injection Ep as <-; left; reflexivity.
    - destruct (weqb_spec (x :: text) (L "*")) as [E1|]; cbn [negb] in Ep;
        [injection Ep as <-; right; exact E1|].
      destruct (SemVer.Parse (x :: text)) as [[[e|]|m|]|] eqn:Epar; try discriminate.
      injection Ep as <-; exact Epar. }
  split; [reflexivity|split; [reflexivity|split]].
  - apply equal_range_named; destruct (best_match_In _ _ _ _ Eb) as [Hin|[=]]; exact Hin.
  - exists expr; split; [exact Hexpr|]; intros Hcomp.
    pose proof (best_match_spec expr _ [] None (Some t) Hcomp ltac:(intros ? ? []) Eb)
      as (_ & Hv & Hnb); split; [exact Hv|].
    intros v c w Hvt Hc Hcw; apply (Hnb v c w Hvt); [|exact Hcw]; apply equal_range_named, Hc.
Qed.

(** The dependencies of a library, paired with it. *)
Definition wanted (lib : nat) : list (nat * (wstring * wstring)) :=
  map (pair lib) (Dependencies (library libraries lib)).
Definition binds (p : nat * (wstring * wstring)) (d : LibraryDependency) : Prop := bound p.1 p.2 d.

Lemma resolve_dependencies_bound lib deps : forall resolved r,
  resolve_dependencies libraries lib deps resolved = done (inr r) ->
  exists ds, r = resolved ++ ds /\ Forall2 binds (map (pair lib) deps) ds.
Proof.
  induction deps as [|dep deps IH]; intros resolved r E; cbn [resolve_dependencies map] in *.
  - injection E as <-; exists []; rewrite app_nil_r; auto.
  - apply fbind_done in E as ([m|d] & Ed & E); [discriminate|].
    apply IH in E as (ds & -> & Hds); exists (d :: ds); rewrite <- app_assoc; split; [reflexivity|].
    constructor; [apply resolve_dependency_bound, Ed|exact Hds].
Qed.

Lemma resolve_libraries_bound libs : forall resolved r,
  resolve_libraries libraries libs resolved = done (inr r) ->
  exists ds, r = resolved ++ ds /\ Forall2 binds (flat_map wanted libs) ds.
Proof.
  induction libs as [|lib libs IH]; intros resolved r E; cbn [resolve_libraries flat_map] in *.
  - injection E as <-; exists []; rewrite app_nil_r; auto.
  - apply fbind_done in E as ([m|r1] & E1 & E); [discriminate|].
    apply resolve_dependencies_bound in E1 as (ds1 & -> & H1).
    apply IH in E as (ds2 & -> & H2); exists (ds1 ++ ds2); rewrite app_assoc; split; [reflexivity|].
    apply Forall2_app; assumption.
Qed.

Lemma bound_range libs ds : Forall2 binds (flat_map wanted libs) ds ->
  (forall i, In i libs -> In i (indices libraries)) ->
  forall d, In d ds -> (Source d < n)%nat /\ (Target d < n)%nat.
Proof.
  intros Hb Hlibs d Hd.
  assert (Hex : exists p, In p (flat_map wanted libs) /\ binds p d).
  { clear Hlibs; induction Hb as [|p d' ps ds Hp Hb IH]; [contradiction|].
    destruct Hd as [->|Hd]; [exists p; split; [left; reflexivity|exact Hp]|].
    destruct (IH Hd) as (p' & Hin & Hp'); exists p'; split; [right|]; assumption. }
  destruct Hex as ([lib dep] & Hin & Hs & _ & Ht & _); apply in_flat_map in Hin as (l & Hl & Hw).
  unfold wanted in Hw; apply in_map_iff in Hw as (x & [= <- <-] & _).
  cbn in Hs; rewrite Hs; apply Hlibs in Hl; unfold indices in Hl; apply in_seq in Hl.
  destruct Ht as (Ht & _); unfold indices in Ht; apply in_seq in Ht; lia.
Qed.

(** How many dependencies there are. *)
Definition total_dependencies : Z :=
  Z.of_nat (List.length (flat_map wanted (indices libraries))).

Lemma resolve_split r : ResolveLibraryDependencies libraries = done (inr r) ->
  resolve_libraries libraries (indices libraries) [] = done (inr r.2)
  /\ load_order libraries r.2 = Some (inr r.1).
Proof.
  unfold ResolveLibraryDependencies; intros E; apply fbind_done in E as ([m|ds] & E1 & E);
    [discriminate|].
  destruct (load_order libraries ds) as [[m|order]|] eqn:E2; try discriminate.
  injection E as <-; auto.
Qed.

Lemma resolved_facts ds : total_dependencies < 2 ^ 64 ->
  resolve_libraries libraries (indices libraries) [] = done (inr ds) ->
  Z.of_nat (List.length ds) < 2 ^ 64
  /\ forall d, In d ds -> (Source d < n)%nat /\ (Target d < n)%nat.
Proof.
  intros Ht E; apply resolve_libraries_bound in E as (ds' & -> & Hb); cbn [app].
  split; [|exact (bound_range _ _ Hb ltac:(auto))].
  rewrite <- (Forall2_length _ _ _ Hb); exact Ht.
Qed.

Lemma resolve_libraries_runs libs : forall resolved,
  exists r, resolve_libraries libraries libs resolved = Some r.
Proof.
  assert (Hdep : forall lib dep, exists r, resolve_dependency libraries lib dep = Some r).
  { intros lib [name text]; unfold resolve_dependency; cbn zeta.
    set (vexpr := if negb (is_empty text) then text else L "*").
    destruct (equal_range _ name) as [|i range]; [eexists; reflexivity|].
    pose proof (Parse_loop_total (S (List.length vexpr)) vexpr [] ltac:(lia)) as Hp.
    assert (Hparse : exists q, SemVer.Parse vexpr = Some q).
    { unfold SemVer.Parse; destruct (SemVer.Parse_loop _ vexpr []) as [[[[|c cs]|]|m|]|];
        eauto; contradiction. }
    destruct Hparse as (q & ->); destruct (negb (vexpr =w L "*"));
      [destruct q as [[e|]|m|]|]; cbn [fbind done]; eauto;
      destruct (best_match _ _ _ _) as [[t|]|m|]; cbn [fbind done]; eauto. }
  assert (Hdeps : forall lib deps resolved,
            exists r, resolve_dependencies libraries lib deps resolved = Some r).
  { intros lib; induction deps as [|dep deps IH]; intros resolved; cbn; [eexists; reflexivity|].
    destruct (Hdep lib dep) as ([[m|d]|m|] & ->); cbn; eauto. }
  induction libs as [|lib libs IH]; intros resolved; cbn; [eexists; reflexivity|].
  destruct (Hdeps lib (Dependencies (library libraries lib)) resolved) as ([[m|d]|m|] & ->);
    cbn; eauto.
Qed.

(** ** The properties *)

(** C16: A load order returned is a permutation of all the libraries in which every
    library comes after each library its dependencies were bound to. *)
Theorem load_order_topological (order : list nat) (deps : list LibraryDependency) :
  total_dependencies < 2 ^ 64 ->
  ResolveLibraryDependencies libraries = done (inr (order, deps)) ->
  order ≡ₚ seq 0 n
  /\ forall d, In d deps -> exists l1 l2 l3, order = l1 ++ Target d :: l2 ++ Source d :: l3.
Proof.
  intros Ht E; apply resolve_split in E as [E1 E2]; cbn in E1, E2.
  destruct (resolved_facts deps Ht E1) as [Hlen Hr].
  destruct (load_order_spec libraries deps Hlen (fun d Hd => proj1 (Hr d Hd))) as (m & order' & Hinv & El).
  rewrite El in E2; destruct (Nat.eqb_spec (List.length order') n) as [Hl|]; [|discriminate].
  injection E2 as ->; pose proof (full_order libraries deps m order Hinv Hl) as Hperm.
  split; [exact Hperm|]; intros d Hd.
  assert (Hs : In (Source d) order).
  { apply list_elem_of_In; rewrite Hperm; apply list_elem_of_In, in_seq.
    specialize (Hr d Hd); lia. }
  apply in_split in Hs as (l12 & l3 & Hs).
  pose proof (inv_ordered _ _ _ _ _ Hinv l12 (Source d) l3 Hs d Hd eq_refl) as Htgt.
  apply in_split in Htgt as (l1 & l2 & ->); exists l1, l2, l3.
  rewrite Hs, <- app_assoc; reflexivity.
Qed.


(** C35: Once every dependency is bound, resolution fails exactly when the
    dependencies are circular: when no ranking of the libraries puts every
    target below its source. *)
Theorem circular_iff_no_ranking (deps : list LibraryDependency) :
  total_dependencies < 2 ^ 64 ->
  resolve_libraries libraries (indices libraries) [] = done (inr deps) ->
  (exists message, ResolveLibraryDependencies libraries = done (inl message))
  <-> ~ exists rank : nat -> nat, forall d, In d deps -> (rank (Target d) < rank (Source d))%nat.
Proof.
  intros Ht E; destruct (resolved_facts deps Ht E) as [Hlen Hr].
  destruct (load_order_spec libraries deps Hlen (fun d Hd => proj1 (Hr d Hd))) as (m & order & Hinv & El).
  unfold ResolveLibraryDependencies; rewrite E; cbn [fbind done]; rewrite El.
  destruct (Nat.eqb_spec (List.length order) n) as [Hl|Hl]; split.
  - intros (msg & [=]).
  - intros Hno; elim Hno; exists (position_in order).
    pose proof (inv_nodup _ _ _ _ _ Hinv) as Hnd; rewrite app_nil_r in Hnd.
    apply ordered_ranked; [exact (inv_ordered _ _ _ _ _ Hinv)|exact Hnd|].
    intros d Hd; apply list_elem_of_In; rewrite (full_order libraries deps m order Hinv Hl).
    apply list_elem_of_In; unfold indices; apply in_seq; specialize (Hr d Hd); lia.
  - intros _ (rank & Hrank); apply Hl; eapply ranked_full; eassumption.
  - intros _; eexists; reflexivity.
Qed.

(** Resolution always returns: neither the expression parser nor the queue
    loop runs out of fuel. *)
Theorem resolution_total : total_dependencies < 2 ^ 64 ->
  exists r, ResolveLibraryDependencies libraries = Some r.
Proof.
  intros Ht; unfold ResolveLibraryDependencies.
  destruct (resolve_libraries_runs (indices libraries) []) as ([[m|ds]|m|] & E); rewrite E;
    cbn [fbind done]; eauto.
  destruct (resolved_facts ds Ht E) as [Hlen Hr].
  destruct (load_order_spec libraries ds Hlen (fun d Hd => proj1 (Hr d Hd))) as (m & order & _ & ->).
  destruct (Nat.eqb (List.length order) n); eauto.
Qed.
End Spec.

(** ** Instances *)

Definition lib (name version : wstring) (deps : list (wstring * wstring)) : ResolvedLibrary :=
  mkLibrary (L "/lib/" ++ name) name [] version deps.

(** Two versions of one library, and a client of both. *)
Definition sample_libraries : list ResolvedLibrary :=
  [lib (L "app") (L "1.0.0") [(L "core", L "^1.0.0"); (L "net", [])];
   lib (L "core") (L "1.2.0") [];
   lib (L "net") (L "0.1.0") [(L "core", L ">=1.0.0 <2.0.0")];
   lib (L "core") (L "1.10.0") []].

Definition sample_deps : list LibraryDependency :=
  [mkDependency 0 (L "core") (L "^1.0.0") 3; mkDependency 0 (L "net") (L "*") 2;
   mkDependency 2 (L "core") (L ">=1.0.0 <2.0.0") 3].

Lemma load_order_topological_witness :
  [1; 3; 2; 0]%nat ≡ₚ seq 0 4
  /\ forall d, In d sample_deps ->
       exists l1 l2 l3, [1; 3; 2; 0]%nat = l1 ++ Target d :: l2 ++ Source d :: l3.
Proof.
  apply (@load_order_topological classic insertion_order sample_libraries); vm_compute; reflexivity.
Defined.


(** A cycle between [b] and [c], and [a] that needs [b]. *)
Definition circular_libraries : list ResolvedLibrary :=
  [lib (L "a") [] [(L "b", [])]; lib (L "b") [] [(L "c", [])]; lib (L "c") [] [(L "b", [])]].
Definition circular_deps : list LibraryDependency :=
  [mkDependency 0 (L "b") (L "*") 1; mkDependency 1 (L "c") (L "*") 2;
   mkDependency 2 (L "b") (L "*") 1].

Lemma circular_iff_no_ranking_witness :
  (exists message, @ResolveLibraryDependencies classic insertion_order circular_libraries
                     = done (inl message))
  <-> ~ exists rank : nat -> nat,
        forall d, In d circular_deps -> (rank (Target d) < rank (Source d))%nat.
Proof.
  apply (@circular_iff_no_ranking classic insertion_order circular_libraries);
    vm_compute; reflexivity.
Defined.

Lemma resolution_total_witness :
  exists r, @ResolveLibraryDependencies classic insertion_order circular_libraries = Some r.
Proof. apply (@resolution_total classic insertion_order circular_libraries); vm_compute; reflexivity. Defined.

(** The library the circularity message names need not be on a cycle: here it
    is [a], which no library depends on. *)
Theorem circular_message_off_cycle :
  @ResolveLibraryDependencies classic insertion_order circular_libraries
    = done (inl (L "Circular library dependency detected involving 'a'."))
  /\ forall d, In d circular_deps -> Target d <> 0%nat.
Proof.
  split; [vm_compute; reflexivity|].
  intros d Hd; cbn in Hd; repeat destruct Hd as [<-|Hd]; try discriminate; contradiction.
Qed.
