(* ===== verification/ByteCode.v ===== *)
(** * Byte code

    The instruction set (include/shard/compilation/OperationCode.hpp), the
    encoder (src/compilation/ByteCodeEncoder.cpp), the decoder
    (src/compilation/ByteCodeDecoder.cpp) and which operands the virtual
    machine (src/runtime/VirtualMachine.cpp, [ProcessCode]) and the
    disassembler (src/compilation/ProgramDisassembler.cpp) read for each
    operation.  A byte vector is the list of its bytes; the platform is the
    64-bit little-endian one with four-byte [wchar_t]; a pointer and a double
    are their 64-bit patterns. *)
From Stdlib Require Import ZArith Lia Bool List String.
From stdpp Require Import base list.
From S2P Require Import Prelude.
Import ListNotations.
Open Scope Z_scope.
Open Scope shard_scope.

Module OpCode.
Inductive t : Type :=
| NOP | HALT | POP | LOADCONST_NULL | LOADCONST_BOOLEAN | LOADCONST_INTEGER8
| LOADCONST_INTEGER64 | LOADCONST_NATIVE_INTEGER | LOADCONST_RATIONAL64
| LOADCONST_CHAR | LOADCONST_STRING | DUP | STORE_LOCAL | STORE_ARG
| LOAD_LOCAL | LOAD_ARG | JUMP | JUMP_TRUE | JUMP_FALSE | BR_NULL | JUMP_TABLE
| RETURN | THROW | MATH_ADDITION | MATH_SUBTRACT | MATH_MULTIPLY
| MATH_DIVISION | MATH_MODULO | MATH_POWER | MATH_NEGATIVE | MATH_SHL
| MATH_SHR | COMPARE_EQUAL | COMPARE_NOTEQUAL | COMPARE_GREATER
| COMPARE_GREATER_OR_EQUAL | COMPARE_LESS | COMPARE_LESS_OR_EQUAL
| LOGICAL_NOT | LOGICAL_OR | LOGICAL_AND | NEWOBJECT | NEWDELEGATE | LOADFIELD
| STOREFIELD | NEWARRAY | LOADARRAYELEMENT | STOREARRAYELEMENT | ARRAYLENGTH
| NEWARRAY_DYNAMIC | LOADSTATICFIELD | LOADENUMFIELD | STORESTATICFIELD
| CALLMETHODSYMBOL | CALLDELEGATE | LOAD_TYPEARGUMENT | CALLINTERFACE
| ISINSTANCE | CAST_AS | CAST | CASTPRIMITIVE | ENTER_TRY | LEAVE_TRY
| RETHROW | END_CATCH | LOAD_CURRENT_EXCEPTION | STORE_CURRENT_EXCEPTION
| DEFER | DEFER_BREAK | DEFER_DRAIN | CREATERANGE.

(** The enumerators in declaration order. *)
Definition all : list t :=
  [NOP; HALT; POP; LOADCONST_NULL; LOADCONST_BOOLEAN; LOADCONST_INTEGER8;
  LOADCONST_INTEGER64; LOADCONST_NATIVE_INTEGER; LOADCONST_RATIONAL64;
  LOADCONST_CHAR; LOADCONST_STRING; DUP; STORE_LOCAL; STORE_ARG; LOAD_LOCAL;
  LOAD_ARG; JUMP; JUMP_TRUE; JUMP_FALSE; BR_NULL; JUMP_TABLE; RETURN; THROW;
  MATH_ADDITION; MATH_SUBTRACT; MATH_MULTIPLY; MATH_DIVISION; MATH_MODULO;
  MATH_POWER; MATH_NEGATIVE; MATH_SHL; MATH_SHR; COMPARE_EQUAL;
  COMPARE_NOTEQUAL; COMPARE_GREATER; COMPARE_GREATER_OR_EQUAL; COMPARE_LESS;
  COMPARE_LESS_OR_EQUAL; LOGICAL_NOT; LOGICAL_OR; LOGICAL_AND; NEWOBJECT;
  NEWDELEGATE; LOADFIELD; STOREFIELD; NEWARRAY; LOADARRAYELEMENT;
  STOREARRAYELEMENT; ARRAYLENGTH; NEWARRAY_DYNAMIC; LOADSTATICFIELD;
  LOADENUMFIELD; STORESTATICFIELD; CALLMETHODSYMBOL; CALLDELEGATE;
  LOAD_TYPEARGUMENT; CALLINTERFACE; ISINSTANCE; CAST_AS; CAST; CASTPRIMITIVE;
  ENTER_TRY; LEAVE_TRY; RETHROW; END_CATCH; LOAD_CURRENT_EXCEPTION;
  STORE_CURRENT_EXCEPTION; DEFER; DEFER_BREAK; DEFER_DRAIN; CREATERANGE].

(** The underlying value: [NOP] is 1, the others follow. *)
Definition value (op : t) : Z :=
  match op with
  | NOP => 1
  | HALT => 2
  | POP => 3
  | LOADCONST_NULL => 4
  | LOADCONST_BOOLEAN => 5
  | LOADCONST_INTEGER8 => 6
  | LOADCONST_INTEGER64 => 7
  | LOADCONST_NATIVE_INTEGER => 8
  | LOADCONST_RATIONAL64 => 9
  | LOADCONST_CHAR => 10
  | LOADCONST_STRING => 11
  | DUP => 12
  | STORE_LOCAL => 13
  | STORE_ARG => 14
  | LOAD_LOCAL => 15
  | LOAD_ARG => 16
  | JUMP => 17
  | JUMP_TRUE => 18
  | JUMP_FALSE => 19
  | BR_NULL => 20
  | JUMP_TABLE => 21
  | RETURN => 22
  | THROW => 23
  | MATH_ADDITION => 24
  | MATH_SUBTRACT => 25
  | MATH_MULTIPLY => 26
  | MATH_DIVISION => 27
  | MATH_MODULO => 28
  | MATH_POWER => 29
  | MATH_NEGATIVE => 30
  | MATH_SHL => 31
  | MATH_SHR => 32
  | COMPARE_EQUAL => 33
  | COMPARE_NOTEQUAL => 34
  | COMPARE_GREATER => 35
  | COMPARE_GREATER_OR_EQUAL => 36
  | COMPARE_LESS => 37
  | COMPARE_LESS_OR_EQUAL => 38
  | LOGICAL_NOT => 39
  | LOGICAL_OR => 40
  | LOGICAL_AND => 41
  | NEWOBJECT => 42
  | NEWDELEGATE => 43
  | LOADFIELD => 44
  | STOREFIELD => 45
  | NEWARRAY => 46
  | LOADARRAYELEMENT => 47
  | STOREARRAYELEMENT => 48
  | ARRAYLENGTH => 49
  | NEWARRAY_DYNAMIC => 50
  | LOADSTATICFIELD => 51
  | LOADENUMFIELD => 52
  | STORESTATICFIELD => 53
  | CALLMETHODSYMBOL => 54
  | CALLDELEGATE => 55
  | LOAD_TYPEARGUMENT => 56
  | CALLINTERFACE => 57
  | ISINSTANCE => 58
  | CAST_AS => 59
  | CAST => 60
  | CASTPRIMITIVE => 61
  | ENTER_TRY => 62
  | LEAVE_TRY => 63
  | RETHROW => 64
  | END_CATCH => 65
  | LOAD_CURRENT_EXCEPTION => 66
  | STORE_CURRENT_EXCEPTION => 67
  | DEFER => 68
  | DEFER_BREAK => 69
  | DEFER_DRAIN => 70
  | CREATERANGE => 71
  end.

(** The enumerator of a value; the decoder's [OpCode] may also hold a value
    that is none. *)
Definition of_value (z : Z) : option t :=
  if (1 <=? z) && (z <=? Z.of_nat (List.length all)) then nth_error all (Z.to_nat z - 1) else None.

Lemma all_opcode_values op : nth_error all (Z.to_nat (value op) - 1) = Some op.
Proof. destruct op; reflexivity. Qed.

Lemma of_value_value op : of_value (value op) = Some op.
Proof. destruct op; reflexivity. Qed.

Lemma value_range op : 1 <= value op <= 71.
Proof. destruct op; cbn; lia. Qed.

#[global] Instance eq_decision : EqDecision t.
Proof. solve_decision. Defined.
End OpCode.

(** ** Bytes *)

(** A byte, and the object representation of a [std::vector<std::byte>]. *)
Abbreviation bytes := (list Z) (only parsing).

(** The [n] bytes of a value, least significant first, and their value. *)
Fixpoint le (n : nat) (z : Z) : bytes :=
  match n with
  | O => []
  | S n => z mod 256 :: le n (z / 256)
  end.

Fixpoint unle (l : bytes) : Z :=
  match l with
  | [] => 0
  | b :: l => b + 256 * unle l
  end.

(** The signed reading of a [w]-bit pattern. *)
Definition signed (w : Z) (z : Z) : Z := if z <? 2 ^ (w - 1) then z else z - 2 ^ w.

Definition size_t (z : Z) : Z := z mod 2 ^ 64.
Definition size (l : bytes) : Z := Z.of_nat (List.length l).

(** ** Encoding *)
Module ByteCodeEncoder.
(** [ByteCodeEncoder::PasteData]: the bounds test is in [std::size_t]
    arithmetic; a copy past the end would be undefined. *)
Definition PasteData (code : bytes) (at_ : Z) (data : bytes) : result bytes :=
  if size code <? size_t (at_ + size data) then
    Throw "ByteCodeEncoder::PasteData: Out of bounds write!"
  else if at_ + size data <=? size code then
    Ok (firstn (Z.to_nat at_) code ++ data ++ skipn (Z.to_nat at_ + List.length data) code)
  else UB.

(** [ByteCodeEncoder::AppendData]: the capacity of the vector is not
    modelled. *)
Definition AppendData (code data : bytes) : bytes := code ++ data.
Definition AppendDataT (code data : bytes) : bytes := AppendData code data.

(** [wcslen]: the characters before the terminator. *)
Fixpoint wcslen (s : wstring) : nat :=
  match s with
  | c :: s => if c =? 0 then O else S (wcslen s)
  | [] => O
  end.

(** [AppendDataS]: the characters and the terminator. *)
Definition AppendDataS (code : bytes) (string : wstring) : bytes :=
  AppendData code (flat_map (le 4) (firstn (wcslen string) string ++ [0])).

Definition opcode_bytes (op : OpCode.t) : bytes := le 2 (OpCode.value op).

(** The [Emit] functions, in the order of the source. *)
Definition EmitNop (code : bytes) : bytes :=
  AppendDataT code (opcode_bytes OpCode.NOP).
Definition EmitHalt (code : bytes) : bytes :=
  AppendDataT code (opcode_bytes OpCode.HALT).
Definition EmitPop (code : bytes) : bytes :=
  AppendDataT code (opcode_bytes OpCode.POP).
Definition EmitLoadConstNull (code : bytes) : bytes :=
  AppendDataT code (opcode_bytes OpCode.LOADCONST_NULL).
Definition EmitLoadConstBool (code : bytes) (value : bool) : bytes :=
  AppendDataT (AppendDataT code (opcode_bytes OpCode.LOADCONST_BOOLEAN)) (le 1 (Z.b2z value)).
Definition EmitLoadConstInt8 (code : bytes) (value : Z) : bytes :=
  AppendDataT (AppendDataT code (opcode_bytes OpCode.LOADCONST_INTEGER8)) (le 1 value).
Definition EmitLoadConstInt64 (code : bytes) (value : Z) : bytes :=
  AppendDataT (AppendDataT code (opcode_bytes OpCode.LOADCONST_INTEGER64)) (le 8 value).
Definition EmitLoadConstNativeInt (code : bytes) (value : Z) : bytes :=
  AppendDataT (AppendDataT code (opcode_bytes OpCode.LOADCONST_NATIVE_INTEGER)) (le 8 value).
Definition EmitLoadConstDouble64 (code : bytes) (value : Z) : bytes :=
  AppendDataT (AppendDataT code (opcode_bytes OpCode.LOADCONST_RATIONAL64)) (le 8 value).
Definition EmitLoadConstChar16 (code : bytes) (value : Z) : bytes :=
  AppendDataT (AppendDataT code (opcode_bytes OpCode.LOADCONST_CHAR)) (le 4 value).

(** The data section receives the characters and the terminator; the operand
    is the offset they start at. *)
Definition EmitLoadConstString (code data : bytes) (value : wstring) : bytes * bytes :=
  let dataOrigin := Z.of_nat (List.length data) in
  let data := AppendDataS data value in
  (AppendDataT (AppendDataT code (opcode_bytes OpCode.LOADCONST_STRING)) (le 8 dataOrigin), data).


(** [SymbolTable::Primitives]: the addresses of the primitive types. *)
Class Primitives := {
  Integer : Z; Byte : Z; NativeInteger : Z; Char : Z; Boolean : Z; Double : Z
}.

Definition EmitDefaultValue `{Primitives} (code : bytes) (elementType : Z) : bytes :=
  if elementType =? Integer then EmitLoadConstInt8 code 0
  else if elementType =? Byte then EmitLoadConstInt64 code 0
  else if elementType =? NativeInteger then EmitLoadConstNativeInt code 0
  else if elementType =? Char then EmitLoadConstChar16 code 0
  else if elementType =? Boolean then EmitLoadConstBool code false
  else if elementType =? Double then EmitLoadConstDouble64 code 0
  else EmitLoadConstNull code.

Definition EmitDuplicate (code : bytes) : bytes :=
  AppendDataT code (opcode_bytes OpCode.DUP).
Definition EmitLoadLocal (code : bytes) (index : Z) : bytes :=
  AppendDataT (AppendDataT code (opcode_bytes OpCode.LOAD_LOCAL)) (le 2 index).
Definition EmitStoreLocal (code : bytes) (index : Z) : bytes :=
  AppendDataT (AppendDataT code (opcode_bytes OpCode.STORE_LOCAL)) (le 2 index).
Definition EmitLoadArg (code : bytes) (index : Z) : bytes :=
  AppendDataT (AppendDataT code (opcode_bytes OpCode.LOAD_ARG)) (le 2 index).
Definition EmitStoreArg (code : bytes) (index : Z) : bytes :=
  AppendDataT (AppendDataT code (opcode_bytes OpCode.STORE_ARG)) (le 2 index).
Definition EmitJump (code : bytes) (jump : Z) : bytes :=
  AppendDataT (AppendDataT code (opcode_bytes OpCode.JUMP)) (le 8 jump).
Definition EmitJumpTrue (code : bytes) (jump : Z) : bytes :=
  AppendDataT (AppendDataT code (opcode_bytes OpCode.JUMP_TRUE)) (le 8 jump).
Definition EmitJumpFalse (code : bytes) (jump : Z) : bytes :=
  AppendDataT (AppendDataT code (opcode_bytes OpCode.JUMP_FALSE)) (le 8 jump).
Definition EmitBranchNull (code : bytes) (jump : Z) : bytes :=
  AppendDataT (AppendDataT code (opcode_bytes OpCode.BR_NULL)) (le 8 jump).

Definition EmitJumpTable (code : bytes) (targets : list Z) : bytes :=
  fold_left (fun code target => AppendDataT code (le 8 target)) targets
    (AppendDataT (AppendDataT code (opcode_bytes OpCode.JUMP_TABLE))
       (le 4 (Z.of_nat (List.length targets)))).

Definition EmitReturn (code : bytes) : bytes :=
  AppendDataT code (opcode_bytes OpCode.RETURN).
Definition EmitThrow (code : bytes) : bytes :=
  AppendDataT code (opcode_bytes OpCode.THROW).
Definition EmitEnterTry (code : bytes) (handlerOffset : Z) : bytes :=
  AppendDataT (AppendDataT code (opcode_bytes OpCode.ENTER_TRY)) (le 8 handlerOffset).
Definition EmitLeaveTry (code : bytes) : bytes :=
  AppendDataT code (opcode_bytes OpCode.LEAVE_TRY).
Definition EmitRethrow (code : bytes) : bytes :=
  AppendDataT code (opcode_bytes OpCode.RETHROW).
Definition EmitEndCatch (code : bytes) : bytes :=
  AppendDataT code (opcode_bytes OpCode.END_CATCH).
Definition EmitLoadCurrentException (code : bytes) : bytes :=
  AppendDataT code (opcode_bytes OpCode.LOAD_CURRENT_EXCEPTION).
Definition EmitStoreCurrentException (code : bytes) : bytes :=
  AppendDataT code (opcode_bytes OpCode.STORE_CURRENT_EXCEPTION).
Definition EmitDefer (code : bytes) (target : Z) : bytes :=
  AppendDataT (AppendDataT code (opcode_bytes OpCode.DEFER)) (le 8 target).
Definition EmitDeferBreak (code : bytes) : bytes :=
  AppendDataT code (opcode_bytes OpCode.DEFER_BREAK).
Definition EmitDeferDrain (code : bytes) (count : Z) : bytes :=
  AppendDataT (AppendDataT code (opcode_bytes OpCode.DEFER_DRAIN)) (le 8 count).
Definition EmitMathAdd (code : bytes) : bytes :=
  AppendDataT code (opcode_bytes OpCode.MATH_ADDITION).
Definition EmitMathSub (code : bytes) : bytes :=
  AppendDataT code (opcode_bytes OpCode.MATH_SUBTRACT).
Definition EmitMathMult (code : bytes) : bytes :=
  AppendDataT code (opcode_bytes OpCode.MATH_MULTIPLY).
Definition EmitMathDiv (code : bytes) : bytes :=
  AppendDataT code (opcode_bytes OpCode.MATH_DIVISION).
Definition EmitMathMod (code : bytes) : bytes :=
  AppendDataT code (opcode_bytes OpCode.MATH_MODULO).
Definition EmitMathPow (code : bytes) : bytes :=
  AppendDataT code (opcode_bytes OpCode.MATH_POWER).
Definition EmitMathNegative (code : bytes) : bytes :=
  AppendDataT code (opcode_bytes OpCode.MATH_NEGATIVE).
Definition EmitMathShl (code : bytes) : bytes :=
  AppendDataT code (opcode_bytes OpCode.MATH_SHL).
Definition EmitMathShr (code : bytes) : bytes :=
  AppendDataT code (opcode_bytes OpCode.MATH_SHR).
Definition EmitCompareEqual (code : bytes) : bytes :=
  AppendDataT code (opcode_bytes OpCode.COMPARE_EQUAL).
Definition EmitCompareNotEqual (code : bytes) : bytes :=
  AppendDataT code (opcode_bytes OpCode.COMPARE_NOTEQUAL).
Definition EmitCompareGreater (code : bytes) : bytes :=
  AppendDataT code (opcode_bytes OpCode.COMPARE_GREATER).
Definition EmitCompareGreaterOrEqual (code : bytes) : bytes :=
  AppendDataT code (opcode_bytes OpCode.COMPARE_GREATER_OR_EQUAL).
Definition EmitCompareLess (code : bytes) : bytes :=
  AppendDataT code (opcode_bytes OpCode.COMPARE_LESS).
Definition EmitCompareLessOrEqual (code : bytes) : bytes :=
  AppendDataT code (opcode_bytes OpCode.COMPARE_LESS_OR_EQUAL).
Definition EmitLogicalNot (code : bytes) : bytes :=
  AppendDataT code (opcode_bytes OpCode.LOGICAL_NOT).
Definition EmitLogicalOr (code : bytes) : bytes :=
  AppendDataT code (opcode_bytes OpCode.LOGICAL_OR).
Definition EmitLogicalAnd (code : bytes) : bytes :=
  AppendDataT code (opcode_bytes OpCode.LOGICAL_AND).
Definition EmitLoadTypeArgument (code : bytes) (index : Z) (type : Z) : bytes :=
  AppendDataT (AppendDataT (AppendDataT code (opcode_bytes OpCode.LOAD_TYPEARGUMENT))
    (le 2 index))
    (le 8 type).
Definition EmitNewObject (code : bytes) (type : Z) (ctor : Z) : bytes :=
  AppendDataT (AppendDataT (AppendDataT code (opcode_bytes OpCode.NEWOBJECT))
    (le 8 type))
    (le 8 ctor).
Definition EmitNewDelegate (code : bytes) (type : Z) : bytes :=
  AppendDataT (AppendDataT code (opcode_bytes OpCode.NEWDELEGATE)) (le 8 type).
Definition EmitLoadField (code : bytes) (slot : Z) : bytes :=
  AppendDataT (AppendDataT code (opcode_bytes OpCode.LOADFIELD)) (le 4 slot).
Definition EmitStoreField (code : bytes) (slot : Z) : bytes :=
  AppendDataT (AppendDataT code (opcode_bytes OpCode.STOREFIELD)) (le 4 slot).
Definition EmitNewArray (code : bytes) (type : Z) : bytes :=
  AppendDataT (AppendDataT code (opcode_bytes OpCode.NEWARRAY)) (le 8 type).
Definition EmitNewArrayDynamic (code : bytes) (type : Z) : bytes :=
  AppendDataT (AppendDataT code (opcode_bytes OpCode.NEWARRAY_DYNAMIC)) (le 8 type).
Definition EmitCreateRange (code : bytes) (type : Z) : bytes :=
  AppendDataT (AppendDataT code (opcode_bytes OpCode.CREATERANGE)) (le 8 type).
Definition EmitLoadArrayElement (code : bytes) : bytes :=
  AppendDataT code (opcode_bytes OpCode.LOADARRAYELEMENT).
Definition EmitStoreArrayElement (code : bytes) : bytes :=
  AppendDataT code (opcode_bytes OpCode.STOREARRAYELEMENT).
Definition EmitArrayLength (code : bytes) : bytes :=
  AppendDataT code (opcode_bytes OpCode.ARRAYLENGTH).
Definition EmitLoadStaticField (code : bytes) (type : Z) : bytes :=
  AppendDataT (AppendDataT code (opcode_bytes OpCode.LOADSTATICFIELD)) (le 8 type).
Definition EmitStoreStaticField (code : bytes) (type : Z) : bytes :=
  AppendDataT (AppendDataT code (opcode_bytes OpCode.STORESTATICFIELD)) (le 8 type).
Definition EmitLoadEnumField (code : bytes) (type : Z) : bytes :=
  AppendDataT (AppendDataT code (opcode_bytes OpCode.LOADENUMFIELD)) (le 8 type).
Definition EmitCallMethodSymbol (code : bytes) (method : Z) : bytes :=
  AppendDataT (AppendDataT code (opcode_bytes OpCode.CALLMETHODSYMBOL)) (le 8 method).
Definition EmitCallDelegate (code : bytes) (type : Z) : bytes :=
  AppendDataT (AppendDataT code (opcode_bytes OpCode.CALLDELEGATE)) (le 8 type).
Definition EmitCallInterface (code : bytes) (interfaceMethod : Z) : bytes :=
  AppendDataT (AppendDataT code (opcode_bytes OpCode.CALLINTERFACE)) (le 8 interfaceMethod).
Definition EmitIsInstance (code : bytes) (type : Z) : bytes :=
  AppendDataT (AppendDataT code (opcode_bytes OpCode.ISINSTANCE)) (le 8 type).
Definition EmitCastAs (code : bytes) (type : Z) : bytes :=
  AppendDataT (AppendDataT code (opcode_bytes OpCode.CAST_AS)) (le 8 type).
Definition EmitCast (code : bytes) (type : Z) : bytes :=
  AppendDataT (AppendDataT code (opcode_bytes OpCode.CAST)) (le 8 type).
Definition EmitCastPrimitive (code : bytes) (type : Z) : bytes :=
  AppendDataT (AppendDataT code (opcode_bytes OpCode.CASTPRIMITIVE)) (le 8 type).

End ByteCodeEncoder.

(** ** Decoding *)
Module ByteCodeDecoder.
Record Decoder := mkDecoder {
  code_ : bytes;
  ip : Z
}.

(** [ReadUnaligned]: a value that does not fit the rest of the code is left
    zero and nothing is consumed. *)
Definition ReadUnaligned (n : nat) (d : Decoder) : Z * Decoder :=
  if size (code_ d) <? ip d + Z.of_nat n then (0, d)
  else (unle (firstn n (skipn (Z.to_nat (ip d)) (code_ d))), mkDecoder (code_ d) (ip d + Z.of_nat n)).

Definition IsEOF (d : Decoder) : bool := size (code_ d) <=? ip d.
Definition Index (d : Decoder) : Z := ip d.
Definition GetCursor (d : Decoder) : Z := ip d.
Definition Return (d : Decoder) : Decoder := mkDecoder (code_ d) (size (code_ d)).

(** [SetCursor]: the argument is a signed 64-bit integer. *)
Definition SetCursor (amount : Z) (d : Decoder) : result Decoder :=
  if amount <? 0 then Throw "Tried to below code boundaries"
  else if size (code_ d) <? amount then Throw "Tried to read out of code boundaries"
  else Ok (mkDecoder (code_ d) amount).

(** [PeekJumpAt] *)
Definition PeekJumpAt (offset : Z) (d : Decoder) : result Z :=
  if size (code_ d) <? size_t (offset + 8) then
    Throw "Tried to read jump target out of code boundaries"
  else if offset + 8 <=? size (code_ d) then
    Ok (unle (firstn 8 (skipn (Z.to_nat offset) (code_ d))))
  else UB.

(** The [Absorb] functions. *)
Definition AbsorbOpCode (d : Decoder) : Z * Decoder := ReadUnaligned 2 d.
Definition AbsorbBoolean (d : Decoder) : bool * Decoder :=
  let (v, d) := ReadUnaligned 1 d in (negb (v =? 0), d).
Definition AbsorbInt64 (d : Decoder) : Z * Decoder :=
  let (v, d) := ReadUnaligned 8 d in (signed 64 v, d).
Definition AbsorbIntPtr (d : Decoder) : Z * Decoder :=
  let (v, d) := ReadUnaligned 8 d in (signed 64 v, d).
Definition AbsorbDouble64 (d : Decoder) : Z * Decoder := ReadUnaligned 8 d.
Definition AbsorbChar16 (d : Decoder) : Z * Decoder :=
  let (v, d) := ReadUnaligned 4 d in (signed 32 v, d).
Definition AbsorbString (d : Decoder) : Z * Decoder := ReadUnaligned 8 d.
Definition AbsorbUInt8 (d : Decoder) : Z * Decoder := ReadUnaligned 1 d.
Definition AbsorbVariableSlot (d : Decoder) : Z * Decoder := ReadUnaligned 2 d.
Definition AbsorbUInt16 (d : Decoder) : Z * Decoder := ReadUnaligned 2 d.
Definition AbsorbUInt32 (d : Decoder) : Z * Decoder := ReadUnaligned 4 d.
Definition AbsorbJump (d : Decoder) : Z * Decoder := ReadUnaligned 8 d.
Definition AbsorbTypeSymbol (d : Decoder) : Z * Decoder := ReadUnaligned 8 d.
Definition AbsordDelegateTypeSymbol (d : Decoder) : Z * Decoder := ReadUnaligned 8 d.
Definition AbsorbFieldSlot (d : Decoder) : Z * Decoder := ReadUnaligned 4 d.
Definition AbsorbFieldSymbol (d : Decoder) : Z * Decoder := ReadUnaligned 8 d.
Definition AbsorbArraySymbol (d : Decoder) : Z * Decoder := ReadUnaligned 8 d.
Definition AbsorbMethodSymbol (d : Decoder) : Z * Decoder := ReadUnaligned 8 d.
Definition AbsorbConstructorSymbol (d : Decoder) : Z * Decoder := ReadUnaligned 8 d.
End ByteCodeDecoder.

(** ** Operands *)

(** What an operation's operand is absorbed as; [KTable] is the count and
    the targets of a jump table, which only the disassembler absorbs. *)
Inductive kind :=
| KBool | KUInt8 | KInt64 | KIntPtr | KDouble | KChar | KString | KSlot | KUInt16 | KUInt32
| KJump | KFieldSlot | KPointer | KTable.

(** The operands [VirtualMachine::ProcessCode] absorbs for each operation;
    [None] where its switch has no case.  Of a jump table it absorbs the count; the
    targets stay in the code, where [PeekJumpAt] reads one of them. *)
Definition vm_operands (op : OpCode.t) : option (list kind) :=
  match op with
  | OpCode.NOP | OpCode.HALT | OpCode.POP | OpCode.LOADCONST_NULL | OpCode.DUP
  | OpCode.RETURN | OpCode.THROW | OpCode.MATH_ADDITION | OpCode.MATH_SUBTRACT
  | OpCode.MATH_MULTIPLY | OpCode.MATH_DIVISION | OpCode.MATH_MODULO | OpCode.MATH_POWER
  | OpCode.MATH_NEGATIVE | OpCode.MATH_SHL | OpCode.MATH_SHR | OpCode.COMPARE_EQUAL
  | OpCode.COMPARE_NOTEQUAL | OpCode.COMPARE_GREATER | OpCode.COMPARE_GREATER_OR_EQUAL
  | OpCode.COMPARE_LESS | OpCode.COMPARE_LESS_OR_EQUAL | OpCode.LOGICAL_NOT
  | OpCode.LOGICAL_OR | OpCode.LOGICAL_AND | OpCode.LOADARRAYELEMENT
  | OpCode.STOREARRAYELEMENT | OpCode.ARRAYLENGTH | OpCode.LEAVE_TRY | OpCode.RETHROW
  | OpCode.END_CATCH | OpCode.LOAD_CURRENT_EXCEPTION | OpCode.STORE_CURRENT_EXCEPTION
  | OpCode.DEFER_BREAK => Some []
  | OpCode.LOADCONST_BOOLEAN => Some [KBool]
  | OpCode.LOADCONST_INTEGER8 => Some [KUInt8]
  | OpCode.LOADCONST_INTEGER64 => Some [KInt64]
  | OpCode.LOADCONST_NATIVE_INTEGER => Some [KIntPtr]
  | OpCode.LOADCONST_RATIONAL64 => Some [KDouble]
  | OpCode.LOADCONST_CHAR => Some [KChar]
  | OpCode.LOADCONST_STRING => Some [KString]
  | OpCode.STORE_LOCAL | OpCode.STORE_ARG | OpCode.LOAD_LOCAL | OpCode.LOAD_ARG => Some [KSlot]
  | OpCode.JUMP | OpCode.JUMP_TRUE | OpCode.JUMP_FALSE | OpCode.BR_NULL | OpCode.ENTER_TRY
  | OpCode.DEFER | OpCode.DEFER_DRAIN => Some [KJump]
  | OpCode.JUMP_TABLE => Some [KUInt32]
  | OpCode.NEWOBJECT => Some [KPointer; KPointer]
  | OpCode.NEWDELEGATE | OpCode.NEWARRAY | OpCode.NEWARRAY_DYNAMIC | OpCode.LOADSTATICFIELD
  | OpCode.LOADENUMFIELD | OpCode.STORESTATICFIELD | OpCode.CALLMETHODSYMBOL
  | OpCode.CALLDELEGATE | OpCode.CALLINTERFACE | OpCode.ISINSTANCE | OpCode.CAST_AS
  | OpCode.CAST | OpCode.CASTPRIMITIVE | OpCode.CREATERANGE => Some [KPointer]
  | OpCode.LOADFIELD | OpCode.STOREFIELD => Some [KFieldSlot]
  | OpCode.LOAD_TYPEARGUMENT => Some [KUInt16; KPointer]
  end.

(** The operands [ProgramDisassembler::Disassemble] absorbs. *)
Definition disassembler_operands (op : OpCode.t) : option (list kind) :=
  match op with
  | OpCode.NOP | OpCode.HALT | OpCode.POP | OpCode.LOADCONST_NULL | OpCode.DUP
  | OpCode.RETURN | OpCode.THROW | OpCode.MATH_ADDITION | OpCode.MATH_SUBTRACT
  | OpCode.MATH_MULTIPLY | OpCode.MATH_DIVISION | OpCode.MATH_MODULO | OpCode.MATH_POWER
  | OpCode.MATH_NEGATIVE | OpCode.MATH_SHL | OpCode.MATH_SHR | OpCode.COMPARE_EQUAL
  | OpCode.COMPARE_NOTEQUAL | OpCode.COMPARE_GREATER | OpCode.COMPARE_GREATER_OR_EQUAL
  | OpCode.COMPARE_LESS | OpCode.COMPARE_LESS_OR_EQUAL | OpCode.LOGICAL_NOT
  | OpCode.LOGICAL_OR | OpCode.LOGICAL_AND | OpCode.LOADARRAYELEMENT
  | OpCode.STOREARRAYELEMENT | OpCode.ARRAYLENGTH | OpCode.LEAVE_TRY | OpCode.RETHROW
  | OpCode.END_CATCH | OpCode.LOAD_CURRENT_EXCEPTION | OpCode.STORE_CURRENT_EXCEPTION
  | OpCode.DEFER_BREAK => Some []
  | OpCode.LOADCONST_BOOLEAN => Some [KBool]
  | OpCode.LOADCONST_INTEGER8 | OpCode.LOADCONST_NATIVE_INTEGER | OpCode.CAST
  | OpCode.CASTPRIMITIVE => None
  | OpCode.LOADCONST_INTEGER64 => Some [KInt64]
  | OpCode.LOADCONST_RATIONAL64 => Some [KDouble]
  | OpCode.LOADCONST_CHAR => Some [KChar]
  | OpCode.LOADCONST_STRING => Some [KString]
  | OpCode.STORE_LOCAL | OpCode.STORE_ARG | OpCode.LOAD_LOCAL | OpCode.LOAD_ARG => Some [KSlot]
  | OpCode.JUMP | OpCode.JUMP_TRUE | OpCode.JUMP_FALSE | OpCode.BR_NULL | OpCode.ENTER_TRY
  | OpCode.DEFER | OpCode.DEFER_DRAIN => Some [KJump]
  | OpCode.JUMP_TABLE => Some [KTable]
  | OpCode.NEWOBJECT => Some [KPointer; KPointer]
  | OpCode.NEWDELEGATE | OpCode.NEWARRAY | OpCode.NEWARRAY_DYNAMIC | OpCode.LOADSTATICFIELD
  | OpCode.LOADENUMFIELD | OpCode.STORESTATICFIELD | OpCode.CALLMETHODSYMBOL
  | OpCode.CALLDELEGATE | OpCode.CALLINTERFACE | OpCode.ISINSTANCE | OpCode.CAST_AS
  | OpCode.CREATERANGE => Some [KPointer]
  | OpCode.LOADFIELD | OpCode.STOREFIELD => Some [KFieldSlot]
  | OpCode.LOAD_TYPEARGUMENT => Some [KUInt16; KPointer]
  end.

(** An operand read from the code. *)
Inductive operand :=
| OBool (b : bool)
| ONum (z : Z)
| OTable (targets : list Z).

Import ByteCodeDecoder.

Fixpoint AbsorbJumps (count : nat) (d : Decoder) : list Z * Decoder :=
  match count with
  | O => ([], d)
  | S count =>
      let (target, d) := AbsorbJump d in
      let (targets, d) := AbsorbJumps count d in (target :: targets, d)
  end.

Definition absorb_operand (k : kind) (d : Decoder) : operand * Decoder :=
  match k with
  | KBool => let (v, d) := AbsorbBoolean d in (OBool v, d)
  | KUInt8 => let (v, d) := AbsorbUInt8 d in (ONum v, d)
  | KInt64 => let (v, d) := AbsorbInt64 d in (ONum v, d)
  | KIntPtr => let (v, d) := AbsorbIntPtr d in (ONum v, d)
  | KDouble => let (v, d) := AbsorbDouble64 d in (ONum v, d)
  | KChar => let (v, d) := AbsorbChar16 d in (ONum v, d)
  | KString => let (v, d) := AbsorbString d in (ONum v, d)
  | KSlot => let (v, d) := AbsorbVariableSlot d in (ONum v, d)
  | KUInt16 => let (v, d) := AbsorbUInt16 d in (ONum v, d)
  | KUInt32 => let (v, d) := AbsorbUInt32 d in (ONum v, d)
  | KJump => let (v, d) := AbsorbJump d in (ONum v, d)
  | KFieldSlot => let (v, d) := AbsorbFieldSlot d in (ONum v, d)
  | KPointer => let (v, d) := AbsorbTypeSymbol d in (ONum v, d)
  | KTable =>
      let (count, d) := AbsorbUInt32 d in
      let (targets, d) := AbsorbJumps (Z.to_nat count) d in (OTable targets, d)
  end.

Fixpoint absorb_operands (ks : list kind) (d : Decoder) : list operand * Decoder :=
  match ks with
  | [] => ([], d)
  | k :: ks =>
      let (o, d) := absorb_operand k d in
      let (os, d) := absorb_operands ks d in (o :: os, d)
  end.

(** ** The string pool *)

(** [reinterpret_cast<wchar_t*>(program.DataSection.data() + data)]: the
    characters up to the terminator; [None] past the end of the section. *)
Fixpoint c_string (data : bytes) : option wstring :=
  match data with
  | b0 :: b1 :: b2 :: b3 :: data =>
      let c := signed 32 (unle [b0; b1; b2; b3]) in
      if c =? 0 then Some []
      else match c_string data with Some s => Some (c :: s) | None => None end
  | _ => None
  end.

Definition pool_string (DataSection : bytes) (data : Z) : option wstring :=
  c_string (skipn (Z.to_nat data) DataSection).

(** ** Fetching an instruction *)

(** [decoder.AbsorbOpCode()] and the operands of the operation's case in
    [ProcessCode]: the raw operation code, the operands, and the decoder
    after them. *)
Definition fetch (d : Decoder) : Z * list operand * Decoder :=
  let (raw, d) := AbsorbOpCode d in
  match OpCode.of_value raw with
  | Some op =>
      match vm_operands op with
      | Some ks => let (os, d) := absorb_operands ks d in (raw, os, d)
      | None => (raw, [], d)
      end
  | None => (raw, [], d)
  end.
