(* ===== verification/ByteCodeFacts.v ===== *)
(** * Encoding and decoding instructions

    Byte codecs, and the decoder's position over code the encoder wrote. *)
From Stdlib Require Import ZArith Lia Bool List String.
From stdpp Require Import base list.
From S2P Require Import Prelude ByteCode.
Import ListNotations ByteCodeEncoder ByteCodeDecoder.
Open Scope Z_scope.
Open Scope shard_scope.

(** ** Bytes *)

Lemma length_le n z : List.length (le n z) = n.
Proof. revert z; induction n as [|n IH]; intros z; cbn; [reflexivity|rewrite IH; reflexivity]. Qed.

Lemma unle_le n : forall z, unle (le n z) = z mod 256 ^ Z.of_nat n.
Proof.
  induction n as [|n IH]; intros z; cbn [le unle]; [cbn; rewrite Z.mod_1_r; reflexivity|].
  rewrite IH, Nat2Z.inj_succ, Z.pow_succ_r by lia.
  rewrite Z.rem_mul_r by (try apply Z.pow_pos_nonneg; lia); lia.
Qed.

Lemma le_bytes n : forall z, Forall (fun b => 0 <= b < 256) (le n z).
Proof.
  induction n as [|n IH]; intros z; cbn; constructor; [apply Z.mod_pos_bound; lia|apply IH].
Qed.

Lemma le_unle l : Forall (fun b => 0 <= b < 256) l -> le (List.length l) (unle l) = l.
Proof.
  induction 1 as [|b l Hb _ IH]; cbn; [reflexivity|].
  rewrite (Z.mul_comm 256), Z.mod_add, Z.mod_small, Z.div_add, Z.div_small by lia.
  rewrite Z.add_0_l, IH; reflexivity.
Qed.

Lemma size_app a b : size (a ++ b) = size a + size b.
Proof. unfold size; rewrite length_app; lia. Qed.

Lemma size_le n z : size (le n z) = Z.of_nat n.
Proof. unfold size; rewrite length_le; reflexivity. Qed.

(** The decoder at the start of [mid], between [pre] and [post]. *)
Definition cursor (pre rest : bytes) : Decoder := mkDecoder (pre ++ rest) (size pre).

Lemma cursor_app pre a rest : cursor (pre ++ a) rest = mkDecoder (pre ++ a ++ rest) (size pre + size a).
Proof. unfold cursor; rewrite <- app_assoc, size_app; reflexivity. Qed.

Lemma ReadUnaligned_le n pre z rest :
  ReadUnaligned n (cursor pre (le n z ++ rest)) = (z mod 256 ^ Z.of_nat n, cursor (pre ++ le n z) rest).
Proof.
  unfold ReadUnaligned; rewrite cursor_app; unfold cursor; cbn [code_ ip].
  rewrite !size_app, size_le.
  destruct (Z.ltb_spec (size pre + (Z.of_nat n + size rest)) (size pre + Z.of_nat n));
    [unfold size in *; lia|].
  f_equal; rewrite <- unle_le; f_equal.
  replace (Z.to_nat (size pre)) with (List.length pre) by (unfold size; lia).
  rewrite drop_app_length, take_app_length' by (rewrite length_le; reflexivity); reflexivity.
Qed.

(** A read past the end yields zero and does not move. *)
Lemma ReadUnaligned_short n d : size (code_ d) < ip d + Z.of_nat n -> ReadUnaligned n d = (0, d).
Proof. intros Hs; unfold ReadUnaligned; apply Z.ltb_lt in Hs; rewrite Hs; reflexivity. Qed.

(** ** Operands *)

(** The operands the encoder can write of each kind, in the range of the
    parameter's C++ type. *)
Definition fits (k : kind) (o : operand) : Prop :=
  match k, o with
  | KBool, OBool _ => True
  | KUInt8, ONum z => 0 <= z < 2 ^ 7
  | (KInt64 | KIntPtr), ONum z => - 2 ^ 63 <= z < 2 ^ 63
  | KChar, ONum z => - 2 ^ 31 <= z < 2 ^ 31
  | (KDouble | KString | KJump | KPointer), ONum z => 0 <= z < 2 ^ 64
  | (KSlot | KUInt16), ONum z => 0 <= z < 2 ^ 16
  | (KUInt32 | KFieldSlot), ONum z => 0 <= z < 2 ^ 32
  | KTable, OTable ts => Z.of_nat (List.length ts) < 2 ^ 32 /\ Forall (fun t => 0 <= t < 2 ^ 64) ts
  | _, _ => False
  end.

Definition width (k : kind) : nat :=
  match k with
  | KBool | KUInt8 => 1
  | KSlot | KUInt16 => 2
  | KChar | KUInt32 | KFieldSlot | KTable => 4
  | KInt64 | KIntPtr | KDouble | KString | KJump | KPointer => 8
  end.

Definition encode_operand (k : kind) (o : operand) : bytes :=
  match o with
  | OBool b => le (width k) (Z.b2z b)
  | ONum z => le (width k) z
  | OTable ts => le 4 (Z.of_nat (List.length ts)) ++ flat_map (le 8) ts
  end.

Fixpoint encode_operands (ks : list kind) (os : list operand) : bytes :=
  match ks, os with
  | k :: ks, o :: os => encode_operand k o ++ encode_operands ks os
  | _, _ => []
  end.

(** The operands as the encoder lays them out: those absorbed, and the targets of a
    jump table. *)
Definition layout_operands (op : OpCode.t) : option (list kind) :=
  match op with OpCode.JUMP_TABLE => Some [KTable] | _ => vm_operands op end.

Lemma signed_wrap w z : 0 < w -> - 2 ^ (w - 1) <= z < 2 ^ (w - 1) -> signed w (z mod 2 ^ w) = z.
Proof.
  intros Hw Hz; unfold signed.
  assert (E : 2 ^ w = 2 * 2 ^ (w - 1)) by (rewrite <- Z.pow_succ_r by lia; f_equal; lia).
  destruct (Z.ltb_spec z 0).
  - replace (z mod 2 ^ w) with (z + 2 ^ w)
      by (rewrite <- (Z.mod_add z 1 (2 ^ w)), Z.mul_1_l, Z.mod_small by lia; reflexivity).
    destruct (Z.ltb_spec (z + 2 ^ w) (2 ^ (w - 1))); lia.
  - rewrite Z.mod_small by lia; destruct (Z.ltb_spec z (2 ^ (w - 1))); lia.
Qed.

Lemma AbsorbJumps_le ts : forall pre rest, Forall (fun t => 0 <= t < 2 ^ 64) ts ->
  AbsorbJumps (List.length ts) (cursor pre (flat_map (le 8) ts ++ rest))
    = (ts, cursor (pre ++ flat_map (le 8) ts) rest).
Proof.
  induction ts as [|t ts IH]; intros pre rest Ht; cbn [AbsorbJumps List.length flat_map].
  - rewrite app_nil_r; reflexivity.
  - apply List.Forall_cons_iff in Ht as [Ht Hts]; unfold AbsorbJump.
    rewrite <- app_assoc, ReadUnaligned_le, IH by exact Hts.
    change (256 ^ Z.of_nat 8) with (2 ^ 64); rewrite Z.mod_small by exact Ht.
    rewrite <- app_assoc; reflexivity.
Qed.

(** Absorbing an operand the encoder wrote gives it back and moves the cursor
    past it. *)
Lemma absorb_encoded k o pre rest : fits k o ->
  absorb_operand k (cursor pre (encode_operand k o ++ rest))
    = (o, cursor (pre ++ encode_operand k o) rest).
Proof.
  intros Hf; destruct k, o as [b|z|ts]; try contradiction; cbn [fits] in Hf;
    cbn [absorb_operand encode_operand width];
    unfold AbsorbBoolean, AbsorbUInt8, AbsorbInt64, AbsorbIntPtr, AbsorbDouble64, AbsorbChar16,
      AbsorbString, AbsorbVariableSlot, AbsorbUInt16, AbsorbUInt32, AbsorbJump, AbsorbFieldSlot,
      AbsorbTypeSymbol;
    try rewrite <- app_assoc; rewrite ReadUnaligned_le.
  1: destruct b; reflexivity.
  all: try (rewrite Z.mod_small by (cbn; lia); reflexivity).
  all: try (change (256 ^ Z.of_nat 8) with (2 ^ 64); rewrite (signed_wrap 64) by (cbn; lia); reflexivity).
  - change (256 ^ Z.of_nat 4) with (2 ^ 32); rewrite (signed_wrap 32) by (cbn; lia); reflexivity.
  - destruct Hf as [Hc Hts]; rewrite Z.mod_small by (cbn; lia); rewrite Nat2Z.id.
    rewrite AbsorbJumps_le by exact Hts; rewrite <- app_assoc; reflexivity.
Qed.

Lemma absorb_operands_encoded ks : forall os pre rest, Forall2 fits ks os ->
  absorb_operands ks (cursor pre (encode_operands ks os ++ rest))
    = (os, cursor (pre ++ encode_operands ks os) rest).
Proof.
  induction ks as [|k ks IH]; intros os pre rest Hf; inversion Hf as [|? o ? os' Hk Hks]; subst;
    cbn [absorb_operands encode_operands]; [rewrite app_nil_r; reflexivity|].
  rewrite <- app_assoc, absorb_encoded, IH by assumption; rewrite <- app_assoc; reflexivity.
Qed.

(** The operands the encoder accepts, a signed 8-bit constant among them, and what
    the virtual machine reads for them: the constant unsigned, and of a jump table its
    count. *)
Definition writable (k : kind) (o : operand) : Prop :=
  match k, o with
  | KUInt8, ONum z => - 2 ^ 7 <= z < 2 ^ 7
  | _, _ => fits k o
  end.
Definition read_operand (k : kind) (o : operand) : operand :=
  match k, o with
  | KUInt8, ONum z => ONum (z mod 2 ^ 8)
  | KTable, OTable ts => ONum (Z.of_nat (List.length ts))
  | _, _ => o
  end.

Lemma absorb_written k o pre rest : writable k o -> k <> KTable ->
  absorb_operand k (cursor pre (encode_operand k o ++ rest))
    = (read_operand k o, cursor (pre ++ encode_operand k o) rest).
Proof.
  intros Hw Hk; destruct k; try (rewrite absorb_encoded by exact Hw; destruct o; reflexivity); [|congruence].
  destruct o as [|z|]; try contradiction; cbn [encode_operand width absorb_operand read_operand].
  unfold AbsorbUInt8; rewrite ReadUnaligned_le; reflexivity.
Qed.

Lemma absorb_operands_written ks : forall os pre rest, Forall2 writable ks os -> ~ In KTable ks ->
  absorb_operands ks (cursor pre (encode_operands ks os ++ rest))
    = (map (fun x => read_operand x.1 x.2) (combine ks os), cursor (pre ++ encode_operands ks os) rest).
Proof.
  induction ks as [|k ks IH]; intros os pre rest Hf Hk; inversion Hf as [|? o ? os' Hw Hws]; subst;
    cbn [absorb_operands encode_operands combine map fst snd]; [rewrite app_nil_r; reflexivity|].
  rewrite <- app_assoc, absorb_written, IH; [rewrite <- app_assoc; reflexivity|exact Hws| |exact Hw|];
    intros H; apply Hk; cbn; auto.
Qed.

(** ** Instructions *)

Definition instr : Type := OpCode.t * list operand.

Definition well_formed (i : instr) : Prop :=
  exists ks, layout_operands i.1 = Some ks /\ Forall2 writable ks i.2.

(** What the virtual machine reads of an instruction. *)
Definition fetched (i : instr) : list operand :=
  match layout_operands i.1 with
  | Some ks => map (fun x => read_operand x.1 x.2) (combine ks i.2)
  | None => []
  end.

Definition encode (i : instr) : bytes :=
  opcode_bytes i.1 ++ match layout_operands i.1 with Some ks => encode_operands ks i.2 | None => [] end.

Lemma AbsorbOpCode_encoded op pre rest :
  AbsorbOpCode (cursor pre (opcode_bytes op ++ rest))
    = (OpCode.value op, cursor (pre ++ opcode_bytes op) rest).
Proof.
  unfold AbsorbOpCode, opcode_bytes; rewrite ReadUnaligned_le; f_equal.
  apply Z.mod_small; pose proof (OpCode.value_range op); cbn; lia.
Qed.

Lemma layout_no_table op ks : layout_operands op = Some ks -> op <> OpCode.JUMP_TABLE ->
  vm_operands op = Some ks /\ ~ In KTable ks.
Proof.
  intros H Hop; destruct op; try congruence; injection H as <-;
    (split; [reflexivity|intros Hin; repeat destruct Hin as [Hin|Hin]; try discriminate; contradiction]).
Qed.

Lemma fetch_encoded i pre rest : well_formed i -> i.1 <> OpCode.JUMP_TABLE ->
  fetch (cursor pre (encode i ++ rest)) = (OpCode.value i.1, fetched i, cursor (pre ++ encode i) rest).
Proof.
  intros (ks & Hk & Hf) Hop; destruct (layout_no_table _ _ Hk Hop) as (Hv & Ht).
  unfold fetch, encode, fetched; rewrite Hk, <- app_assoc, AbsorbOpCode_encoded.
  rewrite OpCode.of_value_value, Hv, absorb_operands_written by assumption.
  rewrite <- app_assoc; reflexivity.
Qed.

(** Of a jump table the count is read, and the cursor stays before the targets. *)
Lemma fetch_table ts pre rest : well_formed (OpCode.JUMP_TABLE, [OTable ts]) ->
  let head := opcode_bytes OpCode.JUMP_TABLE ++ le 4 (Z.of_nat (List.length ts)) in
  fetch (cursor pre (encode (OpCode.JUMP_TABLE, [OTable ts]) ++ rest))
  = (OpCode.value OpCode.JUMP_TABLE, [ONum (Z.of_nat (List.length ts))],
     cursor (pre ++ head) (flat_map (le 8) ts ++ rest)).
Proof.
  intros (ks & Hk & Hf) head; injection Hk as <-; inversion Hf as [|? ? ? ? Hw _]; subst; destruct Hw as [Hlen _].
  unfold fetch, encode, head; cbn [fst snd layout_operands vm_operands encode_operands encode_operand].
  rewrite app_nil_r, <- !app_assoc, AbsorbOpCode_encoded, OpCode.of_value_value.
  cbn [vm_operands absorb_operands absorb_operand]; unfold AbsorbUInt32.
  rewrite ReadUnaligned_le, Z.mod_small by (cbn; lia); rewrite <- app_assoc; reflexivity.
Qed.

(** A target of a jump table, read from where it lies. *)
Lemma PeekJumpAt_target pre ts rest n t :
  nth_error ts n = Some t -> Forall (fun t => 0 <= t < 2 ^ 64) ts -> size (pre ++ flat_map (le 8) ts ++ rest) < 2 ^ 64 ->
  PeekJumpAt (size pre + 8 * Z.of_nat n) (cursor pre (flat_map (le 8) ts ++ rest)) = Ok t.
Proof.
  revert pre n; induction ts as [|t' ts IH]; intros pre n Hn Hts Hs; [destruct n; discriminate|].
  apply List.Forall_cons_iff in Hts as [Ht Hts]; destruct n as [|n]; cbn [nth_error flat_map] in Hn |- *.
  - injection Hn as ->; unfold PeekJumpAt, cursor; cbn [code_ ip]; cbn [flat_map] in Hs.
    rewrite Z.add_0_r, <- !app_assoc in *; rewrite !size_app, size_le in *.
    assert (0 <= size pre /\ 0 <= size (flat_map (le 8) ts) /\ 0 <= size rest) by (unfold size; lia).
    unfold size_t; rewrite Z.mod_small by lia; rewrite (proj2 (Z.ltb_ge _ _)), (proj2 (Z.leb_le _ _)) by lia.
    replace (Z.to_nat (size pre)) with (List.length pre) by (unfold size; lia).
    rewrite drop_app_length, take_app_length' by (rewrite length_le; reflexivity); rewrite unle_le, Z.mod_small by (cbn; lia).
    reflexivity.
  - specialize (IH (pre ++ le 8 t') n Hn Hts); cbn [flat_map] in Hs.
    replace (size (pre ++ le 8 t')) with (size pre + Z.of_nat 8) in IH by (rewrite size_app, size_le; reflexivity).
    rewrite <- !app_assoc in *; specialize (IH Hs); unfold cursor in *; rewrite <- !app_assoc in *.
    unfold PeekJumpAt in *; cbn [code_ ip] in *.
    replace (size pre + 8 * Z.of_nat (S n)) with (size pre + Z.of_nat 8 + 8 * Z.of_nat n) by lia; exact IH.
Qed.

Lemma encode_size i : 2 <= size (encode i).
Proof. unfold encode, opcode_bytes; rewrite size_app, size_le; unfold size; lia. Qed.

(** ** Patching *)
Lemma jump_size op old pre post :
  layout_operands op = Some [KJump] ->
  size (pre ++ encode (op, [ONum old]) ++ post) = size pre + 10 + size post.
Proof.
  intros Hop; unfold encode; cbn [fst snd]; rewrite Hop.
  cbn [encode_operands encode_operand width]; rewrite app_nil_r, !size_app.
  unfold opcode_bytes; rewrite !size_le; lia.
Qed.

(** The operand of a jump instruction is replaced in place. *)
Lemma PasteData_jump op pre post old target :
  layout_operands op = Some [KJump] -> size (pre ++ encode (op, [ONum old]) ++ post) < 2 ^ 64 ->
  PasteData (pre ++ encode (op, [ONum old]) ++ post) (size pre + 2) (le 8 target)
    = Ok (pre ++ encode (op, [ONum target]) ++ post).
Proof.
  intros Hop Hlen; pose proof (jump_size op old pre post Hop) as Hs; rewrite Hs in Hlen.
  assert (Hpos : 0 <= size pre /\ 0 <= size post) by (unfold size; lia).
  unfold PasteData; rewrite Hs, size_le; unfold size_t; rewrite Z.mod_small by lia.
  destruct (Z.ltb_spec (size pre + 10 + size post) (size pre + 2 + Z.of_nat 8)); [lia|].
  destruct (Z.leb_spec (size pre + 2 + Z.of_nat 8) (size pre + 10 + size post)); [|lia].
  unfold encode; cbn [fst snd]; rewrite Hop; cbn [encode_operands encode_operand width].
  rewrite !app_nil_r, <- !app_assoc, app_assoc, (app_assoc pre).
  replace (Z.to_nat (size pre + 2)) with (List.length (pre ++ opcode_bytes op))
    by (rewrite length_app; unfold opcode_bytes; rewrite length_le; unfold size; lia).
  rewrite take_app_length, (app_assoc (pre ++ opcode_bytes op) (le 8 old) post), length_le.
  rewrite drop_app_length' by (rewrite !length_app, !length_le; lia).
  rewrite <- !app_assoc; reflexivity.
Qed.
