(* ===== verification/Disassembler.v ===== *)
(** * The disassembler

    [ProgramDisassembler::Disassemble] (src/compilation/ProgramDisassembler.cpp):
    the loop over the code of a method.  A line keeps its offset, its mnemonic
    and the operands it absorbs; the rendering of numbers, symbol names and
    colours is not modelled. *)
From Stdlib Require Import ZArith Lia Bool List String.
From stdpp Require Import base list.
From S2P Require Import Prelude ByteCode.
Import ListNotations ByteCodeDecoder.
Open Scope Z_scope.
Open Scope shard_scope.

Module ProgramDisassembler.
(** A printed line; the unknown case prints the raw operation code. *)
Record Line := mkLine {
  Offset : Z;
  Mnemonic : wstring;
  Arguments : list operand
}.

(** The mnemonics of the switch. *)
Definition mnemonic (op : OpCode.t) : wstring :=
  match op with
  | OpCode.NOP => L "nop"
  | OpCode.HALT => L "halt"
  | OpCode.POP => L "pop"
  | OpCode.LOADCONST_NULL => L "ldnull"
  | OpCode.LOADCONST_BOOLEAN => L "ldc.bool"
  | OpCode.LOADCONST_INTEGER64 => L "ldc.i8"
  | OpCode.LOADCONST_RATIONAL64 => L "ldc.r8"
  | OpCode.LOADCONST_CHAR => L "ldc.char"
  | OpCode.LOADCONST_STRING => L "ldstr"
  | OpCode.DUP => L "dup"
  | OpCode.STORE_LOCAL => L "stloc"
  | OpCode.STORE_ARG => L "starg"
  | OpCode.LOAD_LOCAL => L "ldloc"
  | OpCode.LOAD_ARG => L "ldarg"
  | OpCode.JUMP => L "jmp"
  | OpCode.JUMP_TRUE => L "jmpt"
  | OpCode.JUMP_FALSE => L "jmpf"
  | OpCode.BR_NULL => L "brnull"
  | OpCode.JUMP_TABLE => L "jmptable"
  | OpCode.RETURN => L "ret"
  | OpCode.THROW => L "throw"
  | OpCode.MATH_ADDITION => L "add"
  | OpCode.MATH_SUBTRACT => L "sub"
  | OpCode.MATH_MULTIPLY => L "mul"
  | OpCode.MATH_DIVISION => L "div"
  | OpCode.MATH_MODULO => L "mod"
  | OpCode.MATH_POWER => L "pow"
  | OpCode.MATH_NEGATIVE => L "neg"
  | OpCode.MATH_SHL => L "shl"
  | OpCode.MATH_SHR => L "shr"
  | OpCode.COMPARE_EQUAL => L "cmp_eq"
  | OpCode.COMPARE_NOTEQUAL => L "cmp_neq"
  | OpCode.COMPARE_GREATER => L "cmp_gt"
  | OpCode.COMPARE_GREATER_OR_EQUAL => L "cmp_ge"
  | OpCode.COMPARE_LESS => L "cmp_l"
  | OpCode.COMPARE_LESS_OR_EQUAL => L "cmp_le"
  | OpCode.LOGICAL_NOT => L "not"
  | OpCode.LOGICAL_OR => L "or"
  | OpCode.LOGICAL_AND => L "and"
  | OpCode.NEWOBJECT => L "newobj"
  | OpCode.NEWDELEGATE => L "newdelegate"
  | OpCode.LOADFIELD => L "ldfld"
  | OpCode.STOREFIELD => L "stfld"
  | OpCode.NEWARRAY => L "newarr"
  | OpCode.LOADARRAYELEMENT => L "ldelem"
  | OpCode.STOREARRAYELEMENT => L "stelem"
  | OpCode.ARRAYLENGTH => L "ldlen"
  | OpCode.NEWARRAY_DYNAMIC => L "newdynarr"
  | OpCode.LOADSTATICFIELD => L "ldsfld"
  | OpCode.LOADENUMFIELD => L "ldenum"
  | OpCode.STORESTATICFIELD => L "stsfld"
  | OpCode.CALLMETHODSYMBOL => L "call"
  | OpCode.CALLDELEGATE => L "calldelegate"
  | OpCode.LOAD_TYPEARGUMENT => L "ldtypearg"
  | OpCode.CALLINTERFACE => L "callinterface"
  | OpCode.ISINSTANCE => L "isinst"
  | OpCode.CAST_AS => L "castinterface"
  | OpCode.ENTER_TRY => L "enter_try"
  | OpCode.LEAVE_TRY => L "leave_try"
  | OpCode.RETHROW => L "rethrow"
  | OpCode.END_CATCH => L "end_catch"
  | OpCode.LOAD_CURRENT_EXCEPTION => L "load_current_exception"
  | OpCode.STORE_CURRENT_EXCEPTION => L "store_current_exception"
  | OpCode.DEFER => L "defer"
  | OpCode.DEFER_BREAK => L "defer_break"
  | OpCode.DEFER_DRAIN => L "defer_drain"
  | OpCode.CREATERANGE => L "newrange"
  | _ => L "unknown"
  end.

(** One iteration of the loop. *)
Definition disassemble_one (d : Decoder) : Line * Decoder :=
  let currentOffset := Index d in
  let (raw, d) := AbsorbOpCode d in
  match OpCode.of_value raw with
  | Some op =>
      match disassembler_operands op with
      | Some ks =>
          let (args, d) := absorb_operands ks d in
          (mkLine currentOffset (mnemonic op) args, d)
      | None => (mkLine currentOffset (L "unknown") [ONum raw], d)
      end
  | None => (mkLine currentOffset (L "unknown") [ONum raw], d)
  end.

(** The [while] loop. *)
Fixpoint disassemble_loop (n : nat) (d : Decoder) : option (list Line) :=
  match n with
  | O => None
  | S n =>
      if IsEOF d then Some [] else
      let (line, d) := disassemble_one d in
      match disassemble_loop n d with
      | Some lines => Some (line :: lines)
      | None => None
      end
  end.

(** [Disassemble(out, method)] on the code of a method. *)
Definition Disassemble (fuel : nat) (code : bytes) : option (list Line) :=
  disassemble_loop fuel (mkDecoder code 0).
End ProgramDisassembler.
