(* ===== verification/ByteCodeSpec.v ===== *)
(** * Properties of byte code

    Programs written with the encoder are read back instruction by
    instruction by the virtual machine's fetch and by the disassembler, the
    string pool and back-patching keep their contracts, and the decoder stays
    inside the code whatever the bytes. *)
From Stdlib Require Import ZArith Lia Bool List String.
From stdpp Require Import base list.
From S2P Require Import Prelude ByteCode ByteCodeFacts Disassembler.
Import ListNotations ByteCodeEncoder ByteCodeDecoder ProgramDisassembler.
Open Scope Z_scope.
Open Scope shard_scope.

(** ** The encoder's functions, by operation

    [EmitLoadConstString] also writes the string pool; here is the code it
    appends for a given pool offset. *)
Definition emit (code : bytes) (i : instr) : option bytes :=
  match i with
  | (OpCode.NOP, []) => Some (EmitNop code)
  | (OpCode.HALT, []) => Some (EmitHalt code)
  | (OpCode.POP, []) => Some (EmitPop code)
  | (OpCode.LOADCONST_NULL, []) => Some (EmitLoadConstNull code)
  | (OpCode.LOADCONST_BOOLEAN, [OBool a]) => Some (EmitLoadConstBool code a)
  | (OpCode.LOADCONST_INTEGER8, [ONum a]) => Some (EmitLoadConstInt8 code a)
  | (OpCode.LOADCONST_INTEGER64, [ONum a]) => Some (EmitLoadConstInt64 code a)
  | (OpCode.LOADCONST_NATIVE_INTEGER, [ONum a]) => Some (EmitLoadConstNativeInt code a)
  | (OpCode.LOADCONST_RATIONAL64, [ONum a]) => Some (EmitLoadConstDouble64 code a)
  | (OpCode.LOADCONST_CHAR, [ONum a]) => Some (EmitLoadConstChar16 code a)
  | (OpCode.DUP, []) => Some (EmitDuplicate code)
  | (OpCode.LOAD_LOCAL, [ONum a]) => Some (EmitLoadLocal code a)
  | (OpCode.STORE_LOCAL, [ONum a]) => Some (EmitStoreLocal code a)
  | (OpCode.LOAD_ARG, [ONum a]) => Some (EmitLoadArg code a)
  | (OpCode.STORE_ARG, [ONum a]) => Some (EmitStoreArg code a)
  | (OpCode.JUMP, [ONum a]) => Some (EmitJump code a)
  | (OpCode.JUMP_TRUE, [ONum a]) => Some (EmitJumpTrue code a)
  | (OpCode.JUMP_FALSE, [ONum a]) => Some (EmitJumpFalse code a)
  | (OpCode.BR_NULL, [ONum a]) => Some (EmitBranchNull code a)
  | (OpCode.JUMP_TABLE, [OTable targets]) => Some (EmitJumpTable code targets)
  | (OpCode.RETURN, []) => Some (EmitReturn code)
  | (OpCode.THROW, []) => Some (EmitThrow code)
  | (OpCode.ENTER_TRY, [ONum a]) => Some (EmitEnterTry code a)
  | (OpCode.LEAVE_TRY, []) => Some (EmitLeaveTry code)
  | (OpCode.RETHROW, []) => Some (EmitRethrow code)
  | (OpCode.END_CATCH, []) => Some (EmitEndCatch code)
  | (OpCode.LOAD_CURRENT_EXCEPTION, []) => Some (EmitLoadCurrentException code)
  | (OpCode.STORE_CURRENT_EXCEPTION, []) => Some (EmitStoreCurrentException code)
  | (OpCode.DEFER, [ONum a]) => Some (EmitDefer code a)
  | (OpCode.DEFER_BREAK, []) => Some (EmitDeferBreak code)
  | (OpCode.DEFER_DRAIN, [ONum a]) => Some (EmitDeferDrain code a)
  | (OpCode.MATH_ADDITION, []) => Some (EmitMathAdd code)
  | (OpCode.MATH_SUBTRACT, []) => Some (EmitMathSub code)
  | (OpCode.MATH_MULTIPLY, []) => Some (EmitMathMult code)
  | (OpCode.MATH_DIVISION, []) => Some (EmitMathDiv code)
  | (OpCode.MATH_MODULO, []) => Some (EmitMathMod code)
  | (OpCode.MATH_POWER, []) => Some (EmitMathPow code)
  | (OpCode.MATH_NEGATIVE, []) => Some (EmitMathNegative code)
  | (OpCode.MATH_SHL, []) => Some (EmitMathShl code)
  | (OpCode.MATH_SHR, []) => Some (EmitMathShr code)
  | (OpCode.COMPARE_EQUAL, []) => Some (EmitCompareEqual code)
  | (OpCode.COMPARE_NOTEQUAL, []) => Some (EmitCompareNotEqual code)
  | (OpCode.COMPARE_GREATER, []) => Some (EmitCompareGreater code)
  | (OpCode.COMPARE_GREATER_OR_EQUAL, []) => Some (EmitCompareGreaterOrEqual code)
  | (OpCode.COMPARE_LESS, []) => Some (EmitCompareLess code)
  | (OpCode.COMPARE_LESS_OR_EQUAL, []) => Some (EmitCompareLessOrEqual code)
  | (OpCode.LOGICAL_NOT, []) => Some (EmitLogicalNot code)
  | (OpCode.LOGICAL_OR, []) => Some (EmitLogicalOr code)
  | (OpCode.LOGICAL_AND, []) => Some (EmitLogicalAnd code)
  | (OpCode.LOAD_TYPEARGUMENT, [ONum a; ONum b]) => Some (EmitLoadTypeArgument code a b)
  | (OpCode.NEWOBJECT, [ONum a; ONum b]) => Some (EmitNewObject code a b)
  | (OpCode.NEWDELEGATE, [ONum a]) => Some (EmitNewDelegate code a)
  | (OpCode.LOADFIELD, [ONum a]) => Some (EmitLoadField code a)
  | (OpCode.STOREFIELD, [ONum a]) => Some (EmitStoreField code a)
  | (OpCode.NEWARRAY, [ONum a]) => Some (EmitNewArray code a)
  | (OpCode.NEWARRAY_DYNAMIC, [ONum a]) => Some (EmitNewArrayDynamic code a)
  | (OpCode.CREATERANGE, [ONum a]) => Some (EmitCreateRange code a)
  | (OpCode.LOADARRAYELEMENT, []) => Some (EmitLoadArrayElement code)
  | (OpCode.STOREARRAYELEMENT, []) => Some (EmitStoreArrayElement code)
  | (OpCode.ARRAYLENGTH, []) => Some (EmitArrayLength code)
  | (OpCode.LOADSTATICFIELD, [ONum a]) => Some (EmitLoadStaticField code a)
  | (OpCode.STORESTATICFIELD, [ONum a]) => Some (EmitStoreStaticField code a)
  | (OpCode.LOADENUMFIELD, [ONum a]) => Some (EmitLoadEnumField code a)
  | (OpCode.CALLMETHODSYMBOL, [ONum a]) => Some (EmitCallMethodSymbol code a)
  | (OpCode.CALLDELEGATE, [ONum a]) => Some (EmitCallDelegate code a)
  | (OpCode.CALLINTERFACE, [ONum a]) => Some (EmitCallInterface code a)
  | (OpCode.ISINSTANCE, [ONum a]) => Some (EmitIsInstance code a)
  | (OpCode.CAST_AS, [ONum a]) => Some (EmitCastAs code a)
  | (OpCode.CAST, [ONum a]) => Some (EmitCast code a)
  | (OpCode.CASTPRIMITIVE, [ONum a]) => Some (EmitCastPrimitive code a)
  | (OpCode.LOADCONST_STRING, [ONum offset]) =>
      Some (AppendDataT (AppendDataT code (opcode_bytes OpCode.LOADCONST_STRING)) (le 8 offset))
  | _ => None
  end.

Fixpoint emit_program (code : bytes) (program : list instr) : option bytes :=
  match program with
  | [] => Some code
  | i :: program =>
      match emit code i with
      | Some code => emit_program code program
      | None => None
      end
  end.

Create HintDb emitters.
#[export] Hint Unfold
  EmitNop EmitHalt EmitPop EmitLoadConstNull EmitLoadConstBool EmitLoadConstInt8
  EmitLoadConstInt64 EmitLoadConstNativeInt EmitLoadConstDouble64 EmitLoadConstChar16
  EmitDuplicate EmitLoadLocal EmitStoreLocal EmitLoadArg EmitStoreArg EmitJump
  EmitJumpTrue EmitJumpFalse EmitBranchNull EmitJumpTable EmitReturn EmitThrow
  EmitEnterTry EmitLeaveTry EmitRethrow EmitEndCatch EmitLoadCurrentException
  EmitStoreCurrentException EmitDefer EmitDeferBreak EmitDeferDrain EmitMathAdd
  EmitMathSub EmitMathMult EmitMathDiv EmitMathMod EmitMathPow EmitMathNegative
  EmitMathShl EmitMathShr EmitCompareEqual EmitCompareNotEqual EmitCompareGreater
  EmitCompareGreaterOrEqual EmitCompareLess EmitCompareLessOrEqual EmitLogicalNot
  EmitLogicalOr EmitLogicalAnd EmitLoadTypeArgument EmitNewObject EmitNewDelegate
  EmitLoadField EmitStoreField EmitNewArray EmitNewArrayDynamic EmitCreateRange
  EmitLoadArrayElement EmitStoreArrayElement EmitArrayLength EmitLoadStaticField
  EmitStoreStaticField EmitLoadEnumField EmitCallMethodSymbol EmitCallDelegate
  EmitCallInterface EmitIsInstance EmitCastAs EmitCast EmitCastPrimitive
  AppendDataT AppendData : emitters.

Lemma fold_append ts : forall code,
  fold_left (fun code target => AppendDataT code (le 8 target)) ts code = code ++ flat_map (le 8) ts.
Proof.
  induction ts as [|t ts IH]; intros code; cbn; [rewrite app_nil_r; reflexivity|].
  rewrite IH; unfold AppendDataT, AppendData; rewrite <- app_assoc; reflexivity.
Qed.

(** Every operation has its emitter, which appends the instruction's bytes. *)
Lemma emit_encode code i : well_formed i -> emit code i = Some (code ++ encode i).
Proof.
  destruct i as [op os]; intros (ks & Hk & Hf); cbn [fst snd] in *.
  destruct op; injection Hk as <-;
    repeat match goal with
    | H : Forall2 writable (_ :: _) _ |- _ => inversion_clear H
    | H : Forall2 writable [] _ |- _ => inversion_clear H
    | H : writable _ ?o |- _ => is_var o; destruct o; try contradiction
    end;
    unfold encode; cbn [fst snd layout_operands vm_operands encode_operands encode_operand width emit];
    autounfold with emitters; try (rewrite fold_append; autounfold with emitters);
    rewrite <- ?app_assoc, ?app_nil_r; reflexivity.
Qed.

Lemma emit_program_encode program : forall code, Forall well_formed program ->
  emit_program code program = Some (code ++ flat_map encode program).
Proof.
  induction program as [|i program IH]; intros code Hw; cbn; [rewrite app_nil_r; reflexivity|].
  apply List.Forall_cons_iff in Hw as [Hi Hw]; rewrite emit_encode, IH, <- app_assoc by assumption.
  reflexivity.
Qed.

(** ** Sweeping over a program *)

Lemma IsEOF_cursor pre rest : IsEOF (cursor pre rest) = match rest with [] => true | _ => false end.
Proof.
  unfold IsEOF, cursor; cbn; rewrite size_app; unfold size at 2.
  destruct rest as [|b rest]; cbn; [apply Z.leb_le; lia|apply Z.leb_gt; lia].
Qed.

Lemma IsEOF_encode pre i rest : IsEOF (cursor pre (encode i ++ rest)) = false.
Proof.
  rewrite IsEOF_cursor; pose proof (encode_size i) as Hs.
  destruct (encode i); [unfold size in Hs; cbn in Hs; lia|reflexivity].
Qed.

(** ** The disassembler *)

(** The operations its switch has no case for. *)
Definition unlisted (op : OpCode.t) : bool :=
  match disassembler_operands op with None => true | Some _ => false end.

Lemma disassembler_agrees op : unlisted op = false -> disassembler_operands op = layout_operands op.
Proof. destruct op; (reflexivity || discriminate). Qed.

Lemma listed_fits op ks os : disassembler_operands op = Some ks -> Forall2 writable ks os -> Forall2 fits ks os.
Proof.
  intros Hu Hw; assert (Hk : ~ In KUInt8 ks)
    by (destruct op; try discriminate; injection Hu as <-; intros Hin; repeat destruct Hin as [Hin|Hin]; try discriminate; contradiction).
  clear Hu; induction Hw as [|k o ks os Hw _ IH]; constructor; [|apply IH; intros H; apply Hk; right; exact H].
  destruct k; try exact Hw; exfalso; apply Hk; left; reflexivity.
Qed.

Lemma disassemble_one_encoded i pre rest : well_formed i -> unlisted i.1 = false ->
  disassemble_one (cursor pre (encode i ++ rest))
    = (mkLine (size pre) (mnemonic i.1) i.2, cursor (pre ++ encode i) rest).
Proof.
  intros (ks & Hk & Hf) Hu; unfold disassemble_one, encode.
  rewrite Hk, <- app_assoc, AbsorbOpCode_encoded, OpCode.of_value_value.
  pose proof (disassembler_agrees _ Hu) as Ha; rewrite Hk in Ha.
  rewrite Ha, absorb_operands_encoded by exact (listed_fits _ _ _ Ha Hf).
  rewrite <- app_assoc; reflexivity.
Qed.

Fixpoint lines_of (offset : Z) (program : list instr) : list Line :=
  match program with
  | [] => []
  | i :: program =>
      mkLine offset (mnemonic i.1) i.2 :: lines_of (offset + size (encode i)) program
  end.

Lemma disassemble_encoded program : forall n pre, Forall well_formed program ->
  Forall (fun i => unlisted i.1 = false) program -> (List.length program < n)%nat ->
  disassemble_loop n (cursor pre (flat_map encode program)) = Some (lines_of (size pre) program).
Proof.
  induction program as [|i program IH]; intros n pre Hw Hu Hn; (destruct n as [|n]; [lia|]);
    cbn [disassemble_loop flat_map lines_of]; [rewrite IsEOF_cursor; reflexivity|].
  apply List.Forall_cons_iff in Hw as [Hi Hw]; apply List.Forall_cons_iff in Hu as [Hui Hu].
  rewrite IsEOF_encode, disassemble_one_encoded, IH, size_app by (assumption || (cbn in Hn; lia)).
  reflexivity.
Qed.

(** ** The decoder's bounds *)

Definition in_bounds (d : Decoder) : Prop := 0 <= ip d <= size (code_ d).

(** [d'] is [d] moved forward inside the same code. *)
Definition forward (d d' : Decoder) : Prop :=
  code_ d' = code_ d /\ ip d <= ip d' /\ in_bounds d'.

Lemma forward_refl d : in_bounds d -> forward d d.
Proof. intros H; repeat split; try lia; apply H. Qed.
Lemma forward_trans d1 d2 d3 : forward d1 d2 -> forward d2 d3 -> forward d1 d3.
Proof. intros (C1 & I1 & B1) (C2 & I2 & B2); split; [congruence|split; [lia|exact B2]]. Qed.
Lemma forward_bounds d d' : forward d d' -> in_bounds d'.
Proof. intros (_ & _ & H); exact H. Qed.

Lemma ReadUnaligned_forward n d v d' : in_bounds d -> ReadUnaligned n d = (v, d') -> forward d d'.
Proof.
  intros Hb; unfold ReadUnaligned.
  destruct (Z.ltb_spec (size (code_ d)) (ip d + Z.of_nat n)); intros [= _ <-];
    [apply forward_refl, Hb|].
  unfold forward, in_bounds in *; cbn; split; [reflexivity|lia].
Qed.

Lemma AbsorbJumps_forward n : forall d ts d', in_bounds d -> AbsorbJumps n d = (ts, d') -> forward d d'.
Proof.
  induction n as [|n IH]; intros d ts d' Hb; cbn [AbsorbJumps]; [intros [= _ <-]; apply forward_refl, Hb|].
  destruct (AbsorbJump d) as [t d1] eqn:E1; destruct (AbsorbJumps n d1) as [ts1 d2] eqn:E2.
  intros [= _ <-]; apply ReadUnaligned_forward in E1; [|exact Hb].
  eapply forward_trans; [exact E1|eapply IH; [eapply forward_bounds, E1|exact E2]].
Qed.

Lemma absorb_operand_forward k d o d' : in_bounds d -> absorb_operand k d = (o, d') -> forward d d'.
Proof.
  intros Hb; destruct k; cbn [absorb_operand];
    unfold AbsorbBoolean, AbsorbUInt8, AbsorbInt64, AbsorbIntPtr, AbsorbDouble64, AbsorbChar16,
      AbsorbString, AbsorbVariableSlot, AbsorbUInt16, AbsorbUInt32, AbsorbJump, AbsorbFieldSlot,
      AbsorbTypeSymbol;
    destruct (ReadUnaligned _ d) as [v d1] eqn:E1;
    pose proof (ReadUnaligned_forward _ _ _ _ Hb E1) as Hf;
    try (intros [= _ <-]; exact Hf).
  destruct (AbsorbJumps (Z.to_nat v) d1) as [ts d2] eqn:E2; intros [= _ <-].
  eapply forward_trans; [exact Hf|eapply AbsorbJumps_forward; [eapply forward_bounds, Hf|exact E2]].
Qed.

Lemma absorb_operands_forward ks : forall d os d', in_bounds d ->
  absorb_operands ks d = (os, d') -> forward d d'.
Proof.
  induction ks as [|k ks IH]; intros d os d' Hb; cbn [absorb_operands];
    [intros [= _ <-]; apply forward_refl, Hb|].
  destruct (absorb_operand k d) as [o d1] eqn:E1; destruct (absorb_operands ks d1) as [os1 d2] eqn:E2.
  intros [= _ <-]; apply absorb_operand_forward in E1; [|exact Hb].
  eapply forward_trans; [exact E1|eapply IH; [eapply forward_bounds, E1|exact E2]].
Qed.

(** ** The string pool *)

Lemma c_string_le s rest :
  Forall (fun c => c <> 0 /\ - 2 ^ 31 <= c < 2 ^ 31) s ->
  c_string (flat_map (le 4) (s ++ [0]) ++ rest) = Some s.
Proof.
  induction 1 as [|c s [Hc0 Hc] _ IH]; [reflexivity|].
  cbn [app flat_map]; rewrite <- app_assoc; pose proof (unle_le 4 c) as Hu.
  remember (flat_map (le 4) (s ++ [0]) ++ rest) as tail eqn:Et; cbn [le app] in *.
  cbn [c_string]; rewrite Hu; change (256 ^ Z.of_nat 4) with (2 ^ 32).
  rewrite (signed_wrap 32) by (exact Hc || lia); rewrite (proj2 (Z.eqb_neq c 0) Hc0), IH; reflexivity.
Qed.

Lemma wcslen_all s : Forall (fun c => c <> 0) s -> firstn (wcslen s) s = s.
Proof.
  induction 1 as [|c s Hc _ IH]; [reflexivity|]; cbn [wcslen].
  rewrite (proj2 (Z.eqb_neq c 0) Hc); cbn; rewrite IH; reflexivity.
Qed.

Lemma AppendDataS_pool data later s :
  Forall (fun c => c <> 0 /\ - 2 ^ 31 <= c < 2 ^ 31) s ->
  pool_string (AppendDataS data s ++ later) (size data) = Some s.
Proof.
  intros Hs; unfold AppendDataS, AppendData, pool_string.
  rewrite wcslen_all by (eapply List.Forall_impl; [|exact Hs]; intros c []; assumption).
  replace (Z.to_nat (size data)) with (List.length data) by (unfold size; lia).
  rewrite <- app_assoc, drop_app_length; apply c_string_le, Hs.
Qed.

(** ** The properties *)

Lemma table_operand os : well_formed (OpCode.JUMP_TABLE, os) ->
  exists ts, os = [OTable ts] /\ Forall (fun t => 0 <= t < 2 ^ 64) ts.
Proof.
  intros (ks & Hk & Hf); injection Hk as <-; cbn [snd] in Hf; inversion Hf as [|? o ? l Hw Hr]; subst; inversion Hr; subst.
  destruct o as [| |ts]; try contradiction; exists ts; split; [reflexivity|apply Hw].
Qed.

Lemma table_encode ts :
  encode (OpCode.JUMP_TABLE, [OTable ts])
  = (opcode_bytes OpCode.JUMP_TABLE ++ le 4 (Z.of_nat (List.length ts))) ++ flat_map (le 8) ts.
Proof. unfold encode; cbn [fst snd layout_operands vm_operands encode_operands encode_operand]; rewrite app_nil_r, <- app_assoc; reflexivity. Qed.

Lemma flat_le_size ts : size (flat_map (le 8) ts) = 8 * Z.of_nat (List.length ts).
Proof.
  induction ts as [|t ts IH]; [reflexivity|]; cbn [flat_map List.length]; rewrite size_app, size_le, IH; lia.
Qed.

(** C10: A program written with the encoder's functions, one call per
    instruction, is read back by the virtual machine: at the offset an
    instruction was written at it fetches the operation and the operands, and
    goes on at the next instruction.  An 8-bit constant is read unsigned, modulo
    256.  Of a jump table it reads the count, and finds each target where it looks
    for it before the next instruction. *)
Theorem program_roundtrip (program : list instr) :
  Forall well_formed program ->
  exists code, emit_program [] program = Some code
    /\ forall before i after, program = before ++ i :: after ->
       let at_ := size (flat_map encode before) in
       let next := at_ + size (encode i) in
       exists d, fetch (mkDecoder code at_) = (OpCode.value i.1, fetched i, d) /\ code_ d = code
         /\ match i with
            | (OpCode.JUMP_TABLE, [OTable ts]) =>
                ip d + 8 * Z.of_nat (List.length ts) = next
                /\ forall n t, nth_error ts n = Some t -> size code < 2 ^ 64 -> PeekJumpAt (ip d + 8 * Z.of_nat n) d = Ok t
            | _ => ip d = next
            end.
Proof.
  intros Hw; exists (flat_map encode program); split; [apply (emit_program_encode program []), Hw|].
  intros before i after -> at_ next; rewrite flat_map_app; cbn [flat_map].
  apply List.Forall_app in Hw as [_ Hw]; apply List.Forall_cons_iff in Hw as [Hi _].
  change (mkDecoder _ at_) with (cursor (flat_map encode before) (encode i ++ flat_map encode after)).
  destruct (decide (i.1 = OpCode.JUMP_TABLE)) as [Ht|Ht].
  - destruct i as [op os]; cbn [fst] in Ht; subst op; destruct (table_operand os Hi) as (ts & -> & Hts).
    rewrite (fetch_table ts _ _ Hi); eexists; split; [reflexivity|].
    cbn [cursor code_ ip]; unfold next, at_; rewrite table_encode.
    split; [rewrite <- !app_assoc; reflexivity|]; split; [rewrite !size_app, flat_le_size; lia|].
    intros n t Hn Hs; apply (PeekJumpAt_target (flat_map encode before ++ _)); [exact Hn|exact Hts|].
    rewrite <- !app_assoc in *; exact Hs.
  - rewrite (fetch_encoded i _ _ Hi Ht); eexists; split; [reflexivity|].
    unfold cursor; cbn [code_ ip]; rewrite <- app_assoc, size_app; split; [reflexivity|].
    destruct i as [[] [|[] [|]]]; try reflexivity; cbn in Ht; congruence.
Qed.

(** The disassembler lists such a program instruction by instruction, as long
    as it has a case for each operation. *)
Theorem disassembler_in_step (program : list instr) :
  Forall well_formed program -> Forall (fun i => unlisted i.1 = false) program ->
  exists code, emit_program [] program = Some code
    /\ Disassemble (S (List.length program)) code = Some (lines_of 0 program).
Proof.
  intros Hw Hu; exists (flat_map encode program); split; [apply (emit_program_encode program []), Hw|].
  exact (disassemble_encoded program _ [] Hw Hu (Nat.lt_succ_diag_r _)).
Qed.

(** At an operation the disassembler has no case for (the 8-bit and the
    native integer constants and the two casts) it leaves the operands in the
    code and reads on in the middle of the instruction; the virtual machine
    continues after them. *)
Theorem disassembler_desynchronises (i : instr) (pre rest : bytes) :
  well_formed i -> unlisted i.1 = true ->
  let d := cursor pre (encode i ++ rest) in
  disassemble_one d = (mkLine (size pre) (L "unknown") [ONum (OpCode.value i.1)],
                       mkDecoder (pre ++ encode i ++ rest) (size pre + 2))
  /\ fetch d = (OpCode.value i.1, fetched i, mkDecoder (pre ++ encode i ++ rest) (size pre + size (encode i)))
  /\ 2 < size (encode i).
Proof.
  intros Hi Hu d; pose proof Hi as (ks & Hk & Hf); subst d; rewrite (fetch_encoded i pre rest Hi) by (intros E; rewrite E in Hu; discriminate).
  rewrite cursor_app; split; [|split; [reflexivity|]].
  - unfold disassemble_one, encode; rewrite <- app_assoc, AbsorbOpCode_encoded, OpCode.of_value_value.
    unfold unlisted in Hu; destruct (disassembler_operands i.1); [discriminate|].
    rewrite cursor_app; unfold opcode_bytes; rewrite size_le; reflexivity.
  - unfold encode, opcode_bytes; rewrite size_app, size_le, Hk.
    destruct i as [op os]; cbn [fst snd] in *; destruct op; try discriminate Hu;
      injection Hk as <-; inversion_clear Hf as [|? o ? ? Ho Hr]; cbn [encode_operands];
      rewrite size_app; destruct o; try contradiction; cbn [encode_operand width]; rewrite size_le;
      unfold size; lia.
Qed.

(** A single byte left at the end of the code keeps the disassembler from
    ending: the operation code does not fit, so nothing is consumed. *)
Theorem disassembler_stuck_on_odd_byte (n : nat) (pre : bytes) (b : Z) :
  disassemble_loop n (cursor pre [b]) = None.
Proof.
  induction n as [|n IH]; cbn [disassemble_loop]; [reflexivity|].
  rewrite IsEOF_cursor; unfold disassemble_one, AbsorbOpCode.
  rewrite ReadUnaligned_short by (unfold cursor; cbn [code_ ip]; rewrite size_app; unfold size; cbn [List.length]; lia).
  cbn; rewrite IH; reflexivity.
Qed.

(** C37: Whatever the bytes, fetching and disassembling an instruction keep the
    cursor inside the code and never move it back, and a jump either throws
    or lands inside the code. *)
Theorem decoder_stays_in_bounds (d : Decoder) (target : Z) :
  in_bounds d ->
  forward d (snd (fetch d)) /\ forward d (snd (disassemble_one d))
  /\ (forall d', SetCursor target d = Ok d' -> in_bounds d' /\ ip d' = target /\ code_ d' = code_ d).
Proof.
  intros Hb; split; [|split].
  - unfold fetch; destruct (AbsorbOpCode d) as [raw d1] eqn:E1.
    apply ReadUnaligned_forward in E1; [|exact Hb].
    destruct (OpCode.of_value raw) as [op|]; [|exact E1].
    destruct (vm_operands op) as [ks|]; [|exact E1].
    destruct (absorb_operands ks d1) as [os d2] eqn:E2; eapply forward_trans; [exact E1|].
    eapply absorb_operands_forward; [eapply forward_bounds, E1|exact E2].
  - unfold disassemble_one; destruct (AbsorbOpCode d) as [raw d1] eqn:E1.
    apply ReadUnaligned_forward in E1; [|exact Hb].
    destruct (OpCode.of_value raw) as [op|]; [|exact E1].
    destruct (disassembler_operands op) as [ks|]; [|exact E1].
    destruct (absorb_operands ks d1) as [os d2] eqn:E2; eapply forward_trans; [exact E1|].
    eapply absorb_operands_forward; [eapply forward_bounds, E1|exact E2].
  - intros d'; unfold SetCursor; destruct (Z.ltb_spec target 0); [discriminate|].
    destruct (Z.ltb_spec (size (code_ d)) target); [discriminate|].
    intros [= <-]; unfold in_bounds; cbn; repeat split; lia.
Qed.

(** C28: Patching the target of a forward jump replaces that operand and nothing
    else; a patch that does not fit in the code throws. *)
Theorem backpatch_jump (op : OpCode.t) (pre post : bytes) (old target : Z) :
  layout_operands op = Some [KJump] -> size (pre ++ encode (op, [ONum old]) ++ post) < 2 ^ 64 ->
  PasteData (pre ++ encode (op, [ONum old]) ++ post) (size pre + 2) (le 8 target)
    = Ok (pre ++ encode (op, [ONum target]) ++ post)
  /\ forall at_, size pre + size (encode (op, [ONum old])) + size post - 8 < at_ < 2 ^ 64 - 8 ->
       exists message, PasteData (pre ++ encode (op, [ONum old]) ++ post) at_ (le 8 target)
         = Throw message.
Proof.
  intros Hop Hlen; split; [exact (PasteData_jump op pre post old target Hop Hlen)|].
  intros at_ Hat; pose proof (jump_size op old pre post Hop) as Hs; rewrite Hs in Hlen.
  pose proof (jump_size op old [] [] Hop) as He; rewrite app_nil_r in He; cbn [app] in He.
  rewrite He in Hat; change (size []) with 0 in Hat.
  assert (Hpos : 0 <= size pre /\ 0 <= size post) by (unfold size; lia).
  unfold PasteData; rewrite Hs, size_le; unfold size_t; rewrite Z.mod_small by lia.
  destruct (Z.ltb_spec (size pre + 10 + size post) (at_ + Z.of_nat 8)); [eauto|lia].
Qed.

(** A string constant is loaded from the pool as it was written, whatever the
    pool holds before it and is given after it. *)
Theorem string_pool_roundtrip (code data later : bytes) (s : wstring) :
  Forall (fun c => c <> 0 /\ - 2 ^ 31 <= c < 2 ^ 31) s -> size data < 2 ^ 64 ->
  let (code', data') := EmitLoadConstString code data s in
  code' = code ++ encode (OpCode.LOADCONST_STRING, [ONum (size data)])
  /\ pool_string (data' ++ later) (size data) = Some s.
Proof.
  intros Hs Hd; unfold EmitLoadConstString; split.
  - unfold encode; cbn [fst snd layout_operands vm_operands encode_operands encode_operand width].
    unfold AppendDataT, AppendData, size; rewrite <- !app_assoc; cbn [app]; rewrite app_nil_r.
    reflexivity.
  - apply AppendDataS_pool, Hs.
Qed.

(** [EmitDefaultValue] has the two integer types the wrong way round: the
    default of an [int] is the byte constant and the default of a [byte] the
    64-bit constant. *)
Theorem default_value_swapped `{Primitives} (code : bytes) :
  Integer <> Byte ->
  EmitDefaultValue code Integer = code ++ encode (OpCode.LOADCONST_INTEGER8, [ONum 0])
  /\ EmitDefaultValue code Byte = code ++ encode (OpCode.LOADCONST_INTEGER64, [ONum 0]).
Proof.
  intros Hne; unfold EmitDefaultValue; rewrite !Z.eqb_refl.
  destruct (Z.eqb_spec Byte Integer); [congruence|].
  unfold EmitLoadConstInt8, EmitLoadConstInt64, AppendDataT, AppendData; rewrite <- !app_assoc.
  split; reflexivity.
Qed.

(** A negative 8-bit constant is read back unsigned: 256 more than written. *)
Theorem int8_constant_read_unsigned (pre rest : bytes) (z : Z) :
  - 128 <= z < 0 ->
  fetch (cursor pre (EmitLoadConstInt8 [] z ++ rest))
    = (OpCode.value OpCode.LOADCONST_INTEGER8, [ONum (z + 256)],
       cursor (pre ++ EmitLoadConstInt8 [] z) rest).
Proof.
  intros Hz; unfold EmitLoadConstInt8, AppendDataT, AppendData; cbn [app].
  unfold fetch; rewrite <- app_assoc, AbsorbOpCode_encoded, OpCode.of_value_value.
  cbn [vm_operands absorb_operands absorb_operand]; unfold AbsorbUInt8.
  rewrite ReadUnaligned_le, <- app_assoc; change (256 ^ Z.of_nat 1) with 256.
  replace (z mod 256) with (z + 256); [reflexivity|].
  rewrite <- (Z.mod_add z 1 256), Z.mul_1_l, Z.mod_small by lia; reflexivity.
Qed.

(** ** Instances *)

Definition sample_program : list instr :=
  [(OpCode.LOADCONST_INTEGER64, [ONum (-5)]); (OpCode.STORE_LOCAL, [ONum 3]);
   (OpCode.LOADCONST_INTEGER8, [ONum (-1)]); (OpCode.JUMP_TABLE, [OTable [0; 10; 200]]);
   (OpCode.LOAD_TYPEARGUMENT, [ONum 1; ONum 4096]); (OpCode.RETURN, [])].

Lemma sample_well_formed : Forall well_formed sample_program.
Proof.
  repeat (apply List.Forall_cons; [eexists; split; [reflexivity|]; cbn [snd];
    repeat (apply Forall2_cons; split); try apply Forall2_nil; cbn [writable fits]; try lia; try exact I|]).
  - split; [reflexivity|]; repeat (apply List.Forall_cons; [lia|]); apply List.Forall_nil.
  - apply List.Forall_nil.
Qed.

Lemma program_roundtrip_witness :
  exists code d, emit_program [] sample_program = Some code
    /\ fetch (mkDecoder code (size (flat_map encode (firstn 3 sample_program))))
       = (OpCode.value OpCode.JUMP_TABLE, [ONum 3], d)
    /\ PeekJumpAt (ip d + 8) d = Ok 10.
Proof.
  destruct (program_roundtrip sample_program sample_well_formed) as (code & Hcode & H).
  destruct (H (firstn 3 sample_program) (OpCode.JUMP_TABLE, [OTable [0; 10; 200]]) (skipn 4 sample_program) eq_refl)
    as (d & Hf & _ & _ & Ht).
  exists code, d; split; [exact Hcode|split; [exact Hf|apply (Ht 1%nat 10); [reflexivity|]]].
  injection Hcode as <-; vm_compute; reflexivity.
Defined.

(** The same without the operation the disassembler does not know. *)
Definition listed_program : list instr := firstn 2 sample_program ++ skipn 3 sample_program.
Lemma listed_well_formed : Forall well_formed listed_program.
Proof.
  pose proof sample_well_formed as H; rewrite List.Forall_forall in *; intros i Hi; apply H; cbn in Hi |- *; tauto.
Qed.

Lemma disassembler_in_step_witness :
  exists code, emit_program [] listed_program = Some code
    /\ Disassemble 6 code = Some (lines_of 0 listed_program).
Proof.
  apply (disassembler_in_step listed_program listed_well_formed).
  repeat apply List.Forall_cons; try apply List.Forall_nil; reflexivity.
Defined.

Lemma disassembler_desynchronises_witness :
  let d := cursor [] (encode (OpCode.CASTPRIMITIVE, [ONum 1]) ++ []) in
  disassemble_one d = (mkLine 0 (L "unknown") [ONum (OpCode.value OpCode.CASTPRIMITIVE)],
                       mkDecoder ([] ++ encode (OpCode.CASTPRIMITIVE, [ONum 1]) ++ []) (0 + 2))
  /\ fetch d = (OpCode.value OpCode.CASTPRIMITIVE, [ONum 1],
       mkDecoder ([] ++ encode (OpCode.CASTPRIMITIVE, [ONum 1]) ++ [])
         (0 + size (encode (OpCode.CASTPRIMITIVE, [ONum 1]))))
  /\ 2 < size (encode (OpCode.CASTPRIMITIVE, [ONum 1])).
Proof.
  apply (disassembler_desynchronises (OpCode.CASTPRIMITIVE, [ONum 1]) [] []); [|reflexivity].
  exists [KPointer]; split; [reflexivity|].
  apply Forall2_cons; split; [cbn [writable fits]; lia|apply Forall2_nil; exact I].
Defined.

Lemma decoder_stays_in_bounds_witness :
  forward (mkDecoder [1; 0; 17] 0) (snd (fetch (mkDecoder [1; 0; 17] 0)))
  /\ forward (mkDecoder [1; 0; 17] 0) (snd (disassemble_one (mkDecoder [1; 0; 17] 0)))
  /\ (forall d', SetCursor 2 (mkDecoder [1; 0; 17] 0) = Ok d' ->
        in_bounds d' /\ ip d' = 2 /\ code_ d' = [1; 0; 17]).
Proof.
  apply (decoder_stays_in_bounds (mkDecoder [1; 0; 17] 0) 2); unfold in_bounds, size; cbn; lia.
Defined.

Lemma backpatch_jump_witness :
  PasteData ([] ++ encode (OpCode.JUMP, [ONum 0]) ++ encode (OpCode.RETURN, []))
    (size [] + 2) (le 8 10)
    = Ok ([] ++ encode (OpCode.JUMP, [ONum 10]) ++ encode (OpCode.RETURN, [])).
Proof. apply (backpatch_jump OpCode.JUMP [] (encode (OpCode.RETURN, [])) 0 10); reflexivity. Defined.

Lemma string_pool_roundtrip_witness :
  let (code', data') := EmitLoadConstString [] [1; 2; 3; 4] (L "hi") in
  code' = [] ++ encode (OpCode.LOADCONST_STRING, [ONum (size [1; 2; 3; 4])])
  /\ pool_string (data' ++ [9]) (size [1; 2; 3; 4]) = Some (L "hi").
Proof.
  apply (string_pool_roundtrip [] [1; 2; 3; 4] [9] (L "hi")); [|reflexivity].
  repeat (apply List.Forall_cons; [vm_compute; intuition discriminate|]); apply List.Forall_nil.
Defined.

Lemma default_value_swapped_witness :
  @EmitDefaultValue (Build_Primitives 1 2 3 4 5 6) [] 1
    = [] ++ encode (OpCode.LOADCONST_INTEGER8, [ONum 0])
  /\ @EmitDefaultValue (Build_Primitives 1 2 3 4 5 6) [] 2
    = [] ++ encode (OpCode.LOADCONST_INTEGER64, [ONum 0]).
Proof. apply (@default_value_swapped (Build_Primitives 1 2 3 4 5 6) []); discriminate. Defined.

Lemma int8_constant_read_unsigned_witness :
  fetch (cursor [] (EmitLoadConstInt8 [] (-1) ++ []))
    = (OpCode.value OpCode.LOADCONST_INTEGER8, [ONum 255],
       cursor ([] ++ EmitLoadConstInt8 [] (-1)) []).
Proof. apply (int8_constant_read_unsigned [] [] (-1)); lia. Defined.
