(* ===== verification/Values.v ===== *)
(** * Run-time values

    The primitive values of the virtual machine: machine integers, IEEE 754
    doubles, and [ObjectInstance] (include/shard/runtime/ObjectInstance.hpp,
    src/runtime/ObjectInstance.cpp) as far as the primitive types reach: the
    type of an instance and its typed reads.  A by-value primitive is the
    value its bytes hold; every other instance is its type and its address. *)
From Stdlib Require Import ZArith Lia Bool List String SpecFloat.
From stdpp Require Import base list pretty.
From S2P Require Import Prelude ByteCode.
Import ListNotations.
Open Scope Z_scope.
Open Scope shard_scope.

(** ** The host

    The program is released for two hosts, which differ in [wchar_t] and in
    what [std::swprintf] does with no destination. *)
Inductive HostSystem := Windows | Posix.
Class Host := host_system : HostSystem.

(** [static_cast<wchar_t>] of an integer. *)
Definition to_wchar `{Host} (z : Z) : wchar :=
  match host_system with
  | Windows => z mod 2 ^ 16
  | Posix => signed 32 (z mod 2 ^ 32)
  end.

(** ** Integers *)
Definition INT64_MIN : Z := - 2 ^ 63.
Definition INT64_MAX : Z := 2 ^ 63 - 1.
Definition in_int64 (z : Z) : bool := (INT64_MIN <=? z) && (z <=? INT64_MAX).

(** The result of signed 64-bit arithmetic: overflow has no meaning. *)
Definition int64_result (z : Z) : result Z := if in_int64 z then Ok z else UB.

(** ** Doubles *)
Module Double.
Definition double := spec_float.

Definition add : double -> double -> double := SFadd 53 1024.
Definition sub : double -> double -> double := SFsub 53 1024.
Definition mul : double -> double -> double := SFmul 53 1024.
Definition div : double -> double -> double := SFdiv 53 1024.
Definition opp : double -> double := SFopp.
Definition eqb : double -> double -> bool := SFeqb.
Definition ltb : double -> double -> bool := SFltb.
Definition zero : double := S754_zero false.
Definition one : double := SFone 53 1024.

(** The value of a 64-bit pattern. *)
Definition of_bits (bits : Z) : double :=
  let s := Z.testbit bits 63 in
  let e := Z.land (Z.shiftr bits 52) 2047 in
  let m := Z.land bits (2 ^ 52 - 1) in
  let finite m e := match m with Z.pos m => S754_finite s m e | _ => S754_zero s end in
  if e =? 2047 then if m =? 0 then S754_infinity s else S754_nan
  else if e =? 0 then finite m (-1074)
  else finite (m + 2 ^ 52) (e - 1075).

(** [static_cast<double>] of an integer. *)
Definition of_Z (z : Z) : double := binary_normalize 53 1024 z 0 false.

(** [static_cast<std::int64_t>] of a double: truncation, undefined when the
    truncated value does not fit. *)
Definition truncate (d : double) : option Z :=
  match d with
  | S754_zero _ => Some 0
  | S754_finite s m e =>
      Some (cond_Zopp s (if 0 <=? e then Z.pos m * 2 ^ e else Z.pos m / 2 ^ (- e)))
  | S754_infinity _ | S754_nan => None
  end.
Definition to_int64 (d : double) : result Z :=
  match truncate d with
  | Some z => int64_result z
  | None => UB
  end.

(** [std::fmod]: the exact remainder, with the sign of the dividend. *)
Definition fmod (x y : double) : double :=
  match x, y with
  | S754_nan, _ | _, S754_nan => S754_nan
  | S754_infinity _, _ => S754_nan
  | _, S754_zero _ => S754_nan
  | S754_zero s, _ => S754_zero s
  | S754_finite _ _ _, S754_infinity _ => x
  | S754_finite sx mx ex, S754_finite _ my ey =>
      let e := Z.min ex ey in
      let r := (Z.pos mx * 2 ^ (ex - e)) mod (Z.pos my * 2 ^ (ey - e)) in
      binary_normalize 53 1024 (cond_Zopp sx r) e sx
  end.

(** [%f]: six decimals of the exact value, ties to even. *)
Definition round_half_even (n d : Z) : Z :=
  let q := n / d in
  let r := n mod d in
  match 2 * r ?= d with
  | Lt => q
  | Gt => q + 1
  | Eq => if Z.even q then q else q + 1
  end.
Definition micros (m : positive) (e : Z) : Z :=
  if 0 <=? e then Z.pos m * 2 ^ e * 10 ^ 6 else round_half_even (Z.pos m * 10 ^ 6) (2 ^ (- e)).
Definition pad6 (z : Z) : wstring :=
  let digits := L (pretty z) in
  repeat (ch "0") (6 - List.length digits) ++ digits.
Definition print (d : double) : wstring :=
  let sign (s : bool) := if s then L "-" else [] in
  match d with
  | S754_zero s => sign s ++ L "0.000000"
  | S754_infinity s => sign s ++ L "inf"
  | S754_nan => L "nan"
  | S754_finite s m e =>
      let n := micros m e in
      sign s ++ L (pretty (n / 10 ^ 6)) ++ L "." ++ pad6 (n mod 10 ^ 6)
  end.
End Double.

(** The one function of the mathematical library that is not determined by
    its standard: [std::pow] need not be correctly rounded. *)
Class MathLibrary := { pow : Double.double -> Double.double -> Double.double }.

(** ** Types

    The types the virtual machine compares by address: the primitives of
    [SymbolTable::Primitives], and any other enumeration, by-value structure
    or by-reference type. *)
Module TypeSymbol.
Inductive t :=
| Void | Any | Null | NativeInteger | Boolean | Integer | Double | Char | Byte | String | Array
| Enum (id : nat) | Struct (id : nat) | Reference (id : nat).

#[global] Instance t_eq_dec : EqDecision t.
Proof. solve_decision. Defined.

(** [a == b] on the addresses of the symbols. *)
Definition eqb (a b : t) : bool :=
  match a, b with
  | Void, Void | Any, Any | Null, Null | NativeInteger, NativeInteger | Boolean, Boolean
  | Integer, Integer | Double, Double | Char, Char | Byte, Byte | String, String
  | Array, Array => true
  | Enum i, Enum j | Struct i, Struct j | Reference i, Reference j => Nat.eqb i j
  | _, _ => false
  end.

Lemma eqb_eq a b : eqb a b = true <-> a = b.
Proof.
  destruct a, b; cbn; try (split; [discriminate|congruence]); try tauto;
    rewrite Nat.eqb_eq; split; congruence.
Qed.

(** [Kind == SyntaxKind::EnumDeclaration] *)
Definition is_enum (type : t) : bool := match type with Enum _ => true | _ => false end.

(** [Inlining == TypeInlining::ByReference] *)
Definition IsReferenceType (type : t) : bool :=
  match type with String | Array | Reference _ => true | _ => false end.
End TypeSymbol.
Abbreviation TypeSymbol := TypeSymbol.t.

Infix "=type" := TypeSymbol.eqb (at level 70) : shard_scope.

(** ** Instances *)

(** [NullRef] is an instance without memory, with the type of its shape when
    it has one; [Other] is an instance of a type with no primitive reading. *)
Inductive ObjectInstance :=
| NullRef (shape : option TypeSymbol)
| VBool (b : bool)
| VInt (z : Z)
| VDouble (d : Double.double)
| VChar (c : wchar)
| VByte (z : Z)
| VNint (z : Z)
| VString (s : wstring)
| VEnum (id : nat) (z : Z)
| Other (type : TypeSymbol) (address : Z).

(** [ObjectInstance()] *)
Definition null_instance : ObjectInstance := NullRef None.

Module ObjectInstance.
(** [IsNullInstance] *)
Definition IsNullInstance (v : ObjectInstance) : bool :=
  match v with NullRef _ => true | _ => false end.

(** The type of the shape of an instance. *)
Definition shape_type (v : ObjectInstance) : option TypeSymbol :=
  match v with
  | NullRef shape => shape
  | VBool _ => Some TypeSymbol.Boolean
  | VInt _ => Some TypeSymbol.Integer
  | VDouble _ => Some TypeSymbol.Double
  | VChar _ => Some TypeSymbol.Char
  | VByte _ => Some TypeSymbol.Byte
  | VNint _ => Some TypeSymbol.NativeInteger
  | VString _ => Some TypeSymbol.String
  | VEnum id _ => Some (TypeSymbol.Enum id)
  | Other type _ => Some type
  end.

(** [getInfo]: reads the shape, which must be there. *)
Definition getInfo (v : ObjectInstance) : result TypeSymbol :=
  match shape_type v with Some type => Ok type | None => UB end.

(** [operator==] compares the memory addresses.  The bytes of two primitives
    on the evaluation stack, and those of two strings the caller has told
    apart by type, never overlap. *)
Definition same_memory (a b : ObjectInstance) : bool :=
  match a, b with
  | NullRef _, NullRef _ => true
  | Other _ x, Other _ y => x =? y
  | _, _ => false
  end.

(** The typed reads: the type is tested, then the memory is read. *)
Section Reads.
Context {A : Type}.
Definition typed_read (test : TypeSymbol -> bool) (read : ObjectInstance -> option A)
    (message : string) (v : ObjectInstance) : result A :=
  type <-? getInfo v ;;
  if negb (test type) then Throw message
  else match read v with Some a => Ok a | None => UB end.
End Reads.

Definition AsBoolean : ObjectInstance -> result bool :=
  typed_read (fun t => t =type TypeSymbol.Boolean)
    (fun v => match v with VBool b => Some b | _ => None end)
    "Cannot interpret instance as Boolean".

Definition AsInteger : ObjectInstance -> result Z :=
  typed_read (fun t => (t =type TypeSymbol.Integer) || TypeSymbol.is_enum t)
    (fun v => match v with VInt z | VEnum _ z => Some z | _ => None end)
    "Cannot interpret instance as Integer".

Definition AsDouble : ObjectInstance -> result Double.double :=
  typed_read (fun t => t =type TypeSymbol.Double)
    (fun v => match v with VDouble d => Some d | _ => None end)
    "Cannot interpret instance as Double".

Definition AsCharacter : ObjectInstance -> result wchar :=
  typed_read (fun t => t =type TypeSymbol.Char)
    (fun v => match v with VChar c => Some c | _ => None end)
    "Cannot interpret instance as Character".

Definition AsByte : ObjectInstance -> result Z :=
  typed_read (fun t => t =type TypeSymbol.Byte)
    (fun v => match v with VByte z => Some z | _ => None end)
    "Cannot interpret instance as Byte".

Definition AsNint : ObjectInstance -> result Z :=
  typed_read (fun t => t =type TypeSymbol.NativeInteger)
    (fun v => match v with VNint z => Some z | _ => None end)
    "Cannot interpret instance as Nint".

(** [AsString] with [AsStringLength]: the characters before the terminator
    the allocation ends with. *)
Definition AsString : ObjectInstance -> result wstring :=
  typed_read (fun t => t =type TypeSymbol.String)
    (fun v => match v with VString s => Some s | _ => None end)
    "Cannot interpret instance as String".
End ObjectInstance.
