(* ===== verification/PrimMath.v ===== *)
(** * Primitive operators

    [PrimitiveMathModule] (src/runtime/PrimitiveMathModule.cpp): the built-in
    operators and casts of the primitive types.  A null instance as the
    result means "not handled".  Signed overflow, shifts by 64 or more and
    conversions that do not fit are [UB]; the scratch arena that string
    concatenation formats into is part of the state. *)
From Stdlib Require Import ZArith Lia Bool List String.
From stdpp Require Import base list pretty.
From S2P Require Import Prelude Tokens ByteCode Values.
Import ListNotations.
Open Scope Z_scope.
Open Scope shard_scope.

Module PrimitiveMath.
(** [TypeOf] and [IsNullInstance] of the file; [is_type t T] is [t == T]. *)
Definition TypeOf (instance : ObjectInstance) : option TypeSymbol :=
  if ObjectInstance.IsNullInstance instance then None else ObjectInstance.shape_type instance.

Definition is_type (type : option TypeSymbol) (t : TypeSymbol) : bool :=
  match type with Some s => s =type t | None => false end.

Definition IsNullInstance (instance : ObjectInstance) : bool :=
  if ObjectInstance.IsNullInstance instance then true
  else is_type (TypeOf instance) TypeSymbol.Null.

(** [type->Kind == SyntaxKind::EnumDeclaration]: [type] must not be null. *)
Definition kind_is_enum (type : option TypeSymbol) : result bool :=
  match type with Some t => Ok (TypeSymbol.is_enum t) | None => UB end.
(** [type->Inlining == TypeInlining::ByReference] *)
Definition by_reference (type : option TypeSymbol) : result bool :=
  match type with Some t => Ok (TypeSymbol.IsReferenceType t) | None => UB end.

(** [type == TYPE_INT || type->Kind == SyntaxKind::EnumDeclaration] *)
Definition int_or_enum (type : option TypeSymbol) : result bool :=
  if is_type type TypeSymbol.Integer then Ok true else kind_is_enum type.

Definition IsNumericType (type : option TypeSymbol) : bool :=
  is_type type TypeSymbol.Integer || is_type type TypeSymbol.Double
  || is_type type TypeSymbol.Char || is_type type TypeSymbol.Boolean
  || is_type type TypeSymbol.Byte || is_type type TypeSymbol.NativeInteger.

Definition IsIntegralType (type : option TypeSymbol) : bool :=
  is_type type TypeSymbol.Integer || is_type type TypeSymbol.Char
  || is_type type TypeSymbol.Byte || is_type type TypeSymbol.NativeInteger.

Definition IsPrimitiveType (type : option TypeSymbol) : bool :=
  is_type type TypeSymbol.Boolean || is_type type TypeSymbol.Integer
  || is_type type TypeSymbol.Double || is_type type TypeSymbol.Char
  || is_type type TypeSymbol.String || is_type type TypeSymbol.Byte
  || is_type type TypeSymbol.NativeInteger.

(** ** Conversions *)
Definition AsInteger (instance : ObjectInstance) : result Z :=
  let type := TypeOf instance in
  exact <-? int_or_enum type ;;
  if exact then ObjectInstance.AsInteger instance
  else if is_type type TypeSymbol.Double then
    d <-? ObjectInstance.AsDouble instance ;; Double.to_int64 d
  else if is_type type TypeSymbol.Boolean then
    b <-? ObjectInstance.AsBoolean instance ;; Ok (if b : bool then 1 else 0)
  else if is_type type TypeSymbol.Char then ObjectInstance.AsCharacter instance
  else if is_type type TypeSymbol.Byte then ObjectInstance.AsByte instance
  else if is_type type TypeSymbol.NativeInteger then ObjectInstance.AsNint instance
  else Ok 0.

Definition AsDouble (instance : ObjectInstance) : result Double.double :=
  let type := TypeOf instance in
  if is_type type TypeSymbol.Double then ObjectInstance.AsDouble instance else
  exact <-? int_or_enum type ;;
  if exact then z <-? ObjectInstance.AsInteger instance ;; Ok (Double.of_Z z)
  else if is_type type TypeSymbol.Boolean then
    b <-? ObjectInstance.AsBoolean instance ;; Ok (if b : bool then Double.one else Double.zero)
  else if is_type type TypeSymbol.Char then
    c <-? ObjectInstance.AsCharacter instance ;; Ok (Double.of_Z c)
  else if is_type type TypeSymbol.Byte then
    z <-? ObjectInstance.AsByte instance ;; Ok (Double.of_Z z)
  else if is_type type TypeSymbol.NativeInteger then
    z <-? ObjectInstance.AsNint instance ;; Ok (Double.of_Z z)
  else Ok Double.zero.

Definition AsBoolean (instance : ObjectInstance) : result bool :=
  let type := TypeOf instance in
  if is_type type TypeSymbol.Boolean then ObjectInstance.AsBoolean instance else
  exact <-? int_or_enum type ;;
  if exact then z <-? ObjectInstance.AsInteger instance ;; Ok (negb (z =? 0))
  else if is_type type TypeSymbol.Double then
    d <-? ObjectInstance.AsDouble instance ;; Ok (negb (Double.eqb d Double.zero))
  else if is_type type TypeSymbol.Char then
    c <-? ObjectInstance.AsCharacter instance ;; Ok (negb (c =? 0))
  else if is_type type TypeSymbol.Byte then
    z <-? ObjectInstance.AsByte instance ;; Ok (negb (z =? 0))
  else if is_type type TypeSymbol.NativeInteger then
    z <-? ObjectInstance.AsNint instance ;; Ok (negb (z =? 0))
  else Ok false.

Section WithHost.
Context `{Host} `{MathLibrary}.

Definition AsCharacter (instance : ObjectInstance) : result wchar :=
  let type := TypeOf instance in
  if is_type type TypeSymbol.Char then ObjectInstance.AsCharacter instance else
  exact <-? int_or_enum type ;;
  if exact then z <-? ObjectInstance.AsInteger instance ;; Ok (to_wchar z)
  else if is_type type TypeSymbol.Double then
    d <-? ObjectInstance.AsDouble instance ;; z <-? Double.to_int64 d ;; Ok (to_wchar z)
  else if is_type type TypeSymbol.Boolean then
    b <-? ObjectInstance.AsBoolean instance ;; Ok (if b : bool then ch "1" else 0)
  else Ok 0.

(** [FromInteger], [FromDouble], [FromBoolean] and [FromCharacter] *)
Definition FromInteger (value : Z) : ObjectInstance := VInt value.
Definition FromDouble (value : Double.double) : ObjectInstance := VDouble value.
Definition FromBoolean (value : bool) : ObjectInstance := VBool value.
Definition FromCharacter (value : wchar) : ObjectInstance := VChar value.

(** ** Formatting *)

(** Memory from an address to the end of its allocation; [None] is a
    character that was never written.  A store outside it is undefined. *)
Definition Buffer := list (option wchar).
Definition store (at_ : Z) (text : wstring) (buffer : Buffer) : result Buffer :=
  let n := List.length text in
  if (0 <=? at_) && (at_ + Z.of_nat n <=? Z.of_nat (List.length buffer)) then
    Ok (firstn (Z.to_nat at_) buffer ++ map Some text ++ skipn (Z.to_nat at_ + n) buffer)
  else UB.

(** [std::swprintf] with the text the format gives.  With no destination the
    Windows library returns the length; elsewhere, as the C standard has it,
    a text that does not fit its capacity gives a negative result. *)
Definition swprintf (dst : option Z) (capacity : Z) (text : wstring) (buffer : Buffer)
    : result (Z * Buffer) :=
  let n := Z.of_nat (List.length text) in
  match dst with
  | None => Ok (match host_system with Windows => n | Posix => -1 end, buffer)
  | Some at_ =>
      if n <? capacity then b <-? store at_ (text ++ [0]) buffer ;; Ok (n, b)
      else if capacity =? 0 then Ok (-1, buffer)
      else b <-? store at_ (firstn (Z.to_nat (capacity - 1)) text ++ [0]) buffer ;; Ok (-1, b)
  end.

(** [std::memcpy(dst, text, ...)] when there is a destination. *)
Definition copy_text (dst : option Z) (text : wstring) (buffer : Buffer) : result (Z * Buffer) :=
  let n := Z.of_nat (List.length text) in
  match dst with
  | None => Ok (n, buffer)
  | Some at_ => b <-? store at_ text buffer ;; Ok (n, b)
  end.

(** [FormatString]: the [std::size_t] result and the memory after it. *)
Definition FormatString (instance : ObjectInstance) (dst : option Z) (capacity : Z)
    (buffer : Buffer) : result (Z * Buffer) :=
  let type := TypeOf instance in
  let printed text :=
    r <-? swprintf dst capacity text buffer ;; Ok (size_t (fst r), snd r) in
  if is_type type TypeSymbol.String then
    s <-? ObjectInstance.AsString instance ;; copy_text dst s buffer
  else
  exact <-? int_or_enum type ;;
  if exact then z <-? ObjectInstance.AsInteger instance ;; printed (L (pretty z))
  else if is_type type TypeSymbol.Double then
    d <-? ObjectInstance.AsDouble instance ;; printed (Double.print d)
  else if is_type type TypeSymbol.Boolean then
    b <-? ObjectInstance.AsBoolean instance ;;
    copy_text dst (if b : bool then L "true" else L "false") buffer
  else if is_type type TypeSymbol.Char then
    c <-? ObjectInstance.AsCharacter instance ;; copy_text dst [c] buffer
  else if is_type type TypeSymbol.Byte then
    z <-? ObjectInstance.AsByte instance ;; printed (L (pretty z))
  else if is_type type TypeSymbol.NativeInteger then
    z <-? ObjectInstance.AsNint instance ;; printed (L (pretty z))
  else Ok (0, buffer).

(** ** The scratch arena

    [Chunks] are the capacities of the chunks; [Cursor] and [End] are offsets
    into the chunk that was acquired from or reset to last.  Allocation
    succeeds. *)
Record Arena := mkArena {
  Chunks : list Z;
  Cursor : Z;
  End : Z
}.
Definition empty_arena : Arena := mkArena [] 0 0.

(** [Acquire]: with the arena, the number of characters from the result to
    the end of its chunk. *)
Definition Acquire (count : Z) (a : Arena) : Arena * Z :=
  let a :=
    if End a - Cursor a <? count then
      let capacity := if count <? 4096 then 4096 else count in
      mkArena (Chunks a ++ [capacity]) 0 capacity
    else a in
  (mkArena (Chunks a) (Cursor a + count) (End a), End a - Cursor a).

(** [Reset] *)
Definition Reset (a : Arena) : Arena :=
  match Chunks a with
  | [] => a
  | front :: _ => mkArena (Chunks a) 0 front
  end.

(** [GarbageCollector::FromString(const wchar_t* )]: the characters up to the
    first terminator. *)
Fixpoint FromString (buffer : Buffer) : result wstring :=
  match buffer with
  | Some c :: buffer => if c =? 0 then Ok [] else s <-? FromString buffer ;; Ok (c :: s)
  | None :: _ | [] => UB
  end.

(** The string branch of [ExecuteMathAddition]. *)
Definition Concatenate (left right : ObjectInstance) (arena : Arena)
    : result (ObjectInstance * Arena) :=
  let arena := Reset arena in
  l <-? FormatString left None 0 [] ;;
  r <-? FormatString right None 0 [] ;;
  let leftLength := fst l in
  let rightLength := fst r in
  let (arena, region) := Acquire (size_t (leftLength + rightLength + 1)) arena in
  let buffer := repeat None (Z.to_nat region) in
  b <-? FormatString left (Some 0) (size_t (leftLength + 1)) buffer ;;
  b <-? FormatString right (Some leftLength) (size_t (rightLength + 1)) (snd b) ;;
  b <-? store (size_t (leftLength + rightLength)) [0] (snd b) ;;
  s <-? FromString b ;;
  Ok (VString s, arena).

(** ** Arithmetic *)

(** The common shape of the operators: operands that are not numeric are not
    handled; a double operand makes it an operation of doubles. *)
Definition arithmetic (on_double : Double.double -> Double.double -> result Double.double)
    (on_int : Z -> Z -> result Z) (left right : ObjectInstance) : result ObjectInstance :=
  let lt := TypeOf left in
  let rt := TypeOf right in
  if negb (IsNumericType lt) || negb (IsNumericType rt) then Ok null_instance
  else if is_type lt TypeSymbol.Double || is_type rt TypeSymbol.Double then
    r <-? AsDouble right ;; l <-? AsDouble left ;;
    d <-? on_double l r ;; Ok (FromDouble d)
  else
    r <-? AsInteger right ;; l <-? AsInteger left ;;
    z <-? on_int l r ;; Ok (FromInteger z).

Definition ExecuteMathAddition (left right : ObjectInstance) (arena : Arena)
    : result (ObjectInstance * Arena) :=
  if is_type (TypeOf left) TypeSymbol.String || is_type (TypeOf right) TypeSymbol.String then
    Concatenate left right arena
  else
    v <-? arithmetic (fun l r => Ok (Double.add l r)) (fun l r => int64_result (l + r)) left right ;;
    Ok (v, arena).

Definition ExecuteMathSubtraction : ObjectInstance -> ObjectInstance -> result ObjectInstance :=
  arithmetic (fun l r => Ok (Double.sub l r)) (fun l r => int64_result (l - r)).

Definition ExecuteMathMultiplication : ObjectInstance -> ObjectInstance -> result ObjectInstance :=
  arithmetic (fun l r => Ok (Double.mul l r)) (fun l r => int64_result (l * r)).

Definition ExecuteMathDivision : ObjectInstance -> ObjectInstance -> result ObjectInstance :=
  arithmetic
    (fun l r => if Double.eqb r Double.zero then Throw "Division by zero" else Ok (Double.div l r))
    (fun l r => if r =? 0 then Throw "DivideByZeroException" else int64_result (Z.quot l r)).

(** [INT64_MIN % -1] is undefined as its quotient is. *)
Definition ExecuteMathModulo : ObjectInstance -> ObjectInstance -> result ObjectInstance :=
  arithmetic
    (fun l r => if Double.eqb r Double.zero then Throw "Modulo by zero" else Ok (Double.fmod l r))
    (fun l r => if r =? 0 then Throw "DivideByZeroException"
                else q <-? int64_result (Z.quot l r) ;; Ok (Z.rem l r)).

Definition ExecuteMathPower (left right : ObjectInstance) : result ObjectInstance :=
  let lt := TypeOf left in
  let rt := TypeOf right in
  if negb (IsNumericType lt) || negb (IsNumericType rt) then Ok null_instance else
  l <-? AsDouble left ;; r <-? AsDouble right ;;
  let result := pow l r in
  if is_type lt TypeSymbol.Double || is_type rt TypeSymbol.Double then Ok (FromDouble result)
  else z <-? Double.to_int64 result ;; Ok (FromInteger z).

(** ** Bits and shifts *)
Definition integral (op : Z -> Z -> result Z) (left right : ObjectInstance)
    : result ObjectInstance :=
  if negb (IsIntegralType (TypeOf left)) || negb (IsIntegralType (TypeOf right)) then
    Ok null_instance
  else l <-? AsInteger left ;; r <-? AsInteger right ;; z <-? op l r ;; Ok (FromInteger z).

Definition both_boolean (left right : ObjectInstance) : bool :=
  is_type (TypeOf left) TypeSymbol.Boolean && is_type (TypeOf right) TypeSymbol.Boolean.

Definition ExecuteBitwiseOr (left right : ObjectInstance) : result ObjectInstance :=
  if both_boolean left right then
    l <-? AsBoolean left ;; if l : bool then Ok (FromBoolean true) else
    r <-? AsBoolean right ;; Ok (FromBoolean r)
  else integral (fun l r => Ok (Z.lor l r)) left right.

Definition ExecuteBitwiseAnd (left right : ObjectInstance) : result ObjectInstance :=
  if both_boolean left right then
    l <-? AsBoolean left ;; if negb l then Ok (FromBoolean false) else
    r <-? AsBoolean right ;; Ok (FromBoolean r)
  else integral (fun l r => Ok (Z.land l r)) left right.

(** C++20 shifts: a left shift wraps, a right shift keeps the sign, and the
    count must be below the width. *)
Definition shift_count (r : Z) : bool := (0 <=? r) && (r <? 64).
Definition ExecuteShiftLeft : ObjectInstance -> ObjectInstance -> result ObjectInstance :=
  integral (fun l r => if shift_count r then Ok (signed 64 (Z.shiftl l r mod 2 ^ 64)) else UB).
Definition ExecuteShiftRight : ObjectInstance -> ObjectInstance -> result ObjectInstance :=
  integral (fun l r => if shift_count r then Ok (Z.shiftr l r) else UB).

(** ** Comparison *)

(** [std::wcscmp]: the order of the characters before the terminators. *)
Fixpoint wcscmp (s t : wstring) : comparison :=
  let head u := match u with c :: _ => c | [] => 0 end in
  match s with
  | [] => 0 ?= head t
  | c :: s =>
      match c ?= head t with
      | Eq => if c =? 0 then Eq else wcscmp s (tl t)
      | order => order
      end
  end.

Definition ExecuteCompareEqual (left right : ObjectInstance) : result ObjectInstance :=
  let lt := TypeOf left in
  let rt := TypeOf right in
  if IsNullInstance left || IsNullInstance right then
    Ok (FromBoolean (ObjectInstance.same_memory left right))
  else if is_type lt TypeSymbol.String && is_type rt TypeSymbol.String then
    l <-? ObjectInstance.AsString left ;; r <-? ObjectInstance.AsString right ;;
    Ok (FromBoolean (l =w r))
  else
  lref <-? by_reference lt ;; rref <-? by_reference rt ;;
  if lref && rref then Ok (FromBoolean (ObjectInstance.same_memory left right)) else
  lenum <-? kind_is_enum lt ;; renum <-? kind_is_enum rt ;;
  if lenum && renum && (match lt, rt with Some a, Some b => a =type b | _, _ => false end) then
    l <-? AsInteger left ;; r <-? AsInteger right ;; Ok (FromBoolean (l =? r))
  else if negb (IsNumericType lt) || negb (IsNumericType rt) then Ok null_instance
  else if is_type lt TypeSymbol.Double || is_type rt TypeSymbol.Double then
    l <-? AsDouble left ;; r <-? AsDouble right ;; Ok (FromBoolean (Double.eqb l r))
  else l <-? AsInteger left ;; r <-? AsInteger right ;; Ok (FromBoolean (l =? r)).

Definition ExecuteCompareNotEqual (left right : ObjectInstance) : result ObjectInstance :=
  result <-? ExecuteCompareEqual left right ;;
  if ObjectInstance.IsNullInstance result then Ok result
  else b <-? ObjectInstance.AsBoolean result ;; Ok (FromBoolean (negb b)).

(** [ExecuteCompareLess] and [ExecuteCompareGreater]: the same steps with the
    comparison on strings, doubles and integers. *)
Definition ordering (on_string : comparison -> bool) (on_double : Double.double -> Double.double -> bool)
    (on_int : Z -> Z -> bool) (left right : ObjectInstance) : result ObjectInstance :=
  let lt := TypeOf left in
  let rt := TypeOf right in
  if IsNullInstance left || IsNullInstance right then Ok null_instance
  else if is_type lt TypeSymbol.String && is_type rt TypeSymbol.String then
    l <-? ObjectInstance.AsString left ;; r <-? ObjectInstance.AsString right ;;
    Ok (FromBoolean (on_string (wcscmp l r)))
  else if negb (IsNumericType lt) || negb (IsNumericType rt) then Ok null_instance
  else if is_type lt TypeSymbol.Double || is_type rt TypeSymbol.Double then
    l <-? AsDouble left ;; r <-? AsDouble right ;; Ok (FromBoolean (on_double l r))
  else l <-? AsInteger left ;; r <-? AsInteger right ;; Ok (FromBoolean (on_int l r)).

Definition ExecuteCompareLess : ObjectInstance -> ObjectInstance -> result ObjectInstance :=
  ordering (fun c => match c with Lt => true | _ => false end) Double.ltb Z.ltb.

Definition ExecuteCompareGreater : ObjectInstance -> ObjectInstance -> result ObjectInstance :=
  ordering (fun c => match c with Gt => true | _ => false end)
    (fun l r => Double.ltb r l) (fun l r => r <? l).

(** [ExecuteCompareLessOrEqual] and [ExecuteCompareGreaterOrEqual]: a strict
    comparison that is not true is followed by the equality test. *)
Definition or_equal (strict : ObjectInstance -> ObjectInstance -> result ObjectInstance)
    (left right : ObjectInstance) : result ObjectInstance :=
  less <-? strict left right ;;
  yes <-? (if negb (ObjectInstance.IsNullInstance less) then ObjectInstance.AsBoolean less else Ok false) ;;
  if yes : bool then Ok less else ExecuteCompareEqual left right.

Definition ExecuteCompareLessOrEqual : ObjectInstance -> ObjectInstance -> result ObjectInstance :=
  or_equal ExecuteCompareLess.
Definition ExecuteCompareGreaterOrEqual : ObjectInstance -> ObjectInstance -> result ObjectInstance :=
  or_equal ExecuteCompareGreater.

(** ** Logic *)
Definition ExecuteLogicalNot (operand : ObjectInstance) : result ObjectInstance :=
  if negb (is_type (TypeOf operand) TypeSymbol.Boolean) then Ok null_instance
  else b <-? AsBoolean operand ;; Ok (FromBoolean (negb b)).

Definition ExecuteLogicalOr (left right : ObjectInstance) : result ObjectInstance :=
  if both_boolean left right then
    l <-? AsBoolean left ;; if l : bool then Ok (FromBoolean true) else
    r <-? AsBoolean right ;; Ok (FromBoolean r)
  else ExecuteBitwiseOr left right.

Definition ExecuteLogicalAnd (left right : ObjectInstance) : result ObjectInstance :=
  if both_boolean left right then
    l <-? AsBoolean left ;; if negb l then Ok (FromBoolean false) else
    r <-? AsBoolean right ;; Ok (FromBoolean r)
  else ExecuteBitwiseAnd left right.

(** ** The entry points *)

(** [ExecuteBinary] *)
Definition ExecuteBinary (opToken : TokenType) (left right : ObjectInstance) (arena : Arena)
    : result (ObjectInstance * Arena) :=
  let pure r := v <-? r ;; Ok (v, arena) in
  match opToken with
  | TokenType.AddOperator => ExecuteMathAddition left right arena
  | TokenType.SubOperator => pure (ExecuteMathSubtraction left right)
  | TokenType.MultOperator => pure (ExecuteMathMultiplication left right)
  | TokenType.DivOperator => pure (ExecuteMathDivision left right)
  | TokenType.ModOperator => pure (ExecuteMathModulo left right)
  | TokenType.PowOperator => pure (ExecuteMathPower left right)
  | TokenType.OrOperator => pure (ExecuteBitwiseOr left right)
  | TokenType.AndOperator => pure (ExecuteBitwiseAnd left right)
  | TokenType.LeftShiftOperator => pure (ExecuteShiftLeft left right)
  | TokenType.RightShiftOperator => pure (ExecuteShiftRight left right)
  | TokenType.EqualsOperator => pure (ExecuteCompareEqual left right)
  | TokenType.NotEqualsOperator => pure (ExecuteCompareNotEqual left right)
  | TokenType.LessOperator => pure (ExecuteCompareLess left right)
  | TokenType.LessOrEqualsOperator => pure (ExecuteCompareLessOrEqual left right)
  | TokenType.GreaterOperator => pure (ExecuteCompareGreater left right)
  | TokenType.GreaterOrEqualsOperator => pure (ExecuteCompareGreaterOrEqual left right)
  | _ => Ok (null_instance, arena)
  end.

(** [ExecuteUnary] *)
Definition ExecuteUnary (opToken : TokenType) (operand : ObjectInstance) : result ObjectInstance :=
  let type := TypeOf operand in
  if negb (IsNumericType type) then
    if opToken =tt TokenType.NotOperator then ExecuteLogicalNot operand else Ok null_instance
  else
  match opToken with
  | TokenType.NotOperator => ExecuteLogicalNot operand
  | TokenType.SubOperator =>
      if is_type type TypeSymbol.Double then
        d <-? AsDouble operand ;; Ok (FromDouble (Double.opp d))
      else z <-? AsInteger operand ;; z <-? int64_result (- z) ;; Ok (FromInteger z)
  | TokenType.AddOperator =>
      if is_type type TypeSymbol.Double then
        d <-? AsDouble operand ;; Ok (FromDouble d)
      else z <-? AsInteger operand ;; Ok (FromInteger z)
  | _ => Ok null_instance
  end.

(** [ExecuteCast] *)
Definition ExecuteCast (targetType : option TypeSymbol) (source : ObjectInstance)
    : result ObjectInstance :=
  match targetType with
  | None => Ok null_instance
  | Some target =>
      if ObjectInstance.IsNullInstance source then Ok null_instance
      else if target =type TypeSymbol.Any then Ok source
      else
      sourceRef <-? (if TypeSymbol.IsReferenceType target then Ok true
                     else by_reference (TypeOf source)) ;;
      if sourceRef : bool then Ok null_instance
      else if target =type TypeSymbol.Integer then
        z <-? AsInteger source ;; Ok (FromInteger z)
      else if target =type TypeSymbol.Double then
        d <-? AsDouble source ;; Ok (FromDouble d)
      else if target =type TypeSymbol.Boolean then
        b <-? AsBoolean source ;; Ok (FromBoolean b)
      else if target =type TypeSymbol.Char then
        c <-? AsCharacter source ;; Ok (FromCharacter c)
      else if target =type TypeSymbol.Byte then
        z <-? AsInteger source ;; Ok (VByte (z mod 2 ^ 8))
      else if target =type TypeSymbol.NativeInteger then
        z <-? AsInteger source ;; Ok (VNint z)
      else match target with
           | TypeSymbol.Enum id => z <-? AsInteger source ;; Ok (VEnum id z)
           | _ => Ok null_instance
           end
  end.
End WithHost.
End PrimitiveMath.
