(* ===== verification/PrimMathSpec.v ===== *)
(** * Primitive operators: correctness

    The types of the results of the operators, integer arithmetic and its
    errors, string concatenation on the two hosts and the arena it formats
    into, the laws of the comparisons, and the casts. *)
From Stdlib Require Import ZArith Lia Bool List String.
From stdpp Require Import base list pretty.
From S2P Require Import Prelude Tokens ByteCode Values PrimMath.
Import ListNotations.
Import PrimitiveMath.
Open Scope Z_scope.
Open Scope shard_scope.

(** ** Specifications *)

(** The integer a numeric operand other than a double stands for. *)
Definition int_reading (v : ObjectInstance) : option Z :=
  match v with
  | VInt z | VChar z | VByte z | VNint z => Some z
  | VBool b => Some (Z.b2z b)
  | _ => None
  end.

(** The values the machine keeps in an instance of each type. *)
Definition well_typed `{Host} (v : ObjectInstance) : Prop :=
  match v with
  | VInt z | VNint z | VEnum _ z => in_int64 z = true
  | VChar c => to_wchar c = c
  | VByte z => 0 <= z < 256
  | Other type _ =>
      match type with
      | TypeSymbol.Void | TypeSymbol.Any | TypeSymbol.Null | TypeSymbol.Array
      | TypeSymbol.Struct _ | TypeSymbol.Reference _ => True
      | _ => False
      end
  | NullRef _ | VBool _ | VDouble _ | VString _ => True
  end.

(** The type an operator promises for operands of two types; [None] is an
    operation the module leaves to the operator overloads. *)
Definition arithmetic_type (lt rt : option TypeSymbol) : option TypeSymbol :=
  if IsNumericType lt && IsNumericType rt then
    if is_type lt TypeSymbol.Double || is_type rt TypeSymbol.Double then Some TypeSymbol.Double
    else Some TypeSymbol.Integer
  else None.

Definition integral_type (lt rt : option TypeSymbol) : option TypeSymbol :=
  if IsIntegralType lt && IsIntegralType rt then Some TypeSymbol.Integer else None.

Definition nothing (t : option TypeSymbol) : bool :=
  match t with None => true | Some t => t =type TypeSymbol.Null end.

Definition reference (t : option TypeSymbol) : bool :=
  match t with Some t => TypeSymbol.IsReferenceType t | None => false end.

Definition equal_type (lt rt : option TypeSymbol) : option TypeSymbol :=
  if nothing lt || nothing rt || (reference lt && reference rt)
     || (IsNumericType lt && IsNumericType rt)
     || (match lt, rt with
         | Some (TypeSymbol.Enum i), Some (TypeSymbol.Enum j) => Nat.eqb i j
         | _, _ => false
         end)
  then Some TypeSymbol.Boolean else None.

Definition order_type (lt rt : option TypeSymbol) : option TypeSymbol :=
  if (is_type lt TypeSymbol.String && is_type rt TypeSymbol.String)
     || (IsNumericType lt && IsNumericType rt)
  then Some TypeSymbol.Boolean else None.

Definition binary_type (op : TokenType) (lt rt : option TypeSymbol) : option TypeSymbol :=
  match op with
  | TokenType.AddOperator =>
      if is_type lt TypeSymbol.String || is_type rt TypeSymbol.String
      then Some TypeSymbol.String else arithmetic_type lt rt
  | TokenType.SubOperator | TokenType.MultOperator | TokenType.DivOperator
  | TokenType.ModOperator | TokenType.PowOperator => arithmetic_type lt rt
  | TokenType.OrOperator | TokenType.AndOperator =>
      if is_type lt TypeSymbol.Boolean && is_type rt TypeSymbol.Boolean
      then Some TypeSymbol.Boolean else integral_type lt rt
  | TokenType.LeftShiftOperator | TokenType.RightShiftOperator => integral_type lt rt
  | TokenType.EqualsOperator | TokenType.NotEqualsOperator
  | TokenType.LessOrEqualsOperator | TokenType.GreaterOrEqualsOperator => equal_type lt rt
  | TokenType.LessOperator | TokenType.GreaterOperator => order_type lt rt
  | _ => None
  end.

(** The text a value is formatted as. *)
Definition text_of (v : ObjectInstance) : wstring :=
  match v with
  | VString s => s
  | VInt z | VByte z | VNint z | VEnum _ z => L (pretty z)
  | VDouble d => Double.print d
  | VBool b => if b then L "true" else L "false"
  | VChar c => [c]
  | NullRef _ | Other _ _ => []
  end.

(** The values whose text goes through [std::swprintf]. *)
Definition formatted (v : ObjectInstance) : bool :=
  match v with VInt _ | VDouble _ | VByte _ | VNint _ | VEnum _ _ => true | _ => false end.

Definition is_null (v : ObjectInstance) : bool := ObjectInstance.IsNullInstance v.

(** ** Integer ranges *)
Lemma in_int64_spec z : in_int64 z = true <-> - 2 ^ 63 <= z <= 2 ^ 63 - 1.
Proof. unfold in_int64, INT64_MIN, INT64_MAX; rewrite andb_true_iff, !Z.leb_le; tauto. Qed.

Lemma int64_result_Ok z z' : int64_result z = Ok z' <-> z' = z /\ in_int64 z = true.
Proof. unfold int64_result; case_if; split; [intros [= <-]|intros [-> _]| |]; intuition congruence. Qed.

Lemma in_int64_shiftr z : in_int64 z = true <-> Z.shiftr z 63 = 0 \/ Z.shiftr z 63 = -1.
Proof.
  rewrite in_int64_spec, Z.shiftr_div_pow2 by lia; split; intros Hz.
  - destruct (Z_lt_le_dec z 0); [right|left].
    + symmetry; apply Z.div_unique with (r := z + 2 ^ 63); lia.
    + apply Z.div_small; lia.
  - assert (0 < 2 ^ 63) by lia; pose proof (Z.div_mod z (2 ^ 63)); pose proof (Z.mod_pos_bound z (2 ^ 63)); lia.
Qed.

Lemma in_int64_lor a b : in_int64 a = true -> in_int64 b = true -> in_int64 (Z.lor a b) = true.
Proof.
  rewrite !in_int64_shiftr, Z.shiftr_lor; intros [->| ->] [->| ->]; auto.
Qed.

Lemma in_int64_land a b : in_int64 a = true -> in_int64 b = true -> in_int64 (Z.land a b) = true.
Proof.
  rewrite !in_int64_shiftr, Z.shiftr_land; intros [->| ->] [->| ->]; auto.
Qed.

Lemma in_int64_signed z : in_int64 (signed 64 (z mod 2 ^ 64)) = true.
Proof.
  assert (Hz : 0 <= z mod 2 ^ 64 < 2 ^ 64) by (apply Z.mod_pos_bound; reflexivity).
  revert Hz; generalize (z mod 2 ^ 64); intros y Hy.
  apply in_int64_spec; unfold signed; change (64 - 1) with 63.
  destruct (Z.ltb_spec y (2 ^ 63)); lia.
Qed.

Lemma in_int64_shift_right a n : 0 <= n -> in_int64 a = true -> in_int64 (Z.shiftr a n) = true.
Proof.
  intros Hn; rewrite !in_int64_shiftr, Z.shiftr_shiftr, Z.add_comm, <- Z.shiftr_shiftr by lia.
  intros [->| ->]; rewrite ?Z.shiftr_0_l; auto; right.
  rewrite Z.shiftr_div_pow2 by lia; symmetry; apply Z.div_unique with (r := 2 ^ n - 1).
  - pose proof (Z.pow_pos_nonneg 2 n ltac:(lia) Hn); lia.
  - lia.
Qed.

Lemma shift_count_nonneg n : shift_count n = true -> 0 <= n.
Proof. unfold shift_count; intros E; zbool; lia. Qed.

Lemma in_int64_rem a b : in_int64 a = true -> in_int64 (Z.rem a b) = true.
Proof.
  rewrite !in_int64_spec; intros Ha; destruct (Z.eq_dec b 0) as [->|Hb].
  - rewrite Z.rem_0_r_ext by reflexivity; lia.
  - pose proof (Z.rem_bound_abs a b Hb); destruct (Z_le_gt_dec 0 a).
    + pose proof (Z.rem_nonneg a b Hb ltac:(lia)); pose proof (Z.rem_le a (Z.abs b) ltac:(lia) ltac:(lia)).
      rewrite Z.rem_abs_r in * by lia; lia.
    + pose proof (Z.rem_nonpos a b Hb ltac:(lia)).
      pose proof (Z.rem_le (- a) (Z.abs b) ltac:(lia) ltac:(lia)).
      rewrite Z.rem_abs_r, Z.rem_opp_l in * by lia; lia.
Qed.

(** ** Readings of a value *)
Section WithHost.
Context `{Host} `{MathLibrary}.

Lemma wchar_in_int64 c : to_wchar c = c -> in_int64 c = true.
Proof.
  unfold to_wchar, signed; rewrite in_int64_spec; destruct host_system; intros <-.
  - pose proof (Z.mod_pos_bound c (2 ^ 16)); lia.
  - pose proof (Z.mod_pos_bound c (2 ^ 32)); case_if; zbool; lia.
Qed.

Lemma to_int64_range d z : Double.to_int64 d = Ok z -> in_int64 z = true.
Proof.
  unfold Double.to_int64; destruct (Double.truncate d); [|discriminate].
  intros E; apply int64_result_Ok in E as [-> E]; exact E.
Qed.

Lemma AsInteger_range v z : well_typed v -> AsInteger v = Ok z -> in_int64 z = true.
Proof.
  destruct v as [s|b|i|d|c|y|n|s|e i|t a]; cbn; intros Hv E; try discriminate;
    try (injection E as <-; assumption || reflexivity).
  - destruct b; injection E as <-; reflexivity.
  - exact (to_int64_range d z E).
  - injection E as <-; apply wchar_in_int64, Hv.
  - injection E as <-; apply in_int64_spec; lia.
  - destruct t; try contradiction; injection E as <-; reflexivity.
Qed.

Lemma AsInteger_reading v z : int_reading v = Some z -> AsInteger v = Ok z.
Proof. destruct v; cbn; intros [= <-]; try reflexivity; destruct b; reflexivity. Qed.

Lemma int_reading_types v z :
  int_reading v = Some z ->
  IsNumericType (TypeOf v) = true /\ is_type (TypeOf v) TypeSymbol.Double = false
  /\ is_type (TypeOf v) TypeSymbol.String = false.
Proof. destruct v; cbn; try discriminate; repeat split. Qed.

(** ** Types of the results *)

(** [int_range] bounds the result of an operation of integers. *)
Ltac int_range :=
  match goal with
  | E : (if ?c then _ else _) = Ok _ |- _ =>
      let C := fresh "C" in destruct c eqn:C; try discriminate; int_range
  | E : rbind _ _ = Ok _ |- _ => apply rbind_Ok in E as (? & _ & E); int_range
  | E : int64_result _ = Ok _ |- _ => apply int64_result_Ok in E as [-> E]; exact E
  | E : Ok _ = Ok _ |- _ => injection E as <-; auto using in_int64_signed, in_int64_rem, in_int64_shift_right, shift_count_nonneg
  end.

Lemma arithmetic_typed fd fi l r v :
  (forall a b z, in_int64 a = true -> in_int64 b = true -> fi a b = Ok z -> in_int64 z = true) ->
  well_typed l -> well_typed r -> arithmetic fd fi l r = Ok v ->
  TypeOf v = arithmetic_type (TypeOf l) (TypeOf r) /\ well_typed v.
Proof.
  intros Hfi Hl Hr; unfold arithmetic, arithmetic_type.
  destruct (IsNumericType (TypeOf l)), (IsNumericType (TypeOf r)); cbn [andb orb negb];
    try (intros [= <-]; split; [reflexivity|exact I]).
  destruct (_ || _); intros E.
  - repeat (apply rbind_Ok in E as (? & ? & E)); injection E as <-; split; [reflexivity|exact I].
  - apply rbind_Ok in E as (b & Eb & E); apply rbind_Ok in E as (a & Ea & E).
    apply rbind_Ok in E as (z & Ez & E); injection E as <-; split; [reflexivity|].
    eapply Hfi; [..|exact Ez]; [exact (AsInteger_range l a Hl Ea)|exact (AsInteger_range r b Hr Eb)].
Qed.

Lemma integral_typed op l r v :
  (forall a b z, in_int64 a = true -> in_int64 b = true -> op a b = Ok z -> in_int64 z = true) ->
  well_typed l -> well_typed r -> integral op l r = Ok v ->
  TypeOf v = integral_type (TypeOf l) (TypeOf r) /\ well_typed v.
Proof.
  intros Hop Hl Hr; unfold integral, integral_type.
  destruct (IsIntegralType (TypeOf l)), (IsIntegralType (TypeOf r)); cbn [andb orb negb];
    try (intros [= <-]; split; [reflexivity|exact I]).
  intros E; apply rbind_Ok in E as (a & Ea & E); apply rbind_Ok in E as (b & Eb & E).
  apply rbind_Ok in E as (z & Ez & E); injection E as <-; split; [reflexivity|].
  eapply Hop; [..|exact Ez]; [exact (AsInteger_range l a Hl Ea)|exact (AsInteger_range r b Hr Eb)].
Qed.

Lemma power_typed l r v :
  ExecuteMathPower l r = Ok v ->
  TypeOf v = arithmetic_type (TypeOf l) (TypeOf r) /\ well_typed v.
Proof.
  unfold ExecuteMathPower, arithmetic_type.
  destruct (IsNumericType (TypeOf l)), (IsNumericType (TypeOf r)); cbn [andb orb negb];
    try (intros [= <-]; split; [reflexivity|exact I]).
  intros E; apply rbind_Ok in E as (a & _ & E); apply rbind_Ok in E as (b & _ & E).
  destruct (_ || _); [injection E as <-; split; [reflexivity|exact I]|].
  apply rbind_Ok in E as (z & Ez & E); injection E as <-; split; [reflexivity|].
  exact (to_int64_range _ _ Ez).
Qed.

(** Both bitwise operators: a connective on booleans, bits on integers. *)
Lemma bitwise_typed (short : bool) on_int l r v :
  (forall a b, in_int64 a = true -> in_int64 b = true -> in_int64 (on_int a b) = true) ->
  well_typed l -> well_typed r ->
  (if both_boolean l r then
     x <-? AsBoolean l ;; if Bool.eqb x short then Ok (FromBoolean short) else
     y <-? AsBoolean r ;; Ok (FromBoolean y)
   else integral (fun a b => Ok (on_int a b)) l r) = Ok v ->
  TypeOf v = (if both_boolean l r then Some TypeSymbol.Boolean
              else integral_type (TypeOf l) (TypeOf r)) /\ well_typed v.
Proof.
  intros Hop Hl Hr; destruct (both_boolean l r).
  - intros E; apply rbind_Ok in E as (x & _ & E); destruct (Bool.eqb x short).
    + injection E as <-; split; [reflexivity|exact I].
    + apply rbind_Ok in E as (y & _ & E); injection E as <-; split; [reflexivity|exact I].
  - apply integral_typed; auto; intros a b z Ha Hb [= <-]; auto.
Qed.

Lemma concatenation_typed l r a v a' :
  Concatenate l r a = Ok (v, a') -> exists s, v = VString s.
Proof.
  unfold Concatenate; intros E.
  apply rbind_Ok in E as (x & _ & E); apply rbind_Ok in E as (y & _ & E).
  destruct (Acquire _ _) as [a1 region].
  repeat (apply rbind_Ok in E as (? & _ & E)); injection E as <- _; eauto.
Qed.

(** The comparisons answer a boolean, or nothing. *)
Lemma equal_shape l r v :
  ExecuteCompareEqual l r = Ok v -> v = null_instance \/ exists b, v = VBool b.
Proof.
  unfold ExecuteCompareEqual, FromBoolean; intros E.
  repeat match type of E with
  | rbind _ _ = Ok _ => apply rbind_Ok in E as (? & _ & E)
  | (if ?c then _ else _) = Ok _ => destruct c
  | Ok _ = Ok _ => injection E as <-; eauto
  end.
Qed.

Lemma ordering_shape os od oi l r v :
  ordering os od oi l r = Ok v ->
  (v = null_instance /\ order_type (TypeOf l) (TypeOf r) = None
   \/ exists b, v = VBool b /\ order_type (TypeOf l) (TypeOf r) = Some TypeSymbol.Boolean).
Proof.
  unfold ordering, order_type, FromBoolean, IsNullInstance; intros E.
  destruct l as [s|?|?|?|?|?|?|?|? ?|tl ?], r as [s'|?|?|?|?|?|?|?|? ?|tr ?];
    try destruct tl; try destruct tr; cbn in E |- *;
    try (injection E as <-; solve [eauto]);
    repeat (apply rbind_Ok in E as (? & _ & E)); try discriminate; injection E as <-; eauto.
Qed.

Lemma equal_typed l r v :
  well_typed l -> well_typed r -> ExecuteCompareEqual l r = Ok v ->
  TypeOf v = equal_type (TypeOf l) (TypeOf r).
Proof.
  intros Hl Hr E; unfold ExecuteCompareEqual, FromBoolean, IsNullInstance, equal_type in *.
  destruct l as [s|?|?|?|?|?|?|?|i ?|tl ?], r as [s'|?|?|?|?|?|?|?|j ?|tr ?];
    try destruct tl; try contradiction; try destruct tr; try contradiction; cbn in E |- *;
    try (injection E as <-; reflexivity);
    try (repeat (apply rbind_Ok in E as (? & _ & E)); injection E as <-; reflexivity).
  destruct (i =? j)%nat; cbn in E |- *; injection E as <-; reflexivity.
Qed.

Lemma or_equal_typed os od oi l r v :
  well_typed l -> well_typed r -> or_equal (ordering os od oi) l r = Ok v ->
  TypeOf v = equal_type (TypeOf l) (TypeOf r) /\ well_typed v.
Proof.
  intros Hl Hr E; unfold or_equal in E.
  apply rbind_Ok in E as (less & Eless & E); apply rbind_Ok in E as (yes & Eyes & E).
  destruct yes.
  - injection E as <-; destruct (ordering_shape _ _ _ _ _ _ Eless) as [[-> _]|(b & -> & Ht)];
      [discriminate|split; [|exact I]].
    unfold order_type in Ht; unfold equal_type; cbn [TypeOf ObjectInstance.IsNullInstance ObjectInstance.shape_type].
    destruct (is_type (TypeOf l) TypeSymbol.String && is_type (TypeOf r) TypeSymbol.String) eqn:Es.
    + apply andb_true_iff in Es as [E1 E2]; unfold is_type in E1, E2.
      destruct (TypeOf l), (TypeOf r); try discriminate.
      apply TypeSymbol.eqb_eq in E1 as ->; apply TypeSymbol.eqb_eq in E2 as ->; reflexivity.
    + cbn [orb] in Ht; destruct (IsNumericType (TypeOf l) && IsNumericType (TypeOf r)); [|discriminate].
      rewrite orb_true_r; reflexivity.
  - split; [exact (equal_typed l r v Hl Hr E)|].
    destruct (equal_shape l r v E) as [->|(b & ->)]; exact I.
Qed.

Lemma not_equal_typed l r v :
  well_typed l -> well_typed r -> ExecuteCompareNotEqual l r = Ok v ->
  TypeOf v = equal_type (TypeOf l) (TypeOf r) /\ well_typed v.
Proof.
  intros Hl Hr E; apply rbind_Ok in E as (e & Ee & E).
  pose proof (equal_typed l r e Hl Hr Ee) as Ht.
  destruct (equal_shape l r e Ee) as [->|(b & ->)]; cbn in E; injection E as <-;
    (split; [exact Ht|exact I]).
Qed.

Lemma or_typed l r v :
  well_typed l -> well_typed r -> ExecuteBitwiseOr l r = Ok v ->
  TypeOf v = (if both_boolean l r then Some TypeSymbol.Boolean
              else integral_type (TypeOf l) (TypeOf r)) /\ well_typed v.
Proof.
  intros Hl Hr E; apply (bitwise_typed true Z.lor l r v in_int64_lor Hl Hr); rewrite <- E.
  unfold ExecuteBitwiseOr; destruct (both_boolean l r), (AsBoolean l) as [[]| |]; reflexivity.
Qed.

Lemma and_typed l r v :
  well_typed l -> well_typed r -> ExecuteBitwiseAnd l r = Ok v ->
  TypeOf v = (if both_boolean l r then Some TypeSymbol.Boolean
              else integral_type (TypeOf l) (TypeOf r)) /\ well_typed v.
Proof.
  intros Hl Hr E; apply (bitwise_typed false Z.land l r v in_int64_land Hl Hr); rewrite <- E.
  unfold ExecuteBitwiseAnd; destruct (both_boolean l r), (AsBoolean l) as [[]| |]; reflexivity.
Qed.

(** C29: The operators keep values well typed, and the type of a result is a
    function of the types of the operands: the operators answer nothing
    exactly for the operand types they do not handle. *)
Theorem binary_operators_typed (op : TokenType) (l r v : ObjectInstance) (a a' : Arena) :
  well_typed l -> well_typed r ->
  ExecuteBinary op l r a = Ok (v, a') ->
  TypeOf v = binary_type op (TypeOf l) (TypeOf r) /\ well_typed v.
Proof.
  intros Hl Hr E.
  assert (Hbin : forall m, (x <-? m ;; Ok (x, a)) = Ok (v, a') -> m = Ok v).
  { intros m Em; apply rbind_Ok in Em as (x & -> & [= -> _]); reflexivity. }
  destruct op; cbn [ExecuteBinary binary_type] in E |- *;
    try (injection E as <- _; split; [reflexivity|exact I]).
  all: try apply Hbin in E.
  all: first
    [ exact (not_equal_typed l r v Hl Hr E)
    | exact (or_equal_typed _ _ _ l r v Hl Hr E)
    | exact (power_typed l r v E)
    | split; [exact (equal_typed l r v Hl Hr E)|destruct (equal_shape l r v E) as [->|(b & ->)]; exact I]
    | destruct (ordering_shape _ _ _ l r v E) as [[-> ->]|(b & -> & ->)]; split; [reflexivity|exact I| reflexivity|exact I]
    | eapply integral_typed; [|exact Hl|exact Hr|exact E]; intros; cbn beta in *; int_range
    | eapply arithmetic_typed; [|exact Hl|exact Hr|exact E]; intros; cbn beta in *; int_range
    | exact (or_typed l r v Hl Hr E)
    | exact (and_typed l r v Hl Hr E)
    | idtac ].
  unfold ExecuteMathAddition in E; destruct (_ || _).
  - destruct (concatenation_typed _ _ _ _ _ E) as (s & ->); split; [reflexivity|exact I].
  - apply Hbin in E; eapply arithmetic_typed; [|exact Hl|exact Hr|exact E]; intros; cbn beta in *; int_range.
Qed.

(** ** Integer arithmetic *)
Lemma arithmetic_int fd fi l r a b :
  int_reading l = Some a -> int_reading r = Some b ->
  arithmetic fd fi l r = (z <-? fi a b ;; Ok (VInt z)).
Proof.
  intros Ha Hb; unfold arithmetic.
  destruct (int_reading_types l a Ha) as (-> & -> & _), (int_reading_types r b Hb) as (-> & -> & _).
  cbn [negb orb]; rewrite (AsInteger_reading l a Ha), (AsInteger_reading r b Hb); reflexivity.
Qed.

(** C38: The operators on operands that stand for integers: sum, difference and
    product where they fit 64 bits and undefined otherwise; division and
    modulo are the truncating pair, throw on a zero divisor, and are
    undefined only where the quotient does not fit. *)
Theorem integer_arithmetic (l r : ObjectInstance) (a b : Z) (arena : Arena) :
  int_reading l = Some a -> int_reading r = Some b ->
  let fits z := if in_int64 z then Ok (VInt z, arena) else UB in
  ExecuteBinary TokenType.AddOperator l r arena = fits (a + b)
  /\ ExecuteBinary TokenType.SubOperator l r arena = fits (a - b)
  /\ ExecuteBinary TokenType.MultOperator l r arena = fits (a * b)
  /\ (b = 0 ->
      ExecuteBinary TokenType.DivOperator l r arena = Throw "DivideByZeroException"
      /\ ExecuteBinary TokenType.ModOperator l r arena = Throw "DivideByZeroException")
  /\ (b <> 0 -> in_int64 (Z.quot a b) = false ->
      ExecuteBinary TokenType.DivOperator l r arena = UB
      /\ ExecuteBinary TokenType.ModOperator l r arena = UB)
  /\ (b <> 0 -> in_int64 (Z.quot a b) = true ->
      exists q m, ExecuteBinary TokenType.DivOperator l r arena = Ok (VInt q, arena)
        /\ ExecuteBinary TokenType.ModOperator l r arena = Ok (VInt m, arena)
        /\ a = b * q + m /\ Z.abs m < Z.abs b /\ 0 <= m * a).
Proof.
  intros Ha Hb fits.
  destruct (int_reading_types l a Ha) as (_ & _ & Hsl), (int_reading_types r b Hb) as (_ & _ & Hsr).
  cbn [ExecuteBinary]; unfold ExecuteMathAddition, ExecuteMathSubtraction,
    ExecuteMathMultiplication, ExecuteMathDivision, ExecuteMathModulo.
  rewrite Hsl, Hsr; cbn [orb]; rewrite !(arithmetic_int _ _ l r a b Ha Hb).
  unfold fits, int64_result; split; [case_if; reflexivity|].
  split; [case_if; reflexivity|split; [case_if; reflexivity|]].
  split; [intros ->; split; reflexivity|].
  split; intros Hb0 Hq; rewrite (proj2 (Z.eqb_neq b 0) Hb0), Hq; [split; reflexivity|].
  exists (Z.quot a b), (Z.rem a b); split; [reflexivity|split; [reflexivity|]].
  split; [apply Z.quot_rem, Hb0|split; [apply Z.rem_bound_abs, Hb0|]].
  apply Z.rem_sign_mul, Hb0.
Qed.

(** ** Concatenation *)
Definition no_nul (s : wstring) : Prop := Forall (fun c => c <> 0) s.
Definition length_ (s : wstring) : Z := Z.of_nat (List.length s).

(** [buffer'] is [buffer] with [text] written at [at_], up to its end. *)
Definition written (at_ : nat) (text : wstring) (buffer buffer' : Buffer) : Prop :=
  List.length buffer' = List.length buffer
  /\ firstn (at_ + List.length text) buffer' = firstn at_ buffer ++ map Some text.

Lemma store_written (at_ : nat) text buffer :
  (at_ + List.length text <= List.length buffer)%nat ->
  exists buffer', store (Z.of_nat at_) text buffer = Ok buffer' /\ written at_ text buffer buffer'.
Proof.
  intros Hlen; eexists; split.
  - unfold store; rewrite (proj2 (Z.leb_le 0 (Z.of_nat at_))) by lia.
    rewrite (proj2 (Z.leb_le _ _)) by lia; reflexivity.
  - rewrite Nat2Z.id; unfold written; split.
    + rewrite !length_app, length_map, firstn_length_le, length_skipn by lia; lia.
    + rewrite app_assoc; apply take_app_length'.
      rewrite length_app, length_map, firstn_length_le by lia; reflexivity.
Qed.

Lemma written_prefix at_ text rest buffer buffer' :
  (at_ <= List.length buffer)%nat ->
  written at_ (text ++ rest) buffer buffer' -> written at_ text buffer buffer'.
Proof.
  intros Hat [Hlen Hw]; split; [exact Hlen|].
  rewrite length_app, map_app, Nat.add_assoc, app_assoc in Hw.
  apply (f_equal (firstn (at_ + List.length text))) in Hw.
  rewrite take_take, Nat.min_l in Hw by lia; rewrite Hw.
  apply take_app_length'; rewrite length_app, length_map, firstn_length_le by lia; reflexivity.
Qed.

Lemma size_t_id z : 0 <= z < 2 ^ 64 -> size_t z = z.
Proof. intros; apply Z.mod_small; assumption. Qed.

(** A value formats as its text where its text needs no measuring call, and
    everywhere on a host that measures. *)
Definition measurable (v : ObjectInstance) : Prop :=
  well_typed v /\ is_null v = false /\ (formatted v = true -> host_system = Windows)
  /\ length_ (text_of v) < 2 ^ 62.

Lemma FormatString_measure v :
  measurable v -> FormatString v None 0 [] = Ok (length_ (text_of v), []).
Proof.
  intros (Hv & Hn & Hw & Hlen); unfold FormatString, swprintf, copy_text, length_ in *.
  destruct v; try discriminate; cbn in *;
    try (rewrite Hw by reflexivity; cbn; rewrite size_t_id by lia; reflexivity); try reflexivity.
  - destruct type; try contradiction; reflexivity.
Qed.

Lemma FormatString_writes v at_ buffer :
  measurable v -> (at_ + List.length (text_of v) + 1 <= List.length buffer)%nat ->
  exists buffer',
    FormatString v (Some (Z.of_nat at_)) (size_t (length_ (text_of v) + 1)) buffer
      = Ok (length_ (text_of v), buffer')
    /\ written at_ (text_of v) buffer buffer'.
Proof.
  intros (Hv & Hn & _ & Hlen) Hroom; unfold length_ in *.
  rewrite (size_t_id (_ + 1)) by lia.
  assert (Hcopy : exists buffer', store (Z.of_nat at_) (text_of v) buffer = Ok buffer'
            /\ written at_ (text_of v) buffer buffer') by (apply store_written; lia).
  assert (Hprint : exists buffer', store (Z.of_nat at_) (text_of v ++ [0]) buffer = Ok buffer'
            /\ written at_ (text_of v) buffer buffer').
  { destruct (store_written at_ (text_of v ++ [0]) buffer) as (b' & E & Hb');
      [rewrite length_app; cbn; lia|].
    exists b'; split; [exact E|apply (written_prefix at_ _ [0]); [lia|exact Hb']]. }
  unfold FormatString, swprintf, copy_text.
  destruct Hcopy as (bc & Ec & Hc), Hprint as (bp & Ep & Hp).
  destruct v; try discriminate; cbn in *;
    try (rewrite (proj2 (Z.ltb_lt _ (_ + 1))) by lia; rewrite Ep; cbn; rewrite size_t_id by lia; solve [eauto]).
  - match goal with b : bool |- _ => destruct b end; cbn in *; rewrite Ec; cbn; eauto.
  - rewrite Ec; cbn; eauto.
  - rewrite Ec; cbn; eauto.
  - destruct type; try contradiction; cbn;
      (exists buffer; split; [reflexivity|split; [reflexivity|rewrite Nat.add_0_r, app_nil_r; reflexivity]]).
Qed.

Lemma FromString_text s rest :
  no_nul s -> FromString (map Some s ++ Some 0 :: rest) = Ok s.
Proof.
  induction s as [|c s IH]; [reflexivity|]; intros Hs; inversion Hs as [|? ? Hc Hs']; subst.
  cbn; rewrite (proj2 (Z.eqb_neq c 0) Hc), (IH Hs'); reflexivity.
Qed.

(** A terminator after the text ends the string that is read back. *)
Lemma FromString_written at_ s buffer buffer' :
  firstn at_ buffer = map Some s -> at_ = List.length s -> no_nul s ->
  written at_ [0] buffer buffer' -> FromString buffer' = Ok s.
Proof.
  intros Hs -> Hn [_ Hw]; rewrite Hs in Hw; rewrite <- (firstn_skipn (List.length s + 1) buffer').
  cbn [List.length] in Hw; rewrite Hw, <- app_assoc; apply (FromString_text s _ Hn).
Qed.

(** ** The scratch arena *)
Definition arena_ok (a : Arena) : Prop :=
  0 <= Cursor a <= End a /\ (Chunks a = [] -> Cursor a = 0 /\ End a = 0)
  /\ Forall (fun c => 4096 <= c) (Chunks a).

Lemma Acquire_ok count a :
  arena_ok a -> 0 <= count ->
  arena_ok (fst (Acquire count a)) /\ count <= snd (Acquire count a).
Proof.
  intros (Hc & He & Hf) Hcount; unfold Acquire, arena_ok.
  destruct (Z.ltb_spec (End a - Cursor a) count) as [Hlt|Hge]; cbn.
  - set (capacity := if count <? 4096 then 4096 else count).
    assert (Hcap : count <= capacity /\ 4096 <= capacity) by (unfold capacity; case_if; zbool; lia).
    split; [|lia]; split; [lia|split].
    + intros E; destruct (Chunks a); discriminate.
    + apply List.Forall_app; split; [exact Hf|repeat constructor; lia].
  - split; [|lia]; split; [lia|split; [|exact Hf]].
    intros E; destruct (He E); lia.
Qed.

Lemma Reset_ok a : arena_ok a -> arena_ok (Reset a).
Proof.
  intros (Hc & He & Hf); unfold Reset; destruct (Chunks a) as [|front rest] eqn:E.
  - split; [exact Hc|rewrite E; split; [exact He|constructor]].
  - inversion Hf; subst; split; [cbn; lia|split; [discriminate|exact Hf]].
Qed.

Lemma Reset_Chunks a : Chunks (Reset a) = Chunks a.
Proof. unfold Reset; destruct (Chunks a) eqn:E; [exact E|reflexivity]. Qed.

(** Every reservation of the scratch arena lies inside its chunk and keeps
    the arena well formed.  A reservation after a reset reuses the first
    chunk when it is large enough, and otherwise adds a chunk, however many
    chunks of that size the arena already holds. *)
Theorem scratch_arena (a : Arena) (count : Z) :
  arena_ok a -> 0 <= count ->
  let a' := fst (Acquire count (Reset a)) in
  arena_ok a' /\ count <= snd (Acquire count (Reset a))
  /\ forall front rest, Chunks a = front :: rest ->
       Chunks a' = if count <=? front then Chunks a else Chunks a ++ [count].
Proof.
  intros Ha Hc a'; destruct (Acquire_ok count (Reset a) (Reset_ok a Ha) Hc) as [H1 H2].
  split; [exact H1|split; [exact H2|]]; intros front rest E; unfold a', Acquire.
  destruct Ha as (_ & _ & Hf); rewrite E in Hf; inversion Hf as [|? ? Hfront _]; subst.
  unfold Reset; rewrite E; cbn; rewrite Z.sub_0_r.
  destruct (Z.ltb_spec front count) as [Hlt|Hge]; cbn.
  - rewrite (proj2 (Z.leb_gt count front)) by lia.
    rewrite (proj2 (Z.ltb_ge count 4096)) by lia; reflexivity.
  - rewrite (proj2 (Z.leb_le count front)) by lia; reflexivity.
Qed.

(** Concatenation, on a host where the operands can be measured, is the
    concatenation of their texts. *)
Theorem string_concatenation (l r : ObjectInstance) (a : Arena) :
  arena_ok a -> measurable l -> measurable r ->
  is_type (TypeOf l) TypeSymbol.String = true \/ is_type (TypeOf r) TypeSymbol.String = true ->
  no_nul (text_of l) -> no_nul (text_of r) ->
  exists a', ExecuteBinary TokenType.AddOperator l r a = Ok (VString (text_of l ++ text_of r), a')
    /\ arena_ok a'.
Proof.
  intros Ha Hl Hr Hs Nl Nr; cbn [ExecuteBinary]; unfold ExecuteMathAddition.
  rewrite (proj2 (orb_true_iff _ _) Hs); unfold Concatenate.
  rewrite (FormatString_measure l Hl), (FormatString_measure r Hr); cbn [rbind fst].
  assert (Hlens : 0 <= length_ (text_of l) < 2 ^ 62 /\ 0 <= length_ (text_of r) < 2 ^ 62)
    by (destruct Hl as (_ & _ & _ & ?), Hr as (_ & _ & _ & ?); unfold length_ in *; lia).
  rewrite (size_t_id (_ + _ + 1)), (size_t_id (_ + length_ _)) by lia.
  destruct (Acquire_ok (length_ (text_of l) + length_ (text_of r) + 1) (Reset a) (Reset_ok a Ha))
    as [Hok Hregion]; [lia|].
  destruct (Acquire _ (Reset a)) as [a' region]; cbn in Hok, Hregion.
  assert (Hb : (List.length (text_of l) + List.length (text_of r) + 1
                <= List.length (repeat (@None wchar) (Z.to_nat region)))%nat)
    by (rewrite repeat_length; unfold length_ in *; lia).
  destruct (FormatString_writes l 0 (repeat None (Z.to_nat region)) Hl ltac:(lia)) as (b1 & E1 & [L1 W1]).
  change (Z.of_nat 0) with 0 in E1; change (firstn 0 _) with (@nil (option wchar)) in W1.
  rewrite E1; cbn [rbind fst snd].
  destruct (FormatString_writes r (List.length (text_of l)) b1 Hr ltac:(lia)) as (b2 & E2 & [L2 W2]).
  unfold length_ at 1; rewrite E2; cbn [rbind fst snd].
  destruct (store_written (List.length (text_of l ++ text_of r)) [0] b2) as (b3 & E3 & W3);
    [rewrite length_app; cbn; lia|].
  rewrite length_app, Nat2Z.inj_add in E3; unfold length_; rewrite E3; cbn [rbind].
  rewrite (FromString_written (List.length (text_of l ++ text_of r)) (text_of l ++ text_of r) b2 b3);
    [|..|exact W3].
  - exists a'; split; [reflexivity|exact Hok].
  - cbn [Nat.add app] in W1; rewrite length_app, W2, W1, map_app; reflexivity.
  - reflexivity.
  - apply List.Forall_app; split; assumption.
Qed.

Lemma FormatString_unmeasured v :
  host_system = Posix -> formatted v = true ->
  FormatString v None 0 [] = Ok (2 ^ 64 - 1, [])
  /\ forall at_ buffer, FormatString v (Some at_) 0 buffer = Ok (2 ^ 64 - 1, buffer).
Proof.
  intros Hp Hf; unfold FormatString, swprintf; rewrite Hp.
  assert (Hlt : forall s : wstring, (Z.of_nat (List.length s) <? 0) = false)
    by (intros; apply Z.ltb_ge; lia).
  destruct v; try discriminate; cbn; split; try reflexivity; intros; rewrite Hlt; reflexivity.
Qed.

Lemma store_outside at_ s (buffer : Buffer) :
  Z.of_nat (List.length buffer) < at_ + length_ s -> store at_ s buffer = UB.
Proof.
  intros Hout; unfold store, length_ in *.
  rewrite (proj2 (Z.leb_gt (at_ + _) _)) by lia; rewrite andb_false_r; reflexivity.
Qed.

Lemma region_bound a count bound :
  arena_ok a -> Forall (fun c => c < bound) (Chunks a) -> 4096 < bound -> 0 <= count < bound ->
  snd (Acquire count (Reset a)) < bound.
Proof.
  intros (Hc & He & _) Hf Hb Hcount.
  assert (Hr : End (Reset a) - Cursor (Reset a) < bound).
  { unfold Reset; destruct (Chunks a) as [|front rest]; [destruct (He eq_refl); lia|].
    inversion Hf; subst; cbn; lia. }
  unfold Acquire; destruct (End (Reset a) - Cursor (Reset a) <? count); cbn; [|exact Hr].
  destruct (count <? 4096); lia.
Qed.

(** On a host whose [std::swprintf] does not measure, a string with an operand
    that is formatted by it does not give their texts: the string loses its
    last character and the other operand is missing; with the empty string,
    or with the formatted operand on the left, characters are stored outside
    the buffer. *)
Theorem concatenation_unmeasured (s : wstring) (v : ObjectInstance) (a : Arena) :
  host_system = Posix -> formatted v = true ->
  arena_ok a -> Forall (fun c => c < 2 ^ 62) (Chunks a) -> length_ s < 2 ^ 62 -> no_nul s ->
  (s <> [] -> exists a', ExecuteBinary TokenType.AddOperator (VString s) v a
                         = Ok (VString (removelast s), a'))
  /\ (s = [] -> ExecuteBinary TokenType.AddOperator (VString s) v a = UB)
  /\ ExecuteBinary TokenType.AddOperator v (VString s) a = UB.
Proof.
  intros Hp Hf Ha Hsmall Hlen Hs.
  destruct (FormatString_unmeasured v Hp Hf) as [Mv Wv].
  assert (Ms : FormatString (VString s) None 0 [] = Ok (length_ s, [])) by reflexivity.
  assert (H0s : 0 <= length_ s) by (unfold length_; lia).
  destruct (Acquire_ok (length_ s) (Reset a) (Reset_ok a Ha) H0s) as [_ Hregion].
  pose proof (region_bound a (length_ s) (2 ^ 62) Ha Hsmall ltac:(lia) ltac:(lia)) as Hbound.
  cbn [ExecuteBinary]; unfold ExecuteMathAddition, Concatenate.
  replace (is_type (TypeOf v) TypeSymbol.String) with false by (destruct v; try discriminate; reflexivity).
  change (is_type (TypeOf (VString s)) TypeSymbol.String) with true; cbn [orb].
  rewrite Ms, Mv; cbn [rbind fst].
  replace (size_t (2 ^ 64 - 1 + 1)) with 0 by reflexivity.
  replace (size_t (length_ s + (2 ^ 64 - 1) + 1)) with (length_ s)
    by (unfold size_t; rewrite <- (Z.mod_small (length_ s) (2 ^ 64)) at 1 by lia;
        rewrite <- (Z_mod_plus_full _ 1); f_equal; lia).
  replace (size_t (2 ^ 64 - 1 + length_ s + 1)) with (length_ s)
    by (unfold size_t; rewrite <- (Z.mod_small (length_ s) (2 ^ 64)) at 1 by lia;
        rewrite <- (Z_mod_plus_full _ 1); f_equal; lia).
  destruct (Acquire (length_ s) (Reset a)) as [a' region]; cbn in Hregion, Hbound.
  set (buffer := repeat None (Z.to_nat region)).
  assert (Hbuffer : List.length buffer = Z.to_nat region) by apply repeat_length.
  destruct (store_written 0 s buffer) as (b1 & E1 & [L1 W1]); [unfold length_ in *; lia|].
  assert (Fs : FormatString (VString s) (Some 0) (size_t (length_ s + 1)) buffer = Ok (length_ s, b1))
    by (unfold FormatString, copy_text; cbn; change (Z.of_nat 0) with 0 in E1; rewrite E1; reflexivity).
  split; [|split].
  - intros Hne; rewrite Fs; cbn [rbind snd]; rewrite Wv; cbn [rbind snd].
    assert (Hpos : (0 < List.length s)%nat) by (destruct s; [congruence|cbn; lia]).
    replace (size_t (length_ s + (2 ^ 64 - 1))) with (Z.of_nat (pred (List.length s)))
      by (unfold size_t, length_ in *; rewrite <- (Z.mod_small (Z.of_nat _) (2 ^ 64)) by lia;
          rewrite <- (Z_mod_plus_full _ 1); f_equal; lia).
    destruct (store_written (pred (List.length s)) [0] b1) as (b2 & E2 & W2); [cbn; unfold length_ in *; lia|].
    rewrite E2; cbn [rbind].
    rewrite (FromString_written (pred (List.length s)) (removelast s) b1 b2); [eauto|..|exact W2].
    + change (firstn 0 buffer) with (@nil (option wchar)) in W1; cbn [Nat.add app] in W1.
      rewrite removelast_firstn_len, <- firstn_map, <- W1, take_take, Nat.min_l by lia; reflexivity.
    + rewrite removelast_firstn_len, firstn_length_le by lia; reflexivity.
    + rewrite removelast_firstn_len; apply Forall_take, Hs.
  - intros ->; rewrite Fs; cbn [rbind snd]; rewrite Wv; cbn [rbind snd].
    rewrite store_outside; [reflexivity|].
    rewrite L1, Hbuffer; replace (size_t _) with (2 ^ 64 - 1) by reflexivity.
    replace (length_ [0]) with 1 by reflexivity; lia.
  - rewrite Wv; cbn [rbind snd]; unfold FormatString, copy_text; cbn -[store].
    rewrite store_outside; [reflexivity|]; lia.
Qed.

(** ** Comparisons *)
Lemma ordering_int os od oi l r a b :
  int_reading l = Some a -> int_reading r = Some b ->
  ordering os od oi l r = Ok (VBool (oi a b)).
Proof.
  intros Ha Hb; unfold ordering.
  destruct (int_reading_types l a Ha) as (Nl & Dl & Sl), (int_reading_types r b Hb) as (Nr & Dr & _).
  rewrite Sl, Nl, Nr, Dl, Dr, (AsInteger_reading l a Ha), (AsInteger_reading r b Hb).
  destruct l; try discriminate; destruct r; try discriminate; reflexivity.
Qed.

Lemma equal_int l r a b :
  int_reading l = Some a -> int_reading r = Some b -> ExecuteCompareEqual l r = Ok (VBool (a =? b)).
Proof.
  intros Ha Hb; destruct l as [ |[]| | | | | | | | ]; try discriminate;
    destruct r as [ |[]| | | | | | | | ]; try discriminate;
    injection Ha as <-; injection Hb as <-; reflexivity.
Qed.

(** The six comparisons on operands that stand for integers are those of the
    integers, whatever the two types. *)
Theorem integer_comparisons (l r : ObjectInstance) (a b : Z) (arena : Arena) :
  int_reading l = Some a -> int_reading r = Some b ->
  ExecuteBinary TokenType.EqualsOperator l r arena = Ok (VBool (a =? b), arena)
  /\ ExecuteBinary TokenType.NotEqualsOperator l r arena = Ok (VBool (negb (a =? b)), arena)
  /\ ExecuteBinary TokenType.LessOperator l r arena = Ok (VBool (a <? b), arena)
  /\ ExecuteBinary TokenType.LessOrEqualsOperator l r arena = Ok (VBool (a <=? b), arena)
  /\ ExecuteBinary TokenType.GreaterOperator l r arena = Ok (VBool (b <? a), arena)
  /\ ExecuteBinary TokenType.GreaterOrEqualsOperator l r arena = Ok (VBool (b <=? a), arena).
Proof.
  intros Ha Hb; cbn [ExecuteBinary].
  unfold ExecuteCompareNotEqual, ExecuteCompareLessOrEqual, ExecuteCompareGreaterOrEqual, or_equal,
    ExecuteCompareLess, ExecuteCompareGreater.
  rewrite !(equal_int l r a b Ha Hb), !(ordering_int _ _ _ l r a b Ha Hb); cbn.
  repeat split; f_equal; f_equal.
  - destruct (Z.ltb_spec a b), (Z.leb_spec a b); try lia; cbn; [reflexivity| |].
    + replace (a =? b) with true by (symmetry; apply Z.eqb_eq; lia); reflexivity.
    + replace (a =? b) with false by (symmetry; apply Z.eqb_neq; lia); reflexivity.
  - destruct (Z.ltb_spec b a), (Z.leb_spec b a); try lia; cbn; [reflexivity| |].
    + replace (a =? b) with true by (symmetry; apply Z.eqb_eq; lia); reflexivity.
    + replace (a =? b) with false by (symmetry; apply Z.eqb_neq; lia); reflexivity.
Qed.

(** On two values of one enumeration the strict orders are not handled, and
    the non-strict ones answer whether the values are equal, so that a
    smaller value is reported not to be less or equal. *)
Theorem enumerations_unordered (id : nat) (x y : Z) (arena : Arena) :
  let l := VEnum id x in
  let r := VEnum id y in
  ExecuteBinary TokenType.LessOperator l r arena = Ok (null_instance, arena)
  /\ ExecuteBinary TokenType.GreaterOperator l r arena = Ok (null_instance, arena)
  /\ ExecuteBinary TokenType.LessOrEqualsOperator l r arena = Ok (VBool (x =? y), arena)
  /\ ExecuteBinary TokenType.GreaterOrEqualsOperator l r arena = Ok (VBool (x =? y), arena).
Proof. cbn; rewrite Nat.eqb_refl; repeat split. Qed.

(** ** Casts *)

(** The types a primitive cast may target. *)
Definition castable (type : TypeSymbol) : bool :=
  match type with
  | TypeSymbol.Integer | TypeSymbol.Double | TypeSymbol.Boolean | TypeSymbol.Char
  | TypeSymbol.Byte | TypeSymbol.NativeInteger | TypeSymbol.Enum _ => true
  | _ => false
  end.

Lemma to_wchar_idem z : to_wchar (to_wchar z) = to_wchar z.
Proof.
  unfold to_wchar, signed; destruct host_system; [apply Z.mod_mod; lia|].
  assert (Hz : 0 <= z mod 2 ^ 32 < 2 ^ 32) by (apply Z.mod_pos_bound; reflexivity).
  revert Hz; generalize (z mod 2 ^ 32); intros y Hy; change (32 - 1) with 31.
  destruct (Z.ltb_spec y (2 ^ 31)).
  - rewrite Z.mod_small by lia; rewrite (proj2 (Z.ltb_lt _ _)) by lia; reflexivity.
  - replace ((y - 2 ^ 32) mod 2 ^ 32) with y
      by (rewrite <- (Z_mod_plus_full _ 1); symmetry; rewrite Z.mod_small; lia).
    rewrite (proj2 (Z.ltb_ge _ _)) by lia; reflexivity.
Qed.

Lemma AsCharacter_range v c : well_typed v -> AsCharacter v = Ok c -> to_wchar c = c.
Proof.
  intros Hv E; destruct v as [s|b|z|d|x|y|n|s|e i|t a]; cbn in Hv, E; try discriminate;
    repeat (apply rbind_Ok in E as (? & _ & E)); try (injection E as <-).
  all: try apply to_wchar_idem; try assumption; try (unfold to_wchar; destruct host_system; reflexivity).
  - destruct b; unfold to_wchar; destruct host_system; reflexivity.
  - destruct t; try contradiction; injection E as <-; unfold to_wchar; destruct host_system; reflexivity.
Qed.

(** A cast of a by-value instance to a primitive type gives a well-typed
    instance of that type. *)
Theorem casts_typed (type : TypeSymbol) (v v' : ObjectInstance) :
  castable type = true -> well_typed v ->
  (exists t, TypeOf v = Some t /\ TypeSymbol.IsReferenceType t = false) ->
  ExecuteCast (Some type) v = Ok v' -> TypeOf v' = Some type /\ well_typed v'.
Proof.
  intros Hc Hv (t & Ht & Hr) E; unfold ExecuteCast in E.
  assert (Hn : ObjectInstance.IsNullInstance v = false) by (destruct v; [discriminate|reflexivity..]).
  rewrite Hn, Ht in E; cbn [by_reference] in E; rewrite Hr in E.
  destruct type; try discriminate; cbn in E; apply rbind_Ok in E as (z & Ez & E);
    injection E as <-; (split; [reflexivity|]);
    try exact I; try exact (AsInteger_range v z Hv Ez); [exact (AsCharacter_range v z Hv Ez)|].
  apply Z.mod_pos_bound; reflexivity.
Qed.

(** Casting to an integer and back is the identity on booleans, characters,
    bytes, native integers and enumerations. *)
Theorem integer_cast_roundtrip (v : ObjectInstance) (type : TypeSymbol) :
  well_typed v -> TypeOf v = Some type ->
  castable type = true -> type <> TypeSymbol.Double ->
  exists z, ExecuteCast (Some TypeSymbol.Integer) v = Ok (VInt z)
    /\ ExecuteCast (Some type) (VInt z) = Ok v.
Proof.
  intros Hv Ht Hc Hd; destruct v; cbn in Ht; try discriminate; injection Ht as <-;
    try discriminate; try congruence; cbn -[to_wchar Z.modulo Z.pow] in *.
  - destruct b; eauto.
  - eauto.
  - exists c; split; [reflexivity|]; rewrite Hv; reflexivity.
  - exists z; split; [reflexivity|]; rewrite Z.mod_small by lia; reflexivity.
  - eauto.
  - eauto.
  - destruct type0; contradiction || discriminate.
Qed.

(** A byte or a native integer cast to a character is the null character. *)
Theorem byte_cast_to_char (z : Z) :
  ExecuteCast (Some TypeSymbol.Char) (VByte z) = Ok (VChar 0)
  /\ ExecuteCast (Some TypeSymbol.Char) (VNint z) = Ok (VChar 0).
Proof. split; reflexivity. Qed.
End WithHost.

(** ** Witnesses *)
#[local] Instance sample_math : MathLibrary := {| pow := fun x _ => x |}.

Lemma binary_operators_typed_witness :
  let _ : Host := Windows in
  ExecuteBinary TokenType.AddOperator (VChar 65) (VByte 2) empty_arena = Ok (VInt 67, empty_arena)
  /\ TypeOf (VInt 67) = binary_type TokenType.AddOperator (TypeOf (VChar 65)) (TypeOf (VByte 2))
  /\ well_typed (VInt 67).
Proof.
  intros h; split; [reflexivity|].
  apply (binary_operators_typed TokenType.AddOperator (VChar 65) (VByte 2) (VInt 67) empty_arena empty_arena);
    [reflexivity|split; [discriminate|reflexivity]|reflexivity].
Defined.

Lemma integer_arithmetic_witness :
  let _ : Host := Windows in
  ExecuteBinary TokenType.MultOperator (VInt (2 ^ 62)) (VByte 2) empty_arena = UB
  /\ exists q m, ExecuteBinary TokenType.DivOperator (VInt (-7)) (VBool true) empty_arena = Ok (VInt q, empty_arena)
       /\ ExecuteBinary TokenType.ModOperator (VInt (-7)) (VBool true) empty_arena = Ok (VInt m, empty_arena)
       /\ -7 = 1 * q + m /\ Z.abs m < Z.abs 1 /\ 0 <= m * -7.
Proof.
  intros h; split.
  - apply (integer_arithmetic (VInt (2 ^ 62)) (VByte 2) (2 ^ 62) 2 empty_arena); reflexivity.
  - apply (integer_arithmetic (VInt (-7)) (VBool true) (-7) 1 empty_arena); reflexivity || discriminate.
Defined.

Lemma scratch_arena_witness :
  let a := mkArena [4096; 5000] 100 5000 in
  let a' := fst (Acquire 5000 (Reset a)) in
  arena_ok a' /\ 5000 <= snd (Acquire 5000 (Reset a)) /\ Chunks a' = [4096; 5000; 5000].
Proof.
  intros a a'; destruct (scratch_arena a 5000) as (H1 & H2 & H3).
  - split; [split; discriminate|split; [discriminate|]].
    repeat (apply List.Forall_cons; [discriminate|]); apply List.Forall_nil.
  - discriminate.
  - split; [exact H1|split; [exact H2|]]; exact (H3 4096 [5000] eq_refl).
Defined.

Lemma string_concatenation_witness :
  let _ : Host := Windows in
  exists a', ExecuteBinary TokenType.AddOperator (VString (L "n = ")) (VInt (-5)) empty_arena
             = Ok (VString (L "n = -5"), a') /\ arena_ok a'.
Proof.
  intros h; apply (string_concatenation (VString (L "n = ")) (VInt (-5)) empty_arena).
  - split; [split; discriminate|split; [intros _; split; reflexivity|apply List.Forall_nil]].
  - split; [exact I|split; [reflexivity|split; [discriminate|reflexivity]]].
  - split; [reflexivity|split; [reflexivity|split; [reflexivity|reflexivity]]].
  - left; reflexivity.
  - repeat (apply List.Forall_cons; [discriminate|]); apply List.Forall_nil.
  - repeat (apply List.Forall_cons; [discriminate|]); apply List.Forall_nil.
Defined.

Lemma concatenation_unmeasured_witness :
  let _ : Host := Posix in
  (exists a', ExecuteBinary TokenType.AddOperator (VString (L "abc")) (VInt 5) empty_arena
              = Ok (VString (L "ab"), a'))
  /\ ExecuteBinary TokenType.AddOperator (VInt 5) (VString (L "abc")) empty_arena = UB.
Proof.
  intros h; destruct (concatenation_unmeasured (L "abc") (VInt 5) empty_arena) as (H1 & _ & H2).
  - reflexivity.
  - reflexivity.
  - split; [split; discriminate|split; [intros _; split; reflexivity|apply List.Forall_nil]].
  - apply List.Forall_nil.
  - reflexivity.
  - repeat (apply List.Forall_cons; [discriminate|]); apply List.Forall_nil.
  - split; [apply H1; discriminate|exact H2].
Defined.

Lemma casts_typed_witness :
  let _ : Host := Windows in
  ExecuteCast (Some TypeSymbol.Byte) (VInt 300) = Ok (VByte 44)
  /\ TypeOf (VByte 44) = Some TypeSymbol.Byte /\ well_typed (VByte 44).
Proof.
  intros h; split; [reflexivity|]; apply (casts_typed TypeSymbol.Byte (VInt 300) (VByte 44)); try reflexivity.
  eexists; split; reflexivity.
Defined.

Lemma integer_cast_roundtrip_witness :
  let _ : Host := Windows in
  exists z, ExecuteCast (Some TypeSymbol.Integer) (VEnum 3 9) = Ok (VInt z)
    /\ ExecuteCast (Some (TypeSymbol.Enum 3)) (VInt z) = Ok (VEnum 3 9).
Proof.
  intros h; apply (integer_cast_roundtrip (VEnum 3 9) (TypeSymbol.Enum 3)); reflexivity || discriminate.
Defined.
