(* ===== verification/Machine.v ===== *)
(** * The virtual machine: one frame

    [CallStackFrame] (src/runtime/CallStackFrame.cpp) as the values its slots
    hold, and the part of [VirtualMachine] (src/runtime/VirtualMachine.cpp)
    that runs the code of one method: [ProcessCode] for the constants, the
    locals, the operators, the jumps, the exception and the defer operations,
    the dispatch of exceptions and the loop of [InvokeMethodInternal].

    An entry of the evaluation stack is the value it holds.  The counts of
    references and what the collector frees are not part of the state: a run
    here is one in which no value is used after it was freed, and [HeapSpec]
    shows operations that free too early.  An operation that needs the heap or
    another frame ends a step with [Beyond]; [THROW], which fills the stack
    trace of the object, and a second load of a string literal, which gives
    back an object the collector may have freed, are such.  An operator without
    built-in meaning ends a step with [Overload].  Structures and generic slots
    are not modelled. *)
From Stdlib Require Import ZArith Lia Bool List String.
From stdpp Require Import base list.
From S2P Require Import Prelude Tokens ByteCode Values PrimMath.
Import ListNotations.
Open Scope Z_scope.
Open Scope shard_scope.

(** Byte code is laid out for a four-byte [wchar_t]. *)
#[global] Instance posix : Host := Posix.

Module CallStackFrame.
Inductive FrameInterruptionReason := NotInterrupted | EndOfInstructions | ValueReturned | ExceptionRaised.

Definition reason_eqb (a b : FrameInterruptionReason) : bool :=
  match a, b with
  | NotInterrupted, NotInterrupted | EndOfInstructions, EndOfInstructions
  | ValueReturned, ValueReturned | ExceptionRaised, ExceptionRaised => true
  | _, _ => false
  end.

(** A local slot: the shape of its descriptor, and the entry in the arena,
    [None] while its header has not been written. *)
Record LocalSlot := mkSlot {
  Shape : option TypeSymbol;
  Entry : option ObjectInstance
}.

Record ExceptionHandlerFrame := mkHandler {
  HandlerOffset : Z;
  DeferStackBase : nat
}.

(** Stacks are kept with their top first. *)
Record Frame := mkFrame {
  ReturnType : TypeSymbol;
  ReturnSlot : ObjectInstance;
  LocalSlots : list LocalSlot;
  EvalCapacityBytes : Z;
  EvalStack : list ObjectInstance;
  ExceptionHandlers : list ExceptionHandlerFrame;
  DeferStack : list Z;
  DeferDrainDepth : Z;
  InterruptionReason : FrameInterruptionReason;
  CurrentException : ObjectInstance
}.

Definition set_LocalSlots x f := mkFrame (ReturnType f) (ReturnSlot f) x (EvalCapacityBytes f)
  (EvalStack f) (ExceptionHandlers f) (DeferStack f) (DeferDrainDepth f) (InterruptionReason f) (CurrentException f).
Definition set_EvalStack x f := mkFrame (ReturnType f) (ReturnSlot f) (LocalSlots f) (EvalCapacityBytes f)
  x (ExceptionHandlers f) (DeferStack f) (DeferDrainDepth f) (InterruptionReason f) (CurrentException f).
Definition set_ExceptionHandlers x f := mkFrame (ReturnType f) (ReturnSlot f) (LocalSlots f) (EvalCapacityBytes f)
  (EvalStack f) x (DeferStack f) (DeferDrainDepth f) (InterruptionReason f) (CurrentException f).
Definition set_DeferStack x f := mkFrame (ReturnType f) (ReturnSlot f) (LocalSlots f) (EvalCapacityBytes f)
  (EvalStack f) (ExceptionHandlers f) x (DeferDrainDepth f) (InterruptionReason f) (CurrentException f).
Definition set_DeferDrainDepth x f := mkFrame (ReturnType f) (ReturnSlot f) (LocalSlots f) (EvalCapacityBytes f)
  (EvalStack f) (ExceptionHandlers f) (DeferStack f) x (InterruptionReason f) (CurrentException f).
Definition set_InterruptionReason x f := mkFrame (ReturnType f) (ReturnSlot f) (LocalSlots f) (EvalCapacityBytes f)
  (EvalStack f) (ExceptionHandlers f) (DeferStack f) (DeferDrainDepth f) x (CurrentException f).
Definition set_CurrentException x f := mkFrame (ReturnType f) (ReturnSlot f) (LocalSlots f) (EvalCapacityBytes f)
  (EvalStack f) (ExceptionHandlers f) (DeferStack f) (DeferDrainDepth f) (InterruptionReason f) x.

(** [interrupted] *)
Definition interrupted (f : Frame) : bool := negb (reason_eqb (InterruptionReason f) NotInterrupted).

(** ** Slots *)

(** What a slot of a type reads as when its payload is zero. *)
Definition cleared (type : TypeSymbol) : ObjectInstance :=
  match type with
  | TypeSymbol.Boolean => VBool false
  | TypeSymbol.Integer => VInt 0
  | TypeSymbol.Double => VDouble Double.zero
  | TypeSymbol.Char => VChar 0
  | TypeSymbol.Byte => VByte 0
  | TypeSymbol.NativeInteger => VNint 0
  | TypeSymbol.Enum id => VEnum id 0
  | _ => if TypeSymbol.IsReferenceType type then NullRef (Some type) else Other type 0
  end.

(** The layout the emitter publishes for a method. *)
Record FrameLayout := mkLayout {
  MaxEvalDepth : Z;
  EvalSlotPayload : Z;
  IsComplete : bool
}.

Definition Align (value : Z) : Z := Z.land (value + 8 - 1) (Z.lnot (8 - 1)).

(** The evaluation region of [Create]. *)
Definition eval_entries (layout : FrameLayout) : Z :=
  if IsComplete layout then Z.max (MaxEvalDepth layout) 8 else 64.
Definition eval_capacity (layout : FrameLayout) : Z :=
  eval_entries layout * (8 + Align (Z.max 8 (EvalSlotPayload layout))).

(** [Create]: the arena is allocated zeroed. *)
Definition Create (returnType : TypeSymbol) (slots : list (option TypeSymbol)) (layout : FrameLayout)
    : Frame :=
  mkFrame returnType (cleared returnType) (map (fun shape => mkSlot shape None) slots)
    (eval_capacity layout) [] [] [] 0 NotInterrupted null_instance.

(** [GetLocal] *)
Definition GetLocal (slot : Z) (f : Frame) : result ObjectInstance :=
  match nth_error (LocalSlots f) (Z.to_nat slot) with
  | None => Throw "vector::at"
  | Some desc =>
      match Entry desc with
      | None => Throw "EvalStack: TypeShape was null"
      | Some v => Ok v
      end
  end.

(** [SetLocal]: a null value keeps the shape of the slot and clears its
    payload. *)
Definition SetLocal (slot : Z) (value : ObjectInstance) (f : Frame) : result Frame :=
  match nth_error (LocalSlots f) (Z.to_nat slot) with
  | None => Throw "vector::at"
  | Some desc =>
      let newShape := match ObjectInstance.shape_type value with
                      | Some t => Some t
                      | None => Shape desc
                      end in
      let entry :=
        if ObjectInstance.IsNullInstance value then
          match newShape with Some t => Some (cleared t) | None => None end
        else Some value in
      let i := Z.to_nat slot in
      Ok (set_LocalSlots (firstn i (LocalSlots f) ++ mkSlot newShape entry :: skipn (S i) (LocalSlots f)) f)
  end.

(** ** The evaluation stack *)

(** The bytes of an entry: its header, and a payload of eight bytes for a
    reference and for every primitive. *)
Definition EntryStride : Z := 16.
Definition EvalCursorBytes (f : Frame) : Z := EntryStride * Z.of_nat (List.length (EvalStack f)).

(** [PushStack], [PushInline] and [PushReference]: nothing tests the
    capacity, so that a push past the region is undefined. *)
Definition PushStack (value : ObjectInstance) (f : Frame) : result Frame :=
  if EvalCursorBytes f + EntryStride <=? EvalCapacityBytes f
  then Ok (set_EvalStack (value :: EvalStack f) f) else UB.

(** [PopStack] and [PeekStack]: [std::vector::back] of an empty vector is
    undefined. *)
Definition PopStack (f : Frame) : result (ObjectInstance * Frame) :=
  match EvalStack f with
  | value :: rest => Ok (value, set_EvalStack rest f)
  | [] => UB
  end.
Definition PeekStack (f : Frame) : result ObjectInstance :=
  match EvalStack f with value :: _ => Ok value | [] => UB end.

(** [ReturnView] and [PlaceReturned] *)
Definition ReturnView (f : Frame) : result ObjectInstance :=
  if ReturnType f =type TypeSymbol.Void then Throw "PlaceReturned: method returns void"
  else Ok (ReturnSlot f).
Definition PlaceReturned (value : ObjectInstance) (f : Frame) : result Frame :=
  if ReturnType f =type TypeSymbol.Void then Throw "PlaceReturned: method returns void"
  else if reason_eqb (InterruptionReason f) ValueReturned then
    Throw "PlaceReturned: return value already placed"
  else match ObjectInstance.shape_type value with
       | Some t =>
           if negb (t =type ReturnType f) then Throw "PlaceReturned: shapes mismatched"
           else Ok (mkFrame (ReturnType f) value (LocalSlots f) (EvalCapacityBytes f) (EvalStack f)
                      (ExceptionHandlers f) (DeferStack f) (DeferDrainDepth f) ValueReturned
                      (CurrentException f))
       | None => Throw "PlaceReturned: shapes mismatched"
       end.

(** [DiscardValue] reads the type of the value before it releases it. *)
Definition DiscardValue (value : ObjectInstance) : result unit :=
  type <-? ObjectInstance.getInfo value ;; Ok tt.

(** [DrainEvalReferences] pops and releases every entry; [ReleaseValue]
    reads the type of each. *)
Fixpoint release_all (values : list ObjectInstance) : result unit :=
  match values with
  | [] => Ok tt
  | value :: values => type <-? ObjectInstance.getInfo value ;; release_all values
  end.
Definition DrainEvalReferences (f : Frame) : result Frame :=
  u <-? release_all (EvalStack f) ;; Ok (set_EvalStack [] f).
End CallStackFrame.

Module VirtualMachine.
Import CallStackFrame ByteCodeDecoder.

(** [internedStrings] of the collector: the literals loaded so far, by their
    address in the data section. *)
Record State := mkState {
  frame : Frame;
  stringScratch : PrimitiveMath.Arena;
  AbortFlag : bool;
  internedStrings : list Z
}.
Definition on_frame (f : Frame) (s : State) : State := mkState f (stringScratch s) (AbortFlag s) (internedStrings s).
Definition interning (t : list Z) (s : State) : State := mkState (frame s) (stringScratch s) (AbortFlag s) t.

(** The end of [ProcessCode]: it goes on with a state and a decoder, or it
    needs an operator overload or an operation that is not modelled. *)
Inductive Step :=
| Next (s : State) (d : Decoder)
| Overload (opToken : TokenType) (left : ObjectInstance) (right : option ObjectInstance)
    (s : State) (d : Decoder)
| Beyond (op : OpCode.t).

Section WithProgram.
Context `{MathLibrary}.
(** The type symbols the operands of the code point to, and the data section
    of the program. *)
Variable type_at : Z -> option TypeSymbol.
Variable DataSection : bytes.

Definition push (value : ObjectInstance) (s : State) (d : Decoder) : result Step :=
  f <-? PushStack value (frame s) ;; Ok (Next (on_frame f s) d).

(** The types whose value the division guard reads as an integer. *)
Definition guarded (type : TypeSymbol) : bool :=
  (type =type TypeSymbol.Integer) || (type =type TypeSymbol.Char) || (type =type TypeSymbol.Byte)
  || (type =type TypeSymbol.NativeInteger) || TypeSymbol.is_enum type.

(** [executeBinary] *)
Definition executeBinary (token : TokenType) (s : State) (d : Decoder) : result Step :=
  popped <-? PopStack (frame s) ;;
  let (right, f) := popped : ObjectInstance * Frame in
  popped <-? PopStack f ;;
  let (left, f) := popped : ObjectInstance * Frame in
  let s := on_frame f s in
  if ObjectInstance.IsNullInstance right || ObjectInstance.IsNullInstance left then
    push (VBool false) s d
  else
  ok <-? (if (token =tt TokenType.DivOperator) || (token =tt TokenType.ModOperator) then
            rightType <-? ObjectInstance.getInfo right ;;
            if guarded rightType then
              z <-? ObjectInstance.AsInteger right ;;
              if z =? 0 then Throw "DivideByZeroException" else Ok tt
            else Ok tt
          else Ok tt) ;;
  r <-? PrimitiveMath.ExecuteBinary token left right (stringScratch s) ;;
  let (result, arena) := r : ObjectInstance * PrimitiveMath.Arena in
  let s := mkState (frame s) arena (AbortFlag s) (internedStrings s) in
  if ObjectInstance.IsNullInstance result then Ok (Overload token left (Some right) s d)
  else push result s d.

(** [executeUnary] *)
Definition executeUnary (token : TokenType) (s : State) (d : Decoder) : result Step :=
  popped <-? PopStack (frame s) ;;
  let (operand, f) := popped : ObjectInstance * Frame in
  let s := on_frame f s in
  if ObjectInstance.IsNullInstance operand then Throw "Cannot perform operation on null instance"
  else
  result <-? PrimitiveMath.ExecuteUnary token operand ;;
  if ObjectInstance.IsNullInstance result then Ok (Overload token operand None s d)
  else push result s d.

(** The conditional jumps: the operand is absorbed before the value is
    popped. *)
Definition conditional_jump (on : bool) (s : State) (d : Decoder) : result Step :=
  let (jump, d) := AbsorbJump d in
  popped <-? PopStack (frame s) ;;
  let (value, f) := popped : ObjectInstance * Frame in
  asBool <-? ObjectInstance.AsBoolean value ;;
  if Bool.eqb asBool on then d <-? SetCursor (signed 64 jump) d ;; Ok (Next (on_frame f s) d)
  else Ok (Next (on_frame f s) d).

(** [BR_NULL] *)
Definition branch_null (s : State) (d : Decoder) : result Step :=
  let (jump, d) := AbsorbJump d in
  popped <-? PopStack (frame s) ;;
  let (value, f) := popped : ObjectInstance * Frame in
  type <-? ObjectInstance.getInfo value ;;
  if negb (TypeSymbol.IsReferenceType type) then Ok (Next (on_frame f s) d)
  else if ObjectInstance.IsNullInstance value then
    d <-? SetCursor (signed 64 jump) d ;; Ok (Next (on_frame f s) d)
  else Ok (Next (on_frame f s) d).

(** [JUMP_TABLE]: the cursor stays before the targets. *)
Definition jump_table (s : State) (d : Decoder) : result Step :=
  let (count, d) := AbsorbUInt32 d in
  let base := GetCursor d in
  popped <-? PopStack (frame s) ;;
  let (value, f) := popped : ObjectInstance * Frame in
  index <-? ObjectInstance.AsInteger value ;;
  if (index <? 0) || (count <=? index) then
    d <-? SetCursor (signed 64 (size_t (base + count * 8))) d ;; Ok (Next (on_frame f s) d)
  else
    target <-? PeekJumpAt (size_t (base + index * 8)) d ;;
    d <-? SetCursor (signed 64 target) d ;; Ok (Next (on_frame f s) d).

(** [InternString]: the first load of a literal makes an object and records it, a
    later one recovers the recorded object, dead or alive. *)
Definition InternString (data : Z) (s : State) (d : Decoder) : result Step :=
  match pool_string DataSection data with
  | Some str =>
      if existsb (Z.eqb data) (internedStrings s) then Ok (Beyond OpCode.LOADCONST_STRING)
      else push (VString str) (interning (data :: internedStrings s) s) d
  | None => UB
  end.

(** The cases of [ProcessCode] for constants, locals and the stack. *)
Definition process_data (op : OpCode.t) (s : State) (d : Decoder) : option (result Step) :=
  match op with
  | OpCode.NOP => Some (Ok (Next s d))
  | OpCode.HALT => Some (Ok (Next (mkState (frame s) (stringScratch s) true (internedStrings s)) d))
  | OpCode.POP => Some (
      popped <-? PopStack (frame s) ;;
      let (value, f) := popped : ObjectInstance * Frame in
      u <-? DiscardValue value ;; Ok (Next (on_frame f s) d))
  | OpCode.LOADCONST_NULL => Some (push null_instance s d)
  | OpCode.LOADCONST_BOOLEAN => Some (let (v, d) := AbsorbBoolean d in push (VBool v) s d)
  | OpCode.LOADCONST_INTEGER8 => Some (let (v, d) := AbsorbUInt8 d in push (VByte v) s d)
  | OpCode.LOADCONST_INTEGER64 => Some (let (v, d) := AbsorbInt64 d in push (VInt v) s d)
  | OpCode.LOADCONST_NATIVE_INTEGER => Some (let (v, d) := AbsorbIntPtr d in push (VNint v) s d)
  | OpCode.LOADCONST_RATIONAL64 => Some (
      let (v, d) := AbsorbDouble64 d in push (VDouble (Double.of_bits v)) s d)
  | OpCode.LOADCONST_CHAR => Some (let (v, d) := AbsorbChar16 d in push (VChar v) s d)
  | OpCode.LOADCONST_STRING => Some (
      let (data, d) := AbsorbString d in InternString data s d)
  | OpCode.LOAD_LOCAL | OpCode.LOAD_ARG => Some (
      let (slot, d) := AbsorbVariableSlot d in
      v <-? GetLocal slot (frame s) ;; push v s d)
  | OpCode.STORE_LOCAL | OpCode.STORE_ARG => Some (
      let (slot, d) := AbsorbVariableSlot d in
      popped <-? PopStack (frame s) ;;
      let (value, f) := popped : ObjectInstance * Frame in
      f <-? SetLocal slot value f ;; Ok (Next (on_frame f s) d))
  | OpCode.DUP => Some (v <-? PeekStack (frame s) ;; push v s d)
  | OpCode.CASTPRIMITIVE => Some (
      let (pointer, d) := AbsorbTypeSymbol d in
      popped <-? PopStack (frame s) ;;
      let (value, f) := popped : ObjectInstance * Frame in
      if ObjectInstance.IsNullInstance value then Throw "Cannot cast null to a primitive type"
      else
      result <-? PrimitiveMath.ExecuteCast (type_at pointer) value ;;
      if ObjectInstance.IsNullInstance result then Throw "Unsupported primitive cast"
      else push result (on_frame f s) d)
  | _ => None
  end.

(** The token of an operator operation: [true] for a unary one. *)
Definition operator_token (op : OpCode.t) : option (TokenType * bool) :=
  match op with
  | OpCode.MATH_ADDITION => Some (TokenType.AddOperator, false)
  | OpCode.MATH_SUBTRACT => Some (TokenType.SubOperator, false)
  | OpCode.MATH_MULTIPLY => Some (TokenType.MultOperator, false)
  | OpCode.MATH_DIVISION => Some (TokenType.DivOperator, false)
  | OpCode.MATH_MODULO => Some (TokenType.ModOperator, false)
  | OpCode.MATH_POWER => Some (TokenType.PowOperator, false)
  | OpCode.MATH_NEGATIVE => Some (TokenType.SubOperator, true)
  | OpCode.MATH_SHL => Some (TokenType.LeftShiftOperator, false)
  | OpCode.MATH_SHR => Some (TokenType.RightShiftOperator, false)
  | OpCode.COMPARE_EQUAL => Some (TokenType.EqualsOperator, false)
  | OpCode.COMPARE_NOTEQUAL => Some (TokenType.NotEqualsOperator, false)
  | OpCode.COMPARE_LESS => Some (TokenType.LessOperator, false)
  | OpCode.COMPARE_LESS_OR_EQUAL => Some (TokenType.LessOrEqualsOperator, false)
  | OpCode.COMPARE_GREATER => Some (TokenType.GreaterOperator, false)
  | OpCode.COMPARE_GREATER_OR_EQUAL => Some (TokenType.GreaterOrEqualsOperator, false)
  | OpCode.LOGICAL_NOT => Some (TokenType.NotOperator, true)
  | OpCode.LOGICAL_OR => Some (TokenType.OrOperator, false)
  | OpCode.LOGICAL_AND => Some (TokenType.AndOperator, false)
  | _ => None
  end.

(** The cases for control: jumps, return, exceptions, defers.  [THROW] is not translated
    but ends the step with [Beyond]. *)
Definition process_control (op : OpCode.t) (s : State) (d : Decoder) : option (result Step) :=
  let f := frame s in
  match op with
  | OpCode.JUMP => Some (
      let (jump, d) := AbsorbJump d in
      d <-? SetCursor (signed 64 jump) d ;; Ok (Next s d))
  | OpCode.JUMP_TRUE => Some (conditional_jump true s d)
  | OpCode.JUMP_FALSE => Some (conditional_jump false s d)
  | OpCode.BR_NULL => Some (branch_null s d)
  | OpCode.JUMP_TABLE => Some (jump_table s d)
  | OpCode.RETURN => Some (
      f <-? (if negb (ReturnType f =type TypeSymbol.Void) then
               retReg <-? ReturnView f ;; PlaceReturned retReg f
             else Ok f) ;;
      Ok (Next (on_frame f s) (Return d)))
  | OpCode.THROW => Some (Ok (Beyond OpCode.THROW))
  | OpCode.RETHROW => Some (
      if ObjectInstance.IsNullInstance (CurrentException f) then
        Throw "Cannot rethrow outside of catch block"
      else Ok (Next (on_frame (set_InterruptionReason ExceptionRaised f) s) d))
  | OpCode.ENTER_TRY => Some (
      let (handlerOffset, d) := AbsorbJump d in
      Ok (Next (on_frame (set_ExceptionHandlers
        (mkHandler handlerOffset (List.length (DeferStack f)) :: ExceptionHandlers f) f) s) d))
  | OpCode.LEAVE_TRY => Some (
      Ok (Next (on_frame (set_ExceptionHandlers (tl (ExceptionHandlers f)) f) s) d))
  | OpCode.END_CATCH => Some (
      Ok (Next (on_frame (if ObjectInstance.IsNullInstance (CurrentException f) then f
                          else set_CurrentException null_instance f) s) d))
  | OpCode.LOAD_CURRENT_EXCEPTION => Some (push (CurrentException f) s d)
  | OpCode.STORE_CURRENT_EXCEPTION => Some (
      popped <-? PopStack f ;;
      let (exception, f) := popped : ObjectInstance * Frame in
      Ok (Next (on_frame (set_CurrentException exception f) s) d))
  | OpCode.DEFER => Some (
      let (target, d) := AbsorbJump d in
      Ok (Next (on_frame (set_DeferStack (target :: DeferStack f) f) s) d))
  | OpCode.DEFER_BREAK => Some (
      if DeferDrainDepth f =? 0 then
        Throw "DEFER_BREAK reached outside of a deferred expression drain"
      else Ok (Next s d))
  | _ => None
  end.

(** ** Deferred expressions

    [process] is [ProcessCode]. *)
Section Defers.
Variable process : OpCode.t -> State -> Decoder -> fueled Step.

(** [ExecuteDeferExpression] after its first [SetCursor]. *)
Fixpoint defer_loop (n : nat) (savedIP : Z) (s : State) (d : Decoder) : fueled Step :=
  match n with
  | O => None
  | S n =>
      if IsEOF d then Some (Throw "Deferred expression ran past end of bytecode") else
      let (raw, d) := AbsorbOpCode d in
      match OpCode.of_value raw with
      | None => Some (Throw "CRITICAL SHIT! UNKNOWN OPCODE")
      | Some op =>
          r <-! process op s d ;;
          match r with
          | Next s d =>
              if interrupted (frame s) then done (Next s d)
              else match op with
                   | OpCode.DEFER_BREAK =>
                       Some (d <-? SetCursor (signed 64 savedIP) d ;; Ok (Next s d))
                   | _ => defer_loop n savedIP s d
                   end
          | r => done r
          end
      end
  end.

Definition ExecuteDeferExpression (n : nat) (target : Z) (s : State) (d : Decoder) : fueled Step :=
  let savedIP := Index d in
  match SetCursor (signed 64 target) d with
  | Ok d => defer_loop n savedIP s d
  | Throw m => Some (Throw m)
  | UB => Some UB
  end.

Definition set_depth (depth : Z) (s : State) : State :=
  on_frame (set_DeferDrainDepth depth (frame s)) s.

(** The loop of [DEFER_DRAIN]: [savedIP] is the cursor to go back to. *)
Fixpoint drain_loop (n : nat) (i count savedIP : Z) (s : State) (d : Decoder) : fueled Step :=
  match n with
  | O => None
  | S n =>
      if count <=? i then
        Some (d <-? SetCursor (signed 64 savedIP) d ;;
              Ok (Next (set_depth (size_t (DeferDrainDepth (frame s) - 1)) s) d))
      else match DeferStack (frame s) with
           | [] => Some (Throw "DEFER_DRAIN: not enough registered defers")
           | target :: rest =>
               r <-! ExecuteDeferExpression n target (on_frame (set_DeferStack rest (frame s)) s) d ;;
               match r with
               | Next s d =>
                   if interrupted (frame s) then done (Next s d)
                   else drain_loop n (i + 1) count savedIP s d
               | r => done r
               end
           end
  end.

(** [DrainDefersTo]: [false] is its early return. *)
Fixpoint DrainDefersTo (n : nat) (targetSize : nat) (s : State) (d : Decoder)
    : fueled (bool * Step) :=
  match n with
  | O => None
  | S n =>
      if (List.length (DeferStack (frame s)) <=? targetSize)%nat then done (true, Next s d)
      else match DeferStack (frame s) with
           | [] => done (true, Next s d)
           | target :: rest =>
               let s := on_frame (set_DeferStack rest (frame s)) s in
               let s := set_depth (size_t (DeferDrainDepth (frame s) + 1)) s in
               r <-! ExecuteDeferExpression n target s d ;;
               match r with
               | Next s d =>
                   let s := set_depth (size_t (DeferDrainDepth (frame s) - 1)) s in
                   if interrupted (frame s) then done (false, Next s d)
                   else DrainDefersTo n targetSize s d
               | r => done (true, r)
               end
           end
  end.
End Defers.

(** [ProcessCode]; [fuel] bounds the nesting of deferred expressions and the
    operations each of them runs. *)
Fixpoint ProcessCode (fuel : nat) (op : OpCode.t) (s : State) (d : Decoder) : fueled Step :=
  match process_data op s d, operator_token op, process_control op s d with
  | Some r, _, _ => Some r
  | None, Some (token, unary), _ =>
      Some (if unary : bool then executeUnary token s d else executeBinary token s d)
  | None, None, Some r => Some r
  | None, None, None =>
      match op with
      | OpCode.DEFER_DRAIN =>
          match fuel with
          | O => None
          | S fuel =>
              let (count, d) := AbsorbJump d in
              let savedIP := Index d in
              drain_loop (ProcessCode fuel) fuel 0 count savedIP
                (set_depth (size_t (DeferDrainDepth (frame s) + 1)) s) d
          end
      | _ => done (Beyond op)
      end
  end.

(** ** Exceptions *)

(** [HandleExceptionInFrame] *)
Definition HandleExceptionInFrame (fuel : nat) (s : State) (d : Decoder) : fueled (bool * Step) :=
  let f := frame s in
  let exception := CurrentException f in
  if ObjectInstance.IsNullInstance exception then
    Some (Throw "Exception was raised without an exception object")
  else
  f <-! Some (DrainEvalReferences f) ;;
  let f := set_CurrentException null_instance (set_InterruptionReason NotInterrupted f) in
  match ExceptionHandlers f with
  | handler :: handlers =>
      let s := on_frame (set_ExceptionHandlers handlers f) s in
      drained <-! DrainDefersTo (ProcessCode fuel) fuel (DeferStackBase handler) s d ;;
      match drained with
      | (true, Next s d) =>
          Some (d <-? SetCursor (signed 64 (HandlerOffset handler)) d ;;
                f <-? PushStack exception (frame s) ;;
                Ok (true, Next (on_frame (set_CurrentException exception
                                            (set_InterruptionReason NotInterrupted f)) s) d))
      | (_, r) => done (true, r)
      end
  | [] =>
      drained <-! DrainDefersTo (ProcessCode fuel) fuel 0 (on_frame f s) d ;;
      match drained with
      | (true, Next s d) =>
          done (false, Next (on_frame (set_CurrentException exception
                                        (set_InterruptionReason ExceptionRaised (frame s))) s) d)
      | (_, r) => done (true, r)
      end
  end.

(** ** Running a method *)

(** How the loop of [InvokeMethodInternal] ends. *)
Inductive Outcome :=
| Finished (s : State)
| Stopped (r : Step).

(** The loop. *)
Fixpoint run_body (fuel : nat) (s : State) (d : Decoder) : fueled Outcome :=
  match fuel with
  | O => None
  | S fuel =>
      if AbortFlag s then Some (Throw "Execution aborted by host.")
      else if reason_eqb (InterruptionReason (frame s)) ExceptionRaised then
        r <-! HandleExceptionInFrame fuel s d ;;
        match r with
        | (false, Next s _) => done (Finished s)
        | (true, Next s d) => run_body fuel s d
        | (_, r) => done (Stopped r)
        end
      else if IsEOF d then
        done (Finished (if reason_eqb (InterruptionReason (frame s)) ValueReturned then s
                        else on_frame (set_InterruptionReason EndOfInstructions (frame s)) s))
      else
        let (raw, d) := AbsorbOpCode d in
        match OpCode.of_value raw with
        | None => Some (Throw "CRITICAL SHIT! UNKNOWN OPCODE")
        | Some op =>
            r <-! ProcessCode fuel op s d ;;
            match r with
            | Next s d => run_body fuel s d
            | r => done (Stopped r)
            end
        end
  end.

(** [InvokeMethodInternal] for a method with a body.  The loop is followed by
    an assignment of [EndOfInstructions], so that the dispatch on the reason
    of the interruption always finds that; then the frame is drained. *)
Definition InvokeBody (fuel : nat) (code : bytes) (s : State) : fueled Outcome :=
  if AbortFlag s then Some (Throw "Execution aborted by host.")
  else
  r <-! run_body fuel s (mkDecoder code 0) ;;
  match r with
  | Finished s =>
      let f := set_InterruptionReason EndOfInstructions (frame s) in
      Some (f <-? DrainEvalReferences f ;; Ok (Finished (on_frame f s)))
  | Stopped r => done (Stopped r)
  end.

(** [InvokeMethod] after its arguments are stored: what the caller receives. *)
Definition InvokeMethod (fuel : nat) (code : bytes) (s : State) : fueled (option ObjectInstance * Outcome) :=
  r <-! InvokeBody fuel code s ;;
  match r with
  | Finished s =>
      if negb (ReturnType (frame s) =type TypeSymbol.Void) then
        Some (v <-? ReturnView (frame s) ;; Ok (Some v, Finished s))
      else done (None, Finished s)
  | r => done (None, r)
  end.
End WithProgram.
End VirtualMachine.
