(* ===== verification/Emit.v ===== *)
(** * Code generation for expressions and loops

    The part of [AbstractEmiter] (src/compilation/AbstractEmiter.cpp) that
    emits literals, variables, the operators, the conditional expression and
    the assignments, and the statements built on them: variable
    declarations, blocks, loops and returns.  With the byte code the emitter
    tracks the depth of the evaluation stack, from which the frames of the
    method are sized.  Bound expressions are the data here: what a name was
    bound to is part of the tree.  Operator overloads, calls, members, defers
    and the remaining statements are not modelled. *)
From Stdlib Require Import ZArith Lia Bool List String.
From stdpp Require Import base list.
From S2P Require Import Prelude Tokens ByteCode Values Machine.
Import ListNotations.
Open Scope Z_scope.
Open Scope shard_scope.

Module Emiter.
Import ByteCodeEncoder.

(** ** The tracker of the evaluation stack *)
Record EvalLayoutTracker := mkTracker {
  CurrentDepth : Z;
  MaxDepth : Z;
  MaxPayload : Z;
  Poisoned : bool
}.
Definition empty_tracker : EvalLayoutTracker := mkTracker 0 0 0 false.

(** [EvalPush] and [EvalPop] *)
Definition track_push (payload : Z) (t : EvalLayoutTracker) : EvalLayoutTracker :=
  let depth := CurrentDepth t + 1 in
  mkTracker depth (if MaxDepth t <? depth then depth else MaxDepth t)
    (if MaxPayload t <? payload then payload else MaxPayload t) (Poisoned t).
Definition track_pop (count : Z) (t : EvalLayoutTracker) : EvalLayoutTracker :=
  if CurrentDepth t <? count then mkTracker 0 (MaxDepth t) (MaxPayload t) true
  else mkTracker (CurrentDepth t - count) (MaxDepth t) (MaxPayload t) (Poisoned t).

(** [PublishLayout]: a poisoned tracker leaves the layout as it is. *)
Definition PublishLayout (layout : CallStackFrame.FrameLayout) (t : EvalLayoutTracker)
    : CallStackFrame.FrameLayout :=
  if Poisoned t then layout
  else CallStackFrame.mkLayout (MaxDepth t)
         (if 0 <? MaxDepth t then (if 1 <? MaxPayload t then MaxPayload t else 1) else 0) true.

(** ** The emitter *)
Record LoopScope := mkLoop {
  BlockEndBacktracks : list Z;
  LoopEndBacktracks : list Z
}.

Record Emitter := mkEmitter {
  ExecutableByteCode : bytes;
  DataSection : bytes;
  EvalTracker : EvalLayoutTracker;
  Loops : list LoopScope
}.

Definition EmitM := Emitter -> result Emitter.
Definition then_ (m k : EmitM) : EmitM := fun e => e <-? m e ;; k e.
Notation "m >> k" := (then_ m k) (at level 50, left associativity).

Definition nothing : EmitM := fun e => Ok e.
Definition emit (f : bytes -> bytes) : EmitM := fun e =>
  Ok (mkEmitter (f (ExecutableByteCode e)) (DataSection e) (EvalTracker e) (Loops e)).
Definition track (f : EvalLayoutTracker -> EvalLayoutTracker) : EmitM := fun e =>
  Ok (mkEmitter (ExecutableByteCode e) (DataSection e) (f (EvalTracker e)) (Loops e)).
Definition EvalPush (payload : Z) : EmitM := track (track_push payload).
Definition EvalPop (count : Z) : EmitM := track (track_pop count).
Definition with_loops (f : list LoopScope -> list LoopScope) : EmitM := fun e =>
  Ok (mkEmitter (ExecutableByteCode e) (DataSection e) (EvalTracker e) (f (Loops e))).

(** [GeneratingFor->ExecutableByteCode.size()] *)
Definition here (k : Z -> EmitM) : EmitM := fun e => k (size (ExecutableByteCode e)) e.

(** [PasteData(code, backtrack + sizeof(OpCode), &target, sizeof(std::size_t))] *)
Definition patch (backtrack target : Z) : EmitM := fun e =>
  code <-? PasteData (ExecutableByteCode e) (backtrack + 2) (le 8 target) ;;
  Ok (mkEmitter code (DataSection e) (EvalTracker e) (Loops e)).
Fixpoint patch_all (backtracks : list Z) (target : Z) : EmitM :=
  match backtracks with
  | [] => nothing
  | backtrack :: rest => patch backtrack target >> patch_all rest target
  end.

(** ** Bound expressions and statements *)
Inductive Expression :=
| NullLiteral
| CharLiteral (word : wstring)
| StringLiteral (word : wstring)
| NumberLiteral (value : Z) (BoundType : option TypeSymbol)
| DoubleLiteral (bits : Z)
| BooleanLiteral (value : bool)
| Variable_ (SlotIndex : Z)
| Unary (OperatorToken : TokenType) (IsRightDetermined : bool) (operand : Expression)
| Binary (OperatorToken : TokenType) (Left Right : Expression)
| Ternary (Condition Left Right : Expression).

#[warnings="-register-all"]
Inductive Statement :=
| ExpressionStatement (expression : Expression)
| VariableStatement (SlotIndex : Z) (expression : Expression)
| BlockStatement (statements : list Statement)
| WhileStatement (condition : Expression) (body : list Statement)
| UntilStatement (condition : Expression) (body : list Statement)
| ForStatement (initializer : Statement) (condition : Expression) (afterRepeat : Statement)
    (body : list Statement)
| BreakStatement
| ContinueStatement
| ReturnStatement (expression : option Expression).

(** [IsAssignExpression] *)
Definition IsAssignExpression (type : TokenType) : bool :=
  match type with
  | TokenType.AddAssignOperator | TokenType.SubAssignOperator | TokenType.MultAssignOperator
  | TokenType.DivAssignOperator | TokenType.ModAssignOperator | TokenType.PowAssignOperator
  | TokenType.AndAssignOperator | TokenType.OrAssignOperator | TokenType.AssignOperator
  | TokenType.IncrementOperator | TokenType.DecrementOperator => true
  | _ => false
  end.

(** [IsLogicalComparisonToken] *)
Definition IsLogicalComparisonToken (type : TokenType) : bool :=
  match type with
  | TokenType.EqualsOperator | TokenType.NotEqualsOperator | TokenType.GreaterOperator
  | TokenType.GreaterOrEqualsOperator | TokenType.LessOperator | TokenType.LessOrEqualsOperator
  | TokenType.OrOperator | TokenType.AndOperator => true
  | _ => false
  end.

Section WithMethod.
(** The address of a type symbol, the size of a structure, and the types of
    the slots of the method. *)
Variable type_address : TypeSymbol -> Z.
Variable struct_size : nat -> Z.
Variable slots : list (option TypeSymbol).

(** [TypeSymbol::GetInlineSize] *)
Definition GetInlineSize (type : TypeSymbol) : Z :=
  if TypeSymbol.IsReferenceType type then 8 else
  match type with
  | TypeSymbol.NativeInteger | TypeSymbol.Integer | TypeSymbol.Double | TypeSymbol.Enum _ => 8
  | TypeSymbol.Char => 4
  | TypeSymbol.Boolean | TypeSymbol.Byte => 1
  | TypeSymbol.Struct id => struct_size id
  | _ => 0
  end.

(** [FrameLayout::ResolveTypePayload] *)
Definition ResolveTypePayload (type : option TypeSymbol) : Z :=
  match type with
  | None => 8
  | Some t => if TypeSymbol.IsReferenceType t then 8 else GetInlineSize t
  end.
Definition PrimitivePayload (type : TypeSymbol) : Z := ResolveTypePayload (Some type).

(** [FrameLayout::SlotPayload] *)
Definition SlotPayload (slot : Z) : Z :=
  match nth_error slots (Z.to_nat slot) with
  | Some type => ResolveTypePayload type
  | None => 8
  end.

(** ** Operators *)
Definition push_integer : EmitM := EvalPush (PrimitivePayload TypeSymbol.Integer).
Definition push_boolean : EmitM := EvalPush (PrimitivePayload TypeSymbol.Boolean).

(** The increment and decrement of [EmitUnaryOperation]. *)
Definition emit_step (operation : bytes -> bytes) (isRightDetermined : bool) : EmitM :=
  if isRightDetermined then
    emit (fun code => EmitLoadConstInt64 code 1) >> push_integer
    >> emit operation >> EvalPop 2 >> push_integer
    >> emit EmitDuplicate >> push_integer
  else
    emit EmitDuplicate >> push_integer
    >> emit (fun code => EmitLoadConstInt64 code 1) >> push_integer
    >> emit operation >> EvalPop 2 >> push_integer.

(** [EmitUnaryOperation] *)
Definition EmitUnaryOperation (type : TokenType) (isRightDetermined : bool) : EmitM :=
  match type with
  | TokenType.SubOperator => emit EmitMathNegative >> EvalPop 1 >> push_integer
  | TokenType.AddOperator => nothing
  | TokenType.NotOperator => emit EmitLogicalNot >> EvalPop 1 >> push_boolean
  | TokenType.IncrementOperator => emit_step EmitMathAdd isRightDetermined
  | TokenType.DecrementOperator => emit_step EmitMathSub isRightDetermined
  | _ => fun _ => Throw "unknown operator"
  end.

(** The operation of a binary operator: [None] throws. *)
Definition binary_operation (type : TokenType) : option (bytes -> bytes) :=
  match type with
  | TokenType.AssignOperator => Some (fun code => code)
  | TokenType.AddOperator | TokenType.AddAssignOperator => Some EmitMathAdd
  | TokenType.SubOperator | TokenType.SubAssignOperator => Some EmitMathSub
  | TokenType.MultOperator | TokenType.MultAssignOperator => Some EmitMathMult
  | TokenType.DivOperator | TokenType.DivAssignOperator => Some EmitMathDiv
  | TokenType.ModOperator | TokenType.ModAssignOperator => Some EmitMathMod
  | TokenType.PowOperator | TokenType.PowAssignOperator => Some EmitMathPow
  | TokenType.EqualsOperator => Some EmitCompareEqual
  | TokenType.NotEqualsOperator => Some EmitCompareNotEqual
  | TokenType.GreaterOperator => Some EmitCompareGreater
  | TokenType.GreaterOrEqualsOperator => Some EmitCompareGreaterOrEqual
  | TokenType.LessOperator => Some EmitCompareLess
  | TokenType.LessOrEqualsOperator => Some EmitCompareLessOrEqual
  | TokenType.OrOperator | TokenType.OrAssignOperator => Some EmitLogicalOr
  | TokenType.AndOperator | TokenType.AndAssignOperator => Some EmitLogicalAnd
  | TokenType.NotOperator => Some EmitLogicalNot
  | TokenType.LeftShiftOperator => Some EmitMathShl
  | TokenType.RightShiftOperator => Some EmitMathShr
  | _ => None
  end.

(** [EmitBinaryOperation] *)
Definition EmitBinaryOperation (type : TokenType) : EmitM :=
  match binary_operation type with
  | None => fun _ => Throw "unknown operator"
  | Some operation =>
      emit operation >>
      (if negb (type =tt TokenType.AssignOperator) then
         if type =tt TokenType.NotOperator then EvalPop 1 >> push_boolean
         else EvalPop 2 >> (if IsLogicalComparisonToken type then push_boolean else push_integer)
       else nothing)
  end.

(** ** Expressions *)

(** [VisitLiteralExpression] *)
Definition VisitLiteralExpression (literal : Expression) : EmitM :=
  match literal with
  | NullLiteral => emit EmitLoadConstNull >> EvalPush 8
  | CharLiteral word =>
      emit (fun code => EmitLoadConstChar16 code (hd 0 word)) >> EvalPush (PrimitivePayload TypeSymbol.Char)
  | StringLiteral word =>
      (fun e => let (code, data) := EmitLoadConstString (ExecutableByteCode e) (DataSection e) word in
                Ok (mkEmitter code data (EvalTracker e) (Loops e)))
      >> EvalPush 8
  | NumberLiteral value boundType =>
      emit (fun code => EmitLoadConstInt64 code value) >> push_integer >>
      match boundType with
      | Some type =>
          if negb (type =type TypeSymbol.Integer) then
            emit (fun code => EmitCastPrimitive code (type_address type))
            >> EvalPop 1 >> EvalPush (ResolveTypePayload (Some type))
          else nothing
      | None => nothing
      end
  | DoubleLiteral bits =>
      emit (fun code => EmitLoadConstDouble64 code bits) >> EvalPush (PrimitivePayload TypeSymbol.Double)
  | BooleanLiteral value =>
      emit (fun code => EmitLoadConstBool code value) >> push_boolean
  | _ => fun _ => Throw "unsupported literal type"
  end.

(** Loading and storing a variable. *)
Definition load_variable (slot : Z) : EmitM :=
  emit (fun code => EmitLoadLocal code slot) >> EvalPush (SlotPayload slot).
Definition store_variable (slot : Z) : EmitM :=
  emit (fun code => EmitStoreLocal code slot) >> EvalPop 1.

(** The track of the second arm of a conditional expression. *)
Definition at_depth (k : Z -> EmitM) : EmitM := fun e => k (CurrentDepth (EvalTracker e)) e.
Definition set_depth (depth : Z) : EmitM :=
  track (fun t => mkTracker depth (MaxDepth t) (MaxPayload t) (Poisoned t)).

(** [VisitUnaryExpression] and [VisitBinaryExpression] where the operator is
    no assignment, with the code of the operands. *)
Definition VisitUnaryExpression (operator : TokenType) (isRightDetermined : bool) (operand : EmitM) : EmitM :=
  operand >> EmitUnaryOperation operator isRightDetermined.
Definition VisitBinaryExpression (operator : TokenType) (lhs rhs : EmitM) : EmitM :=
  lhs >> rhs >> EmitBinaryOperation operator.

(** [VisitUnaryAssignExpression] and [VisitBinaryAssignExpression] on a
    variable, the only member expression here; a cast of another expression
    to one is undefined. *)
Definition VisitUnaryAssignExpression (operator : TokenType) (isRightDetermined : bool)
    (operand : Expression) : EmitM :=
  match operand with
  | Variable_ slot =>
      load_variable slot >> EmitUnaryOperation operator isRightDetermined >> store_variable slot
  | _ => fun _ => UB
  end.
Definition VisitBinaryAssignExpression (lhs : Expression) (rhs : EmitM) : EmitM :=
  match lhs with
  | Variable_ slot => rhs >> store_variable slot
  | _ => fun _ => UB
  end.

(** [VisitTernaryExpression] *)
Definition VisitTernaryExpression (condition lhs rhs : EmitM) : EmitM :=
  condition >>
  here (fun jumpFalseAddress =>
  emit (fun code => EmitJumpFalse code 0) >> EvalPop 1 >>
  at_depth (fun armBaseDepth =>
  lhs >>
  here (fun jumpEndAddress =>
  emit (fun code => EmitJump code 0) >> set_depth armBaseDepth >>
  here (fun rightAddress =>
  rhs >>
  here (fun ternaryEndAddress =>
  patch jumpFalseAddress rightAddress >> patch jumpEndAddress ternaryEndAddress))))).

(** [VisitExpression] *)
Fixpoint VisitExpression (expression : Expression) : EmitM :=
  match expression with
  | Variable_ slot => load_variable slot
  | Unary operator isRightDetermined operand =>
      if IsAssignExpression operator then VisitUnaryAssignExpression operator isRightDetermined operand
      else VisitUnaryExpression operator isRightDetermined (VisitExpression operand)
  | Binary operator lhs rhs =>
      if IsAssignExpression operator then VisitBinaryAssignExpression lhs (VisitExpression rhs)
      else VisitBinaryExpression operator (VisitExpression lhs) (VisitExpression rhs)
  | Ternary condition lhs rhs =>
      VisitTernaryExpression (VisitExpression condition) (VisitExpression lhs) (VisitExpression rhs)
  | literal => VisitLiteralExpression literal
  end.

(** ** Statements *)

(** The loops share their shape: the initializer of a [for], the condition, the jump out on [exitJump],
    the body, what is repeated after it, and the jump back.  [BlockEnd], the
    target of [continue], is the address of the jump back. *)
Definition emit_loop (initializer condition : EmitM) (exitJump : bytes -> Z -> bytes)
    (body afterRepeat : EmitM) : EmitM :=
  with_loops (cons (mkLoop [] [])) >>
  initializer >>
  here (fun loopStart =>
  condition >>
  here (fun exit_ =>
  with_loops (fun loops => match loops with
                           | scope :: loops => mkLoop (BlockEndBacktracks scope) (LoopEndBacktracks scope ++ [exit_]) :: loops
                           | [] => []
                           end) >>
  emit (fun code => exitJump code 0) >> EvalPop 1 >>
  body >> afterRepeat >>
  here (fun blockEnd =>
  emit (fun code => EmitJump code loopStart) >>
  here (fun loopEnd =>
  (fun e => match Loops e with
            | scope :: _ => (patch_all (BlockEndBacktracks scope) blockEnd
                             >> patch_all (LoopEndBacktracks scope) loopEnd) e
            | [] => UB
            end)
  >> with_loops (@tl LoopScope))))).

(** [VisitWhileStatement], [VisitUntilStatement] and [VisitForStatement] *)
Definition VisitWhileStatement (condition body : EmitM) : EmitM :=
  emit_loop nothing condition EmitJumpFalse body nothing.
Definition VisitUntilStatement (condition body : EmitM) : EmitM :=
  emit_loop nothing condition EmitJumpTrue body nothing.
Definition VisitForStatement (initializer condition body afterRepeat : EmitM) : EmitM :=
  emit_loop initializer condition EmitJumpFalse body afterRepeat.

(** A jump to be patched at the end of the innermost loop; outside a loop a
    diagnostic is reported and nothing is emitted. *)
Definition emit_loop_jump (record : Z -> LoopScope -> LoopScope) : EmitM :=
  here (fun address e =>
    match Loops e with
    | [] => Ok e
    | scope :: loops =>
        (with_loops (fun _ => record address scope :: loops) >> emit (fun code => EmitJump code 0)) e
    end).

(** [VisitBreakStatement] and [VisitContinueStatement] *)
Definition VisitBreakStatement : EmitM :=
  emit_loop_jump (fun a scope => mkLoop (BlockEndBacktracks scope) (LoopEndBacktracks scope ++ [a])).
Definition VisitContinueStatement : EmitM :=
  emit_loop_jump (fun a scope => mkLoop (BlockEndBacktracks scope ++ [a]) (LoopEndBacktracks scope)).

(** [VisitVariableStatement] *)
Definition VisitVariableStatement (slot : Z) (expression : EmitM) : EmitM :=
  expression >> store_variable slot.

(** [VisitReturnStatement] *)
Definition VisitReturnStatement (expression : option Expression) : EmitM :=
  (match expression with Some e => VisitExpression e | None => nothing end) >>
  track (fun t =>
    let expectedDepth := match expression with Some _ => 1 | None => 0 end in
    if negb (CurrentDepth t =? expectedDepth) then
      mkTracker (CurrentDepth t) (MaxDepth t) (MaxPayload t) true else t) >>
  emit EmitReturn >> set_depth 0.

Fixpoint VisitStatement (statement : Statement) : EmitM :=
  let VisitStatementsBlock := fix block (statements : list Statement) : EmitM :=
    match statements with
    | [] => nothing
    | statement :: statements => VisitStatement statement >> block statements
    end in
  match statement with
  | ExpressionStatement expression => VisitExpression expression
  | VariableStatement slot expression => VisitVariableStatement slot (VisitExpression expression)
  | BlockStatement statements => VisitStatementsBlock statements
  | WhileStatement condition body =>
      VisitWhileStatement (VisitExpression condition) (VisitStatementsBlock body)
  | UntilStatement condition body =>
      VisitUntilStatement (VisitExpression condition) (VisitStatementsBlock body)
  | ForStatement initializer condition afterRepeat body =>
      VisitForStatement (VisitStatement initializer) (VisitExpression condition)
        (VisitStatementsBlock body) (VisitStatement afterRepeat)
  | BreakStatement => VisitBreakStatement
  | ContinueStatement => VisitContinueStatement
  | ReturnStatement expression => VisitReturnStatement expression
  end.

(** [VisitMethodDeclaration] for a method with a body: the code and the
    layout. *)
Definition VisitMethodDeclaration (data : bytes) (body : list Statement)
    : result (bytes * bytes * CallStackFrame.FrameLayout) :=
  e <-? VisitStatement (BlockStatement body) (mkEmitter [] data empty_tracker []) ;;
  let t := EvalTracker e in
  let t := if negb (CurrentDepth t =? 0) then mkTracker (CurrentDepth t) (MaxDepth t) (MaxPayload t) true else t in
  Ok (EmitReturn (ExecutableByteCode e), DataSection e,
      PublishLayout (CallStackFrame.mkLayout 0 0 false) t).
End WithMethod.
End Emiter.
