(* ===== verification/MachineFacts.v ===== *)
(** * Running byte code: lemmas

    What the loop of the virtual machine does on an instruction the encoder
    wrote, composition of runs, and the parts of a frame no operation
    changes. *)
From Stdlib Require Import ZArith Lia Bool List String.
From stdpp Require Import base list.
From S2P Require Import Prelude Tokens ByteCode ByteCodeFacts Values PrimMath Machine.
Import ListNotations ByteCodeEncoder ByteCodeDecoder CallStackFrame VirtualMachine.
Open Scope Z_scope.
Open Scope shard_scope.

Section WithProgram.
Context `{MathLibrary}.
Variable type_at : Z -> option TypeSymbol.
Variable DataSection : bytes.

Abbreviation run := (run_body type_at DataSection).

(** ** Runs *)

(** Running from the first configuration goes on as running from the second;
    or it ends with the given result. *)
Definition reaches (s : State) (d : Decoder) (s' : State) (d' : Decoder) : Prop :=
  exists n, forall k, run (n + k) s d = run k s' d'.
Definition ends (s : State) (d : Decoder) (r : result Outcome) : Prop :=
  exists n, forall k, run (n + k) s d = Some r.

Lemma reaches_refl s d : reaches s d s d.
Proof. exists 0%nat; reflexivity. Qed.

Lemma reaches_trans s1 d1 s2 d2 s3 d3 :
  reaches s1 d1 s2 d2 -> reaches s2 d2 s3 d3 -> reaches s1 d1 s3 d3.
Proof.
  intros (n & Hn) (m & Hm); exists (n + m)%nat; intros k; rewrite <- Nat.add_assoc, Hn; apply Hm.
Qed.

Lemma reaches_ends s1 d1 s2 d2 r : reaches s1 d1 s2 d2 -> ends s2 d2 r -> ends s1 d1 r.
Proof.
  intros (n & Hn) (m & Hm); exists (n + m)%nat; intros k; rewrite <- Nat.add_assoc, Hn; apply Hm.
Qed.

(** ** One instruction *)

(** A state in which the loop fetches the next operation. *)
Definition ready (s : State) : Prop :=
  AbortFlag s = false /\ InterruptionReason (frame s) = NotInterrupted.

Lemma encode_nonempty i rest : exists b l, encode i ++ rest = b :: l.
Proof.
  pose proof (encode_size i); destruct (encode i) as [|b l]; [unfold size in *; cbn in *; lia|].
  exists b, (l ++ rest); reflexivity.
Qed.

Lemma IsEOF_before i pre rest : IsEOF (cursor pre (encode i ++ rest)) = false.
Proof.
  unfold IsEOF, cursor; cbn [code_ ip]; rewrite size_app; destruct (encode_nonempty i rest) as (b & l & ->).
  apply Z.leb_gt; unfold size; cbn; lia.
Qed.

Definition operands_of (i : instr) : bytes :=
  match layout_operands i.1 with Some ks => encode_operands ks i.2 | None => [] end.

Lemma run_fetch k i pre rest s :
  ready s ->
  run (S k) s (cursor pre (encode i ++ rest))
  = fbind (ProcessCode type_at DataSection k i.1 s (cursor (pre ++ opcode_bytes i.1) (operands_of i ++ rest)))
      (fun r => match r with Next s d => run k s d | r => done (Stopped r) end).
Proof.
  intros [Ha Hr]; cbn [run_body]; rewrite Ha, Hr, IsEOF_before; cbn [reason_eqb].
  unfold encode; fold (operands_of i); rewrite <- app_assoc, AbsorbOpCode_encoded.
  rewrite OpCode.of_value_value; reflexivity.
Qed.

(** An operation handled without deferred expressions. *)
Definition simple_result (op : OpCode.t) (s : State) (d : Decoder) : option (result Step) :=
  match process_data type_at DataSection op s d with
  | Some r => Some r
  | None =>
      match operator_token op with
      | Some (token, unary) => Some (if unary : bool then executeUnary token s d else executeBinary token s d)
      | None => process_control op s d
      end
  end.

Lemma ProcessCode_simple k op s d r :
  simple_result op s d = Some r -> ProcessCode type_at DataSection k op s d = Some r.
Proof.
  unfold simple_result; destruct k; cbn [ProcessCode];
    destruct (process_data _ _ op s d); try congruence;
    destruct (operator_token op) as [[token unary]|]; try congruence; intros ->; reflexivity.
Qed.

Lemma step_next i pre rest s s' d' :
  ready s ->
  simple_result i.1 s (cursor (pre ++ opcode_bytes i.1) (operands_of i ++ rest)) = Some (Ok (Next s' d')) ->
  reaches s (cursor pre (encode i ++ rest)) s' d'.
Proof.
  intros Hr E; exists 1%nat; intros k; cbn [Nat.add]; rewrite (run_fetch k i pre rest s Hr).
  rewrite (ProcessCode_simple k _ _ _ _ E); reflexivity.
Qed.

(** What an instruction that does not go on ends the run with. *)
Definition stop (r : result Step) : result Outcome := step <-? r ;; Ok (Stopped step).

Lemma step_ends i pre rest s r :
  ready s ->
  simple_result i.1 s (cursor (pre ++ opcode_bytes i.1) (operands_of i ++ rest)) = Some r ->
  match r with Ok (Next _ _) => False | _ => True end ->
  ends s (cursor pre (encode i ++ rest)) (stop r).
Proof.
  intros Hr E Hs; exists 1%nat; intros k; cbn [Nat.add]; rewrite (run_fetch k i pre rest s Hr).
  rewrite (ProcessCode_simple k _ _ _ _ E); destruct r as [[| |]| |]; cbn; try reflexivity; contradiction.
Qed.

(** ** Pushing *)
Definition fits_stack (n : Z) (s : State) : Prop := EntryStride * n <= EvalCapacityBytes (frame s).

Lemma push_ok v s d :
  fits_stack (Z.of_nat (List.length (EvalStack (frame s))) + 1) s ->
  push v s d = Ok (Next (on_frame (set_EvalStack (v :: EvalStack (frame s)) (frame s)) s) d).
Proof.
  unfold fits_stack, push, PushStack, EvalCursorBytes, EntryStride; intros Hf.
  rewrite (proj2 (Z.leb_le _ _)) by lia; reflexivity.
Qed.

(** The state with another evaluation stack and arena. *)
Definition with_stack (stack : list ObjectInstance) (arena : PrimitiveMath.Arena) (s : State) : State :=
  mkState (set_EvalStack stack (frame s)) arena (AbortFlag s) (internedStrings s).

Lemma with_stack_id s : with_stack (EvalStack (frame s)) (stringScratch s) s = s.
Proof. destruct s as [[] ? ? ?]; reflexivity. Qed.

Lemma ready_with_stack stack arena s : ready s -> ready (with_stack stack arena s).
Proof. intros []; split; assumption. Qed.

(** The table of literals plays no part in what the machine does but for loads. *)
Lemma ready_interning t s : ready s -> ready (interning t s).
Proof. intros []; split; assumption. Qed.

Lemma fits_with_stack n stack arena s : fits_stack n (with_stack stack arena s) <-> fits_stack n s.
Proof. reflexivity. Qed.

(** ** What no operation changes *)
Definition same_return (s s' : State) : Prop :=
  ReturnSlot (frame s') = ReturnSlot (frame s) /\ ReturnType (frame s') = ReturnType (frame s).

Lemma same_return_refl s : same_return s s.
Proof. split; reflexivity. Qed.

Lemma same_return_trans s1 s2 s3 : same_return s1 s2 -> same_return s2 s3 -> same_return s1 s3.
Proof. intros [] []; split; congruence. Qed.

Definition step_same (s : State) (r : Step) : Prop :=
  match r with
  | Next s' _ | Overload _ _ _ s' _ => same_return s s'
  | Beyond _ => True
  end.

Lemma step_same_trans s1 s2 r : same_return s1 s2 -> step_same s2 r -> step_same s1 r.
Proof. destruct r; cbn; eauto using same_return_trans. Qed.

Lemma PopStack_same f v f' :
  PopStack f = Ok (v, f') -> ReturnSlot f' = ReturnSlot f /\ ReturnType f' = ReturnType f.
Proof. unfold PopStack; destruct (EvalStack f); [discriminate|]; intros [= _ <-]; split; reflexivity. Qed.

Lemma PushStack_same v f f' :
  PushStack v f = Ok f' -> ReturnSlot f' = ReturnSlot f /\ ReturnType f' = ReturnType f.
Proof. unfold PushStack; case_if; [|discriminate]; intros [= <-]; split; reflexivity. Qed.

Lemma SetLocal_same slot v f f' :
  SetLocal slot v f = Ok f' -> ReturnSlot f' = ReturnSlot f /\ ReturnType f' = ReturnType f.
Proof. unfold SetLocal; destruct (nth_error _ _); [|discriminate]; intros [= <-]; split; reflexivity. Qed.

Lemma return_same f f' :
  (if negb (ReturnType f =type TypeSymbol.Void) then
     retReg <-? ReturnView f ;; PlaceReturned retReg f
   else Ok f) = Ok f' -> ReturnSlot f' = ReturnSlot f /\ ReturnType f' = ReturnType f.
Proof.
  destruct (ReturnType f =type TypeSymbol.Void) eqn:E; cbn [negb]; [intros [= <-]; auto|].
  unfold ReturnView, PlaceReturned; rewrite E; cbn [rbind].
  destruct (reason_eqb _ _); [discriminate|]; destruct (ObjectInstance.shape_type _); [|discriminate].
  destruct (negb _); [discriminate|]; intros [= <-]; split; reflexivity.
Qed.

(** [invert E] takes a successful result apart into its steps. *)
Ltac invert E :=
  repeat match type of E with
  | rbind _ _ = Ok _ =>
      let x := fresh "x" in let Ex := fresh "Ex" in apply rbind_Ok in E as (x & Ex & E)
  | (let (_, _) := ?x in _) = Ok _ => destruct x
  | (if ?b then _ else _) = Ok _ => destruct b
  | match ?x with Some _ => _ | None => _ end = Ok _ => destruct x
  | Throw _ = Ok _ => discriminate
  | UB = Ok _ => discriminate
  end.

Ltac same_step :=
  repeat match goal with
  | H : PopStack _ = Ok (_, _) |- _ => apply PopStack_same in H as [? ?]
  | H : PushStack _ _ = Ok _ |- _ => apply PushStack_same in H as [? ?]
  | H : SetLocal _ _ _ = Ok _ |- _ => apply SetLocal_same in H as [? ?]
  | H : (if negb (ReturnType _ =type TypeSymbol.Void) then _ else _) = Ok _ |- _ =>
      apply return_same in H as [? ?]
  end;
  try (split; cbn in *; congruence).

Lemma push_same v s d r : push v s d = Ok r -> step_same s r.
Proof. unfold push; intros E; invert E; injection E as <-; same_step. Qed.

Lemma executeBinary_same token s d r : executeBinary token s d = Ok r -> step_same s r.
Proof.
  unfold executeBinary; intros E; apply rbind_Ok in E as ([right f] & E1 & E).
  apply rbind_Ok in E as ([left f'] & E2 & E).
  assert (Hs : forall a, same_return s (mkState f' a (AbortFlag s) (internedStrings s))) by (intros; same_step).
  destruct (_ || _); [exact (step_same_trans _ _ _ (Hs _) (push_same _ _ _ _ E))|].
  apply rbind_Ok in E as (u & _ & E); apply rbind_Ok in E as ([result arena] & _ & E).
  destruct (ObjectInstance.IsNullInstance result).
  - injection E as <-; apply Hs.
  - exact (step_same_trans _ _ _ (Hs _) (push_same _ _ _ _ E)).
Qed.

Lemma executeUnary_same token s d r : executeUnary token s d = Ok r -> step_same s r.
Proof.
  unfold executeUnary; intros E; apply rbind_Ok in E as ([operand f] & E1 & E).
  assert (Hs : same_return s (on_frame f s)) by same_step.
  destruct (ObjectInstance.IsNullInstance operand); [discriminate|].
  apply rbind_Ok in E as (result & _ & E); destruct (ObjectInstance.IsNullInstance result).
  - injection E as <-; apply Hs.
  - exact (step_same_trans _ _ _ Hs (push_same _ _ _ _ E)).
Qed.

Lemma process_data_same op s d r :
  process_data type_at DataSection op s d = Some (Ok r) -> step_same s r.
Proof.
  destruct op; try discriminate; cbn [process_data]; intros E%(inj Some);
    repeat match type of E with (let (_, _) := ?x in _) = _ => destruct x end;
    try (injection E as <-; apply same_return_refl);
    try (exact (push_same _ _ _ _ E));
    try (invert E; try (injection E as <-); same_step; fail).
  - unfold InternString in E; destruct (pool_string _ _); [|discriminate]; destruct (existsb _ _);
      [injection E as <-; exact I|exact (push_same _ _ _ _ E)].
  - invert E; exact (push_same _ _ _ _ E).
  - invert E; exact (push_same _ _ _ _ E).
  - invert E; exact (push_same _ _ _ _ E).
  - apply rbind_Ok in E as ([value f] & E1 & E).
    assert (Hs : same_return s (on_frame f s)) by same_step.
    invert E; exact (step_same_trans _ _ _ Hs (push_same _ _ _ _ E)).
Qed.

Lemma process_control_same op s d r : process_control op s d = Some (Ok r) -> step_same s r.
Proof.
  destruct op; try discriminate; cbn [process_control]; intros E%(inj Some);
    unfold conditional_jump, branch_null, jump_table in E;
    repeat match type of E with (let (_, _) := ?x in _) = _ => destruct x end;
    try (injection E as <-; split; reflexivity);
    try (exact (push_same _ _ _ _ E));
    try (invert E; try (injection E as <-); try exact I; same_step; fail).
  injection E as <-; destruct (ObjectInstance.IsNullInstance _); split; reflexivity.
Qed.

(** Deferred expressions keep what the operations they run keep. *)
Section Defers.
Variable process : OpCode.t -> State -> Decoder -> fueled Step.
Hypothesis process_same : forall op s d r, process op s d = done r -> step_same s r.

Lemma defer_loop_same n savedIP : forall s d r,
  defer_loop process n savedIP s d = done r -> step_same s r.
Proof.
  induction n as [|n IH]; intros s d r E; cbn [defer_loop] in E; [discriminate|].
  destruct (IsEOF d); [discriminate|]; destruct (AbsorbOpCode d) as [raw d'].
  destruct (OpCode.of_value raw) as [op|]; [|discriminate].
  apply fbind_done in E as (step & Es & E); apply process_same in Es.
  destruct step as [s' d2| |]; try (injection E as <-; exact Es).
  destruct (interrupted (frame s')); [injection E as <-; exact Es|].
  assert (Hl : forall r, defer_loop process n savedIP s' d2 = done r -> step_same s r)
    by (intros r' E'; exact (step_same_trans _ _ _ Es (IH _ _ _ E'))).
  destruct op; try exact (Hl _ E).
  injection E as E; invert E; injection E as <-; exact Es.
Qed.

Lemma ExecuteDefer_same n target s d r :
  ExecuteDeferExpression process n target s d = done r -> step_same s r.
Proof.
  unfold ExecuteDeferExpression; destruct (SetCursor _ _); try discriminate; apply defer_loop_same.
Qed.

Lemma drain_loop_same n count savedIP : forall i s d r,
  drain_loop process n i count savedIP s d = done r -> step_same s r.
Proof.
  induction n as [|n IH]; intros i s d r E; cbn [drain_loop] in E; [discriminate|].
  destruct (count <=? i).
  - injection E as E; invert E; injection E as <-; split; reflexivity.
  - destruct (DeferStack (frame s)) as [|target rest]; [discriminate|].
    apply fbind_done in E as (step & Es & E); apply ExecuteDefer_same in Es.
    assert (Hs : step_same s step) by (destruct step; cbn in *; auto).
    destruct step as [s' d2| |]; try (injection E as <-; exact Hs).
    destruct (interrupted (frame s')); [injection E as <-; exact Hs|].
    exact (step_same_trans _ _ _ Hs (IH _ _ _ _ E)).
Qed.

Lemma DrainDefersTo_same n targetSize : forall s d b r,
  DrainDefersTo process n targetSize s d = done (b, r) -> step_same s r.
Proof.
  induction n as [|n IH]; intros s d b r E; cbn [DrainDefersTo] in E; [discriminate|].
  destruct (_ <=? _)%nat; [injection E as _ <-; apply same_return_refl|].
  destruct (DeferStack (frame s)) as [|target rest]; [injection E as _ <-; apply same_return_refl|].
  apply fbind_done in E as (step & Es & E); apply ExecuteDefer_same in Es.
  assert (Hs : step_same s step) by (destruct step; cbn in *; auto).
  destruct step as [s' d2| |]; try (injection E as _ <-; exact Hs).
  assert (Hd : forall depth, same_return s (set_depth depth s')) by (intros; exact Hs).
  destruct (interrupted _); [injection E as _ <-; apply Hd|].
  exact (step_same_trans _ _ _ (Hd _) (IH _ _ _ _ E)).
Qed.
End Defers.

Lemma ProcessCode_same fuel : forall op s d r,
  ProcessCode type_at DataSection fuel op s d = done r -> step_same s r.
Proof.
  induction fuel as [|fuel IH]; intros op s d r E; cbn [ProcessCode] in E;
    (destruct (process_data _ _ op s d) as [x|] eqn:E1;
      [injection E as ->; exact (process_data_same _ _ _ _ E1)|]);
    (destruct (operator_token op) as [[token []]|];
      [injection E as E; exact (executeUnary_same _ _ _ _ E)
      |injection E as E; exact (executeBinary_same _ _ _ _ E)|]);
    (destruct (process_control op s d) as [x|] eqn:E2;
      [injection E as ->; exact (process_control_same _ _ _ _ E2)|]);
    destruct op; try discriminate; try (injection E as <-; exact I).
  destruct (AbsorbJump d) as [count d'].
  exact (drain_loop_same _ IH _ _ _ _ _ _ _ E).
Qed.

Lemma Drain_same f f' :
  DrainEvalReferences f = Ok f' -> ReturnSlot f' = ReturnSlot f /\ ReturnType f' = ReturnType f.
Proof. unfold DrainEvalReferences; intros E; invert E; injection E as <-; split; reflexivity. Qed.

Lemma HandleException_same fuel s d b r :
  HandleExceptionInFrame type_at DataSection fuel s d = done (b, r) -> step_same s r.
Proof.
  unfold HandleExceptionInFrame; destruct (ObjectInstance.IsNullInstance _); [discriminate|]; intros E.
  apply fbind_done in E as (f & Ef & E); injection Ef as Ef; apply Drain_same in Ef as [Hslot Htype].
  cbn [ExceptionHandlers set_CurrentException set_InterruptionReason] in E.
  destruct (ExceptionHandlers f) as [|handler handlers]; apply fbind_done in E as ([b' step] & Ed & E);
    apply (DrainDefersTo_same _ (ProcessCode_same fuel)) in Ed;
    (assert (Hs : step_same s step)
       by (refine (step_same_trans _ _ _ _ Ed); split; cbn; assumption));
    destruct b'; try (injection E as _ <-; exact Hs);
    destruct step as [s' d2| |]; try (injection E as _ <-; exact Hs).
  injection E as E; apply rbind_Ok in E as (d3 & _ & E); apply rbind_Ok in E as (f' & Ef & E).
  apply PushStack_same in Ef as [? ?]; injection E as _ <-; destruct Hs; split; cbn in *; congruence.
Qed.

Lemma run_body_same fuel : forall s d s',
  run fuel s d = done (Finished s') -> same_return s s'.
Proof.
  induction fuel as [|fuel IH]; intros s d s' E; cbn [run_body] in E; [discriminate|].
  destruct (AbortFlag s); [discriminate|]; destruct (reason_eqb _ ExceptionRaised).
  - apply fbind_done in E as ([b step] & Eh & E); apply HandleException_same in Eh.
    destruct b, step as [s1 d1| |]; try discriminate.
    + exact (same_return_trans _ _ _ Eh (IH _ _ _ E)).
    + injection E as <-; exact Eh.
  - destruct (IsEOF d).
    + injection E as <-; destruct (reason_eqb _ ValueReturned); split; reflexivity.
    + destruct (AbsorbOpCode d) as [raw d']; destruct (OpCode.of_value raw) as [op|]; [|discriminate].
      apply fbind_done in E as (step & Es & E); apply ProcessCode_same in Es.
      destruct step as [s1 d1| |]; try discriminate.
      exact (same_return_trans _ _ _ Es (IH _ _ _ E)).
Qed.
End WithProgram.
