(* ===== verification/EmitFacts.v ===== *)
(** * Expressions: meaning and compilation

    A reference evaluator of expressions, and the lemmas that relate the
    code the emitter writes for an expression to it: what the code does to
    the evaluation stack, how deep the stack gets, and how the emitter's
    tracker accounts for it. *)
From Stdlib Require Import ZArith Lia Bool List String.
From stdpp Require Import base list.
From S2P Require Import Prelude Tokens ByteCode ByteCodeFacts ByteCodeSpec Values PrimMath Machine MachineFacts Emit.
Import ListNotations ByteCodeEncoder ByteCodeDecoder CallStackFrame VirtualMachine Emiter.
Open Scope Z_scope.
Open Scope shard_scope.

(** ** The meaning of expressions *)

(** The value of an expression and the arena after it, an operator that needs an
    overload, or a binary operator with a null operand, to which no meaning is
    given here. *)
Inductive Answer :=
| Value (v : ObjectInstance) (arena : PrimitiveMath.Arena)
| Unhandled
| NullOperand.

Section Meaning.
Context `{MathLibrary}.

(** A binary operator of the language: a division by the integer zero throws, and
    the rest is [PrimitiveMathModule]. *)
Definition binary_meaning (op : TokenType) (l r : ObjectInstance) (arena : PrimitiveMath.Arena)
    : result Answer :=
  if ObjectInstance.IsNullInstance r || ObjectInstance.IsNullInstance l then
    Ok NullOperand
  else
  ok <-? (if (op =tt TokenType.DivOperator) || (op =tt TokenType.ModOperator) then
            rightType <-? ObjectInstance.getInfo r ;;
            if guarded rightType then
              z <-? ObjectInstance.AsInteger r ;;
              if z =? 0 then Throw "DivideByZeroException" else Ok tt
            else Ok tt
          else Ok tt) ;;
  x <-? PrimitiveMath.ExecuteBinary op l r arena ;;
  if ObjectInstance.IsNullInstance (fst x) then Ok Unhandled else Ok (Value (fst x) (snd x)).

Definition unary_meaning (op : TokenType) (v : ObjectInstance) (arena : PrimitiveMath.Arena)
    : result Answer :=
  match op with
  | TokenType.AddOperator => Ok (Value v arena)
  | _ =>
      if ObjectInstance.IsNullInstance v then Throw "Cannot perform operation on null instance"
      else x <-? PrimitiveMath.ExecuteUnary op v ;;
           if ObjectInstance.IsNullInstance x then Ok Unhandled else Ok (Value x arena)
  end.

(** Sequencing of evaluations. *)
Definition abind (r : result Answer) (k : ObjectInstance -> PrimitiveMath.Arena -> result Answer)
    : result Answer :=
  a <-? r ;; match a with Value v arena => k v arena | other => Ok other end.

Fixpoint eval (f : Frame) (e : Expression) (arena : PrimitiveMath.Arena) : result Answer :=
  match e with
  | NullLiteral => Ok (Value null_instance arena)
  | CharLiteral word => Ok (Value (VChar (hd 0 word)) arena)
  | StringLiteral word => Ok (Value (VString word) arena)
  | NumberLiteral value None => Ok (Value (VInt value) arena)
  | NumberLiteral value (Some type) =>
      if type =type TypeSymbol.Integer then Ok (Value (VInt value) arena)
      else x <-? PrimitiveMath.ExecuteCast (Some type) (VInt value) ;;
           if ObjectInstance.IsNullInstance x then Throw "Unsupported primitive cast"
           else Ok (Value x arena)
  | DoubleLiteral bits => Ok (Value (VDouble (Double.of_bits bits)) arena)
  | BooleanLiteral value => Ok (Value (VBool value) arena)
  | Variable_ slot => v <-? GetLocal slot f ;; Ok (Value v arena)
  | Unary op _ operand => abind (eval f operand arena) (unary_meaning op)
  | Binary op lhs rhs =>
      abind (eval f lhs arena) (fun l arena =>
      abind (eval f rhs arena) (fun r arena => binary_meaning op l r arena))
  | Ternary condition lhs rhs =>
      abind (eval f condition arena) (fun c arena =>
      b <-? ObjectInstance.AsBoolean c ;;
      if b : bool then eval f lhs arena else eval f rhs arena)
  end.
End Meaning.

(** ** Compilable expressions

    Literals in the range of their operands, slots that fit theirs, and no
    assignment.  [type_address] and [type_at] agree on the types used. *)
Section Compilable.
Variable type_address : TypeSymbol -> Z.
Variable type_at : Z -> option TypeSymbol.

Fixpoint compilable (e : Expression) : Prop :=
  match e with
  | NullLiteral | BooleanLiteral _ => True
  | CharLiteral word => - 2 ^ 31 <= hd 0 word < 2 ^ 31
  | StringLiteral word => Forall (fun c => c <> 0 /\ - 2 ^ 31 <= c < 2 ^ 31) word
  | NumberLiteral value type =>
      - 2 ^ 63 <= value < 2 ^ 63
      /\ match type with
         | Some type => 0 <= type_address type < 2 ^ 64 /\ type_at (type_address type) = Some type
         | None => True
         end
  | DoubleLiteral bits => 0 <= bits < 2 ^ 64
  | Variable_ slot => 0 <= slot < 2 ^ 16
  | Unary op _ operand => IsAssignExpression op = false /\ compilable operand
  | Binary op lhs rhs =>
      IsAssignExpression op = false /\ op <> TokenType.NotOperator /\ compilable lhs /\ compilable rhs
  | Ternary condition lhs rhs => compilable condition /\ compilable lhs /\ compilable rhs
  end.
End Compilable.

(** ** Running the code of an expression *)
Section Running.
Context `{MathLibrary}.
Variable type_at : Z -> option TypeSymbol.
Variable data : bytes.

(** The literals loaded have addresses below [n]. *)
Definition table_below (n : Z) (t : list Z) : Prop := Forall (fun address => address < n) t.

Lemma table_below_le n m t : n <= m -> table_below n t -> table_below m t.
Proof. intros Hn; apply List.Forall_impl; intros address; lia. Qed.

(** From [d], with the stack [st] left below the value, the run goes to [d']
    with the answer pushed and literals below [top] loaded, or ends as the answer
    says; of a null operand nothing is said. *)
Definition answers (top : Z) (st : list ObjectInstance) (s : State) (d d' : Decoder) (r : result Answer) : Prop :=
  match r with
  | Ok (Value v arena) =>
      exists t, table_below top t /\ reaches type_at data s d (with_stack (v :: st) arena (interning t s)) d'
  | Ok Unhandled => exists t l r s' d'', ends type_at data s d (Ok (Stopped (Overload t l r s' d'')))
  | Ok NullOperand => True
  | Throw m => ends type_at data s d (Throw m)
  | UB => ends type_at data s d UB
  end.

Lemma answers_after top st s d s1 d1 d' r :
  reaches type_at data s d s1 d1 ->
  (forall v arena t, with_stack (v :: st) arena (interning t s1) = with_stack (v :: st) arena (interning t s)) ->
  answers top st s1 d1 d' r -> answers top st s d d' r.
Proof.
  intros H1 Hs H2; destruct r as [[v arena| |]| |]; cbn in *.
  - destruct H2 as (t & Ht & H2); exists t; split; [exact Ht|]; rewrite <- Hs; eapply reaches_trans; eassumption.
  - destruct H2 as (t & l & r & s' & d'' & H2); exists t, l, r, s', d''; eapply reaches_ends; eassumption.
  - exact I.
  - eapply reaches_ends; eassumption.
  - eapply reaches_ends; eassumption.
Qed.

(** Sequencing: the second run starts where the first one's value was
    pushed. *)
Lemma answers_bind mid top st st' s d d1 d' r k :
  answers mid st s d d1 r ->
  (forall v arena t, table_below mid t -> r = Ok (Value v arena) ->
     answers top st' (with_stack (v :: st) arena (interning t s)) d1 d' (k v arena)) ->
  answers top st' s d d' (abind r k).
Proof.
  intros H1 H2; destruct r as [[v arena| |]| |]; cbn in *; try assumption.
  destruct H1 as (t & Ht & H1).
  refine (answers_after top st' s d (with_stack (v :: st) arena (interning t s)) d1 d' _ H1 _ (H2 v arena t Ht eq_refl)).
  reflexivity.
Qed.

(** The state left by a step does not matter where the step goes on pushing
    over a given stack. *)
Lemma push_over st v s d :
  EvalStack (frame s) = st -> fits_stack (Z.of_nat (List.length st) + 1) s ->
  push v s d = Ok (Next (with_stack (v :: st) (stringScratch s) s) d).
Proof. intros <- Hf; exact (push_ok v s d Hf). Qed.

(** A step as an answer describes it: the value pushed on [st] and the run
    going on from [d], or the run ending. *)
Definition step_answers (top : Z) (st : list ObjectInstance) (s : State) (d : Decoder) (r : result Answer)
    (step : result Step) : Prop :=
  match r with
  | Ok (Value v arena) =>
      exists t, table_below top t /\ step = Ok (Next (with_stack (v :: st) arena (interning t s)) d)
  | Ok Unhandled => exists t l r s' d', step = Ok (Overload t l r s' d')
  | Ok NullOperand => True
  | Throw m => step = Throw m
  | UB => step = UB
  end.

(** An instruction that ends with a step described by an answer. *)
Lemma answers_step top i pre rest st s (r : result Answer) (step : result Step) :
  ready s ->
  simple_result type_at data i.1 s (cursor (pre ++ opcode_bytes i.1) (operands_of i ++ rest)) = Some step ->
  step_answers top st s (cursor (pre ++ encode i) rest) r step ->
  answers top st s (cursor pre (encode i ++ rest)) (cursor (pre ++ encode i) rest) r.
Proof.
  intros Hr E Hstep; destruct r as [[v arena| |]| |]; cbn in Hstep |- *.
  - destruct Hstep as (t & Ht & ->); exists t; split; [exact Ht|]; eapply step_next; eassumption.
  - destruct Hstep as (t & l & r & s' & d'' & ->); exists t, l, r, s', d''.
    exact (step_ends type_at data i pre rest s _ Hr E I).
  - exact I.
  - subst step; exact (step_ends type_at data i pre rest s _ Hr E I).
  - subst step; exact (step_ends type_at data i pre rest s _ Hr E I).
Qed.

(** A step that pushes a value over a given stack. *)
Lemma push_answers top st v s s' d :
  EvalStack (frame s') = st -> fits_stack (Z.of_nat (List.length st) + 1) s' -> table_below top (internedStrings s') ->
  with_stack (v :: st) (stringScratch s') (interning (internedStrings s') s)
    = with_stack (v :: st) (stringScratch s') (interning (internedStrings s') s') ->
  step_answers top st s d (Ok (Value v (stringScratch s'))) (push v s' d).
Proof.
  intros Hst Hf Ht E; cbn [step_answers]; exists (internedStrings s'); split; [exact Ht|].
  rewrite (push_over st v s' d Hst Hf), E; reflexivity.
Qed.

Lemma binary_step top op l r st s d :
  EvalStack (frame s) = r :: l :: st -> fits_stack (Z.of_nat (List.length st) + 1) s ->
  table_below top (internedStrings s) ->
  step_answers top st s d (binary_meaning op l r (stringScratch s)) (executeBinary op s d).
Proof.
  intros Hst Hf Ht; unfold executeBinary, binary_meaning, PopStack; rewrite Hst.
  cbn [rbind EvalStack set_EvalStack frame on_frame stringScratch internedStrings].
  destruct (_ || _); [exact I|].
  destruct (if (op =tt TokenType.DivOperator) || (op =tt TokenType.ModOperator) then _ else _);
    cbn [rbind]; try reflexivity.
  destruct (PrimitiveMath.ExecuteBinary op l r (stringScratch s)) as [[v arena]| |];
    cbn [rbind fst snd]; try reflexivity.
  destruct (ObjectInstance.IsNullInstance v); [cbn; eauto 10|].
  apply (push_answers top st v s (mkState (set_EvalStack st (frame s)) arena (AbortFlag s) (internedStrings s)));
    auto; exact Hf.
Qed.

Lemma unary_step top op v st s d :
  EvalStack (frame s) = v :: st -> fits_stack (Z.of_nat (List.length st) + 1) s ->
  table_below top (internedStrings s) -> op <> TokenType.AddOperator ->
  step_answers top st s d (unary_meaning op v (stringScratch s)) (executeUnary op s d).
Proof.
  intros Hst Hf Ht Hop; unfold executeUnary, PopStack; rewrite Hst.
  cbn [rbind EvalStack set_EvalStack frame on_frame stringScratch internedStrings].
  replace (unary_meaning op v (stringScratch s)) with
    (if ObjectInstance.IsNullInstance v then Throw "Cannot perform operation on null instance"
     else x <-? PrimitiveMath.ExecuteUnary op v ;;
          if ObjectInstance.IsNullInstance x then Ok Unhandled else Ok (Value x (stringScratch s)))
    by (destruct op; try reflexivity; congruence).
  destruct (ObjectInstance.IsNullInstance v); [reflexivity|].
  destruct (PrimitiveMath.ExecuteUnary op v) as [x| |]; cbn [rbind]; try reflexivity.
  destruct (ObjectInstance.IsNullInstance x); [cbn; eauto 10|].
  apply (push_answers top st x s (on_frame (set_EvalStack st (frame s)) s)); auto; exact Hf.
Qed.
End Running.

(** ** What the emitter writes *)
Lemma Ok_inj {A} (x y : A) : Ok x = Ok y -> x = y.
Proof. congruence. Qed.

Lemma then_Ok m k em em' : then_ m k em = Ok em' -> exists em1, m em = Ok em1 /\ k em1 = Ok em'.
Proof. intros E; apply rbind_Ok in E; exact E. Qed.

Lemma encode_none op : layout_operands op = Some [] -> encode (op, []) = opcode_bytes op.
Proof. intros E; unfold encode; cbn [fst snd]; rewrite E; apply app_nil_r. Qed.

Lemma encode_one op k n z : layout_operands op = Some [k] -> width k = n ->
  encode (op, [ONum z]) = opcode_bytes op ++ le n z.
Proof. intros E <-; unfold encode; cbn [fst snd]; rewrite E; cbn; rewrite app_nil_r; reflexivity. Qed.

(** The tracker went from [t] to [t'] over code that leaves [n] values. *)
Definition tracked (n : Z) (t t' : EvalLayoutTracker) : Prop :=
  CurrentDepth t' = CurrentDepth t + n /\ MaxDepth t <= MaxDepth t'
  /\ CurrentDepth t' <= MaxDepth t' /\ Poisoned t' = Poisoned t.

Lemma tracked_trans n m t1 t2 t3 : tracked n t1 t2 -> tracked m t2 t3 -> tracked (n + m) t1 t3.
Proof. unfold tracked; intros (? & ? & ? & ?) (? & ? & ? & ?); repeat split; lia || congruence. Qed.

Lemma track_push_tracked payload t : tracked 1 t (track_push payload t).
Proof.
  unfold tracked, track_push; cbn [CurrentDepth MaxDepth Poisoned].
  destruct (Z.ltb_spec (MaxDepth t) (CurrentDepth t + 1)); repeat split; lia.
Qed.

Lemma track_pop_tracked n t : 0 <= n <= CurrentDepth t -> CurrentDepth t <= MaxDepth t ->
  tracked (- n) t (track_pop n t).
Proof.
  unfold tracked, track_pop; intros Hn Hm.
  destruct (Z.ltb_spec (CurrentDepth t) n); [lia|]; cbn; repeat split; lia.
Qed.

Section Compiling.
Context `{MathLibrary}.
Variable type_address : TypeSymbol -> Z.
Variable struct_size : nat -> Z.
Variable slots : list (option TypeSymbol).
Variable type_at : Z -> option TypeSymbol.

Abbreviation visit := (VisitExpression type_address struct_size slots).

(** What compiling [e] gives: code and data appended, one more value for the
    tracker, and code that computes [e] wherever it is placed at the same
    address, on a stack of the tracked depth that the tracked maximum fits, when
    no literal of [e] has been loaded before. *)
Definition computes (e : Expression) (em em' : Emitter) : Prop :=
  exists c more,
    ExecutableByteCode em' = ExecutableByteCode em ++ c
    /\ DataSection em' = DataSection em ++ more
    /\ Loops em' = Loops em
    /\ tracked 1 (EvalTracker em) (EvalTracker em')
    /\ forall later pre rest s,
         size pre = size (ExecutableByteCode em) ->
         size (ExecutableByteCode em') < 2 ^ 63 -> size (DataSection em') < 2 ^ 63 ->
         ready s -> Z.of_nat (List.length (EvalStack (frame s))) = CurrentDepth (EvalTracker em) ->
         fits_stack (MaxDepth (EvalTracker em')) s ->
         table_below (size (DataSection em)) (internedStrings s) ->
         answers type_at (DataSection em' ++ later) (size (DataSection em')) (EvalStack (frame s)) s
           (cursor pre (c ++ rest)) (cursor (pre ++ c) rest) (eval (frame s) e (stringScratch s)).

(** The meaning of an expression does not depend on the evaluation stack. *)
Lemma eval_with_stack e : forall st arena s arena',
  eval (frame (with_stack st arena s)) e arena' = eval (frame s) e arena'.
Proof.
  induction e; intros st arena s arena'; cbn [eval]; try reflexivity.
  - rewrite IHe; reflexivity.
  - rewrite IHe1; destruct (eval (frame s) e1 arena') as [[l a1| |]| |];
      unfold abind; cbn [rbind]; try reflexivity.
    rewrite IHe2; reflexivity.
  - rewrite IHe1; destruct (eval (frame s) e1 arena') as [[c a1| |]| |];
      unfold abind; cbn [rbind]; try reflexivity.
    destruct (ObjectInstance.AsBoolean c) as [[]| |]; cbn [rbind]; auto.
Qed.

(** ** Instructions that push a value *)
Lemma load_computes_table i e payload em more (value : State -> result ObjectInstance) (grow : list Z -> list Z) :
  (forall s, eval (frame s) e (stringScratch s) = (v <-? value s ;; Ok (Value v (stringScratch s)))) ->
  (forall t, table_below (size (DataSection em)) t -> table_below (size (DataSection em ++ more)) (grow t)) ->
  (forall later pre rest s,
     size (DataSection em ++ more) < 2 ^ 63 -> table_below (size (DataSection em)) (internedStrings s) ->
     simple_result type_at ((DataSection em ++ more) ++ later) i.1 s
         (cursor (pre ++ opcode_bytes i.1) (operands_of i ++ rest))
       = Some (v <-? value s ;; push v (interning (grow (internedStrings s)) s) (cursor (pre ++ encode i) rest))) ->
  computes e em (mkEmitter (ExecutableByteCode em ++ encode i) (DataSection em ++ more)
                   (track_push payload (EvalTracker em)) (Loops em)).
Proof.
  intros He Hg Hi; exists (encode i), more; pose proof (track_push_tracked payload (EvalTracker em)) as Ht.
  refine (conj eq_refl (conj eq_refl (conj eq_refl (conj Ht _)))).
  cbn [ExecutableByteCode DataSection EvalTracker].
  intros later pre rest s Hpre Hc Hd Hr Hlen Hf Htable; rewrite He.
  refine (answers_step type_at _ _ i pre rest _ s _ _ Hr (Hi later pre rest s Hd Htable) _).
  destruct (value s) as [v| |]; cbn [rbind]; try reflexivity.
  apply (push_answers (size (DataSection em ++ more)) (EvalStack (frame s)) v s (interning (grow (internedStrings s)) s));
    [reflexivity| |apply Hg, Htable|reflexivity]; rewrite Hlen; destruct Ht as (Hcur & _ & Hm & _).
  unfold fits_stack, EntryStride in *; cbn; lia.
Qed.

Lemma load_computes i e payload em more (value : State -> result ObjectInstance) :
  (forall s, eval (frame s) e (stringScratch s) = (v <-? value s ;; Ok (Value v (stringScratch s)))) ->
  (forall later pre rest s,
     size (DataSection em ++ more) < 2 ^ 63 ->
     simple_result type_at ((DataSection em ++ more) ++ later) i.1 s
         (cursor (pre ++ opcode_bytes i.1) (operands_of i ++ rest))
       = Some (v <-? value s ;; push v s (cursor (pre ++ encode i) rest))) ->
  computes e em (mkEmitter (ExecutableByteCode em ++ encode i) (DataSection em ++ more)
                   (track_push payload (EvalTracker em)) (Loops em)).
Proof.
  intros He Hi; apply (load_computes_table i e payload em more value (fun t => t) He).
  - intros t; apply table_below_le; rewrite size_app; unfold size; lia.
  - intros later pre rest s Hd _; replace (interning (internedStrings s) s) with s by (destruct s; reflexivity).
    apply Hi, Hd.
Qed.

(** The absorbed operand of an instruction with one operand. *)
Lemma operand_encoded op k z pre rest :
  layout_operands op = Some [k] -> fits k (ONum z) ->
  absorb_operand k (cursor (pre ++ opcode_bytes op) (operands_of (op, [ONum z]) ++ rest))
  = (ONum z, cursor (pre ++ encode (op, [ONum z])) rest).
Proof.
  intros Hop Hf; unfold operands_of, encode; cbn [fst snd]; rewrite Hop; cbn [encode_operands].
  rewrite app_nil_r, absorb_encoded, <- app_assoc by exact Hf; reflexivity.
Qed.

(** [Ok] results of the emitter's primitives. *)
Ltac emitted E :=
  cbn [then_ emit track EvalPush EvalPop nothing rbind push_integer push_boolean
       ExecutableByteCode DataSection EvalTracker Loops] in E;
  apply Ok_inj in E; rewrite <- E; clear E; cbn [ExecutableByteCode DataSection EvalTracker Loops].

Lemma literal_computes e payload op k n z em v :
  layout_operands op = Some [k] -> width k = n -> fits k (ONum z) ->
  (forall f arena, eval f e arena = Ok (Value v arena)) ->
  (forall data s d d', absorb_operand k d = (ONum z, d') ->
     simple_result type_at data op s d = Some (push v s d')) ->
  computes e em (mkEmitter (ExecutableByteCode em ++ opcode_bytes op ++ le n z) (DataSection em)
                   (track_push payload (EvalTracker em)) (Loops em)).
Proof.
  intros Hop Hn Hf He Hs; rewrite <- (encode_one op k n z Hop Hn), <- (app_nil_r (DataSection em)).
  apply (load_computes (op, [ONum z]) e payload em [] (fun _ => Ok v)).
  - intros s; apply He.
  - intros later pre rest s _; cbn [fst rbind]; apply Hs, operand_encoded; assumption.
Qed.

Lemma variable_computes slot em em' :
  0 <= slot < 2 ^ 16 -> visit (Variable_ slot) em = Ok em' -> computes (Variable_ slot) em em'.
Proof.
  intros Hs E; cbn [VisitExpression] in E; unfold load_variable, EmitLoadLocal, AppendDataT, AppendData in E.
  emitted E; rewrite <- app_assoc, <- (encode_one OpCode.LOAD_LOCAL KSlot 2 slot eq_refl eq_refl).
  rewrite <- (app_nil_r (DataSection em)).
  apply (load_computes (OpCode.LOAD_LOCAL, [ONum slot]) _ _ em [] (fun s => GetLocal slot (frame s))).
  - reflexivity.
  - intros later pre rest s _; cbn [fst].
    pose proof (operand_encoded OpCode.LOAD_LOCAL KSlot slot pre rest eq_refl Hs) as Ho.
    cbn [absorb_operand] in Ho; unfold simple_result, process_data.
    destruct (AbsorbVariableSlot _) as [x d]; injection Ho as -> ->; reflexivity.
Qed.

(** ** Instructions that replace values *)

Lemma unary_computes e e' i em em1 payload k :
  computes e em em1 -> 0 <= CurrentDepth (EvalTracker em) ->
  (forall f arena, eval f e' arena = abind (eval f e arena) k) ->
  (forall data top pre rest st v s,
     EvalStack (frame s) = v :: st -> fits_stack (Z.of_nat (List.length st) + 1) s ->
     table_below top (internedStrings s) ->
     exists step,
       simple_result type_at data i.1 s (cursor (pre ++ opcode_bytes i.1) (operands_of i ++ rest)) = Some step
       /\ step_answers top st s (cursor (pre ++ encode i) rest) (k v (stringScratch s)) step) ->
  computes e' em (mkEmitter (ExecutableByteCode em1 ++ encode i) (DataSection em1)
                    (track_push payload (track_pop 1 (EvalTracker em1))) (Loops em1)).
Proof.
  intros (c & more & Hcode & Hdata & Hloops & Ht & Hrun) Hd He Hi.
  assert (Ht2 : tracked (1 + - (1) + 1) (EvalTracker em) (track_push payload (track_pop 1 (EvalTracker em1)))).
  { eapply tracked_trans; [|apply track_push_tracked]; eapply tracked_trans; [exact Ht|].
    destruct Ht as (Hc & _ & Hm & _); apply track_pop_tracked; lia. }
  exists (c ++ encode i), more; cbn [ExecutableByteCode DataSection EvalTracker Loops].
  rewrite Hcode at 1; rewrite <- app_assoc.
  refine (conj eq_refl (conj Hdata (conj Hloops (conj Ht2 _)))).
  intros later pre rest s Hpre Hc Hds Hr Hlen Hf Htable; rewrite He, size_app in *.
  assert (Hmax : MaxDepth (EvalTracker em1) <= MaxDepth (track_push payload (track_pop 1 (EvalTracker em1)))).
  { destruct Ht as (Hcd & _ & Hm & _).
    destruct (track_pop_tracked 1 (EvalTracker em1)) as (_ & ? & _); [lia..|].
    destruct (track_push_tracked payload (track_pop 1 (EvalTracker em1))) as (_ & ? & _); lia. }
  pose proof (encode_size i) as Hsize.
  apply (answers_bind _ _ (size (DataSection em1)) _ (EvalStack (frame s)) _ _ _ (cursor (pre ++ c) (encode i ++ rest))).
  - rewrite <- app_assoc; apply Hrun; try assumption; [lia|].
    unfold fits_stack, EntryStride in *; lia.
  - intros v arena t Htb _.
    rewrite (app_assoc pre c (encode i)).
    destruct (Hi (DataSection em1 ++ later) (size (DataSection em1)) (pre ++ c) rest (EvalStack (frame s)) v
                (with_stack (v :: EvalStack (frame s)) arena (interning t s)) eq_refl) as (step & Es & Hstep).
    + destruct Ht2 as (Hcd & _ & Hm & _); unfold fits_stack, EntryStride in *; cbn; lia.
    + exact Htb.
    + exact (answers_step _ _ _ i (pre ++ c) rest _ _ _ step (ready_with_stack _ _ _ (ready_interning t s Hr)) Es Hstep).
Qed.

Lemma binary_computes e lhs rhs i em em1 em2 payload k :
  computes lhs em em1 -> computes rhs em1 em2 -> 0 <= CurrentDepth (EvalTracker em) ->
  (forall f arena, eval f e arena = abind (eval f lhs arena) (fun l arena => abind (eval f rhs arena) (k l))) ->
  (forall data top pre rest st l r s,
     EvalStack (frame s) = r :: l :: st -> fits_stack (Z.of_nat (List.length st) + 1) s ->
     table_below top (internedStrings s) ->
     exists step,
       simple_result type_at data i.1 s (cursor (pre ++ opcode_bytes i.1) (operands_of i ++ rest)) = Some step
       /\ step_answers top st s (cursor (pre ++ encode i) rest) (k l r (stringScratch s)) step) ->
  computes e em (mkEmitter (ExecutableByteCode em2 ++ encode i) (DataSection em2)
                   (track_push payload (track_pop 2 (EvalTracker em2))) (Loops em2)).
Proof.
  intros (c1 & more1 & Hcode1 & Hdata1 & Hloops1 & Ht1 & Hrun1)
    (c2 & more2 & Hcode2 & Hdata2 & Hloops2 & Ht2 & Hrun2) Hd He Hi.
  pose proof (tracked_trans 1 1 _ _ _ Ht1 Ht2) as Ht12.
  pose proof (track_pop_tracked 2 (EvalTracker em2)) as Hpop.
  pose proof (track_push_tracked payload (track_pop 2 (EvalTracker em2))) as Hpush.
  destruct Ht12 as (Hd2 & Hm2 & Hdm2 & Hp2); destruct Hpop as (Hd3 & Hm3 & Hdm3 & Hp3); [lia..|].
  destruct Hpush as (Hd4 & Hm4 & Hdm4 & Hp4).
  exists (c1 ++ c2 ++ encode i), (more1 ++ more2); cbn [ExecutableByteCode DataSection EvalTracker Loops].
  rewrite Hcode2, Hdata2 at 1; rewrite Hcode1, Hdata1 at 1; rewrite <- !app_assoc.
  refine (conj eq_refl (conj eq_refl (conj (eq_trans Hloops2 Hloops1) (conj _ _)))).
  { repeat split; lia || congruence. }
  intros later pre rest s Hpre Hc Hds Hr Hlen Hf Htable.
  pose proof (encode_size i) as Hsize; rewrite size_app in Hc.
  rewrite He, <- !app_assoc, (app_assoc pre), (app_assoc (pre ++ c1)).
  apply (answers_bind _ _ (size (DataSection em1)) _ (EvalStack (frame s)) _ _ _ (cursor (pre ++ c1) (c2 ++ encode i ++ rest))).
  - rewrite Hdata2, <- app_assoc; apply Hrun1; try assumption.
    + rewrite Hcode2, size_app in Hc; unfold size in *; lia.
    + rewrite Hdata2, size_app in Hds; unfold size in *; lia.
    + destruct Ht2 as (_ & ? & _); unfold fits_stack, EntryStride in *; lia.
  - intros l arena1 t1 Ht1b _.
    apply (answers_bind _ _ (size (DataSection em2)) _ (l :: EvalStack (frame s)) _ _ _ (cursor ((pre ++ c1) ++ c2) (encode i ++ rest))).
    + change (eval (frame s) rhs arena1) with (eval (frame (interning t1 s)) rhs arena1).
      rewrite <- (eval_with_stack rhs (l :: EvalStack (frame s)) arena1 (interning t1 s) arena1).
      apply (Hrun2 later (pre ++ c1) (encode i ++ rest) (with_stack (l :: EvalStack (frame s)) arena1 (interning t1 s))).
      * rewrite size_app, Hcode1, size_app; lia.
      * lia.
      * exact Hds.
      * apply ready_with_stack, ready_interning, Hr.
      * destruct Ht1 as (? & _); cbn [with_stack interning frame set_EvalStack EvalStack List.length]; lia.
      * unfold fits_stack, EntryStride in *; cbn; lia.
      * exact Ht1b.
    + intros r arena2 t2 Ht2b _; cbn [with_stack interning frame set_EvalStack EvalStack stringScratch AbortFlag internedStrings].
      destruct (Hi (DataSection em2 ++ later) (size (DataSection em2)) ((pre ++ c1) ++ c2) rest (EvalStack (frame s)) l r
                  (with_stack (r :: l :: EvalStack (frame s)) arena2 (interning t2 s)) eq_refl) as (step & Es & Hstep).
      * unfold fits_stack, EntryStride in *; cbn; lia.
      * exact Ht2b.
      * exact (answers_step _ _ _ i _ rest _ _ _ step (ready_with_stack _ _ _ (ready_interning t2 s Hr)) Es Hstep).
Qed.

(** ** The expressions *)
Lemma string_computes word em em' :
  Forall (fun c => c <> 0 /\ - 2 ^ 31 <= c < 2 ^ 31) word ->
  visit (StringLiteral word) em = Ok em' -> computes (StringLiteral word) em em'.
Proof.
  intros Hw E; cbn [VisitExpression VisitLiteralExpression] in E.
  unfold EmitLoadConstString, AppendDataT in E; emitted E.
  fold (size (DataSection em)); unfold AppendData at 1 2; rewrite <- app_assoc.
  rewrite <- (encode_one OpCode.LOADCONST_STRING KString 8 _ eq_refl eq_refl).
  set (i := (OpCode.LOADCONST_STRING, [ONum (size (DataSection em))])).
  assert (Hpool : forall later, pool_string (AppendDataS (DataSection em) word ++ later) (size (DataSection em)) = Some word)
    by (intros later; apply AppendDataS_pool, Hw).
  unfold AppendDataS in Hpool |- *; unfold AppendData in Hpool |- *.
  assert (Hpos : 0 < size (AppendDataS [] word)) by (unfold AppendDataS, AppendData, size; rewrite flat_map_app, !length_app; cbn; lia).
  apply (load_computes_table i _ _ em _ (fun _ => Ok (VString word)) (cons (size (DataSection em)))); [reflexivity| |].
  { intros t Ht; constructor; [rewrite size_app; unfold AppendDataS, AppendData in Hpos; cbn [app] in Hpos; lia|].
    revert Ht; apply table_below_le; rewrite size_app; unfold size; lia. }
  intros later pre rest s Hd Ht; subst i; cbn [fst rbind].
  pose proof (operand_encoded OpCode.LOADCONST_STRING KString (size (DataSection em)) pre rest eq_refl) as Ho.
  cbn [absorb_operand fits] in Ho; unfold simple_result, process_data, InternString.
  destruct (AbsorbString _) as [x d]; rewrite size_app in Hd; unfold size in Hd, Ho.
  specialize (Ho ltac:(lia)); injection Ho as -> ->; fold (size (DataSection em)); rewrite Hpool.
  replace (existsb (Z.eqb (size (DataSection em))) (internedStrings s)) with false; [reflexivity|].
  symmetry; apply not_true_is_false; rewrite existsb_exists; intros (address & Hin & Heq).
  apply Z.eqb_eq in Heq as <-; unfold table_below in Ht; rewrite List.Forall_forall in Ht; specialize (Ht _ Hin); lia.
Qed.

(** The constants with an operand. *)
Lemma constant_computes literal em em' :
  compilable type_address type_at literal ->
  match literal with
  | CharLiteral _ | NumberLiteral _ None | DoubleLiteral _ => True
  | _ => False
  end ->
  visit literal em = Ok em' -> computes literal em em'.
Proof.
  intros Hc Hl E; destruct literal as [|word|word|value [type|]|bits|b|slot|op d e|op l r|e l r];
    try contradiction; cbn [VisitExpression VisitLiteralExpression] in E;
    unfold EmitLoadConstChar16, EmitLoadConstInt64, EmitLoadConstDouble64, AppendDataT, AppendData in E;
    emitted E; rewrite <- app_assoc.
  - apply (literal_computes _ _ _ KChar 4 _ _ (VChar (hd 0 word))); try reflexivity; [exact Hc|].
    intros data s d d' Ho; cbn [absorb_operand] in Ho; unfold simple_result, process_data.
    destruct (AbsorbChar16 d); injection Ho as -> ->; reflexivity.
  - apply (literal_computes _ _ _ KInt64 8 _ _ (VInt value)); try reflexivity; [apply Hc|].
    intros data s d d' Ho; cbn [absorb_operand] in Ho; unfold simple_result, process_data.
    destruct (AbsorbInt64 d); injection Ho as -> ->; reflexivity.
  - apply (literal_computes _ _ _ KDouble 8 _ _ (VDouble (Double.of_bits bits))); try reflexivity; [exact Hc|].
    intros data s d d' Ho; cbn [absorb_operand] in Ho; unfold simple_result, process_data.
    destruct (AbsorbDouble64 d); injection Ho as -> ->; reflexivity.
Qed.

Lemma null_computes em em' : visit NullLiteral em = Ok em' -> computes NullLiteral em em'.
Proof.
  intros E; cbn [VisitExpression VisitLiteralExpression] in E; unfold EmitLoadConstNull, AppendDataT, AppendData in E.
  emitted E; rewrite <- (encode_none OpCode.LOADCONST_NULL eq_refl), <- (app_nil_r (DataSection em)).
  apply (load_computes (OpCode.LOADCONST_NULL, []) _ _ em [] (fun _ => Ok null_instance)); [reflexivity|].
  intros later pre rest s _; cbn [fst rbind]; rewrite (encode_none OpCode.LOADCONST_NULL eq_refl); reflexivity.
Qed.

Lemma boolean_computes b em em' : visit (BooleanLiteral b) em = Ok em' -> computes (BooleanLiteral b) em em'.
Proof.
  intros E; cbn [VisitExpression VisitLiteralExpression] in E; unfold EmitLoadConstBool, AppendDataT, AppendData in E.
  emitted E; rewrite <- app_assoc, <- (app_nil_r (DataSection em)).
  set (i := (OpCode.LOADCONST_BOOLEAN, [OBool b])).
  replace (opcode_bytes OpCode.LOADCONST_BOOLEAN ++ le 1 (Z.b2z b)) with (encode i)
    by (unfold i, encode; cbn [fst snd layout_operands vm_operands encode_operands encode_operand width]; rewrite app_nil_r; reflexivity).
  apply (load_computes i _ _ em [] (fun _ => Ok (VBool b))); [reflexivity|].
  intros later pre rest s _; subst i; cbn [fst rbind]; unfold simple_result, process_data, operands_of.
  cbn [fst snd layout_operands vm_operands encode_operands].
  pose proof (absorb_encoded KBool (OBool b) (pre ++ opcode_bytes OpCode.LOADCONST_BOOLEAN) rest I) as Ho.
  rewrite app_nil_r; cbn [absorb_operand] in Ho; destruct (AbsorbBoolean _); injection Ho as -> ->.
  unfold encode; cbn [fst snd layout_operands vm_operands encode_operands]; rewrite app_nil_r, <- app_assoc; reflexivity.
Qed.

Lemma cast_computes value type em em' :
  compilable type_address type_at (NumberLiteral value (Some type)) -> 0 <= CurrentDepth (EvalTracker em) ->
  visit (NumberLiteral value (Some type)) em = Ok em' -> computes (NumberLiteral value (Some type)) em em'.
Proof.
  intros (Hv & Ha & Hat) Hd E; cbn [VisitExpression VisitLiteralExpression] in E.
  apply then_Ok in E as (em1 & E1 & E).
  assert (H1 : computes (NumberLiteral value None) em em1).
  { apply constant_computes; [exact (conj Hv I)|exact I|].
    cbn [VisitExpression VisitLiteralExpression]; unfold then_ at 1; rewrite E1; reflexivity. }
  destruct (type =type TypeSymbol.Integer) eqn:Et; cbn [negb] in E.
  - cbn [nothing] in E; apply Ok_inj in E as <-; destruct H1 as (c & more & H1); exists c, more.
    cbn [eval] in H1 |- *; rewrite Et; exact H1.
  - unfold EmitCastPrimitive, AppendDataT, AppendData in E; emitted E.
    rewrite <- app_assoc, <- (encode_one OpCode.CASTPRIMITIVE KPointer 8 _ eq_refl eq_refl).
    eapply (unary_computes (NumberLiteral value None) _ _ em em1 _
      (fun v arena => if ObjectInstance.IsNullInstance v then Throw "Cannot cast null to a primitive type"
                      else x <-? PrimitiveMath.ExecuteCast (Some type) v ;;
                           if ObjectInstance.IsNullInstance x then Throw "Unsupported primitive cast"
                           else Ok (Value x arena))); [exact H1|exact Hd| |].
    + intros f arena; cbn [eval abind rbind]; rewrite Et; reflexivity.
    + intros data top pre rest st v s Hst Hf Htable; eexists; split.
      * pose proof (operand_encoded OpCode.CASTPRIMITIVE KPointer (type_address type) pre rest eq_refl Ha) as Ho.
        cbn [absorb_operand fst] in Ho |- *; unfold simple_result, process_data.
        destruct (AbsorbTypeSymbol _) as [x d]; injection Ho as -> ->.
        unfold PopStack; rewrite Hst, Hat; reflexivity.
      * cbn [rbind]; destruct (ObjectInstance.IsNullInstance v); [reflexivity|].
        destruct (PrimitiveMath.ExecuteCast (Some type) v) as [x| |]; cbn [rbind]; try reflexivity.
        destruct (ObjectInstance.IsNullInstance x); [reflexivity|].
        apply (push_answers top st x s (on_frame (set_EvalStack st (frame s)) s)); auto; exact Hf.
Qed.

(** ** The operators *)

(** The instruction a binary operator is emitted as. *)
Lemma binary_operation_code op operation :
  binary_operation op = Some operation -> IsAssignExpression op = false -> op <> TokenType.NotOperator ->
  exists code, (forall bytes, operation bytes = bytes ++ encode (code, []))
    /\ forall data s d, simple_result type_at data code s d = Some (executeBinary op s d).
Proof.
  intros E Ha Hn; destruct op; try discriminate; try congruence; apply (inj Some) in E as <-;
    unfold EmitMathAdd, EmitMathSub, EmitMathMult, EmitMathDiv, EmitMathMod, EmitMathPow, EmitMathShl,
      EmitMathShr, EmitCompareEqual, EmitCompareNotEqual, EmitCompareGreater, EmitCompareGreaterOrEqual,
      EmitCompareLess, EmitCompareLessOrEqual, EmitLogicalOr, EmitLogicalAnd;
    match goal with
    | |- context [opcode_bytes ?o] =>
        exists o; split; [intros bytes; rewrite (encode_none o eq_refl); reflexivity|reflexivity]
    end.
Qed.

Lemma binary_expression_computes op lhs rhs em em1 em2 em' :
  IsAssignExpression op = false -> op <> TokenType.NotOperator ->
  computes lhs em em1 -> computes rhs em1 em2 -> 0 <= CurrentDepth (EvalTracker em) ->
  EmitBinaryOperation struct_size op em2 = Ok em' -> computes (Binary op lhs rhs) em em'.
Proof.
  intros Ha Hn H1 H2 Hd E; unfold EmitBinaryOperation in E.
  destruct (binary_operation op) as [operation|] eqn:Eop; [|discriminate].
  destruct (binary_operation_code op operation Eop Ha Hn) as (code & Hcode & Hrun).
  replace (op =tt TokenType.AssignOperator) with false in E by (destruct op; reflexivity || discriminate).
  replace (op =tt TokenType.NotOperator) with false in E by (destruct op; reflexivity || congruence).
  assert (Hem : exists payload, em' = mkEmitter (ExecutableByteCode em2 ++ encode (code, [])) (DataSection em2)
                        (track_push payload (track_pop 2 (EvalTracker em2))) (Loops em2)).
  { cbn [negb] in E; destruct (IsLogicalComparisonToken op); emitted E; rewrite Hcode; eexists; reflexivity. }
  destruct Hem as (payload & ->).
  eapply (binary_computes _ lhs rhs (code, []) em em1 em2 payload (binary_meaning op)); try assumption.
  - reflexivity.
  - intros data top pre rest st l r s Hst Hf Htable; eexists; split; [apply Hrun|].
    replace (operands_of (code, [])) with (@nil Z)
      by (unfold operands_of; cbn [fst snd]; destruct (layout_operands code) as [[|]|]; reflexivity).
    cbn [app fst].
    replace (pre ++ encode (code, [])) with (pre ++ opcode_bytes code).
    + apply binary_step; assumption.
    + unfold encode; cbn [fst snd]; destruct (layout_operands code) as [[|]|]; cbn [encode_operands]; rewrite app_nil_r; reflexivity.
Qed.

Lemma unary_expression_computes op right_ operand em em1 em' :
  IsAssignExpression op = false ->
  computes operand em em1 -> 0 <= CurrentDepth (EvalTracker em) ->
  EmitUnaryOperation struct_size op right_ em1 = Ok em' -> computes (Unary op right_ operand) em em'.
Proof.
  intros Ha H1 Hd E; destruct op; try discriminate; cbn [EmitUnaryOperation] in E.
  - cbn [nothing] in E; apply Ok_inj in E as <-; destruct H1 as (c & more & H1); exists c, more.
    destruct H1 as (H1 & H2 & H3 & H4 & Hrun); refine (conj H1 (conj H2 (conj H3 (conj H4 _)))).
    intros later pre rest s Hpre Hc Hds Hr Hlen Hf Htable; specialize (Hrun later pre rest s Hpre Hc Hds Hr Hlen Hf Htable).
    cbn [eval]; destruct (eval (frame s) operand (stringScratch s)) as [[]| |]; exact Hrun.
  - unfold EmitMathNegative in E; emitted E; unfold AppendDataT, AppendData.
    rewrite <- (encode_none OpCode.MATH_NEGATIVE eq_refl).
    eapply (unary_computes operand _ _ em em1 _ (unary_meaning TokenType.SubOperator)); try assumption; [reflexivity|].
    intros data top pre rest st v s Hst Hf Htable; eexists; split; [reflexivity|].
    cbn [fst]; rewrite (encode_none OpCode.MATH_NEGATIVE eq_refl); apply unary_step; try assumption; discriminate.
  - unfold EmitLogicalNot in E; emitted E; unfold AppendDataT, AppendData.
    rewrite <- (encode_none OpCode.LOGICAL_NOT eq_refl).
    eapply (unary_computes operand _ _ em em1 _ (unary_meaning TokenType.NotOperator)); try assumption; [reflexivity|].
    intros data top pre rest st v s Hst Hf Htable; eexists; split; [reflexivity|].
    cbn [fst]; rewrite (encode_none OpCode.LOGICAL_NOT eq_refl); apply unary_step; try assumption; discriminate.
Qed.

(** ** The code only grows *)
Definition grows (m : EmitM) : Prop :=
  forall em em', m em = Ok em' -> size (ExecutableByteCode em) <= size (ExecutableByteCode em').

Lemma grows_then m k : grows m -> grows k -> grows (then_ m k).
Proof. intros Hm Hk em em' E; apply then_Ok in E as (em1 & E1 & E2); apply Hm in E1; apply Hk in E2; lia. Qed.

Lemma grows_emit f : (forall code, exists more, f code = code ++ more) -> grows (emit f).
Proof.
  intros Hf em em' E; apply Ok_inj in E as <-; cbn; destruct (Hf (ExecutableByteCode em)) as (more & ->).
  rewrite size_app; unfold size; lia.
Qed.

Lemma grows_track f : grows (track f).
Proof. intros em em' E; apply Ok_inj in E as <-; cbn; lia. Qed.

Lemma grows_nothing : grows nothing.
Proof. intros em em' E; apply Ok_inj in E as <-; lia. Qed.

Lemma grows_throw message : grows (fun _ => Throw message).
Proof. discriminate. Qed.

Lemma grows_ub : grows (fun _ => UB).
Proof. discriminate. Qed.

Lemma grows_here k : (forall address, 0 <= address -> grows (k address)) -> grows (here k).
Proof. intros Hk em em'; apply Hk; unfold size; lia. Qed.

Lemma grows_at_depth k : (forall depth, grows (k depth)) -> grows (at_depth k).
Proof. intros Hk em em'; apply Hk. Qed.

Lemma PasteData_size code at_ data code' :
  0 <= at_ -> PasteData code at_ data = Ok code' -> size code' = size code.
Proof.
  unfold PasteData, size; intros Ha; destruct (_ <? _); [discriminate|].
  destruct (Z.leb_spec (at_ + Z.of_nat (List.length data)) (Z.of_nat (List.length code))); [|discriminate].
  intros E; apply Ok_inj in E as <-; rewrite !length_app, length_firstn, length_skipn; lia.
Qed.

Lemma grows_patch backtrack target : 0 <= backtrack -> grows (patch backtrack target).
Proof.
  intros Hb em em' E; unfold patch in E; apply rbind_Ok in E as (code & E1 & E); apply Ok_inj in E as <-; cbn.
  apply PasteData_size in E1; lia.
Qed.

Lemma grows_string word : grows (fun e =>
  let (code, data) := EmitLoadConstString (ExecutableByteCode e) (DataSection e) word in
  Ok (mkEmitter code data (EvalTracker e) (Loops e))).
Proof.
  intros em em' E; unfold EmitLoadConstString, AppendDataT, AppendData in E; apply Ok_inj in E as <-.
  cbn [ExecutableByteCode]; rewrite !size_app; unfold size; lia.
Qed.

Ltac grow :=
  repeat first
    [ assumption | apply grows_nothing | apply grows_throw | apply grows_ub | apply grows_track
    | apply grows_string
    | apply grows_then | apply grows_at_depth; intros ?
    | apply grows_here; intros ? ? | apply grows_patch; assumption
    | apply grows_emit; intros ?; cbv beta delta -[app le opcode_bytes hd Z.b2z];
      rewrite <- ?app_assoc; eexists; reflexivity ].

Lemma unary_operation_grows op right_ : grows (EmitUnaryOperation struct_size op right_).
Proof. destruct op; cbn [EmitUnaryOperation]; unfold emit_step; try destruct right_; grow. Qed.

Lemma binary_operation_grows op : grows (EmitBinaryOperation struct_size op).
Proof.
  unfold EmitBinaryOperation; destruct (binary_operation op) as [operation|] eqn:E; [|grow].
  destruct (negb _), (op =tt TokenType.NotOperator), (IsLogicalComparisonToken op);
    (apply grows_then; [apply grows_emit; destruct op; try discriminate; apply (inj Some) in E as <-;
       intros code; (exists []; symmetry; apply app_nil_r) || (eexists; reflexivity)|grow]).
Qed.

Lemma visit_grows e : grows (visit e).
Proof.
  induction e as [|word|word|value type|bits|b|slot|op right_ e IH|op lhs IHl rhs IHr|e IH lhs IHl rhs IHr];
    cbn [VisitExpression VisitLiteralExpression]; unfold VisitTernaryExpression, VisitUnaryExpression,
      VisitBinaryExpression, VisitUnaryAssignExpression, VisitBinaryAssignExpression, load_variable, store_variable.
  all: try solve [grow].
  - grow; destruct type as [type|]; [destruct (negb _)|]; grow.
  - destruct (IsAssignExpression op); [destruct e|];
      repeat first [apply unary_operation_grows | progress grow].
  - destruct (IsAssignExpression op); [destruct lhs|];
      repeat first [apply binary_operation_grows | progress grow].
Qed.

(** ** The conditional expression *)
Lemma answers_then data top st s d d1 d2 r :
  answers type_at data top st s d d1 r ->
  (forall v arena t, reaches type_at data (with_stack (v :: st) arena (interning t s)) d1 (with_stack (v :: st) arena (interning t s)) d2) ->
  answers type_at data top st s d d2 r.
Proof.
  destruct r as [[v arena| |]| |]; cbn; intros H1 H2; try assumption.
  destruct H1 as (t & Ht & H1); exists t; split; [exact Ht|]; eapply reaches_trans; [exact H1|apply H2].
Qed.

Lemma answers_mono data top top' st s d d' r : top <= top' ->
  answers type_at data top st s d d' r -> answers type_at data top' st s d d' r.
Proof.
  intros Hle; destruct r as [[v arena| |]| |]; cbn; auto.
  intros (t & Ht & H1); exists t; split; [exact (table_below_le _ _ _ Hle Ht)|exact H1].
Qed.

Lemma signed_small z : 0 <= z < 2 ^ 63 -> signed 64 z = z.
Proof. intros Hz; unfold signed; destruct (Z.ltb_spec z (2 ^ (64 - 1))); cbn in *; lia. Qed.

(** A jump between two positions of the code. *)
Lemma SetCursor_cursor pre c rest target :
  0 <= target <= size (pre ++ c ++ rest) -> target = size (pre ++ c) ->
  forall at_, SetCursor target (mkDecoder (pre ++ c ++ rest) at_) = Ok (cursor (pre ++ c) rest).
Proof.
  intros Ht -> at_; unfold SetCursor, cursor; cbn [code_].
  destruct (Z.ltb_spec (size (pre ++ c)) 0); [lia|].
  destruct (Z.ltb_spec (size (pre ++ c ++ rest)) (size (pre ++ c))); [lia|].
  rewrite <- app_assoc; reflexivity.
Qed.

Lemma jump_reaches data s pre skipped rest target :
  ready s -> target = size (pre ++ encode (OpCode.JUMP, [ONum target]) ++ skipped) -> target < 2 ^ 63 ->
  reaches type_at data s
    (cursor pre (encode (OpCode.JUMP, [ONum target]) ++ skipped ++ rest)) s
    (cursor (pre ++ encode (OpCode.JUMP, [ONum target]) ++ skipped) rest).
Proof.
  intros Hr Ht Hmax; assert (Hpos : 0 <= target) by (rewrite Ht; unfold size; lia).
  apply (step_next type_at data (OpCode.JUMP, [ONum target]) pre (skipped ++ rest) s s _ Hr).
  pose proof (operand_encoded OpCode.JUMP KJump target pre (skipped ++ rest) eq_refl) as Ho.
  cbn [absorb_operand fst fits] in Ho |- *; specialize (Ho ltac:(lia)).
  unfold simple_result, process_data, operator_token, process_control.
  destruct (AbsorbJump _) as [x d]; injection Ho as -> ->; rewrite signed_small by lia.
  unfold cursor at 1; rewrite <- app_assoc, (app_assoc _ skipped).
  rewrite (SetCursor_cursor pre _ rest target); [reflexivity| |exact Ht].
  rewrite app_assoc, size_app, <- Ht; unfold size; lia.
Qed.

(** [JUMP_FALSE] on a value. *)
Lemma jump_false_step data v st s pre skipped rest target :
  EvalStack (frame s) = v :: st -> target = size (pre ++ encode (OpCode.JUMP_FALSE, [ONum target]) ++ skipped) ->
  target < 2 ^ 63 ->
  let i := (OpCode.JUMP_FALSE, [ONum target]) in
  simple_result type_at data i.1 s (cursor (pre ++ opcode_bytes i.1) (operands_of i ++ skipped ++ rest))
  = Some (b <-? ObjectInstance.AsBoolean v ;;
          Ok (Next (with_stack st (stringScratch s) s)
                (if b : bool then cursor (pre ++ encode i) (skipped ++ rest)
                 else cursor (pre ++ encode i ++ skipped) rest))).
Proof.
  intros Hst Ht Hmax; assert (Hpos : 0 <= target) by (rewrite Ht; unfold size; lia).
  pose proof (operand_encoded OpCode.JUMP_FALSE KJump target pre (skipped ++ rest) eq_refl) as Ho.
  cbn [absorb_operand fst fits] in Ho |- *; specialize (Ho ltac:(lia)).
  unfold simple_result, process_data, operator_token, process_control, conditional_jump.
  destruct (AbsorbJump _) as [x d]; injection Ho as -> ->; rewrite signed_small by lia.
  unfold PopStack; rewrite Hst; cbn [rbind].
  destruct (ObjectInstance.AsBoolean v) as [[]| |]; cbn [rbind Bool.eqb]; try reflexivity.
  unfold cursor at 1; rewrite <- app_assoc, (app_assoc _ skipped).
  rewrite (SetCursor_cursor pre _ rest target); [reflexivity| |exact Ht].
  rewrite app_assoc, size_app, <- Ht; unfold size; lia.
Qed.

Lemma ternary_runs data mid top s pre c1 c2 c3 rest right_ end_ condition (lhs rhs : PrimitiveMath.Arena -> result Answer) :
  let st := EvalStack (frame s) in
  let a := encode (OpCode.JUMP_FALSE, [ONum right_]) in
  let b := encode (OpCode.JUMP, [ONum end_]) in
  ready s -> right_ = size (pre ++ c1 ++ a ++ c2 ++ b) -> end_ = size (pre ++ c1 ++ a ++ c2 ++ b ++ c3) ->
  end_ < 2 ^ 63 ->
  answers type_at data mid st s (cursor pre (c1 ++ a ++ c2 ++ b ++ c3 ++ rest))
    (cursor (pre ++ c1) (a ++ c2 ++ b ++ c3 ++ rest)) condition ->
  (forall arena t, table_below mid t -> answers type_at data top st (with_stack st arena (interning t s))
     (cursor (pre ++ c1 ++ a) (c2 ++ b ++ c3 ++ rest)) (cursor (pre ++ c1 ++ a ++ c2) (b ++ c3 ++ rest)) (lhs arena)) ->
  (forall arena t, table_below mid t -> answers type_at data top st (with_stack st arena (interning t s))
     (cursor (pre ++ c1 ++ a ++ c2 ++ b) (c3 ++ rest)) (cursor (pre ++ c1 ++ a ++ c2 ++ b ++ c3) rest) (rhs arena)) ->
  answers type_at data top st s (cursor pre (c1 ++ a ++ c2 ++ b ++ c3 ++ rest))
    (cursor (pre ++ c1 ++ a ++ c2 ++ b ++ c3) rest)
    (abind condition (fun c arena =>
       x <-? ObjectInstance.AsBoolean c ;; if x : bool then lhs arena else rhs arena)).
Proof.
  intros st a b Hr Hright Hend Hmax H1 H2 H3.
  apply (answers_bind _ _ mid top st st s _ _ _ _ _ H1); intros v arena t Ht _.
  pose proof (jump_false_step data v st (with_stack (v :: st) arena (interning t s)) (pre ++ c1) (c2 ++ b) (c3 ++ rest)
    right_ eq_refl) as Hj.
  rewrite <- !app_assoc in Hj; specialize (Hj Hright).
  assert (Hlt : right_ < 2 ^ 63) by (rewrite Hend, !app_assoc, size_app in Hmax; rewrite Hright, !app_assoc;
    unfold size in *; lia).
  specialize (Hj Hlt); cbv zeta in Hj.
  pose proof (ready_with_stack (v :: st) arena _ (ready_interning t s Hr)) as Hrv.
  destruct (ObjectInstance.AsBoolean v) as [[]|m|]; cbn [rbind] in Hj |- *;
    rewrite <- !app_assoc in Hj.
  - eapply (answers_after _ _ top st (with_stack (v :: st) arena (interning t s)) _ (with_stack st arena (interning t s))).
    + apply (step_next _ _ (OpCode.JUMP_FALSE, [ONum right_]) (pre ++ c1)); [exact Hrv|].
      rewrite <- !app_assoc; exact Hj.
    + reflexivity.
    + refine (answers_then _ top st _ _ _ _ _ (H2 arena t Ht) _); intros v' arena' t'.
      pose proof (jump_reaches data (with_stack (v' :: st) arena' (interning t' s)) (pre ++ c1 ++ a ++ c2) c3 rest end_) as Hb.
      rewrite <- !app_assoc in Hb; exact (Hb (ready_with_stack _ _ _ (ready_interning t' s Hr)) Hend Hmax).
  - eapply (answers_after _ _ top st (with_stack (v :: st) arena (interning t s)) _ (with_stack st arena (interning t s))).
    + apply (step_next _ _ (OpCode.JUMP_FALSE, [ONum right_]) (pre ++ c1)); [exact Hrv|].
      rewrite <- !app_assoc; exact Hj.
    + reflexivity.
    + apply H3, Ht.
  - apply (step_ends _ _ (OpCode.JUMP_FALSE, [ONum right_]) (pre ++ c1) _ _ (Throw m) Hrv); [|exact I].
    rewrite <- !app_assoc; exact Hj.
  - apply (step_ends _ _ (OpCode.JUMP_FALSE, [ONum right_]) (pre ++ c1) _ _ UB Hrv); [|exact I].
    rewrite <- !app_assoc; exact Hj.
Qed.

Lemma patch_jump op before after old target em em' :
  layout_operands op = Some [KJump] -> ExecutableByteCode em = before ++ encode (op, [ONum old]) ++ after ->
  size (ExecutableByteCode em) < 2 ^ 64 ->
  patch (size before) target em = Ok em' ->
  em' = mkEmitter (before ++ encode (op, [ONum target]) ++ after) (DataSection em) (EvalTracker em) (Loops em).
Proof.
  intros Hop Hcode Hsize E; unfold patch in E; rewrite Hcode in *.
  rewrite (PasteData_jump op before after old target Hop Hsize) in E; apply Ok_inj in E; symmetry; exact E.
Qed.

(** The five pieces of the code of a conditional expression. *)
Lemma ternary_emitted condition lhs rhs em em' :
  visit (Ternary condition lhs rhs) em = Ok em' ->
  exists em1 em3 em5,
    visit condition em = Ok em1
    /\ (let JF := encode (OpCode.JUMP_FALSE, [ONum 0]) in
        visit lhs (mkEmitter (ExecutableByteCode em1 ++ JF) (DataSection em1)
                     (track_pop 1 (EvalTracker em1)) (Loops em1)) = Ok em3)
    /\ (let t := EvalTracker em3 in
        visit rhs (mkEmitter (ExecutableByteCode em3 ++ encode (OpCode.JUMP, [ONum 0])) (DataSection em3)
                     (mkTracker (CurrentDepth (track_pop 1 (EvalTracker em1))) (MaxDepth t) (MaxPayload t) (Poisoned t))
                     (Loops em3)) = Ok em5)
    /\ (patch (size (ExecutableByteCode em1)) (size (ExecutableByteCode em3 ++ encode (OpCode.JUMP, [ONum 0])))
        >> patch (size (ExecutableByteCode em3)) (size (ExecutableByteCode em5))) em5 = Ok em'.
Proof.
  intros E; cbn [VisitExpression] in E; unfold VisitTernaryExpression in E.
  apply then_Ok in E as (em1 & E1 & E); unfold here at 1 in E; apply then_Ok in E as (em2' & E2 & E); unfold EmitJumpFalse, AppendDataT, AppendData in E2.
  unfold at_depth in E; apply then_Ok in E as (em3 & E3 & E).
  unfold here at 1 in E; apply then_Ok in E as (em4 & E4 & E).
  unfold here at 1 in E; apply then_Ok in E as (em5 & E5 & E); unfold here in E.
  unfold set_depth, EmitJump, AppendDataT, AppendData in E4.
  cbn [then_ emit track EvalPop rbind ExecutableByteCode DataSection EvalTracker Loops] in E2, E4.
  apply Ok_inj in E2, E4; subst em2' em4.
  exists em1, em3, em5; rewrite (encode_one OpCode.JUMP_FALSE KJump 8 0 eq_refl eq_refl),
    (encode_one OpCode.JUMP KJump 8 0 eq_refl eq_refl).
  cbn [ExecutableByteCode DataSection EvalTracker Loops] in *; rewrite <- !app_assoc in *.
  split; [exact E1|split; [exact E3|split; [exact E5|exact E]]].
Qed.

Lemma encode_jump_size op z : layout_operands op = Some [KJump] -> size (encode (op, [ONum z])) = 10.
Proof.
  intros Hop; rewrite (encode_one op KJump 8 z Hop eq_refl), size_app, size_le.
  unfold opcode_bytes; rewrite size_le; reflexivity.
Qed.

(** The code after the jumps have been patched. *)
Lemma ternary_patched C c1 c2 c3 em1code em3code em5 em' :
  let JF z := encode (OpCode.JUMP_FALSE, [ONum z]) in
  let J z := encode (OpCode.JUMP, [ONum z]) in
  em1code = C ++ c1 -> em3code = C ++ c1 ++ JF 0 ++ c2 ->
  ExecutableByteCode em5 = C ++ c1 ++ JF 0 ++ c2 ++ J 0 ++ c3 ->
  size (ExecutableByteCode em5) < 2 ^ 63 ->
  (patch (size em1code) (size (em3code ++ J 0)) >> patch (size em3code) (size (ExecutableByteCode em5))) em5 = Ok em' ->
  exists right_ end_,
    right_ = size C + (size c1 + 10 + size c2 + 10) /\ end_ = right_ + size c3
    /\ end_ = size (ExecutableByteCode em5)
    /\ em' = mkEmitter (C ++ c1 ++ JF right_ ++ c2 ++ J end_ ++ c3) (DataSection em5) (EvalTracker em5) (Loops em5).
Proof.
  intros JF J H1 H3 H5 Hsize E; apply then_Ok in E as (em6 & E6 & E).
  assert (HJF : forall z, size (JF z) = 10) by (intros z; apply encode_jump_size; reflexivity).
  assert (HJ : forall z, size (J z) = 10) by (intros z; apply encode_jump_size; reflexivity).
  exists (size (em3code ++ J 0)), (size (ExecutableByteCode em5)).
  assert (Hright : size (em3code ++ J 0) = size C + (size c1 + 10 + size c2 + 10))
    by (rewrite H3, !size_app, HJF, HJ; lia).
  assert (Hend : size (ExecutableByteCode em5) = size (em3code ++ J 0) + size c3)
    by (rewrite Hright, H5, !size_app, HJF, HJ; lia).
  split; [exact Hright|split; [exact Hend|split; [reflexivity|]]].
  apply (patch_jump OpCode.JUMP_FALSE em1code (c2 ++ J 0 ++ c3) 0) in E6;
    [|reflexivity|rewrite H5, H1, <- app_assoc; reflexivity|lia].
  subst em6; replace (size em3code) with (size (em1code ++ JF (size (em3code ++ J 0)) ++ c2)) in E
    by (rewrite H1, H3, !size_app, !HJF; lia).
  apply (patch_jump OpCode.JUMP _ c3 0) in E.
  - subst em'; cbn [ExecutableByteCode DataSection EvalTracker Loops]; rewrite H1, <- !app_assoc; reflexivity.
  - reflexivity.
  - cbn [ExecutableByteCode]; rewrite <- !app_assoc; reflexivity.
  - cbn [ExecutableByteCode]; rewrite !size_app, (encode_jump_size OpCode.JUMP_FALSE) by reflexivity.
    rewrite HJ; rewrite H5, !size_app, HJF, HJ in Hsize.
    rewrite H1, size_app; lia.
Qed.

Lemma ternary_computes condition lhs rhs em em' :
  (forall em em', visit condition em = Ok em' -> 0 <= CurrentDepth (EvalTracker em) ->
     size (ExecutableByteCode em') < 2 ^ 63 -> computes condition em em') ->
  (forall em em', visit lhs em = Ok em' -> 0 <= CurrentDepth (EvalTracker em) ->
     size (ExecutableByteCode em') < 2 ^ 63 -> computes lhs em em') ->
  (forall em em', visit rhs em = Ok em' -> 0 <= CurrentDepth (EvalTracker em) ->
     size (ExecutableByteCode em') < 2 ^ 63 -> computes rhs em em') ->
  visit (Ternary condition lhs rhs) em = Ok em' -> 0 <= CurrentDepth (EvalTracker em) ->
  size (ExecutableByteCode em') < 2 ^ 63 -> computes (Ternary condition lhs rhs) em em'.
Proof.
  intros IH1 IH2 IH3 E Hd Hsize; apply ternary_emitted in E as (em1 & em3 & em5 & E1 & E2 & E3 & E).
  cbv zeta in E2, E3; set (t1 := track_pop 1 (EvalTracker em1)) in *.
  assert (Hs5 : size (ExecutableByteCode em5) <= size (ExecutableByteCode em')).
  { revert E; apply grows_then; apply grows_patch; unfold size; lia. }
  pose proof (visit_grows _ _ _ E2) as Hg2; pose proof (visit_grows _ _ _ E3) as Hg3.
  cbn [ExecutableByteCode] in Hg2, Hg3; rewrite size_app, encode_jump_size in Hg2, Hg3 by reflexivity.
  destruct (IH1 _ _ E1 Hd) as (c1 & more1 & Hc1 & Hm1 & Hl1 & Ht1 & Hrun1); [lia|].
  assert (Hp1 : tracked (-1) (EvalTracker em1) t1) by (destruct Ht1 as (? & _ & ? & _); apply track_pop_tracked; lia).
  pose proof (tracked_trans _ _ _ _ _ Ht1 Hp1) as Ht01; clear Hp1.
  destruct (IH2 _ _ E2) as (c2 & more2 & Hc2 & Hm2 & Hl2 & Ht2 & Hrun2);
    [cbn [EvalTracker]; destruct Ht01 as (? & _); lia|lia|].
  destruct (IH3 _ _ E3) as (c3 & more3 & Hc3 & Hm3 & Hl3 & Ht3 & Hrun3);
    [cbn [EvalTracker CurrentDepth]; destruct Ht01 as (? & _); lia|lia|].
  cbn [ExecutableByteCode DataSection EvalTracker Loops] in *.
  rewrite Hc2, Hc1, <- !app_assoc in Hc3; rewrite Hc1, <- !app_assoc in Hc2.
  apply (ternary_patched (ExecutableByteCode em) c1 c2 c3) in E as (right_ & end_ & Hright & Hend & Hend5 & ->);
    [|exact Hc1|exact Hc2|exact Hc3|lia].
  set (a := encode (OpCode.JUMP_FALSE, [ONum right_])); set (b := encode (OpCode.JUMP, [ONum end_])).
  exists (c1 ++ a ++ c2 ++ b ++ c3), (more1 ++ more2 ++ more3).
  cbn [ExecutableByteCode DataSection EvalTracker Loops] in *.
  assert (Ha : size a = 10) by (apply encode_jump_size; reflexivity).
  assert (Hb : size b = 10) by (apply encode_jump_size; reflexivity).
  unfold tracked in *; cbn [CurrentDepth MaxDepth Poisoned] in *.
  refine (conj eq_refl (conj _ (conj _ (conj _ _)))).
  { rewrite Hm3, Hm2, Hm1, <- !app_assoc; reflexivity. }
  { congruence. }
  { repeat split; try lia; destruct Ht01 as (_ & _ & _ & ?), Ht2 as (_ & _ & _ & ?), Ht3 as (_ & _ & _ & ?); congruence. }
  intros later pre rest s Hpre _ Hds Hr Hlen Hf Htable; cbn [eval]; rewrite <- !app_assoc.
  assert (Hm0 : MaxDepth (EvalTracker em1) <= MaxDepth (EvalTracker em5)
                /\ MaxDepth (EvalTracker em3) <= MaxDepth (EvalTracker em5)).
  { assert (MaxDepth (EvalTracker em1) <= MaxDepth t1) by (unfold t1, track_pop; destruct (_ <? _); cbn; lia). lia. }
  assert (Hfits : forall n, n <= MaxDepth (EvalTracker em5) -> fits_stack n s) by (unfold fits_stack, EntryStride in *; lia).
  assert (Hdata : size (DataSection em1) <= size (DataSection em5) /\ size (DataSection em3) <= size (DataSection em5))
    by (rewrite Hm3, Hm2, !size_app; unfold size; lia).
  refine (ternary_runs _ (size (DataSection em1)) _ s pre c1 c2 c3 rest right_ end_ _ (fun arena => eval (frame s) lhs arena)
            (fun arena => eval (frame s) rhs arena) Hr _ _ _ _ _ _); fold a b.
  - rewrite !size_app; lia.
  - rewrite !size_app; lia.
  - lia.
  - rewrite Hm3, Hm2, <- !app_assoc; apply Hrun1; try assumption; [lia|lia|apply Hfits; lia].
  - intros arena t Ht; apply (answers_mono _ (size (DataSection em3))); [lia|]; rewrite Hm3, <- app_assoc.
    change (eval (frame s) lhs arena) with (eval (frame (interning t s)) lhs arena).
    rewrite <- (eval_with_stack lhs (EvalStack (frame s)) arena (interning t s) arena).
    replace (pre ++ c1 ++ a ++ c2) with ((pre ++ c1 ++ a) ++ c2) by (rewrite <- !app_assoc; reflexivity).
    apply (Hrun2 (more3 ++ later) _ _ (with_stack (EvalStack (frame s)) arena (interning t s)));
      [rewrite Hc1, !size_app, encode_jump_size by reflexivity; lia|lia|lia|apply ready_with_stack, ready_interning, Hr|
       cbn [with_stack interning frame set_EvalStack EvalStack]; lia|apply Hfits; lia|exact Ht].
  - intros arena t Ht; change (eval (frame s) rhs arena) with (eval (frame (interning t s)) rhs arena).
    rewrite <- (eval_with_stack rhs (EvalStack (frame s)) arena (interning t s) arena).
    replace (pre ++ c1 ++ a ++ c2 ++ b ++ c3) with ((pre ++ c1 ++ a ++ c2 ++ b) ++ c3)
      by (rewrite <- !app_assoc; reflexivity).
    apply (Hrun3 later _ _ (with_stack (EvalStack (frame s)) arena (interning t s)));
      [rewrite Hc2, !size_app, !encode_jump_size by reflexivity; lia|lia|lia|apply ready_with_stack, ready_interning, Hr|
       cbn [with_stack interning frame set_EvalStack EvalStack]; lia|apply Hfits; lia|
       revert Ht; apply table_below_le; rewrite Hm2, size_app; unfold size; lia].
Qed.

(** ** Every expression *)
Lemma visit_computes e : forall em em',
  compilable type_address type_at e -> visit e em = Ok em' -> 0 <= CurrentDepth (EvalTracker em) ->
  size (ExecutableByteCode em') < 2 ^ 63 -> computes e em em'.
Proof.
  induction e as [|word|word|value type|bits|b|slot|op right_ e IH|op lhs IHl rhs IHr|e IH lhs IHl rhs IHr];
    intros em em' Hc E Hd Hsize.
  - apply null_computes, E.
  - apply constant_computes; [exact Hc|exact I|exact E].
  - apply string_computes; [exact Hc|exact E].
  - destruct type; [apply cast_computes; assumption|apply constant_computes; [exact Hc|exact I|exact E]].
  - apply constant_computes; [exact Hc|exact I|exact E].
  - apply boolean_computes, E.
  - apply variable_computes; assumption.
  - destruct Hc as (Ha & Hc); cbn [VisitExpression] in E; rewrite Ha in E; apply then_Ok in E as (em1 & E1 & E2).
    pose proof (unary_operation_grows op right_ em1 em' E2); apply (unary_expression_computes op right_ e em em1);
      try assumption; apply IH; assumption || lia.
  - destruct Hc as (Ha & Hn & Hcl & Hcr); cbn [VisitExpression] in E; rewrite Ha in E.
    apply then_Ok in E as (em2 & E & E3); apply then_Ok in E as (em1 & E1 & E2).
    pose proof (binary_operation_grows op em2 em' E3); pose proof (visit_grows rhs em1 em2 E2).
    assert (Hl : computes lhs em em1) by (apply IHl; assumption || lia).
    apply (binary_expression_computes op lhs rhs em em1 em2); try assumption.
    destruct Hl as (_ & _ & _ & _ & _ & (? & _) & _); apply IHr; assumption || lia.
  - destruct Hc as (Hc1 & Hc2 & Hc3); apply ternary_computes; auto.
Qed.
End Compiling.
