(* ===== verification/MachineSpec.v ===== *)
(** * Properties of the virtual machine and of the code it is given

    The code of an expression computes its meaning ([expression_compiled]); what methods
    built from it return and store; the operators at their edges; and the way of an
    exception through the deferred expressions to its handler. *)
From Stdlib Require Import ZArith Lia Bool List String.
From stdpp Require Import base list.
From S2P Require Import Prelude Tokens ByteCode ByteCodeFacts ByteCodeSpec Values PrimMath Machine MachineFacts Emit EmitFacts.
Import ListNotations ByteCodeEncoder ByteCodeDecoder CallStackFrame VirtualMachine Emiter.
Open Scope Z_scope.
Open Scope shard_scope.

(** ** Methods *)
Section Methods.
Context `{MathLibrary}.
Variable type_at : Z -> option TypeSymbol.
Variable data : bytes.

(** The body of a method from the run of its code. *)
Lemma InvokeBody_ends code s r :
  AbortFlag s = false -> ends type_at data s (mkDecoder code 0) r ->
  exists n, forall k, InvokeBody type_at data (n + k) code s =
    fbind (Some r) (fun o =>
      match o with
      | Finished s =>
          Some (f <-? DrainEvalReferences (set_InterruptionReason EndOfInstructions (frame s)) ;;
                Ok (Finished (on_frame f s)))
      | Stopped r => done (Stopped r)
      end).
Proof.
  intros Ha (n & Hn); exists n; intros k; unfold InvokeBody; rewrite Ha, Hn; reflexivity.
Qed.

Lemma finished_ends s d :
  ready s -> IsEOF d = true ->
  ends type_at data s d (Ok (Finished (on_frame (set_InterruptionReason EndOfInstructions (frame s)) s))).
Proof.
  intros [Ha Hr] Hd; exists 1%nat; intros k; cbn [Nat.add run_body]; rewrite Ha, Hr, Hd; reflexivity.
Qed.

Lemma returned_ends s d :
  AbortFlag s = false -> InterruptionReason (frame s) = ValueReturned -> IsEOF d = true ->
  ends type_at data s d (Ok (Finished s)).
Proof.
  intros Ha Hr Hd; exists 1%nat; intros k; cbn [Nat.add run_body]; rewrite Ha, Hr, Hd; reflexivity.
Qed.

Lemma IsEOF_Return d : IsEOF (Return d) = true.
Proof. apply Z.leb_refl. Qed.

(** [RETURN] in a method without a value. *)
Lemma return_ends s pre rest :
  ready s -> ReturnType (frame s) = TypeSymbol.Void ->
  ends type_at data s (cursor pre (encode (OpCode.RETURN, []) ++ rest))
    (Ok (Finished (on_frame (set_InterruptionReason EndOfInstructions (frame s)) s))).
Proof.
  intros Hr Ht; eapply reaches_ends; [|apply finished_ends; [exact Hr|apply IsEOF_Return]].
  apply step_next; [exact Hr|]; unfold simple_result, process_data, operator_token, process_control; cbn [fst].
  rewrite Ht; cbn [TypeSymbol.eqb negb rbind]; destruct s as [[] ? ? ?]; reflexivity.
Qed.

(** [RETURN] in a method with a value places the return slot itself. *)
Lemma return_value_ends s pre rest :
  ready s -> ReturnType (frame s) <> TypeSymbol.Void ->
  ObjectInstance.shape_type (ReturnSlot (frame s)) = Some (ReturnType (frame s)) ->
  ends type_at data s (cursor pre (encode (OpCode.RETURN, []) ++ rest))
    (Ok (Finished (on_frame (set_InterruptionReason ValueReturned (frame s)) s))).
Proof.
  intros Hr Ht Hs; eapply reaches_ends; [|apply returned_ends; [| |apply IsEOF_Return]].
  - apply step_next; [exact Hr|]; unfold simple_result, process_data, operator_token, process_control; cbn [fst].
    destruct (ReturnType (frame s) =type TypeSymbol.Void) eqn:E; [apply TypeSymbol.eqb_eq in E; contradiction|].
    unfold ReturnView, PlaceReturned; rewrite E; cbn [negb rbind]; destruct Hr as [Ha Hr]; rewrite Hr; cbn [reason_eqb].
    rewrite Hs, (proj2 (TypeSymbol.eqb_eq _ _) eq_refl); reflexivity.
  - apply Hr.
  - reflexivity.
Qed.

Lemma cleared_shape type : ObjectInstance.shape_type (cleared type) = Some type.
Proof. destruct type; reflexivity. Qed.

(** A stored value. *)
Lemma store_reaches slot v st s f pre rest :
  0 <= slot < 2 ^ 16 -> ready s -> EvalStack (frame s) = v :: st ->
  SetLocal slot v (set_EvalStack st (frame s)) = Ok f ->
  reaches type_at data s (cursor pre (encode (OpCode.STORE_LOCAL, [ONum slot]) ++ rest))
    (on_frame f s) (cursor (pre ++ encode (OpCode.STORE_LOCAL, [ONum slot])) rest).
Proof.
  intros Hs Hr Hst Hf; apply step_next; [exact Hr|]; cbn [fst].
  pose proof (operand_encoded OpCode.STORE_LOCAL KSlot slot pre rest eq_refl Hs) as Ho.
  cbn [absorb_operand] in Ho; unfold simple_result, process_data.
  destruct (AbsorbVariableSlot _) as [x d]; injection Ho as -> ->.
  unfold PopStack; rewrite Hst; cbn [rbind]; rewrite Hf; reflexivity.
Qed.
End Methods.

(** The evaluation region of a published layout holds the tracked maximum. *)
Lemma Align_ge value : 8 <= value -> 8 <= Align value.
Proof.
  intros Hv; unfold Align; change (Z.lnot (8 - 1)) with (Z.lnot (Z.ones 3)).
  rewrite <- Z.ldiff_land, Z.ldiff_ones_r, Z.shiftl_mul_pow2, Z.shiftr_div_pow2 by lia.
  pose proof (Z.div_le_lower_bound (value + 8 - 1) (2 ^ 3) 1); lia.
Qed.

Lemma published_fits ret slots layout t :
  Poisoned t = false -> EntryStride * MaxDepth t <= EvalCapacityBytes (Create ret slots (PublishLayout layout t)).
Proof.
  intros Hp; unfold PublishLayout; rewrite Hp; unfold Create, eval_capacity, eval_entries, EntryStride.
  cbn [EvalCapacityBytes IsComplete MaxEvalDepth EvalSlotPayload].
  match goal with |- context [Align ?x] => pose proof (Align_ge x) end; nia.
Qed.

(** A frame, as [InvokeMethod] creates it. *)
Definition entered (ret : TypeSymbol) (slots : list (option TypeSymbol)) (layout : FrameLayout)
    (arena : PrimitiveMath.Arena) : State :=
  mkState (Create ret slots layout) arena false [].

Section Compiled.
Context `{MathLibrary}.
Variable type_address : TypeSymbol -> Z.
Variable struct_size : nat -> Z.
Variable slots : list (option TypeSymbol).
Variable type_at : Z -> option TypeSymbol.

Abbreviation visit := (VisitExpression type_address struct_size slots).
Abbreviation method := (VisitMethodDeclaration type_address struct_size slots).

(** ** Bodies of one statement *)

(** The statements that store the value of an expression in a slot. *)
Definition stores (statement : Statement) (slot : Z) (e : Expression) : Prop :=
  statement = VariableStatement slot e
  \/ exists op, IsAssignExpression op = true /\ statement = ExpressionStatement (Binary op (Variable_ slot) e).

Definition start (data : bytes) : Emitter := mkEmitter [] data empty_tracker [].

Lemma stores_emitted statement slot e data code data' layout :
  stores statement slot e -> method data [statement] = Ok (code, data', layout) ->
  exists em1, visit e (start data) = Ok em1
    /\ code = ExecutableByteCode em1 ++ encode (OpCode.STORE_LOCAL, [ONum slot]) ++ encode (OpCode.RETURN, [])
    /\ data' = DataSection em1
    /\ (CurrentDepth (EvalTracker em1) = 1 ->
        layout = PublishLayout (mkLayout 0 0 false) (track_pop 1 (EvalTracker em1))).
Proof.
  intros Hs E; unfold VisitMethodDeclaration in E; apply rbind_Ok in E as (em2 & E2 & E).
  assert (Hv : (visit e >> store_variable slot) (start data) = Ok em2).
  { destruct Hs as [->|(op & Hop & ->)]; cbn [VisitStatement VisitExpression] in E2;
      try rewrite Hop in E2; apply then_Ok in E2 as (em3 & E2 & E3); apply Ok_inj in E3 as ->; exact E2. }
  apply then_Ok in Hv as (em1 & E1 & E3); exists em1; split; [exact E1|].
  unfold store_variable, EmitStoreLocal, AppendDataT, AppendData in E3.
  cbn [then_ emit track EvalPop rbind ExecutableByteCode DataSection EvalTracker Loops] in E3.
  apply Ok_inj in E3; subst em2; cbn [ExecutableByteCode DataSection EvalTracker Loops] in E.
  apply Ok_inj in E; injection E as Hcode Hdata Hlayout; subst code data' layout.
  rewrite (encode_one OpCode.STORE_LOCAL KSlot 2 slot eq_refl eq_refl), (encode_none OpCode.RETURN eq_refl).
  unfold EmitReturn, AppendDataT, AppendData; rewrite <- !app_assoc; split; [reflexivity|split; [reflexivity|]].
  intros Hd; unfold track_pop at 1; rewrite Hd; reflexivity.
Qed.

Lemma returns_emitted e data code data' layout :
  method data [ReturnStatement (Some e)] = Ok (code, data', layout) ->
  exists em1, visit e (start data) = Ok em1
    /\ code = ExecutableByteCode em1 ++ encode (OpCode.RETURN, []) ++ encode (OpCode.RETURN, [])
    /\ data' = DataSection em1
    /\ (CurrentDepth (EvalTracker em1) = 1 ->
        layout = PublishLayout (mkLayout 0 0 false)
                   (mkTracker 0 (MaxDepth (EvalTracker em1)) (MaxPayload (EvalTracker em1))
                      (Poisoned (EvalTracker em1)))).
Proof.
  intros E; unfold VisitMethodDeclaration in E; apply rbind_Ok in E as (em2 & E2 & E).
  cbn [VisitStatement] in E2; apply then_Ok in E2 as (em3 & E2 & E3); apply Ok_inj in E3 as ->.
  unfold VisitReturnStatement in E2; apply then_Ok in E2 as (em4 & E2 & E5).
  apply then_Ok in E2 as (em5 & E2 & E4); apply then_Ok in E2 as (em1 & E1 & E3).
  exists em1; split; [exact E1|].
  unfold set_depth, EmitReturn, AppendDataT, AppendData in *; apply Ok_inj in E3, E4, E5; subst em5 em4 em2.
  cbn [ExecutableByteCode DataSection EvalTracker Loops CurrentDepth] in E.
  apply Ok_inj in E; injection E as Hcode Hdata Hlayout; subst code data' layout.
  rewrite (encode_none OpCode.RETURN eq_refl), <- !app_assoc; split; [reflexivity|split; [reflexivity|]].
  intros Hd; rewrite Hd; reflexivity.
Qed.

(** What the run of an expression at the start of a method's code, in the
    method's frame, is. *)
Lemma start_runs e data em1 rest ret arena layout t :
  compilable type_address type_at e -> visit e (start data) = Ok em1 ->
  size (ExecutableByteCode em1) < 2 ^ 63 -> size (DataSection em1) < 2 ^ 63 ->
  (CurrentDepth (EvalTracker em1) = 1 -> Poisoned t = Poisoned (EvalTracker em1)
     /\ MaxDepth t = MaxDepth (EvalTracker em1) /\ layout = PublishLayout (mkLayout 0 0 false) t) ->
  let s := entered ret slots layout arena in
  CurrentDepth (EvalTracker em1) = 1 /\ fits_stack 1 s
  /\ answers type_at (DataSection em1) (size (DataSection em1)) [] s
       (mkDecoder (ExecutableByteCode em1 ++ rest) 0) (cursor (ExecutableByteCode em1) rest)
       (eval (Create ret slots layout) e arena).
Proof.
  intros Hc E Hcs Hds Ht s.
  destruct (visit_computes type_address struct_size slots type_at e _ _ Hc E) as (c & more & Hcode & _ & _ & Htr & Hrun);
    [cbn; lia|exact Hcs|].
  cbn [start ExecutableByteCode EvalTracker empty_tracker app] in *; destruct Htr as (Hd & _ & Hm & Hp).
  cbn [CurrentDepth MaxDepth Poisoned] in *; destruct (Ht Hd) as (Htp & Htm & ->).
  pose proof (published_fits ret slots (mkLayout 0 0 false) t (eq_trans Htp Hp)) as Hfits; rewrite Htm in Hfits.
  change (CurrentDepth empty_tracker) with 0 in *.
  split; [exact Hd|split; [unfold fits_stack; etransitivity; [|exact Hfits]; unfold EntryStride; lia|]].
  rewrite Hcode; specialize (Hrun [] [] rest s); rewrite app_nil_r in Hrun; apply Hrun; try reflexivity; try assumption.
  - split; reflexivity.
  - constructor.
Qed.

(** With enough fuel, and with any more, the body ends as [r]. *)
Definition runs_to (data code : bytes) (s : State) (r : result Outcome) : Prop :=
  exists n, forall k, InvokeBody type_at data (n + k) code s = Some r.

(** The state a body leaves: the loop's reason is overwritten. *)
Definition left_by (f : Frame) (arena : PrimitiveMath.Arena) (t : list Z) : State :=
  mkState (set_InterruptionReason EndOfInstructions f) arena false t.

(** An answer that is no value ends the body. *)
Lemma answers_run data code s d1 top (r : result Answer) :
  AbortFlag s = false -> answers type_at data top [] s (mkDecoder code 0) d1 r ->
  match r with
  | Ok (Value v arena) =>
      exists t, forall o, ends type_at data (with_stack [v] arena (interning t s)) d1 (Ok (Finished o)) ->
      EvalStack (frame o) = [] -> AbortFlag o = false ->
      runs_to data code s (Ok (Finished (left_by (frame o) (stringScratch o) (internedStrings o))))
  | Ok Unhandled => exists t l r s' d', runs_to data code s (Ok (Stopped (Overload t l r s' d')))
  | Ok NullOperand => True
  | Throw m => runs_to data code s (Throw m)
  | UB => runs_to data code s UB
  end.
Proof.
  intros Ha Hr; destruct r as [[v arena| |]|m|]; cbn [answers] in Hr.
  - destruct Hr as (t & _ & Hr); exists t; intros o Ho Hst Hf; pose proof (reaches_ends _ _ _ _ _ _ _ Hr Ho) as He.
    destruct (InvokeBody_ends _ _ _ _ _ Ha He) as (n & Hn); exists n; intros k; rewrite Hn; cbn.
    unfold DrainEvalReferences; cbn; rewrite Hst; cbn; unfold left_by, on_frame; rewrite Hf.
    destruct o as [[] ? ? ?]; cbn in *; rewrite Hst; reflexivity.
  - destruct Hr as (t & l & r & s' & d' & Hr); exists t, l, r, s', d'.
    destruct (InvokeBody_ends _ _ _ _ _ Ha Hr) as (n & Hn); exists n; intros k; rewrite Hn; reflexivity.
  - exact I.
  - destruct (InvokeBody_ends _ _ _ _ _ Ha Hr) as (n & Hn); exists n; intros k; rewrite Hn; reflexivity.
  - destruct (InvokeBody_ends _ _ _ _ _ Ha Hr) as (n & Hn); exists n; intros k; rewrite Hn; reflexivity.
Qed.

(** A method whose body stores the value of [e], in a declaration or in an
    assignment with any assignment operator, runs to its end with the value
    in the slot, whatever the slot held. *)
Theorem stored_expression (e : Expression) (statement : Statement) (slot : Z) (data code data' : bytes)
    (layout : FrameLayout) (arena : PrimitiveMath.Arena) :
  compilable type_address type_at e -> stores statement slot e ->
  0 <= slot < 2 ^ 16 -> slot < Z.of_nat (List.length slots) ->
  method data [statement] = Ok (code, data', layout) ->
  size code < 2 ^ 63 -> size data' < 2 ^ 63 ->
  let f := Create TypeSymbol.Void slots layout in
  let s := entered TypeSymbol.Void slots layout arena in
  match eval f e arena with
  | Ok (Value v arena') =>
      exists f' table, SetLocal slot v f = Ok f' /\ runs_to data' code s (Ok (Finished (left_by f' arena' table)))
  | Ok Unhandled => exists t l r s' d', runs_to data' code s (Ok (Stopped (Overload t l r s' d')))
  | Ok NullOperand => True
  | Throw m => runs_to data' code s (Throw m)
  | UB => runs_to data' code s UB
  end.
Proof.
  intros Hc Hst Hs Hlen E Hcs Hds f s; apply (stores_emitted _ _ _ _ _ _ _ Hst) in E as (em1 & E1 & -> & -> & Hl).
  destruct (start_runs e data em1 (encode (OpCode.STORE_LOCAL, [ONum slot]) ++ encode (OpCode.RETURN, []))
              TypeSymbol.Void arena layout (track_pop 1 (EvalTracker em1)) Hc E1) as (Hd & Hfit & Hrun).
  - rewrite !size_app in Hcs; unfold size in *; lia.
  - exact Hds.
  - intros Hd; unfold track_pop; rewrite Hd; cbn; split; [reflexivity|split; [reflexivity|]].
    rewrite (Hl Hd); unfold track_pop; rewrite Hd; reflexivity.
  - apply answers_run in Hrun; [|reflexivity]; fold s in Hrun; fold f in Hrun.
    destruct (eval f e arena) as [[v arena'| |]|m|]; try exact Hrun; destruct Hrun as (t & Hrun).
    assert (Hset : exists f', SetLocal slot v f = Ok f').
    { unfold SetLocal, f, Create; cbn [LocalSlots]; rewrite nth_error_map.
      destruct (nth_error slots (Z.to_nat slot)) eqn:En; [eexists; reflexivity|].
      apply nth_error_None in En; lia. }
    destruct Hset as (f' & Hset); exists f', t; split; [exact Hset|].
    assert (Ht : ReturnType f' = TypeSymbol.Void /\ InterruptionReason f' = NotInterrupted /\ EvalStack f' = []).
    { revert Hset; unfold SetLocal; destruct (nth_error _ _); [|discriminate]; intros E; apply Ok_inj in E as <-.
      repeat split. }
    destruct Ht as (Ht & Hn & He); refine (Hrun (left_by f' arena' t) _ He eq_refl).
    eapply reaches_ends.
    + apply store_reaches with (v := v) (st := []) (f := f'); [exact Hs|split; reflexivity|reflexivity|exact Hset].
    + rewrite <- (app_nil_r (encode (OpCode.RETURN, []))); apply return_ends; [split; [reflexivity|exact Hn]|exact Ht].
Qed.

(** A method whose body returns the value of [e] runs to its end, and its
    caller receives the cleared value of its return type. *)
Theorem return_discards_value (e : Expression) (data code data' : bytes) (ret : TypeSymbol)
    (layout : FrameLayout) (arena arena' : PrimitiveMath.Arena) (v : ObjectInstance) :
  compilable type_address type_at e -> ret <> TypeSymbol.Void ->
  method data [ReturnStatement (Some e)] = Ok (code, data', layout) ->
  size code < 2 ^ 63 -> size data' < 2 ^ 63 ->
  eval (Create ret slots layout) e arena = Ok (Value v arena') -> ObjectInstance.shape_type v <> None ->
  exists n s', forall k,
    InvokeMethod type_at data' (n + k) code (entered ret slots layout arena)
    = Some (Ok (Some (cleared ret), Finished s')).
Proof.
  intros Hc Hret E Hcs Hds Hv Hshape; apply returns_emitted in E as (em1 & E1 & -> & -> & Hl).
  destruct (start_runs e data em1 (encode (OpCode.RETURN, []) ++ encode (OpCode.RETURN, []))
              ret arena layout (mkTracker 0 (MaxDepth (EvalTracker em1)) (MaxPayload (EvalTracker em1))
                                  (Poisoned (EvalTracker em1))) Hc E1) as (Hd & Hfit & Hrun).
  - rewrite !size_app in Hcs; unfold size in *; lia.
  - exact Hds.
  - intros Hd; rewrite (Hl Hd); auto.
  - set (s := entered ret slots layout arena) in *; rewrite Hv in Hrun; cbn [answers] in Hrun; destruct Hrun as (table & _ & Hrun).
    pose proof (return_value_ends type_at (DataSection em1) (with_stack [v] arena' (interning table s)) (ExecutableByteCode em1)
                  (encode (OpCode.RETURN, [])) ltac:(split; reflexivity) Hret (cleared_shape ret)) as Hend.
    pose proof (reaches_ends _ _ _ _ _ _ _ Hrun Hend) as He.
    destruct (InvokeBody_ends _ _ _ s _ eq_refl He) as (n & Hn).
    eexists n, _; intros k; unfold InvokeMethod; rewrite Hn; cbn [fbind].
    unfold DrainEvalReferences; cbn [EvalStack set_InterruptionReason frame on_frame with_stack interning set_EvalStack release_all].
    unfold ObjectInstance.getInfo; destruct (ObjectInstance.shape_type v) as [t|]; [cbn [rbind fbind]|congruence].
    cbn [ReturnType set_EvalStack set_InterruptionReason frame on_frame with_stack interning s entered Create].
    destruct (ret =type TypeSymbol.Void) eqn:Er; [apply TypeSymbol.eqb_eq in Er; contradiction|].
    cbn [negb]; unfold ReturnView; cbn [ReturnType ReturnSlot set_EvalStack set_InterruptionReason frame on_frame with_stack interning s entered Create].
    rewrite Er; reflexivity.
Qed.


(** ** Increments *)
Lemma SetLocal_stack slot v st f f' :
  SetLocal slot v f = Ok f' -> SetLocal slot v (set_EvalStack st f) = Ok (set_EvalStack st f').
Proof.
  unfold SetLocal; cbn [LocalSlots set_EvalStack]; destruct (nth_error _ _); [|discriminate].
  intros E; apply Ok_inj in E as <-; reflexivity.
Qed.

Section Instructions.
Variable data : bytes.
Variable s : State.
Hypothesis s_ready : ready s.

Lemma fits_less n m : n <= m -> fits_stack m s -> fits_stack n s.
Proof. unfold fits_stack, EntryStride; lia. Qed.

Lemma push_reaches i v st pre rest :
  fits_stack (Z.of_nat (List.length st) + 1) s ->
  simple_result type_at data i.1 (with_stack st (stringScratch s) s)
      (cursor (pre ++ opcode_bytes i.1) (operands_of i ++ rest))
    = Some (push v (with_stack st (stringScratch s) s) (cursor (pre ++ encode i) rest)) ->
  reaches type_at data (with_stack st (stringScratch s) s) (cursor pre (encode i ++ rest))
    (with_stack (v :: st) (stringScratch s) s) (cursor (pre ++ encode i) rest).
Proof.
  intros Hf E; apply step_next; [apply ready_with_stack, s_ready|]; rewrite E; f_equal.
  exact (push_ok v (with_stack st (stringScratch s) s) (cursor (pre ++ encode i) rest) Hf).
Qed.

Lemma load_local_reaches slot v st pre rest :
  0 <= slot < 2 ^ 16 -> GetLocal slot (frame s) = Ok v -> fits_stack (Z.of_nat (List.length st) + 1) s ->
  let i := (OpCode.LOAD_LOCAL, [ONum slot]) in
  reaches type_at data (with_stack st (stringScratch s) s) (cursor pre (encode i ++ rest))
    (with_stack (v :: st) (stringScratch s) s) (cursor (pre ++ encode i) rest).
Proof.
  intros Hs Hv Hf i; apply push_reaches; [exact Hf|].
  pose proof (operand_encoded OpCode.LOAD_LOCAL KSlot slot pre rest eq_refl Hs) as Ho.
  cbn [absorb_operand] in Ho; unfold simple_result, process_data; cbn [i fst].
  destruct (AbsorbVariableSlot _) as [x d]; injection Ho as -> ->.
  change (GetLocal slot (frame (with_stack st (stringScratch s) s))) with (GetLocal slot (frame s)).
  rewrite Hv; reflexivity.
Qed.

Lemma load_one_reaches st pre rest :
  fits_stack (Z.of_nat (List.length st) + 1) s ->
  let i := (OpCode.LOADCONST_INTEGER64, [ONum 1]) in
  reaches type_at data (with_stack st (stringScratch s) s) (cursor pre (encode i ++ rest))
    (with_stack (VInt 1 :: st) (stringScratch s) s) (cursor (pre ++ encode i) rest).
Proof.
  intros Hf i; apply push_reaches; [exact Hf|].
  pose proof (operand_encoded OpCode.LOADCONST_INTEGER64 KInt64 1 pre rest eq_refl) as Ho.
  cbn [absorb_operand fits] in Ho; specialize (Ho ltac:(lia)); unfold simple_result, process_data; cbn [i fst].
  destruct (AbsorbInt64 _) as [x d]; injection Ho as -> ->; reflexivity.
Qed.

Lemma duplicate_reaches v st pre rest :
  fits_stack (Z.of_nat (List.length (v :: st)) + 1) s ->
  let i := (OpCode.DUP, []) in
  reaches type_at data (with_stack (v :: st) (stringScratch s) s) (cursor pre (encode i ++ rest))
    (with_stack (v :: v :: st) (stringScratch s) s) (cursor (pre ++ encode i) rest).
Proof.
  intros Hf i; apply push_reaches; [exact Hf|].
  unfold i; rewrite (encode_none OpCode.DUP eq_refl); reflexivity.
Qed.

Lemma add_reaches z st pre rest :
  - 2 ^ 63 <= z -> z + 1 < 2 ^ 63 -> fits_stack (Z.of_nat (List.length st) + 1) s ->
  let i := (OpCode.MATH_ADDITION, []) in
  reaches type_at data (with_stack (VInt 1 :: VInt z :: st) (stringScratch s) s) (cursor pre (encode i ++ rest))
    (with_stack (VInt (z + 1) :: st) (stringScratch s) s) (cursor (pre ++ encode i) rest).
Proof.
  intros Hz1 Hz2 Hf i; apply step_next; [apply ready_with_stack, s_ready|].
  unfold i in *; rewrite (encode_none OpCode.MATH_ADDITION eq_refl) in *; cbn [fst].
  change (simple_result _ _ OpCode.MATH_ADDITION ?s ?d) with (Some (executeBinary TokenType.AddOperator s d)).
  f_equal; unfold executeBinary, PopStack; cbn -[Z.add Z.pow PushStack int64_result].
  replace (int64_result (z + 1)) with (Ok (z + 1));
    [|unfold int64_result, in_int64, INT64_MIN, INT64_MAX; rewrite !(proj2 (Z.leb_le _ _)) by lia; reflexivity].
  cbn -[Z.add Z.pow PushStack int64_result]; rewrite (push_over st) by (reflexivity || exact Hf); reflexivity.
Qed.
End Instructions.

Definition increment_code (slot : Z) (postfix : bool) : list instr :=
  [(OpCode.LOAD_LOCAL, [ONum slot])] ++
  (if postfix
   then [(OpCode.LOADCONST_INTEGER64, [ONum 1]); (OpCode.MATH_ADDITION, []); (OpCode.DUP, [])]
   else [(OpCode.DUP, []); (OpCode.LOADCONST_INTEGER64, [ONum 1]); (OpCode.MATH_ADDITION, [])]) ++
  [(OpCode.STORE_LOCAL, [ONum slot])].

Lemma track_push_depth payload t : CurrentDepth (track_push payload t) = CurrentDepth t + 1.
Proof. reflexivity. Qed.

Lemma track_pop_depth n t : CurrentDepth (track_pop n t) = Z.max 0 (CurrentDepth t - n).
Proof. unfold track_pop; destruct (Z.ltb_spec (CurrentDepth t) n); cbn; lia. Qed.

(** The code and the depth after a sequence of emissions, step by step. *)
Lemma emit_inv f em em' :
  emit f em = Ok em' -> ExecutableByteCode em' = f (ExecutableByteCode em) /\ EvalTracker em' = EvalTracker em.
Proof. intros E; apply Ok_inj in E as <-; split; reflexivity. Qed.

Lemma track_inv f em em' :
  track f em = Ok em' -> ExecutableByteCode em' = ExecutableByteCode em /\ EvalTracker em' = f (EvalTracker em).
Proof. intros E; apply Ok_inj in E as <-; split; reflexivity. Qed.

Ltac steps :=
  repeat match goal with
  | E : then_ _ _ _ = Ok _ |- _ => let em := fresh "em" in let E1 := fresh "E" in apply then_Ok in E as (em & E1 & E)
  | E : emit _ _ = Ok _ |- _ => let C := fresh "C" in let T := fresh "T" in apply emit_inv in E as (C & T)
  | E : track _ _ = Ok _ |- _ => let C := fresh "C" in let T := fresh "T" in apply track_inv in E as (C & T)
  end.
Ltac steps_code := repeat match goal with C : ExecutableByteCode ?e = _ |- context [ExecutableByteCode ?e] => rewrite C end.
Ltac steps_depth :=
  repeat match goal with T : EvalTracker ?e = _ |- context [EvalTracker ?e] => rewrite T end;
  repeat (rewrite track_pop_depth || rewrite track_push_depth).

Lemma increment_emitted slot (postfix : bool) em em' :
  0 <= CurrentDepth (EvalTracker em) ->
  visit (Unary TokenType.IncrementOperator postfix (Variable_ slot)) em = Ok em' ->
  ExecutableByteCode em' = ExecutableByteCode em ++ flat_map encode (increment_code slot postfix)
  /\ CurrentDepth (EvalTracker em') = CurrentDepth (EvalTracker em) + 1.
Proof.
  intros Hd E; cbn [VisitExpression IsAssignExpression EmitUnaryOperation VisitUnaryAssignExpression] in E.
  unfold increment_code; destruct postfix; unfold emit_step, load_variable, store_variable, push_integer, EvalPush, EvalPop in E;
    steps; (split; [|steps_depth; lia]); steps_code; cbn [app flat_map];
    rewrite (encode_one OpCode.LOAD_LOCAL KSlot 2 slot eq_refl eq_refl),
      (encode_one OpCode.STORE_LOCAL KSlot 2 slot eq_refl eq_refl),
      (encode_one OpCode.LOADCONST_INTEGER64 KInt64 8 1 eq_refl eq_refl),
      (encode_none OpCode.MATH_ADDITION eq_refl), (encode_none OpCode.DUP eq_refl), app_nil_r;
    unfold EmitLoadLocal, EmitStoreLocal, EmitLoadConstInt64, EmitMathAdd, EmitDuplicate, AppendDataT, AppendData;
    rewrite <- !app_assoc; reflexivity.
Qed.

(** The code of [x++] leaves the new value of [x] on the stack, and that of
    [++x] the old one; either stores the new value, and as a statement leaves
    its own value on the stack. *)
Theorem increment_values (slot z : Z) (postfix : bool) (em em' : Emitter) (data pre rest : bytes) (s : State)
    (f : Frame) :
  0 <= slot < 2 ^ 16 -> - 2 ^ 63 <= z -> z + 1 < 2 ^ 63 -> 0 <= CurrentDepth (EvalTracker em) ->
  VisitStatement type_address struct_size slots
    (ExpressionStatement (Unary TokenType.IncrementOperator postfix (Variable_ slot))) em = Ok em' ->
  ready s -> GetLocal slot (frame s) = Ok (VInt z) -> SetLocal slot (VInt (z + 1)) (frame s) = Ok f ->
  fits_stack (Z.of_nat (List.length (EvalStack (frame s))) + 3) s ->
  exists code, ExecutableByteCode em' = ExecutableByteCode em ++ code
    /\ CurrentDepth (EvalTracker em') = CurrentDepth (EvalTracker em) + 1
    /\ reaches type_at data s (cursor pre (code ++ rest))
         (on_frame (set_EvalStack (VInt (if postfix then z + 1 else z) :: EvalStack (frame s)) f) s)
         (cursor (pre ++ code) rest).
Proof.
  intros Hs Hz1 Hz2 Hd E Hr Hget Hset Hf; destruct (increment_emitted slot postfix em em' Hd E) as (Hcode & Hdepth).
  exists (flat_map encode (increment_code slot postfix)); split; [exact Hcode|split; [exact Hdepth|]].
  assert (Hlen : forall st : list ObjectInstance, (List.length st <= List.length (EvalStack (frame s)) + 2)%nat ->
    fits_stack (Z.of_nat (List.length st) + 1) s) by (intros st Hst; refine (fits_less _ _ _ _ Hf); lia).
  set (st := EvalStack (frame s)) in *; rewrite <- (with_stack_id s) at 1; fold st.
  assert (Hstore : forall v pre rest,
    reaches type_at data (with_stack (VInt (z + 1) :: v :: st) (stringScratch s) s)
      (cursor pre (encode (OpCode.STORE_LOCAL, [ONum slot]) ++ rest))
      (on_frame (set_EvalStack (v :: st) f) s) (cursor (pre ++ encode (OpCode.STORE_LOCAL, [ONum slot])) rest)).
  { intros v p r.
    exact (store_reaches type_at data slot (VInt (z + 1)) (v :: st) (with_stack (VInt (z + 1) :: v :: st) (stringScratch s) s)
             (set_EvalStack (v :: st) f) p r Hs (ready_with_stack _ _ _ Hr) eq_refl
             (SetLocal_stack slot _ (v :: st) _ _ Hset)). }
  unfold increment_code; destruct postfix; cbn [app flat_map]; rewrite app_nil_r, <- !app_assoc.
  - eapply reaches_trans; [apply (load_local_reaches data s Hr slot (VInt z) st); auto; apply Hlen; lia|].
    eapply reaches_trans; [apply (load_one_reaches data s Hr (VInt z :: st)), Hlen; cbn; lia|].
    eapply reaches_trans; [apply (add_reaches data s Hr z st); auto; apply Hlen; lia|].
    eapply reaches_trans; [apply (duplicate_reaches data s Hr (VInt (z + 1)) st), Hlen; cbn; lia|].
    rewrite !app_assoc; apply Hstore.
  - eapply reaches_trans; [apply (load_local_reaches data s Hr slot (VInt z) st); auto; apply Hlen; lia|].
    eapply reaches_trans; [apply (duplicate_reaches data s Hr (VInt z) st), Hlen; cbn; lia|].
    eapply reaches_trans; [apply (load_one_reaches data s Hr (VInt z :: VInt z :: st)), Hlen; cbn; lia|].
    eapply reaches_trans; [apply (add_reaches data s Hr z (VInt z :: st)); auto; apply Hlen; cbn; lia|].
    rewrite !app_assoc; apply Hstore.
Qed.
End Compiled.

(** ** The return slot *)
Section Machine.
Context `{MathLibrary}.
Variable type_at : Z -> option TypeSymbol.
Variable data : bytes.

(** Whatever the code of a method is, when the loop ends its caller finds the
    frame as if it had run to the end of its code, with an empty evaluation
    stack, and receives the value the return slot was cleared to: no code can
    return another value or leave an exception to the caller. *)
Theorem method_result_discarded (fuel : nat) (code : bytes) (ret : TypeSymbol)
    (slots : list (option TypeSymbol)) (layout : FrameLayout) (arena : PrimitiveMath.Arena)
    (value : option ObjectInstance) (s : State) :
  InvokeMethod type_at data fuel code (entered ret slots layout arena) = done (value, Finished s) ->
  value = (if ret =type TypeSymbol.Void then None else Some (cleared ret))
  /\ InterruptionReason (frame s) = EndOfInstructions /\ EvalStack (frame s) = [].
Proof.
  unfold InvokeMethod, InvokeBody; cbn [AbortFlag entered]; intros E.
  apply fbind_done in E as (o & Eo & E); apply fbind_done in Eo as (o' & Er & Eo); destruct o' as [s'|r];
    [|injection Eo as <-; discriminate].
  apply run_body_same in Er as [Hslot Htype]; cbn [frame entered Create ReturnSlot ReturnType] in Hslot, Htype.
  injection Eo as Eo; apply rbind_Ok in Eo as (f & Ef & Eo); apply Ok_inj in Eo as <-.
  unfold DrainEvalReferences in Ef; apply rbind_Ok in Ef as (u & _ & Ef); apply Ok_inj in Ef as <-.
  cbn [frame on_frame ReturnType ReturnSlot set_EvalStack set_InterruptionReason] in E; rewrite Htype in E.
  destruct (ret =type TypeSymbol.Void) eqn:Ev; cbn [negb] in E.
  - injection E as <- <-; repeat split.
  - unfold ReturnView in E; cbn [ReturnType ReturnSlot set_EvalStack set_InterruptionReason] in E.
    rewrite Htype, Ev, Hslot in E; cbn [rbind] in E; injection E as <- <-; repeat split.
Qed.

(** ** Operators *)

(** A null operand makes every binary operator, [!=] among them, false.
    Before a division or a remainder the machine reads the divisor as an
    integer: zero throws, and a divisor of type [char], [byte] or [nint]
    throws whatever its value. *)
Theorem binary_operator_guards (token : TokenType) (l r : ObjectInstance) (st : list ObjectInstance)
    (s : State) (d : Decoder) :
  EvalStack (frame s) = r :: l :: st -> fits_stack (Z.of_nat (List.length st) + 1) s ->
  let result := executeBinary token s d in
  (ObjectInstance.IsNullInstance l = true \/ ObjectInstance.IsNullInstance r = true ->
   result = Ok (Next (with_stack (VBool false :: st) (stringScratch s) s) d))
  /\ (ObjectInstance.IsNullInstance l = false ->
      (token = TokenType.DivOperator \/ token = TokenType.ModOperator) ->
      match r with
      | VInt z | VEnum _ z => z = 0 -> result = Throw "DivideByZeroException"
      | VChar _ | VByte _ | VNint _ => result = Throw "Cannot interpret instance as Integer"
      | _ => True
      end).
Proof.
  intros Hst Hf; unfold executeBinary, PopStack; rewrite Hst; cbn [rbind EvalStack set_EvalStack]; split.
  - intros Hnull; replace (_ || _) with true
      by (destruct Hnull as [-> | ->]; [rewrite orb_true_r|]; reflexivity).
    rewrite (push_over st) by (reflexivity || exact Hf); reflexivity.
  - intros Hl Ht; assert (Et : (token =tt TokenType.DivOperator) || (token =tt TokenType.ModOperator) = true)
      by (destruct Ht as [-> | ->]; reflexivity).
    destruct r; try exact I; rewrite Hl, Et; cbn [ObjectInstance.IsNullInstance orb]; try reflexivity;
      intros ->; reflexivity.
Qed.

(** ** Exceptions *)

(** One run of a deferred expression: from any amount of fuel on it comes back, at the
    place it was called from, with the state [s']. *)
Definition defer_returns (d : Decoder) (target : Z) (s s' : State) : Prop :=
  exists n, forall fuel k, (n <= fuel)%nat -> (n <= k)%nat ->
    ExecuteDeferExpression (ProcessCode type_at data fuel) k target s d = done (Next s' d).

(** The deferred expressions [targets] run one after the other, the last registered
    first, each one taken off the stack and with the depth of drains one higher while
    it runs; [kept] stay registered. *)
Fixpoint defers_run (d : Decoder) (targets kept : list Z) (s s' : State) : Prop :=
  match targets with
  | [] => s' = s
  | target :: targets =>
      exists s1,
        defer_returns d target
          (VirtualMachine.set_depth (size_t (DeferDrainDepth (frame s) + 1)) (on_frame (set_DeferStack (targets ++ kept) (frame s)) s)) s1
        /\ interrupted (frame s1) = false /\ DeferStack (frame s1) = targets ++ kept
        /\ defers_run d targets kept (VirtualMachine.set_depth (size_t (DeferDrainDepth (frame s1) - 1)) s1) s'
  end.

Lemma drained_run d kept targets : forall s s',
  DeferStack (frame s) = targets ++ kept -> defers_run d targets kept s s' ->
  exists n, forall fuel k, (n <= fuel)%nat -> (n <= k)%nat ->
    DrainDefersTo (ProcessCode type_at data fuel) k (List.length kept) s d = done (true, Next s' d).
Proof.
  induction targets as [|target targets IH]; intros s s' Hst Hr; cbn [defers_run] in Hr.
  - subst s'; exists 1%nat; intros fuel [|k] _ Hk; [lia|]; cbn [DrainDefersTo]; rewrite Hst.
    rewrite (proj2 (Nat.leb_le _ _)) by apply le_n; reflexivity.
  - destruct Hr as (s1 & (n & Hn) & Hi & Hst1 & Hr); destruct (IH (VirtualMachine.set_depth (size_t (DeferDrainDepth (frame s1) - 1)) s1) _ Hst1 Hr) as (m & Hm).
    exists (S (Nat.max n m)); intros fuel [|k] Hf Hk; [lia|]; cbn [DrainDefersTo]; rewrite Hst.
    cbn [app List.length]; rewrite length_app, (proj2 (Nat.leb_gt _ _)) by lia.
    cbn [frame on_frame set_DeferStack DeferDrainDepth]; rewrite Hn by lia; cbn [fbind done].
    change (interrupted (frame (VirtualMachine.set_depth _ s1))) with (interrupted (frame s1)); rewrite Hi; apply Hm; lia.
Qed.

(** A frame in which [v] was raised, and the frame from which it is dispatched. *)
Definition raised (v : ObjectInstance) (s : State) : Prop :=
  AbortFlag s = false /\ InterruptionReason (frame s) = ExceptionRaised /\ CurrentException (frame s) = v
  /\ ObjectInstance.IsNullInstance v = false /\ release_all (EvalStack (frame s)) = Ok tt.
Definition dispatching (handlers : list ExceptionHandlerFrame) (s : State) : State :=
  on_frame (set_ExceptionHandlers handlers (set_CurrentException null_instance
    (set_InterruptionReason NotInterrupted (set_EvalStack [] (frame s))))) s.

Lemma dispatch_run k v s d :
  raised v s ->
  run_body type_at data (S k) s d
  = fbind (HandleExceptionInFrame type_at data k s d) (fun r =>
      match r with
      | (false, Next s _) => done (Finished s)
      | (true, Next s d) => run_body type_at data k s d
      | (_, r) => done (Stopped r)
      end).
Proof. intros (Ha & Hr & _); cbn [run_body]; rewrite Ha, Hr; reflexivity. Qed.

(** The run from the first configuration goes on as the run from the second, up to
    the fuel either needs. *)
Definition resumes (s : State) (d : Decoder) (s' : State) (d' : Decoder) : Prop :=
  exists n m, forall k, run_body type_at data (n + k) s d = run_body type_at data (m + k) s' d'.

(** C30: An exception raised in a frame goes to its innermost handler: the evaluation
    stack is emptied, the deferred expressions registered since the handler was
    armed run, the last one first, and the run goes on at the handler, no longer
    armed, with the exception on the stack.  Without a handler all deferred
    expressions run and the loop ends with the exception raised. *)
Theorem exception_dispatched (v : ObjectInstance) (s s' : State) (d : Decoder) (targets kept : list Z) :
  raised v s -> DeferStack (frame s) = targets ++ kept ->
  (forall handler handlers,
     ExceptionHandlers (frame s) = handler :: handlers -> DeferStackBase handler = List.length kept ->
     0 <= HandlerOffset handler <= size (code_ d) -> HandlerOffset handler < 2 ^ 63 ->
     defers_run d targets kept (dispatching handlers s) s' ->
     fits_stack (Z.of_nat (List.length (EvalStack (frame s'))) + 1) s' ->
     resumes s d
       (on_frame (set_CurrentException v (set_InterruptionReason NotInterrupted
          (set_EvalStack (v :: EvalStack (frame s')) (frame s')))) s')
       (mkDecoder (code_ d) (HandlerOffset handler)))
  /\ (ExceptionHandlers (frame s) = [] -> kept = [] -> defers_run d targets kept (dispatching [] s) s' ->
      ends type_at data s d
        (Ok (Finished (on_frame (set_CurrentException v (set_InterruptionReason ExceptionRaised (frame s'))) s')))).
Proof.
  intros Hraised Hst; pose proof Hraised as (Ha & Hr & Hv & Hn & Hrel); split.
  - intros handler handlers Hh Hbase Hoff Hmax Hrun Hfit; apply drained_run in Hrun as (n & Hrun); [|exact Hst].
    exists (S n), n; intros k; cbn [Nat.add]; rewrite (dispatch_run _ v s d Hraised).
    unfold HandleExceptionInFrame, DrainEvalReferences; rewrite Hv, Hn, Hrel.
    cbn [rbind fbind ExceptionHandlers set_CurrentException set_InterruptionReason set_EvalStack]; rewrite Hh, Hbase.
    change (on_frame _ s) with (dispatching handlers s); rewrite Hrun by lia; cbn [fbind done].
    rewrite signed_small by lia; unfold SetCursor.
    rewrite (proj2 (Z.ltb_ge _ _)), (proj2 (Z.ltb_ge _ _)) by lia; cbn [rbind].
    unfold PushStack, EvalCursorBytes; unfold fits_stack, EntryStride in *.
    rewrite (proj2 (Z.leb_le _ _)) by lia; reflexivity.
  - intros Hh -> Hrun; apply drained_run in Hrun as (n & Hrun); [|exact Hst].
    exists (S n); intros k; cbn [Nat.add]; rewrite (dispatch_run _ v s d Hraised).
    unfold HandleExceptionInFrame, DrainEvalReferences; rewrite Hv, Hn, Hrel.
    cbn [rbind fbind ExceptionHandlers set_CurrentException set_InterruptionReason set_EvalStack]; rewrite Hh.
    replace (on_frame _ s) with (dispatching [] s) by (unfold dispatching; rewrite <- Hh; reflexivity).
    rewrite Hrun by lia; reflexivity.
Qed.
End Machine.

(** ** Witnesses *)
#[local] Instance sample_math : MathLibrary := {| pow := fun x _ => x |}.

Definition no_types (address : Z) : option TypeSymbol := None.
Definition sample_slots : list (option TypeSymbol) := [Some TypeSymbol.Integer].
Definition sample_frame : Frame :=
  mkFrame TypeSymbol.Void (NullRef None) [mkSlot (Some TypeSymbol.Integer) (Some (VInt 4))] 160 [] [] [] 0
    NotInterrupted null_instance.
Definition sample_state : State := mkState sample_frame PrimitiveMath.empty_arena false [].

(** [x < 10 ? x + 1 : -x] *)
Definition sample_expression : Expression :=
  Ternary (Binary TokenType.LessOperator (Variable_ 0) (NumberLiteral 10 None))
    (Binary TokenType.AddOperator (Variable_ 0) (NumberLiteral 1 None))
    (Unary TokenType.SubOperator false (Variable_ 0)).

Abbreviation sample_visit := (VisitExpression (fun _ => 0) (fun _ => 0) sample_slots sample_expression).
Definition sample_emitted : Emitter :=
  match sample_visit (start []) with Ok em => em | _ => start [] end.


(** [x += 7] *)
Definition sample_assignment : Statement :=
  ExpressionStatement (Binary TokenType.AddAssignOperator (Variable_ 0) (NumberLiteral 7 None)).
Definition compiled (body : list Statement) : bytes * bytes * FrameLayout :=
  match VisitMethodDeclaration (fun _ => 0) (fun _ => 0) sample_slots [] body with
  | Ok r => r
  | _ => ([], [], mkLayout 0 0 false)
  end.

Lemma stored_expression_witness :
  let '(code, data, layout) := compiled [sample_assignment] in
  exists f' table, SetLocal 0 (VInt 7) (Create TypeSymbol.Void sample_slots layout) = Ok f'
    /\ runs_to no_types data code (entered TypeSymbol.Void sample_slots layout PrimitiveMath.empty_arena)
         (Ok (Finished (left_by f' PrimitiveMath.empty_arena table))).
Proof.
  refine (stored_expression (fun _ => 0) (fun _ => 0) sample_slots no_types (NumberLiteral 7 None) sample_assignment
            0 [] _ _ _ PrimitiveMath.empty_arena _ _ _ _ _ _ _).
  - repeat split; discriminate.
  - right; exists TokenType.AddAssignOperator; split; reflexivity.
  - split; [discriminate|reflexivity].
  - reflexivity.
  - vm_compute; reflexivity.
  - vm_compute; reflexivity.
  - vm_compute; reflexivity.
Defined.

Lemma return_discards_value_witness :
  let '(code, data, layout) := compiled [ReturnStatement (Some (NumberLiteral 7 None))] in
  exists n s', forall k,
    InvokeMethod no_types data (n + k) code
      (entered TypeSymbol.Integer sample_slots layout PrimitiveMath.empty_arena)
    = Some (Ok (Some (VInt 0), Finished s')).
Proof.
  refine (return_discards_value (fun _ => 0) (fun _ => 0) sample_slots no_types (NumberLiteral 7 None) []
            _ _ TypeSymbol.Integer _ PrimitiveMath.empty_arena PrimitiveMath.empty_arena (VInt 7) _ _ _ _ _ _ _).
  - repeat split; discriminate.
  - discriminate.
  - vm_compute; reflexivity.
  - vm_compute; reflexivity.
  - vm_compute; reflexivity.
  - reflexivity.
  - discriminate.
Defined.

Definition after_increment (postfix : bool) : Emitter :=
  match VisitStatement (fun _ => 0) (fun _ => 0) sample_slots
          (ExpressionStatement (Unary TokenType.IncrementOperator postfix (Variable_ 0))) (start []) with
  | Ok em => em
  | _ => start []
  end.
Definition incremented : Frame :=
  set_LocalSlots [mkSlot (Some TypeSymbol.Integer) (Some (VInt 5))] sample_frame.

Lemma increment_values_witness :
  exists code, ExecutableByteCode (after_increment true) = [] ++ code
    /\ CurrentDepth (EvalTracker (after_increment true)) = 0 + 1
    /\ reaches no_types [] sample_state (cursor [] (code ++ []))
         (on_frame (set_EvalStack [VInt 5] incremented) sample_state) (cursor ([] ++ code) []).
Proof.
  apply (increment_values (fun _ => 0) (fun _ => 0) sample_slots no_types 0 4 true (start [])
           (after_increment true) [] [] [] sample_state incremented).
  - split; [discriminate|reflexivity].
  - discriminate.
  - reflexivity.
  - discriminate.
  - vm_compute; reflexivity.
  - split; reflexivity.
  - reflexivity.
  - reflexivity.
  - vm_compute; discriminate.
Defined.

Definition discarding : bytes := (compiled [ReturnStatement (Some (NumberLiteral 7 None))]).1.1.

Lemma method_result_discarded_witness :
  exists value s,
    InvokeMethod no_types [] 20 discarding
      (entered TypeSymbol.Integer sample_slots (mkLayout 1 8 true) PrimitiveMath.empty_arena)
    = done (value, Finished s)
    /\ value = Some (VInt 0) /\ InterruptionReason (frame s) = EndOfInstructions /\ EvalStack (frame s) = [].
Proof.
  eexists _, _; split; [vm_compute; reflexivity|].
  eapply (method_result_discarded no_types [] 20 discarding TypeSymbol.Integer sample_slots (mkLayout 1 8 true)
           PrimitiveMath.empty_arena); vm_compute; reflexivity.
Defined.

Lemma binary_operator_guards_witness :
  let s := mkState (set_EvalStack [VByte 2; VInt 6] sample_frame) PrimitiveMath.empty_arena false [] in
  let t := mkState (set_EvalStack [null_instance; VInt 6] sample_frame) PrimitiveMath.empty_arena false [] in
  executeBinary TokenType.DivOperator s (mkDecoder [] 0) = Throw "Cannot interpret instance as Integer"
  /\ executeBinary TokenType.NotEqualsOperator t (mkDecoder [] 0)
     = Ok (Next (with_stack [VBool false] PrimitiveMath.empty_arena t) (mkDecoder [] 0)).
Proof.
  intros s t; split.
  - apply (binary_operator_guards TokenType.DivOperator (VInt 6) (VByte 2) [] s (mkDecoder [] 0));
      [reflexivity|vm_compute; discriminate|reflexivity|left; reflexivity].
  - apply (binary_operator_guards TokenType.NotEqualsOperator (VInt 6) null_instance [] t (mkDecoder [] 0));
      [reflexivity|vm_compute; discriminate|right; reflexivity].
Defined.

(** A frame with an exception raised, a handler at 4 and a deferred expression at 0,
    which stops at once; it was registered after the handler was armed. *)
Definition raised_frame : Frame :=
  mkFrame TypeSymbol.Void (NullRef None) [] 160 [VInt 1] [mkHandler 4 0] [0] 0 ExceptionRaised (VString []).
Definition raised_state : State := mkState raised_frame PrimitiveMath.empty_arena false [].
Definition raised_code : bytes :=
  encode (OpCode.DEFER_BREAK, []) ++ encode (OpCode.RETHROW, []) ++ encode (OpCode.END_CATCH, []).
Definition deferred_done : State := on_frame (set_DeferStack [] (frame (dispatching [] raised_state))) raised_state.

Lemma exception_dispatched_witness :
  resumes no_types [] raised_state (mkDecoder raised_code 4)
    (on_frame (set_CurrentException (VString []) (set_InterruptionReason NotInterrupted
       (set_EvalStack [VString []] (frame deferred_done)))) deferred_done)
    (mkDecoder raised_code 4).
Proof.
  refine (proj1 (exception_dispatched no_types [] (VString []) raised_state deferred_done (mkDecoder raised_code 4) [0] [] _ eq_refl)
            (mkHandler 4 0) [] eq_refl eq_refl _ _ _ _).
  - repeat split.
  - split; vm_compute; discriminate.
  - reflexivity.
  - exists (VirtualMachine.set_depth 1 deferred_done); split; [|split; [|split; [|reflexivity]]]; [|reflexivity..].
    exists 2%nat; intros fuel [|[|k]] Hf Hk; try lia; destruct fuel; [lia|]; reflexivity.
  - vm_compute; discriminate.
Defined.
