(* ===== verification/Layout.v ===== *)
(** * Layout of objects

    Where the fields of an object are.  The program computes it twice: before
    execution LayoutGenerator.cpp writes offsets and sizes into the symbols,
    during execution TypeShapeCache.cpp builds the shapes of the types it meets;
    the alignment rules of TypeLayout.cpp serve both.  A [TypeSymbol*] is a
    [TypeId], dereferenced in the [Types] of the state; a [TypeShape*] is the
    [ShapeKey] of its entry in the cache, which owns one shape for each key. *)
From Stdlib Require Import ZArith Lia Bool List String.
From stdpp Require Import base list gmap.
From S2P Require Import Prelude.
Import ListNotations.
Open Scope Z_scope.
Open Scope shard_scope.

(** ** Type symbols *)
Definition TypeId := positive.

Inductive TypeLayoutingState := Unvisited | Visiting | Visited.
Inductive TypeInlining := ByReference | ByValue.
Inductive SymbolLinking := Static | Instance.

#[export] Instance layouting_dec : EqDecision TypeLayoutingState.
Proof. solve_decision. Defined.
#[export] Instance inlining_dec : EqDecision TypeInlining.
Proof. solve_decision. Defined.
#[export] Instance linking_dec : EqDecision SymbolLinking.
Proof. solve_decision. Defined.

(** [std::size_t] and [std::uint32_t]; [SlotIndex] starts as the largest value. *)
Definition size_t (z : Z) : Z := z mod 2 ^ 64.
Definition uint32 (z : Z) : Z := z mod 2 ^ 32.
Definition NoSlot : Z := 2 ^ 32 - 1.
Definition PointerSize : Z := 8.

(** [IdentifierToken] is the name in the declaration the symbol table keeps for
    the field, when it keeps one. *)
Record FieldSymbol := mkField {
  Linking : SymbolLinking;
  ReturnType : option TypeId;
  SlotIndex : Z;
  MemoryBytesOffset : Z;
  IdentifierToken : option wstring }.

(** The subclasses of [TypeSymbol] the layout distinguishes, with the members
    they add. *)
Inductive TypeKind :=
| ArrayType (UnderlayingType : TypeId) (Length : Z)
| GenericType (UnderlayingType : TypeId) (typeParametersMap : gmap TypeId TypeId)
| TypeParameter
| EnumDeclaration
| ObjectType.

(** [FieldOffsets] belongs to [GenericTypeSymbol]; its keys are fields of the
    underlying type, by position. *)
Record TypeSymbol := mkType {
  Kind : TypeKind;
  Inlining : TypeInlining;
  TypeParameters : list TypeId;
  Fields : list FieldSymbol;
  LayoutingState : TypeLayoutingState;
  MemoryBytesSize : Z;
  NextSlotIndex : Z;
  FieldOffsets : gmap nat Z }.

Abbreviation Table := (gmap TypeId TypeSymbol).

Definition with_LayoutingState x t :=
  mkType (Kind t) (Inlining t) (TypeParameters t) (Fields t) x (MemoryBytesSize t) (NextSlotIndex t) (FieldOffsets t).
Definition with_MemoryBytesSize x t :=
  mkType (Kind t) (Inlining t) (TypeParameters t) (Fields t) (LayoutingState t) x (NextSlotIndex t) (FieldOffsets t).
Definition with_NextSlotIndex x t :=
  mkType (Kind t) (Inlining t) (TypeParameters t) (Fields t) (LayoutingState t) (MemoryBytesSize t) x (FieldOffsets t).
Definition with_Fields x t :=
  mkType (Kind t) (Inlining t) (TypeParameters t) x (LayoutingState t) (MemoryBytesSize t) (NextSlotIndex t) (FieldOffsets t).
Definition with_FieldOffsets x t :=
  mkType (Kind t) (Inlining t) (TypeParameters t) (Fields t) (LayoutingState t) (MemoryBytesSize t) (NextSlotIndex t) x.
Definition with_SlotIndex x f :=
  mkField (Linking f) (ReturnType f) x (MemoryBytesOffset f) (IdentifierToken f).
Definition with_MemoryBytesOffset x f :=
  mkField (Linking f) (ReturnType f) (SlotIndex f) x (IdentifierToken f).

Definition IsReferenceType (t : TypeSymbol) : bool := bool_decide (Inlining t = ByReference).
Definition GetInlineSize (t : TypeSymbol) : Z :=
  match Inlining t with ByReference => PointerSize | ByValue => MemoryBytesSize t end.

(** A read through a pointer that points to no symbol has no meaning. *)
Definition deref {A} (o : option A) : result A :=
  match o with Some a => Ok a | None => UB end.
Definition lift {A} (r : result A) : fueled A := Some r.

(** [static_cast<GenericTypeSymbol*>(t)->SubstituteTypeParameters(parameter)] *)
Definition SubstituteTypeParameters (args : gmap TypeId TypeId) (parameter : TypeId) : option TypeId :=
  args !! parameter.

(** The field's type inside a constructed generic type: a type parameter is
    replaced by its argument, which may be missing. *)
Definition is_parameter (T : Table) (type : TypeId) : result bool :=
  t <-? deref (T !! type) ;;
  Ok (match Kind t with TypeParameter => true | _ => false end).
Definition argument_for (T : Table) (args : gmap TypeId TypeId) (type : TypeId) : result (option TypeId) :=
  p <-? is_parameter T type ;;
  Ok (if p : bool then SubstituteTypeParameters args type else Some type).

(** ** Alignment *)
Definition AlignUp (offset alignment : Z) : Z :=
  if alignment <=? 1 then offset
  else size_t (size_t (offset + alignment - 1) / alignment * alignment).

(** Natural alignment of a type without fields. *)
Definition primitive_alignment (size : Z) : Z := Z.min (Z.max size 1) PointerSize.

(** The widest of [fields], by the alignment [align] of their types. *)
Fixpoint widest (align : TypeId -> fueled Z) (resolve : TypeId -> result (option TypeId))
  (fields : list FieldSymbol) (alignment : Z) : fueled Z :=
  match fields with
  | [] => done alignment
  | field :: rest =>
      match Linking field, ReturnType field with
      | Instance, Some type =>
          fieldType <-! lift (resolve type) ;;
          match fieldType with
          | Some type =>
              a <-! align type ;; widest align resolve rest (Z.max alignment a)
          | None => widest align resolve rest alignment
          end
      | _, _ => widest align resolve rest alignment
      end
  end.

Fixpoint GetTypeAlignmentImpl (fuel : nat) (T : Table) (type : TypeId) (stack : list TypeId) : fueled Z :=
  match fuel with
  | O => None
  | S fuel =>
    if bool_decide (type ∈ stack) then done 1
    else
      t <-! lift (deref (T !! type)) ;;
      let stack := stack ++ [type] in
      let align type := GetTypeAlignmentImpl fuel T type stack in
      match Inlining t, Kind t with
      | ByReference, _ => done PointerSize
      | ByValue, TypeParameter => done PointerSize
      | ByValue, ArrayType underlaying _ => align underlaying
      | ByValue, GenericType underlaying args =>
          u <-! lift (deref (T !! underlaying)) ;;
          widest align (argument_for T args) (Fields u) 1
      | ByValue, _ =>
          match Fields t with
          | [] => done (primitive_alignment (MemoryBytesSize t))
          | fields => widest align (fun type => Ok (Some type)) fields 1
          end
      end
  end.

Definition GetTypeAlignment (T : Table) (type : TypeId) : fueled Z :=
  GetTypeAlignmentImpl (S (size T)) T type [].

(** ** The shapes of the runtime *)
Definition ShapeKey : Type := option TypeId * list (option TypeId).

Record SlotInfo := mkSlotInfo { Offset : Z; FieldShape : option ShapeKey }.

(** [BaseType] and [GenericArguments] are the key. *)
Record TypeShape := mkShape {
  Size : Z;
  Alignment : Z;
  Slots : list SlotInfo }.

Definition GetOffset (slotIndex : Z) (shape : TypeShape) : result Z :=
  match Slots shape !! Z.to_nat slotIndex with
  | Some slot => Ok (Offset slot)
  | None => Throw "TypeShape slot index is out of range"
  end.
Definition GetFieldShape (slotIndex : Z) (shape : TypeShape) : result (option ShapeKey) :=
  match Slots shape !! Z.to_nat slotIndex with
  | Some slot => Ok (FieldShape slot)
  | None => Throw "TypeShape slot index is out of range"
  end.

Definition with_Size x s := mkShape x (Alignment s) (Slots s).
Definition with_Alignment x s := mkShape (Size s) x (Slots s).
Definition with_Slots x s := mkShape (Size s) (Alignment s) x.

(** ** The state of both engines

    [Errors] are the reported diagnostics: the token's word and the message. *)
Record State := mkState {
  Types : Table;
  Shapes : gmap ShapeKey TypeShape;
  Errors : list (wstring * wstring) }.

Definition on_Types (f : Table -> Table) s := mkState (f (Types s)) (Shapes s) (Errors s).
Definition on_Shapes f s := mkState (Types s) (f (Shapes s)) (Errors s).
Definition ReportError (token message : wstring) s :=
  mkState (Types s) (Shapes s) (Errors s ++ [(token, message)]).

Definition on_type (type : TypeId) (f : TypeSymbol -> TypeSymbol) : State -> State :=
  on_Types (alter f type).
Definition on_field (owner : TypeId) (i : nat) (f : FieldSymbol -> FieldSymbol) : State -> State :=
  on_type owner (fun t => with_Fields (alter f i (Fields t)) t).
Definition on_shape (key : ShapeKey) (f : TypeShape -> TypeShape) : State -> State :=
  on_Shapes (alter f key).

Definition type_at (s : State) (type : TypeId) : fueled TypeSymbol := lift (deref (Types s !! type)).
Definition field_at (s : State) (owner : TypeId) (i : nat) : fueled FieldSymbol :=
  t <-! type_at s owner ;; lift (deref (Fields t !! i)).
Definition alignment_at (s : State) (type : TypeId) : fueled Z := GetTypeAlignment (Types s) type.

(** A loop over the positions of a vector that the body does not resize. *)
Fixpoint each {A S} (body : A -> S -> fueled S) (xs : list A) (s : S) : fueled S :=
  match xs with
  | [] => done s
  | x :: xs => s <-! body x s ;; each body xs s
  end.

(** ** LayoutGenerator

    [static_cast<FieldDeclarationSyntax*>(node)->IdentifierToken] has no meaning
    for a field without a declaration. *)
Definition ReportRecursion (field : FieldSymbol) (s : State) : fueled State :=
  match IdentifierToken field with
  | Some token => done (ReportError token (L "Recursive struct inlining") s)
  | None => lift UB
  end.

(** [if (type->LayoutingState == TypeLayoutingState::Unvisited) FixObjectLayout(...)] *)
Definition visit (Fix : TypeId -> State -> fueled State) (type : TypeId) (s : State) : fueled State :=
  t <-! type_at s type ;;
  if decide (LayoutingState t = Unvisited) then Fix type s else done s.

Definition assign_slot (objectInfo layoutOwner : TypeId) (i : nat) (returnType : TypeId) (s : State)
  : fueled State :=
  field <-! field_at s layoutOwner i ;;
  owner <-! type_at s layoutOwner ;;
  let s :=
    if SlotIndex field =? NoSlot then
      on_type layoutOwner (with_NextSlotIndex (uint32 (NextSlotIndex owner + 1)))
        (on_field layoutOwner i (with_SlotIndex (NextSlotIndex owner)) s)
    else s in
  a <-! alignment_at s returnType ;;
  o <-! type_at s objectInfo ;;
  let offset := AlignUp (MemoryBytesSize o) a in
  let s := on_field layoutOwner i (with_MemoryBytesOffset offset)
             (on_type objectInfo (with_MemoryBytesSize offset) s) in
  r <-! type_at s returnType ;;
  done (on_type objectInfo (with_MemoryBytesSize (size_t (offset + GetInlineSize r))) s).

Definition place_field (Fix : TypeId -> State -> fueled State) (objectInfo layoutOwner : TypeId)
  (i : nat) (s : State) : fueled State :=
  field <-! field_at s layoutOwner i ;;
  match Linking field, ReturnType field with
  | Static, _ | _, None => done s
  | Instance, Some returnType =>
      r <-! type_at s returnType ;;
      if decide (Inlining r = ByValue /\ LayoutingState r = Visiting) then ReportRecursion field s
      else
        s <-! visit Fix returnType s ;;
        assign_slot objectInfo layoutOwner i returnType s
  end.

(** [ArraySize] is [SymbolTable::Primitives::Array->MemoryBytesSize]: the
    length of an array. *)
Definition ArraySize : Z := 8.

Definition fix_array (Fix : TypeId -> State -> fueled State) (objectInfo : TypeId) (s : State)
  : fueled State :=
  o <-! type_at s objectInfo ;;
  match Kind o with
  | ArrayType underlaying length =>
      s <-! visit Fix underlaying s ;;
      u <-! type_at s underlaying ;;
      done (on_type objectInfo
              (with_MemoryBytesSize (size_t (ArraySize + size_t (MemoryBytesSize u * length)))) s)
  | _ => done s
  end.

(** One field of a constructed generic type: [offset] is the loop's variable. *)
Definition place_generic (Fix : TypeId -> State -> fueled State) (objectInfo underlaying : TypeId)
  (args : gmap TypeId TypeId) (i : nat) (offset : Z) (s : State) : fueled (Z * State) :=
  field <-! field_at s underlaying i ;;
  match Linking field, ReturnType field with
  | Static, _ | _, None => done (offset, s)
  | Instance, Some type =>
      concrete <-! lift (argument_for (Types s) args type) ;;
      let fieldType := default type concrete in
      s <-! visit Fix fieldType s ;;
      a <-! alignment_at s fieldType ;;
      let offset := AlignUp offset a in
      t <-! type_at s fieldType ;;
      done (size_t (offset + GetInlineSize t),
            on_type objectInfo (fun o => with_FieldOffsets (<[i := offset]> (FieldOffsets o)) o) s)
  end.

Fixpoint place_generics Fix objectInfo underlaying args (positions : list nat) (offset : Z) (s : State)
  : fueled (Z * State) :=
  match positions with
  | [] => done (offset, s)
  | i :: positions =>
      r <-! place_generic Fix objectInfo underlaying args i offset s ;;
      place_generics Fix objectInfo underlaying args positions (fst r) (snd r)
  end.

Definition align_size (objectInfo : TypeId) (size : Z) (s : State) : fueled State :=
  a <-! alignment_at s objectInfo ;;
  done (on_type objectInfo (with_MemoryBytesSize (AlignUp size a)) s).

Definition fix_generic (Fix : TypeId -> State -> fueled State) (objectInfo : TypeId) (s : State)
  : fueled State :=
  o <-! type_at s objectInfo ;;
  match Kind o with
  | GenericType underlaying args =>
      s <-! visit Fix underlaying s ;;
      u <-! type_at s underlaying ;;
      let s := on_type objectInfo (with_FieldOffsets ∅) s in
      r <-! place_generics Fix objectInfo underlaying args (seq 0 (List.length (Fields u))) 0 s ;;
      align_size objectInfo (fst r) (snd r)
  | _ => done s
  end.

Definition layout_owner (objectInfo : TypeId) (o : TypeSymbol) : TypeId :=
  match Kind o with GenericType underlaying _ => underlaying | _ => objectInfo end.

Fixpoint FixObjectLayout (fuel : nat) (objectInfo : TypeId) (s : State) : fueled State :=
  match fuel with
  | O => None
  | S fuel =>
      let Fix := FixObjectLayout fuel in
      o <-! type_at s objectInfo ;;
      let s := on_type objectInfo (with_LayoutingState Visiting) s in
      let layoutOwner := layout_owner objectInfo o in
      owner <-! type_at s layoutOwner ;;
      s <-! each (place_field Fix objectInfo layoutOwner) (seq 0 (List.length (Fields owner))) s ;;
      s <-! fix_array Fix objectInfo s ;;
      s <-! fix_generic Fix objectInfo s ;;
      o <-! type_at s objectInfo ;;
      s <-! align_size objectInfo (MemoryBytesSize o) s ;;
      done (on_type objectInfo (with_LayoutingState Visited) s)
  end.

(** ** TypeShapeCache *)

(** A [new ArrayTypeSymbol]: it is in no symbol table, but it is a type. *)
Definition new_type (t : TypeSymbol) (s : State) : TypeId * State :=
  let id := fresh (dom (Types s)) in
  (id, on_Types (<[id := t]>) s).

Fixpoint position_of (parameter : TypeId) (parameters : list TypeId) (i : nat) : option nat :=
  match parameters with
  | [] => None
  | p :: rest => if decide (p = parameter) then Some i else position_of parameter rest (S i)
  end.

(** [TypeShapeCache::SubstituteTypeParameter]; the arrays of one type are nested
    at most as deep as there are types. *)
Fixpoint SubstituteTypeParameter (fuel : nat) (parameters : list TypeId) (arguments : list (option TypeId))
  (type : option TypeId) (s : State) : fueled (option TypeId * State) :=
  match fuel, type with
  | O, _ => None
  | _, None => done (None, s)
  | S fuel, Some id =>
      t <-! type_at s id ;;
      match Kind t with
      | TypeParameter =>
          done (match position_of id parameters 0 with
                | Some i => match arguments !! i with Some a => a | None => type end
                | None => type
                end, s)
      | ArrayType underlaying length =>
          r <-! SubstituteTypeParameter fuel parameters arguments (Some underlaying) s ;;
          let '(element, s) := r in
          match element with
          | None => done (type, s)
          | Some e =>
              if decide (e = underlaying) then done (type, s)
              else
                let '(array, s) :=
                  new_type (mkType (ArrayType e length) ByReference [] [] (LayoutingState t)
                              (MemoryBytesSize t) 0 ∅) s in
                done (Some array, s)
          end
      | _ => done (type, s)
      end
  end.

Definition shape_at (s : State) (key : ShapeKey) : fueled TypeShape := lift (deref (Shapes s !! key)).

Definition GetShape (s : State) (key : ShapeKey) : option TypeShape := Shapes s !! key.

(** The fields with a slot, by position. *)
Definition has_slot (field : FieldSymbol) : bool :=
  match Linking field with Static => false | Instance => negb (SlotIndex field =? NoSlot) end.
Definition slot_count (fields : list FieldSymbol) : nat :=
  match filter (fun f => has_slot f = true) fields with
  | [] => 0
  | slotted => S (Z.to_nat (foldr (fun f m => Z.max (SlotIndex f) m) 0 slotted))
  end.

(** Size and alignment of a field in the object that holds it. *)
Definition field_extent (s : State) (type : TypeId) (shape : ShapeKey) : fueled (Z * Z) :=
  t <-! type_at s type ;;
  fieldShape <-! shape_at s shape ;;
  done (match Kind t, Inlining t with
        | ArrayType _ _, _ => (Size fieldShape, Alignment fieldShape)
        | _, ByReference => (PointerSize, PointerSize)
        | _, ByValue => (Size fieldShape, Alignment fieldShape)
        end).

(** One field of [BuildShape]: [offset] and [alignment] are the loop's variables. *)
Definition build_slot (Create : ShapeKey -> State -> fueled State) (key : ShapeKey) (owner : TypeId)
  (parameters : list TypeId) (arguments : list (option TypeId)) (i : nat)
  (offset alignment : Z) (s : State) : fueled (Z * Z * State) :=
  field <-! field_at s owner i ;;
  if negb (has_slot field) then done (offset, alignment, s)
  else
    match ReturnType field with
    | None => done (offset, alignment, s)
    | Some fieldType =>
        r <-! SubstituteTypeParameter (S (size (Types s))) parameters arguments (Some fieldType) s ;;
        let '(concrete, s) := r in
        let concreteFieldType := default fieldType concrete in
        let fieldShape := (Some concreteFieldType, []) in
        s <-! Create fieldShape s ;;
        e <-! field_extent s concreteFieldType fieldShape ;;
        let '(fieldSize, fieldAlign) := e in
        let slotOffset := AlignUp offset fieldAlign in
        done (size_t (slotOffset + fieldSize), Z.max alignment fieldAlign,
              on_shape key (fun shape =>
                with_Slots (<[Z.to_nat (SlotIndex field) := mkSlotInfo slotOffset (Some fieldShape)]>
                              (Slots shape)) shape) s)
    end.

Fixpoint build_slots Create key owner parameters arguments (positions : list nat) (offset alignment : Z)
  (s : State) : fueled (Z * Z * State) :=
  match positions with
  | [] => done (offset, alignment, s)
  | i :: positions =>
      r <-! build_slot Create key owner parameters arguments i offset alignment s ;;
      let '(offset, alignment, s) := r in
      build_slots Create key owner parameters arguments positions offset alignment s
  end.

Definition finish_shape (size offset alignment : Z) (shape : TypeShape) : TypeShape :=
  if (offset =? 0) && (0 <? size) then
    with_Alignment (primitive_alignment size) (with_Size size shape)
  else with_Alignment alignment (with_Size (AlignUp offset alignment) shape).

Definition BuildShape (Create : ShapeKey -> State -> fueled State) (key : ShapeKey) (s : State)
  : fueled State :=
  let '(baseType, genericArgs) := key in
  match baseType with
  | None => lift (Throw "Cannot build TypeShape for null base type")
  | Some type =>
      t <-! type_at s type ;;
      match Kind t with
      | ArrayType underlaying length =>
          s <-! Create (Some underlaying, []) s ;;
          elementShape <-! shape_at s (Some underlaying, []) ;;
          done (on_shape key (fun shape =>
                  with_Size (size_t (ArraySize + size_t (Size elementShape * length)))
                    (with_Alignment (Alignment elementShape) shape)) s)
      | _ =>
          let generic := match TypeParameters t, genericArgs with _ :: _, _ :: _ => true | _, _ => false end in
          let parameters := if generic then TypeParameters t else [] in
          let arguments := if generic then genericArgs else [] in
          let s := on_shape key (with_Slots (repeat (mkSlotInfo 0 None) (slot_count (Fields t)))) s in
          r <-! build_slots Create key type parameters arguments (seq 0 (List.length (Fields t))) 0 1 s ;;
          let '(offset, alignment, s) := r in
          t <-! type_at s type ;;
          done (on_shape key (finish_shape (MemoryBytesSize t) offset alignment) s)
      end
  end.

Fixpoint GetOrCreateShape (fuel : nat) (key : ShapeKey) (s : State) : fueled State :=
  match fuel with
  | O => None
  | S fuel =>
      match Shapes s !! key with
      | Some _ => done s
      | None =>
          BuildShape (GetOrCreateShape fuel) key (on_Shapes (<[key := mkShape 0 1 []]>) s)
      end
  end.

(** ** LayoutGenerator::Generate

    [types] is [semanticModel.Table->GetTypeSymbols()].  The second loop gets one
    more unit of fuel, for the shapes of primitive field types. *)
Definition layout_type (fuel : nat) (type : TypeId) (s : State) : fueled State :=
  t <-! type_at s type ;;
  if decide (LayoutingState t = Visited) then done s else FixObjectLayout fuel type s.

Definition shape_key (s : State) (type : TypeId) : fueled ShapeKey :=
  t <-! type_at s type ;;
  match Kind t with
  | GenericType underlaying args =>
      u <-! type_at s underlaying ;;
      done (Some underlaying, map (SubstituteTypeParameters args) (TypeParameters u))
  | _ => done (Some type, [])
  end.

Definition shape_type (fuel : nat) (type : TypeId) (s : State) : fueled State :=
  t <-! type_at s type ;;
  match Kind t with
  | ArrayType _ _ => done s
  | _ => key <-! shape_key s type ;; GetOrCreateShape fuel key s
  end.

Definition Generate (fuel : nat) (types : list TypeId) (s : State) : fueled State :=
  s <-! each (layout_type fuel) types s ;;
  each (shape_type (S fuel)) types s.
