(* ===== verification/LayoutFacts.v ===== *)
(** * Layout of objects: lemmas

    The layout passes end: alignment, because the stack of a computation holds
    no type twice; the layout of a type, because each nested call leaves one
    type fewer unvisited.  The alignment of a type depends only on the parts of
    its table the passes leave alone. *)
From Stdlib Require Import ZArith Lia Bool List String.
From stdpp Require Import base list gmap sets fin_sets fin_map_dom.
From S2P Require Import Prelude Layout.
Import ListNotations.
Open Scope Z_scope.
Open Scope shard_scope.

(** ** Computations that end

    [halts N m Q]: what [m] returns satisfies [Q], and it has enough fuel unless
    [N]. *)
Definition halts (N : Prop) {A} (m : fueled A) (Q : A -> Prop) : Prop :=
  match m with
  | None => N
  | Some (Ok a) => Q a
  | Some _ => True
  end.

Lemma halts_done {N : Prop} {A} (a : A) (Q : A -> Prop) : Q a -> halts N (done a) Q.
Proof. exact id. Qed.
Lemma halts_mono {N : Prop} {A} (m : fueled A) (P Q : A -> Prop) :
  halts N m P -> (forall a, P a -> Q a) -> halts N m Q.
Proof. destruct m as [[]|]; simpl; auto. Qed.
Lemma halts_bind {N : Prop} {A B} (m : fueled A) (k : A -> fueled B) (P : A -> Prop) (Q : B -> Prop) :
  halts N m P -> (forall a, P a -> halts N (k a) Q) -> halts N (fbind m k) Q.
Proof. destruct m as [[]|]; simpl; auto. Qed.
Lemma halts_lift {N : Prop} {A} (r : result A) : halts N (lift r) (fun a => r = Ok a).
Proof. destruct r; simpl; auto. Qed.
Lemma halts_read {N : Prop} {A B} (r : result A) (k : A -> fueled B) (Q : B -> Prop) :
  (forall a, r = Ok a -> halts N (k a) Q) -> halts N (fbind (lift r) k) Q.
Proof. intros H; exact (halts_bind _ _ _ _ (halts_lift r) H). Qed.
Lemma halts_some {A} (m : fueled A) (Q : A -> Prop) : halts False m Q -> m <> None.
Proof. destruct m as [[]|]; simpl; congruence. Qed.
Lemma halts_of_done {N : Prop} {A} (m : fueled A) (Q : A -> Prop) a : halts N m Q -> m = done a -> Q a.
Proof. intros H ->; exact H. Qed.

Lemma deref_Ok {A} (o : option A) a : deref o = Ok a <-> o = Some a.
Proof. destruct o; simpl; split; congruence. Qed.
Lemma lift_done {A} (r : result A) a : lift r = done a <-> r = Ok a.
Proof. unfold lift, done; split; congruence. Qed.
Lemma done_inj {A} (a b : A) : done a = done b -> a = b.
Proof. unfold done; congruence. Qed.

(** [fstep] opens a computation that returned. *)
Ltac fstep :=
  match goal with
  | H : fbind _ _ = done _ |- _ => apply fbind_done in H as (? & ? & H)
  | H : lift _ = done _ |- _ => apply lift_done in H
  | H : deref _ = Ok _ |- _ => apply deref_Ok in H
  | H : type_at _ _ = done _ |- _ => unfold type_at in H
  | H : shape_at _ _ = done _ |- _ => unfold shape_at in H
  | H : done _ = done _ |- _ => apply done_inj in H
  end.

Lemma each_halts {N : Prop} {A S} (body : A -> S -> fueled S) (I : S -> Prop) xs s :
  (forall x s, I s -> halts N (body x s) I) -> I s -> halts N (each body xs s) I.
Proof.
  intros Hb; revert s; induction xs as [|x xs IH]; intros s Hs; [exact Hs|].
  apply halts_bind with (P := I); auto.
Qed.

(** ** Alignment *)
Lemma widest_halts {N : Prop} align resolve fields a0 :
  (forall r, halts N (align r) (fun a => 1 <= a <= PointerSize)) -> 1 <= a0 <= PointerSize ->
  halts N (widest align resolve fields a0) (fun a => 1 <= a <= PointerSize).
Proof.
  intros Ha; revert a0; induction fields as [|f fs IH]; intros a0 H0; simpl; [exact H0|].
  destruct (Linking f), (ReturnType f) as [r|]; auto.
  apply halts_read; intros [r'|] _; auto.
  apply (halts_bind _ _ _ _ (Ha r')); intros a H; apply IH; lia.
Qed.

Lemma length_NoDup_dom (T : Table) (stack : list TypeId) :
  NoDup stack -> (forall x, x ∈ stack -> x ∈ dom T) -> (List.length stack <= size T)%nat.
Proof.
  intros Hn Hd; transitivity (size (dom T)); [|rewrite size_dom; reflexivity].
  rewrite <- (size_list_to_set (C := gset TypeId) stack Hn); apply subseteq_size; intros x Hx; apply Hd; apply elem_of_list_to_set in Hx; exact Hx.
Qed.

Lemma alignment_halts {N : Prop} fuel (T : Table) type stack :
  NoDup stack -> (forall x, x ∈ stack -> x ∈ dom T) ->
  (size T < fuel + List.length stack)%nat ->
  halts N (GetTypeAlignmentImpl fuel T type stack) (fun a => 1 <= a <= PointerSize).
Proof.
  revert type stack; induction fuel as [|fuel IH]; intros type stack Hn Hd Hf.
  { pose proof (length_NoDup_dom T stack Hn Hd); lia. }
  simpl; case_bool_decide as Hin; [simpl; unfold PointerSize; lia|].
  apply halts_read; intros t Ht; apply deref_Ok in Ht.
  assert (Hrec : forall r, halts N (GetTypeAlignmentImpl fuel T r (stack ++ [type]))
                             (fun a => 1 <= a <= PointerSize)).
  { intros r; apply IH.
    - apply NoDup_app; repeat split; auto; [|constructor; [apply not_elem_of_nil|constructor]].
      intros x Hx Hx'; apply list_elem_of_singleton in Hx'; congruence.
    - intros x [Hx|Hx]%elem_of_app; [auto|].
      apply list_elem_of_singleton in Hx as ->; apply elem_of_dom; eauto.
    - rewrite length_app; simpl; lia. }
  assert (Hptr : halts N (done PointerSize) (fun a => 1 <= a <= PointerSize))
    by (simpl; unfold PointerSize; lia).
  destruct (Inlining t); [exact Hptr|].
  destruct (Kind t); try exact Hptr; auto.
  - apply halts_read; intros u _; apply widest_halts; auto; unfold PointerSize; lia.
  - destruct (Fields t) as [|f fs]; [simpl; unfold primitive_alignment, PointerSize; lia|].
    refine (widest_halts _ (fun r => Ok (Some r)) (f :: fs) 1 Hrec _); unfold PointerSize; lia.
  - destruct (Fields t) as [|f fs]; [simpl; unfold primitive_alignment, PointerSize; lia|].
    refine (widest_halts _ (fun r => Ok (Some r)) (f :: fs) 1 Hrec _); unfold PointerSize; lia.
Qed.

Lemma GetTypeAlignment_halts {N : Prop} (T : Table) type :
  halts N (GetTypeAlignment T type) (fun a => 1 <= a <= PointerSize).
Proof.
  apply alignment_halts; [constructor| |simpl; lia].
  intros x Hx; apply elem_of_nil in Hx; contradiction.
Qed.

(** ** The layout of a type ends *)
Definition unvisited (s : State) : gset TypeId :=
  dom (filter (fun p => LayoutingState p.2 = Unvisited) (Types s)).

Lemma elem_of_unvisited s id :
  id ∈ unvisited s <-> exists t, Types s !! id = Some t /\ LayoutingState t = Unvisited.
Proof.
  unfold unvisited; rewrite elem_of_dom; unfold is_Some.
  split; intros (t & H); exists t; apply map_lookup_filter_Some in H || apply map_lookup_filter_Some; auto.
Qed.

Lemma unvisited_on_type id f s :
  (forall t, LayoutingState (f t) = Unvisited -> LayoutingState t = Unvisited) ->
  unvisited (on_type id f s) ⊆ unvisited s.
Proof.
  intros Hf x; rewrite !elem_of_unvisited; intros (t & Ht & Hs); unfold on_type, on_Types in Ht; simpl in Ht.
  destruct (decide (x = id)) as [->|Hne].
  - rewrite lookup_alter_eq in Ht; destruct (Types s !! id) as [t0|] eqn:E; [|discriminate].
    simpl in Ht; injection Ht as <-; eauto.
  - rewrite lookup_alter_ne in Ht by congruence; eauto.
Qed.

Lemma unvisited_on_field id i f s : unvisited (on_field id i f s) ⊆ unvisited s.
Proof. apply unvisited_on_type; auto. Qed.

Lemma unvisited_marked id x s : x <> Unvisited -> unvisited (on_type id (with_LayoutingState x) s) ⊆ unvisited s ∖ {[id]}.
Proof.
  intros Hx y Hy; apply elem_of_difference; split.
  - revert y Hy; apply unvisited_on_type; simpl; congruence.
  - intros ->%elem_of_singleton; apply elem_of_unvisited in Hy as (t & Ht & Hs).
    unfold on_type, on_Types in Ht; simpl in Ht; rewrite lookup_alter_eq in Ht.
    destruct (Types s !! id); [|discriminate]; injection Ht as <-; simpl in Hs; contradiction.
Qed.

(** What the layout passes do to a state: no type becomes unvisited again and no
    diagnostic is withdrawn. *)
Definition later (s s' : State) : Prop :=
  unvisited s' ⊆ unvisited s /\ Errors s `prefix_of` Errors s'.
#[export] Instance later_preorder : PreOrder later.
Proof.
  split; [intros s; split; reflexivity|].
  intros s1 s2 s3 [U1 E1] [U2 E2]; split; [set_solver|etransitivity; eauto].
Qed.

Lemma later_on_type id f s :
  (forall t, LayoutingState (f t) = Unvisited -> LayoutingState t = Unvisited) -> later s (on_type id f s).
Proof. split; [apply unvisited_on_type; assumption|reflexivity]. Qed.
Lemma later_on_field id i f s : later s (on_field id i f s).
Proof. apply later_on_type; auto. Qed.

Lemma later_then_type s s' id f :
  later s s' -> (forall t, LayoutingState (f t) = Unvisited -> LayoutingState t = Unvisited) ->
  later s (on_type id f s').
Proof. intros H Hf; etransitivity; [exact H|apply later_on_type, Hf]. Qed.

(** Between a state and itself nothing has to grow. *)
Lemma later_errors s1 s2 s3 : later s1 s2 -> later s2 s3 -> Errors s3 = Errors s1 -> Errors s2 = Errors s1.
Proof.
  intros [_ [e1 H1]] [_ [e2 H2]] H; rewrite H2, H1, <- app_assoc in H.
  rewrite <- (app_nil_r (Errors s1)) in H at 2; apply app_inv_head, app_eq_nil in H as [-> _].
  rewrite H1, app_nil_r; reflexivity.
Qed.

Section FixHalts.
Context (N : Prop) (Fix : TypeId -> State -> fueled State) (U : gset TypeId).
Hypothesis Fix_halts : forall r s,
  r ∈ unvisited s -> unvisited s ⊆ U -> halts N (Fix r s) (later s).

Lemma visit_halts type s : unvisited s ⊆ U -> halts N (visit Fix type s) (later s).
Proof.
  intros Hs; apply halts_read; intros t Ht; apply deref_Ok in Ht.
  case_decide; [|apply halts_done; reflexivity].
  apply Fix_halts; [apply elem_of_unvisited; eauto|exact Hs].
Qed.

Lemma alignment_at_halts {B} s type (k : Z -> fueled B) (Q : B -> Prop) :
  (forall a, halts N (k a) Q) -> halts N (fbind (alignment_at s type) k) Q.
Proof. intros Hk; eapply halts_bind; [apply GetTypeAlignment_halts|auto]. Qed.

Lemma align_size_halts id size s : halts N (align_size id size s) (later s).
Proof. apply alignment_at_halts; intros a; apply halts_done, later_on_type; auto. Qed.

Lemma field_at_halts {B} s owner i (k : FieldSymbol -> fueled B) (Q : B -> Prop) :
  (forall f, halts N (k f) Q) -> halts N (fbind (field_at s owner i) k) Q.
Proof.
  intros Hk; apply halts_bind with (P := fun _ => True); [|auto].
  apply halts_read; intros t _; eapply halts_mono; [apply halts_lift|auto].
Qed.

Lemma assign_slot_halts id owner i r s : halts N (assign_slot id owner i r s) (later s).
Proof.
  apply field_at_halts; intros f; apply halts_read; intros o _.
  set (s1 := if SlotIndex f =? NoSlot then _ else s).
  assert (H1 : later s s1).
  { subst s1; destruct (_ =? _); [|reflexivity].
    repeat (apply later_then_type; [|auto]); reflexivity. }
  apply alignment_at_halts; intros a.
  apply halts_read; intros o' _; apply halts_read; intros rt _; apply halts_done.
  repeat (apply later_then_type; [|auto]); exact H1.
Qed.

Lemma place_field_halts id owner i s :
  unvisited s ⊆ U -> halts N (place_field Fix id owner i s) (later s).
Proof.
  intros Hs; apply field_at_halts; intros f.
  destruct (Linking f), (ReturnType f) as [r|]; try (apply halts_done; reflexivity).
  apply halts_read; intros t _; case_decide.
  { unfold ReportRecursion; destruct (IdentifierToken f); [|exact I].
    apply halts_done; split; [reflexivity|eexists; reflexivity]. }
  eapply halts_bind; [apply visit_halts, Hs|]; intros s1 H1.
  eapply halts_mono; [apply assign_slot_halts|]; intros s2 H2; etransitivity; eauto.
Qed.

Lemma fix_array_halts id s : unvisited s ⊆ U -> halts N (fix_array Fix id s) (later s).
Proof.
  intros Hs; apply halts_read; intros o _; destruct (Kind o); try (apply halts_done; reflexivity).
  eapply halts_bind; [apply visit_halts, Hs|]; intros s1 H1.
  apply halts_read; intros u _; apply halts_done.
  etransitivity; [exact H1|apply later_on_type; auto].
Qed.

Lemma place_generics_halts id underlaying args positions offset s :
  unvisited s ⊆ U ->
  halts N (place_generics Fix id underlaying args positions offset s) (fun r => later s (snd r)).
Proof.
  revert offset s; induction positions as [|i ps IH]; intros offset s Hs; [simpl; reflexivity|].
  apply halts_bind with (P := fun r => later s (snd r)).
  - apply field_at_halts; intros f.
    destruct (Linking f), (ReturnType f) as [r|]; try (apply halts_done; reflexivity).
    apply halts_read; intros c _.
    eapply halts_bind; [apply visit_halts, Hs|]; intros s1 H1.
    apply alignment_at_halts; intros a; apply halts_read; intros t _; apply halts_done; simpl.
    etransitivity; [exact H1|apply later_on_type; auto].
  - intros [o1 s1] H1; simpl in H1.
    eapply halts_mono; [apply IH; destruct H1; set_solver|]; simpl; intros r Hr; etransitivity; eauto.
Qed.

Lemma fix_generic_halts id s : unvisited s ⊆ U -> halts N (fix_generic Fix id s) (later s).
Proof.
  intros Hs; apply halts_read; intros o _; destruct (Kind o); try (apply halts_done; reflexivity).
  eapply halts_bind; [apply visit_halts, Hs|]; intros s1 H1.
  apply halts_read; intros u _.
  assert (H2 : later s1 (on_type id (with_FieldOffsets ∅) s1)) by (apply later_on_type; auto).
  eapply halts_bind; [apply place_generics_halts; destruct H1, H2; set_solver|]; intros [o3 s3] H3; simpl in *.
  eapply halts_mono; [apply align_size_halts|]; intros s4 H4.
  repeat (etransitivity; [eassumption|]); reflexivity.
Qed.
End FixHalts.

(** A nested call of [FixObjectLayout] has fewer types to visit. *)
Lemma FixObjectLayout_halts {N : Prop} fuel id s :
  N \/ (size (unvisited s ∖ {[id]}) < fuel)%nat -> halts N (FixObjectLayout fuel id s) (later s).
Proof.
  revert id s; induction fuel as [|fuel IH]; intros id s Hf; [destruct Hf; [assumption|lia]|]; simpl.
  apply halts_read; intros o _.
  set (s1 := on_type id (with_LayoutingState Visiting) s).
  assert (H0 : later s s1) by (apply later_on_type; simpl; discriminate).
  assert (H1 : unvisited s1 ⊆ unvisited s ∖ {[id]}) by (apply unvisited_marked; discriminate).
  assert (HF : forall r s', r ∈ unvisited s' -> unvisited s' ⊆ unvisited s1 ->
               halts N (FixObjectLayout fuel r s') (later s')).
  { intros r s' Hr Hs'; apply IH; destruct Hf as [Hf|Hf]; [left; exact Hf|right].
    assert (size (unvisited s' ∖ {[r]}) < size (unvisited s'))%nat
      by (apply subset_size; set_solver).
    assert (size (unvisited s') <= size (unvisited s ∖ {[id]}))%nat
      by (apply subseteq_size; set_solver).
    lia. }
  apply halts_read; intros owner _.
  eapply halts_bind.
  { apply (each_halts _ (later s1)); [|reflexivity].
    intros i s' Hs'; eapply halts_mono; [apply (place_field_halts _ _ _ HF); apply Hs'|].
    intros s''; etransitivity; eauto. }
  intros s2 H2.
  eapply halts_bind; [apply (fix_array_halts _ _ _ HF); apply H2|]; intros s3 H3.
  eapply halts_bind; [apply (fix_generic_halts _ _ _ HF); destruct H2, H3; set_solver|]; intros s4 H4.
  apply halts_read; intros o' _.
  eapply halts_bind; [apply align_size_halts|]; intros s5 H5.
  apply halts_done; repeat (etransitivity; [eassumption|]); apply later_on_type; simpl; discriminate.
Qed.

Lemma layout_types_halt {N : Prop} fuel types s :
  N \/ (size (Types s) < fuel)%nat -> halts N (each (layout_type fuel) types s) (later s).
Proof.
  intros Hf; apply (each_halts _ (later s)); [|reflexivity].
  intros id s' Hs'; apply halts_read; intros t _; case_decide; [exact Hs'|].
  eapply halts_mono; [apply FixObjectLayout_halts|intros s'' Hl; etransitivity; eauto].
  destruct Hf as [Hf|Hf]; [left; exact Hf|right].
  eapply Nat.le_lt_trans; [|exact Hf]; transitivity (size (dom (Types s))); [|rewrite size_dom; reflexivity].
  apply subseteq_size; intros x [Hx _]%elem_of_difference.
  apply Hs', elem_of_unvisited in Hx as (t' & Hx & _); apply elem_of_dom; eauto.
Qed.
