(* ===== verification/LayoutRun.v ===== *)
(** * Layout of objects: the two passes in step

    What [FixObjectLayout] writes into a table is stated as an equation between
    the offsets of a type's fields, their types' sizes and their alignments
    ([placed], [laid]); the order in which it visits types is a relation
    ([walk]).  [BuildShape] visits the types in the same order and satisfies the
    same equation, for tables without array, generic and parameter types. *)
From Stdlib Require Import ZArith Lia Bool List String.
From stdpp Require Import base list gmap sets fin_sets fin_map_dom.
From S2P Require Import Prelude Layout LayoutFacts.
Import ListNotations.
Open Scope Z_scope.
Open Scope shard_scope.

(** ** The part of a table the passes leave alone *)
Definition signature (f : FieldSymbol) := (Linking f, ReturnType f, IdentifierToken f).

Record similar (t t' : TypeSymbol) : Prop := mkSimilar {
  sim_kind : Kind t = Kind t';
  sim_inlining : Inlining t = Inlining t';
  sim_parameters : TypeParameters t = TypeParameters t';
  sim_fields : map signature (Fields t) = map signature (Fields t');
  sim_primitive : Inlining t = ByValue -> Fields t = [] ->
    primitive_alignment (MemoryBytesSize t) = primitive_alignment (MemoryBytesSize t') }.

Lemma similar_fields_nil t t' : similar t t' -> Fields t = [] <-> Fields t' = [].
Proof.
  intros H; pose proof (sim_fields _ _ H) as E.
  destruct (Fields t), (Fields t'); simpl in E; split; congruence.
Qed.

#[export] Instance similar_equivalence : Equivalence similar.
Proof.
  split; [intros t; constructor; auto|intros t t' S|intros t1 t2 t3 H12 H23].
  - constructor; [symmetry; apply S..|]; intros I E; symmetry; apply (sim_primitive _ _ S).
    + rewrite (sim_inlining _ _ S); exact I.
    + apply (similar_fields_nil _ _ S), E.
  - constructor; [etransitivity; [apply H12|apply H23]..|].
    intros I E; etransitivity; [apply (sim_primitive _ _ H12 I E)|].
    apply (sim_primitive _ _ H23); [rewrite <- (sim_inlining _ _ H12); exact I|].
    apply (similar_fields_nil _ _ H12), E.
Qed.

Definition alike (T T' : Table) : Prop := forall x, option_Forall2 similar (T !! x) (T' !! x).

#[export] Instance alike_equivalence : Equivalence alike.
Proof.
  split.
  - intros T x; destruct (T !! x); constructor; reflexivity.
  - intros T T' H x; destruct (H x); constructor; symmetry; assumption.
  - intros T1 T2 T3 H12 H23 y; specialize (H12 y); specialize (H23 y).
    inversion H12 as [t1 t2 H E1 E2|E1 E2]; rewrite <- E2 in H23; inversion H23; constructor.
    etransitivity; eauto.
Qed.

Lemma alike_dom T T' : alike T T' -> dom T = dom T'.
Proof.
  intros H; apply set_eq; intros x; rewrite !elem_of_dom; specialize (H x).
  destruct H; split; intros [? E]; try discriminate; eauto.
Qed.

Lemma alike_lookup T T' x t : alike T T' -> T !! x = Some t -> exists t', T' !! x = Some t' /\ similar t t'.
Proof. intros H E; specialize (H x); rewrite E in H; inversion H; eauto. Qed.
Lemma alike_lookup_r T T' x t' : alike T T' -> T' !! x = Some t' -> exists t, T !! x = Some t /\ similar t t'.
Proof. intros H E; specialize (H x); rewrite E in H; inversion H; eauto. Qed.

Lemma alike_insert T T' x t t' :
  alike T T' -> T' !! x = Some t -> similar t t' -> alike T (<[x := t']> T').
Proof.
  intros H E S y; destruct (decide (y = x)) as [->|Hne].
  - rewrite lookup_insert_eq; specialize (H x); rewrite E in H; inversion H; constructor.
    etransitivity; eauto.
  - rewrite lookup_insert_ne by congruence; apply H.
Qed.

(** Alignment does not depend on the rest. *)
Lemma widest_alike align align' resolve resolve' fs fs' a :
  (forall r, align r = align' r) -> (forall r, resolve r = resolve' r) ->
  map signature fs = map signature fs' ->
  widest align resolve fs a = widest align' resolve' fs' a.
Proof.
  intros Ha Hr; revert fs' a; induction fs as [|f fs IH]; intros [|f' fs'] a E; try discriminate; [reflexivity|].
  injection E as EL ER _ E; simpl; rewrite <- EL, <- ER.
  destruct (Linking f), (ReturnType f) as [r|]; try (apply IH; exact E).
  rewrite <- Hr; destruct (resolve r) as [[r'|]| |]; simpl; try reflexivity; try (apply IH; exact E).
  rewrite <- Ha; destruct (align r') as [[b| |]|]; simpl; try reflexivity; apply IH; exact E.
Qed.

Lemma argument_for_alike T T' args r : alike T T' -> argument_for T args r = argument_for T' args r.
Proof.
  intros H; unfold argument_for, is_parameter; specialize (H r).
  destruct H as [t t' S|]; simpl; [rewrite (sim_kind _ _ S)|]; reflexivity.
Qed.

Lemma alignment_alike fuel T T' type stack :
  alike T T' -> GetTypeAlignmentImpl fuel T type stack = GetTypeAlignmentImpl fuel T' type stack.
Proof.
  intros H; revert type stack; induction fuel as [|fuel IH]; intros type stack; [reflexivity|].
  simpl; case_bool_decide; [reflexivity|]; pose proof (H type) as Hx.
  destruct Hx as [t t' S|]; [simpl|reflexivity].
  rewrite <- (sim_inlining _ _ S), <- (sim_kind _ _ S).
  pose proof (sim_fields _ _ S) as EF; pose proof (sim_primitive _ _ S) as EP.
  destruct (Inlining t); [reflexivity|]; specialize (EP eq_refl).
  assert (Hplain : match Fields t with
                   | [] => done (primitive_alignment (MemoryBytesSize t))
                   | fields => widest (fun r => GetTypeAlignmentImpl fuel T r (stack ++ [type]))
                                 (fun r => Ok (Some r)) fields 1
                   end =
                   match Fields t' with
                   | [] => done (primitive_alignment (MemoryBytesSize t'))
                   | fields => widest (fun r => GetTypeAlignmentImpl fuel T' r (stack ++ [type]))
                                 (fun r => Ok (Some r)) fields 1
                   end).
  { destruct (Fields t) as [|f fs], (Fields t') as [|f' fs']; try discriminate EF.
    - rewrite EP; reflexivity.
    - apply widest_alike; auto. }
  destruct (Kind t) as [u n|u args| | |]; auto.
  pose proof (H u) as Hu; destruct Hu as [tu tu' Su|]; [simpl|reflexivity].
  apply widest_alike; auto; [intros r; apply argument_for_alike, H|apply sim_fields, Su].
Qed.

Lemma GetTypeAlignment_alike T T' type : alike T T' -> GetTypeAlignment T type = GetTypeAlignment T' type.
Proof.
  intros H; unfold GetTypeAlignment.
  replace (size T') with (size T) by (rewrite <- !size_dom, (alike_dom _ _ H); reflexivity).
  apply alignment_alike, H.
Qed.

Lemma GetTypeAlignment_reference T type t :
  T !! type = Some t -> Inlining t = ByReference -> GetTypeAlignment T type = done PointerSize.
Proof.
  intros E I; unfold GetTypeAlignment; cbn [GetTypeAlignmentImpl].
  rewrite bool_decide_eq_false_2 by apply not_elem_of_nil.
  rewrite E; simpl; rewrite I; reflexivity.
Qed.

(** ** The tables compared

    [plain]: the instance fields of every type have an object or enum type of
    the table.  [untouched]: a type the layout has yet to visit has no slots, and
    no size when it has fields. *)
Definition instance_type (f : FieldSymbol) : option TypeId :=
  match Linking f with Instance => ReturnType f | Static => None end.

Record plain_type (T : Table) (t : TypeSymbol) : Prop := mkPlain {
  plain_kind : Kind t = ObjectType \/ Kind t = EnumDeclaration;
  plain_count : Z.of_nat (List.length (Fields t)) < NoSlot;
  plain_field : forall f, f ∈ Fields t -> Linking f = Instance ->
    exists r rt, ReturnType f = Some r /\ T !! r = Some rt }.
Definition plain (T : Table) : Prop := forall x t, T !! x = Some t -> plain_type T t.

Record untouched (t : TypeSymbol) : Prop := mkUntouched {
  untouched_slots : Forall (fun f => SlotIndex f = NoSlot) (Fields t);
  untouched_next : NextSlotIndex t = 0;
  untouched_size : 0 <= MemoryBytesSize t <= 2 ^ 63;
  untouched_empty : Fields t = [] \/ MemoryBytesSize t = 0 }.
Definition fresh_types (T : Table) : Prop :=
  forall x t, T !! x = Some t -> LayoutingState t = Unvisited -> untouched t.

(** ** The equation of a layout

    [placed T k off fs k' off']: the fields [fs] have the slots from [k] on and,
    starting at offset [off], each the next aligned offset; [k'] and [off'] are
    what follows.  A by-value field's type is laid out. *)
Inductive placed (T : Table) : Z -> Z -> list FieldSymbol -> Z -> Z -> Prop :=
| placed_nil k off : placed T k off [] k off
| placed_static k off f fs k' off' :
    Linking f = Static -> placed T k off fs k' off' -> placed T k off (f :: fs) k' off'
| placed_instance k off f fs r rt a k' off' :
    Linking f = Instance -> ReturnType f = Some r -> T !! r = Some rt ->
    (Inlining rt = ByValue -> LayoutingState rt = Visited) ->
    GetTypeAlignment T r = done a ->
    SlotIndex f = k -> MemoryBytesOffset f = AlignUp off a ->
    placed T (k + 1) (size_t (AlignUp off a + GetInlineSize rt)) fs k' off' ->
    placed T k off (f :: fs) k' off'.

Definition laid (T : Table) (x : TypeId) (t : TypeSymbol) : Prop :=
  exists k off a, placed T 0 0 (Fields t) k off /\ GetTypeAlignment T x = done a /\
    MemoryBytesSize t = AlignUp off a.
Definition all_laid (T : Table) : Prop :=
  forall x t, T !! x = Some t -> LayoutingState t = Visited -> Fields t = [] \/ laid T x t.

Definition in_state (st : TypeLayoutingState) (T : Table) (x : TypeId) : Prop :=
  exists t, T !! x = Some t /\ LayoutingState t = st.

(** [inlines T x r]: an object of type [x] holds one of type [r]. *)
Definition inlines (T : Table) (x r : TypeId) : Prop :=
  exists t rt, T !! x = Some t /\ Some r ∈ map instance_type (Fields t) /\
    T !! r = Some rt /\ Inlining rt = ByValue.
Definition ordered (T : Table) : Prop :=
  exists rank : TypeId -> nat, forall x r,
    in_state Visited T x -> inlines T x r -> in_state Visited T r /\ (rank r < rank x)%nat.

(** Growing a layout. *)
Lemma placed_app T k off fs fs' k' off' k'' off'' :
  placed T k off fs k' off' -> placed T k' off' fs' k'' off'' -> placed T k off (fs ++ fs') k'' off''.
Proof.
  induction 1; intros Hx; simpl; [exact Hx|constructor; auto|eapply placed_instance; eauto].
Qed.

Definition stable (T T' : Table) : Prop :=
  alike T T' /\ forall x t, T !! x = Some t -> LayoutingState t = Visited -> T' !! x = Some t.

#[export] Instance stable_preorder : PreOrder stable.
Proof.
  split; [intros T; split; [reflexivity|auto]|].
  intros T1 T2 T3 [A1 V1] [A2 V2]; split; [etransitivity; eauto|eauto].
Qed.

Lemma placed_stable T T' k off fs k' off' :
  stable T T' -> placed T k off fs k' off' -> placed T' k off fs k' off'.
Proof.
  intros [HA HV]; induction 1 as [|k off f fs k' off' HL Hp IH|
    k off f fs r rt a k' off' HL HR Hr Hv Ha Hk Ho Hp IH]; [constructor|constructor; auto|].
  rewrite (GetTypeAlignment_alike _ _ _ HA) in Ha.
  destruct (Inlining rt) eqn:I.
  - destruct (alike_lookup _ _ _ _ HA Hr) as (rt' & Hr' & S).
    assert (I' : Inlining rt' = ByReference) by (rewrite <- (sim_inlining _ _ S); exact I).
    eapply placed_instance; eauto; [rewrite I'; discriminate|].
    unfold GetInlineSize in *; rewrite I'; rewrite I in IH; exact IH.
  - eapply placed_instance; eauto.
Qed.

Lemma laid_stable T T' x t : stable T T' -> laid T x t -> laid T' x t.
Proof.
  intros HS (k & off & a & Hp & Ha & Hs); exists k, off, a; split; [exact (placed_stable _ _ _ _ _ _ _ HS Hp)|].
  rewrite <- (GetTypeAlignment_alike _ _ _ (proj1 HS)); auto.
Qed.

Lemma instance_types_similar t t' :
  similar t t' -> map instance_type (Fields t) = map instance_type (Fields t').
Proof.
  intros S; pose proof (sim_fields _ _ S) as E; revert E.
  generalize (Fields t) (Fields t'); induction l as [|f fs IH]; intros [|f' fs'] E; try discriminate; [reflexivity|].
  injection E as EL ER _ E; simpl; f_equal; [unfold instance_type; rewrite EL, ER; reflexivity|auto].
Qed.

Lemma inlines_alike T T' x r : alike T T' -> inlines T x r -> inlines T' x r.
Proof.
  intros H (t & rt & Hx & Hin & Hr & I).
  destruct (alike_lookup _ _ _ _ H Hx) as (t' & Hx' & S).
  destruct (alike_lookup _ _ _ _ H Hr) as (rt' & Hr' & Sr).
  exists t', rt'; rewrite <- (instance_types_similar _ _ S), <- (sim_inlining _ _ Sr); auto.
Qed.

(** ** The order of the visits

    [walk T n M rs M']: visiting the types [rs] in turn, [n] deep at most, takes
    the layouting states [M] to [M'], and never meets a by-value type that is
    being visited. *)
Abbreviation Marks := (gmap TypeId TypeLayoutingState).
Definition marks (T : Table) : Marks := LayoutingState <$> T.

Inductive walk (T : Table) : nat -> Marks -> list (option TypeId) -> Marks -> Prop :=
| walk_nil n M : walk T n M [] M
| walk_skip n M rs M' : walk T n M rs M' -> walk T n M (None :: rs) M'
| walk_seen n M r rt st rs M' :
    T !! r = Some rt -> M !! r = Some st -> st <> Unvisited ->
    (Inlining rt = ByValue -> st = Visited) ->
    walk T n M rs M' -> walk T n M (Some r :: rs) M'
| walk_new n M r rt M1 rs M' :
    T !! r = Some rt -> M !! r = Some Unvisited ->
    walk T n (<[r := Visiting]> M) (map instance_type (Fields rt)) M1 ->
    walk T (S n) (<[r := Visited]> M1) rs M' ->
    walk T (S n) M (Some r :: rs) M'.

Lemma marks_lookup T x t : T !! x = Some t -> marks T !! x = Some (LayoutingState t).
Proof. intros E; unfold marks; rewrite lookup_fmap, E; reflexivity. Qed.
Lemma marks_insert T x t : marks (<[x := t]> T) = <[x := LayoutingState t]> (marks T).
Proof. unfold marks; apply fmap_insert. Qed.

(** ** One field of [FixObjectLayout] *)
Lemma alter_Some {A} (f : A -> A) (T : gmap TypeId A) x a : T !! x = Some a -> alter f x T = <[x := f a]> T.
Proof.
  intros E; apply map_eq; intros y; destruct (decide (y = x)) as [->|Hne].
  - rewrite lookup_alter_eq, lookup_insert_eq, E; reflexivity.
  - rewrite lookup_alter_ne, lookup_insert_ne by congruence; reflexivity.
Qed.
Lemma list_alter_Some {A} (f : A -> A) (l : list A) i a : l !! i = Some a -> alter f i l = <[i := f a]> l.
Proof.
  revert i; induction l as [|b l IH]; intros [|i] E; try discriminate; simpl in *.
  - injection E as ->; reflexivity.
  - f_equal; apply IH, E.
Qed.

Lemma on_type_Some id f s t : Types s !! id = Some t -> on_type id f s = on_Types (<[id := f t]>) s.
Proof. intros E; unfold on_type, on_Types; rewrite (alter_Some _ _ _ _ E); reflexivity. Qed.
Lemma on_field_Some id i f s t fd :
  Types s !! id = Some t -> Fields t !! i = Some fd ->
  on_field id i f s = on_Types (<[id := with_Fields (<[i := f fd]> (Fields t)) t]>) s.
Proof. intros E F; unfold on_field; rewrite (on_type_Some _ _ _ _ E), (list_alter_Some _ _ _ _ F); reflexivity. Qed.
Lemma on_Types_twice id t t' s : on_Types (<[id := t']>) (on_Types (<[id := t]>) s) = on_Types (<[id := t']>) s.
Proof. unfold on_Types; simpl; rewrite insert_insert_eq; reflexivity. Qed.

Lemma lookup_put s id t : Types (on_Types (<[id := t]>) s) !! id = Some t.
Proof. apply lookup_insert_eq. Qed.
Lemma type_at_Some s id t : Types s !! id = Some t -> type_at s id = done t.
Proof. intros E; unfold type_at; rewrite E; reflexivity. Qed.

(** The object after the field [f] of its position [i] got its place. *)
Definition slotted (t : TypeSymbol) (i : nat) (f : FieldSymbol) (a inline : Z) : TypeSymbol :=
  let offset := AlignUp (MemoryBytesSize t) a in
  mkType (Kind t) (Inlining t) (TypeParameters t)
    (<[i := mkField (Linking f) (ReturnType f) (NextSlotIndex t) offset (IdentifierToken f)]> (Fields t))
    (LayoutingState t) (size_t (offset + inline)) (NextSlotIndex t + 1) (FieldOffsets t).

Lemma similar_slotted t i f a inline : Fields t !! i = Some f -> similar t (slotted t i f a inline).
Proof.
  intros E; constructor; try reflexivity.
  - simpl; rewrite list_fmap_insert; symmetry; apply list_insert_id.
    rewrite list_lookup_fmap, E; reflexivity.
  - intros _ En; rewrite En in E; discriminate.
Qed.

Lemma assign_slot_run id i r s s' t f rt :
  Types s !! id = Some t -> Fields t !! i = Some f -> SlotIndex f = NoSlot ->
  0 <= NextSlotIndex t < NoSlot -> Types s !! r = Some rt -> (r = id -> Inlining rt = ByReference) ->
  assign_slot id id i r s = done s' ->
  exists a, GetTypeAlignment (Types s) r = done a /\
    s' = on_Types (<[id := slotted t i f a (GetInlineSize rt)]>) s.
Proof.
  intros Ht Hf Hn Hb Hr Hs H; unfold assign_slot, field_at in H.
  rewrite (type_at_Some _ _ _ Ht) in H; cbn [fbind done] in H; rewrite Hf in H; cbn [fbind lift deref] in H.
  rewrite Hn, Z.eqb_refl in H.
  rewrite (on_field_Some _ _ _ _ _ _ Ht Hf), (on_type_Some id _ _ _ (lookup_put _ _ _)), on_Types_twice in H.
  set (t1 := with_NextSlotIndex _ _) in H.
  assert (S1 : similar t t1).
  { subst t1; constructor; try reflexivity; simpl.
    rewrite list_fmap_insert; symmetry; apply list_insert_id; rewrite list_lookup_fmap, Hf; reflexivity. }
  apply fbind_done in H as (a & Ha & H); unfold alignment_at in Ha; simpl in Ha.
  assert (HA : alike (Types s) (<[id := t1]> (Types s))) by (eapply alike_insert; eauto; reflexivity).
  rewrite <- (GetTypeAlignment_alike _ _ _ HA) in Ha; exists a; split; [exact Ha|].
  rewrite (type_at_Some _ _ _ (lookup_put _ _ _)) in H; cbn [fbind done] in H.
  rewrite (on_type_Some id _ _ _ (lookup_put _ _ _)), on_Types_twice in H.
  set (t2 := with_MemoryBytesSize _ t1) in H.
  assert (F2 : Fields t2 !! i = Some (with_SlotIndex (NextSlotIndex t) f))
    by (simpl; apply list_lookup_insert_eq, lookup_lt_Some with f, Hf).
  rewrite (on_field_Some _ _ _ _ _ _ (lookup_put _ _ _) F2), on_Types_twice in H.
  set (t3 := with_Fields _ t2) in H.
  apply fbind_done in H as (rt' & Hr' & H).
  rewrite (on_type_Some id _ _ _ (lookup_put _ _ _)), on_Types_twice in H; apply done_inj in H as <-.
  assert (EI : GetInlineSize rt' = GetInlineSize rt).
  { destruct (decide (r = id)) as [->|Hne].
    - rewrite (type_at_Some _ _ _ (lookup_put _ _ _)) in Hr'; apply done_inj in Hr' as <-.
      rewrite Ht in Hr; injection Hr as <-; unfold GetInlineSize; simpl; rewrite (Hs eq_refl); reflexivity.
    - unfold type_at in Hr'; simpl in Hr'; rewrite lookup_insert_ne, Hr in Hr' by congruence.
      apply done_inj in Hr' as <-; reflexivity. }
  assert (EN : uint32 (NextSlotIndex t + 1) = NextSlotIndex t + 1)
    by (unfold uint32, NoSlot in *; rewrite Z.mod_small; lia).
  rewrite EI; unfold slotted, t3, t2, t1, with_MemoryBytesSize, with_Fields, with_NextSlotIndex; simpl.
  rewrite EN, list_insert_insert_eq; reflexivity.
Qed.
