(* ===== verification/LayoutWalk.v ===== *)
(** * Layout of objects: the layout pass

    A successful [FixObjectLayout] without diagnostics is a walk, and leaves a
    table whose visited types satisfy the layout equation, with by-value fields
    laid out before the objects that hold them. *)
From Stdlib Require Import ZArith Lia Bool List String.
From stdpp Require Import base list gmap sets fin_sets fin_map_dom.
From S2P Require Import Prelude Layout LayoutFacts LayoutRun.
Import ListNotations.
Open Scope Z_scope.
Open Scope shard_scope.

Lemma fix_later n id s s' : FixObjectLayout n id s = done s' -> later s s'.
Proof. apply (halts_of_done (N := True)), (FixObjectLayout_halts (N := True)); left; exact I. Qed.
Lemma assign_later id owner i r s s' : assign_slot id owner i r s = done s' -> later s s'.
Proof. apply (halts_of_done (N := True)), (assign_slot_halts True). Qed.
Lemma align_later id size s s' : align_size id size s = done s' -> later s s'.
Proof. apply (halts_of_done (N := True)), (align_size_halts True). Qed.
Lemma place_later n id owner i s s' :
  place_field (FixObjectLayout n) id owner i s = done s' -> later s s'.
Proof.
  apply (halts_of_done (N := True)), (place_field_halts True _ (unvisited s)); [|reflexivity].
  intros r s1 _ _; apply FixObjectLayout_halts; left; exact I.
Qed.
Lemma array_later n id s s' : fix_array (FixObjectLayout n) id s = done s' -> later s s'.
Proof.
  apply (halts_of_done (N := True)), (fix_array_halts True _ (unvisited s)); [|reflexivity].
  intros r s1 _ _; apply FixObjectLayout_halts; left; exact I.
Qed.
Lemma generic_later n id s s' : fix_generic (FixObjectLayout n) id s = done s' -> later s s'.
Proof.
  apply (halts_of_done (N := True)), (fix_generic_halts True _ (unvisited s)); [|reflexivity].
  intros r s1 _ _; apply FixObjectLayout_halts; left; exact I.
Qed.
Lemma each_later {A} (body : A -> State -> fueled State) xs s s' :
  (forall x s1 s2, body x s1 = done s2 -> later s1 s2) -> each body xs s = done s' -> later s s'.
Proof.
  intros Hb; revert s; induction xs as [|x xs IH]; intros s H; simpl in H; fstep; [subst; reflexivity|].
  etransitivity; [eapply Hb; eassumption|apply IH, H].
Qed.

(** ** How tables change *)

(** Outside [X] a type stays as it is or goes from unvisited to visited. *)
Definition evolves (X : option TypeId) (T T' : Table) : Prop :=
  alike T T' /\ forall x t, T !! x = Some t -> X <> Some x ->
    T' !! x = Some t \/ LayoutingState t = Unvisited /\ in_state Visited T' x.

Lemma evolves_refl X T : evolves X T T.
Proof. split; [reflexivity|auto]. Qed.
Lemma evolves_trans X T1 T2 T3 : evolves X T1 T2 -> evolves X T2 T3 -> evolves X T1 T3.
Proof.
  intros [A1 V1] [A2 V2]; split; [etransitivity; eauto|].
  intros x t E Hx; destruct (V1 x t E Hx) as [E'|[Hu (t2 & E2 & S2)]]; [exact (V2 x t E' Hx)|].
  destruct (V2 x t2 E2 Hx) as [E3|[Hu' _]]; [right; split; [exact Hu|exists t2; auto]|congruence].
Qed.
Lemma evolves_weaken X T T' : evolves None T T' -> evolves X T T'.
Proof. intros [A V]; split; [exact A|intros x t E _; apply V; [exact E|discriminate]]. Qed.
Lemma evolves_put T x t t' : T !! x = Some t -> similar t t' -> evolves (Some x) T (<[x := t']> T).
Proof.
  intros E S; split; [eapply alike_insert; eauto; reflexivity|].
  intros y ty Ey Hne; left; rewrite lookup_insert_ne by congruence; exact Ey.
Qed.
Lemma evolves_kept X T T' x t :
  evolves X T T' -> T !! x = Some t -> X <> Some x -> LayoutingState t <> Unvisited -> T' !! x = Some t.
Proof. intros [_ V] E Hx Hu; destruct (V x t E Hx) as [?|[? _]]; [assumption|contradiction]. Qed.
Lemma evolves_stable X T T' :
  evolves X T T' -> (forall x, X = Some x -> ~ in_state Visited T x) -> stable T T'.
Proof.
  intros H HX; split; [apply H|intros x t E Hv]; eapply evolves_kept; eauto; [|congruence].
  intros E'; apply (HX x E'); exists t; auto.
Qed.

Lemma AlignUp_nonneg offset a : 0 <= offset -> 0 <= AlignUp offset a.
Proof. unfold AlignUp; destruct (_ <=? _); [auto|intros _; apply Z.mod_pos_bound; reflexivity]. Qed.

Section Walk.
Context (T0 : Table) (T0_plain : plain T0).

Record good (T : Table) : Prop := mkGood {
  good_alike : alike T0 T;
  good_fresh : fresh_types T;
  good_laid : all_laid T;
  good_ordered : ordered T;
  good_sizes : forall x t, T !! x = Some t -> 0 <= MemoryBytesSize t }.

Lemma good_field T x t f :
  alike T0 T -> T !! x = Some t -> f ∈ Fields t -> Linking f = Instance ->
  exists r rt, ReturnType f = Some r /\ T !! r = Some rt.
Proof.
  intros HA E Hf HL; destruct (alike_lookup_r _ _ _ _ HA E) as (t0 & E0 & S).
  assert (Hin : signature f ∈ map signature (Fields t0))
    by (rewrite (sim_fields _ _ S); apply list_elem_of_In, in_map, list_elem_of_In, Hf).
  apply list_elem_of_In, in_map_iff in Hin as (f0 & Hsig & Hf0%list_elem_of_In); injection Hsig as HL0 HR0 _.
  destruct (plain_field _ _ (T0_plain _ _ E0) f0 Hf0) as (r & rt & Hr & Ert); [congruence|].
  destruct (alike_lookup _ _ _ _ HA Ert) as (rt' & Ert' & _); exists r, rt'; split; [congruence|exact Ert'].
Qed.

(** What happens to an object that is not laid out does not disturb the others. *)
Lemma not_visited T x t st : T !! x = Some t -> LayoutingState t <> st -> ~ in_state st T x.
Proof. intros E H (t' & E' & H'); congruence. Qed.

Lemma stable_put T x t t' :
  T !! x = Some t -> LayoutingState t <> Visited -> similar t t' -> stable T (<[x := t']> T).
Proof.
  intros E Hv S; eapply evolves_stable; [eapply evolves_put; eauto|].
  intros y [= <-]; eapply not_visited; eauto.
Qed.

Lemma stable_state T T' x : stable T T' -> in_state Visited T x -> in_state Visited T' x.
Proof. intros [_ V] (t & E & H); exists t; split; [exact (V x t E H)|exact H]. Qed.

Lemma put_inv (T : Table) x t' y t :
  <[x := t']> T !! y = Some t -> y = x /\ t = t' \/ y <> x /\ T !! y = Some t.
Proof.
  destruct (decide (y = x)) as [->|Hne].
  - rewrite lookup_insert_eq; intros [= <-]; auto.
  - rewrite lookup_insert_ne by congruence; auto.
Qed.

Lemma good_put T x t t' :
  good T -> T !! x = Some t -> LayoutingState t <> Visited -> similar t t' -> LayoutingState t' = Visiting ->
  0 <= MemoryBytesSize t' -> good (<[x := t']> T).
Proof.
  intros [HA HF HL (rank & HO) HZ] E Hv S Hv' Hz; pose proof (stable_put _ _ _ _ E Hv S) as HS.
  constructor; [eapply alike_insert; eauto| | | |intros y ty [[-> ->]|[_ Ey]]%put_inv; eauto].
  - intros y ty [[-> ->]|[_ Ey]]%put_inv Hy; [congruence|eauto].
  - intros y ty [[-> ->]|[_ Ey]]%put_inv Hy; [congruence|].
    destruct (HL y ty Ey Hy); [auto|right; eapply laid_stable; eauto].
  - exists rank; intros y r (ty & [[-> ->]|[_ Ey]]%put_inv & Hy) Hr; [congruence|].
    apply (inlines_alike _ T) in Hr; [|symmetry; apply HS].
    destruct (HO y r) as [Hv'' Hrank]; [exists ty; auto|exact Hr|].
    split; [eapply stable_state; eauto|exact Hrank].
Qed.

(** ** The loop over the fields

    [busy]: the object [x] has its first fields placed and the rest untouched. *)
Record busy (T : Table) (x : TypeId) (t : TypeSymbol) (base : Z) (before rest : list FieldSymbol) : Prop := mkBusy {
  busy_here : T !! x = Some t;
  busy_state : LayoutingState t = Visiting;
  busy_fields : Fields t = before ++ rest;
  busy_rest : Forall (fun f => SlotIndex f = NoSlot) rest;
  busy_next : 0 <= NextSlotIndex t /\ NextSlotIndex t + Z.of_nat (List.length rest) < NoSlot;
  busy_placed : placed T 0 base before (NextSlotIndex t) (MemoryBytesSize t) }.

Definition fix_walks (n : nat) : Prop := forall id s s' t,
  good (Types s) -> Types s !! id = Some t -> LayoutingState t = Unvisited ->
  FixObjectLayout n id s = done s' -> Errors s' = Errors s ->
  good (Types s') /\ evolves None (Types s) (Types s') /\ Shapes s' = Shapes s /\
  exists t0 n' M, n = S n' /\ T0 !! id = Some t0 /\
    walk T0 n' (<[id := Visiting]> (marks (Types s))) (map instance_type (Fields t0)) M /\
    marks (Types s') = <[id := Visited]> M.

(** The type of a by-value or by-reference field, once visited. *)
Lemma visit_walks n id r s s1 rt :
  fix_walks n -> good (Types s) -> ~ in_state Unvisited (Types s) id -> Types s !! r = Some rt ->
  ~ (Inlining rt = ByValue /\ LayoutingState rt = Visiting) ->
  visit (FixObjectLayout n) r s = done s1 -> Errors s1 = Errors s ->
  good (Types s1) /\ evolves None (Types s) (Types s1) /\ Shapes s1 = Shapes s /\
  (exists rt1, Types s1 !! r = Some rt1 /\ (Inlining rt1 = ByValue -> LayoutingState rt1 = Visited)) /\
  forall rs M', walk T0 n (marks (Types s1)) rs M' -> walk T0 n (marks (Types s)) (Some r :: rs) M'.
Proof.
  intros IH HG Hid Hr Hnv H HE.
  unfold visit in H; rewrite (type_at_Some _ _ _ Hr) in H; cbn [fbind done] in H.
  destruct (alike_lookup_r _ _ _ _ (good_alike _ HG) Hr) as (rt0 & Hr0 & Sr).
  case_decide as Hu.
  - destruct (IH r s s1 rt HG Hr Hu H HE) as (HG1 & HV1 & HS1 & t0 & n' & M & -> & Ht0 & HW & HM).
    split; [exact HG1|]; split; [exact HV1|]; split; [exact HS1|]; split.
    + destruct (alike_lookup _ _ _ _ (proj1 HV1) Hr) as (rt1 & Hr1 & _); exists rt1; split; [exact Hr1|].
      intros _; apply marks_lookup in Hr1; rewrite HM, lookup_insert_eq in Hr1; congruence.
    + intros rs M' HW'; rewrite HM in HW'.
      eapply walk_new; [exact Hr0|rewrite (marks_lookup _ _ _ Hr), Hu; reflexivity| |exact HW'].
      rewrite Hr0 in Ht0; injection Ht0 as ->; exact HW.
  - apply done_inj in H as <-.
    assert (Hseen : Inlining rt = ByValue -> LayoutingState rt = Visited).
    { intros I; destruct (LayoutingState rt) eqn:E; [congruence| |reflexivity]; exfalso; apply Hnv; auto. }
    split; [exact HG|]; split; [apply evolves_refl|]; split; [reflexivity|]; split; [exists rt; auto|].
    intros rs M' HW; eapply walk_seen; [exact Hr0|apply marks_lookup, Hr|exact Hu| |exact HW].
    rewrite (sim_inlining _ _ Sr); exact Hseen.
Qed.

Lemma place_step n id s s' t base before f rest :
  fix_walks n -> good (Types s) -> busy (Types s) id t base before (f :: rest) ->
  place_field (FixObjectLayout n) id id (List.length before) s = done s' -> Errors s' = Errors s ->
  exists t' f', good (Types s') /\ busy (Types s') id t' base (before ++ [f']) rest /\
    evolves (Some id) (Types s) (Types s') /\ Shapes s' = Shapes s /\
    forall rs M', walk T0 n (marks (Types s')) rs M' -> walk T0 n (marks (Types s)) (instance_type f :: rs) M'.
Proof.
  intros IH HG [Ht Hst HF Hrest Hnext Hpl] H HE; simpl in Hnext.
  assert (Hf : Fields t !! List.length before = Some f)
    by (rewrite HF; apply list_lookup_middle; reflexivity).
  unfold place_field, field_at in H; rewrite (type_at_Some _ _ _ Ht) in H; cbn [fbind done] in H.
  rewrite Hf in H; cbn [fbind lift deref] in H.
  apply Forall_cons in Hrest as [Hns Hrest].
  destruct (Linking f) eqn:HL.
  { apply done_inj in H as <-; exists t, f; split; [exact HG|]; split; [constructor; auto|].
    - rewrite HF, <- app_assoc; reflexivity.
    - lia.
    - eapply placed_app; [exact Hpl|]; apply placed_static; [exact HL|constructor].
    - split; [apply evolves_refl|]; split; [reflexivity|].
      intros rs M' HW; unfold instance_type; rewrite HL; constructor; exact HW. }
  destruct (good_field _ _ _ f (good_alike _ HG) Ht) as (r & rt & HR & Hr); [|exact HL|].
  { rewrite HF; set_solver. }
  rewrite HR in H; rewrite (type_at_Some _ _ _ Hr) in H; cbn [fbind done] in H.
  case_decide as Hrec.
  { unfold ReportRecursion in H; destruct (IdentifierToken f); [|discriminate].
    apply done_inj in H as <-; simpl in HE.
    apply (f_equal (@List.length _)) in HE; rewrite length_app in HE; simpl in HE; lia. }
  apply fbind_done in H as (s1 & Hv & H).
  assert (HE1 : Errors s1 = Errors s).
  { eapply later_errors; [|eapply assign_later; exact H|exact HE].
    unfold visit in Hv; rewrite (type_at_Some _ _ _ Hr) in Hv; cbn [fbind done] in Hv.
    case_decide; [eapply fix_later; exact Hv|apply done_inj in Hv as <-; reflexivity]. }
  destruct (visit_walks n id r s s1 rt IH HG) as (HG1 & HV1 & HS1 & (rt1 & Hr1 & Hv1) & HW); auto.
  { intros (t' & E' & Hu); congruence. }
  assert (Ht1 : Types s1 !! id = Some t) by (eapply evolves_kept; eauto; congruence).
  destruct (assign_slot_run id (List.length before) r s1 s' t f rt1) as (a & Ha & ->); auto.
  { lia. }
  { intros ->; destruct (Inlining rt1) eqn:I; [reflexivity|]; specialize (Hv1 eq_refl); congruence. }
  set (t' := slotted t (List.length before) f a (GetInlineSize rt1)).
  assert (S' : similar t t') by (apply similar_slotted, Hf).
  assert (Hnv' : LayoutingState t <> Visited) by congruence.
  pose proof (stable_put _ _ _ _ Ht1 Hnv' S') as HS'.
  exists t', (mkField (Linking f) (ReturnType f) (NextSlotIndex t) (AlignUp (MemoryBytesSize t) a) (IdentifierToken f)).
  split; [eapply good_put; eauto; apply Z.mod_pos_bound; reflexivity|].
  split; [constructor|split; [|split; [exact HS1|]]].
  - apply lookup_insert_eq.
  - exact Hst.
  - unfold t', slotted; simpl; rewrite HF, <- app_assoc; simpl.
    rewrite insert_app_r_alt, Nat.sub_diag by lia; reflexivity.
  - exact Hrest.
  - unfold t', slotted; simpl; lia.
  - eapply placed_app.
    { eapply placed_stable; [|exact Hpl]; etransitivity; [|exact HS'].
      eapply evolves_stable; [exact HV1|discriminate]. }
    assert (Hr2 : exists rt2, (<[id := t']> (Types s1)) !! r = Some rt2 /\ GetInlineSize rt2 = GetInlineSize rt1
                  /\ (Inlining rt2 = ByValue -> LayoutingState rt2 = Visited)).
    { destruct (decide (r = id)) as [->|Hne].
      - exists t'; rewrite lookup_insert_eq; split; [reflexivity|].
        assert (I : Inlining rt1 = ByReference)
          by (destruct (Inlining rt1) eqn:I; [reflexivity|specialize (Hv1 eq_refl); congruence]).
        replace rt1 with t in I |- * by congruence.
        unfold t', slotted, GetInlineSize; simpl; rewrite I; split; [reflexivity|discriminate].
      - exists rt1; rewrite lookup_insert_ne by congruence; auto. }
    destruct Hr2 as (rt2 & Hr2 & HI & Hv2).
    eapply placed_instance; [exact HL|exact HR|exact Hr2|exact Hv2| |reflexivity|reflexivity|].
    { rewrite <- (GetTypeAlignment_alike _ _ _ (proj1 HS')); exact Ha. }
    unfold t', slotted; simpl; rewrite HI; constructor.
  - eapply evolves_trans; [apply evolves_weaken, HV1|eapply evolves_put; eauto].
  - intros rs M' HW'; unfold instance_type; rewrite HL, HR; apply HW.
    simpl in HW'; rewrite marks_insert in HW'; simpl in HW'.
    rewrite insert_id in HW' by (apply marks_lookup, Ht1); exact HW'.
Qed.

Lemma place_steps n id rest : forall s s' t base before,
  fix_walks n -> good (Types s) -> busy (Types s) id t base before rest ->
  each (place_field (FixObjectLayout n) id id) (seq (List.length before) (List.length rest)) s = done s' ->
  Errors s' = Errors s ->
  exists t' fs, good (Types s') /\ busy (Types s') id t' base fs [] /\
    evolves (Some id) (Types s) (Types s') /\ Shapes s' = Shapes s /\
    walk T0 n (marks (Types s)) (map instance_type rest) (marks (Types s')).
Proof.
  induction rest as [|f rest IHr]; intros s s' t base before IH HG HB H HE; simpl in H.
  - apply done_inj in H as <-; exists t, before; split; [exact HG|]; split; [exact HB|].
    split; [apply evolves_refl|]; split; [reflexivity|constructor].
  - apply fbind_done in H as (s1 & H1 & H).
    assert (HE1 : Errors s1 = Errors s).
    { eapply later_errors; [eapply place_later; exact H1| |exact HE].
      eapply each_later; [|exact H]; intros x sa sb; apply place_later. }
    destruct (place_step n id s s1 t base before f rest IH HG HB H1 HE1)
      as (t1 & f1 & HG1 & HB1 & HV1 & HS1 & HW1).
    replace (S (List.length before)) with (List.length (before ++ [f1])) in H
      by (rewrite length_app; simpl; lia).
    destruct (IHr s1 s' t1 base _ IH HG1 HB1 H) as (t' & fs & HG' & HB' & HV' & HS' & HW'); [congruence|].
    exists t', fs; split; [exact HG'|]; split; [exact HB'|]; split; [eapply evolves_trans; eauto|].
    split; [congruence|]; simpl; apply HW1, HW'.
Qed.

(** ** The layout of one type *)
Lemma primitive_aligned size :
  0 <= size <= 2 ^ 63 -> primitive_alignment (AlignUp size (primitive_alignment size)) = primitive_alignment size.
Proof.
  intros H; unfold AlignUp, primitive_alignment, PointerSize, size_t.
  destruct (Z.leb_spec (Z.min (Z.max size 1) 8) 1) as [Hle|Hgt]; [reflexivity|].
  destruct (Z.le_gt_cases size 8) as [H8|H8].
  - replace (Z.min (Z.max size 1) 8) with size in * by lia.
    rewrite (Z.mod_small (size + size - 1)) by lia.
    replace (size + size - 1) with (1 * size + (size - 1)) by lia.
    rewrite Z.div_add_l, (Z.div_small (size - 1)), Z.mod_small by lia; lia.
  - replace (Z.min (Z.max size 1) 8) with 8 in * by lia.
    rewrite (Z.mod_small (size + 8 - 1)) by lia.
    pose proof (Z.div_mod (size + 8 - 1) 8); pose proof (Z.mod_pos_bound (size + 8 - 1) 8).
    rewrite Z.mod_small by lia; lia.
Qed.

Definition closed (t : TypeSymbol) (a : Z) : TypeSymbol :=
  with_LayoutingState Visited (with_MemoryBytesSize (AlignUp (MemoryBytesSize t) a) t).

Lemma similar_closed T x t a :
  T !! x = Some t -> Kind t = ObjectType \/ Kind t = EnumDeclaration ->
  (Fields t = [] -> 0 <= MemoryBytesSize t <= 2 ^ 63) -> GetTypeAlignment T x = done a -> similar t (closed t a).
Proof.
  intros E HK Hb Ha; constructor; try reflexivity; intros I En; simpl.
  unfold GetTypeAlignment in Ha; cbn [GetTypeAlignmentImpl] in Ha.
  rewrite bool_decide_eq_false_2, E in Ha by apply not_elem_of_nil; cbn [fbind lift deref] in Ha.
  rewrite I, En in Ha; assert (a = primitive_alignment (MemoryBytesSize t)) as ->
    by (destruct HK as [HK|HK]; rewrite HK in Ha; apply done_inj in Ha; auto).
  symmetry; apply primitive_aligned; auto.
Qed.

Lemma placed_inlines T k off fs k' off' r :
  placed T k off fs k' off' -> Some r ∈ map instance_type fs ->
  exists rt, T !! r = Some rt /\ (Inlining rt = ByValue -> LayoutingState rt = Visited).
Proof.
  induction 1 as [|k off f fs k' off' HL Hp IH|k off f fs r0 rt a k' off' HL HR Hr Hv Ha Hk Ho Hp IH];
    simpl; intros Hin; [apply elem_of_nil in Hin; contradiction|apply elem_of_cons in Hin..].
  - unfold instance_type in Hin at 1; rewrite HL in Hin; destruct Hin as [?|Hin]; [discriminate|auto].
  - unfold instance_type in Hin at 1; rewrite HL, HR in Hin.
    destruct Hin as [[= ->]|Hin]; [exists rt; auto|auto].
Qed.

(** Closing the object [x]: its record is final and it comes after the types it
    holds. *)
Lemma good_close T x t base a :
  good T -> busy T x t base (Fields t) [] -> (Fields t = [] \/ base = 0) -> GetTypeAlignment T x = done a ->
  similar t (closed t a) -> good (<[x := closed t a]> T).
Proof.
  intros [HA HF HL (rank & HO) HZ] [E Hst _ _ _ Hpl] Hbase Ha S.
  assert (Hnv : LayoutingState t <> Visited) by congruence.
  pose proof (stable_put _ _ _ _ E Hnv S) as HS.
  constructor; [eapply alike_insert; eauto| | | |].
  - intros y ty [[-> ->]|[_ Ey]]%put_inv Hy; [discriminate|eauto].
  - intros y ty [[-> ->]|[_ Ey]]%put_inv Hy.
    + destruct Hbase as [En| ->]; [left; exact En|right].
      exists (NextSlotIndex t), (MemoryBytesSize t), a; split; [eapply placed_stable; [exact HS|exact Hpl]|].
      rewrite <- (GetTypeAlignment_alike _ _ _ (proj1 HS)); auto.
    + destruct (HL y ty Ey Hy); [auto|right; eapply laid_stable; eauto].
  - set (bound := foldr (fun o m => Nat.max (match o with Some r => rank r | None => 0 end) m) 0%nat
                    (map instance_type (Fields t))).
    exists (fun y => if decide (y = x) then Datatypes.S bound else rank y).
    intros y r (ty & Ey & Hy) Hr; apply (inlines_alike _ T) in Hr; [|symmetry; apply HS].
    assert (Hout : in_state Visited T r -> in_state Visited (<[x:=closed t a]> T) r /\ r <> x).
    { intros Hv; split; [eapply stable_state; eauto|intros ->; destruct Hv as (? & ? & ?); congruence]. }
    destruct (decide (y = x)) as [->|Hne].
    + destruct Hr as (t1 & rt & E1 & Hin & Hrt & I); assert (t1 = t) as -> by congruence.
      destruct (placed_inlines _ _ _ _ _ _ _ Hpl Hin) as (rt' & Hrt' & Hv').
      destruct Hout as [Hv'' Hne']; [exists rt'; split; [exact Hrt'|apply Hv'; congruence]|].
      split; [exact Hv''|]; rewrite decide_False by exact Hne'.
      assert (rank r <= bound)%nat; [|lia]; unfold bound; clear -Hin.
      induction (map instance_type (Fields t)) as [|o l IHl]; [apply elem_of_nil in Hin; contradiction|].
      apply elem_of_cons in Hin as [<-|Hin]; simpl; [lia|specialize (IHl Hin); lia].
    + rewrite lookup_insert_ne in Ey by congruence.
      destruct (HO y r) as [Hv'' Hrank]; [exists ty; auto|exact Hr|].
      destruct (Hout Hv'') as [Hv3 Hne']; split; [exact Hv3|].
      rewrite decide_False by exact Hne'; exact Hrank.
  - intros y ty [[-> ->]|[_ Ey]]%put_inv; [apply AlignUp_nonneg, (HZ x t E)|eauto].
Qed.

Lemma evolves_close x T T' t :
  evolves (Some x) T T' -> T !! x = Some t -> LayoutingState t = Unvisited -> in_state Visited T' x ->
  evolves None T T'.
Proof.
  intros [HA V] E Hu Hv; split; [exact HA|intros y ty Ey _].
  destruct (decide (y = x)) as [->|Hne]; [right; split; [congruence|exact Hv]|apply V; congruence].
Qed.

(** [fix_array] and [fix_generic] are for other kinds of types. *)
Lemma object_rest (Fix : TypeId -> State -> fueled State) id s t :
  Types s !! id = Some t -> Kind t = ObjectType \/ Kind t = EnumDeclaration ->
  fix_array Fix id s = done s /\ fix_generic Fix id s = done s.
Proof.
  intros E HK; unfold fix_array, fix_generic; rewrite (type_at_Some _ _ _ E); cbn [fbind done].
  destruct HK as [-> | ->]; auto.
Qed.

Lemma align_size_run id s s' t :
  Types s !! id = Some t -> align_size id (MemoryBytesSize t) s = done s' ->
  exists a, GetTypeAlignment (Types s) id = done a /\
    s' = on_Types (<[id := with_MemoryBytesSize (AlignUp (MemoryBytesSize t) a) t]>) s.
Proof.
  intros E H; unfold align_size in H; apply fbind_done in H as (a & Ha & H).
  exists a; split; [exact Ha|]; apply done_inj in H as <-; apply on_type_Some, E.
Qed.

Lemma all_walk n : fix_walks n.
Proof.
  induction n as [|n IH]; intros id s s' t HG Ht Hu H HE; [discriminate|].
  cbn [FixObjectLayout] in H; rewrite (type_at_Some _ _ _ Ht) in H; cbn [fbind done] in H.
  destruct (alike_lookup_r _ _ _ _ (good_alike _ HG) Ht) as (t0 & Ht0 & S0).
  pose proof (T0_plain _ _ Ht0) as HP0.
  assert (HK : Kind t = ObjectType \/ Kind t = EnumDeclaration)
    by (rewrite <- (sim_kind _ _ S0); apply (plain_kind _ _ HP0)).
  assert (Hown : layout_owner id t = id) by (unfold layout_owner; destruct HK as [-> | ->]; reflexivity).
  rewrite Hown, (on_type_Some _ _ _ _ Ht) in H.
  set (tv := with_LayoutingState Visiting t) in H.
  set (s0 := on_Types (<[id := tv]>) s) in H.
  assert (Ev : Types s0 !! id = Some tv) by apply lookup_put.
  rewrite (type_at_Some _ _ _ Ev) in H; cbn [fbind done] in H.
  assert (Sv : similar t tv) by (constructor; reflexivity).
  assert (HG0 : good (Types s0)) by (eapply good_put; eauto; [congruence|apply (good_sizes _ HG _ _ Ht)]).
  pose proof (good_fresh _ HG _ _ Ht Hu) as [Hns Hn0 Hsz Hem].
  assert (Hlen : List.length (Fields t) = List.length (Fields t0)).
  { rewrite <- (length_map signature), <- (sim_fields _ _ S0), length_map; reflexivity. }
  assert (HB0 : busy (Types s0) id tv (MemoryBytesSize t) [] (Fields t)).
  { constructor; auto; simpl; rewrite Hn0; [|constructor].
    rewrite Hlen; pose proof (plain_count _ _ HP0); lia. }
  apply fbind_done in H as (s1 & H1 & H); apply fbind_done in H as (s2 & H2 & H).
  apply fbind_done in H as (s3 & H3 & H); apply fbind_done in H as (t3 & H4 & H).
  apply fbind_done in H as (s5 & H5 & H); apply done_inj in H.
  assert (HE1 : Errors s1 = Errors s0).
  { apply (later_errors _ _ s5); [|etransitivity; [eapply array_later, H2|]|subst s'; exact HE].
    - eapply each_later; [|exact H1]; intros y sa sb; apply place_later.
    - etransitivity; [eapply generic_later, H3|eapply align_later, H5]. }
  destruct (place_steps n id (Fields t) s0 s1 tv _ [] IH HG0 HB0 H1 HE1)
    as (t1 & fs & HG1 & HB1 & HV1 & HS1 & HW1).
  pose proof (busy_here _ _ _ _ _ _ HB1) as E1; pose proof (busy_fields _ _ _ _ _ _ HB1) as EF.
  rewrite app_nil_r in EF; subst fs.
  assert (S1 : similar t t1).
  { destruct (alike_lookup _ _ _ _ (proj1 HV1) Ev) as (t1' & E1' & S1); replace t1 with t1' by congruence.
    etransitivity; eauto. }
  assert (HK1 : Kind t1 = ObjectType \/ Kind t1 = EnumDeclaration) by (rewrite <- (sim_kind _ _ S1); exact HK).
  destruct (object_rest (FixObjectLayout n) id s1 t1 E1 HK1) as [EA EG].
  rewrite EA in H2; apply done_inj in H2 as <-; rewrite EG in H3; apply done_inj in H3 as <-.
  rewrite (type_at_Some _ _ _ E1) in H4; apply done_inj in H4 as <-.
  destruct (align_size_run id s1 s5 t1 E1 H5) as (a & Ha & ->).
  rewrite (on_type_Some _ _ _ _ (lookup_put _ _ _)), on_Types_twice in H; fold (closed t1 a) in H; subst s'.
  assert (SC : similar t1 (closed t1 a)).
  { eapply similar_closed; eauto; intros En.
    pose proof (busy_placed _ _ _ _ _ _ HB1) as Hpl; rewrite En in Hpl; inversion Hpl; lia. }
  assert (Hnv1 : LayoutingState t1 <> Visited) by (rewrite (busy_state _ _ _ _ _ _ HB1); discriminate).
  split.
  { eapply good_close; eauto.
    destruct Hem as [En|Em]; [left; apply (similar_fields_nil _ _ S1), En|right; exact Em]. }
  split.
  { eapply evolves_close; [|exact Ht|exact Hu|].
    - eapply evolves_trans; [eapply evolves_put; [exact Ht|exact Sv]|].
      eapply evolves_trans; [exact HV1|eapply evolves_put; eauto].
    - exists (closed t1 a); split; [apply lookup_insert_eq|reflexivity]. }
  split; [exact HS1|].
  exists t0, n, (marks (Types s1)); split; [reflexivity|]; split; [exact Ht0|]; split.
  - rewrite (instance_types_similar _ _ S0); simpl in HW1.
    unfold s0 in HW1; simpl in HW1; rewrite marks_insert in HW1; exact HW1.
  - simpl; apply marks_insert.
Qed.
End Walk.
