(* ===== verification/LayoutShapes.v ===== *)
(** * Layout of objects: the shapes

    [BuildShape], run on a table the layout pass has finished, follows the walk
    of that pass: every shape it needs by value is complete when it needs it, and
    the shape it builds has the offsets, the size and the alignment of the
    symbols. *)
From Stdlib Require Import ZArith Lia Bool List String.
From stdpp Require Import base list gmap sets fin_sets fin_map_dom.
From S2P Require Import Prelude Layout LayoutFacts LayoutRun LayoutWalk.
Import ListNotations.
Open Scope Z_scope.
Open Scope shard_scope.

(** ** The pass over a list of types *)
Section Pass.
Context (T0 : Table) (T0_plain : plain T0).

Lemma types_walk n types : forall s s',
  good T0 (Types s) -> (forall x, x ∈ types -> is_Some (Types s !! x)) ->
  (forall x, ~ in_state Visiting (Types s) x) ->
  each (layout_type n) types s = done s' -> Errors s' = Errors s ->
  good T0 (Types s') /\ evolves None (Types s) (Types s') /\ Shapes s' = Shapes s /\
  walk T0 n (marks (Types s)) (map Some types) (marks (Types s')) /\
  forall x, x ∈ types -> in_state Visited (Types s') x.
Proof.
  induction types as [|x types IH]; intros s s' HG Hd Hnv H HE; simpl in H.
  { apply done_inj in H as <-; split; [exact HG|]; split; [apply evolves_refl|]; split; [reflexivity|].
    split; [constructor|intros x Hx; apply elem_of_nil in Hx; contradiction]. }
  apply fbind_done in H as (s1 & H1 & H).
  destruct (Hd x) as [t Ht]; [set_solver|].
  destruct (alike_lookup_r _ _ _ _ (good_alike _ _ HG) Ht) as (t0 & Ht0 & S0).
  unfold layout_type in H1; rewrite (type_at_Some _ _ _ Ht) in H1; cbn [fbind done] in H1.
  assert (Hlater : later s1 s').
  { eapply each_later; [|exact H]; intros y sa sb Hy; unfold layout_type in Hy.
    apply fbind_done in Hy as (ty & _ & Hy); case_decide; [apply done_inj in Hy as <-; reflexivity|].
    eapply fix_later, Hy. }
  assert (Hx : good T0 (Types s1) /\ evolves None (Types s) (Types s1) /\ Shapes s1 = Shapes s /\
    in_state Visited (Types s1) x /\
    forall rs M', walk T0 n (marks (Types s1)) rs M' -> walk T0 n (marks (Types s)) (Some x :: rs) M').
  { case_decide as Hv.
    - apply done_inj in H1 as <-; split; [exact HG|]; split; [apply evolves_refl|]; split; [reflexivity|].
      split; [exists t; auto|]; intros rs M' HW.
      eapply walk_seen; [exact Ht0|apply marks_lookup, Ht| | |exact HW]; congruence.
    - assert (Hu : LayoutingState t = Unvisited).
      { destruct (LayoutingState t) eqn:E; [reflexivity| |contradiction].
        exfalso; apply (Hnv x); exists t; auto. }
      assert (HE1 : Errors s1 = Errors s) by (eapply later_errors; [eapply fix_later, H1|exact Hlater|exact HE]).
      destruct (all_walk T0 T0_plain n x s s1 t HG Ht Hu H1 HE1)
        as (HG1 & HV1 & HS1 & t0' & n' & M & -> & Ht0' & HW & HM).
      split; [exact HG1|]; split; [exact HV1|]; split; [exact HS1|]; split.
      + destruct (alike_lookup _ _ _ _ (proj1 HV1) Ht) as (t1 & Ht1 & _); exists t1; split; [exact Ht1|].
        apply marks_lookup in Ht1; rewrite HM, lookup_insert_eq in Ht1; congruence.
      + intros rs M' HW'; rewrite HM in HW'.
        eapply walk_new; [exact Ht0|rewrite (marks_lookup _ _ _ Ht), Hu; reflexivity| |exact HW'].
        replace t0 with t0' by congruence; exact HW. }
  destruct Hx as (HG1 & HV1 & HS1 & Hvx & HWx).
  destruct (IH s1 s' HG1) as (HG' & HV' & HS' & HW' & Hvis); auto.
  - intros y Hy; destruct (Hd y) as [ty Ey]; [set_solver|].
    destruct (alike_lookup _ _ _ _ (proj1 HV1) Ey) as (ty' & Ey' & _); eauto.
  - intros y (ty & Ey & Hy); destruct (alike_lookup_r _ _ _ _ (proj1 HV1) Ey) as (ty0 & Ey0 & _).
    destruct (proj2 HV1 y ty0 Ey0) as [E|[_ (ty' & E & Hv)]]; [discriminate| |congruence].
    apply (Hnv y); exists ty0; split; [exact Ey0|congruence].
  - destruct Hlater as [_ [e He]]; rewrite HE in He.
    assert (Hs : later s s1).
    { case_decide; [apply done_inj in H1 as <-; reflexivity|eapply fix_later, H1]. }
    destruct Hs as [_ [e1 He1]]; rewrite He1, <- app_assoc in He.
    rewrite <- (app_nil_r (Errors s)) in He at 1; apply app_inv_head in He.
    symmetry in He; apply app_eq_nil in He as [-> _]; rewrite HE, He1, app_nil_r; reflexivity.
  - split; [exact HG'|]; split; [eapply evolves_trans; eauto|]; split; [congruence|].
    split; [apply HWx, HW'|]; intros y Hy; apply elem_of_cons in Hy as [->|Hy]; [|auto].
    eapply stable_state; [|exact Hvx]; eapply evolves_stable; [exact HV'|discriminate].
Qed.
End Pass.

(** ** Alignment on a finished table

    By-value fields have a lower rank, so the stack of the computation, which
    holds by-value types of higher rank, does not matter. *)
Lemma widest_ext align align' fs a :
  (forall r, Some r ∈ map instance_type fs -> align r = align' r) ->
  widest align (fun r => Ok (Some r)) fs a = widest align' (fun r => Ok (Some r)) fs a.
Proof.
  revert a; induction fs as [|f fs IH]; intros a H; [reflexivity|]; simpl in *.
  unfold instance_type at 1 in H; destruct (Linking f), (ReturnType f) as [r|];
    try (apply IH; intros; apply H; set_solver).
  simpl; rewrite (H r) by set_solver.
  destruct (align' r) as [[b| |]|]; simpl; try reflexivity; apply IH; intros; apply H; set_solver.
Qed.

Section Finished.
Context (T0 : Table) (T0_plain : plain T0) (T : Table) (T_good : good T0 T).

Lemma finished_kind x t : T !! x = Some t -> Kind t = ObjectType \/ Kind t = EnumDeclaration.
Proof.
  intros E; destruct (alike_lookup_r _ _ _ _ (good_alike _ _ T_good) E) as (t0 & E0 & S).
  rewrite <- (sim_kind _ _ S); apply (plain_kind _ _ (T0_plain _ _ E0)).
Qed.

Lemma finished_field x t r :
  T !! x = Some t -> Some r ∈ map instance_type (Fields t) -> exists rt, T !! r = Some rt.
Proof.
  intros E Hin; apply list_elem_of_In, in_map_iff in Hin as (f & Hf & Hin%list_elem_of_In).
  unfold instance_type in Hf; destruct (Linking f) eqn:HL; [discriminate|].
  destruct (good_field T0 T0_plain T x t f (good_alike _ _ T_good) E Hin HL) as (r' & rt & HR & Hr).
  exists rt; congruence.
Qed.

Definition by_value (x : TypeId) : Prop := exists t, T !! x = Some t /\ Inlining t = ByValue.

Definition enough (fuel : nat) (stack : list TypeId) : Prop :=
  NoDup stack /\ (forall z, z ∈ stack -> by_value z) /\ (size T < fuel + List.length stack)%nat.

Lemma enough_fuel fuel stack : enough fuel stack -> exists n, fuel = S n.
Proof.
  intros (Hn & Hb & Hf); destruct fuel as [|n]; [exfalso|eauto].
  pose proof (length_NoDup_dom T stack Hn) as Hl; assert (List.length stack <= size T)%nat; [|lia].
  apply Hl; intros z Hz; destruct (Hb z Hz) as (t & E & _); apply elem_of_dom; eauto.
Qed.

Lemma enough_push fuel stack x :
  enough (S fuel) stack -> x ∉ stack -> by_value x -> enough fuel (stack ++ [x]).
Proof.
  intros (Hn & Hb & Hf) Hx Hv; split; [|split].
  - apply NoDup_app; repeat split; auto; [|constructor; [apply not_elem_of_nil|constructor]].
    intros z Hz Hz'; apply list_elem_of_singleton in Hz'; congruence.
  - intros z [Hz|Hz]%elem_of_app; [auto|apply list_elem_of_singleton in Hz as ->; exact Hv].
  - rewrite length_app; simpl; lia.
Qed.

Lemma alignment_reference fuel stack x t :
  T !! x = Some t -> Inlining t = ByReference -> enough fuel stack ->
  GetTypeAlignmentImpl fuel T x stack = done PointerSize.
Proof.
  intros E I He; destruct (enough_fuel _ _ He) as (n & ->); cbn [GetTypeAlignmentImpl].
  rewrite bool_decide_eq_false_2, E; [cbn [fbind lift deref]; rewrite I; reflexivity|].
  intros Hin; destruct (proj1 (proj2 He) x Hin) as (t' & E' & I'); congruence.
Qed.

Section Ranked.
Context (rank : TypeId -> nat).
Hypothesis rank_ordered : forall x r, in_state Visited T x -> inlines T x r ->
  in_state Visited T r /\ (rank r < rank x)%nat.

Lemma alignment_stack m : forall x t fuel fuel' stack stack',
  (rank x < m)%nat -> T !! x = Some t -> LayoutingState t = Visited -> Inlining t = ByValue ->
  enough fuel stack -> enough fuel' stack' ->
  (forall z, z ∈ stack -> (rank x < rank z)%nat) -> (forall z, z ∈ stack' -> (rank x < rank z)%nat) ->
  GetTypeAlignmentImpl fuel T x stack = GetTypeAlignmentImpl fuel' T x stack'.
Proof.
  induction m as [|m IH]; intros x t fuel fuel' stack stack' Hm E Hv I He He' Hr Hr'; [lia|].
  assert (Hx : x ∉ stack) by (intros Hin; specialize (Hr x Hin); lia).
  assert (Hx' : x ∉ stack') by (intros Hin; specialize (Hr' x Hin); lia).
  destruct (enough_fuel _ _ He) as (n & ->), (enough_fuel _ _ He') as (n' & ->).
  cbn [GetTypeAlignmentImpl]; rewrite !bool_decide_eq_false_2 by assumption.
  rewrite E; cbn [fbind lift deref]; rewrite I.
  assert (Hb : by_value x) by (exists t; auto).
  assert (HF : forall r, Some r ∈ map instance_type (Fields t) ->
    GetTypeAlignmentImpl n T r (stack ++ [x]) = GetTypeAlignmentImpl n' T r (stack' ++ [x])).
  { intros r Hin; pose proof (enough_push _ _ _ He Hx Hb) as Hp; pose proof (enough_push _ _ _ He' Hx' Hb) as Hp'.
    destruct (finished_field x t r E Hin) as (rt & Ert).
    destruct (Inlining rt) eqn:Ir.
    - rewrite !(alignment_reference _ _ r rt); auto.
    - destruct (rank_ordered x r) as [(rt' & Ert' & Hvr) Hrank].
      + exists t; auto.
      + exists t, rt; auto.
      + assert (rt' = rt) as -> by congruence.
        eapply IH; eauto; [lia| |]; intros z [Hz|Hz%list_elem_of_singleton]%elem_of_app; subst; auto.
        * specialize (Hr z Hz); lia.
        * specialize (Hr' z Hz); lia. }
  destruct (finished_kind x t E) as [-> | ->]; destruct (Fields t); auto; apply widest_ext; exact HF.
Qed.
End Ranked.

Lemma alignment_fields x t :
  T !! x = Some t -> LayoutingState t = Visited -> Inlining t = ByValue -> Fields t <> [] ->
  GetTypeAlignment T x = widest (GetTypeAlignment T) (fun r => Ok (Some r)) (Fields t) 1.
Proof.
  intros E Hv I Hne; destruct (good_ordered _ _ T_good) as (rank & HO).
  assert (He : enough (S (size T)) []).
  { split; [constructor|split; [intros z Hz; apply elem_of_nil in Hz; contradiction|simpl; lia]]. }
  assert (Hp : enough (size T) ([] ++ [x])).
  { apply (enough_push _ [] x He); [apply not_elem_of_nil|exists t; auto]. }
  unfold GetTypeAlignment at 1; cbn [GetTypeAlignmentImpl].
  rewrite bool_decide_eq_false_2, E by apply not_elem_of_nil; cbn [fbind lift deref]; rewrite I.
  transitivity (widest (fun r => GetTypeAlignmentImpl (size T) T r ([] ++ [x])) (fun r => Ok (Some r)) (Fields t) 1).
  { destruct (finished_kind x t E) as [-> | ->]; destruct (Fields t); congruence. }
  apply widest_ext; intros r Hin; destruct (finished_field x t r E Hin) as (rt & Ert).
  destruct (Inlining rt) eqn:Ir.
  - rewrite (alignment_reference _ _ r rt Ert Ir Hp); symmetry; eapply GetTypeAlignment_reference; eauto.
  - destruct (HO x r) as [(rt' & Ert' & Hvr) Hrank]; [exists t; auto|exists t, rt; auto|].
    assert (rt' = rt) as -> by congruence.
    apply (alignment_stack rank HO (S (rank r)) r rt); auto.
    + intros z Hz%list_elem_of_singleton; subst; exact Hrank.
    + intros z Hz; apply elem_of_nil in Hz; contradiction.
Qed.
End Finished.
