(* ===== verification/LayoutBuild.v ===== *)
(** * Layout of objects: shapes along the walk

    [GetOrCreateShape] follows a walk of the layout pass on the table that pass
    left, and the shapes it builds agree with the symbols ([agrees]). *)
From Stdlib Require Import ZArith Lia Bool List String.
From stdpp Require Import base list gmap sets fin_sets fin_map_dom.
From S2P Require Import Prelude Layout LayoutFacts LayoutRun LayoutWalk LayoutShapes.
Import ListNotations.
Open Scope Z_scope.
Open Scope shard_scope.

Definition key (x : TypeId) : ShapeKey := (Some x, []).

(** The slots that placed fields have in a shape. *)
Definition slot_of (f : FieldSymbol) : option SlotInfo :=
  match instance_type f with
  | Some r => Some (mkSlotInfo (MemoryBytesOffset f) (Some (key r)))
  | None => None
  end.
Fixpoint slots_of (fs : list FieldSymbol) : list SlotInfo :=
  match fs with
  | [] => []
  | f :: fs => match slot_of f with Some slot => slot :: slots_of fs | None => slots_of fs end
  end.

Lemma slots_of_cons f fs :
  slots_of (f :: fs) = match slot_of f with Some slot => slot :: slots_of fs | None => slots_of fs end.
Proof. reflexivity. Qed.
Lemma slot_of_static f : Linking f = Static -> slot_of f = None.
Proof. intros H; unfold slot_of, instance_type; rewrite H; reflexivity. Qed.
Lemma slot_of_instance f r :
  Linking f = Instance -> ReturnType f = Some r -> slot_of f = Some (mkSlotInfo (MemoryBytesOffset f) (Some (key r))).
Proof. intros H H'; unfold slot_of, instance_type; rewrite H, H'; reflexivity. Qed.

(** A shape says of a type what its symbol says; the size and the alignment of
    an object matter where it is held by value. *)
Definition agrees (T : Table) (x : TypeId) (shape : TypeShape) : Prop :=
  exists t, T !! x = Some t /\ Slots shape = slots_of (Fields t) /\
    (Inlining t = ByValue ->
     Size shape = MemoryBytesSize t /\ GetTypeAlignment T x = done (Alignment shape)).

(** ** Counting slots *)
Lemma placed_slots T k off fs k' off' :
  placed T k off fs k' off' -> 0 <= k -> k' < NoSlot ->
  k <= k' /\ List.length (slots_of fs) = Z.to_nat (k' - k) /\
  (filter (fun f => has_slot f = true) fs = [] <-> k' = k) /\
  (k < k' -> foldr (fun f m => Z.max (SlotIndex f) m) 0 (filter (fun f => has_slot f = true) fs) = k' - 1).
Proof.
  induction 1 as [|k off f fs k' off' HL Hp IH|k off f fs r rt a k' off' HL HR Hr Hv Ha Hk Ho Hp IH];
    intros Hpos Hb.
  - simpl; rewrite Z.sub_diag; repeat split; auto; lia.
  - destruct (IH Hpos Hb) as (Hle & Hlen & Hnil & Hmax).
    assert (HF : filter (fun f => has_slot f = true) (f :: fs) = filter (fun f => has_slot f = true) fs).
    { rewrite filter_cons_False; [reflexivity|]; unfold has_slot; rewrite HL; discriminate. }
    rewrite HF, slots_of_cons, (slot_of_static _ HL); auto.
  - destruct IH as (Hle & Hlen & Hnil & Hmax); [lia|exact Hb|].
    assert (HF : filter (fun f => has_slot f = true) (f :: fs) = f :: filter (fun f => has_slot f = true) fs).
    { rewrite filter_cons_True; [reflexivity|]; unfold has_slot; rewrite HL, Hk; apply negb_true_iff, Z.eqb_neq; lia. }
    rewrite HF, slots_of_cons, (slot_of_instance _ _ HL HR); simpl; rewrite Hlen, Hk; split; [lia|]; split; [lia|]; split; [split; [discriminate|lia]|].
    intros _; destruct (Z.eq_dec k' (k + 1)) as [->|Hne].
    + rewrite (proj2 Hnil eq_refl); simpl; lia.
    + rewrite Hmax by lia; lia.
Qed.

Lemma slot_count_placed T off fs k' off' :
  placed T 0 off fs k' off' -> k' < NoSlot -> slot_count fs = List.length (slots_of fs).
Proof.
  intros Hp Hb; destruct (placed_slots _ _ _ _ _ _ Hp) as (Hle & Hlen & Hnil & Hmax); [lia|exact Hb|].
  rewrite Hlen; unfold slot_count.
  destruct (filter (fun f => has_slot f = true) fs) as [|f l] eqn:E.
  - rewrite (proj1 Hnil eq_refl); reflexivity.
  - assert (k' <> 0) by (intros E0; apply Hnil in E0; discriminate).
    rewrite Hmax by lia; lia.
Qed.

(** The slot of a placed field is its position among the slots. *)
Lemma placed_slot T k off fs k' off' :
  placed T k off fs k' off' -> 0 <= k -> forall f r, f ∈ fs -> instance_type f = Some r ->
  k <= SlotIndex f < k' /\
  slots_of fs !! Z.to_nat (SlotIndex f - k) = Some (mkSlotInfo (MemoryBytesOffset f) (Some (key r))).
Proof.
  induction 1 as [|k off f fs k' off' HL Hp IH|k off f fs r rt a k' off' HL HR Hr Hv Ha Hk Ho Hp IH];
    intros Hpos g rg Hin Hg; [apply elem_of_nil in Hin; contradiction|apply elem_of_cons in Hin..].
  - rewrite slots_of_cons, (slot_of_static _ HL).
    destruct Hin as [->|Hin]; [unfold instance_type in Hg; rewrite HL in Hg; discriminate|eauto].
  - rewrite slots_of_cons, (slot_of_instance _ _ HL HR).
    assert (Hmono : k + 1 <= k').
    { clear -Hp; remember (k + 1) as q; clear Heqq; revert off Hp; intros off Hp.
      induction Hp; lia. }
    destruct Hin as [->|Hin].
    + unfold instance_type in Hg; rewrite HL, HR in Hg; injection Hg as ->.
      rewrite Hk, Z.sub_diag; split; [lia|reflexivity].
    + destruct (IH ltac:(lia) g rg Hin Hg) as (Hb & Hs); split; [lia|].
      replace (Z.to_nat (SlotIndex g - k)) with (S (Z.to_nat (SlotIndex g - (k + 1)))) by lia.
      exact Hs.
Qed.

(** ** States of the cache *)
Definition cached (T : Table) (c : State) (x : TypeId) (st : TypeLayoutingState) : Prop :=
  match st with
  | Unvisited => Shapes c !! key x = None
  | Visiting => is_Some (Shapes c !! key x)
  | Visited =>
      match Shapes c !! key x with
      | Some shape => agrees T x shape
      | None => exists t, T !! x = Some t /\ Fields t = []
      end
  end.
Definition corresponds (T : Table) (M : Marks) (c : State) : Prop :=
  Types c = T /\ forall x st, M !! x = Some st -> cached T c x st.

Lemma walk_keeps T n M rs M' x st :
  walk T n M rs M' -> M !! x = Some st -> st <> Unvisited -> M' !! x = Some st.
Proof.
  intros HW; revert st; induction HW as [|n M rs M' HW IH|n M r rt st' rs M' Hr HM Hu Hv HW IH|
    n M r rt M1 rs M' Hr HM HW1 IH1 HW2 IH2]; intros st Hx Hst; auto.
  destruct (decide (x = r)) as [->|Hne]; [congruence|].
  apply IH2; [rewrite lookup_insert_ne by congruence; apply IH1; [|exact Hst]|exact Hst].
  rewrite lookup_insert_ne by congruence; exact Hx.
Qed.

Lemma walk_visiting T n M rs M' x :
  walk T n M rs M' -> M' !! x = Some Visiting -> M !! x = Some Visiting.
Proof.
  induction 1 as [n M|n M rs M' HW IH|n M r rt st' rs M' Hr HM Hu Hv HW IH|
    n M r rt M1 rs M' Hr HM HW1 IH1 HW2 IH2]; intros Hx; auto.
  specialize (IH2 Hx); destruct (decide (x = r)) as [->|Hne].
  - rewrite lookup_insert_eq in IH2; discriminate.
  - rewrite lookup_insert_ne in IH2 by congruence; specialize (IH1 IH2).
    rewrite lookup_insert_ne in IH1 by congruence; exact IH1.
Qed.

Lemma key_inj x y : key x = key y -> x = y.
Proof. intros [= ->]; reflexivity. Qed.

Lemma shapes_put c x f : Shapes (on_shape x f c) = alter f x (Shapes c).
Proof. reflexivity. Qed.

(** A shape, once in the cache, stays there. *)
Definition grows (c c' : State) : Prop := forall k, is_Some (Shapes c !! k) -> is_Some (Shapes c' !! k).
Lemma grows_trans c1 c2 c3 : grows c1 c2 -> grows c2 c3 -> grows c1 c3.
Proof. intros H H' k Hk; auto. Qed.
Lemma grows_put c k f : grows c (on_shape k f c).
Proof.
  intros k' Hk; rewrite shapes_put; destruct (decide (k' = k)) as [->|Hne].
  - rewrite lookup_alter_eq; apply fmap_is_Some, Hk.
  - rewrite lookup_alter_ne by congruence; exact Hk.
Qed.
Lemma grows_insert c k shape : grows c (on_Shapes (<[k := shape]>) c).
Proof.
  intros k' Hk; simpl; destruct (decide (k' = k)) as [->|Hne].
  - rewrite lookup_insert_eq; eexists; reflexivity.
  - rewrite lookup_insert_ne by congruence; exact Hk.
Qed.

(** Writing the shape of a type that is being visited. *)
Lemma corresponds_put T M c x f :
  corresponds T M c -> M !! x = Some Visiting -> corresponds T M (on_shape (key x) f c).
Proof.
  intros [HT HC] Hx; split; [exact HT|intros y st Hy]; specialize (HC y st Hy); unfold cached in *.
  rewrite shapes_put; destruct (decide (y = x)) as [->|Hne].
  - assert (st = Visiting) as -> by congruence; rewrite lookup_alter_eq; destruct HC as [sh ->]; eexists; reflexivity.
  - rewrite lookup_alter_ne by (intros E; apply Hne, key_inj; congruence); exact HC.
Qed.

Section Build.
Context (T0 : Table) (T0_plain : plain T0) (T : Table) (T_good : good T0 T).

Lemma substitute_object c x t :
  Types c = T -> T !! x = Some t ->
  SubstituteTypeParameter (S (size (Types c))) [] [] (Some x) c = done (Some x, c).
Proof.
  intros HT E; cbn [SubstituteTypeParameter]; rewrite (type_at_Some _ _ t) by (rewrite HT; exact E).
  cbn [fbind done]; destruct (finished_kind T0 T0_plain T T_good x t E) as [-> | ->]; reflexivity.
Qed.

Lemma GetOrCreateShape_S n k c :
  GetOrCreateShape (S n) k c =
  match Shapes c !! k with
  | Some _ => done c
  | None => BuildShape (GetOrCreateShape n) k (on_Shapes (<[k := mkShape 0 1 []]>) c)
  end.
Proof. reflexivity. Qed.

(** The end of [BuildShape]. *)
Lemma finish_agrees x t off al shape :
  T !! x = Some t -> Slots shape = slots_of (Fields t) ->
  Fields t = [] /\ off = 0 /\ al = 1 \/
  LayoutingState t = Visited /\ Fields t <> [] /\
    widest (GetTypeAlignment T) (fun r => Ok (Some r)) (Fields t) 1 = done al /\
    (exists a, GetTypeAlignment T x = done a /\ MemoryBytesSize t = AlignUp off a) ->
  agrees T x (finish_shape (MemoryBytesSize t) off al shape).
Proof.
  intros E ES H; exists t; split; [exact E|]; unfold finish_shape.
  split; [destruct (_ && _); exact ES|]; intros I; pose proof (good_sizes _ _ T_good x t E) as Hsz.
  destruct H as [(EF & -> & ->)|(Hv & Hne & Hw & a & Ha & Em)].
  - assert (HA : GetTypeAlignment T x = done (primitive_alignment (MemoryBytesSize t))).
    { unfold GetTypeAlignment; cbn [GetTypeAlignmentImpl].
      rewrite bool_decide_eq_false_2, E by apply not_elem_of_nil; cbn [fbind lift deref]; rewrite I, EF.
      destruct (finished_kind T0 T0_plain T T_good x t E) as [-> | ->]; reflexivity. }
    destruct (Z.ltb_spec 0 (MemoryBytesSize t)) as [Hlt|Hge]; simpl; [auto|].
    assert (MemoryBytesSize t = 0) as E0 by lia; rewrite HA, E0; auto.
  - assert (Hal : 1 <= a <= 8) by exact (halts_of_done (N := True) _ _ _ (GetTypeAlignment_halts T x) Ha).
    rewrite (alignment_fields T0 T0_plain T T_good x t E Hv I Hne), Hw in Ha |- *.
    apply done_inj in Ha; subst a.
    destruct (Z.eqb_spec off 0) as [->|Hoff]; simpl; [|auto].
    assert (E0 : AlignUp 0 al = 0).
    { unfold AlignUp; destruct (Z.leb_spec al 1); [reflexivity|].
      rewrite Z.add_0_l; unfold size_t; rewrite (Z.mod_small (al - 1)) by lia.
      rewrite Z.div_small by lia; reflexivity. }
    rewrite E0 in Em; rewrite Em; simpl; rewrite E0; auto.
Qed.

(** A type that is only created once: of a primitive, when first met. *)
Lemma leaf_builds n c x t :
  Types c = T -> T !! x = Some t -> Fields t = [] -> Shapes c !! key x = None ->
  exists shape, GetOrCreateShape (S n) (key x) c = done (on_Shapes (<[key x := shape]>) c) /\ agrees T x shape.
Proof.
  intros HT E EF EN; cbn [GetOrCreateShape]; rewrite EN.
  unfold BuildShape, key; cbn iota; fold (key x); rewrite (type_at_Some _ _ t) by (simpl; rewrite HT; exact E); cbn [fbind done].
  pose proof (finished_kind T0 T0_plain T T_good x t E) as HK.
  set (shape := finish_shape (MemoryBytesSize t) 0 1 (mkShape 0 1 [])).
  exists shape; split.
  - transitivity (r <-! done (0, 1, on_shape (key x) (with_Slots []) (on_Shapes (<[key x := mkShape 0 1 []]>) c)) ;;
      let '(offset, alignment, s) := r in
      t <-! type_at s x ;; done (on_shape (key x) (finish_shape (MemoryBytesSize t) offset alignment) s)).
    { destruct HK as [-> | ->]; rewrite EF; simpl; destruct (TypeParameters t); reflexivity. }
    cbn [fbind done]; rewrite (type_at_Some _ _ t) by (simpl; rewrite HT; exact E); cbn [fbind done].
    unfold on_shape, on_Shapes; simpl; do 2 f_equal; f_equal.
    apply map_eq; intros k; destruct (decide (k = key x)) as [->|Hne].
    + rewrite !lookup_alter_eq, !lookup_insert_eq; reflexivity.
    + rewrite !lookup_alter_ne, !lookup_insert_ne by congruence; reflexivity.
  - apply finish_agrees; auto; rewrite EF; reflexivity.
Qed.

(** What a field takes of the object. *)
Lemma extent_agrees c x t shape :
  Types c = T -> T !! x = Some t -> Shapes c !! key x = Some shape -> (Inlining t = ByValue -> agrees T x shape) ->
  exists a, GetTypeAlignment T x = done a /\ field_extent c x (key x) = done (GetInlineSize t, a).
Proof.
  intros HT E ES HA; unfold field_extent, shape_at; rewrite (type_at_Some _ _ t) by (rewrite HT; exact E).
  rewrite ES; cbn [fbind done lift deref]; unfold GetInlineSize.
  destruct (Inlining t) eqn:I.
  - exists PointerSize; split; [eapply GetTypeAlignment_reference; eauto|].
    destruct (finished_kind T0 T0_plain T T_good x t E) as [-> | ->]; reflexivity.
  - destruct (HA eq_refl) as (t' & E' & _ & Hv); assert (t' = t) as -> by congruence.
    destruct (Hv I) as [HS Ha]; exists (Alignment shape); split; [exact Ha|]; rewrite <- HS.
    destruct (finished_kind T0 T0_plain T T_good x t E) as [-> | ->]; reflexivity.
Qed.

(** ** The loop over the fields

    [builds n M rs M']: along the walk from [M] to [M'], the loop of
    [BuildShape] for an owner whose remaining fields have the types [rs] ends,
    fills its slots and reaches the offset of the layout. *)
Definition unchanged (M : Marks) (owner : TypeId) (c c' : State) : Prop :=
  (forall x, M !! x = Some Visiting -> x <> owner -> Shapes c' !! key x = Shapes c !! key x) /\ grows c c'.

Definition builds (n : nat) (M : Marks) (rs : list (option TypeId)) (M' : Marks) : Prop :=
  forall owner t before rest k off k' off' al c shape filled,
  (forall x, M' !! x = Some Visited -> in_state Visited T x) ->
  T !! owner = Some t -> Fields t = before ++ rest -> map instance_type rest = rs ->
  placed T k off rest k' off' -> 0 <= k -> k' < NoSlot ->
  corresponds T M c -> M !! owner = Some Visiting -> Shapes c !! key owner = Some shape ->
  Slots shape = filled ++ repeat (mkSlotInfo 0 None) (List.length (slots_of rest)) ->
  List.length filled = Z.to_nat k ->
  exists al' c' shape',
    build_slots (GetOrCreateShape (S n)) (key owner) owner [] []
      (seq (List.length before) (List.length rest)) off al c = done (off', al', c') /\
    widest (GetTypeAlignment T) (fun r => Ok (Some r)) rest al = done al' /\
    corresponds T M' c' /\ unchanged M owner c c' /\
    Shapes c' !! key owner = Some shape' /\ Slots shape' = filled ++ slots_of rest.

Lemma slot_builds n owner t before f rest off al c c1 r rt a shr :
  Types c = T -> T !! owner = Some t -> Fields t = before ++ f :: rest ->
  Linking f = Instance -> ReturnType f = Some r -> SlotIndex f <> NoSlot -> T !! r = Some rt ->
  GetTypeAlignment T r = done a ->
  GetOrCreateShape (S n) (key r) c = done c1 -> Types c1 = T -> Shapes c1 !! key r = Some shr ->
  (Inlining rt = ByValue -> agrees T r shr) ->
  build_slot (GetOrCreateShape (S n)) (key owner) owner [] [] (List.length before) off al c =
  done (size_t (AlignUp off a + GetInlineSize rt), Z.max al a,
        on_shape (key owner) (fun shape =>
          with_Slots (<[Z.to_nat (SlotIndex f) := mkSlotInfo (AlignUp off a) (Some (key r))]> (Slots shape)) shape) c1).
Proof.
  intros HT E EF HL HR Hn Er Ha HC HT1 Esh Hsh; unfold build_slot, field_at.
  rewrite (type_at_Some _ _ t) by (rewrite HT; exact E); cbn [fbind done].
  rewrite EF, list_lookup_middle by reflexivity; cbn [fbind lift deref].
  assert (Hslot : has_slot f = true) by (unfold has_slot; rewrite HL; apply negb_true_iff, Z.eqb_neq, Hn).
  rewrite Hslot, HR; cbn [negb]; rewrite (substitute_object c r rt HT Er); cbn [fbind done].
  change (default r (Some r)) with r; change (Some r, @nil (option TypeId)) with (key r); rewrite HC; cbn [fbind done].
  destruct (extent_agrees c1 r rt shr HT1 Er Esh Hsh) as (a' & Ha' & ->); cbn [fbind done].
  rewrite Ha in Ha'; apply done_inj in Ha' as <-; reflexivity.
Qed.

Lemma builds_cons n M M1 r rt rs M' :
  T !! r = Some rt -> builds n M1 rs M' ->
  (forall x, M !! x = Some Visiting -> M1 !! x = Some Visiting) ->
  (forall c, (forall x, M' !! x = Some Visited -> in_state Visited T x) -> corresponds T M c ->
    exists c1, GetOrCreateShape (S n) (key r) c = done c1 /\ corresponds T M1 c1 /\
      (exists shr, Shapes c1 !! key r = Some shr /\ (Inlining rt = ByValue -> agrees T r shr)) /\
      (forall x, M !! x = Some Visiting -> Shapes c1 !! key x = Shapes c !! key x) /\ grows c c1) ->
  builds n M (Some r :: rs) M'.
Proof.
  intros Er IH Hkeep Hcreate owner t before rest k off k' off' al c shape filled
    HV E EF Hrs Hpl Hk Hk' HC HM Esh Hslots Hfill.
  destruct rest as [|f rest]; [discriminate|]; injection Hrs as Hf Hrs.
  inversion Hpl as [|? ? ? ? ? ? HL|? ? ? ? r' rt' a ? ? HL HR Er' Hv' Ha HS HO Hpl']; subst;
    [unfold instance_type in Hf; rewrite HL in Hf; discriminate|].
  unfold instance_type in Hf; rewrite HL, HR in Hf; injection Hf as ->.
  assert (rt' = rt) as -> by congruence.
  destruct (Hcreate c HV HC) as (c1 & HC1 & HCo1 & (shr & Eshr & Hshr) & Hun & Hgr).
  assert (Hpos : SlotIndex f < k').
  { destruct (placed_slot _ _ _ _ _ _ Hpl Hk f r) as [? _]; [set_solver| |lia].
    unfold instance_type; rewrite HL, HR; reflexivity. }
  assert (Hns : SlotIndex f <> NoSlot) by lia.
  pose proof (slot_builds n owner t before f rest off al c c1 r rt a shr (proj1 HC) E EF HL HR Hns Er Ha HC1
                (proj1 HCo1) Eshr Hshr) as Hstep.
  set (c2 := on_shape (key owner) _ c1) in Hstep.
  rewrite (slots_of_cons f), (slot_of_instance _ _ HL HR) in Hslots; simpl in Hslots.
  set (slot := mkSlotInfo (AlignUp off a) (Some (key r))) in *.
  assert (Esh1 : Shapes c1 !! key owner = Some shape) by (rewrite Hun; auto).
  destruct (IH owner t (before ++ [f]) rest (SlotIndex f + 1) (size_t (AlignUp off a + GetInlineSize rt)) k' off'
              (Z.max al a) c2 (with_Slots (<[Z.to_nat (SlotIndex f) := slot]> (Slots shape)) shape)
              (filled ++ [slot]))
    as (al' & c' & shape' & Hrun & Hal & HC' & [Hun' Hgr'] & Esh' & Hsl'); auto.
  - rewrite EF, <- app_assoc; reflexivity.
  - lia.
  - apply corresponds_put; auto.
  - unfold c2; rewrite shapes_put, lookup_alter_eq, Esh1; reflexivity.
  - simpl; rewrite Hslots, <- Hfill, insert_app_r_alt, Nat.sub_diag, <- app_assoc by lia; reflexivity.
  - rewrite length_app, Hfill; simpl; lia.
  - exists al', c', shape'; split; [|split; [|split; [exact HC'|split; [|split; [exact Esh'|]]]]].
    + cbn [List.length seq build_slots]; rewrite Hstep; cbn [fbind done].
      rewrite length_app, Nat.add_1_r in Hrun; exact Hrun.
    + simpl; rewrite HL, HR; simpl; rewrite Ha; exact Hal.
    + split; [|eapply grows_trans; [exact Hgr|]; eapply grows_trans; [apply grows_put|exact Hgr']].
      intros x Hx Hne; rewrite Hun' by auto; unfold c2; rewrite shapes_put.
      rewrite lookup_alter_ne by (intros Ek; apply Hne, key_inj; congruence); auto.
    + rewrite Hsl', (slots_of_cons f), (slot_of_instance _ _ HL HR), HO, <- app_assoc; reflexivity.
Qed.

Lemma placed_count k off fs k' off' : placed T k off fs k' off' -> k' <= k + Z.of_nat (List.length fs).
Proof. induction 1; simpl; lia. Qed.

Lemma corresponds_close M c x f shape :
  corresponds T M c -> Shapes c !! key x = Some shape -> agrees T x (f shape) ->
  corresponds T (<[x := Visited]> M) (on_shape (key x) f c).
Proof.
  intros [HT HC] E HA; split; [exact HT|intros y st Hy]; unfold cached; rewrite shapes_put.
  destruct (decide (y = x)) as [->|Hne].
  - rewrite lookup_insert_eq in Hy; injection Hy as <-; rewrite lookup_alter_eq, E; exact HA.
  - rewrite lookup_insert_ne in Hy by congruence.
    rewrite lookup_alter_ne by (intros Ek; apply Hne, key_inj; congruence); exact (HC y st Hy).
Qed.

Lemma corresponds_open M c x sh :
  corresponds T M c -> corresponds T (<[x := Visiting]> M) (on_Shapes (<[key x := sh]>) c).
Proof.
  intros [HT HC]; split; [exact HT|intros y st Hy]; unfold cached; simpl.
  destruct (decide (y = x)) as [->|Hne].
  - rewrite lookup_insert_eq in Hy; injection Hy as <-; rewrite lookup_insert_eq; eexists; reflexivity.
  - rewrite lookup_insert_ne in Hy by congruence.
    rewrite lookup_insert_ne by (intros Ek; apply Hne, key_inj; congruence); exact (HC y st Hy).
Qed.

Lemma finished_layout x t :
  T !! x = Some t -> LayoutingState t = Visited ->
  exists k off, placed T 0 0 (Fields t) k off /\ k < NoSlot /\
    (Fields t = [] /\ off = 0 \/
     Fields t <> [] /\ exists a, GetTypeAlignment T x = done a /\ MemoryBytesSize t = AlignUp off a).
Proof.
  intros E Hv; destruct (alike_lookup_r _ _ _ _ (good_alike _ _ T_good) E) as (t0 & E0 & S).
  assert (Hlen : Z.of_nat (List.length (Fields t)) < NoSlot).
  { rewrite <- (length_map signature), <- (sim_fields _ _ S), length_map.
    apply (plain_count _ _ (T0_plain _ _ E0)). }
  destruct (good_laid _ _ T_good x t E Hv) as [EF|(k & off & a & Hpl & Ha & Em)].
  - exists 0, 0; rewrite EF; split; [constructor|split; [reflexivity|auto]].
  - pose proof (placed_count _ _ _ _ _ Hpl).
    exists k, off; split; [exact Hpl|]; split; [lia|].
    destruct (Fields t) eqn:EF; [left; inversion Hpl; auto|right; split; [discriminate|eauto]].
Qed.

Lemma type_builds n M M1 c x t :
  T !! x = Some t -> LayoutingState t = Visited -> M !! x = Some Unvisited ->
  (forall y, M1 !! y = Some Visited -> in_state Visited T y) ->
  builds n (<[x := Visiting]> M) (map instance_type (Fields t)) M1 -> corresponds T M c ->
  exists c1 shape, GetOrCreateShape (S (S n)) (key x) c = done c1 /\
    corresponds T (<[x := Visited]> M1) c1 /\ Shapes c1 !! key x = Some shape /\ agrees T x shape /\
    (forall y, M !! y = Some Visiting -> Shapes c1 !! key y = Shapes c !! key y) /\ grows c c1.
Proof.
  intros E Hv Hu HV HB HC; destruct (finished_layout x t E Hv) as (k & off & Hpl & Hk & Hend).
  pose proof (proj2 HC x _ Hu) as EN; simpl in EN.
  set (c0 := on_Shapes (<[key x := mkShape 0 1 []]>) c).
  set (blank := repeat (mkSlotInfo 0 None) (slot_count (Fields t))).
  set (c0' := on_shape (key x) (with_Slots blank) c0).
  assert (HC0 : corresponds T (<[x := Visiting]> M) c0')
    by (apply corresponds_put; [apply corresponds_open, HC|apply lookup_insert_eq]).
  destruct (HB x t [] (Fields t) 0 0 k off 1 c0' (mkShape 0 1 blank) [])
    as (al & c1 & shape & Hrun & Hal & HC1 & [Hun Hgr] & Esh & Hsl); auto; try lia.
  - apply lookup_insert_eq.
  - unfold c0'; rewrite shapes_put, lookup_alter_eq; unfold c0; simpl; rewrite lookup_insert_eq; reflexivity.
  - unfold blank; rewrite (slot_count_placed _ _ _ _ _ Hpl Hk); reflexivity.
  - change (List.length (@nil FieldSymbol)) with 0%nat in Hrun.
    set (fin := finish_shape (MemoryBytesSize t) off al).
    exists (on_shape (key x) fin c1), (fin shape); split; [|split; [|split; [|split]]].
    + rewrite GetOrCreateShape_S, EN; unfold BuildShape, key; cbn iota; fold (key x); fold c0.
      rewrite (type_at_Some c0 x t) by (unfold c0; simpl; rewrite (proj1 HC); exact E); cbn [fbind done].
      assert (Et : type_at c1 x = done t) by (apply type_at_Some; rewrite (proj1 HC1); exact E).
      destruct (finished_kind T0 T0_plain T T_good x t E) as [-> | ->]; destruct (TypeParameters t);
        cbv zeta; fold blank; fold c0'; rewrite Hrun; cbn [fbind done]; rewrite Et; reflexivity.
    + eapply corresponds_close; eauto; apply finish_agrees; auto.
      destruct Hend as [[EF ->]|[Hne Ha]]; [left|right; auto].
      rewrite EF in Hal; apply done_inj in Hal; auto.
    + rewrite shapes_put, lookup_alter_eq, Esh; reflexivity.
    + apply finish_agrees; auto.
      destruct Hend as [[EF ->]|[Hne Ha]]; [left|right; auto].
      rewrite EF in Hal; apply done_inj in Hal; auto.
    + split; [|eapply grows_trans; [|apply grows_put]; eapply grows_trans; [|exact Hgr];
                 eapply grows_trans; [apply grows_insert|apply grows_put]].
      intros y Hy; assert (Hne : y <> x) by congruence.
      assert (Hk' : key x <> key y) by (intros Ek; apply Hne, key_inj; congruence).
      rewrite shapes_put, lookup_alter_ne by exact Hk'.
      rewrite Hun; [|rewrite lookup_insert_ne by congruence; exact Hy|exact Hne].
      unfold c0'; rewrite shapes_put, lookup_alter_ne by exact Hk'.
      unfold c0; simpl; apply lookup_insert_ne, Hk'.
Qed.

Lemma walk_builds n M rs M' : alike T0 T -> walk T0 n M rs M' -> builds n M rs M'.
Proof.
  intros HA; induction 1 as [n M|n M rs M' HW IH|n M r rt0 st rs M' Hr HM Hu Hv HW IH|
    n M r rt0 M1 rs M' Hr HM HW1 IH1 HW2 IH2].
  - intros owner t before rest k off k' off' al c shape filled HV E EF Hrs Hpl Hk Hk' HC HM Esh Hsl Hfill.
    destruct rest; [|discriminate]; inversion Hpl; subst.
    exists al, c, shape; split; [reflexivity|]; split; [reflexivity|]; split; [exact HC|].
    split; [split; [intros x _ _; reflexivity|intros k0 Hk0; exact Hk0]|]; split; [exact Esh|exact Hsl].
  - intros owner t before rest k off k' off' al c shape filled HV E EF Hrs Hpl Hk Hk' HC HM Esh Hsl Hfill.
    destruct rest as [|f rest]; [discriminate|]; injection Hrs as Hf Hrs.
    inversion Hpl as [|? ? ? ? ? ? HL Hpl'|? ? ? ? r ? ? ? ? HL HR]; subst;
      [|unfold instance_type in Hf; rewrite HL, HR in Hf; discriminate].
    rewrite (slots_of_cons f), (slot_of_static _ HL) in *.
    destruct (IH owner t (before ++ [f]) rest k off k' off' al c shape filled)
      as (al' & c' & shape' & Hrun & Hal & HC' & Hrest); auto; [rewrite EF, <- app_assoc; reflexivity|].
    exists al', c', shape'; split; [|split; [|auto]].
    + cbn [List.length seq build_slots]; rewrite length_app, Nat.add_1_r in Hrun.
      assert (Hb : build_slot (GetOrCreateShape (S n)) (key owner) owner [] [] (List.length before) off al c
                   = done (off, al, c)); [|rewrite Hb; exact Hrun].
      unfold build_slot, field_at; rewrite (type_at_Some _ _ t) by (rewrite (proj1 HC); exact E); cbn [fbind done].
      rewrite EF, list_lookup_middle by reflexivity; cbn [fbind lift deref].
      unfold has_slot; rewrite HL; reflexivity.
    + simpl; rewrite HL; exact Hal.
  - destruct (alike_lookup _ _ _ _ HA Hr) as (rt & Er & S).
    apply (builds_cons n M M r rt); auto; intros c HV HC.
    pose proof (proj2 HC r st HM) as Hcached; unfold cached in Hcached.
    destruct st; [contradiction| |].
    + destruct Hcached as [shr Esh]; exists c; cbn [GetOrCreateShape]; rewrite Esh.
      split; [reflexivity|]; split; [exact HC|]; split; [|split; [auto|intros k Hk; exact Hk]].
      exists shr; split; [reflexivity|]; rewrite <- (sim_inlining _ _ S); intros I; discriminate (Hv I).
    + destruct (Shapes c !! key r) as [shr|] eqn:Esh.
      * exists c; cbn [GetOrCreateShape]; rewrite Esh.
        split; [reflexivity|]; split; [exact HC|].
        split; [exists shr; auto|split; [auto|intros k Hk; exact Hk]].
      * destruct Hcached as (rt' & Er' & EF); destruct (leaf_builds n c r rt' (proj1 HC) Er' EF Esh) as (shr & Hrun & Hag).
        exists (on_Shapes (<[key r := shr]>) c); split; [exact Hrun|]; split; [split; [apply HC|]|split].
        -- intros y st Hy; unfold cached; simpl; destruct (decide (y = r)) as [->|Hne].
           ++ assert (st = Visited) as -> by congruence; rewrite lookup_insert_eq; exact Hag.
           ++ rewrite lookup_insert_ne by (intros Ek; apply Hne, key_inj; congruence); exact (proj2 HC y st Hy).
        -- exists shr; simpl; rewrite lookup_insert_eq; auto.
        -- split; [|apply grows_insert].
           intros y Hy; simpl; apply lookup_insert_ne; intros Ek; apply key_inj in Ek; congruence.
  - destruct (alike_lookup _ _ _ _ HA Hr) as (rt & Er & S).
    rewrite (instance_types_similar _ _ S) in *.
    apply (builds_cons (Datatypes.S n) M (<[r := Visited]> M1) r rt); auto.
    + intros y Hy; assert (y <> r) by congruence; rewrite lookup_insert_ne by congruence.
      eapply walk_keeps; [exact HW1| |discriminate]; rewrite lookup_insert_ne by congruence; exact Hy.
    + intros c HV HC.
      assert (Hkept : forall y, <[r := Visited]> M1 !! y = Some Visited -> in_state Visited T y).
      { intros y Hy; apply HV; eapply walk_keeps; [exact HW2|exact Hy|discriminate]. }
      assert (Hvr : LayoutingState rt = Visited).
      { destruct (Hkept r) as (rt' & Er' & Hv); [apply lookup_insert_eq|congruence]. }
      destruct (type_builds n M M1 c r rt Er Hvr HM) as (c1 & shr & Hrun & HC1 & Esh & Hag & Hun); auto.
      { intros y Hy; destruct (decide (y = r)) as [->|Hne]; [exists rt; auto|].
        apply Hkept; rewrite lookup_insert_ne by congruence; exact Hy. }
      exists c1; split; [exact Hrun|]; split; [exact HC1|]; split; [exists shr; auto|exact Hun].
Qed.

(** ** The pass over a list of types *)
Lemma step_shape n x t c :
  Types c = T -> T !! x = Some t -> shape_type n x c = GetOrCreateShape n (key x) c.
Proof.
  intros HT E; unfold shape_type, shape_key.
  rewrite (type_at_Some c x t) by (rewrite HT; exact E); cbn [fbind done].
  destruct (finished_kind T0 T0_plain T T_good x t E) as [-> | ->]; reflexivity.
Qed.

Lemma types_build n types : alike T0 T -> forall M M' c,
  walk T0 n M (map Some types) M' -> (forall x, M' !! x = Some Visited -> in_state Visited T x) ->
  (forall x, M !! x <> Some Visiting) -> corresponds T M c ->
  exists c', each (shape_type (S n)) types c = done c' /\ corresponds T M' c' /\ grows c c' /\
    forall x, x ∈ types -> is_Some (Shapes c' !! key x).
Proof.
  intros HA; induction types as [|x types IH]; intros M M' c HW HV Hnv HC; simpl in HW.
  { inversion HW; subst; exists c; split; [reflexivity|]; split; [exact HC|]; split; [intros k Hk; exact Hk|].
    intros x Hx; apply elem_of_nil in Hx; contradiction. }
  assert (Hstep : exists M1 c1, GetOrCreateShape (S n) (key x) c = done c1 /\ corresponds T M1 c1 /\
    grows c c1 /\ is_Some (Shapes c1 !! key x) /\ (forall y, M1 !! y <> Some Visiting) /\
    walk T0 n M1 (map Some types) M' /\ is_Some (T !! x)).
  { inversion HW as [| |? ? ? rt0 st ? ? Hr HM Hu Hv HW'|n0 ? ? rt0 M1 ? ? Hr HM HW1 HW']; subst;
      destruct (alike_lookup _ _ _ _ HA Hr) as (rt & Er & S).
    - exists M; destruct st; [contradiction|exfalso; apply (Hnv x HM)|].
      pose proof (proj2 HC x Visited HM) as Hcached; unfold cached in Hcached.
      destruct (Shapes c !! key x) as [sh|] eqn:Esh.
      + exists c; rewrite GetOrCreateShape_S, Esh; split; [reflexivity|]; split; [exact HC|].
        split; [intros k Hk; exact Hk|]; split; eauto.
      + destruct Hcached as (rt' & Er' & EF); destruct (leaf_builds n c x rt' (proj1 HC) Er' EF Esh) as (sh & Hrun & Hag).
        exists (on_Shapes (<[key x := sh]>) c); split; [exact Hrun|]; split; [split; [apply HC|]|].
        * intros y st Hy; unfold cached; simpl; destruct (decide (y = x)) as [->|Hne].
          -- assert (st = Visited) as -> by congruence; rewrite lookup_insert_eq; exact Hag.
          -- rewrite lookup_insert_ne by (intros Ek; apply Hne, key_inj; congruence); exact (proj2 HC y st Hy).
        * split; [apply grows_insert|]; split; [simpl; rewrite lookup_insert_eq; eauto|eauto].
    - assert (Hvx : in_state Visited T x).
      { apply HV; eapply walk_keeps; [exact HW'|apply lookup_insert_eq|discriminate]. }
      destruct Hvx as (rt' & Er' & Hvr); assert (rt' = rt) as -> by congruence.
      rewrite (instance_types_similar _ _ S) in HW1.
      destruct (type_builds n0 M M1 c x rt Er Hvr HM) as (c1 & sh & Hrun & HC1 & Esh & _ & _ & Hgr); auto.
      { intros y Hy; destruct (decide (y = x)) as [->|Hne]; [exists rt; auto|].
        apply HV; eapply walk_keeps; [exact HW'|rewrite lookup_insert_ne by congruence; exact Hy|discriminate]. }
      { apply walk_builds; auto. }
      exists (<[x := Visited]> M1), c1; split; [exact Hrun|]; split; [exact HC1|]; split; [exact Hgr|].
      split; [eauto|]; split; [|eauto].
      intros y Hy; destruct (decide (y = x)) as [->|Hne]; [rewrite lookup_insert_eq in Hy; discriminate|].
      rewrite lookup_insert_ne in Hy by congruence.
      eapply walk_visiting in HW1; [|exact Hy]; rewrite lookup_insert_ne in HW1 by congruence.
      exact (Hnv y HW1). }
  destruct Hstep as (M1 & c1 & Hrun & HC1 & Hgr & Hx & Hnv1 & HW1 & [t Et]).
  destruct (IH M1 M' c1 HW1 HV Hnv1 HC1) as (c' & Hrun' & HC' & Hgr' & Hall).
  exists c'; split; [|split; [exact HC'|split; [eapply grows_trans; eauto|]]].
  - simpl; rewrite (step_shape _ x t c (proj1 HC) Et), Hrun; exact Hrun'.
  - intros y Hy; apply elem_of_cons in Hy as [->|Hy]; auto.
Qed.
End Build.
