(* ===== verification/LayoutSpec.v ===== *)
(** * Layout of objects: properties

    Both engines end; they agree on the offset of every field and on the size and
    alignment of every by-value type; fields are aligned and do not overlap; a
    layout without diagnostics holds no type inside itself.  The hypotheses
    exclude what the engines disagree on: array, generic and parameter types of
    fields, and enums with values, of which the examples at the end show one
    case each. *)
From Stdlib Require Import ZArith Lia Bool List String.
From stdpp Require Import base list gmap sets fin_sets fin_map_dom relations.
From S2P Require Import Prelude Layout LayoutFacts LayoutRun LayoutWalk LayoutShapes LayoutBuild.
Import ListNotations.
Open Scope Z_scope.
Open Scope shard_scope.

(** A table before the layout: user types are untouched, the others are
    primitives. *)
Record ready (s : State) : Prop := mkReady {
  ready_plain : plain (Types s);
  ready_state : forall x t, Types s !! x = Some t ->
    LayoutingState t = Unvisited /\ untouched t \/
    LayoutingState t = Visited /\ Fields t = [] /\ 0 <= MemoryBytesSize t;
  ready_shapes : Shapes s = ∅ }.

Lemma ready_good s : ready s -> good (Types s) (Types s).
Proof.
  intros [HP HS _]; constructor; [reflexivity| | | |].
  - intros x t E Hu; destruct (HS x t E) as [[_ H]|[H _]]; [exact H|congruence].
  - intros x t E Hv; destruct (HS x t E) as [[H _]|[_ [H _]]]; [congruence|left; exact H].
  - exists (fun _ => 0%nat); intros x r (t & E & Hv) (t' & rt & E' & Hin & _).
    assert (t' = t) as -> by congruence; destruct (HS x t E) as [[H _]|[_ [EF _]]]; [congruence|].
    rewrite EF in Hin; apply elem_of_nil in Hin; contradiction.
  - intros x t E; destruct (HS x t E) as [[_ H]|[_ [_ H]]]; [apply (untouched_size _ H)|exact H].
Qed.

Lemma ready_not_visiting s x : ready s -> ~ in_state Visiting (Types s) x.
Proof. intros [_ HS _] (t & E & Hv); destruct (HS x t E) as [[H _]|[H _]]; congruence. Qed.

Lemma ready_pass n types s s1 :
  ready s -> (forall x, x ∈ types -> is_Some (Types s !! x)) ->
  each (layout_type n) types s = done s1 -> Errors s1 = Errors s ->
  good (Types s) (Types s1) /\ Shapes s1 = Shapes s /\
  walk (Types s) n (marks (Types s)) (map Some types) (marks (Types s1)) /\
  forall x, x ∈ types -> in_state Visited (Types s1) x.
Proof.
  intros HR Hd H HE.
  destruct (types_walk (Types s) (ready_plain _ HR) n types s s1 (ready_good s HR) Hd
              (fun x => ready_not_visiting s x HR) H HE) as (HG & _ & HS & HW & HV); auto.
Qed.

Lemma ready_corresponds s T c :
  ready s -> alike (Types s) T -> evolves None (Types s) T -> Types c = T -> Shapes c = Shapes s ->
  corresponds T (marks (Types s)) c.
Proof.
  intros HR HA HV HT HS; split; [exact HT|intros x st Hx]; unfold marks in Hx; rewrite lookup_fmap in Hx.
  destruct (Types s !! x) as [t|] eqn:E; [injection Hx as <-|discriminate]; unfold cached.
  rewrite HS, (ready_shapes _ HR), lookup_empty.
  destruct (ready_state _ HR x t E) as [[-> _]|[Hv [EF _]]]; [reflexivity|rewrite Hv].
  exists t; split; [|exact EF]; eapply evolves_kept; eauto; congruence.
Qed.

(** the alignment of a type is computed for every table, also one whose
    structs contain each other, and lies between 1 and the size of a pointer. *)
Theorem alignment_total (T : Table) (type : TypeId) :
  halts False (GetTypeAlignment T type) (fun a => 1 <= a <= PointerSize).
Proof. apply GetTypeAlignment_halts. Qed.

(** the layout of any list of types of any table ends. *)
Theorem layout_total fuel types s :
  (size (Types s) < fuel)%nat -> each (layout_type fuel) types s <> None.
Proof. intros H; eapply halts_some, layout_types_halt; right; exact H. Qed.

(** C8: the two layout engines agree.  When the layout of a ready table reports
    nothing, [Generate] builds a shape for every type, with the slot and the
    offset of every instance field where the symbols have them and, for the types
    held by value, with the same size and alignment. *)
Theorem layout_engines_agree fuel types s s1 :
  ready s -> (forall x, x ∈ types -> is_Some (Types s !! x)) ->
  each (layout_type fuel) types s = done s1 -> Errors s1 = Errors s ->
  exists s2, Generate fuel types s = done s2 /\ Types s2 = Types s1 /\
    forall x, x ∈ types -> exists t shape,
      Types s2 !! x = Some t /\ GetShape s2 (Some x, []) = Some shape /\
      (forall f r, f ∈ Fields t -> instance_type f = Some r ->
        GetOffset (SlotIndex f) shape = Ok (MemoryBytesOffset f) /\
        GetFieldShape (SlotIndex f) shape = Ok (Some (Some r, []))) /\
      (Inlining t = ByValue ->
        Size shape = GetInlineSize t /\ GetTypeAlignment (Types s2) x = done (Alignment shape)).
Proof.
  intros HR Hd H HE.
  destruct (types_walk _ (ready_plain _ HR) fuel types s s1 (ready_good s HR) Hd
              (fun x => ready_not_visiting s x HR) H HE) as (HG & HEv & HS & HW & HV).
  pose proof (good_alike _ _ HG) as HA.
  destruct (types_build _ (ready_plain _ HR) _ HG fuel types HA (marks (Types s)) (marks (Types s1)) s1)
    as (s2 & Hrun & HC & _ & Hall); auto.
  { intros x Hx; unfold marks in Hx; rewrite lookup_fmap in Hx.
    destruct (Types s1 !! x) as [t|] eqn:E; [injection Hx as Hx; exists t; auto|discriminate]. }
  { intros x Hx; unfold marks in Hx; rewrite lookup_fmap in Hx.
    destruct (Types s !! x) as [t|] eqn:E; [injection Hx as Hx|discriminate].
    apply (ready_not_visiting s x HR); exists t; auto. }
  { eapply ready_corresponds; eauto. }
  exists s2; split; [unfold Generate; rewrite H; exact Hrun|]; split; [apply HC|].
  intros x Hx; destruct (HV x Hx) as (t & E & Hv); destruct (Hall x Hx) as [shape Esh].
  pose proof (proj2 HC x Visited) as Hc; rewrite <- Hv in Hc at 1.
  specialize (Hc (marks_lookup _ _ _ E)); unfold cached in Hc; unfold key in *; rewrite Esh in Hc.
  destruct Hc as (t' & E' & Hsl & Hval); assert (t' = t) as -> by congruence.
  exists t, shape; rewrite (proj1 HC); split; [exact E|]; split; [exact Esh|]; split.
  - intros f r Hf Hr; unfold GetOffset, GetFieldShape; rewrite Hsl.
    destruct (finished_layout _ (ready_plain _ HR) _ HG x t E Hv) as (k & off & Hpl & _).
    destruct (placed_slot _ _ _ _ _ _ Hpl ltac:(lia) f r Hf Hr) as [_ Hslot].
    rewrite Z.sub_0_r in Hslot; rewrite Hslot; auto.
  - intros I; unfold GetInlineSize; rewrite I; auto.
Qed.

(** ** Offsets *)
Lemma AlignUp_bounds offset a :
  0 <= offset < 2 ^ 63 -> 1 <= a <= PointerSize ->
  offset <= AlignUp offset a <= offset + 7 /\ (a | AlignUp offset a).
Proof.
  intros Ho Ha; unfold AlignUp, PointerSize, size_t in *; destruct (Z.leb_spec a 1) as [Hle|Hgt].
  - split; [lia|]; replace a with 1 by lia; apply Z.divide_1_l.
  - rewrite (Z.mod_small (offset + a - 1)) by lia.
    pose proof (Z.div_mod (offset + a - 1) a); pose proof (Z.mod_pos_bound (offset + a - 1) a).
    rewrite Z.mod_small by lia; split; [lia|apply Z.divide_factor_r].
Qed.

Section Offsets.
Context (T : Table) (M : Z).
Hypothesis sizes : forall x t, T !! x = Some t -> 0 <= MemoryBytesSize t.

Lemma inline_size_nonneg x t : T !! x = Some t -> 0 <= GetInlineSize t.
Proof. intros E; unfold GetInlineSize, PointerSize; destruct (Inlining t); [lia|eauto]. Qed.

Lemma placed_disjoint k off fs k' off' :
  placed T k off fs k' off' -> 0 <= off ->
  (forall r rt, Some r ∈ map instance_type fs -> T !! r = Some rt -> GetInlineSize rt <= M) ->
  off + Z.of_nat (List.length fs) * (M + 8) < 2 ^ 63 -> 0 <= M ->
  off <= off' <= off + Z.of_nat (List.length fs) * (M + 8) /\
  forall i f r rt, fs !! i = Some f -> instance_type f = Some r -> T !! r = Some rt ->
    off <= MemoryBytesOffset f /\ MemoryBytesOffset f + GetInlineSize rt <= off' /\
    (forall a, GetTypeAlignment T r = done a -> (a | MemoryBytesOffset f)) /\
    forall j g rg, (i < j)%nat -> fs !! j = Some g -> instance_type g = Some rg ->
      MemoryBytesOffset f + GetInlineSize rt <= MemoryBytesOffset g.
Proof.
  induction 1 as [k off|k off f fs k' off' HL Hp IH|k off f fs r rt a k' off' HL HR Hr Hv Ha Hk Ho Hp IH];
    intros Hoff HM Hb HM0; try (assert (0 <= Z.of_nat (List.length fs) * (M + 8)) by (apply Z.mul_nonneg_nonneg; lia)).
  - split; [simpl; lia|intros i f r rt Hf; discriminate].
  - simpl List.length in *; destruct IH as [Hle Hall]; auto; [|lia|].
    { intros r rt Hin; apply HM; simpl; set_solver. }
    split; [lia|]; intros [|i] g rg rt Hg Hi Er; [injection Hg as ->; unfold instance_type in Hi; rewrite HL in Hi; discriminate|].
    destruct (Hall i g rg rt Hg Hi Er) as (H1 & H2 & H3 & H4); repeat split; auto.
    intros [|j] h rh Hij Hh Hih; [lia|]; apply (H4 j h rh); auto; lia.
  - simpl List.length in *.
    assert (Hit : instance_type f = Some r) by (unfold instance_type; rewrite HL; exact HR).
    assert (HMr : GetInlineSize rt <= M) by (apply (HM r rt); [simpl; rewrite Hit; set_solver|exact Hr]).
    pose proof (inline_size_nonneg _ _ Hr) as Hn.
    assert (Hal : 1 <= a <= PointerSize) by exact (halts_of_done (N := True) _ _ _ (GetTypeAlignment_halts T r) Ha).
    destruct (AlignUp_bounds off a) as [Hup Hdiv]; [lia|exact Hal|].
    assert (Hsz : size_t (AlignUp off a + GetInlineSize rt) = AlignUp off a + GetInlineSize rt)
      by (unfold size_t; apply Z.mod_small; lia).
    rewrite Hsz in IH; destruct IH as [Hle Hall]; auto; [lia| |lia|].
    { intros r' rt' Hin; apply HM; simpl; set_solver. }
    split; [lia|]; intros [|i] g rg rtg Hg Hi Er.
    + injection Hg as <-; rewrite Hit in Hi; injection Hi as <-; assert (rtg = rt) as -> by congruence.
      rewrite Ho; repeat split; [lia|lia| |].
      * intros a' Ha'; rewrite Ha in Ha'; apply done_inj in Ha' as <-; exact Hdiv.
      * intros [|j] h rh Hij Hh Hih; [lia|].
        assert (Hrh : exists rth, T !! rh = Some rth).
        { clear -Hp Hh Hih; simpl in Hh; revert j Hh; induction Hp as [|? ? ? ? ? ? HL' ? IH|? ? ? ? ? ? ? ? ? HL' HR' Hr' ? ? ? ? ? IH];
            intros [|j] Hh; try discriminate; eauto.
          - injection Hh as ->; unfold instance_type in Hih; rewrite HL' in Hih; discriminate.
          - injection Hh as ->; unfold instance_type in Hih; rewrite HL', HR' in Hih; injection Hih as ->; eauto. }
        destruct Hrh as [rth Erh]; destruct (Hall j h rh rth Hh Hih Erh) as (H1 & _); exact H1.
    + destruct (Hall i g rg rtg Hg Hi Er) as (H1 & H2 & H3 & H4); repeat split; auto; [lia|].
      intros [|j] h rh Hij Hh Hih; [lia|]; apply (H4 j h rh); auto; lia.
Qed.
End Offsets.

(** C23: for the classes and structs of a table with no array, parameter or constructed
    type and no enum with values ([ready]): after a layout that reports nothing, the
    offsets in the symbols have the instance fields of every type aligned, one after the
    other without overlapping, and inside the object, when [M] bounds the fields' sizes
    and the object stays below 2^63 bytes.  ([array_field_misplaced]: with an array the
    offset in the shape, which the run time uses, is not even aligned.) *)
Theorem fields_disjoint fuel types s s1 x t M :
  ready s -> (forall x, x ∈ types -> is_Some (Types s !! x)) ->
  each (layout_type fuel) types s = done s1 -> Errors s1 = Errors s ->
  x ∈ types -> Types s1 !! x = Some t -> 0 <= M ->
  (forall r rt, Some r ∈ map instance_type (Fields t) -> Types s1 !! r = Some rt -> GetInlineSize rt <= M) ->
  Z.of_nat (List.length (Fields t)) * (M + 8) < 2 ^ 63 ->
  forall i f r rt, Fields t !! i = Some f -> instance_type f = Some r -> Types s1 !! r = Some rt ->
    0 <= MemoryBytesOffset f /\ MemoryBytesOffset f + GetInlineSize rt <= MemoryBytesSize t /\
    (forall a, GetTypeAlignment (Types s1) r = done a -> (a | MemoryBytesOffset f)) /\
    forall j g rg, (i < j)%nat -> Fields t !! j = Some g -> instance_type g = Some rg ->
      MemoryBytesOffset f + GetInlineSize rt <= MemoryBytesOffset g.
Proof.
  intros HR Hd H HE Hx E HM0 HM Hb i f r rt Hf Hi Er.
  destruct (ready_pass fuel types s s1 HR Hd H HE) as (HG & _ & _ & HV).
  destruct (HV x Hx) as (t' & E' & Hv); assert (t' = t) as -> by congruence.
  destruct (finished_layout _ (ready_plain _ HR) _ HG x t E Hv) as (k & off & Hpl & _ & Hend).
  destruct (placed_disjoint _ M (good_sizes _ _ HG) _ _ _ _ _ Hpl) as [Hle Hall]; auto; [lia|].
  destruct (Hall i f r rt Hf Hi Er) as (H1 & H2 & H3 & H4); repeat split; auto.
  destruct Hend as [[EF _]|[_ (a & Ha & ->)]]; [rewrite EF in Hf; discriminate|].
  destruct (AlignUp_bounds off a) as [Hup _]; [lia| |lia].
  exact (halts_of_done (N := True) _ _ _ (GetTypeAlignment_halts _ x) Ha).
Qed.

(** C25: in a table with no array, parameter or constructed type and no enum with values
    ([ready]), a struct that holds itself, directly or through the structs of its
    fields, is reported.  One that holds itself through a constructed type is not
    ([generic_recursion_unreported]). *)
Theorem recursive_inlining_reported fuel types s s1 x :
  ready s -> (forall x, x ∈ types -> is_Some (Types s !! x)) ->
  x ∈ types -> tc (inlines (Types s)) x x ->
  each (layout_type fuel) types s = done s1 -> Errors s1 <> Errors s.
Proof.
  intros HR Hd Hx Hc H HE; destruct (ready_pass fuel types s s1 HR Hd H HE) as (HG & _ & _ & HV).
  destruct (good_ordered _ _ HG) as (rank & HO).
  assert (Hdown : forall y z, tc (inlines (Types s)) y z -> in_state Visited (Types s1) y ->
    in_state Visited (Types s1) z /\ (rank z < rank y)%nat).
  { induction 1 as [y z Hr|y z w Hr Hc' IH]; intros Hv; apply (inlines_alike _ _ _ _ (good_alike _ _ HG)) in Hr;
      destruct (HO _ _ Hv Hr) as [Hv' Hlt]; [auto|].
    destruct (IH Hv') as [Hw Hlt']; split; [exact Hw|lia]. }
  destruct (Hdown x x Hc (HV x Hx)) as [_ Hlt]; lia.
Qed.

(** ** Sample tables *)
Definition field_of (type : TypeId) : FieldSymbol := mkField Instance (Some type) NoSlot 0 (Some (L "field")).
Definition value_of (type : TypeId) : FieldSymbol := mkField Static (Some type) NoSlot 0 None.
Definition primitive (size : Z) : TypeSymbol := mkType ObjectType ByValue [] [] Visited size 0 ∅.
Definition user (inlining : TypeInlining) (fields : list FieldSymbol) : TypeSymbol :=
  mkType ObjectType inlining [] fields Unvisited 0 0 ∅.
Definition before (types : list TypeSymbol) : State :=
  mkState (list_to_map (zip (map Pos.of_nat (seq 1 (List.length types))) types)) ∅ [].

(** [struct Point { byte tag; int x; int y; }] and
    [class Shape { byte kind; Point origin; Shape next; }], with the primitives
    of one and eight bytes first. *)
Definition shapes_sample : State :=
  before [primitive 1; primitive 8; user ByValue [field_of 1%positive; field_of 2%positive; field_of 2%positive];
          user ByReference [field_of 1%positive; field_of 3%positive; field_of 4%positive]].
Definition sample_types : list TypeId := [1; 2; 3; 4]%positive.

(** [struct Left { Right right; }] and [struct Right { Left left; }]. *)
Definition cyclic_sample : State := before [user ByValue [field_of 2%positive]; user ByValue [field_of 1%positive]].

(** [struct Node { List list; }] and [class List { Node head; }]: a list holds a
    node, but a node only points to a list. *)
Definition list_sample : State := before [user ByValue [field_of 2%positive]; user ByReference [field_of 1%positive]].

(** [enum Color { Red }] and [struct Pixel { byte tag; Color color; }]. *)
Definition enum_sample : State :=
  before [primitive 1; mkType EnumDeclaration ByValue [] [value_of 2%positive] Visited 8 0 ∅;
          user ByValue [field_of 1%positive; field_of 2%positive]].

(** [class Buffer { byte tag; byte[] data; }]. *)
Definition array_sample : State :=
  before [primitive 1; mkType (ArrayType 1%positive 0) ByReference [] [] Unvisited ArraySize 0 ∅;
          user ByReference [field_of 1%positive; field_of 2%positive]].

(** [class Box<T> { int count; }] and [class Owner { Box<int> box; }]: type 3 is
    the parameter [T], type 4 the constructed [Box<int>]. *)
Definition generic_sample : State :=
  before [primitive 8; mkType ObjectType ByReference [3%positive] [field_of 1%positive] Unvisited 0 0 ∅;
          mkType TypeParameter ByReference [] [] Unvisited 0 0 ∅;
          mkType (GenericType 2%positive {[3%positive := 1%positive]}) ByReference [] [] Unvisited 0 0 ∅;
          user ByReference [field_of 4%positive]].

(** [struct Box<T> { T value; }] and [struct Owner { Box<Owner> box; }]: type 1 is the
    parameter [T], type 3 the constructed [Box<Owner>], type 4 [Owner]. *)
Definition recursive_generic_sample : State :=
  before [mkType TypeParameter ByReference [] [] Unvisited 0 0 ∅;
          mkType ObjectType ByValue [1%positive] [field_of 1%positive] Unvisited 0 0 ∅;
          mkType (GenericType 2%positive {[1%positive := 4%positive]}) ByValue [] [] Unvisited 0 0 ∅;
          user ByValue [field_of 3%positive]].

Definition after (types : list TypeId) (s : State) : State :=
  match each (layout_type 10) types s with Some (Ok s1) => s1 | _ => s end.
Definition generated (types : list TypeId) (s : State) : State :=
  match Generate 10 types s with Some (Ok s1) => s1 | _ => s end.
Definition symbol_offset (s : State) (x : TypeId) (i : nat) : option Z :=
  t ← Types s !! x; f ← Fields t !! i; Some (MemoryBytesOffset f).
Definition shape_offset (s : State) (x : TypeId) (slot : nat) : option Z :=
  shape ← GetShape s (Some x, []); f ← Slots shape !! slot; Some (Offset f).

Lemma before_in types x t : Types (before types) !! x = Some t -> t ∈ types.
Proof.
  intros E; apply elem_of_list_to_map_2, list_elem_of_In, in_combine_r in E.
  apply list_elem_of_In, E.
Qed.

Lemma user_untouched inlining types :
  untouched (user inlining (map field_of types)).
Proof.
  constructor; simpl; auto; [|lia].
  apply Forall_map, Forall_true; reflexivity.
Qed.

Lemma user_plain T inlining types :
  (forall x, x ∈ types -> is_Some (T !! x)) -> Z.of_nat (List.length types) < NoSlot ->
  plain_type T (user inlining (map field_of types)).
Proof.
  intros Hd Hn; constructor; simpl; auto; [rewrite length_map; exact Hn|].
  intros f Hf _; apply list_elem_of_In, in_map_iff in Hf as (x & <- & Hx%list_elem_of_In).
  destruct (Hd x Hx) as [t E]; exists x, t; auto.
Qed.

Ltac sample_ready :=
  constructor; [| |reflexivity];
  intros x t E; apply before_in in E;
  repeat (apply elem_of_cons in E as [->|E]; [|]); try (apply elem_of_nil in E; contradiction);
  first [ left; split; [reflexivity|apply user_untouched with (types := [_]) || apply user_untouched with (types := [_; _; _])]
        | right; repeat split; simpl; lia
        | constructor; simpl; auto; [reflexivity|intros f Hf; apply elem_of_nil in Hf; contradiction]
        | apply user_plain with (types := [_]) || apply user_plain with (types := [_; _; _]);
          [intros y Hy; repeat (apply elem_of_cons in Hy as [->|Hy]; [eexists; vm_compute; reflexivity|]);
           apply elem_of_nil in Hy; contradiction|reflexivity] ].

Lemma shapes_sample_ready : ready shapes_sample.
Proof. sample_ready. Qed.
Lemma cyclic_sample_ready : ready cyclic_sample.
Proof. sample_ready. Qed.

Ltac in_sample :=
  intros y Hy; repeat (apply elem_of_cons in Hy as [->|Hy]; [eexists; vm_compute; reflexivity|]);
  apply elem_of_nil in Hy; contradiction.

Lemma layout_total_witness : each (layout_type 5) sample_types shapes_sample <> None.
Proof. apply (layout_total 5 sample_types shapes_sample); vm_compute; lia. Defined.

Lemma layout_engines_agree_witness :
  exists s2, Generate 10 sample_types shapes_sample = done s2 /\
    exists t shape, Types s2 !! 4%positive = Some t /\ GetShape s2 (Some 4%positive, []) = Some shape /\
      forall f r, f ∈ Fields t -> instance_type f = Some r ->
        GetOffset (SlotIndex f) shape = Ok (MemoryBytesOffset f).
Proof.
  destruct (layout_engines_agree 10 sample_types shapes_sample (after sample_types shapes_sample))
    as (s2 & Hrun & _ & Hall); [exact shapes_sample_ready|in_sample|vm_compute; reflexivity|vm_compute; reflexivity|].
  exists s2; split; [exact Hrun|].
  destruct (Hall 4%positive) as (t & shape & E & Es & Hf & _); [apply list_elem_of_In; simpl; tauto|].
  exists t, shape; split; [exact E|]; split; [exact Es|]; intros f r Hin Hr; apply (Hf f r Hin Hr).
Defined.

Lemma fields_disjoint_witness :
  exists t f g rt, Types (after sample_types shapes_sample) !! 4%positive = Some t /\
    Fields t !! 1%nat = Some f /\ Fields t !! 2%nat = Some g /\
    Types (after sample_types shapes_sample) !! 3%positive = Some rt /\
    MemoryBytesOffset f + GetInlineSize rt <= MemoryBytesOffset g.
Proof.
  do 4 eexists; split; [vm_compute; reflexivity|]; split; [reflexivity|]; split; [reflexivity|].
  split; [vm_compute; reflexivity|].
  eapply (fields_disjoint 10 sample_types shapes_sample (after sample_types shapes_sample) 4%positive _ 32)
    with (i := 1%nat) (j := 2%nat).
  - exact shapes_sample_ready.
  - in_sample.
  - vm_compute; reflexivity.
  - vm_compute; reflexivity.
  - apply list_elem_of_In; simpl; tauto.
  - vm_compute; reflexivity.
  - lia.
  - intros r rt Hin Er.
    repeat (apply elem_of_cons in Hin as [[= ->]|Hin]; [vm_compute in Er; injection Er as <-; vm_compute; discriminate|]).
    apply elem_of_nil in Hin; contradiction.
  - vm_compute; reflexivity.
  - reflexivity.
  - reflexivity.
  - vm_compute; reflexivity.
  - lia.
  - reflexivity.
  - reflexivity.
Defined.

Lemma recursive_inlining_reported_witness :
  Errors (after [1; 2]%positive cyclic_sample) <> Errors cyclic_sample.
Proof.
  apply (recursive_inlining_reported 10 [1; 2]%positive cyclic_sample _ 1%positive).
  - exact cyclic_sample_ready.
  - in_sample.
  - apply list_elem_of_In; simpl; tauto.
  - apply tc_l with 2%positive; [|apply tc_once];
      do 2 eexists; (split; [vm_compute; reflexivity|]); (split; [apply list_elem_of_In; simpl; tauto|]);
      (split; [vm_compute; reflexivity|reflexivity]).
  - vm_compute; reflexivity.
Defined.

(** the check for recursive structs depends on the order of the types.  No
    type of the sample holds itself; with the class first nothing is reported,
    with the struct first its field is. *)
Theorem inlining_order :
  (forall x, ~ tc (inlines (Types list_sample)) x x) /\
  Errors (after [2; 1]%positive list_sample) = [] /\
  Errors (after [1; 2]%positive list_sample) = [(L "field", L "Recursive struct inlining")].
Proof.
  split; [|split; vm_compute; reflexivity].
  assert (H : forall x y, inlines (Types list_sample) x y -> x = 2%positive /\ y = 1%positive).
  { intros x y (t & rt & Ex & Hin & Ey & I); apply elem_of_list_to_map_2 in Ex.
    apply list_elem_of_In in Ex; simpl in Ex; destruct Ex as [[= <- <-]|[[= <- <-]|[]]];
      simpl in Hin; apply list_elem_of_singleton in Hin as [= ->]; vm_compute in Ey; injection Ey as <-;
      [discriminate I|auto]. }
  intros x Hx; assert (Hend : forall y z, tc (inlines (Types list_sample)) y z -> y = 2%positive /\ z = 1%positive).
  { induction 1 as [y z Hr|y z w Hr Hc IH]; [auto|].
    destruct (H _ _ Hr) as [_ ->]; destruct IH as [IH _]; discriminate IH. }
  destruct (Hend x x Hx) as [-> E]; discriminate E.
Qed.

(** the engines disagree on enums with values: the layout places a field
    after one byte where the shape places it after eight, and their sizes differ. *)
Theorem enum_layouts_differ :
  let s := generated [1; 2; 3]%positive enum_sample in
  Errors s = [] /\ symbol_offset s 3%positive 1 = Some 1 /\ shape_offset s 3%positive 1 = Some 8 /\
  GetInlineSize <$> Types s !! 3%positive = Some 9 /\
  Size <$> GetShape s (Some 3%positive, []) = Some 16.
Proof. vm_compute; repeat split. Qed.

(** An array field is a pointer to the layout and its elements to the shape: the
    shape puts the pointer of the sample at an odd offset. *)
Theorem array_field_misplaced :
  let s := generated [1; 2; 3]%positive array_sample in
  Errors s = [] /\ symbol_offset s 3%positive 1 = Some 8 /\ shape_offset s 3%positive 1 = Some 1.
Proof. vm_compute; repeat split. Qed.

(** The shape of a field of a constructed generic type has no slots, although
    the shape of the constructed type has. *)
Theorem generic_field_without_slots :
  let s := generated [1; 2; 4; 5]%positive generic_sample in
  Errors s = [] /\
  (shape ← GetShape s (Some 5%positive, []); f ← Slots shape !! 0%nat; FieldShape f) = Some (Some 4%positive, []) /\
  (List.length ∘ Slots) <$> GetShape s (Some 4%positive, []) = Some 0%nat /\
  (List.length ∘ Slots) <$> GetShape s (Some 2%positive, [Some 1%positive]) = Some 1%nat.
Proof. vm_compute; repeat split. Qed.

(** [Owner] holds a box by value that holds an [Owner] by value.  Nothing is reported when
    the declared types are laid out, in either order: the layout of the fields of a
    constructed type does not look for types being visited.  Where the constructed
    type itself comes before [Owner], the field of [Owner] is reported. *)
Example generic_recursion_unreported :
  Errors (after [2; 4]%positive recursive_generic_sample) = [] /\
  Errors (after [4; 2]%positive recursive_generic_sample) = [] /\
  Errors (after [3; 2; 4]%positive recursive_generic_sample) = [(L "field", L "Recursive struct inlining")].
Proof. vm_compute; repeat split. Qed.
