(* ===== verification/Heap.v ===== *)
(** * The heap and the garbage collector

    GarbageCollector.cpp and the part of ObjectInstance.cpp and
    CallStackFrame.cpp that follows references: allocation, field and element
    access, reference counts, and the release of objects.  A heap block is its
    [GcHeader] and its payload; of the payload only the pointers and the length
    of an array are kept, since the collector reads nothing else.  An address is
    a payload pointer; it may be used again after the block is freed, and any
    access to a freed block has no meaning. *)
From Stdlib Require Import ZArith Lia Bool List String.
From stdpp Require Import base list gmap.
From S2P Require Import Prelude Layout.
Import ListNotations.
Open Scope Z_scope.
Open Scope shard_scope.

(** ** Memory *)
Definition Address := positive.
Abbreviation Words := (gmap Z Address).

(** What [m_rawMemoryPtr] points to: nothing, the payload of a block, bytes
    inside a payload (of a by-value field or element), or bytes of a call frame,
    given by the pointers they hold. *)
Inductive Pointer :=
| Null
| Payload (a : Address)
| Inside (a : Address) (offset : Z)
| InFrame (words : Words).

Record ObjectInstance := mkInstance { m_shape : option ShapeKey; m_rawMemoryPtr : Pointer }.
Definition null_instance : ObjectInstance := mkInstance None Null.

(** [GcHeader] and payload; a pointer that is absent from [Pointers] is null. *)
Record Block := mkBlock {
  Shape : ShapeKey;
  ReferencesCounter : Z;
  Terminated : bool;
  ArrayLength : Z;
  Pointers : Words }.

Definition with_ReferencesCounter x b := mkBlock (Shape b) x (Terminated b) (ArrayLength b) (Pointers b).
Definition with_Terminated x b := mkBlock (Shape b) (ReferencesCounter b) x (ArrayLength b) (Pointers b).
Definition with_Pointers x b := mkBlock (Shape b) (ReferencesCounter b) (Terminated b) (ArrayLength b) x.

(** Static fields and string literals are known by their pointers; a
    [CallStackFrame] by its number. *)
Record StaticField := mkStatic {
  FieldId : positive;
  FieldType : TypeId;
  DefaultValueExpression : bool }.

Record AsyncRecord := mkAsync {
  TaskLike : bool;
  FireAndForget : bool;
  FrameOwner : option positive;
  NativeState : Z }.

(** The collector.  [Layouts] has the symbols and the shape cache, [Ready] the
    types whose analysis state is [Ready], [PendingTaskCount] the counters of the
    frames. *)
Record Heap := mkHeap {
  Layouts : State;
  Ready : gset TypeId;
  Memory : gmap Address Block;
  Instances : gset Address;
  staticFields : gmap positive (TypeId * option Address);
  internedStrings : gmap positive Address;
  asyncTable : gmap Address AsyncRecord;
  PendingTaskCount : gmap positive Z }.

Definition on_Layouts x h := mkHeap x (Ready h) (Memory h) (Instances h) (staticFields h) (internedStrings h) (asyncTable h) (PendingTaskCount h).
Definition on_Memory f h := mkHeap (Layouts h) (Ready h) (f (Memory h)) (Instances h) (staticFields h) (internedStrings h) (asyncTable h) (PendingTaskCount h).
Definition on_Instances f h := mkHeap (Layouts h) (Ready h) (Memory h) (f (Instances h)) (staticFields h) (internedStrings h) (asyncTable h) (PendingTaskCount h).
Definition on_staticFields f h := mkHeap (Layouts h) (Ready h) (Memory h) (Instances h) (f (staticFields h)) (internedStrings h) (asyncTable h) (PendingTaskCount h).
Definition on_internedStrings f h := mkHeap (Layouts h) (Ready h) (Memory h) (Instances h) (staticFields h) (f (internedStrings h)) (asyncTable h) (PendingTaskCount h).
Definition on_asyncTable f h := mkHeap (Layouts h) (Ready h) (Memory h) (Instances h) (staticFields h) (internedStrings h) (f (asyncTable h)) (PendingTaskCount h).
Definition on_PendingTaskCount f h := mkHeap (Layouts h) (Ready h) (Memory h) (Instances h) (staticFields h) (internedStrings h) (asyncTable h) (f (PendingTaskCount h)).

(** ** Types and shapes *)
Definition shape_of (h : Heap) (key : ShapeKey) : result TypeShape := deref (Shapes (Layouts h) !! key).
Definition symbol_of (h : Heap) (type : TypeId) : result TypeSymbol := deref (Types (Layouts h) !! type).

(** [shape->IsReferenceType()]; a null [BaseType] is dereferenced. *)
Definition is_reference (h : Heap) (key : ShapeKey) : result bool :=
  type <-? deref (fst key) ;; t <-? symbol_of h type ;; Ok (IsReferenceType t).

(** [getInfo()] reads [m_shape->BaseType]. *)
Definition getInfo (i : ObjectInstance) : result (option TypeId) :=
  key <-? deref (m_shape i) ;; Ok (fst key).
Definition info_kind (h : Heap) (i : ObjectInstance) : result TypeKind :=
  info <-? getInfo i ;; type <-? deref info ;; t <-? symbol_of h type ;; Ok (Kind t).
Definition info_is_reference (h : Heap) (i : ObjectInstance) : result bool :=
  info <-? getInfo i ;;
  match info with
  | Some type => t <-? symbol_of h type ;; Ok (IsReferenceType t)
  | None => Ok false
  end.

Definition GetOrCreate (fuel : nat) (key : ShapeKey) (h : Heap) : fueled Heap :=
  s <-! GetOrCreateShape fuel key (Layouts h) ;; done (on_Layouts s h).

(** ** Blocks *)
Definition IsNullInstance (i : ObjectInstance) : bool :=
  match m_rawMemoryPtr i with Null => true | _ => false end.

Definition block_at (h : Heap) (a : Address) : result Block := deref (Memory h !! a).

(** [getGcHeader()]: the block whose payload the instance is.  The bytes before a
    field or a frame entry are not taken for the magic number. *)
Definition header_address (i : ObjectInstance) : option Address :=
  match m_rawMemoryPtr i with Payload a => Some a | _ => None end.
Definition getGcHeader (h : Heap) (i : ObjectInstance) : result (option Block) :=
  match header_address i with
  | Some a => b <-? block_at h a ;; Ok (Some b)
  | None => Ok None
  end.
Definition IsHeapBacked (h : Heap) (i : ObjectInstance) : result bool :=
  header <-? getGcHeader h i ;; Ok (match header with Some _ => true | None => false end).

Definition getReferencesCounter (h : Heap) (i : ObjectInstance) : result Z :=
  header <-? getGcHeader h i ;; Ok (match header with Some b => ReferencesCounter b | None => 0 end).

Definition on_header (i : ObjectInstance) (f : Block -> Block) (h : Heap) : result Heap :=
  header <-? getGcHeader h i ;;
  Ok (match header_address i with Some a => on_Memory (alter f a) h | None => h end).

Definition IncrementReference (i : ObjectInstance) : Heap -> result Heap :=
  on_header i (fun b => with_ReferencesCounter (ReferencesCounter b + 1) b).
Definition DecrementReference (i : ObjectInstance) : Heap -> result Heap :=
  on_header i (fun b =>
    if 0 <? ReferencesCounter b then with_ReferencesCounter (ReferencesCounter b - 1) b else b).

(** The pointer at [offset] of what the instance points to. *)
Definition read_pointer (h : Heap) (i : ObjectInstance) (offset : Z) : result (option Address) :=
  match m_rawMemoryPtr i with
  | Null => UB
  | Payload a => b <-? block_at h a ;; Ok (Pointers b !! offset)
  | Inside a base => b <-? block_at h a ;; Ok (Pointers b !! (base + offset))
  | InFrame words => Ok (words !! offset)
  end.

(** The pointers in a range of bytes, from the start of the range. *)
Definition words_in (first size : Z) (words : Words) : Words :=
  kmap (fun offset => offset - first)
    (filter (fun p => first <= p.1 /\ p.1 < first + size) words).
Definition words_out (first size : Z) (words : Words) : Words :=
  filter (fun p => ~ (first <= p.1 /\ p.1 < first + size)) words.
Definition words_at (first : Z) (words : Words) : Words := kmap (fun offset => offset + first) words.

Definition payload_words (h : Heap) (p : Pointer) (size : Z) : result Words :=
  match p with
  | Null => UB
  | Payload a => b <-? block_at h a ;; Ok (words_in 0 size (Pointers b))
  | Inside a base => b <-? block_at h a ;; Ok (words_in base size (Pointers b))
  | InFrame words => Ok (words_in 0 size words)
  end.

(** [std::memcpy] of [size] bytes that hold [words]. *)
Definition store_words (p : Pointer) (offset size : Z) (words : Words) (h : Heap) : result Heap :=
  let store a base :=
    b <-? block_at h a ;;
    Ok (on_Memory (<[a := with_Pointers
          (words_at (base + offset) words ∪ words_out (base + offset) size (Pointers b)) b]>) h) in
  match p with
  | Null => UB
  | Payload a => store a 0
  | Inside a base => store a base
  | InFrame _ => Ok h
  end.

(** ** Bounds *)
Definition GetArrayLength (h : Heap) (i : ObjectInstance) : result Z :=
  kind <-? info_kind h i ;;
  match kind with
  | ArrayType _ _ =>
      match m_rawMemoryPtr i with
      | Payload a => b <-? block_at h a ;; Ok (ArrayLength b)
      | _ => UB
      end
  | _ => Throw "Tried to get element from non array instance"
  end.

Definition instance_size (h : Heap) (i : ObjectInstance) : result Z :=
  key <-? deref (m_shape i) ;;
  shape <-? shape_of h key ;;
  match fst key with
  | None => Ok (Size shape)
  | Some type =>
      t <-? symbol_of h type ;;
      match Kind t with
      | ArrayType underlaying _ =>
          length <-? GetArrayLength h i ;;
          u <-? symbol_of h underlaying ;;
          Ok (size_t (ArraySize + size_t (GetInlineSize u * length)))
      | _ => Ok (Size shape)
      end
  end.

(** The checks of [OffsetMemory], [ReadMemory] and [WriteMemory]. *)
Definition check_range (h : Heap) (i : ObjectInstance) (offset size : Z) : result unit :=
  if size =? 0 then Throw "Cannot read 0 bytes"
  else
    instanceSize <-? instance_size h i ;;
    if instanceSize <? size_t (offset + size) then Throw "out of instance's memory range" else Ok tt.

Definition OffsetMemory (h : Heap) (i : ObjectInstance) (offset size : Z) : result Pointer :=
  _ <-? check_range h i offset size ;;
  match m_rawMemoryPtr i with
  | Null => UB
  | Payload a => Ok (if offset =? 0 then Payload a else Inside a offset)
  | Inside a base => Ok (Inside a (base + offset))
  | InFrame words => Ok (InFrame (words_in offset size words))
  end.

Definition pointer_of (stored : option Address) : Pointer :=
  match stored with Some a => Payload a | None => Null end.

(** The pointer an instance is stored as; by-value bytes are not stored so. *)
Definition stored_pointer (i : ObjectInstance) : result (option Address) :=
  match m_rawMemoryPtr i with
  | Null => Ok None
  | Payload a => Ok (Some a)
  | Inside _ _ | InFrame _ => UB
  end.
Definition pointer_words (stored : option Address) : Words :=
  match stored with Some a => {[0 := a]} | None => ∅ end.

(** ** Fields and elements

    The messages of the errors end before the name of the type. *)
Definition field_shape (write : bool) (h : Heap) (i : ObjectInstance) (slot : Z) : result (TypeShape * ShapeKey) :=
  match m_shape i with
  | None =>
      Throw (if write then "Cannot write field on an instance without a type shape"
             else "Cannot read field from an instance without a type shape")
  | Some key =>
      if IsNullInstance i then
        Throw (if write then "Cannot write field on null instance of type " else "Cannot read field on null instance of type : ")
      else
        shape <-? shape_of h key ;;
        if Z.of_nat (List.length (Slots shape)) <=? slot then
          Throw (if write then "Field slot index is out of range on " else "Field slot index is out of range on : ")
        else
          fieldShape <-? GetFieldShape slot shape ;;
          match fieldShape with
          | None =>
              Throw (if write then "Cannot write instance to a field without a type shape"
                     else "Cannot read instance from a field without a type shape")
          | Some fieldKey => Ok (shape, fieldKey)
          end
  end.

Definition GetField (h : Heap) (i : ObjectInstance) (slot : Z) : result ObjectInstance :=
  r <-? field_shape false h i slot ;;
  let '(shape, fieldKey) := r in
  fieldOffset <-? GetOffset slot shape ;;
  reference <-? is_reference h fieldKey ;;
  if reference : bool then
    _ <-? check_range h i fieldOffset PointerSize ;;
    stored <-? read_pointer h i fieldOffset ;;
    Ok (mkInstance (Some fieldKey) (pointer_of stored))
  else
    fieldShape <-? shape_of h fieldKey ;;
    p <-? OffsetMemory h i fieldOffset (Size fieldShape) ;;
    Ok (mkInstance (Some fieldKey) p).

Definition release_old (oldValue : ObjectInstance) (h : Heap) : result Heap :=
  if IsNullInstance oldValue then Ok h else DecrementReference oldValue h.
Definition adopt_new (instance : ObjectInstance) (h : Heap) : result Heap :=
  if IsNullInstance instance then Ok h else IncrementReference instance h.

Definition SetField (i : ObjectInstance) (slot : Z) (instance : ObjectInstance) (h : Heap) : result Heap :=
  r <-? field_shape true h i slot ;;
  let '(shape, fieldKey) := r in
  fieldOffset <-? GetOffset slot shape ;;
  reference <-? is_reference h fieldKey ;;
  if reference : bool then
    oldValue <-? GetField h i slot ;;
    h <-? release_old oldValue h ;;
    stored <-? stored_pointer instance ;;
    h <-? adopt_new instance h ;;
    _ <-? check_range h i fieldOffset PointerSize ;;
    store_words (m_rawMemoryPtr i) fieldOffset PointerSize (pointer_words stored) h
  else if IsNullInstance instance then Throw "cannot write null value to ValueType field"
  else
    _ <-? getInfo instance ;;
    fieldShape <-? shape_of h fieldKey ;;
    _ <-? check_range h i fieldOffset (Size fieldShape) ;;
    words <-? payload_words h (m_rawMemoryPtr instance) (Size fieldShape) ;;
    store_words (m_rawMemoryPtr i) fieldOffset (Size fieldShape) words h.

(** [GetElement] and [SetElement] without a frame: the element keeps no shape. *)
Definition element_type (write : bool) (h : Heap) (i : ObjectInstance) (index : Z) : result TypeSymbol :=
  if IsNullInstance i then Throw "Cannot access array element on null instance"
  else
    kind <-? info_kind h i ;;
    match kind with
    | ArrayType underlaying _ =>
        length <-? GetArrayLength h i ;;
        if length <=? index then Throw "Array index is out of range" else symbol_of h underlaying
    | _ => Throw (if write then "Tried to set element in non array instance" else "Tried to get element from non array instance")
    end.
Definition element_offset (u : TypeSymbol) (index : Z) : Z :=
  size_t (ArraySize + size_t (GetInlineSize u * index)).

Definition GetElement (h : Heap) (i : ObjectInstance) (index : Z) : result ObjectInstance :=
  u <-? element_type false h i index ;;
  let memoryOffset := element_offset u index in
  if IsReferenceType u then
    _ <-? check_range h i memoryOffset PointerSize ;;
    stored <-? read_pointer h i memoryOffset ;;
    Ok (mkInstance None (pointer_of stored))
  else
    p <-? OffsetMemory h i memoryOffset (GetInlineSize u) ;;
    Ok (mkInstance None p).

Definition SetElement (i : ObjectInstance) (index : Z) (instance : ObjectInstance) (h : Heap) : result Heap :=
  u <-? element_type true h i index ;;
  let memoryOffset := element_offset u index in
  if IsReferenceType u then
    oldValue <-? GetElement h i index ;;
    h <-? release_old oldValue h ;;
    stored <-? stored_pointer instance ;;
    h <-? adopt_new instance h ;;
    _ <-? check_range h i memoryOffset PointerSize ;;
    store_words (m_rawMemoryPtr i) memoryOffset PointerSize (pointer_words stored) h
  else if IsNullInstance instance then Throw "cannot write null value to by-value type field"
  else
    _ <-? check_range h i memoryOffset (MemoryBytesSize u) ;;
    words <-? payload_words h (m_rawMemoryPtr instance) (MemoryBytesSize u) ;;
    store_words (m_rawMemoryPtr i) memoryOffset (MemoryBytesSize u) words h.

(** ** Allocation *)
Definition add_block (b : Block) (h : Heap) : Address * Heap :=
  let a := fresh (dom (Memory h)) in
  (a, on_Instances (union {[a]}) (on_Memory (<[a := b]>) h)).

Definition AllocateInstance (key : option ShapeKey) (h : Heap) : result (ObjectInstance * Heap) :=
  match key with
  | None => Throw "shape is nullptr"
  | Some key =>
      _ <-? shape_of h key ;;
      let '(a, h) := add_block (mkBlock key 0 false 0 ∅) h in
      Ok (mkInstance (Some key) (Payload a), h)
  end.

(** [IsTypeReadyForAllocation]; [fuel] is for generic types of generic types. *)
Fixpoint IsTypeReadyForAllocation (fuel : nat) (h : Heap) (type : TypeId) : fueled bool :=
  match fuel with
  | O => None
  | S fuel =>
      if bool_decide (type ∈ Ready h) then done true
      else
        t <-! lift (symbol_of h type) ;;
        match Kind t with
        | ArrayType _ _ => done true
        | GenericType underlaying _ => IsTypeReadyForAllocation fuel h underlaying
        | _ => done false
        end
  end.

Definition AllocateGeneric (fuel : nat) (baseType : option TypeId) (genericArgs : list (option TypeId)) (h : Heap)
  : fueled (ObjectInstance * Heap) :=
  match baseType with
  | None => lift (Throw "baseType is nullptr")
  | Some _ =>
      h <-! GetOrCreate fuel (baseType, genericArgs) h ;;
      lift (AllocateInstance (Some (baseType, genericArgs)) h)
  end.

(** [AllocateInstance] of a type symbol. *)
Definition AllocateType (fuel : nat) (objectInfo : option TypeId) (h : Heap) : fueled (ObjectInstance * Heap) :=
  match objectInfo with
  | None => lift (Throw "objectInfo is nullptr")
  | Some type =>
      isReady <-! IsTypeReadyForAllocation fuel h type ;;
      if negb isReady then lift (Throw "Cannot allocate instance: symbol is not ready for runtime")
      else
        t <-! lift (symbol_of h type) ;;
        match Kind t with
        | GenericType underlaying args =>
            u <-! lift (symbol_of h underlaying) ;;
            AllocateGeneric fuel (Some underlaying)
              (map (SubstituteTypeParameters args) (TypeParameters u)) h
        | _ =>
            h <-! GetOrCreate fuel (Some type, []) h ;;
            lift (AllocateInstance (Some (Some type, [])) h)
        end
  end.

(** The bytes [AllocateArray] asks for, in [std::size_t]. *)
Definition array_bytes (elementSize length : Z) : Z := size_t (ArraySize + size_t (elementSize * length)).

Definition AllocateArray (fuel : nat) (arrayType elementType : option TypeId) (length : Z) (h : Heap)
  : fueled (ObjectInstance * Heap) :=
  match arrayType, elementType with
  | None, _ => lift (Throw "arrayType is nullptr")
  | _, None => lift (Throw "elementType is nullptr")
  | Some array, Some element =>
      isReady <-! IsTypeReadyForAllocation fuel h element ;;
      if negb isReady then lift (Throw "Cannot allocate array: element symbol is not ready for runtime")
      else
        h <-! GetOrCreate fuel (Some array, []) h ;;
        let '(a, h) := add_block (mkBlock (Some array, []) 0 false (size_t length) ∅) h in
        done (mkInstance (Some (Some array, [])) (Payload a), h)
  end.

(** ** Copies *)

(** A loop over the slots of a shape that hold references. *)
Definition reference_slot (h : Heap) (shape : TypeShape) (slot : Z) : result bool :=
  fieldShape <-? GetFieldShape slot shape ;;
  match fieldShape with Some key => is_reference h key | None => Ok false end.

Definition slot_indexes (shape : TypeShape) : list Z := map Z.of_nat (seq 0 (List.length (Slots shape))).

Definition copy_slot (newInstance : ObjectInstance) (shape : TypeShape) (slot : Z) (h : Heap) : fueled Heap :=
  reference <-! lift (reference_slot h shape slot) ;;
  if reference : bool then
    fieldValue <-! lift (GetField h newInstance slot) ;;
    lift (adopt_new fieldValue h)
  else done h.

Definition CopyInstance (instance : ObjectInstance) (h : Heap) : fueled (ObjectInstance * Heap) :=
  if IsNullInstance instance then done (instance, h)
  else
    reference <-! lift (info_is_reference h instance) ;;
    if reference : bool then
      h <-! lift (IncrementReference instance h) ;; done (instance, h)
    else
      r <-! lift (AllocateInstance (m_shape instance) h) ;;
      let '(newInstance, h) := r in
      key <-! lift (deref (m_shape newInstance)) ;;
      newShape <-! lift (shape_of h key) ;;
      _ <-! lift (check_range h newInstance 0 (Size newShape)) ;;
      words <-! lift (payload_words h (m_rawMemoryPtr instance) (Size newShape)) ;;
      h <-! lift (store_words (m_rawMemoryPtr newInstance) 0 (Size newShape) words h) ;;
      h <-! each (copy_slot newInstance newShape) (slot_indexes newShape) h ;;
      done (newInstance, h).

(** ** Release *)
Section Release.

(** [SymbolTable::Primitives::String]. *)
Context (StringType : TypeId).

(** The characters of a string are not freed. *)
Definition DeleteInstanceMemory (instance : ObjectInstance) (h : Heap) : result Heap :=
  if IsNullInstance instance then Ok h
  else
    heapBacked <-? IsHeapBacked h instance ;;
    if negb heapBacked then Ok h
    else
      info <-? getInfo instance ;;
      _ <-? (if decide (info = Some StringType) then _ <-? OffsetMemory h instance 8 PointerSize ;; Ok tt else Ok tt) ;;
      match header_address instance with
      | Some a => Ok (on_Memory (delete a) h)
      | None => Ok h
      end.

Definition release_slot (Destroy : ObjectInstance -> Heap -> fueled Heap) (instance : ObjectInstance)
  (shape : TypeShape) (slot : Z) (h : Heap) : fueled Heap :=
  reference <-! lift (reference_slot h shape slot) ;;
  if reference : bool then
    fieldValue <-! lift (GetField h instance slot) ;;
    if IsNullInstance fieldValue then done h else Destroy fieldValue h
  else done h.

Definition release_element (Destroy : ObjectInstance -> Heap -> fueled Heap) (instance : ObjectInstance)
  (underlaying : TypeId) (index : Z) (h : Heap) : fueled Heap :=
  element <-! lift (GetElement h instance index) ;;
  u <-! lift (symbol_of h underlaying) ;;
  if IsReferenceType u && negb (IsNullInstance element) then Destroy element h else done h.

Definition array_indexes (length : Z) : list Z := map Z.of_nat (seq 0 (Z.to_nat length)).

Definition TerminateInstance (Destroy : ObjectInstance -> Heap -> fueled Heap)
  (instance : ObjectInstance) (deleteInstance : bool) (h : Heap) : fueled Heap :=
  if IsNullInstance instance then done h
  else
    header <-! lift (getGcHeader h instance) ;;
    match header, header_address instance with
    | Some block, Some a =>
        if Terminated block then done h
        else
          let h := on_Memory (alter (with_Terminated true) a) h in
          let h := on_asyncTable (delete a) h in
          h <-! match m_shape instance with
                | None => done h
                | Some key =>
                    shape <-! lift (shape_of h key) ;;
                    each (release_slot Destroy instance shape) (slot_indexes shape) h
                end ;;
          kind <-! lift (info_kind h instance) ;;
          h <-! match kind with
                | ArrayType underlaying _ =>
                    length <-! lift (GetArrayLength h instance) ;;
                    each (release_element Destroy instance underlaying) (array_indexes length) h
                | _ => done h
                end ;;
          if deleteInstance then lift (DeleteInstanceMemory instance h) else done h
    | _, _ => done h
    end.

Definition erase_instance (instance : ObjectInstance) (h : Heap) : Heap :=
  match header_address instance with
  | Some a => on_Instances (fun s => s ∖ {[a]}) h
  | None => h
  end.

Fixpoint DestroyInstance (fuel : nat) (instance : ObjectInstance) (h : Heap) : fueled Heap :=
  match fuel with
  | O => None
  | S fuel =>
      if IsNullInstance instance then done h
      else
        header <-! lift (getGcHeader h instance) ;;
        match header with
        | None => done h
        | Some block =>
            if Terminated block then done h
            else
              h <-! lift (DecrementReference instance h) ;;
              counter <-! lift (getReferencesCounter h instance) ;;
              if 0 <? counter then done h
              else TerminateInstance (DestroyInstance fuel) instance true (erase_instance instance h)
        end
  end.

Definition CollectInstance (fuel : nat) (instance : ObjectInstance) (h : Heap) : fueled Heap :=
  if IsNullInstance instance then done h
  else
    heapBacked <-! lift (IsHeapBacked h instance) ;;
    if negb heapBacked then done h
    else
      counter <-! lift (getReferencesCounter h instance) ;;
      if 0 <? counter then done h
      else TerminateInstance (DestroyInstance fuel) instance true (erase_instance instance h).

(** ** Values of a frame (CallStackFrame.cpp) *)
Definition inline_slot (visit : ObjectInstance -> Heap -> fueled Heap) (shape : TypeShape) (payload : Pointer)
  (slot : Z) (h : Heap) : fueled Heap :=
  fieldShape <-! lift (GetFieldShape slot shape) ;;
  match fieldShape with
  | None => done h
  | Some key =>
      reference <-! lift (is_reference h key) ;;
      if reference : bool then
        offset <-! lift (GetOffset slot shape) ;;
        stored <-! lift (read_pointer h (mkInstance None payload) offset) ;;
        match stored with
        | Some a => visit (mkInstance (Some key) (Payload a)) h
        | None => done h
        end
      else done h
  end.

Definition AdoptInlinePayload (key : option ShapeKey) (payload : Pointer) (h : Heap) : fueled Heap :=
  match key with
  | None => done h
  | Some key =>
      shape <-! lift (shape_of h key) ;;
      each (inline_slot (fun i h => lift (IncrementReference i h)) shape payload) (slot_indexes shape) h
  end.

Definition ReleaseInlinePayload (fuel : nat) (key : option ShapeKey) (payload : Pointer) (h : Heap) : fueled Heap :=
  match key with
  | None => done h
  | Some key =>
      shape <-! lift (shape_of h key) ;;
      each (inline_slot (DestroyInstance fuel) shape payload) (slot_indexes shape) h
  end.

Definition by_value_info (h : Heap) (value : ObjectInstance) : result bool :=
  info <-? getInfo value ;;
  match info with
  | Some type => t <-? symbol_of h type ;; Ok (negb (IsReferenceType t))
  | None => Ok false
  end.

Definition ReleaseValue (fuel : nat) (value : ObjectInstance) (h : Heap) : fueled Heap :=
  byValue <-! lift (by_value_info h value) ;;
  if byValue : bool then ReleaseInlinePayload fuel (m_shape value) (m_rawMemoryPtr value) h
  else DestroyInstance fuel value h.

Definition DiscardValue (fuel : nat) (value : ObjectInstance) (h : Heap) : fueled Heap :=
  byValue <-! lift (by_value_info h value) ;;
  if byValue : bool then ReleaseInlinePayload fuel (m_shape value) (m_rawMemoryPtr value) h
  else CollectInstance fuel value h.

(** ** Static fields and strings *)
Definition RecoverStaticField (fuel : nat) (type : TypeId) (payload : option Address) (h : Heap)
  : fueled (ObjectInstance * Heap) :=
  h <-! GetOrCreate fuel (Some type, []) h ;;
  done (mkInstance (Some (Some type, [])) (pointer_of payload), h).

Definition GetStaticField (fuel : nat) (field : StaticField) (h : Heap) : fueled (ObjectInstance * Heap) :=
  match staticFields h !! FieldId field with
  | Some (type, payload) => RecoverStaticField fuel type payload h
  | None =>
      if DefaultValueExpression field then done (null_instance, h)
      else
        let key := (Some (FieldType field), []) in
        h <-! GetOrCreate fuel key h ;;
        t <-! lift (symbol_of h (FieldType field)) ;;
        match Inlining t with
        | ByValue =>
            r <-! lift (AllocateInstance (Some key) h) ;;
            let '(instance, h) := r in
            h <-! lift (IncrementReference instance h) ;;
            stored <-! lift (stored_pointer instance) ;;
            done (instance, on_staticFields (<[FieldId field := (FieldType field, stored)]>) h)
        | ByReference =>
            done (mkInstance (Some key) Null, on_staticFields (<[FieldId field := (FieldType field, None)]>) h)
        end
  end.

Definition SetStaticField (fuel : nat) (field : StaticField) (instance : ObjectInstance) (h : Heap) : fueled Heap :=
  if IsNullInstance instance then lift (Throw "requested setting static field to nullptr")
  else
    h <-! match staticFields h !! FieldId field with
          | Some (type, payload) =>
              r <-! RecoverStaticField fuel type payload h ;;
              DestroyInstance fuel (fst r) (snd r)
          | None => done h
          end ;;
    r <-! CopyInstance instance h ;;
    let '(stored, h) := r in
    h <-! lift (IncrementReference stored h) ;;
    payload <-! lift (stored_pointer stored) ;;
    done (on_staticFields (<[FieldId field := (FieldType field, payload)]>) h).

(** [value] stands for the address of a literal. *)
Definition InternString (fuel : nat) (value : positive) (h : Heap) : fueled (ObjectInstance * Heap) :=
  let key := (Some StringType, []) in
  h <-! GetOrCreate fuel key h ;;
  match internedStrings h !! value with
  | Some a => done (mkInstance (Some key) (Payload a), h)
  | None =>
      r <-! lift (AllocateInstance (Some key) h) ;;
      let '(view, h) := r in
      _ <-! lift (check_range h view 0 16) ;;
      payload <-! lift (stored_pointer view) ;;
      match payload with
      | Some a => done (view, on_internedStrings (<[value := a]>) h)
      | None => done (view, h)
      end
  end.

(** ** The end of the program *)
Definition mark_terminated (a : Address) (h : Heap) : fueled Heap :=
  _ <-! lift (block_at h a) ;; done (on_Memory (alter (with_Terminated true) a) h).
Definition terminate_static (fuel : nat) (entry : positive * (TypeId * option Address)) (h : Heap) : fueled Heap :=
  match snd entry with
  | (_, None) => done h
  | (type, Some a) =>
      r <-! RecoverStaticField fuel type (Some a) h ;;
      let '(instance, h) := r in
      TerminateInstance (DestroyInstance fuel) instance true (on_Instances (fun s => s ∖ {[a]}) h)
  end.
Definition terminate_regular (fuel : nat) (a : Address) (h : Heap) : fueled Heap :=
  block <-! lift (block_at h a) ;;
  TerminateInstance (DestroyInstance fuel) (mkInstance (Some (Shape block)) (Payload a)) false h.
Definition free_block (a : Address) (h : Heap) : fueled Heap :=
  let h := on_Instances (fun s => s ∖ {[a]}) h in
  _ <-! lift (block_at h a) ;; done (on_Memory (delete a) h).

Definition Terminate (fuel : nat) (h : Heap) : fueled Heap :=
  let snapshot := elements (Instances h) in
  h <-! each mark_terminated snapshot h ;;
  h <-! each (terminate_static fuel) (map_to_list (staticFields h)) h ;;
  h <-! each (terminate_regular fuel) snapshot h ;;
  h <-! each free_block snapshot h ;;
  done (on_asyncTable (fun _ => ∅) (on_staticFields (fun _ => ∅) (on_Instances (fun _ => ∅) h))).

(** ** Field access of the virtual machine

    [LOADFIELD] of a reference pushes the pointer as it is and then discards the
    target; [STOREFIELD] discards the value and the target. *)
Definition LoadReferenceField (fuel : nat) (target : ObjectInstance) (slot : Z) (h : Heap)
  : fueled (ObjectInstance * Heap) :=
  if IsNullInstance target then lift (Throw "Cannot perform operation on null instance.")
  else
    fieldValue <-! lift (GetField h target slot) ;;
    h <-! DiscardValue fuel target h ;;
    done (fieldValue, h).

Definition StoreField (fuel : nat) (target : ObjectInstance) (slot : Z) (fieldValue : ObjectInstance) (h : Heap)
  : fueled Heap :=
  if IsNullInstance target then lift (Throw "Cannot perform operation on null instance.")
  else
    h <-! lift (SetField target slot fieldValue h) ;;
    h <-! DiscardValue fuel fieldValue h ;;
    DiscardValue fuel target h.
End Release.

(** ** Tasks *)
Definition async_record (h : Heap) (a : Address) : AsyncRecord :=
  default (mkAsync false false None 0) (asyncTable h !! a).

Definition IsTaskLike (h : Heap) (a : Address) : bool :=
  match asyncTable h !! a with Some r => TaskLike r | None => false end.
Definition MarkTaskLike (a : Address) (h : Heap) : Heap :=
  let r := async_record h a in
  on_asyncTable (<[a := mkAsync true (FireAndForget r) (FrameOwner r) (NativeState r)]>) h.
Definition IsFireAndForget (h : Heap) (a : Address) : bool :=
  match asyncTable h !! a with Some r => FireAndForget r | None => false end.
Definition MarkFireAndForget (a : Address) (h : Heap) : Heap :=
  let r := async_record h a in
  on_asyncTable (<[a := mkAsync (TaskLike r) true (FrameOwner r) (NativeState r)]>) h.
Definition GetAsyncNativeState (h : Heap) (a : Address) : Z :=
  match asyncTable h !! a with Some r => NativeState r | None => 0 end.
Definition SetAsyncNativeState (a : Address) (state : Z) (h : Heap) : Heap :=
  let r := async_record h a in
  on_asyncTable (<[a := mkAsync (TaskLike r) (FireAndForget r) (FrameOwner r) state]>) h.
Definition GetFrameOwner (h : Heap) (a : Address) : option positive :=
  match asyncTable h !! a with Some r => FrameOwner r | None => None end.

Definition pending (h : Heap) (frame : positive) : Z := default 0 (PendingTaskCount h !! frame).

Definition ReleaseFrameOwner (a : Address) (h : Heap) : Heap :=
  match asyncTable h !! a with
  | None => h
  | Some r =>
      let h := match FrameOwner r with
               | Some frame =>
                   if 0 <? pending h frame
                   then on_PendingTaskCount (<[frame := pending h frame - 1]>) h else h
               | None => h
               end in
      on_asyncTable (<[a := mkAsync (TaskLike r) (FireAndForget r) None (NativeState r)]>) h
  end.

Definition BindToFrame (a : Address) (frame : option positive) (h : Heap) : Heap :=
  match frame with
  | None => h
  | Some frame =>
      let h := on_asyncTable (<[a := async_record h a]>) h in
      if decide (FrameOwner (async_record h a) = Some frame) then h
      else
        let h := ReleaseFrameOwner a h in
        let r := async_record h a in
        let h := on_asyncTable (<[a := mkAsync (TaskLike r) (FireAndForget r) (Some frame) (NativeState r)]>) h in
        on_PendingTaskCount (<[frame := pending h frame + 1]>) h
  end.
