(* ===== verification/HeapFacts.v ===== *)
(** * The heap: lemmas

    Releasing an object ends, because every nested release first marks another
    block as terminated.  Reference counts are stated against a list of pending
    references, held by frames and by objects being released: the count of a live
    block is the number of its occurrences there and in the live blocks. *)
From Stdlib Require Import ZArith Lia Bool List String Permutation.
From stdpp Require Import base list gmap sets fin_sets fin_map_dom.
From S2P Require Import Prelude Layout LayoutFacts Heap.
Import ListNotations.
Open Scope Z_scope.
Open Scope shard_scope.

(** ** Releasing ends *)
Definition live (h : Heap) : gset Address := dom (filter (fun p => Terminated p.2 = false) (Memory h)).

Lemma elem_of_live h a : a ∈ live h <-> exists b, Memory h !! a = Some b /\ Terminated b = false.
Proof.
  unfold live; rewrite elem_of_dom; unfold is_Some.
  split; intros (b & H); exists b; apply map_lookup_filter_Some in H || apply map_lookup_filter_Some; auto.
Qed.

Lemma live_alter h a f :
  (forall b, Terminated (f b) = false -> Terminated b = false) -> live (on_Memory (alter f a) h) ⊆ live h.
Proof.
  intros Hf x; rewrite !elem_of_live; simpl; intros (b & E & H); destruct (decide (x = a)) as [->|Hne].
  - rewrite lookup_alter_eq in E; destruct (Memory h !! a) as [b0|]; [|discriminate].
    injection E as <-; eauto.
  - rewrite lookup_alter_ne in E by congruence; eauto.
Qed.

Lemma live_marked h a : live (on_Memory (alter (with_Terminated true) a) h) ⊆ live h ∖ {[a]}.
Proof.
  intros x Hx; apply elem_of_difference; split; [revert x Hx; apply live_alter; discriminate|].
  intros ->%elem_of_singleton; apply elem_of_live in Hx as (b & E & H); simpl in E.
  rewrite lookup_alter_eq in E; destruct (Memory h !! a); [|discriminate]; injection E as <-; discriminate.
Qed.

Lemma live_delete h a : live (on_Memory (delete a) h) ⊆ live h.
Proof.
  intros x; rewrite !elem_of_live; simpl; intros (b & E & H).
  apply lookup_delete_Some in E as [_ E]; eauto.
Qed.

Section ReleaseHalts.
Context (N : Prop) (StringType : TypeId) (Destroy : ObjectInstance -> Heap -> fueled Heap) (U : gset Address).

Local Abbreviation smaller h := (fun h' => live h' ⊆ live h).

Hypothesis Destroy_halts : forall i h, live h ⊆ U -> halts N (Destroy i h) (smaller h).

Lemma release_slot_halts i shape slot h :
  live h ⊆ U -> halts N (release_slot Destroy i shape slot h) (smaller h).
Proof.
  intros Hh; apply halts_read; intros [] _; [|apply halts_done; reflexivity].
  apply halts_read; intros v _; destruct (IsNullInstance v); [apply halts_done; reflexivity|auto].
Qed.

Lemma release_element_halts i u index h :
  live h ⊆ U -> halts N (release_element Destroy i u index h) (smaller h).
Proof.
  intros Hh; apply halts_read; intros v _; apply halts_read; intros t _.
  destruct (_ && _); [auto|apply halts_done; reflexivity].
Qed.

Lemma DeleteInstanceMemory_live i h h' : DeleteInstanceMemory StringType i h = Ok h' -> live h' ⊆ live h.
Proof.
  unfold DeleteInstanceMemory; destruct (IsNullInstance i); [intros [= <-]; reflexivity|].
  destruct (IsHeapBacked h i) as [[]| |]; simpl; try discriminate; [|intros [= <-]; reflexivity].
  destruct (getInfo i) as [info| |]; simpl; try discriminate.
  destruct (if decide _ then _ else _); simpl; try discriminate.
  destruct (header_address i); intros [= <-]; [apply live_delete|reflexivity].
Qed.
End ReleaseHalts.

Lemma each_smaller {A} N (body : A -> Heap -> fueled Heap) xs h :
  (forall x h', live h' ⊆ live h -> halts N (body x h') (fun h'' => live h'' ⊆ live h')) ->
  halts N (each body xs h) (fun h' => live h' ⊆ live h).
Proof.
  intros Hb; apply (each_halts body (fun h' => live h' ⊆ live h)); [|reflexivity].
  intros x h' Hh'; eapply halts_mono; [apply Hb, Hh'|]; cbv beta; intros h'' H; etransitivity; eauto.
Qed.

Lemma TerminateInstance_halts N StringType Destroy i delete h :
  (forall i h', live h' ⊂ live h -> halts N (Destroy i h') (fun h'' => live h'' ⊆ live h')) ->
  halts N (TerminateInstance StringType Destroy i delete h) (fun h' => live h' ⊆ live h).
Proof.
  intros HD; unfold TerminateInstance; destruct (IsNullInstance i); [apply halts_done; reflexivity|].
  apply halts_read; intros [block|] Hhdr; [|apply halts_done; reflexivity].
  destruct (header_address i) as [a|] eqn:Ea; [|apply halts_done; reflexivity].
  unfold getGcHeader in Hhdr; rewrite Ea in Hhdr.
  destruct (block_at h a) as [b| |] eqn:Eb; try discriminate; injection Hhdr as ->.
  destruct (Terminated block) eqn:Et; [apply halts_done; reflexivity|].
  set (h1 := on_asyncTable _ _).
  assert (Hsub : live h1 ⊆ live h ∖ {[a]}) by (subst h1; exact (live_marked h a)).
  assert (Ha : a ∈ live h) by (apply elem_of_live; exists block; split; [apply deref_Ok, Eb|exact Et]).
  assert (HD1 : forall i h', live h' ⊆ live h1 -> halts N (Destroy i h') (fun h'' => live h'' ⊆ live h')).
  { intros i' h' Hh'; apply HD; set_solver. }
  eapply halts_bind with (P := fun h' => live h' ⊆ live h1).
  { destruct (m_shape i) as [key|]; [|apply halts_done; reflexivity].
    apply halts_read; intros shape _; apply each_smaller; intros slot h' Hh'.
    apply (release_slot_halts N Destroy (live h1)); auto. }
  intros h2 H2; apply halts_read; intros kind _.
  eapply halts_bind with (P := fun h' => live h' ⊆ live h1).
  { destruct kind; try (apply halts_done; exact H2).
    apply halts_read; intros n _; eapply halts_mono; [apply each_smaller|cbv beta; set_solver].
    intros index h' Hh'; apply (release_element_halts N Destroy (live h1)); auto; set_solver. }
  intros h3 H3; destruct delete; [|apply halts_done; set_solver].
  eapply halts_mono; [apply halts_lift|]; intros h4 H4; apply DeleteInstanceMemory_live in H4; set_solver.
Qed.

Lemma on_header_live i f h h' :
  (forall b, Terminated (f b) = false -> Terminated b = false) -> on_header i f h = Ok h' -> live h' ⊆ live h.
Proof.
  intros Hf; unfold on_header; destruct (getGcHeader h i); simpl; try discriminate.
  destruct (header_address i); intros [= <-]; [apply live_alter, Hf|reflexivity].
Qed.

Lemma DestroyInstance_halts N StringType fuel i h :
  N \/ (size (live h) < fuel)%nat ->
  halts N (DestroyInstance StringType fuel i h) (fun h' => live h' ⊆ live h).
Proof.
  revert i h; induction fuel as [|fuel IH]; intros i h Hf; [destruct Hf; [assumption|lia]|]; simpl.
  destruct (IsNullInstance i); [apply halts_done; reflexivity|].
  apply halts_read; intros [block|] _; [|apply halts_done; reflexivity].
  destruct (Terminated block); [apply halts_done; reflexivity|].
  apply halts_read; intros h1 H1.
  assert (Hl1 : live h1 ⊆ live h).
  { eapply on_header_live; [|exact H1]; cbv beta; intros b; destruct (0 <? ReferencesCounter b); intros Hb; exact Hb. }
  apply halts_read; intros counter _; destruct (0 <? counter); [apply halts_done; exact Hl1|].
  assert (Hl2 : live (erase_instance i h1) = live h1) by (unfold erase_instance; destruct (header_address i); reflexivity).
  eapply halts_mono; [apply TerminateInstance_halts|cbv beta; rewrite Hl2; set_solver].
  intros i' h' Hh'; apply IH; destruct Hf as [Hf|Hf]; [left; exact Hf|right].
  apply subset_size in Hh'; rewrite Hl2 in Hh'; apply subseteq_size in Hl1; lia.
Qed.
