(* ===== verification/HeapCounts.v ===== *)
(** * The heap: reference counts

    [counted h pend]: the count of every live block is the number of its
    occurrences among the pending references [pend] and in the live blocks.
    Releasing one pending reference of a sound heap succeeds, keeps the counts,
    and frees every block whose last reference it was. *)
From Stdlib Require Import ZArith Lia Bool List String Permutation.
From stdpp Require Import base list gmap sets fin_sets fin_map_dom.
From S2P Require Import Prelude Layout LayoutFacts Heap HeapFacts.
Import ListNotations.
Open Scope Z_scope.
Open Scope shard_scope.

Definition occurrences (l : list Address) (a : Address) : nat := count_occ Pos.eq_dec l a.

Lemma occurrences_app l l' a : occurrences (l ++ l') a = (occurrences l a + occurrences l' a)%nat.
Proof. apply count_occ_app. Qed.
Lemma occurrences_cons b l a :
  occurrences (b :: l) a = ((if decide (a = b) then 1 else 0) + occurrences l a)%nat.
Proof. unfold occurrences; simpl; destruct (Pos.eq_dec b a), (decide (a = b)); reflexivity || congruence. Qed.

(** ** The references of a block

    These are the references the collector counts: the pointers in the slots of an
    object whose type is a reference type.  It counts none inside by-value structs in
    fields and none in arrays it releases; [HeapSpec.slots_only] says that a heap has
    no such pointers. *)
Definition slot_reference (L : State) (words : Words) (slot : SlotInfo) : list Address :=
  match FieldShape slot with
  | Some (Some type, _) =>
      match Types L !! type with
      | Some t => if IsReferenceType t then option_list (words !! Offset slot) else []
      | None => []
      end
  | _ => []
  end.
Definition slots_references (L : State) (words : Words) (slots : list SlotInfo) : list Address :=
  concat (map (slot_reference L words) slots).
Definition references (L : State) (b : Block) : list Address :=
  match Shapes L !! Shape b with
  | Some shape => slots_references L (Pointers b) (Slots shape)
  | None => []
  end.

(** The references in live blocks. *)
Definition contribution (L : State) (p : Address * Block) : list Address :=
  if Terminated p.2 then [] else references L p.2.
Definition edges (L : State) (memory : gmap Address Block) : list Address :=
  concat (map (contribution L) (map_to_list memory)).

Lemma edges_delete L memory a b :
  memory !! a = Some b -> edges L memory ≡ₚ contribution L (a, b) ++ edges L (delete a memory).
Proof.
  intros E; unfold edges; rewrite <- (map_to_list_delete memory a b E) at 1; reflexivity.
Qed.

Lemma edges_insert L memory a b b' :
  memory !! a = Some b -> contribution L (a, b') = contribution L (a, b) ->
  edges L (<[a := b']> memory) ≡ₚ edges L memory.
Proof.
  intros E Hc; rewrite (edges_delete L (<[a := b']> memory) a b') by apply lookup_insert_eq.
  rewrite (edges_delete L memory a b E), Hc, delete_insert_eq; reflexivity.
Qed.

Lemma occurrences_perm l l' a : l ≡ₚ l' -> occurrences l a = occurrences l' a.
Proof. intros H; apply Permutation_count_occ, H. Qed.

(** ** Counts *)
Definition count_of (memory : gmap Address Block) (a : Address) : nat :=
  match memory !! a with
  | Some b => if Terminated b then 0%nat else Z.to_nat (ReferencesCounter b)
  | None => 0%nat
  end.

Record counted (h : Heap) (pend : list Address) : Prop := mkCounted {
  counts : forall a, occurrences (pend ++ edges (Layouts h) (Memory h)) a = count_of (Memory h) a;
  counts_nonneg : forall a b, Memory h !! a = Some b -> 0 <= ReferencesCounter b }.

Lemma counted_perm h pend pend' : pend ≡ₚ pend' -> counted h pend -> counted h pend'.
Proof.
  intros HP [HC HN]; constructor; [|exact HN]; intros a; rewrite <- HC; apply occurrences_perm.
  rewrite HP; reflexivity.
Qed.

(** A referenced block is live. *)
Lemma counted_live h pend a :
  counted h pend -> a ∈ pend ++ edges (Layouts h) (Memory h) ->
  exists b, Memory h !! a = Some b /\ Terminated b = false /\ 0 < ReferencesCounter b.
Proof.
  intros [HC HN] Hin; apply list_elem_of_In, (count_occ_In Pos.eq_dec) in Hin; rewrite HC in Hin.
  unfold count_of in Hin; destruct (Memory h !! a) as [b|] eqn:E; [|lia].
  destruct (Terminated b) eqn:ET; [lia|]; exists b; repeat split; auto; specialize (HN a b E); lia.
Qed.

(** ** Sound heaps

    The shapes of the blocks have sound reference slots, a pointer in such a slot
    points to a block of the slot's shape, and arrays hold values.  Both are limits of
    the collector, which reads an object with the shape of the slot it is found in, an
    interface's too ([HeapSpec.interface_field_kept]), and the elements of an array with
    no shape at all ([HeapSpec.array_release_undefined]). *)
Definition sound_slot (L : State) (size : Z) (slot : SlotInfo) : Prop :=
  exists type args t, FieldShape slot = Some (Some type, args) /\ Types L !! type = Some t /\
    (Inlining t = ByReference -> 0 <= Offset slot /\ Offset slot + PointerSize <= size).

Definition sound_kind (L : State) (b : Block) (shape : TypeShape) (t : TypeSymbol) : Prop :=
  match Kind t with
  | ArrayType underlaying _ =>
      Slots shape = [] /\ exists u, Types L !! underlaying = Some u /\ Inlining u = ByValue /\
        0 < MemoryBytesSize u /\ 0 <= ArrayLength b /\ ArraySize + MemoryBytesSize u * ArrayLength b < 2 ^ 64
  | _ => True
  end.

Section Sound.
Context (StringType : TypeId).

Definition sound_block (L : State) (b : Block) : Prop :=
  exists shape type args t,
    Shape b = (Some type, args) /\ Shapes L !! Shape b = Some shape /\ Types L !! type = Some t /\
    0 <= Size shape < 2 ^ 64 /\ Forall (sound_slot L (Size shape)) (Slots shape) /\
    sound_kind L b shape t /\
    (type = StringType -> 16 <= Size shape /\ forall u n, Kind t <> ArrayType u n).

Definition typed_block (h : Heap) (b : Block) : Prop :=
  forall shape slot key y by_, Shapes (Layouts h) !! Shape b = Some shape -> slot ∈ Slots shape ->
    FieldShape slot = Some key -> y ∈ slot_reference (Layouts h) (Pointers b) slot ->
    Memory h !! y = Some by_ -> Shape by_ = key.

Definition blocks_sound (h : Heap) : Prop :=
  forall a b, Memory h !! a = Some b -> sound_block (Layouts h) b /\ typed_block h b.

Record sound (h : Heap) : Prop := mkSound {
  sound_blocks : blocks_sound h;
  sound_instances : Instances h = live h }.

(** ** What a release does to the rest of the heap *)
Definition recounted (b b' : Block) : Prop :=
  b' = with_ReferencesCounter (ReferencesCounter b') b /\ ReferencesCounter b' <= ReferencesCounter b /\
  (ReferencesCounter b' = 0 -> ReferencesCounter b = 0).

Record released (h h' : Heap) : Prop := mkReleased {
  released_layouts : Layouts h' = Layouts h;
  released_others : staticFields h' = staticFields h /\ internedStrings h' = internedStrings h /\
    Ready h' = Ready h /\ PendingTaskCount h' = PendingTaskCount h;
  released_blocks : forall a b', Memory h' !! a = Some b' -> exists b, Memory h !! a = Some b /\ recounted b b';
  released_kept : forall a b, Memory h !! a = Some b -> Terminated b = true -> Memory h' !! a = Some b }.

#[export] Instance released_preorder : PreOrder released.
Proof.
  split.
  - intros h; constructor; auto; intros a b' E; exists b'; split; [exact E|].
    split; [destruct b'; reflexivity|split; [lia|auto]].
  - intros h1 h2 h3 [L1 O1 B1 K1] [L2 O2 B2 K2]; constructor; [congruence|intuition congruence| |eauto].
    intros a b3 E3; destruct (B2 a b3 E3) as (b2 & E2 & R2 & Le2 & Z2).
    destruct (B1 a b2 E2) as (b1 & E1 & R1 & Le1 & Z1); exists b1; split; [exact E1|].
    split; [rewrite R2, R1; reflexivity|split; [lia|auto]].
Qed.

Lemma recounted_same b b' : recounted b b' ->
  Shape b' = Shape b /\ Pointers b' = Pointers b /\ ArrayLength b' = ArrayLength b /\ Terminated b' = Terminated b.
Proof. intros [-> _]; auto. Qed.

Lemma sound_block_same L b b' :
  Shape b' = Shape b -> ArrayLength b' = ArrayLength b -> sound_block L b -> sound_block L b'.
Proof.
  intros HS HA (shape & type & args & t & H1 & H2 & H3 & H4 & H5 & H6 & H7).
  exists shape, type, args, t; rewrite HS; repeat (split; [assumption|]); split; [|exact H7].
  unfold sound_kind in *; rewrite HA; exact H6.
Qed.

(** Blocks that keep their shape, pointers and length stay sound. *)
Lemma blocks_kept h h' :
  Layouts h' = Layouts h ->
  (forall a b', Memory h' !! a = Some b' -> exists b, Memory h !! a = Some b /\
     Shape b' = Shape b /\ Pointers b' = Pointers b /\ ArrayLength b' = ArrayLength b) ->
  blocks_sound h -> blocks_sound h'.
Proof.
  intros HL HB HS a b' E; destruct (HB a b' E) as (b & Eb & R1 & R2 & R3); destruct (HS a b Eb) as [H1 H2]; split.
  - rewrite HL; eapply sound_block_same; eauto.
  - intros shape slot key y by_ Es Hin Ef Hy Ey; rewrite HL, R1, R2 in *.
    destruct (HB y by_ Ey) as (by0 & Ey0 & Ry & _); rewrite Ry; eapply H2; eauto.
Qed.

Lemma blocks_insert h a b b' :
  Memory h !! a = Some b -> Shape b' = Shape b -> Pointers b' = Pointers b -> ArrayLength b' = ArrayLength b ->
  blocks_sound h -> blocks_sound (on_Memory (<[a := b']>) h).
Proof.
  intros E R1 R2 R3; apply blocks_kept; [reflexivity|]; intros x bx; simpl.
  rewrite lookup_insert_Some; intros [[<- <-]|[_ Ex]]; [exists b|exists bx]; auto.
Qed.

Lemma released_sound h h' : released h h' -> sound h -> Instances h' = live h' -> sound h'.
Proof.
  intros [HL _ HB _] [HS _] HI; constructor; [|exact HI]; apply (blocks_kept h); auto.
  intros a b' E; destruct (HB a b' E) as (b & Eb & R); exists b; split; [exact Eb|].
  destruct (recounted_same _ _ R) as (R1 & R2 & R3 & _); auto.
Qed.

Lemma released_live h h' : released h h' -> live h' ⊆ live h.
Proof.
  intros [_ _ HB _] x; rewrite !elem_of_live; intros (b' & E & HT).
  destruct (HB x b' E) as (b & Eb & R); exists b; split; [exact Eb|].
  rewrite <- HT; symmetry; apply (recounted_same _ _ R).
Qed.

(** ** Steps of a release *)
Lemma count_of_insert memory a b x :
  count_of (<[a := b]> memory) x =
  if decide (x = a) then if Terminated b then 0%nat else Z.to_nat (ReferencesCounter b) else count_of memory x.
Proof.
  unfold count_of; case_decide as E; [subst; rewrite lookup_insert_eq; reflexivity|].
  rewrite lookup_insert_ne by congruence; reflexivity.
Qed.

Lemma counted_decrement h a b pend :
  counted h (a :: pend) -> Memory h !! a = Some b -> Terminated b = false -> 0 < ReferencesCounter b ->
  counted (on_Memory (<[a := with_ReferencesCounter (ReferencesCounter b - 1) b]>) h) pend.
Proof.
  intros [HC HN] E HT Hpos; constructor.
  - intros x; specialize (HC x); cbn [Layouts Memory on_Memory]; rewrite count_of_insert.
    rewrite occurrences_app, (occurrences_perm _ _ x (edges_insert _ _ _ _
      (with_ReferencesCounter (ReferencesCounter b - 1) b) E eq_refl)).
    rewrite occurrences_app, occurrences_cons in HC; simpl; rewrite HT.
    case_decide as Hx; [subst x; unfold count_of in HC; rewrite E, HT in HC|]; lia.
  - intros x bx; simpl; destruct (decide (x = a)) as [->|Hne].
    + rewrite lookup_insert_eq; intros [= <-]; simpl; lia.
    + rewrite lookup_insert_ne by congruence; apply HN.
Qed.

Lemma counted_mark h a b pend :
  counted h pend -> Memory h !! a = Some b -> Terminated b = false -> ReferencesCounter b = 0 ->
  counted (on_Memory (<[a := with_Terminated true b]>) h) (references (Layouts h) b ++ pend).
Proof.
  intros [HC HN] E HT H0; constructor.
  - intros x; specialize (HC x); simpl; rewrite count_of_insert; simpl.
    assert (HP : edges (Layouts h) (Memory h) ≡ₚ
                 references (Layouts h) b ++ edges (Layouts h) (<[a := with_Terminated true b]> (Memory h))).
    { rewrite (edges_delete _ _ _ _ E); unfold contribution at 1; simpl; rewrite HT.
      rewrite (edges_delete (Layouts h) (<[a := with_Terminated true b]> (Memory h)) a) by apply lookup_insert_eq.
      rewrite delete_insert_eq; reflexivity. }
    rewrite occurrences_app, (occurrences_perm _ _ x HP), occurrences_app in HC.
    rewrite !occurrences_app; case_decide as Hx; [subst x; unfold count_of in HC; rewrite E, HT, H0 in HC|]; lia.
  - intros x bx; simpl; destruct (decide (x = a)) as [->|Hne].
    + rewrite lookup_insert_eq; intros [= <-]; simpl; lia.
    + rewrite lookup_insert_ne by congruence; apply HN.
Qed.

Lemma counted_free h a b pend :
  counted h pend -> Memory h !! a = Some b -> Terminated b = true -> counted (on_Memory (delete a) h) pend.
Proof.
  intros [HC HN] E HT; constructor.
  - intros x; specialize (HC x); simpl.
    rewrite occurrences_app, (occurrences_perm _ _ x (edges_delete _ _ _ _ E)) in HC.
    unfold contribution at 1 in HC; simpl in HC; rewrite HT in HC; simpl in HC.
    rewrite occurrences_app, HC; unfold count_of; destruct (decide (x = a)) as [->|Hne].
    + rewrite lookup_delete_eq, E, HT; reflexivity.
    + rewrite lookup_delete_ne by congruence; reflexivity.
  - intros x bx; simpl; intros Ex; apply lookup_delete_Some in Ex as [_ Ex]; eauto.
Qed.

Lemma live_mark_eq h a b :
  Memory h !! a = Some b -> live (on_Memory (<[a := with_Terminated true b]>) h) = live h ∖ {[a]}.
Proof.
  intros E; apply set_eq; intros x; rewrite elem_of_difference, !elem_of_live, elem_of_singleton; simpl.
  destruct (decide (x = a)) as [->|Hne].
  - rewrite lookup_insert_eq; split; [intros (bx & [= <-] & Hx); discriminate|intros [_ Hx]; contradiction].
  - rewrite lookup_insert_ne by congruence; naive_solver.
Qed.

Lemma live_free_eq h a b :
  Memory h !! a = Some b -> Terminated b = true -> live (on_Memory (delete a) h) = live h.
Proof.
  intros E HT; apply set_eq; intros x; rewrite !elem_of_live; simpl.
  destruct (decide (x = a)) as [->|Hne].
  - rewrite lookup_delete_eq, E; split; intros (bx & [= <-] & Hx); congruence.
  - rewrite lookup_delete_ne by congruence; reflexivity.
Qed.

Lemma live_recount_eq h a b c :
  Memory h !! a = Some b -> live (on_Memory (<[a := with_ReferencesCounter c b]>) h) = live h.
Proof.
  intros E; apply set_eq; intros x; rewrite !elem_of_live; simpl.
  destruct (decide (x = a)) as [->|Hne].
  - rewrite lookup_insert_eq, E; split; intros (bx & [= <-] & Hx); eexists; split; eauto.
  - rewrite lookup_insert_ne by congruence; reflexivity.
Qed.

(** ** Reading fields of a sound block *)
Definition object (a : Address) (b : Block) : ObjectInstance := mkInstance (Some (Shape b)) (Payload a).

Lemma sound_slot_at L b shape i slot :
  sound_block L b -> Shapes L !! Shape b = Some shape -> Slots shape !! i = Some slot ->
  sound_slot L (Size shape) slot /\ 0 <= Size shape < 2 ^ 64 /\
  exists type args t, Shape b = (Some type, args) /\ Types L !! type = Some t /\
    forall u n, Kind t <> ArrayType u n.
Proof.
  intros (shape' & type & args & t & H1 & H2 & H3 & H4 & H5 & H6 & H7) Es Ei.
  assert (shape' = shape) as -> by congruence.
  rewrite Forall_lookup in H5; split; [eapply H5; eauto|]; split; [exact H4|].
  exists type, args, t; repeat split; auto; intros u n HK; unfold sound_kind in H6; rewrite HK in H6.
  destruct H6 as [HS _]; rewrite HS in Ei; discriminate.
Qed.

Lemma slot_found shape i slot :
  Slots shape !! i = Some slot ->
  GetFieldShape (Z.of_nat i) shape = Ok (FieldShape slot) /\ GetOffset (Z.of_nat i) shape = Ok (Offset slot).
Proof. intros E; unfold GetFieldShape, GetOffset; rewrite Nat2Z.id, E; auto. Qed.

Lemma is_reference_at h type args t :
  Types (Layouts h) !! type = Some t -> is_reference h (Some type, args) = Ok (IsReferenceType t).
Proof. intros E; unfold is_reference, symbol_of; simpl; rewrite E; reflexivity. Qed.

Lemma block_found h a b : Memory h !! a = Some b -> block_at h a = Ok b.
Proof. intros E; unfold block_at; rewrite E; reflexivity. Qed.

Lemma field_shape_at write h a b shape i slot key :
  Shapes (Layouts h) !! Shape b = Some shape -> Slots shape !! i = Some slot -> FieldShape slot = Some key ->
  field_shape write h (object a b) (Z.of_nat i) = Ok (shape, key).
Proof.
  intros Es Ei EF; unfold field_shape, object; simpl; unfold shape_of; rewrite Es; simpl.
  pose proof (lookup_lt_Some _ _ _ Ei); destruct (Z.leb_spec (Z.of_nat (List.length (Slots shape))) (Z.of_nat i)); [lia|].
  rewrite (proj1 (slot_found _ _ _ Ei)), EF; reflexivity.
Qed.

(** The eight bytes of a reference slot are in its object. *)
Lemma pointer_range h a b shape i slot type args t :
  sound_block (Layouts h) b -> Shapes (Layouts h) !! Shape b = Some shape -> Slots shape !! i = Some slot ->
  FieldShape slot = Some (Some type, args) -> Types (Layouts h) !! type = Some t -> IsReferenceType t = true ->
  check_range h (object a b) (Offset slot) PointerSize = Ok tt.
Proof.
  intros HS Es Ei EF Et HR.
  destruct (sound_slot_at _ _ _ _ _ HS Es Ei) as ((ty & ar & t' & EF' & Et' & Hoff) & Hsz & type0 & args0 & t0 & ES & Et0 & HK).
  assert (ty = type) as -> by (rewrite EF in EF'; injection EF'; auto); assert (t' = t) as -> by congruence.
  assert (HI : Inlining t = ByReference) by (unfold IsReferenceType in HR; apply bool_decide_eq_true in HR; exact HR).
  destruct (Hoff HI) as [Hoff0 Hoff8]; unfold check_range, instance_size, object; simpl; unfold shape_of; rewrite Es; simpl; rewrite ES; simpl.
  unfold symbol_of; rewrite Et0; simpl; unfold size_t, PointerSize in *; rewrite Z.mod_small by lia.
  destruct (Kind t0) eqn:EK; try (exfalso; eapply HK; eauto; fail); simpl;
    destruct (Z.ltb_spec (Size shape) (Offset slot + 8)); auto; lia.
Qed.

Lemma get_reference h a b shape i slot key t type args :
  sound_block (Layouts h) b -> Memory h !! a = Some b -> Shapes (Layouts h) !! Shape b = Some shape ->
  Slots shape !! i = Some slot -> FieldShape slot = Some key -> key = (Some type, args) ->
  Types (Layouts h) !! type = Some t -> IsReferenceType t = true ->
  GetField h (object a b) (Z.of_nat i) = Ok (mkInstance (Some key) (pointer_of (Pointers b !! Offset slot))).
Proof.
  intros HS E Es Ei EF -> Et HR; unfold GetField; rewrite (field_shape_at false h a b shape i slot _ Es Ei EF); simpl.
  rewrite (proj2 (slot_found _ _ _ Ei)); simpl; rewrite (is_reference_at h _ _ _ Et), HR; simpl.
  rewrite (pointer_range h a b shape i slot type args t HS Es Ei EF Et HR); unfold read_pointer; simpl.
  rewrite (block_found _ _ _ E); reflexivity.
Qed.
End Sound.
