(* ===== verification/HeapRelease.v ===== *)
(** * The heap: releasing a reference

    Releasing one reference of a sound heap succeeds and keeps the counts.  The
    loops of [TerminateInstance] are taken against any [Destroy] that does so on
    the heaps with fewer live blocks; [DestroyInstance] follows by induction on
    its fuel. *)
From Stdlib Require Import ZArith Lia Bool List String.
From stdpp Require Import base list gmap sets fin_sets fin_map_dom.
From S2P Require Import Prelude Layout LayoutFacts Heap HeapFacts HeapCounts.
Import ListNotations.
Open Scope Z_scope.
Open Scope shard_scope.

Lemma alter_insert_eq (memory : gmap Address Block) a b f :
  memory !! a = Some b -> alter f a memory = <[a := f b]> memory.
Proof.
  intros E; apply map_eq; intros x; destruct (decide (x = a)) as [->|Hne].
  - rewrite lookup_alter_eq, lookup_insert_eq, E; reflexivity.
  - rewrite lookup_alter_ne, lookup_insert_ne by congruence; reflexivity.
Qed.

Lemma header_found h a b key :
  Memory h !! a = Some b -> getGcHeader h (mkInstance key (Payload a)) = Ok (Some b).
Proof. intros E; unfold getGcHeader; simpl; rewrite (block_found h a b E); reflexivity. Qed.

(** ** Arrays of values, and the memory of a block *)
Lemma info_kind_at h a b type args t :
  Shape b = (Some type, args) -> Types (Layouts h) !! type = Some t -> info_kind h (object a b) = Ok (Kind t).
Proof. intros ES Et; unfold info_kind, getInfo, object; simpl; rewrite ES; simpl; unfold symbol_of; rewrite Et; reflexivity. Qed.

Lemma array_length_at h a b type args t u n :
  Shape b = (Some type, args) -> Types (Layouts h) !! type = Some t -> Kind t = ArrayType u n ->
  Memory h !! a = Some b -> GetArrayLength h (object a b) = Ok (ArrayLength b).
Proof.
  intros ES Et EK E; unfold GetArrayLength; rewrite (info_kind_at h a b type args t ES Et); simpl.
  rewrite EK; simpl; rewrite (block_found _ _ _ E); reflexivity.
Qed.

Lemma instance_size_at h a b shape type args t :
  Shape b = (Some type, args) -> Shapes (Layouts h) !! Shape b = Some shape -> Types (Layouts h) !! type = Some t ->
  (forall u n, Kind t <> ArrayType u n) -> instance_size h (object a b) = Ok (Size shape).
Proof.
  intros ES Es Et HK; unfold instance_size, object; simpl; unfold shape_of; rewrite Es; simpl; rewrite ES; simpl.
  unfold symbol_of; rewrite Et; simpl; destruct (Kind t) eqn:EK; try reflexivity; exfalso; eapply HK; eauto.
Qed.

Lemma array_size_at h a b shape type args t u n tu :
  Memory h !! a = Some b -> Shape b = (Some type, args) -> Shapes (Layouts h) !! Shape b = Some shape ->
  Types (Layouts h) !! type = Some t -> Kind t = ArrayType u n -> Types (Layouts h) !! u = Some tu ->
  instance_size h (object a b) = Ok (size_t (ArraySize + size_t (GetInlineSize tu * ArrayLength b))).
Proof.
  intros E ES Es Et EK Eu; unfold instance_size, shape_of, symbol_of.
  cbn [m_shape object deref]; change (rbind (Ok (Shape b))) with (fun k : ShapeKey -> result Z => k (Shape b)); cbv beta.
  rewrite Es; simpl; rewrite ES; simpl; rewrite Et; simpl; rewrite EK.
  rewrite (array_length_at h a b type args t u n ES Et EK E); simpl; rewrite Eu; reflexivity.
Qed.

Section Arrays.
Context (Destroy : ObjectInstance -> Heap -> fueled Heap).

Lemma release_element_value h a b shape type args t u n tu index :
  Memory h !! a = Some b -> Shape b = (Some type, args) -> Shapes (Layouts h) !! Shape b = Some shape ->
  Types (Layouts h) !! type = Some t -> Kind t = ArrayType u n ->
  Types (Layouts h) !! u = Some tu -> Inlining tu = ByValue -> 0 < MemoryBytesSize tu ->
  ArraySize + MemoryBytesSize tu * ArrayLength b < 2 ^ 64 -> 0 <= index < ArrayLength b ->
  release_element Destroy (object a b) u index h = done h.
Proof.
  intros E ES Es Et EK Eu HI Hsz Hfit Hi.
  pose proof (info_kind_at h a b type args t ES Et) as HK.
  pose proof (array_length_at h a b type args t u n ES Et EK E) as HL.
  assert (Hlast : MemoryBytesSize tu * (index + 1) <= MemoryBytesSize tu * ArrayLength b) by nia.
  assert (Hoff : element_offset tu index = ArraySize + MemoryBytesSize tu * index).
  { unfold element_offset, GetInlineSize, size_t, ArraySize in *; rewrite HI, (Z.mod_small (_ * _)) by nia.
    apply Z.mod_small; nia. }
  assert (Helem : exists p, GetElement h (object a b) index = Ok (mkInstance None p)).
  { unfold GetElement, element_type; rewrite HK; simpl; rewrite EK; simpl; rewrite HL; simpl.
    destruct (Z.leb_spec (ArrayLength b) index); [lia|]; unfold symbol_of; rewrite Eu; simpl.
    unfold IsReferenceType; rewrite HI; simpl; rewrite Hoff; unfold OffsetMemory, check_range.
    unfold GetInlineSize at 1 2; rewrite HI; destruct (Z.eqb_spec (MemoryBytesSize tu) 0); [lia|].
    rewrite (array_size_at h a b shape type args t u n tu E ES Es Et EK Eu); simpl.
    unfold GetInlineSize, size_t, ArraySize in *; rewrite HI, !(Z.mod_small (MemoryBytesSize tu * _)), !Z.mod_small by nia.
    match goal with |- context [?x <? ?y] => destruct (Z.ltb_spec x y); [nia|] end; simpl; eauto. }
  destruct Helem as [p Hp]; unfold release_element; rewrite Hp; simpl; unfold symbol_of; rewrite Eu; simpl.
  unfold IsReferenceType; rewrite HI; reflexivity.
Qed.

Lemma each_unchanged {A} (body : A -> Heap -> fueled Heap) xs h :
  (forall x, In x xs -> body x h = done h) -> each body xs h = done h.
Proof.
  induction xs as [|x xs IH]; intros H; [reflexivity|]; simpl; rewrite (H x) by (left; reflexivity).
  apply IH; intros y Hy; apply H; right; exact Hy.
Qed.

Lemma release_elements_spec h a b shape type args t u n :
  Memory h !! a = Some b -> Shape b = (Some type, args) -> Shapes (Layouts h) !! Shape b = Some shape ->
  Types (Layouts h) !! type = Some t -> Kind t = ArrayType u n -> sound_kind (Layouts h) b shape t ->
  each (release_element Destroy (object a b) u) (array_indexes (ArrayLength b)) h = done h.
Proof.
  intros E ES Es Et EK Hkind; unfold sound_kind in Hkind; rewrite EK in Hkind.
  destruct Hkind as [_ (tu & Eu & HI & Hsz & Hlen & Hfit)]; apply each_unchanged.
  intros index Hin; apply in_map_iff in Hin as (k & <- & Hk); apply in_seq in Hk.
  eapply release_element_value; eauto; lia.
Qed.
End Arrays.

Lemma delete_found StringType h a b :
  sound_block StringType (Layouts h) b -> Memory h !! a = Some b ->
  DeleteInstanceMemory StringType (object a b) h = Ok (on_Memory (delete a) h).
Proof.
  intros (shape & type & args & t & ES & Es & Et & Hsz & _ & _ & Hstr) E.
  assert (HG : getInfo (object a b) = Ok (Some type)) by (unfold getInfo; simpl; rewrite ES; reflexivity).
  assert (HH : IsHeapBacked h (object a b) = Ok true) by (unfold IsHeapBacked, object; rewrite (header_found _ _ _ _ E); reflexivity).
  unfold DeleteInstanceMemory; rewrite HH, HG; simpl; case_decide as HS; [|reflexivity].
  injection HS as ->; destruct (Hstr eq_refl) as [H16 HK].
  unfold OffsetMemory, check_range; simpl; rewrite (instance_size_at h a b shape StringType args t ES Es Et HK); simpl.
  unfold size_t, PointerSize; rewrite Z.mod_small by lia; destruct (Z.ltb_spec (Size shape) (8 + 8)); [lia|reflexivity].
Qed.

Section ReleaseSpec.
Context (StringType : TypeId).
Local Abbreviation sound := (sound StringType).

(** The heap after one more pending reference is released. *)
Definition releases (h : Heap) (pend : list Address) (m : fueled Heap) : Prop :=
  exists h', m = done h' /\ released h h' /\ counted h' pend /\ Instances h' = live h'.

Lemma releases_done h pend : sound h -> counted h pend -> releases h pend (done h).
Proof. intros [_ HI] HC; exists h; split; [reflexivity|]; split; [reflexivity|auto]. Qed.

Lemma releases_bind h pend pend' m k :
  sound h -> releases h pend m ->
  (forall h', released h h' -> sound h' -> counted h' pend -> releases h' pend' (k h')) ->
  releases h pend' (fbind m k).
Proof.
  intros HS (h' & -> & R & HC & HI) Hk; destruct (Hk h' R) as (h'' & E & R' & HC' & HI'); auto.
  - eapply released_sound; eauto.
  - exists h''; split; [exact E|]; split; [etransitivity; eauto|auto].
Qed.

Section Loops.
Context (Destroy : ObjectInstance -> Heap -> fueled Heap) (U : gset Address).

Hypothesis Destroy_releases : forall a b h pend,
  live h ⊆ U -> sound h -> counted h (a :: pend) -> Memory h !! a = Some b ->
  releases h pend (Destroy (object a b) h).

Lemma release_slot_spec a b shape i slot h pend :
  live h ⊆ U -> sound h -> Memory h !! a = Some b -> Shapes (Layouts h) !! Shape b = Some shape ->
  Slots shape !! i = Some slot -> counted h (slot_reference (Layouts h) (Pointers b) slot ++ pend) ->
  releases h pend (release_slot Destroy (object a b) shape (Z.of_nat i) h).
Proof.
  intros HU HS E Es Ei HC; destruct (sound_blocks _ _ HS a b E) as [HB HT].
  destruct (sound_slot_at _ _ _ _ _ _ HB Es Ei) as ((type & args & t & EF & Et & _) & _).
  pose proof (proj1 (slot_found _ _ _ Ei)) as HF; unfold release_slot, reference_slot; rewrite HF, EF; simpl.
  rewrite (is_reference_at h _ _ _ Et); simpl.
  pose proof (fun key y by_ => HT shape slot key y by_ Es (list_elem_of_lookup_2 _ _ _ Ei)) as HY.
  unfold slot_reference in HC, HY; rewrite EF, Et in HC, HY.
  destruct (IsReferenceType t) eqn:HR; [|apply releases_done; assumption].
  rewrite (get_reference _ h a b shape i slot _ t type args HB E Es Ei EF eq_refl Et HR); simpl.
  destruct (Pointers b !! Offset slot) as [y|] eqn:Ey; simpl in *; [|apply releases_done; assumption].
  destruct (counted_live h _ y HC) as (by_ & Eby & _); [apply list_elem_of_here|].
  rewrite <- (HY _ y by_ eq_refl (list_elem_of_here _ _) Eby); apply Destroy_releases; auto.
Qed.

Lemma release_slots_spec a b shape n : forall k h pend,
  (k + n = List.length (Slots shape))%nat ->
  live h ⊆ U -> sound h -> Memory h !! a = Some b -> Terminated b = true ->
  Shapes (Layouts h) !! Shape b = Some shape ->
  counted h (slots_references (Layouts h) (Pointers b) (drop k (Slots shape)) ++ pend) ->
  releases h pend (each (release_slot Destroy (object a b) shape) (map Z.of_nat (seq k n)) h).
Proof.
  induction n as [|n IH]; intros k h pend Hn HU HS E HT Es HC.
  - rewrite drop_ge in HC by lia; simpl; apply releases_done; assumption.
  - destruct (lookup_lt_is_Some_2 (Slots shape) k) as [slot Ei]; [lia|].
    rewrite (drop_S _ _ _ Ei) in HC; unfold slots_references in HC; simpl in HC; rewrite <- app_assoc in HC.
    simpl; eapply releases_bind; [exact HS|eapply release_slot_spec; eauto|].
    intros h' R HS' HC'; apply IH; auto; try lia.
    + transitivity (live h); [apply released_live, R|exact HU].
    + apply (released_kept _ _ R); assumption.
    + rewrite (released_layouts _ _ R); exact Es.
    + rewrite (released_layouts _ _ R); exact HC'.
Qed.

Lemma released_through_mark h h1 h2 a b b' :
  Memory h !! a = Some b -> Terminated b = false -> Layouts h1 = Layouts h ->
  staticFields h1 = staticFields h /\ internedStrings h1 = internedStrings h /\
    Ready h1 = Ready h /\ PendingTaskCount h1 = PendingTaskCount h ->
  Memory h1 = <[a := b']> (Memory h) -> released h1 h2 -> released h (on_Memory (delete a) h2).
Proof.
  intros E HT HL HO HM [HL2 HO2 HB2 HK2]; constructor; simpl; [congruence|intuition congruence| |].
  - intros x bx; rewrite lookup_delete_Some; intros [Hne Ex]; destruct (HB2 x bx Ex) as (bx0 & Ex0 & R).
    rewrite HM, lookup_insert_ne in Ex0 by congruence; eauto.
  - intros x bx Ex Hx; assert (a <> x) by congruence; rewrite lookup_delete_ne by congruence.
    apply HK2; [rewrite HM, lookup_insert_ne by congruence; exact Ex|exact Hx].
Qed.

(** Marking, the two loops, and the deletion of a block that just lost the last
    of its references in [g]. *)
Lemma terminate_spec g h a b0 b pend :
  Memory g !! a = Some b0 -> Terminated b0 = false -> Layouts h = Layouts g ->
  staticFields h = staticFields g /\ internedStrings h = internedStrings g /\
    Ready h = Ready g /\ PendingTaskCount h = PendingTaskCount g ->
  Memory h = <[a := b]> (Memory g) ->
  live h ∖ {[a]} ⊆ U -> blocks_sound StringType h -> Instances h = live h ∖ {[a]} ->
  Terminated b = false -> ReferencesCounter b = 0 -> counted h pend ->
  releases g pend (TerminateInstance StringType Destroy (object a b) true h).
Proof.
  intros E0 HT0 HLg HOg HMg HU HB HI HT H0 HC.
  assert (E : Memory h !! a = Some b) by (rewrite HMg; apply lookup_insert_eq); destruct (HB a b E) as [(shape & type & args & t & ES & Es & Et & _ & _ & Hkind & _) _].
  unfold TerminateInstance; simpl; unfold object at 1; rewrite (header_found _ _ _ _ E); simpl; rewrite HT.
  pose proof (counted_mark h a b pend HC E HT H0) as HC1; pose proof (live_mark_eq h a b E) as HL1.
  unfold references in HC1; rewrite Es in HC1; set (b1 := with_Terminated true b) in *.
  set (h1 := on_asyncTable (delete a) (on_Memory (<[a := b1]>) h)).
  assert (HS1 : sound h1).
  { constructor; [apply (blocks_insert StringType h a b b1); auto|]. change (Instances h = live (on_Memory (<[a := b1]>) h)); congruence. }
  assert (E1 : Memory h1 !! a = Some b1) by apply lookup_insert_eq.
  pose proof (release_slots_spec a b1 shape (List.length (Slots shape)) 0 h1 pend) as Hslots.
  destruct Hslots as (h2 & Hrun & R & HC2 & HI2); auto.
  { change (live h1) with (live (on_Memory (<[a := b1]>) h)); rewrite HL1; exact HU. }
  { destruct HC1 as [HC1 HN1]; constructor; assumption. }
  assert (HM : on_asyncTable (delete a) (on_Memory (alter (with_Terminated true) a) h) = h1).
  { unfold h1, on_Memory, b1; rewrite <- (alter_insert_eq _ _ _ _ E); reflexivity. }
  rewrite HM; change (object a b) with (object a b1); unfold shape_of; change (Layouts h1) with (Layouts h).
  change (Layouts (on_Memory _ h)) with (Layouts h); rewrite Es; simpl.
  change (each _ _ h1) with (each (release_slot Destroy (object a b1) shape) (map Z.of_nat (seq 0 (List.length (Slots shape)))) h1).
  rewrite Hrun; simpl; pose proof (released_kept _ _ R a b1 E1 eq_refl) as E2.
  assert (HL : Layouts h2 = Layouts h) by apply (released_layouts _ _ R).
  rewrite <- HL in Et, Es; rewrite (info_kind_at h2 a b1 type args t ES Et); simpl.
  assert (Hloop : match Kind t with
                  | ArrayType u _ =>
                      n <-! lift (GetArrayLength h2 (object a b1)) ;;
                      each (release_element Destroy (object a b1) u) (array_indexes n) h2
                  | _ => done h2
                  end = done h2).
  { destruct (Kind t) eqn:EK; try reflexivity; rewrite (array_length_at h2 a b1 type args t _ _ ES Et EK E2); simpl.
    eapply (release_elements_spec Destroy h2 a b1); eauto; unfold sound_kind in *; rewrite EK in *; rewrite HL; exact Hkind. }
  unfold fbind at 1, lift at 1 in Hloop; rewrite Hloop; simpl.
  assert (HS2 : sound h2) by (eapply released_sound; eauto).
  rewrite (delete_found StringType h2 a b1 (proj1 (sound_blocks _ _ HS2 a b1 E2)) E2).
  eexists; split; [reflexivity|]; split; [|split].
  - apply (released_through_mark g h1 h2 a b0 b1); auto; simpl; rewrite HMg; apply insert_insert_eq.
  - apply (counted_free h2 a b1); auto.
  - rewrite (live_free_eq h2 a b1 E2 eq_refl); exact HI2.
Qed.
End Loops.

(** A block that keeps references. *)
Lemma released_decrement h a b :
  Memory h !! a = Some b -> Terminated b = false -> 1 < ReferencesCounter b ->
  released h (on_Memory (<[a := with_ReferencesCounter (ReferencesCounter b - 1) b]>) h).
Proof.
  intros E HT H1; constructor; auto.
  - intros x bx; simpl; rewrite lookup_insert_Some; intros [[<- <-]|[Hne Ex]].
    + exists b; split; [exact E|split; [reflexivity|simpl; lia]].
    + exists bx; split; [exact Ex|split; [destruct bx; reflexivity|lia]].
  - intros x bx Ex Hx; simpl; rewrite lookup_insert_ne by congruence; exact Ex.
Qed.

Lemma decrement_found h a b :
  Memory h !! a = Some b -> 0 < ReferencesCounter b ->
  DecrementReference (object a b) h =
    Ok (on_Memory (<[a := with_ReferencesCounter (ReferencesCounter b - 1) b]>) h).
Proof.
  intros E Hpos; unfold DecrementReference, on_header, object; rewrite (header_found _ _ _ _ E); simpl; unfold on_Memory.
  rewrite (alter_insert_eq _ _ _ _ E); destruct (Z.ltb_spec 0 (ReferencesCounter b)); [reflexivity|lia].
Qed.

(** A live block with references loses one, and is freed with the last. *)
Lemma destroy_spec fuel : forall a b h pend,
  (size (live h) < fuel)%nat -> sound h -> counted h (a :: pend) -> Memory h !! a = Some b ->
  releases h pend (DestroyInstance StringType fuel (object a b) h).
Proof.
  induction fuel as [|fuel IH]; intros a b h pend Hfuel HS HC E; [lia|].
  destruct (counted_live h _ a HC) as (b' & E' & HT & Hpos); [apply list_elem_of_here|].
  assert (b' = b) as -> by congruence; pose proof (sound_instances _ _ HS) as HI.
  pose proof (counted_decrement h a b pend HC E HT Hpos) as HC0.
  pose proof (live_recount_eq h a b (ReferencesCounter b - 1) E) as HL0.
  pose proof (released_decrement h a b E HT) as R0; pose proof (decrement_found h a b E Hpos) as Hdec.
  set (b0 := with_ReferencesCounter (ReferencesCounter b - 1) b) in *; set (h0 := on_Memory (<[a := b0]>) h) in *.
  assert (Hcnt : getReferencesCounter h0 (object a b) = Ok (ReferencesCounter b - 1)).
  { unfold getReferencesCounter, object; rewrite (header_found h0 a b0); [reflexivity|apply lookup_insert_eq]. }
  cbn [DestroyInstance]; change (IsNullInstance (object a b)) with false; cbv iota.
  unfold object at 1; rewrite (header_found _ _ _ _ E); cbn [lift fbind]; rewrite HT, Hdec; cbn [lift fbind].
  rewrite Hcnt; cbn [lift fbind]; destruct (Z.ltb_spec 0 (ReferencesCounter b - 1)) as [H1|H1].
  - exists h0; split; [reflexivity|]; split; [apply R0; lia|]; split; [exact HC0|rewrite HL0; exact HI].
  - change (object a b) with (object a b0).
    change (erase_instance (object a b0) h0) with (on_Instances (fun s => s ∖ {[a]}) h0).
    apply (terminate_spec (DestroyInstance StringType fuel) (live h ∖ {[a]})) with (b0 := b) (b := b0); auto.
    + intros x bx h' pend' HU HS' HC' Ex; apply IH; auto; apply subseteq_size in HU.
      assert (Ha : a ∈ live h) by (apply elem_of_live; eauto).
      rewrite size_difference, size_singleton in HU by set_solver.
      assert (0 < size (live h))%nat by (apply Nat.neq_0_lt_0; intros H; apply size_empty_inv in H; set_solver); lia.
    + change (live (on_Instances (fun s => s ∖ {[a]}) h0)) with (live h0); rewrite HL0; reflexivity.
    + apply (blocks_insert StringType h a b b0); auto; apply (sound_blocks _ _ HS).
    + change (live (on_Instances (fun s => s ∖ {[a]}) h0)) with (live h0); rewrite HL0; simpl; rewrite HI; reflexivity.
    + simpl; lia.
    + destruct HC0 as [HC0 HN0]; constructor; assumption.
Qed.
End ReleaseSpec.
