(* ===== verification/HeapStore.v ===== *)
(** * The heap: storing a reference

    [SetField] of a reference: the old value loses a reference, the new one gains
    one, and the pointer of the slot, alone, is replaced; so the counts stay the
    numbers of references. *)
From Stdlib Require Import ZArith Lia Bool List String Permutation.
From stdpp Require Import base list gmap sets fin_sets fin_map_dom.
From S2P Require Import Prelude Layout LayoutFacts Heap HeapFacts HeapCounts HeapRelease.
Import ListNotations.
Open Scope Z_scope.
Open Scope shard_scope.

(** ** The pointer that is replaced *)
Definition refers (L : State) (slot : SlotInfo) : Prop :=
  exists type args t, FieldShape slot = Some (Some type, args) /\ Types L !! type = Some t /\ IsReferenceType t = true.

(** The pointers of different reference slots do not overlap. *)
Definition spaced (L : State) (slots : list SlotInfo) : Prop :=
  forall i j si sj, slots !! i = Some si -> slots !! j = Some sj -> i <> j -> refers L si -> refers L sj ->
    Offset si + PointerSize <= Offset sj \/ Offset sj + PointerSize <= Offset si.

Definition replaced (offset : Z) (new : option Address) (words : Words) : Words :=
  words_at offset (pointer_words new) ∪ words_out offset PointerSize words.

Lemma replaced_here offset new words : replaced offset new words !! offset = new.
Proof.
  unfold replaced, words_at, words_out; destruct new as [y|]; simpl.
  - rewrite kmap_singleton, Z.add_0_l; apply lookup_union_Some_l, lookup_singleton_eq.
  - rewrite kmap_empty, map_empty_union; apply map_lookup_filter_None; right; intros y _; simpl; unfold PointerSize; lia.
Qed.

Lemma replaced_elsewhere offset new words x :
  x + PointerSize <= offset \/ offset + PointerSize <= x -> replaced offset new words !! x = words !! x.
Proof.
  unfold PointerSize; intros Hx; unfold replaced, words_at, words_out.
  rewrite lookup_union_r; [idtac|].
  - destruct (words !! x) as [y|] eqn:E.
    + apply map_lookup_filter_Some; split; [exact E|simpl; unfold PointerSize; lia].
    + apply map_lookup_filter_None; left; exact E.
  - destruct new; simpl; [rewrite kmap_singleton, Z.add_0_l; apply lookup_singleton_ne; lia|rewrite kmap_empty; apply lookup_empty].
Qed.

Lemma slot_reference_in L words slot y : y ∈ slot_reference L words slot -> refers L slot /\ words !! Offset slot = Some y.
Proof.
  intros H%list_elem_of_In; unfold slot_reference, refers in *.
  destruct (FieldShape slot) as [[[type|] args]|]; try contradiction.
  destruct (Types L !! type) as [t|] eqn:Et; [|contradiction]; destruct (IsReferenceType t) eqn:HR; [|contradiction].
  destruct (words !! Offset slot); simpl in H; [|contradiction].
  destruct H as [->|[]]; split; [exists type, args, t; auto|reflexivity].
Qed.

Lemma slot_reference_at L words slot : refers L slot -> slot_reference L words slot = option_list (words !! Offset slot).
Proof. intros (type & args & t & EF & Et & HR); unfold slot_reference; rewrite EF, Et, HR; reflexivity. Qed.

Lemma slot_reference_eq L words words' slot :
  (refers L slot -> words' !! Offset slot = words !! Offset slot) -> slot_reference L words' slot = slot_reference L words slot.
Proof.
  unfold slot_reference, refers; destruct (FieldShape slot) as [[[type|] args]|]; try reflexivity.
  destruct (Types L !! type) as [t|] eqn:Et; try reflexivity; destruct (IsReferenceType t) eqn:HR; [|reflexivity].
  intros H; rewrite H; [reflexivity|exists type, args, t; auto].
Qed.

Lemma slots_references_eq L words words' slots :
  (forall slot, slot ∈ slots -> refers L slot -> words' !! Offset slot = words !! Offset slot) ->
  slots_references L words' slots = slots_references L words slots.
Proof.
  intros H; unfold slots_references; f_equal; apply map_ext_in; intros slot Hin; apply slot_reference_eq.
  intros HR; apply H; [apply list_elem_of_In, Hin|exact HR].
Qed.

Lemma replaced_slots L words slots i slot new :
  slots !! i = Some slot -> refers L slot -> spaced L slots ->
  slots_references L (replaced (Offset slot) new words) slots ++ option_list (words !! Offset slot) ≡ₚ
  slots_references L words slots ++ option_list new.
Proof.
  intros Ei HR Hsp; rewrite <- (take_drop_middle slots i slot Ei); unfold slots_references; rewrite !map_app, !concat_app; simpl.
  fold (slots_references L words (take i slots)) (slots_references L (replaced (Offset slot) new words) (take i slots)).
  fold (slots_references L words (drop (S i) slots)) (slots_references L (replaced (Offset slot) new words) (drop (S i) slots)).
  rewrite (slots_references_eq L words (replaced _ new words) (take i slots)), (slots_references_eq L words (replaced _ new words) (drop (S i) slots)).
  - rewrite !slot_reference_at, replaced_here by exact HR.
    set (l1 := slots_references L words (take i slots)); set (l2 := slots_references L words (drop (S i) slots)).
    set (o := option_list (words !! Offset slot)); set (n := option_list new).
    rewrite <- !app_assoc; apply Permutation_app_head; rewrite (Permutation_app_comm l2 o), (Permutation_app_comm l2 n).
    rewrite !app_assoc; apply Permutation_app_tail, Permutation_app_comm.
  - intros s Hs HRs; apply replaced_elsewhere; apply list_elem_of_lookup in Hs as [j Ej]; rewrite lookup_drop in Ej.
    apply (Hsp (S i + j)%nat i s slot Ej Ei); auto; lia.
  - intros s Hs HRs; apply replaced_elsewhere; apply list_elem_of_lookup in Hs as [j Ej].
    rewrite lookup_take in Ej; case_decide; [|discriminate].
    apply (Hsp j i s slot Ej Ei); auto; lia.
Qed.

(** ** The counts *)
Definition dropped (o : option Address) (memory : gmap Address Block) : gmap Address Block :=
  match o with Some a => alter (fun b => with_ReferencesCounter (ReferencesCounter b - 1) b) a memory | None => memory end.
Definition raised (o : option Address) (memory : gmap Address Block) : gmap Address Block :=
  match o with Some a => alter (fun b => with_ReferencesCounter (ReferencesCounter b + 1) b) a memory | None => memory end.

(** Memories that differ in counts only. *)
Definition recounts (memory memory' : gmap Address Block) : Prop :=
  with_ReferencesCounter 0 <$> memory' = with_ReferencesCounter 0 <$> memory.

#[export] Instance recounts_equivalence : Equivalence recounts.
Proof. split; unfold recounts; repeat intro; congruence. Qed.

Lemma recounts_alter a f memory :
  (forall b, with_ReferencesCounter 0 (f b) = with_ReferencesCounter 0 b) -> recounts memory (alter f a memory).
Proof.
  intros Hf; apply map_eq; intros x; rewrite !lookup_fmap.
  destruct (decide (x = a)) as [->|Hne]; [rewrite lookup_alter_eq|rewrite lookup_alter_ne by congruence; reflexivity].
  destruct (memory !! a); simpl; [rewrite Hf|]; reflexivity.
Qed.

Lemma recounts_dropped o memory : recounts memory (dropped o memory).
Proof. destruct o; [apply recounts_alter|]; reflexivity. Qed.
Lemma recounts_raised o memory : recounts memory (raised o memory).
Proof. destruct o; [apply recounts_alter|]; reflexivity. Qed.

Lemma recounts_found memory memory' a b :
  recounts memory memory' -> memory !! a = Some b ->
  exists b', memory' !! a = Some b' /\ with_ReferencesCounter 0 b' = with_ReferencesCounter 0 b.
Proof.
  intros H E; apply (f_equal (lookup a)) in H; rewrite !lookup_fmap, E in H.
  destruct (memory' !! a) as [b'|]; [|discriminate]; exists b'; split; [reflexivity|exact (Some_inj _ _ H)].
Qed.

Lemma edges_recounts L memory memory' : recounts memory memory' -> edges L memory' ≡ₚ edges L memory.
Proof.
  assert (HF : forall m, edges L (with_ReferencesCounter 0 <$> m) ≡ₚ edges L m).
  { intros m; unfold edges; rewrite map_to_list_fmap; change (prod_map id ?f <$> ?l) with (map (prod_map id f) l).
    rewrite List.map_map; reflexivity. }
  intros H; rewrite <- (HF memory), <- (HF memory'), H; reflexivity.
Qed.

(** [x] is the address, when there is one. *)
Definition hits (o : option Address) (x : Address) : nat := occurrences (option_list o) x.

Lemma hits_Some y x : hits (Some y) x = if decide (x = y) then 1%nat else 0%nat.
Proof. unfold hits; change (option_list (Some y)) with [y]; rewrite occurrences_cons; case_decide; reflexivity. Qed.

Lemma count_dropped o memory x :
  (forall a, o = Some a -> exists b, memory !! a = Some b /\ Terminated b = false /\ 0 < ReferencesCounter b) ->
  (count_of (dropped o memory) x + hits o x = count_of memory x)%nat.
Proof.
  intros Ho; destruct o as [a|]; [|unfold hits; simpl; lia]; destruct (Ho a eq_refl) as (b & E & HT & Hpos).
  rewrite hits_Some; unfold count_of; simpl; case_decide as Hx.
  - subst x; rewrite lookup_alter_eq, E; simpl; rewrite HT; lia.
  - rewrite lookup_alter_ne by congruence; lia.
Qed.

Lemma count_raised o memory x :
  (forall a, o = Some a -> exists b, memory !! a = Some b /\ Terminated b = false /\ 0 <= ReferencesCounter b) ->
  (count_of (raised o memory) x = count_of memory x + hits o x)%nat.
Proof.
  intros Ho; destruct o as [a|]; [|unfold hits; simpl; lia]; destruct (Ho a eq_refl) as (b & E & HT & Hpos).
  rewrite hits_Some; unfold count_of; simpl; case_decide as Hx.
  - subst x; rewrite lookup_alter_eq, E; simpl; rewrite HT; lia.
  - rewrite lookup_alter_ne by congruence; lia.
Qed.

Definition nonneg (memory : gmap Address Block) : Prop := forall a b, memory !! a = Some b -> 0 <= ReferencesCounter b.

Lemma nonneg_alter a f memory :
  (forall b, memory !! a = Some b -> 0 <= ReferencesCounter (f b)) -> nonneg memory -> nonneg (alter f a memory).
Proof.
  intros Hf HN x b; destruct (decide (x = a)) as [->|Hne]; [|rewrite lookup_alter_ne by congruence; apply HN].
  rewrite lookup_alter_eq; destruct (memory !! a) as [b0|] eqn:E; simpl; [intros [= <-]; auto|discriminate].
Qed.

Section Stored.
Context (h : Heap) (pend : list Address) (a : Address) (b : Block) (shape : TypeShape) (i : nat) (slot : SlotInfo).
Context (new : option Address).
Local Abbreviation L := (Layouts h).
Local Abbreviation old := (Pointers b !! Offset slot).

Hypothesis Hcounted : counted h pend.
Hypothesis Ha : Memory h !! a = Some b.
Hypothesis Hlive : Terminated b = false.
Hypothesis Hshape : Shapes L !! Shape b = Some shape.
Hypothesis Hslot : Slots shape !! i = Some slot.
Hypothesis Hrefers : refers L slot.
Hypothesis Hspaced : spaced L (Slots shape).
Hypothesis Hnew : forall y, new = Some y -> exists by_, Memory h !! y = Some by_ /\ Terminated by_ = false.

Lemma old_live o : old = Some o -> exists bo, Memory h !! o = Some bo /\ Terminated bo = false /\ 0 < ReferencesCounter bo.
Proof.
  intros Eo; apply (counted_live h pend o Hcounted), elem_of_app; right.
  rewrite (edges_delete L (Memory h) a b Ha); apply elem_of_app; left; unfold contribution; simpl; rewrite Hlive.
  unfold references; rewrite Hshape; apply list_elem_of_In, in_concat; exists (slot_reference L (Pointers b) slot).
  split; [apply in_map, list_elem_of_In, (list_elem_of_lookup_2 _ _ _ Hslot)|].
  rewrite slot_reference_at, Eo by exact Hrefers; left; reflexivity.
Qed.

Definition stored : gmap Address Block :=
  alter (fun b => with_Pointers (replaced (Offset slot) new (Pointers b)) b) a (raised new (dropped old (Memory h))).

Lemma stored_at : exists b2, raised new (dropped old (Memory h)) !! a = Some b2 /\
  with_ReferencesCounter 0 b2 = with_ReferencesCounter 0 b /\
  stored = <[a := with_Pointers (replaced (Offset slot) new (Pointers b2)) b2]> (raised new (dropped old (Memory h))).
Proof.
  destruct (recounts_found (Memory h) (raised new (dropped old (Memory h))) a b) as (b2 & E2 & H2); [|exact Ha|].
  - etransitivity; [apply recounts_dropped|apply recounts_raised].
  - exists b2; split; [exact E2|]; split; [exact H2|]; unfold stored; rewrite (alter_insert_eq _ _ _ _ E2); reflexivity.
Qed.

Lemma stored_edges : edges L stored ++ option_list old ≡ₚ edges L (Memory h) ++ option_list new.
Proof.
  destruct stored_at as (b2 & E2 & H2 & ->); set (memory := raised new (dropped old (Memory h))) in *.
  assert (HR : edges L memory ≡ₚ edges L (Memory h)) by (apply edges_recounts; etransitivity; [apply recounts_dropped|apply recounts_raised]).
  rewrite <- HR, (edges_delete L memory a b2 E2), (edges_delete L (<[a := _]> memory) a _ (lookup_insert_eq _ _ _)), delete_insert_eq.
  pose proof (f_equal Shape H2) as HS; pose proof (f_equal Pointers H2) as HP; pose proof (f_equal Terminated H2) as HT.
  simpl in HS, HP, HT; unfold contribution; simpl; rewrite HT, Hlive; unfold references; simpl; rewrite HS, Hshape, HP.
  rewrite (Permutation_app_comm _ (option_list old)), (Permutation_app_comm _ (option_list new)), !app_assoc.
  apply Permutation_app_tail; rewrite (Permutation_app_comm (option_list old)), (Permutation_app_comm (option_list new)).
  apply (replaced_slots L (Pointers b) (Slots shape) i slot new); assumption.
Qed.

Lemma dropped_nonneg : nonneg (dropped old (Memory h)).
Proof.
  destruct old as [o|] eqn:Eo; [|exact (counts_nonneg _ _ Hcounted)]; apply nonneg_alter; [|exact (counts_nonneg _ _ Hcounted)].
  intros bo E; destruct (old_live o Eo) as (bo' & E' & _ & Hpos); assert (bo' = bo) as -> by congruence; simpl; lia.
Qed.

Lemma stored_nonneg : nonneg stored.
Proof.
  assert (HN : nonneg (raised new (dropped old (Memory h)))).
  { destruct new as [y|]; [|exact dropped_nonneg]; apply nonneg_alter; [|exact dropped_nonneg].
    intros by_ E; pose proof (dropped_nonneg y by_ E); simpl; lia. }
  apply nonneg_alter; [|exact HN]; intros b2 E2; exact (HN a b2 E2).
Qed.

Lemma stored_count x : (count_of stored x + hits old x = count_of (Memory h) x + hits new x)%nat.
Proof.
  destruct stored_at as (b2 & E2 & H2 & ->).
  assert (HC : forall m, m !! a = Some b2 -> forall w, count_of (<[a := with_Pointers w b2]> m) x = count_of m x).
  { intros m Em w; rewrite count_of_insert; case_decide as Hx; [subst x|reflexivity]; unfold count_of; rewrite Em; reflexivity. }
  rewrite (HC _ E2), count_raised; [pose proof (count_dropped old (Memory h) x old_live); lia|].
  intros y Ey; destruct (Hnew y Ey) as (by_ & Eb & HT).
  destruct (recounts_found (Memory h) (dropped old (Memory h)) y by_ (recounts_dropped _ _) Eb) as (by' & Eb' & HR).
  exists by'; split; [exact Eb'|]; split; [rewrite <- HT; exact (f_equal Terminated HR)|apply (dropped_nonneg y by' Eb')].
Qed.

Lemma stored_counted h' : Layouts h' = L -> Memory h' = stored -> counted h' pend.
Proof.
  intros HL HM; constructor; rewrite HM; [|exact stored_nonneg]; intros x; rewrite HL.
  pose proof (stored_count x) as Hc; pose proof (counts _ _ Hcounted x) as H0.
  pose proof (occurrences_perm _ _ x stored_edges) as He; rewrite !occurrences_app in *.
  change (occurrences (option_list ?o) x) with (hits o x) in He; lia.
Qed.

Lemma stored_found x b' :
  stored !! x = Some b' -> exists b0, Memory h !! x = Some b0 /\
    Shape b' = Shape b0 /\ ArrayLength b' = ArrayLength b0 /\ Terminated b' = Terminated b0 /\
    Pointers b' = if decide (x = a) then replaced (Offset slot) new (Pointers b0) else Pointers b0.
Proof.
  destruct stored_at as (b2 & E2 & H2 & ->); intros E.
  assert (HR : recounts (raised new (dropped old (Memory h))) (Memory h)).
  { symmetry; etransitivity; [apply recounts_dropped|apply recounts_raised]. }
  assert (Hx : exists bx, raised new (dropped old (Memory h)) !! x = Some bx /\
    b' = if decide (x = a) then with_Pointers (replaced (Offset slot) new (Pointers bx)) bx else bx).
  { case_decide as Hx; [subst x; rewrite lookup_insert_eq in E; injection E as <-; eauto|].
    rewrite lookup_insert_ne in E by congruence; eauto. }
  destruct Hx as (bx & Ex & ->); destruct (recounts_found _ _ x bx HR Ex) as (b0 & E0 & H0); exists b0; split; [exact E0|].
  pose proof (f_equal Shape H0); pose proof (f_equal ArrayLength H0); pose proof (f_equal Terminated H0); pose proof (f_equal Pointers H0).
  simpl in *; case_decide; simpl; repeat split; congruence.
Qed.

Lemma stored_live : live (on_Memory (fun _ => stored) h) = live h.
Proof.
  apply set_eq; intros x; rewrite !elem_of_live; simpl; split.
  - intros (b' & E & HT); destruct (stored_found x b' E) as (b0 & E0 & _ & _ & HT0 & _); exists b0; split; congruence.
  - intros (b0 & E0 & HT); destruct (stored !! x) as [b'|] eqn:E.
    + exists b'; split; [reflexivity|]; destruct (stored_found x b' E) as (b1 & E1 & _ & _ & HT1 & _); congruence.
    + exfalso; destruct stored_at as (b2 & E2 & _ & HM); rewrite HM in E; apply lookup_insert_None in E as [E _].
      destruct (recounts_found (Memory h) (raised new (dropped old (Memory h))) x b0) as (b3 & E3 & _); [|exact E0|congruence].
      etransitivity; [apply recounts_dropped|apply recounts_raised].
Qed.

Lemma stored_sound StringType :
  sound StringType h -> (forall y by_, new = Some y -> Memory h !! y = Some by_ -> FieldShape slot = Some (Shape by_)) ->
  sound StringType (on_Memory (fun _ => stored) h).
Proof.
  intros [HB HI] Htyped; constructor; [|rewrite stored_live; exact HI]; intros x b' E; simpl in E.
  destruct (stored_found x b' E) as (b0 & E0 & HS & HA & _ & HP); destruct (HB x b0 E0) as [HB0 HT0]; split.
  - eapply sound_block_same; eauto.
  - intros shape' slot' key y by_ Es Hin EF Hy Ey; simpl in Es, Hy, Ey; destruct (stored_found y by_ Ey) as (by0 & Ey0 & HSy & _).
    rewrite HSy; rewrite HS in Es; rewrite HP in Hy; clear HP; case_decide as Hx; [|eapply HT0; eauto].
    subst x; assert (b0 = b) as -> by congruence; assert (shape' = shape) as -> by congruence.
    destruct (slot_reference_in _ _ _ _ Hy) as [HR Hy']; apply list_elem_of_lookup in Hin as [j Ej].
    destruct (decide (j = i)) as [->|Hne].
    + assert (slot' = slot) as -> by congruence; rewrite replaced_here in Hy'.
      pose proof (Htyped y by0 Hy' Ey0); congruence.
    + rewrite replaced_elsewhere in Hy' by (apply (Hspaced j i); auto).
      eapply HT0; eauto; [apply (list_elem_of_lookup_2 _ _ _ Ej)|rewrite slot_reference_at, Hy' by exact HR; left].
Qed.

(** [SetField] of a reference does this. *)
Lemma set_reference StringType key type args t k :
  sound_block StringType L b -> FieldShape slot = Some key -> key = (Some type, args) ->
  Types L !! type = Some t -> IsReferenceType t = true ->
  SetField (object a b) (Z.of_nat i) (mkInstance k (pointer_of new)) h = Ok (on_Memory (fun _ => stored) h).
Proof.
  intros HB EF -> Et HR; unfold SetField; rewrite (field_shape_at true h a b shape i slot _ Hshape Hslot EF); cbn [rbind].
  rewrite (proj2 (slot_found _ _ _ Hslot)); cbn [rbind]; rewrite (is_reference_at h _ _ _ Et), HR; cbn [rbind].
  rewrite (get_reference StringType h a b shape i slot _ t type args HB Ha Hshape Hslot EF eq_refl Et HR); cbn [rbind].
  assert (H1 : release_old (mkInstance (Some (Some type, args)) (pointer_of old)) h = Ok (on_Memory (dropped old) h)).
  { destruct old as [o|] eqn:Eo; [|destruct h; reflexivity]; destruct (old_live o Eo) as (bo & E & _ & Hpos).
    unfold release_old, DecrementReference, on_header; cbn [IsNullInstance m_rawMemoryPtr pointer_of]; rewrite (header_found _ _ _ _ E); simpl; unfold on_Memory, dropped.
    rewrite !(alter_insert_eq _ _ _ _ E); destruct (Z.ltb_spec 0 (ReferencesCounter bo)); [reflexivity|lia]. }
  change (release_old _ h) with (release_old (mkInstance (Some (Some type, args)) (pointer_of old)) h).
  rewrite H1; cbn [rbind]; set (h1 := on_Memory (dropped old) h).
  assert (H2 : stored_pointer (mkInstance k (pointer_of new)) = Ok new) by (destruct new; reflexivity).
  assert (H3 : adopt_new (mkInstance k (pointer_of new)) h1 = Ok (on_Memory (raised new) h1)).
  { destruct new as [y|]; [|destruct h; reflexivity]; destruct (Hnew y eq_refl) as (by_ & E & _).
    destruct (recounts_found (Memory h) (dropped old (Memory h)) y by_ (recounts_dropped _ _) E) as (by' & E' & _).
    unfold adopt_new, IncrementReference, on_header; cbn [IsNullInstance m_rawMemoryPtr pointer_of]; rewrite (header_found h1 y by') by exact E'; reflexivity. }
  rewrite H2; cbn [rbind]; rewrite H3; cbn [rbind]; set (h2 := on_Memory (raised new) h1).
  rewrite (pointer_range StringType h2 a b shape i slot type args t HB Hshape Hslot EF Et HR); cbn [rbind].
  destruct stored_at as (b2 & E2 & _ & HM); cbn [store_words m_rawMemoryPtr object]; rewrite (block_found h2 a b2) by exact E2; simpl; rewrite HM; reflexivity.
Qed.
End Stored.
