(* ===== verification/HeapEnd.v ===== *)
(** * The heap: the end of the program, and the counts of tasks

    [Terminate] marks every block, so its calls of [TerminateInstance] release
    nothing, and then frees each block once.  The pending tasks of a frame are
    counted by the entries of the table of tasks. *)
From Stdlib Require Import ZArith Lia Bool List String.
From stdpp Require Import base list gmap sets fin_sets fin_map_dom.
From S2P Require Import Prelude Layout LayoutFacts LayoutBuild Heap HeapFacts HeapCounts HeapRelease.
Import ListNotations.
Open Scope Z_scope.
Open Scope shard_scope.

(** ** Loops that keep a property *)
Lemma each_invariant {A S} (I : list A -> S -> Prop) (body : A -> S -> fueled S) xs : forall s,
  I xs s -> (forall x rest s, I (x :: rest) s -> exists s', body x s = done s' /\ I rest s') ->
  exists s', each body xs s = done s' /\ I [] s'.
Proof.
  induction xs as [|x xs IH]; intros s HI Hb; [exists s; auto|].
  destruct (Hb x xs s HI) as (s1 & E & HI1); simpl; rewrite E; exact (IH s1 HI1 Hb).
Qed.

Lemma GetOrCreate_cached fuel key shape h :
  Shapes (Layouts h) !! key = Some shape -> GetOrCreate (S fuel) key h = done h.
Proof.
  intros E; unfold GetOrCreate; rewrite GetOrCreateShape_S, E; simpl; destruct h; reflexivity.
Qed.

(** A block that is marked is left alone. *)
Lemma terminate_marked StringType Destroy i delete h a b :
  m_rawMemoryPtr i = Payload a -> Memory h !! a = Some b -> Terminated b = true ->
  TerminateInstance StringType Destroy i delete h = done h.
Proof.
  intros Hp E HT; unfold TerminateInstance, IsNullInstance, getGcHeader, header_address; rewrite Hp.
  rewrite (block_found _ _ _ E); simpl; rewrite HT; reflexivity.
Qed.

(** ** The steps of [Terminate] *)
Section Terminate.
Context (StringType : TypeId) (h0 : Heap) (snapshot : list Address).

(** The heap while [Terminate] runs: [h0] with the blocks [marked] marked. *)
Record ending (marked : Address -> Prop) (h : Heap) : Prop := mkEnding {
  ending_blocks : forall a, a ∈ snapshot -> exists b, Memory h !! a = Some b /\ (marked a -> Terminated b = true);
  ending_dom : dom (Memory h) = dom (Memory h0);
  ending_layouts : Layouts h = Layouts h0;
  ending_statics : staticFields h = staticFields h0;
  ending_strings : internedStrings h = internedStrings h0 }.

Lemma mark_spec h :
  (forall a, a ∈ snapshot -> a ∈ dom (Memory h0)) -> h = h0 ->
  exists h', each mark_terminated snapshot h = done h' /\ ending (fun _ => True) h'.
Proof.
  intros Hsub ->.
  destruct (each_invariant (fun rest h => rest ⊆ snapshot /\ ending (fun a => a ∉ rest) h) mark_terminated snapshot h0)
    as (h' & E & _ & [HB HD HL HS HI]).
  - split; [reflexivity|]; constructor; auto; intros a Ha; specialize (Hsub a Ha).
    apply elem_of_dom in Hsub as [b E]; exists b; split; [exact E|contradiction].
  - intros a rest h [Hrest [HB HD HL HS HI]].
    destruct (HB a) as (b & E & _); [apply Hrest; left|]; unfold mark_terminated; rewrite (block_found _ _ _ E); simpl.
    eexists; split; [reflexivity|]; split; [set_solver|]; constructor; auto; simpl; [|rewrite dom_alter_L; exact HD].
    intros x Hx; destruct (HB x Hx) as (bx & Ex & Hm); destruct (decide (x = a)) as [->|Hne].
    + rewrite lookup_alter_eq, Ex; simpl; eauto.
    + rewrite lookup_alter_ne by congruence; exists bx; split; [exact Ex|]; set_solver.
  - exists h'; split; [exact E|]; constructor; auto; intros a Ha; destruct (HB a Ha) as (b & Eb & Hm).
    exists b; split; [exact Eb|]; intros _; apply Hm, not_elem_of_nil.
Qed.

Lemma statics_spec fuel h :
  ending (fun _ => True) h ->
  (forall f type a, staticFields h0 !! f = Some (type, Some a) ->
     a ∈ snapshot /\ is_Some (Shapes (Layouts h0) !! (Some type, []))) ->
  exists h', each (terminate_static StringType (S fuel)) (map_to_list (staticFields h0)) h = done h' /\
    ending (fun _ => True) h'.
Proof.
  intros HE Hst.
  destruct (each_invariant (fun rest h => rest ⊆ map_to_list (staticFields h0) /\ ending (fun _ => True) h)
    (terminate_static StringType (S fuel)) (map_to_list (staticFields h0)) h) as (h' & E & _ & HE'); [split; [reflexivity|exact HE]| |eauto].
  intros (f & type & payload) rest h1 [Hrest HE1]; destruct payload as [a|].
  - destruct (Hst f type a) as [Ha [shape Es]]; [apply elem_of_map_to_list, Hrest; left|].
    destruct (ending_blocks _ _ HE1 a Ha) as (b & Eb & HT); unfold terminate_static, RecoverStaticField; simpl snd; cbv iota.
    rewrite (GetOrCreate_cached fuel _ shape) by (rewrite (ending_layouts _ _ HE1); exact Es); cbn [fbind done].
    cbn [fst snd pointer_of].
    rewrite (terminate_marked _ _ (mkInstance (Some (Some type, [])) (Payload a)) _ _ a b eq_refl); [|exact Eb|auto].
    eexists; split; [reflexivity|]; split; [set_solver|destruct HE1; constructor; assumption].
  - exists h1; split; [reflexivity|]; split; [set_solver|exact HE1].
Qed.

Lemma regular_spec fuel h :
  ending (fun _ => True) h -> each (terminate_regular StringType fuel) snapshot h = done h.
Proof.
  intros HE; apply each_unchanged; intros a Ha; apply list_elem_of_In in Ha.
  destruct (ending_blocks _ _ HE a Ha) as (b & Eb & HT); unfold terminate_regular; rewrite (block_found _ _ _ Eb); simpl.
  apply (terminate_marked _ _ _ _ _ a b); auto.
Qed.

Lemma free_spec h :
  NoDup snapshot -> ending (fun _ => True) h ->
  exists h', each free_block snapshot h = done h' /\
    dom (Memory h') = dom (Memory h0) ∖ list_to_set snapshot /\ internedStrings h' = internedStrings h0.
Proof.
  intros HN HE.
  destruct (each_invariant (fun rest h => NoDup rest /\ rest ⊆ snapshot /\ (forall a, a ∈ rest -> is_Some (Memory h !! a)) /\
    dom (Memory h) = (dom (Memory h0) ∖ list_to_set snapshot) ∪ list_to_set rest /\ internedStrings h = internedStrings h0)
    free_block snapshot h) as (h' & E & _ & _ & _ & HD & HI).
  - split; [exact HN|]; split; [reflexivity|]; split; [intros a Ha; destruct (ending_blocks _ _ HE a Ha) as (b & Eb & _); eauto|].
    split; [|apply (ending_strings _ _ HE)]; rewrite (ending_dom _ _ HE); apply set_eq; intros x.
    rewrite elem_of_union, elem_of_difference, elem_of_list_to_set.
    destruct (decide (x ∈ snapshot)) as [Hx|Hx]; [|tauto]; split; [auto|intros [|_]; [tauto|]].
    rewrite <- (ending_dom _ _ HE), elem_of_dom; destruct (ending_blocks _ _ HE x Hx) as (b & Eb & _); eauto.
  - intros a rest h1 (HN1 & Hrest & HM & HD & HI); apply NoDup_cons in HN1 as [Ha HN1].
    destruct (HM a) as [b Eb]; [left|]; unfold free_block; rewrite (block_found _ a b) by exact Eb; simpl.
    eexists; split; [reflexivity|]; split; [exact HN1|]; split; [set_solver|]; split; [|split; [|exact HI]]; simpl.
    + intros x Hx; rewrite lookup_delete_ne by (intros ->; contradiction); apply HM; right; exact Hx.
    + rewrite dom_delete_L, HD; assert (a ∈ snapshot) by (apply Hrest; left); apply set_eq; intros x.
      rewrite elem_of_difference, !elem_of_union, elem_of_difference, elem_of_singleton, !elem_of_list_to_set, elem_of_cons.
      destruct (decide (x = a)) as [->|]; tauto.
  - exists h'; split; [exact E|]; split; [rewrite HD; set_solver|exact HI].
Qed.
End Terminate.

(** ** Tasks of a frame *)
Definition owner_of (r : option AsyncRecord) : option positive := match r with Some r => FrameOwner r | None => None end.
Definition owned (table : gmap Address AsyncRecord) (frame : positive) : nat :=
  size (filter (fun p => FrameOwner p.2 = Some frame) table).

(** The counter of every frame is the number of tasks bound to it. *)
Definition pending_exact (h : Heap) : Prop := forall frame, pending h frame = Z.of_nat (owned (asyncTable h) frame).

Lemma owned_split table a frame :
  owned table frame = ((if decide (owner_of (table !! a) = Some frame) then 1 else 0) + owned (delete a table) frame)%nat.
Proof.
  unfold owned; destruct (table !! a) as [r|] eqn:E; simpl.
  - rewrite <- (insert_delete_id table a r E) at 1; case_decide as H.
    + rewrite map_filter_insert_True by exact H; rewrite map_size_insert_None; [reflexivity|].
      apply map_lookup_filter_None; left; apply lookup_delete_eq.
    + rewrite map_filter_insert_False by exact H; rewrite delete_delete_eq; reflexivity.
  - rewrite delete_id by exact E; reflexivity.
Qed.

Lemma owned_insert table a r frame :
  owned (<[a := r]> table) frame =
    ((if decide (FrameOwner r = Some frame) then 1 else 0) + owned (delete a table) frame)%nat.
Proof. rewrite (owned_split _ a), lookup_insert_eq, delete_insert_eq; reflexivity. Qed.

Lemma pending_insert h a frame c :
  pending (on_PendingTaskCount (<[a := c]>) h) frame = if decide (frame = a) then c else pending h frame.
Proof.
  unfold pending; simpl; case_decide as H; [subst; rewrite lookup_insert_eq; reflexivity|].
  rewrite lookup_insert_ne by congruence; reflexivity.
Qed.

Lemma release_owner_exact a h : pending_exact h -> pending_exact (ReleaseFrameOwner a h).
Proof.
  intros HE frame; unfold ReleaseFrameOwner; destruct (asyncTable h !! a) as [r|] eqn:E; [|apply HE].
  pose proof (HE frame) as HF; rewrite (owned_split _ a), E in HF; simpl in HF.
  simpl asyncTable; destruct (FrameOwner r) as [f|] eqn:EO.
  - pose proof (HE f) as Hf; rewrite (owned_split _ a), E in Hf; simpl in Hf; rewrite EO, decide_True in Hf by reflexivity.
    destruct (Z.ltb_spec 0 (pending h f)); [|lia]; simpl asyncTable.
    rewrite owned_insert; simpl FrameOwner; rewrite decide_False by discriminate.
    change (pending (on_asyncTable _ ?g) frame) with (pending g frame); rewrite pending_insert.
    case_decide as H1; case_decide as H2; try congruence; subst; lia.
  - rewrite decide_False in HF by discriminate; rewrite owned_insert; simpl FrameOwner.
    rewrite decide_False by discriminate; exact HF.
Qed.

Lemma update_record_exact a r h :
  FrameOwner r = owner_of (asyncTable h !! a) -> pending_exact h -> pending_exact (on_asyncTable (<[a := r]>) h).
Proof.
  intros HO HE frame; simpl; rewrite owned_insert, HO, <- owned_split; apply HE.
Qed.

Lemma record_owner h a : FrameOwner (async_record h a) = owner_of (asyncTable h !! a).
Proof. unfold async_record; destruct (asyncTable h !! a); reflexivity. Qed.

Lemma bind_exact a frame h : pending_exact h -> pending_exact (BindToFrame a (Some frame) h).
Proof.
  intros HE; unfold BindToFrame; set (h1 := on_asyncTable (<[a := async_record h a]>) h).
  assert (HE1 : pending_exact h1) by (apply update_record_exact; [apply record_owner|exact HE]).
  case_decide; [exact HE1|]; pose proof (release_owner_exact a h1 HE1) as HE2; set (h2 := ReleaseFrameOwner a h1) in *.
  assert (HO : owner_of (asyncTable h2 !! a) = None).
  { unfold h2, ReleaseFrameOwner; replace (asyncTable h1 !! a) with (Some (async_record h a)) by (symmetry; apply lookup_insert_eq).
    simpl asyncTable; rewrite lookup_insert_eq; reflexivity. }
  intros f; rewrite pending_insert; simpl asyncTable; rewrite owned_insert; simpl FrameOwner.
  change (pending (on_asyncTable _ h2) ?g) with (pending h2 g); pose proof (HE2 f) as Hf; rewrite (owned_split _ a), HO in Hf.
  rewrite decide_False in Hf by discriminate.
  case_decide as H1; [subst; rewrite decide_True by reflexivity|rewrite decide_False by congruence]; lia.
Qed.

Lemma updated_record_exact a h r :
  FrameOwner r = FrameOwner (async_record h a) -> pending_exact h -> pending_exact (on_asyncTable (<[a := r]>) h).
Proof. intros HO; apply update_record_exact; rewrite HO; apply record_owner. Qed.
