(* ===== verification/HeapExamples.v ===== *)
(** * The heap: small heaps

    Heaps of list nodes and the types around them, on which the theorems are
    applied and the behaviour of single operations is evaluated. *)
From Stdlib Require Import ZArith Lia Bool List String.
From stdpp Require Import base list gmap sets fin_sets fin_map_dom.
From S2P Require Import Prelude Layout Heap HeapFacts HeapCounts HeapStore.
Import ListNotations.
Open Scope Z_scope.

(** Types: nodes with a field [next], integers, strings, arrays of nodes, a
    struct that holds a node, a class with such a struct, an interface of nodes, and a
    class with a field of the interface. *)
Definition Node : TypeId := 1%positive.
Definition Integer : TypeId := 2%positive.
Definition NodeArray : TypeId := 3%positive.
Definition Holder : TypeId := 4%positive.
Definition Owner : TypeId := 5%positive.
Definition INode : TypeId := 6%positive.
Definition Keeper : TypeId := 7%positive.
Definition Text : TypeId := 9%positive.

Definition object_type inlining size : TypeSymbol := mkType ObjectType inlining [] [] Visited size 0 ∅.
Definition node_types : Table :=
  list_to_map [(Node, object_type ByReference 8); (Integer, object_type ByValue 8);
               (NodeArray, mkType (ArrayType Node 0) ByReference [] [] Visited 16 0 ∅);
               (Holder, object_type ByValue 8); (Owner, object_type ByReference 8);
               (INode, object_type ByReference 0); (Keeper, object_type ByReference 8); (Text, object_type ByReference 16)].

Definition node_key : ShapeKey := (Some Node, []).
Definition next_slot : SlotInfo := mkSlotInfo 0 (Some node_key).
Definition node_shape : TypeShape := mkShape 8 8 [next_slot].
Definition node_layouts : State :=
  mkState node_types
    (list_to_map [(node_key, node_shape); ((Some NodeArray, []), mkShape 16 8 []);
                  ((Some Holder, []), mkShape 8 8 [next_slot]);
                  ((Some Owner, []), mkShape 8 8 [mkSlotInfo 0 (Some (Some Holder, []))]);
                  ((Some INode, []), mkShape 0 1 []);
                  ((Some Keeper, []), mkShape 8 8 [mkSlotInfo 0 (Some (Some INode, []))]); ((Some Text, []), mkShape 16 8 [])]) [].

Definition node (count : Z) (next : option Address) : Block := mkBlock node_key count false 0 (pointer_words next).
Definition node_heap (blocks : list (Address * Block)) : Heap :=
  mkHeap node_layouts ∅ (list_to_map blocks) (list_to_set (map fst blocks)) ∅ ∅ ∅ ∅.

(** Two nodes, the first of which is held by a frame. *)
Definition chain : Heap := node_heap [(1%positive, node 1 (Some 2%positive)); (2%positive, node 1 None)].

Lemma nodes_sound h :
  Layouts h = node_layouts -> (forall a b, Memory h !! a = Some b -> Shape b = node_key) -> blocks_sound Text h.
Proof.
  intros HL HN a b E; split.
  - rewrite HL; exists node_shape, Node, [], (object_type ByReference 8); rewrite (HN a b E).
    repeat split; try reflexivity; try discriminate; try (simpl; lia).
    constructor; [|constructor]; exists Node, [], (object_type ByReference 8); repeat split; simpl; unfold PointerSize; lia.
  - intros shape slot key y by_ Es Hin EF _ Ey; rewrite HL, (HN a b E) in Es.
    assert (shape = node_shape) as -> by (apply (inj Some); rewrite <- Es; vm_compute; reflexivity).
    apply list_elem_of_singleton in Hin as ->; rewrite (HN y by_ Ey); injection EF; auto.
Qed.

(** The blocks of a heap, one by one. *)
Ltac blocks := repeat match goal with
  | H : list_to_map ((?k, _) :: _) !! _ = Some _ |- _ => cbn [list_to_map foldr fst snd uncurry] in H
  | H : <[_ := _]> _ !! _ = Some _ |- _ => apply lookup_insert_Some in H as [[<- <-]|[? H]]
  | H : ∅ !! _ = Some _ |- _ => rewrite lookup_empty in H; discriminate
  end.

Lemma chain_sound : sound Text chain.
Proof.
  constructor; [|vm_compute; reflexivity]; apply nodes_sound; [reflexivity|]; intros a b E; simpl in E; blocks; reflexivity.
Qed.

Lemma chain_edges : edges (Layouts chain) (Memory chain) = [2%positive].
Proof. vm_compute; reflexivity. Qed.

Lemma chain_counted : counted chain [1%positive].
Proof.
  constructor; [|intros a b E; simpl in E; blocks; simpl; lia]; intros a; rewrite chain_edges.
  destruct (decide (a = 1%positive)) as [->|H1]; [reflexivity|]; destruct (decide (a = 2%positive)) as [->|H2]; [reflexivity|].
  change ([1%positive] ++ [2%positive]) with [1%positive; 2%positive].
  rewrite !occurrences_cons, !decide_False by congruence; unfold count_of; simpl.
  rewrite !lookup_insert_ne, lookup_empty by congruence; reflexivity.
Qed.

Lemma node_spaced : spaced node_layouts (Slots node_shape).
Proof. intros [|i] [|j] si sj Ei Ej; try discriminate; congruence. Qed.
