(* ===== verification/HeapSpec.v ===== *)
(** * The heap: properties

    Releases end, succeed on sound heaps and, where every pointer is in a reference
    slot of an object, free exactly the blocks that lose their last reference; field stores keep the counts; the end of the program
    frees every block.  The closing examples show where the counts of the
    program go wrong. *)
From Stdlib Require Import ZArith Lia Bool List String Permutation.
From stdpp Require Import base list gmap sets fin_sets fin_map_dom.
From S2P Require Import Prelude Layout LayoutFacts Heap HeapFacts HeapCounts HeapRelease HeapStore HeapEnd HeapExamples.
Import ListNotations.
Open Scope Z_scope.
Open Scope shard_scope.

(** C39: [DestroyInstance] ends on every heap and every instance, cyclic
    structures included: with more fuel than there are live blocks it returns a
    result, an exception or an undefined access, never an unfinished run. *)
Theorem destroy_total StringType fuel i h :
  (size (live h) < fuel)%nat -> DestroyInstance StringType fuel i h <> None.
Proof.
  intros Hf; eapply halts_some, DestroyInstance_halts; right; exact Hf.
Qed.

Lemma destroy_total_witness :
  (size (live chain) < 3)%nat /\ DestroyInstance Text 3 (object 1%positive (node 1 (Some 2%positive))) chain <> None.
Proof. split; [vm_compute; lia|apply destroy_total; vm_compute; lia]. Defined.

(** C3: releasing one of the pending references of a sound heap neither throws
    nor touches freed memory; afterwards every count is again the number of the
    references that remain, the heap is sound, and no other block is changed but
    in its count. *)
Theorem destroy_counted StringType fuel a b h pend :
  sound StringType h -> counted h (a :: pend) -> Memory h !! a = Some b -> (size (live h) < fuel)%nat ->
  exists h', DestroyInstance StringType fuel (object a b) h = done h' /\
    sound StringType h' /\ counted h' pend /\ Layouts h' = Layouts h /\ staticFields h' = staticFields h /\
    forall x b', Memory h' !! x = Some b' ->
      exists c, Memory h !! x = Some (with_ReferencesCounter c b') /\ ReferencesCounter b' <= c.
Proof.
  intros HS HC E Hf; destruct (destroy_spec StringType fuel a b h pend Hf HS HC E) as (h' & Hrun & R & HC' & HI).
  exists h'; split; [exact Hrun|]; split; [eapply released_sound; eauto|]; split; [exact HC'|].
  split; [apply R|]; split; [apply R|]; intros x b' E'; destruct (released_blocks _ _ R x b' E') as (b0 & E0 & R1 & Hle & _).
  exists (ReferencesCounter b0); split; [|exact Hle]; rewrite E0, R1; destruct b0; reflexivity.
Qed.

Lemma destroy_counted_witness :
  exists h', DestroyInstance Text 3 (object 1%positive (node 1 (Some 2%positive))) chain = done h' /\
    sound Text h' /\ counted h' [] /\ Layouts h' = Layouts chain /\ staticFields h' = staticFields chain /\
    forall x b', Memory h' !! x = Some b' ->
      exists c, Memory chain !! x = Some (with_ReferencesCounter c b') /\ ReferencesCounter b' <= c.
Proof.
  apply destroy_counted; [exact chain_sound|exact chain_counted|reflexivity|vm_compute; lia].
Defined.

(** ** Nothing unreferenced stays *)

(** Every block is live and referenced. *)
Definition tidy (h : Heap) : Prop :=
  forall x b, Memory h !! x = Some b -> Terminated b = false /\ 0 < ReferencesCounter b.

Lemma released_tidy h h' : released h h' -> tidy h ->
  (forall x b, Memory h' !! x = Some b -> 0 <= ReferencesCounter b) -> tidy h'.
Proof.
  intros R HT HN x b' E'; destruct (released_blocks _ _ R x b' E') as (b & E & R1 & _ & Hz).
  destruct (HT x b E) as [HT1 HT2]; pose proof (HN x b' E'); split; [rewrite R1; exact HT1|].
  destruct (Z.eq_dec (ReferencesCounter b') 0) as [H0|]; [rewrite (Hz H0) in HT2|]; lia.
Qed.

Lemma tidy_referenced h pend x :
  counted h pend -> tidy h -> x ∈ dom (Memory h) <-> x ∈ pend ++ edges (Layouts h) (Memory h).
Proof.
  intros HC HT; split; [|intros Hx; apply elem_of_dom; destruct (counted_live h pend x HC Hx) as (b & E & _); eauto].
  intros [b E]%elem_of_dom; destruct (HT x b E) as [HT1 HT2]; pose proof (counts _ _ HC x) as Hc.
  unfold count_of in Hc; rewrite E, HT1 in Hc; unfold occurrences in Hc.
  apply list_elem_of_In, (count_occ_In Pos.eq_dec); lia.
Qed.

(** All pointers a block holds, wherever in its payload they are. *)
Definition pointers (b : Block) : list Address := map snd (map_to_list (Pointers b)).

(** Every pointer is in a reference slot of its object: no array holds references and no
    struct in a by-value field does. *)
Definition slots_only (h : Heap) : Prop :=
  forall a b, Memory h !! a = Some b -> pointers b ≡ₚ references (Layouts h) b.

Lemma released_slots h h' : released h h' -> slots_only h -> slots_only h'.
Proof.
  intros R HO a b' E'; destruct (released_blocks _ _ R a b' E') as (b & E & Rb); specialize (HO a b E).
  rewrite (released_layouts _ _ R); destruct (recounted_same _ _ Rb) as (R1 & R2 & _).
  unfold pointers, references in *; rewrite R1, R2; exact HO.
Qed.

(** Some block holds a pointer to [x]. *)
Definition pointed (h : Heap) (x : Address) : Prop := exists a b, Memory h !! a = Some b /\ x ∈ pointers b.

Lemma edges_pointed h x : tidy h -> slots_only h -> x ∈ edges (Layouts h) (Memory h) <-> pointed h x.
Proof.
  intros HT HO; unfold edges, pointed; rewrite list_elem_of_In, in_concat; split.
  - intros (refs & Hrefs & Hx); apply in_map_iff in Hrefs as ((a & b) & <- & Hb).
    apply list_elem_of_In, elem_of_map_to_list in Hb; exists a, b; split; [exact Hb|].
    unfold contribution in Hx; simpl in Hx; rewrite (proj1 (HT a b Hb)) in Hx; rewrite (HO a b Hb); apply list_elem_of_In, Hx.
  - intros (a & b & Hb & Hx); exists (contribution (Layouts h) (a, b)); split.
    + apply in_map, list_elem_of_In, elem_of_map_to_list, Hb.
    + unfold contribution; simpl; rewrite (proj1 (HT a b Hb)); rewrite (HO a b Hb) in Hx; apply list_elem_of_In, Hx.
Qed.

(** C13: no block outlives its references.  In a sound heap whose pointers are all in
    reference slots ([slots_only]) and whose blocks are all referenced ([tidy]), after a
    release the blocks that remain are exactly those some pending reference or some
    remaining block still points to: all the others, found through any number of objects,
    have been freed.  Outside of these heaps it does not hold: [overwritten_value_kept],
    [array_release_undefined], [stored_struct_dangles], [interface_field_kept]. *)
Theorem release_frees_unreferenced StringType fuel a b h h' pend :
  sound StringType h -> counted h (a :: pend) -> tidy h -> slots_only h -> Memory h !! a = Some b -> (size (live h) < fuel)%nat ->
  DestroyInstance StringType fuel (object a b) h = done h' ->
  tidy h' /\ slots_only h' /\ forall x, x ∈ dom (Memory h') <-> x ∈ pend \/ pointed h' x.
Proof.
  intros HS HC HT HO E Hf Hrun; destruct (destroy_spec StringType fuel a b h pend Hf HS HC E) as (h1 & Hrun' & R & HC' & _).
  assert (h1 = h') as -> by (rewrite Hrun in Hrun'; injection Hrun'; auto).
  assert (HT' : tidy h') by (eapply released_tidy; eauto; apply HC').
  pose proof (released_slots _ _ R HO) as HO'; split; [exact HT'|split; [exact HO'|]]; intros x.
  rewrite (tidy_referenced h' pend x HC' HT'), elem_of_app, (edges_pointed h' x HT' HO'); reflexivity.
Qed.

Lemma chain_tidy : tidy chain.
Proof. intros a b E; simpl in E; blocks; simpl; split; [reflexivity|lia|reflexivity|lia]. Qed.

Lemma chain_slots : slots_only chain.
Proof. intros a b E; simpl in E; blocks; vm_compute; reflexivity. Qed.

Lemma release_frees_unreferenced_witness :
  exists h', DestroyInstance Text 3 (object 1%positive (node 1 (Some 2%positive))) chain = done h' /\
    tidy h' /\ slots_only h' /\ forall x, x ∈ dom (Memory h') <-> x ∈ [] \/ pointed h' x.
Proof.
  eexists; split; [vm_compute; reflexivity|].
  eapply (release_frees_unreferenced Text 3 1%positive (node 1 (Some 2%positive)) chain _ []);
    [exact chain_sound|exact chain_counted|exact chain_tidy|exact chain_slots|reflexivity|vm_compute; lia|vm_compute; reflexivity].
Defined.

(** ** Releasing every root *)

(** [rank] decreases along the pointers of the heap. *)
Definition acyclic (h : Heap) (rank : Address -> nat) : Prop :=
  forall a b y, Memory h !! a = Some b -> y ∈ pointers b -> (rank y < rank a)%nat.

Lemma released_acyclic h h' rank : released h h' -> acyclic h rank -> acyclic h' rank.
Proof.
  intros R HA a b' y E' Hy; destruct (released_blocks _ _ R a b' E') as (b & E & Rb).
  apply (HA a b y E); destruct (recounted_same _ _ Rb) as (_ & R2 & _); unfold pointers in *; rewrite R2 in Hy; exact Hy.
Qed.

Lemma tidy_acyclic_empty h rank : counted h [] -> tidy h -> slots_only h -> acyclic h rank -> Memory h = ∅.
Proof.
  intros HC HT HO HA; apply map_empty; intros x; destruct (Memory h !! x) as [b|] eqn:E; [exfalso|reflexivity].
  assert (Hup : forall n y, y ∈ dom (Memory h) -> exists z, z ∈ dom (Memory h) /\ (rank y + n <= rank z)%nat).
  { induction n as [|n IH]; intros y Hy; [exists y; split; [exact Hy|lia]|].
    apply (tidy_referenced h [] y HC HT), (edges_pointed h y HT HO) in Hy as (z & bz & Hz & Hy).
    pose proof (HA z bz y Hz Hy); destruct (IH z) as (w & Hw & Hle); [apply elem_of_dom; eauto|].
    exists w; split; [exact Hw|lia]. }
  assert (Hx : x ∈ dom (Memory h)) by (apply elem_of_dom; eauto).
  set (top := list_max (map rank (elements (dom (Memory h))))).
  destruct (Hup (S top) x Hx) as (z & Hz & Hle).
  assert (rank z <= top)%nat; [|lia].
  pose proof (proj1 (list_max_le (map rank (elements (dom (Memory h)))) top) (Nat.le_refl _)) as HF.
  rewrite List.Forall_forall in HF; apply HF, in_map, list_elem_of_In, elem_of_elements, Hz.
Qed.

(** The instances of the references [refs]. *)
Definition roots_of (h : Heap) : list ObjectInstance -> list Address -> Prop :=
  Forall2 (fun i a => forall b, Memory h !! a = Some b -> i = object a b).

Lemma release_roots StringType fuel roots : forall h refs,
  sound StringType h -> counted h refs -> (size (live h) < fuel)%nat -> roots_of h roots refs ->
  releases h [] (each (DestroyInstance StringType fuel) roots h).
Proof.
  induction roots as [|i roots IH]; intros h refs HS HC Hf Hroots; inversion Hroots as [|? a ? refs' Hi Hr]; subst.
  - apply (releases_done StringType); assumption.
  - destruct (counted_live h _ a HC) as (b & E & _); [apply list_elem_of_here|].
    rewrite (Hi b E); simpl; eapply (releases_bind StringType); [exact HS|eapply destroy_spec; eauto|].
    intros h' R HS' HC'; apply (IH h' refs'); auto.
    + pose proof (subseteq_size _ _ (released_live _ _ R)); lia.
    + eapply Forall2_impl; [exact Hr|]; intros j y Hy b' E'; simpl in Hy.
      destruct (released_blocks _ _ R y b' E') as (b0 & E0 & Rb); rewrite (Hy b0 E0); unfold object.
      rewrite (proj1 (recounted_same _ _ Rb)); reflexivity.
Qed.

(** C4: a heap without reference cycles leaks nothing.  When a sound heap has all its
    pointers in reference slots ([slots_only]), they have no cycle and every block is
    referenced ([tidy]), then destroying the roots one after the other frees the whole
    heap, and every step of it succeeds. *)
Theorem acyclic_heap_freed StringType fuel rank roots refs h :
  sound StringType h -> counted h refs -> tidy h -> slots_only h -> acyclic h rank -> roots_of h roots refs ->
  (size (live h) < fuel)%nat ->
  exists h', each (DestroyInstance StringType fuel) roots h = done h' /\ Memory h' = ∅ /\ Instances h' = ∅.
Proof.
  intros HS HC HT HO HA Hroots Hf.
  destruct (release_roots StringType fuel roots h refs HS HC Hf Hroots) as (h' & Hrun & R & HC' & HI).
  assert (HM : Memory h' = ∅).
  { apply (tidy_acyclic_empty h' rank HC'); [|eapply released_slots; eauto|eapply released_acyclic; eauto].
    eapply released_tidy; eauto; apply HC'. }
  exists h'; split; [exact Hrun|]; split; [exact HM|]; rewrite HI; unfold live; rewrite HM; reflexivity.
Qed.

Definition chain_rank (a : Address) : nat := if decide (a = 1%positive) then 1%nat else 0%nat.

Lemma chain_acyclic : acyclic chain chain_rank.
Proof.
  intros a b y E Hy; simpl in E; blocks; vm_compute in Hy; apply list_elem_of_In in Hy.
  - destruct Hy as [<-|[]]; vm_compute; lia.
  - destruct Hy.
Qed.

Lemma acyclic_heap_freed_witness :
  exists h', each (DestroyInstance Text 3) [object 1%positive (node 1 (Some 2%positive))] chain = done h' /\
    Memory h' = ∅ /\ Instances h' = ∅.
Proof.
  apply (acyclic_heap_freed Text 3 chain_rank _ [1%positive]);
    [exact chain_sound|exact chain_counted|exact chain_tidy|exact chain_slots|exact chain_acyclic| |vm_compute; lia].
  constructor; [intros b E; vm_compute in E; injection E as <-; reflexivity|constructor].
Defined.

(** ** Stores *)

(** C12: storing a reference, or null, in a field of a live object of a sound heap
    succeeds: the value that was there loses a reference, the new one gains one,
    also when both are the same object or the object itself, so that the counts
    are again the numbers of references, the heap is sound, and the field then
    holds the new value. *)
Theorem store_field_counted StringType h pend a b shape i slot key new k :
  sound StringType h -> counted h pend -> Memory h !! a = Some b -> Terminated b = false ->
  Shapes (Layouts h) !! Shape b = Some shape -> spaced (Layouts h) (Slots shape) ->
  Slots shape !! i = Some slot -> FieldShape slot = Some key -> is_reference h key = Ok true ->
  (forall y, new = Some y -> exists by_, Memory h !! y = Some by_ /\ Terminated by_ = false /\ Shape by_ = key) ->
  exists h' b', SetField (object a b) (Z.of_nat i) (mkInstance k (pointer_of new)) h = Ok h' /\
    sound StringType h' /\ counted h' pend /\ Memory h' !! a = Some b' /\
    GetField h' (object a b') (Z.of_nat i) = Ok (mkInstance (Some key) (pointer_of new)).
Proof.
  intros HS HC Ha HT Es Hsp Ei EF HR Hnew; destruct key as [[type|] args]; [|discriminate].
  unfold is_reference, symbol_of in HR; simpl in HR; destruct (Types (Layouts h) !! type) as [t|] eqn:Et; [|discriminate].
  simpl in HR; injection HR as HR; assert (Hrefers : refers (Layouts h) slot) by (exists type, args, t; auto).
  assert (Hlive : forall y, new = Some y -> exists by_, Memory h !! y = Some by_ /\ Terminated by_ = false).
  { intros y Ey; destruct (Hnew y Ey) as (by_ & E & HTy & _); eauto. }
  destruct (sound_blocks _ _ HS a b Ha) as [HB _].
  set (h' := on_Memory (fun _ => stored h a b slot new) h).
  assert (HS' : sound StringType h').
  { apply (stored_sound h a b shape i slot new Ha HT Es Ei Hrefers Hsp StringType HS).
    intros y by_ Ey E; destruct (Hnew y Ey) as (by' & E' & _ & HSy); congruence. }
  destruct (stored_at h a b slot new Ha) as (b2 & E2 & H2 & HM).
  set (b' := with_Pointers (replaced (Offset slot) new (Pointers b2)) b2).
  assert (Eb : Memory h' !! a = Some b') by (unfold h'; simpl; rewrite HM; apply lookup_insert_eq).
  exists h', b'; split; [eapply set_reference; eauto|]; split; [exact HS'|]; split; [eapply stored_counted; eauto|].
  split; [exact Eb|]; assert (HSh : Shape b' = Shape b) by exact (f_equal Shape H2).
  rewrite (get_reference StringType h' a b' shape i slot (Some type, args) t type args); auto.
  - simpl; rewrite replaced_here; reflexivity.
  - apply (sound_blocks _ _ HS' a b' Eb).
  - rewrite HSh; exact Es.
Qed.

Lemma store_field_counted_witness :
  exists h' b', SetField (object 1%positive (node 1 (Some 2%positive))) 0 (mkInstance (Some node_key) Null) chain = Ok h' /\
    sound Text h' /\ counted h' [1%positive] /\ Memory h' !! 1%positive = Some b' /\
    GetField h' (object 1%positive b') 0 = Ok (mkInstance (Some node_key) Null).
Proof.
  apply (store_field_counted Text chain [1%positive] 1%positive (node 1 (Some 2%positive)) node_shape 0 next_slot node_key None);
    [exact chain_sound|exact chain_counted|reflexivity|reflexivity|reflexivity|exact node_spaced|reflexivity|reflexivity|reflexivity|discriminate].
Defined.

(** ** The end of the program *)

(** C24: the end of the program frees every block exactly once.  When the blocks
    of the heap are those the collector lists and the static fields point to
    them, [Terminate] succeeds — it releases static fields, then regular
    instances, then their memory — and leaves no block, no listed instance, no
    static field and no task. *)
Theorem terminate_frees_all StringType fuel h :
  Instances h = dom (Memory h) ->
  (forall f type a, staticFields h !! f = Some (type, Some a) ->
     a ∈ Instances h /\ is_Some (Shapes (Layouts h) !! (Some type, []))) ->
  exists h', Terminate StringType (S fuel) h = done h' /\
    Memory h' = ∅ /\ Instances h' = ∅ /\ staticFields h' = ∅ /\ asyncTable h' = ∅.
Proof.
  intros HI Hst; unfold Terminate; set (snapshot := elements (Instances h)).
  assert (Hsnap : forall a, a ∈ snapshot <-> a ∈ dom (Memory h)) by (intros a; unfold snapshot; rewrite elem_of_elements, HI; reflexivity).
  destruct (mark_spec h snapshot h) as (h1 & E1 & H1); [intros a; apply Hsnap|reflexivity|].
  assert (S1 : staticFields h1 = staticFields h) by apply (ending_statics _ _ _ _ H1).
  destruct (statics_spec StringType h snapshot fuel h1 H1) as (h2 & E2 & H2).
  { intros f type a E; destruct (Hst f type a E); split; [apply elem_of_elements|]; assumption. }
  destruct (free_spec h snapshot h2) as (h3 & E3 & HD & _); [apply NoDup_elements|exact H2|].
  rewrite E1; cbn [fbind done]; rewrite S1, E2; cbn [fbind done].
  rewrite (regular_spec StringType h snapshot (S fuel) h2 H2); cbn [fbind done]; rewrite E3; cbn [fbind done].
  eexists; split; [reflexivity|]; repeat split; simpl; apply map_empty; intros x.
  apply not_elem_of_dom; rewrite HD; unfold snapshot; rewrite list_to_set_elements_L, HI; set_solver.
Qed.

Lemma terminate_frees_all_witness :
  exists h', Terminate Text 1 chain = done h' /\
    Memory h' = ∅ /\ Instances h' = ∅ /\ staticFields h' = ∅ /\ asyncTable h' = ∅.
Proof.
  apply terminate_frees_all; [vm_compute; reflexivity|intros f type a E; discriminate].
Defined.

(** C40: the count of pending tasks of every frame is the number of tasks bound to
    it, and binding a task, rebinding it to another frame, releasing it and
    marking it keep it so. *)
Theorem pending_tasks_counted a frame state h :
  pending_exact h ->
  pending_exact (BindToFrame a (Some frame) h) /\ pending_exact (ReleaseFrameOwner a h) /\
  pending_exact (MarkTaskLike a h) /\ pending_exact (MarkFireAndForget a h) /\
  pending_exact (SetAsyncNativeState a state h) /\
  GetFrameOwner (BindToFrame a (Some frame) h) a = Some frame /\ GetFrameOwner (ReleaseFrameOwner a h) a = None.
Proof.
  intros HE; split; [apply bind_exact, HE|]; split; [apply release_owner_exact, HE|].
  do 3 (split; [apply updated_record_exact; [reflexivity|exact HE]|]); split.
  - unfold BindToFrame; case_decide as HO; unfold GetFrameOwner; simpl; rewrite lookup_insert_eq; [|reflexivity].
    unfold async_record in HO; simpl in HO; rewrite lookup_insert_eq in HO; exact HO.
  - unfold ReleaseFrameOwner, GetFrameOwner; destruct (asyncTable h !! a) eqn:E; simpl; [|rewrite E; reflexivity].
    rewrite lookup_insert_eq; reflexivity.
Qed.

Lemma pending_tasks_counted_witness :
  let h := node_heap [] in
  pending_exact (BindToFrame 5%positive (Some 7%positive) h) /\ pending_exact (ReleaseFrameOwner 5%positive h) /\
  pending_exact (MarkTaskLike 5%positive h) /\ pending_exact (MarkFireAndForget 5%positive h) /\
  pending_exact (SetAsyncNativeState 5%positive 3 h) /\
  GetFrameOwner (BindToFrame 5%positive (Some 7%positive) h) 5%positive = Some 7%positive /\ GetFrameOwner (ReleaseFrameOwner 5%positive h) 5%positive = None.
Proof. apply (pending_tasks_counted 5%positive 7%positive 3 (node_heap [])); intros frame; reflexivity. Defined.

(** ** Where the counts go wrong *)

(** What a run that succeeds leaves of a block. *)
Definition block_after (m : fueled Heap) (a : Address) : option (option (Z * bool)) :=
  match m with
  | Some (Ok h) => Some (option_map (fun b => (ReferencesCounter b, Terminated b)) (Memory h !! a))
  | _ => None
  end.

(** an interned string is freed with its first use.  The table of literals
    holds no reference to it, so discarding the pushed value frees the block; the
    table keeps the pointer, the next load of the literal pushes a dangling
    reference, and counting a reference to it touches freed memory. *)
Theorem interned_string_dangles :
  (r <-! InternString Text 1 1%positive (node_heap []) ;;
   let '(view, h) := r in
   h <-! DiscardValue Text 1 view h ;;
   r <-! InternString Text 1 1%positive h ;;
   let '(again, h) := r in
   _ <-! lift (if decide (header_address again = header_address view) then Ok tt else Throw "another block") ;;
   lift (IncrementReference again h)) = Some UB.
Proof. vm_compute; reflexivity. Qed.

(** a reference stored in a static field is counted twice, once by
    [CopyInstance] and once more, but released once when the field is assigned
    again: the first value of a static field is never freed. *)
Theorem static_field_counted_twice :
  let field := mkStatic 1%positive Node false in
  let value a b := object a b in
  let h := node_heap [(1%positive, node 0 None); (2%positive, node 0 None)] in
  block_after (SetStaticField Text 1 field (value 1%positive (node 0 None)) h) 1%positive = Some (Some (2, false)) /\
  block_after (h <-! SetStaticField Text 1 field (value 1%positive (node 0 None)) h ;;
               SetStaticField Text 1 field (value 2%positive (node 0 None)) h) 1%positive = Some (Some (1, false)).
Proof. vm_compute; split; reflexivity. Qed.

(** A value overwritten by [SetField] loses its reference but is not freed, even
    when it was the last one. *)
Example overwritten_value_kept :
  block_after (lift (SetField (object 1%positive (node 1 (Some 2%positive))) 0 (mkInstance (Some node_key) Null) chain)) 2%positive
  = Some (Some (0, false)).
Proof. vm_compute; reflexivity. Qed.

(** An object in a field of another type, an interface, is read with the shape of the
    field, which has no slots: freeing the owner frees the object but not what it refers
    to.  Sound heaps have objects of exactly the type of the field. *)
Example interface_field_kept :
  let h := node_heap [(1%positive, mkBlock (Some Keeper, []) 1 false 0 {[0 := 2%positive]});
                      (2%positive, node 1 (Some 3%positive)); (3%positive, node 1 None)] in
  let run := DestroyInstance Text 4 (mkInstance (Some (Some Keeper, [])) (Payload 1%positive)) h in
  block_after run 2%positive = Some None /\ block_after run 3%positive = Some (Some (1, false)).
Proof. vm_compute; split; reflexivity. Qed.

(** an array that holds the last reference to an object cannot be freed: its
    elements are read without a frame, so they have no shape, and releasing one
    reads the type of a null shape. *)
Theorem array_release_undefined :
  let array := mkBlock (Some NodeArray, []) 1 false 1 {[ArraySize := 2%positive]} in
  let h := node_heap [(1%positive, array); (2%positive, node 1 None)] in
  DestroyInstance Text 3 (object 1%positive array) h = Some UB /\
  block_after (DestroyInstance Text 3 (object 2%positive (node 1 None)) h) 2%positive = Some None.
Proof. vm_compute; split; reflexivity. Qed.

(** reading a reference field of a temporary pushes a dangling reference.
    [LOADFIELD] does not count the pointer it pushes and then discards the
    target; when nothing else holds the target, that frees the field's object. *)
Theorem field_of_temporary_dangles :
  let h := node_heap [(1%positive, node 0 (Some 2%positive)); (2%positive, node 1 None)] in
  match LoadReferenceField Text 3 (object 1%positive (node 0 (Some 2%positive))) 0 h with
  | Some (Ok (value, h')) => m_rawMemoryPtr value = Payload 2%positive /\ Memory h' = ∅
  | _ => False
  end.
Proof. vm_compute; split; reflexivity. Qed.

(** storing a struct that holds a reference loses it.  [STOREFIELD] copies the
    bytes of a by-value field without counting the references in them, and then
    releases those of the pushed value: the field points to a freed object. *)
Theorem stored_struct_dangles :
  let h := node_heap [(1%positive, mkBlock (Some Owner, []) 1 false 0 ∅); (2%positive, node 1 None)] in
  let target := mkInstance (Some (Some Owner, [])) (Payload 1%positive) in
  let value := mkInstance (Some (Some Holder, [])) (InFrame {[0 := 2%positive]}) in
  match StoreField Text 3 target 0 value h with
  | Some (Ok h') => option_map Pointers (Memory h' !! 1%positive) = Some {[0 := 2%positive]} /\ Memory h' !! 2%positive = None
  | _ => False
  end.
Proof. vm_compute; split; reflexivity. Qed.

(** Freeing a task that is still bound leaves its frame waiting. *)
Example freed_task_still_pending :
  let h := BindToFrame 2%positive (Some 7%positive) chain in
  match DestroyInstance Text 3 (object 1%positive (node 1 (Some 2%positive))) h with
  | Some (Ok h') => pending h' 7%positive = 1 /\ asyncTable h' = ∅
  | _ => False
  end.
Proof. vm_compute; split; reflexivity. Qed.
