(* ===== verification/Effects.v ===== *)
(** * Effects of methods

    The interprocedural part of FlowAnalyzer.cpp: the summary of the effects of a
    method (MethodEffectSummary.hpp), the edges of the call graph, the loop of
    [PropagateEffects] that carries effects from callees to callers, and the
    warnings about exceptions that may be thrown.  A [MethodSymbol*] is a
    [MethodId]; its [EffectSummary] is kept in a map.  The recorded callees and
    thrown types are never null. *)
From Stdlib Require Import ZArith Lia Bool List String.
From stdpp Require Import base list gmap sets.
From S2P Require Import Prelude Tokens.
Import ListNotations.
Open Scope shard_scope.

Definition MethodId := positive.
Definition TypeId := positive.
Definition FieldId := positive.

(** ** Summaries *)
Record MethodEffectSummary := mkSummary {
  MayThrow : bool;
  MutatesInstance : bool;
  MutatesStatic : bool;
  MutatesArguments : bool;
  HasUnknownSideEffects : bool;
  ThrownTypes : gset TypeId;
  AsyncThrownTypes : gset TypeId;
  MayAssignInstanceFields : gset FieldId;
  MayAssignStaticFields : gset FieldId;
  DefinitelyAssignsInstanceFields : gset FieldId;
  DefinitelyAssignsStaticFields : gset FieldId }.

Definition no_effects : MethodEffectSummary := mkSummary false false false false false ∅ ∅ ∅ ∅ ∅ ∅.

(** [operator==] compares every field. *)
#[export] Instance summary_dec : EqDecision MethodEffectSummary.
Proof. solve_decision. Defined.

Definition with_MayThrow x s :=
  mkSummary x (MutatesInstance s) (MutatesStatic s) (MutatesArguments s) (HasUnknownSideEffects s) (ThrownTypes s)
    (AsyncThrownTypes s) (MayAssignInstanceFields s) (MayAssignStaticFields s) (DefinitelyAssignsInstanceFields s)
    (DefinitelyAssignsStaticFields s).
Definition with_flags i st a u s :=
  mkSummary (MayThrow s) i st a u (ThrownTypes s) (AsyncThrownTypes s) (MayAssignInstanceFields s)
    (MayAssignStaticFields s) (DefinitelyAssignsInstanceFields s) (DefinitelyAssignsStaticFields s).
Definition with_thrown thrown asyncThrown s :=
  mkSummary (MayThrow s) (MutatesInstance s) (MutatesStatic s) (MutatesArguments s) (HasUnknownSideEffects s) thrown
    asyncThrown (MayAssignInstanceFields s) (MayAssignStaticFields s) (DefinitelyAssignsInstanceFields s)
    (DefinitelyAssignsStaticFields s).
Definition with_fields instance static s :=
  mkSummary (MayThrow s) (MutatesInstance s) (MutatesStatic s) (MutatesArguments s) (HasUnknownSideEffects s)
    (ThrownTypes s) (AsyncThrownTypes s) instance static (DefinitelyAssignsInstanceFields s)
    (DefinitelyAssignsStaticFields s).

Definition Merge (other s : MethodEffectSummary) : MethodEffectSummary :=
  mkSummary (MayThrow s || MayThrow other) (MutatesInstance s || MutatesInstance other)
    (MutatesStatic s || MutatesStatic other) (MutatesArguments s || MutatesArguments other)
    (HasUnknownSideEffects s || HasUnknownSideEffects other)
    (ThrownTypes s ∪ ThrownTypes other) (AsyncThrownTypes s ∪ AsyncThrownTypes other)
    (MayAssignInstanceFields s ∪ MayAssignInstanceFields other)
    (MayAssignStaticFields s ∪ MayAssignStaticFields other)
    (DefinitelyAssignsInstanceFields s ∪ DefinitelyAssignsInstanceFields other)
    (DefinitelyAssignsStaticFields s ∪ DefinitelyAssignsStaticFields other).

Abbreviation Summaries := (gmap MethodId MethodEffectSummary).
Definition summary_of (E : Summaries) (m : MethodId) : MethodEffectSummary := default no_effects (E !! m).
Definition on_summary (m : MethodId) (f : MethodEffectSummary -> MethodEffectSummary) (E : Summaries) : Summaries :=
  <[m := f (summary_of E m)]> E.

(** ** The call graph *)
Record CallEdge := mkEdge {
  Callee : MethodId;
  CallSite : SyntaxToken;
  CaughtTypes : gset TypeId;
  CatchesAll : bool;
  IsAwaited : bool }.

(** [_callGraph], in the order the program walks through it. *)
Definition CallGraph := list (MethodId * list CallEdge).

Section Effects.

(** [SemanticModel::IsAssignableTo] (target, source) and the members of
    [MethodSymbol] and [TypeSymbol] the analysis reads. *)
Context (IsAssignableTo : TypeId -> TypeId -> bool) (IsAsync : MethodId -> bool)
  (MethodName : MethodId -> wstring) (TypeName : TypeId -> wstring).

Definition Catches (edge : CallEdge) (thrownType : TypeId) : bool :=
  if CatchesAll edge then true
  else existsb (fun catchType => IsAssignableTo catchType thrownType) (elements (CaughtTypes edge)).

(** The types a call surfaces: those the callee throws, or those in the task of an
    awaited asynchronous callee, but for the ones caught at the call. *)
Definition surfaced (edge : CallEdge) (callee : MethodEffectSummary) : gset TypeId :=
  if IsAsync (Callee edge) then if IsAwaited edge then AsyncThrownTypes callee else ∅ else ThrownTypes callee.
Definition uncaught (edge : CallEdge) (callee : MethodEffectSummary) : gset TypeId :=
  filter (fun t => Catches edge t = false) (surfaced edge callee).

Definition merge_flags (callee s : MethodEffectSummary) : MethodEffectSummary :=
  with_flags (MutatesInstance s || MutatesInstance callee) (MutatesStatic s || MutatesStatic callee)
    (MutatesArguments s || MutatesArguments callee) (HasUnknownSideEffects s || HasUnknownSideEffects callee) s.

(** [targetThrownSet->insert] and [MayThrow = true] for each of [types]. *)
Definition insert_thrown (caller : MethodId) (types : gset TypeId) (s : MethodEffectSummary) : MethodEffectSummary :=
  let s := if decide (types = ∅) then s else with_MayThrow true s in
  if IsAsync caller then with_thrown (ThrownTypes s) (AsyncThrownTypes s ∪ types) s
  else with_thrown (ThrownTypes s ∪ types) (AsyncThrownTypes s) s.

Definition propagate_edge (caller : MethodId) (E : Summaries) (edge : CallEdge) : Summaries :=
  let callee := summary_of E (Callee edge) in
  on_summary caller (fun s => insert_thrown caller (uncaught edge callee) (merge_flags callee s)) E.

Definition propagate_method (changed : bool) (E : Summaries) (entry : MethodId * list CallEdge) : bool * Summaries :=
  let '(caller, edges) := entry in
  let previous := summary_of E caller in
  let E := fold_left (propagate_edge caller) edges E in
  (changed || bool_decide (previous <> summary_of E caller), E).

Fixpoint propagate_pass (graph : CallGraph) (changed : bool) (E : Summaries) : bool * Summaries :=
  match graph with
  | [] => (changed, E)
  | entry :: graph =>
      let '(changed, E) := propagate_method changed E entry in
      propagate_pass graph changed E
  end.

Fixpoint propagate_loop (fuel : nat) (graph : CallGraph) (E : Summaries) : option Summaries :=
  match fuel with
  | O => None
  | S fuel =>
      let '(changed, E) := propagate_pass graph false E in
      if changed then propagate_loop fuel graph E else Some E
  end.

(** ** Warnings *)
Definition Warning : Type := SyntaxToken * wstring.

(** The sets are walked through in an order the program does not fix. *)
Definition report_edge (E : Summaries) (edge : CallEdge) : list Warning :=
  let callee := summary_of E (Callee edge) in
  let name := MethodName (Callee edge) in
  let verb := if IsAsync (Callee edge) && IsAwaited edge then L "Await on '" else L "Call to '" in
  let typed := map (fun t => (CallSite edge, verb ++ name ++ L "' may throw '" ++ TypeName t ++ L "'"))
                 (elements (uncaught edge callee)) in
  let known := if IsAsync (Callee edge) then AsyncThrownTypes callee else ThrownTypes callee in
  let untyped :=
    if MayThrow callee && bool_decide (known = ∅)
    then [(CallSite edge, verb ++ name ++ L "' may throw an exception")] else [] in
  typed ++ untyped.

Definition ReportEffectDiagnostics (graph : CallGraph) (E : Summaries) : list Warning :=
  concat (map (fun entry => concat (map (report_edge E) (snd entry))) graph).

Definition PropagateEffects (fuel : nat) (graph : CallGraph) (E : Summaries) : option (Summaries * list Warning) :=
  match propagate_loop fuel graph E with
  | Some E => Some (E, ReportEffectDiagnostics graph E)
  | None => None
  end.

(** ** The reference: effects along paths of the call graph *)
Definition calls (graph : CallGraph) (caller : MethodId) (edge : CallEdge) : Prop :=
  exists edges, In (caller, edges) graph /\ In edge edges.

(** [escapes m async t]: a call of [m] lets an exception of type [t] out, into its
    task when [async]; either [m] throws it itself or one of its calls surfaces it
    uncaught. *)
Inductive escapes (graph : CallGraph) (E : Summaries) : MethodId -> bool -> TypeId -> Prop :=
| escapes_thrown m t : t ∈ ThrownTypes (summary_of E m) -> escapes graph E m false t
| escapes_task m t : t ∈ AsyncThrownTypes (summary_of E m) -> escapes graph E m true t
| escapes_call m edge t :
    calls graph m edge -> Catches edge t = false ->
    (IsAsync (Callee edge) = true -> IsAwaited edge = true) ->
    escapes graph E (Callee edge) (IsAsync (Callee edge)) t ->
    escapes graph E m (IsAsync m) t.

(** A method that [m] may call, through any number of calls. *)
Inductive reaches (graph : CallGraph) : MethodId -> MethodId -> Prop :=
| reaches_self m : reaches graph m m
| reaches_call m edge m' : calls graph m edge -> reaches graph (Callee edge) m' -> reaches graph m m'.
End Effects.
