(* ===== verification/EffectsFacts.v ===== *)
(** * Effects of methods: lemmas

    A step of the propagation only adds effects.  A pass that changes nothing
    leaves every edge closed, and a pass that changes something adds to a sum that
    the number of methods and thrown types bounds. *)
From Stdlib Require Import ZArith Lia Bool List.
From stdpp Require Import base list gmap sets fin_sets.
From S2P Require Import Prelude Tokens Effects.
Import ListNotations.
Open Scope shard_scope.

(** ** The order of summaries *)
Record below (s s' : MethodEffectSummary) : Prop := mkBelow {
  below_throw : MayThrow s = true -> MayThrow s' = true;
  below_instance : MutatesInstance s = true -> MutatesInstance s' = true;
  below_static : MutatesStatic s = true -> MutatesStatic s' = true;
  below_arguments : MutatesArguments s = true -> MutatesArguments s' = true;
  below_unknown : HasUnknownSideEffects s = true -> HasUnknownSideEffects s' = true;
  below_thrown : ThrownTypes s ⊆ ThrownTypes s';
  below_async : AsyncThrownTypes s ⊆ AsyncThrownTypes s';
  below_fields : MayAssignInstanceFields s = MayAssignInstanceFields s' /\
    MayAssignStaticFields s = MayAssignStaticFields s' /\
    DefinitelyAssignsInstanceFields s = DefinitelyAssignsInstanceFields s' /\
    DefinitelyAssignsStaticFields s = DefinitelyAssignsStaticFields s' }.

#[export] Instance below_preorder : PreOrder below.
Proof.
  split; [intros s; constructor; auto|].
  intros s1 s2 s3 [H1 H2 H3 H4 H5 H6 H7 H8] [K1 K2 K3 K4 K5 K6 K7 K8].
  constructor; auto; [set_solver|set_solver|intuition congruence].
Qed.

Lemma flag_antisym (x y : bool) : (x = true -> y = true) -> (y = true -> x = true) -> x = y.
Proof. destruct x, y; intuition congruence. Qed.

#[export] Instance below_antisym : AntiSymm eq below.
Proof.
  intros [a b c d e f g i j k l] [a' b' c' d' e' f' g' i' j' k' l'] [H1 H2 H3 H4 H5 H6 H7 H8] [K1 K2 K3 K4 K5 K6 K7 _].
  simpl in *; destruct H8 as (-> & -> & -> & ->); f_equal; try (apply flag_antisym; assumption); set_solver.
Qed.

Definition all_below (E E' : Summaries) : Prop := forall m, below (summary_of E m) (summary_of E' m).

#[export] Instance all_below_preorder : PreOrder all_below.
Proof. split; [intros E m; reflexivity|intros E1 E2 E3 H H' m; etransitivity; eauto]. Qed.

Lemma summary_on E m f m' :
  summary_of (on_summary m f E) m' = if decide (m' = m) then f (summary_of E m) else summary_of E m'.
Proof.
  unfold on_summary, summary_of at 1; case_decide as H; [subst; rewrite lookup_insert_eq; reflexivity|].
  rewrite lookup_insert_ne by congruence; reflexivity.
Qed.

Section Facts.
Context (IsAssignableTo : TypeId -> TypeId -> bool) (IsAsync : MethodId -> bool).
Local Abbreviation edge_step := (propagate_edge IsAssignableTo IsAsync).
Local Abbreviation method_step := (propagate_method IsAssignableTo IsAsync).
Local Abbreviation pass := (propagate_pass IsAssignableTo IsAsync).
Local Abbreviation uncaught_at := (uncaught IsAssignableTo IsAsync).

(** ** Steps only add *)
Lemma merge_flags_below callee s : below s (merge_flags callee s).
Proof. constructor; simpl; auto; intros ->; reflexivity. Qed.

Lemma insert_thrown_below m types s : below s (insert_thrown IsAsync m types s).
Proof.
  unfold insert_thrown; destruct (decide (types = ∅)), (IsAsync m); constructor; simpl; auto; set_solver.
Qed.

Lemma edge_step_below m E edge : all_below E (edge_step m E edge).
Proof.
  intros m'; unfold propagate_edge; rewrite summary_on; case_decide; [subst|reflexivity].
  etransitivity; [apply merge_flags_below|apply insert_thrown_below].
Qed.

Lemma edges_step_below m edges : forall E, all_below E (fold_left (edge_step m) edges E).
Proof.
  induction edges as [|edge edges IH]; intros E; [reflexivity|].
  etransitivity; [apply edge_step_below|apply IH].
Qed.

Lemma edges_step_other m edges m' : m' <> m -> forall E, summary_of (fold_left (edge_step m) edges E) m' = summary_of E m'.
Proof.
  intros Hne; induction edges as [|edge edges IH]; intros E; [reflexivity|]; simpl; rewrite IH.
  unfold propagate_edge; rewrite summary_on, decide_False by exact Hne; reflexivity.
Qed.

Lemma pass_below graph : forall changed E, all_below E (snd (pass graph changed E)).
Proof.
  induction graph as [|[m edges] graph IH]; intros changed E; [reflexivity|]; simpl.
  etransitivity; [apply edges_step_below|apply IH].
Qed.

(** ** A pass without change *)
Lemma pass_changed graph : forall E, fst (pass graph true E) = true.
Proof. induction graph as [|[m edges] graph IH]; intros E; [reflexivity|]; apply IH. Qed.

(** Both maps give every method the same summary. *)
Definition same (E E' : Summaries) : Prop := forall m, summary_of E m = summary_of E' m.

#[export] Instance same_equivalence : Equivalence same.
Proof. split; [intros E m; reflexivity|intros E E' H m; symmetry; apply H|intros E1 E2 E3 H H' m; rewrite H; apply H']. Qed.

Lemma below_same E E' : all_below E E' -> all_below E' E -> same E E'.
Proof. intros H H' m; apply (anti_symm below); auto. Qed.

#[export] Instance edge_step_proper m : Proper (same ==> eq ==> same) (edge_step m).
Proof.
  intros E E' H edge _ <- m'; unfold propagate_edge; rewrite !summary_on, !H; reflexivity.
Qed.

(** An edge is closed when its step changes nothing. *)
Definition closed_edge (E : Summaries) (m : MethodId) (edge : CallEdge) : Prop := same (edge_step m E edge) E.

Lemma edges_step_closed m edges : forall E,
  summary_of (fold_left (edge_step m) edges E) m = summary_of E m -> forall edge, In edge edges -> closed_edge E m edge.
Proof.
  induction edges as [|e edges IH]; intros E H edge Hin; [destruct Hin|]; simpl in H.
  assert (H1 : same (edge_step m E e) E).
  { intros m'; destruct (decide (m' = m)) as [->|Hne].
    - apply (anti_symm below); [rewrite <- H; apply edges_step_below|apply edge_step_below].
    - unfold propagate_edge; rewrite summary_on, decide_False by exact Hne; reflexivity. }
  destruct Hin as [->|Hin]; [exact H1|]; unfold closed_edge.
  rewrite <- H1 at 1; etransitivity; [|exact H1]; etransitivity; [|apply (IH (edge_step m E e))]; eauto; [|rewrite H1; exact H].
  rewrite H1; reflexivity.
Qed.

Lemma pass_same graph : forall E, fst (pass graph false E) = false ->
  same (snd (pass graph false E)) E /\ forall m edge, calls graph m edge -> closed_edge E m edge.
Proof.
  induction graph as [|[m edges] graph IH]; intros E H; [split; [reflexivity|intros m edge (es & [] & _)]|].
  simpl in *; case_bool_decide as Hc; [rewrite pass_changed in H; discriminate|].
  assert (Hm : summary_of (fold_left (edge_step m) edges E) m = summary_of E m).
  { destruct (decide (summary_of E m = summary_of (fold_left (edge_step m) edges E) m)); [auto|contradiction]. }
  assert (HE : same (fold_left (edge_step m) edges E) E).
  { intros m'; destruct (decide (m' = m)) as [->|]; [exact Hm|apply edges_step_other; assumption]. }
  destruct (IH _ H) as [H1 H2]; split; [etransitivity; eauto|].
  intros m' edge (es & [[= <- <-]|Hin] & He); [eapply edges_step_closed; eauto|].
  unfold closed_edge; rewrite <- HE; apply H2; exists es; auto.
Qed.

(** What closing an edge means. *)
Lemma closed_thrown E m edge t :
  closed_edge E m edge -> t ∈ uncaught_at edge (summary_of E (Callee edge)) ->
  t ∈ (if IsAsync m then AsyncThrownTypes (summary_of E m) else ThrownTypes (summary_of E m)) /\
  MayThrow (summary_of E m) = true.
Proof.
  intros Hc Ht; specialize (Hc m); unfold propagate_edge in Hc; rewrite summary_on, decide_True in Hc by reflexivity.
  rewrite <- Hc; unfold insert_thrown; rewrite decide_False by set_solver; destruct (IsAsync m); simpl; split; auto; set_solver.
Qed.

Lemma closed_flags E m edge :
  closed_edge E m edge -> below (merge_flags (summary_of E (Callee edge)) (summary_of E m)) (summary_of E m).
Proof.
  intros Hc; specialize (Hc m); unfold propagate_edge in Hc; rewrite summary_on, decide_True in Hc by reflexivity.
  pose proof (insert_thrown_below m (uncaught_at edge (summary_of E (Callee edge)))
    (merge_flags (summary_of E (Callee edge)) (summary_of E m))) as H; rewrite Hc in H; exact H.
Qed.

(** ** The propagation computes no more than the reference *)
Definition flagged (flag : MethodEffectSummary -> bool) (graph : CallGraph) (E : Summaries) (m : MethodId) : Prop :=
  exists m', reaches graph m m' /\ flag (summary_of E m') = true.

Lemma flagged_self flag graph E m : flag (summary_of E m) = true -> flagged flag graph E m.
Proof. intros H; exists m; split; [constructor|exact H]. Qed.
Lemma flagged_call flag graph E m edge : calls graph m edge -> flagged flag graph E (Callee edge) -> flagged flag graph E m.
Proof. intros Hc (m' & Hr & Hf); exists m'; split; [econstructor; eauto|exact Hf]. Qed.

Definition surfaces (graph : CallGraph) (E : Summaries) (m : MethodId) : Prop :=
  exists edge t, calls graph m edge /\ Catches IsAssignableTo edge t = false /\
    (IsAsync (Callee edge) = true -> IsAwaited edge = true) /\
    escapes IsAssignableTo IsAsync graph E (Callee edge) (IsAsync (Callee edge)) t.

(** The flags calls carry to the caller. *)
Definition carried (flag : MethodEffectSummary -> bool) : Prop :=
  (forall m types s, flag (insert_thrown IsAsync m types s) = flag s) /\
  (forall callee s, flag (merge_flags callee s) = flag s || flag callee).

Lemma flags_carried :
  carried MutatesInstance /\ carried MutatesStatic /\ carried MutatesArguments /\ carried HasUnknownSideEffects.
Proof.
  repeat split; intros; try reflexivity; unfold insert_thrown; destruct (decide _), (IsAsync _); reflexivity.
Qed.

Record justified (graph : CallGraph) (E0 E : Summaries) : Prop := mkJustified {
  just_thrown : forall m t, t ∈ ThrownTypes (summary_of E m) -> escapes IsAssignableTo IsAsync graph E0 m false t;
  just_async : forall m t, t ∈ AsyncThrownTypes (summary_of E m) -> escapes IsAssignableTo IsAsync graph E0 m true t;
  just_throw : forall m, MayThrow (summary_of E m) = true -> MayThrow (summary_of E0 m) = true \/ surfaces graph E0 m;
  just_flag : forall flag m, carried flag -> flag (summary_of E m) = true -> flagged flag graph E0 m }.

Lemma uncaught_spec edge s t :
  t ∈ uncaught_at edge s <-> Catches IsAssignableTo edge t = false /\
    t ∈ (if IsAsync (Callee edge) then AsyncThrownTypes s else ThrownTypes s) /\
    (IsAsync (Callee edge) = true -> IsAwaited edge = true).
Proof.
  unfold uncaught, surfaced; rewrite elem_of_filter.
  destruct (IsAsync (Callee edge)), (IsAwaited edge); set_solver.
Qed.

Lemma uncaught_escapes graph E0 E m edge t :
  justified graph E0 E -> calls graph m edge -> t ∈ uncaught_at edge (summary_of E (Callee edge)) ->
  escapes IsAssignableTo IsAsync graph E0 (Callee edge) (IsAsync (Callee edge)) t.
Proof.
  intros HJ Hc Ht; apply uncaught_spec in Ht as (_ & Ht & _).
  destruct (IsAsync (Callee edge)); [eapply just_async|eapply just_thrown]; eauto.
Qed.

Lemma justified_start graph E : justified graph E E.
Proof. constructor; auto using flagged_self; intros m t Ht; [apply escapes_thrown|apply escapes_task]; exact Ht. Qed.

Lemma step_thrown E m edge m' t :
  t ∈ ThrownTypes (summary_of (edge_step m E edge) m') ->
  t ∈ ThrownTypes (summary_of E m') \/ m' = m /\ IsAsync m = false /\ t ∈ uncaught_at edge (summary_of E (Callee edge)).
Proof.
  unfold propagate_edge; rewrite summary_on; case_decide as Hm; [subst|auto]; unfold insert_thrown.
  destruct (decide _), (IsAsync m); simpl; set_solver.
Qed.

Lemma step_async E m edge m' t :
  t ∈ AsyncThrownTypes (summary_of (edge_step m E edge) m') ->
  t ∈ AsyncThrownTypes (summary_of E m') \/ m' = m /\ IsAsync m = true /\ t ∈ uncaught_at edge (summary_of E (Callee edge)).
Proof.
  unfold propagate_edge; rewrite summary_on; case_decide as Hm; [subst|auto]; unfold insert_thrown.
  destruct (decide _), (IsAsync m); simpl; set_solver.
Qed.

Lemma step_throw E m edge m' :
  MayThrow (summary_of (edge_step m E edge) m') = true ->
  MayThrow (summary_of E m') = true \/ m' = m /\ exists t, t ∈ uncaught_at edge (summary_of E (Callee edge)).
Proof.
  unfold propagate_edge; rewrite summary_on; case_decide as Hm; [subst|auto]; unfold insert_thrown.
  destruct (decide _) as [He|He]; [destruct (IsAsync m); simpl; auto|].
  right; split; [reflexivity|]; apply set_choose_L in He as [t Ht]; eauto.
Qed.

Lemma step_flag flag E m edge m' :
  carried flag -> flag (summary_of (edge_step m E edge) m') = true ->
  flag (summary_of E m') = true \/ m' = m /\ flag (summary_of E (Callee edge)) = true.
Proof.
  intros [H1 H2]; unfold propagate_edge; rewrite summary_on; case_decide as Hm; [subst|auto].
  rewrite H1, H2, orb_true_iff; intuition.
Qed.

Lemma justified_edge graph E0 E m edge :
  calls graph m edge -> justified graph E0 E -> justified graph E0 (edge_step m E edge).
Proof.
  intros Hc HJ.
  assert (Hu : forall t, t ∈ uncaught_at edge (summary_of E (Callee edge)) -> surfaces graph E0 m /\
    escapes IsAssignableTo IsAsync graph E0 m (IsAsync m) t).
  { intros t Ht; pose proof (uncaught_escapes graph E0 E m edge t HJ Hc Ht); apply uncaught_spec in Ht as (H1 & _ & H2).
    split; [exists edge, t; auto|eapply escapes_call; eauto]. }
  constructor.
  - intros m' t Ht; apply step_thrown in Ht as [Ht|(-> & HA & Ht)]; [eapply just_thrown; eauto|rewrite <- HA; apply Hu, Ht].
  - intros m' t Ht; apply step_async in Ht as [Ht|(-> & HA & Ht)]; [eapply just_async; eauto|rewrite <- HA; apply Hu, Ht].
  - intros m' Ht; apply step_throw in Ht as [Ht|(-> & t & Ht)]; [eapply just_throw; eauto|right; exact (proj1 (Hu t Ht))].
  - intros flag m' Hf Ht; apply step_flag in Ht as [Ht|(-> & Ht)]; [eapply just_flag; eauto| |exact Hf].
    eapply flagged_call; [exact Hc|eapply just_flag; eauto].
Qed.

Lemma justified_edges graph E0 m edges : (forall edge, In edge edges -> calls graph m edge) ->
  forall E, justified graph E0 E -> justified graph E0 (fold_left (edge_step m) edges E).
Proof.
  induction edges as [|edge edges IH]; intros Hc E HJ; [exact HJ|]; simpl.
  apply IH; [intros e He; apply Hc; right; exact He|apply justified_edge; [apply Hc; left; reflexivity|exact HJ]].
Qed.

Lemma justified_pass graph E0 entries : (forall entry, In entry entries -> In entry graph) ->
  forall changed E, justified graph E0 E -> justified graph E0 (snd (pass entries changed E)).
Proof.
  induction entries as [|[m edges] entries IH]; intros Hin changed E HJ; [exact HJ|]; simpl.
  apply IH; [intros entry He; apply Hin; right; exact He|].
  apply justified_edges; [|exact HJ]; intros edge He; exists edges; split; [apply Hin; left; reflexivity|exact He].
Qed.

Lemma loop_result fuel graph E0 : forall E E',
  justified graph E0 E -> all_below E0 E -> propagate_loop IsAssignableTo IsAsync fuel graph E = Some E' ->
  justified graph E0 E' /\ all_below E0 E' /\ forall m edge, calls graph m edge -> closed_edge E' m edge.
Proof.
  induction fuel as [|fuel IH]; intros E E' HJ HB; [discriminate|]; simpl.
  pose proof (justified_pass graph E0 graph (fun _ H => H) false E HJ) as HJ'; pose proof (pass_below graph false E) as HB'.
  pose proof (pass_same graph E) as Hsame; destruct (pass graph false E) as [[] E1]; simpl in *.
  - intros H; apply (IH E1); auto; etransitivity; eauto.
  - intros [= <-]; split; [exact HJ'|]; split; [etransitivity; eauto|].
    destruct (Hsame eq_refl) as [HE Hcl]; intros m edge Hc; unfold closed_edge; rewrite HE; apply Hcl, Hc.
Qed.

(** ** The propagation computes all of the reference *)
Lemma closed_escapes graph E0 E m async t :
  all_below E0 E -> (forall m edge, calls graph m edge -> closed_edge E m edge) ->
  escapes IsAssignableTo IsAsync graph E0 m async t ->
  t ∈ (if async then AsyncThrownTypes (summary_of E m) else ThrownTypes (summary_of E m)).
Proof.
  intros HB Hcl; induction 1 as [m t Ht|m t Ht|m edge t Hc Hca Haw Hesc IH].
  - apply (below_thrown _ _ (HB m)), Ht.
  - apply (below_async _ _ (HB m)), Ht.
  - apply (closed_thrown E m edge t (Hcl m edge Hc)), uncaught_spec; auto.
Qed.

Lemma closed_surfaces graph E0 E m :
  all_below E0 E -> (forall m edge, calls graph m edge -> closed_edge E m edge) ->
  surfaces graph E0 m -> MayThrow (summary_of E m) = true.
Proof.
  intros HB Hcl (edge & t & Hc & Hca & Haw & Hesc).
  apply (closed_thrown E m edge t (Hcl m edge Hc)), uncaught_spec; split; [exact Hca|]; split; [|exact Haw].
  eapply closed_escapes; eauto.
Qed.

Lemma closed_flagged flag graph E0 E m :
  carried flag -> (forall s s', below s s' -> flag s = true -> flag s' = true) ->
  all_below E0 E -> (forall m edge, calls graph m edge -> closed_edge E m edge) ->
  flagged flag graph E0 m -> flag (summary_of E m) = true.
Proof.
  intros [_ Hmerge] Hmono HB Hcl (m' & Hr & Hf); induction Hr as [m|m edge m' Hc Hr IH]; [eapply Hmono; eauto|].
  eapply Hmono; [apply (closed_flags E m edge (Hcl m edge Hc))|]; rewrite Hmerge, (IH Hf); apply orb_true_r.
Qed.

(** ** A changing pass adds to a bounded sum *)
Lemma pass_grows graph : forall changed E, fst (pass graph changed E) = true ->
  changed = true \/ exists m, In m (map fst graph) /\ summary_of E m <> summary_of (snd (pass graph changed E)) m.
Proof.
  induction graph as [|[m edges] graph IH]; intros changed E H; [left; exact H|]; simpl in *.
  pose proof (edges_step_below m edges E) as HB.
  pose proof (pass_below graph (changed || bool_decide (summary_of E m <> summary_of (fold_left (edge_step m) edges E) m))
    (fold_left (edge_step m) edges E)) as HB'.
  destruct (IH _ _ H) as [Hc|(m' & Hin & Hne)]; [destruct changed; [left; reflexivity|]|]; right.
  - apply bool_decide_eq_true in Hc; exists m; split; [left; reflexivity|].
    intros Heq; apply Hc, (anti_symm below); [apply HB|]; rewrite Heq at 1; apply HB'.
  - exists m'; split; [right; exact Hin|]; intros Heq; apply Hne, (anti_symm below); [apply HB'|].
    rewrite <- Heq; apply HB.
Qed.

Definition bounded (U : gset TypeId) (E : Summaries) : Prop :=
  forall m, ThrownTypes (summary_of E m) ⊆ U /\ AsyncThrownTypes (summary_of E m) ⊆ U.

Lemma uncaught_bounded U E edge : bounded U E -> uncaught_at edge (summary_of E (Callee edge)) ⊆ U.
Proof.
  intros HU t Ht; apply uncaught_spec in Ht as (_ & Ht & _); destruct (HU (Callee edge)), (IsAsync (Callee edge)); auto.
Qed.

Lemma bounded_edge U m E edge : bounded U E -> bounded U (edge_step m E edge).
Proof.
  intros HU m'; pose proof (uncaught_bounded U E edge HU) as H; destruct (HU m') as [H1 H2].
  split; intros t Ht; [apply step_thrown in Ht|apply step_async in Ht]; destruct Ht as [Ht|(_ & _ & Ht)]; auto.
Qed.

Lemma bounded_pass U graph : forall changed E, bounded U E -> bounded U (snd (pass graph changed E)).
Proof.
  induction graph as [|[m edges] graph IH]; intros changed E HU; [exact HU|]; simpl; apply IH; clear IH.
  revert E HU; induction edges as [|edge edges IH]; intros E HU; [exact HU|]; apply IH, bounded_edge, HU.
Qed.

(** The flags set and the types in the two sets of a summary. *)
Definition weight (s : MethodEffectSummary) : nat :=
  Nat.b2n (MayThrow s) + Nat.b2n (MutatesInstance s) + Nat.b2n (MutatesStatic s) + Nat.b2n (MutatesArguments s) +
  Nat.b2n (HasUnknownSideEffects s) + size (ThrownTypes s) + size (AsyncThrownTypes s).

Lemma flag_grows (x y : bool) : (x = true -> y = true) -> x = y \/ (Nat.b2n x < Nat.b2n y)%nat.
Proof. destruct x, y; simpl; intros H; auto; discriminate (H eq_refl). Qed.

Lemma size_grows (X Y : gset TypeId) : X ⊆ Y -> X = Y \/ (size X < size Y)%nat.
Proof.
  intros H; destruct (decide (Y ⊆ X)); [left; set_solver|right; apply subset_size; split; assumption].
Qed.

Lemma weight_grows s s' : below s s' -> s = s' \/ (weight s < weight s')%nat.
Proof.
  intros [H1 H2 H3 H4 H5 H6 H7 (H8 & H9 & H10 & H11)]; unfold weight.
  apply flag_grows in H1, H2, H3, H4, H5; apply size_grows in H6, H7.
  destruct s, s'; simpl in *; subst.
  destruct H1 as [->|], H2 as [->|], H3 as [->|], H4 as [->|], H5 as [->|], H6 as [->|], H7 as [->|];
    (left; reflexivity) || (right; lia).
Qed.

Definition total (methods : list MethodId) (E : Summaries) : nat := sum_list_with (fun m => weight (summary_of E m)) methods.

Lemma weight_mono s s' : below s s' -> (weight s <= weight s')%nat.
Proof. intros H; destruct (weight_grows s s' H) as [->|]; lia. Qed.

Lemma total_mono methods E E' : all_below E E' -> (total methods E <= total methods E')%nat.
Proof.
  intros H; induction methods as [|m methods IH]; [reflexivity|]; unfold total in *; simpl.
  pose proof (weight_mono _ _ (H m)); lia.
Qed.

Lemma total_grows methods E E' m :
  all_below E E' -> In m methods -> summary_of E m <> summary_of E' m -> (total methods E < total methods E')%nat.
Proof.
  intros H Hin Hne; induction methods as [|m' methods IH]; [destruct Hin|].
  pose proof (total_mono methods E E' H); unfold total in *; simpl.
  pose proof (weight_mono _ _ (H m')); destruct Hin as [->|Hin]; [|specialize (IH Hin); lia].
  destruct (weight_grows _ _ (H m)); [contradiction|lia].
Qed.

Lemma total_bounded U methods E : bounded U E -> (total methods E <= length methods * (5 + 2 * size U))%nat.
Proof.
  intros HU; induction methods as [|m methods IH]; [reflexivity|]; unfold total in *; simpl.
  destruct (HU m) as [H1 H2]; apply subseteq_size in H1, H2.
  assert (weight (summary_of E m) <= 5 + 2 * size U)%nat; [|simpl in *; lia].
  unfold weight; destruct (MayThrow _), (MutatesInstance _), (MutatesStatic _), (MutatesArguments _), (HasUnknownSideEffects _);
    simpl; lia.
Qed.

Lemma loop_total U graph : forall fuel E, bounded U E ->
  (length graph * (5 + 2 * size U) < fuel + total (map fst graph) E)%nat ->
  exists E', propagate_loop IsAssignableTo IsAsync fuel graph E = Some E'.
Proof.
  induction fuel as [|fuel IH]; intros E HU Hf.
  { pose proof (total_bounded U (map fst graph) E HU); rewrite length_map in *; lia. }
  simpl; pose proof (pass_grows graph false E) as Hg; pose proof (pass_below graph false E) as HB.
  pose proof (bounded_pass U graph false E HU) as HU'; destruct (pass graph false E) as [[] E1]; simpl in *; [|eauto].
  destruct (Hg eq_refl) as [[=]|(m & Hin & Hne)]; apply IH; [exact HU'|].
  pose proof (total_grows _ _ _ _ HB Hin Hne); lia.
Qed.

(** ** Together *)
Definition universe (E : Summaries) : gset TypeId :=
  ⋃ (map (fun entry => ThrownTypes (snd entry) ∪ AsyncThrownTypes (snd entry)) (map_to_list E)).

Lemma universe_bounded E : bounded (universe E) E.
Proof.
  intros m; unfold summary_of; destruct (E !! m) as [s|] eqn:Hm; [|split; simpl; set_solver].
  assert (ThrownTypes s ∪ AsyncThrownTypes s ⊆ universe E); [|split; simpl; set_solver].
  intros t Ht; unfold universe; apply elem_of_union_list; exists (ThrownTypes s ∪ AsyncThrownTypes s); split; [|exact Ht].
  apply list_elem_of_In, in_map_iff; exists (m, s); split; [reflexivity|]; apply list_elem_of_In, elem_of_map_to_list, Hm.
Qed.

(** Passes enough for any graph over these summaries. *)
Definition passes_needed (graph : CallGraph) (E : Summaries) : nat := S (length graph * (5 + 2 * size (universe E))).

Lemma loop_enough graph E fuel : (passes_needed graph E <= fuel)%nat ->
  exists E', propagate_loop IsAssignableTo IsAsync fuel graph E = Some E'.
Proof. intros H; eapply (loop_total (universe E)); [apply universe_bounded|]; unfold passes_needed in H; lia. Qed.

(** The summary of [m] that the reference describes. *)
Record exact (graph : CallGraph) (E : Summaries) (m : MethodId) (s : MethodEffectSummary) : Prop := mkExact {
  exact_thrown : forall t, t ∈ ThrownTypes s <-> escapes IsAssignableTo IsAsync graph E m false t;
  exact_async : forall t, t ∈ AsyncThrownTypes s <-> escapes IsAssignableTo IsAsync graph E m true t;
  exact_throw : MayThrow s = true <-> MayThrow (summary_of E m) = true \/ surfaces graph E m;
  exact_instance : MutatesInstance s = true <-> flagged MutatesInstance graph E m;
  exact_static : MutatesStatic s = true <-> flagged MutatesStatic graph E m;
  exact_arguments : MutatesArguments s = true <-> flagged MutatesArguments graph E m;
  exact_unknown : HasUnknownSideEffects s = true <-> flagged HasUnknownSideEffects graph E m;
  exact_fields : MayAssignInstanceFields s = MayAssignInstanceFields (summary_of E m) /\
    MayAssignStaticFields s = MayAssignStaticFields (summary_of E m) /\
    DefinitelyAssignsInstanceFields s = DefinitelyAssignsInstanceFields (summary_of E m) /\
    DefinitelyAssignsStaticFields s = DefinitelyAssignsStaticFields (summary_of E m) }.

Lemma loop_exact fuel graph E E' :
  propagate_loop IsAssignableTo IsAsync fuel graph E = Some E' -> forall m, exact graph E m (summary_of E' m).
Proof.
  intros H; destruct (loop_result fuel graph E E E' (justified_start graph E) (reflexivity E) H) as (HJ & HB & Hcl).
  pose proof (fun flag Hf Hm m => closed_flagged flag graph E E' m Hf Hm HB Hcl) as HF; intros m.
  destruct flags_carried as (C1 & C2 & C3 & C4); constructor; try intros t;
    try (split; [apply (just_flag _ _ _ HJ); assumption|apply HF; [assumption|intros s s' []; assumption]]).
  - split; [apply (just_thrown _ _ _ HJ)|apply (closed_escapes graph E E' m false t HB Hcl)].
  - split; [apply (just_async _ _ _ HJ)|apply (closed_escapes graph E E' m true t HB Hcl)].
  - split; [apply (just_throw _ _ _ HJ)|]; intros [Ht|Hs]; [apply (below_throw _ _ (HB m)), Ht|].
    apply (closed_surfaces graph E E' m HB Hcl Hs).
  - destruct (below_fields _ _ (HB m)) as (-> & -> & -> & ->); auto.
Qed.

Lemma bool_iff (x y : bool) : (x = true <-> y = true) -> x = y.
Proof. intros [H H']; apply flag_antisym; assumption. Qed.

Lemma exact_unique graph E m s s' : exact graph E m s -> exact graph E m s' -> s = s'.
Proof.
  intros [H1 H2 H3 H4 H5 H6 H7 (H8 & H9 & H10 & H11)] [K1 K2 K3 K4 K5 K6 K7 (K8 & K9 & K10 & K11)].
  destruct s, s'; simpl in *.
  assert (forall b b' (P : Prop), (b = true <-> P) -> (b' = true <-> P) -> b = b') as HU
    by (intros b b' P Hb Hb'; apply bool_iff; rewrite Hb, Hb'; reflexivity).
  f_equal; try congruence; try (eapply HU; eassumption); apply set_eq; intros t; rewrite ?H1, ?K1, ?H2, ?K2; reflexivity.
Qed.
End Facts.

(** ** The reference depends on the calls, not on the order of the graph *)
Section Order.
Context (IsAssignableTo : TypeId -> TypeId -> bool) (IsAsync : MethodId -> bool).

Definition same_calls (graph graph' : CallGraph) : Prop := forall m edge, calls graph m edge <-> calls graph' m edge.

Lemma escapes_order graph graph' E m async t : same_calls graph graph' ->
  escapes IsAssignableTo IsAsync graph E m async t -> escapes IsAssignableTo IsAsync graph' E m async t.
Proof.
  intros Hs; induction 1 as [| |m edge t Hc Hca Haw Hesc IH]; [apply escapes_thrown; assumption|apply escapes_task; assumption|].
  eapply escapes_call; [apply Hs, Hc|assumption..].
Qed.

Lemma reaches_order graph graph' m m' : same_calls graph graph' -> reaches graph m m' -> reaches graph' m m'.
Proof. intros Hs; induction 1; [constructor|econstructor; [apply Hs|]; eassumption]. Qed.

Lemma surfaces_order graph graph' E m : same_calls graph graph' ->
  surfaces IsAssignableTo IsAsync graph E m -> surfaces IsAssignableTo IsAsync graph' E m.
Proof.
  intros Hs (edge & t & Hc & Hca & Haw & Hesc); exists edge, t; repeat split; [apply Hs|..]; auto.
  eapply escapes_order; eauto.
Qed.

Lemma exact_order graph graph' E m s : same_calls graph graph' ->
  exact IsAssignableTo IsAsync graph E m s -> exact IsAssignableTo IsAsync graph' E m s.
Proof.
  intros Hs; assert (Hs' : same_calls graph' graph) by (intros m' e; symmetry; apply Hs).
  assert (HF : forall flag, flagged flag graph E m <-> flagged flag graph' E m)
    by (intros flag; split; intros (m' & Hr & Hf); exists m'; eauto using reaches_order).
  intros [H1 H2 H3 H4 H5 H6 H7 H8]; constructor; [intros t; rewrite H1|intros t; rewrite H2|rewrite H3|..|exact H8];
    rewrite ?H4, ?H5, ?H6, ?H7; auto.
  - split; eapply escapes_order; assumption.
  - split; eapply escapes_order; assumption.
  - split; (intros [H|H]; [left; exact H|right; eapply surfaces_order; eassumption]).
Qed.
End Order.
