(* ===== verification/EffectsSpec.v ===== *)
(** * Effects of methods: properties

    What [PropagateEffects] computes, that it ends, that the order of the call graph
    does not matter, and which warnings it reports. *)
From Stdlib Require Import ZArith Lia Bool List String.
From stdpp Require Import base list gmap sets.
From S2P Require Import Prelude Tokens Effects EffectsFacts.
Import ListNotations.
Open Scope shard_scope.

(** ** A program to try them on

    [Main] (1) awaits the asynchronous [Load] (2) inside a try block that catches
    [IOError] (20); [Load] calls [Parse] (3), which throws [IOError] and
    [FormatError] (21) and calls [Load] again.  Every method is in one cycle but
    [Main]. *)
Module Sample.
Definition at_line (n : Z) : SyntaxToken := mkToken false TokenType.Identifier (L "call") (mkLocation (L "a.ss") 0 n 4).
Definition is_async (m : MethodId) : bool := bool_decide (m = 2%positive).
Definition assignable (target source : TypeId) : bool := bool_decide (target = source).
Definition method_name (m : MethodId) : wstring := if decide (m = 2%positive) then L "Load" else if decide (m = 3%positive) then L "Parse" else L "Main".
Definition type_name (t : TypeId) : wstring := if decide (t = 20%positive) then L "IOError" else L "FormatError".
Definition awaiting : CallEdge := mkEdge 2%positive (at_line 10) {[20%positive]} false true.
Definition parsing : CallEdge := mkEdge 3%positive (at_line 20) ∅ false false.
Definition again : CallEdge := mkEdge 2%positive (at_line 30) ∅ false false.
Definition graph : CallGraph := [(1%positive, [awaiting]); (2%positive, [parsing]); (3%positive, [again])].
Definition throwing : MethodEffectSummary :=
  with_flags true false false false (with_thrown {[20%positive; 21%positive]} ∅ (with_MayThrow true no_effects)).
Definition start : Summaries := <[3%positive := throwing]> ∅.
Definition reordered : CallGraph := [(3%positive, [again]); (2%positive, [parsing]); (1%positive, [awaiting])].
End Sample.

Section Spec.
Context (IsAssignableTo : TypeId -> TypeId -> bool) (IsAsync : MethodId -> bool)
  (MethodName : MethodId -> wstring) (TypeName : TypeId -> wstring).

(** C6: What the loop leaves in the summary of each method is what the paths of the call
    graph carry there: the types a call of it lets out (into its task, when it is
    asynchronous and the caller awaits it), uncaught at every call they pass; each
    flag exactly when the method reaches one that has it. *)
Theorem effects_exact graph E fuel : (passes_needed graph E <= fuel)%nat ->
  exists E', propagate_loop IsAssignableTo IsAsync fuel graph E = Some E' /\
    forall m, exact IsAssignableTo IsAsync graph E m (summary_of E' m).
Proof.
  intros H; destruct (loop_enough IsAssignableTo IsAsync graph E fuel H) as [E' HE].
  exists E'; split; [exact HE|]; eapply loop_exact, HE.
Qed.

(** The effects found do not depend on the order in which the hash map gives the
    methods and the calls were recorded. *)
Theorem effects_order_free graph graph' E fuel fuel' E1 E2 :
  same_calls graph graph' ->
  propagate_loop IsAssignableTo IsAsync fuel graph E = Some E1 ->
  propagate_loop IsAssignableTo IsAsync fuel' graph' E = Some E2 ->
  forall m, summary_of E1 m = summary_of E2 m.
Proof.
  intros Hs H1 H2 m; eapply exact_unique; [|eapply loop_exact, H2].
  eapply exact_order; [exact Hs|eapply loop_exact, H1].
Qed.

(** The two warnings of a call. *)
Definition typed_warning (edge : CallEdge) (t : TypeId) : Warning :=
  (CallSite edge, (if IsAsync (Callee edge) && IsAwaited edge then L "Await on '" else L "Call to '") ++
    MethodName (Callee edge) ++ L "' may throw '" ++ TypeName t ++ L "'").
Definition untyped_warning (edge : CallEdge) : Warning :=
  (CallSite edge, (if IsAsync (Callee edge) && IsAwaited edge then L "Await on '" else L "Call to '") ++
    MethodName (Callee edge) ++ L "' may throw an exception").

Lemma report_edge_spec E edge w :
  In w (report_edge IsAssignableTo IsAsync MethodName TypeName E edge) <->
  (exists t, t ∈ uncaught IsAssignableTo IsAsync edge (summary_of E (Callee edge)) /\ w = typed_warning edge t) \/
  MayThrow (summary_of E (Callee edge)) = true /\
  (if IsAsync (Callee edge) then AsyncThrownTypes (summary_of E (Callee edge)) else ThrownTypes (summary_of E (Callee edge))) = ∅ /\
  w = untyped_warning edge.
Proof.
  unfold report_edge; rewrite in_app_iff, in_map_iff.
  match goal with |- (?P \/ ?Q) <-> (?P' \/ ?Q') => assert (P <-> P') as -> ; [|assert (Q <-> Q') as ->; [|reflexivity]] end.
  - split; intros (t & H1 & H2); exists t; rewrite <- list_elem_of_In, elem_of_elements in *; auto.
  - unfold untyped_warning; destruct (MayThrow _); simpl; [|split; [intros []|intros ([=] & _)]].
    case_bool_decide as He; simpl; intuition congruence.
Qed.

Lemma report_spec graph E w :
  In w (ReportEffectDiagnostics IsAssignableTo IsAsync MethodName TypeName graph E) <->
  exists m edge, calls graph m edge /\ In w (report_edge IsAssignableTo IsAsync MethodName TypeName E edge).
Proof.
  unfold ReportEffectDiagnostics; rewrite in_concat; split.
  - intros (ws & Hws & Hw); apply in_map_iff in Hws as ([m edges] & <- & Hin); apply in_concat in Hw as (ws & Hws & Hw).
    apply in_map_iff in Hws as (edge & <- & He); exists m, edge; split; [exists edges; auto|exact Hw].
  - intros (m & edge & (edges & Hin & He) & Hw); eexists; split; [apply in_map_iff; exists (m, edges); split; [reflexivity|exact Hin]|].
    apply in_concat; eexists; split; [apply in_map, He|exact Hw].
Qed.

(** C21: The warnings are exactly these, one list entry or more for each: at every call,
    one naming each type the callee lets out that the call does not catch (awaited,
    when the callee is asynchronous), and one without a type at a call of a method
    that may throw but lets no known type out. *)
Theorem effect_warnings_exact graph E fuel E' warnings w :
  PropagateEffects IsAssignableTo IsAsync MethodName TypeName fuel graph E = Some (E', warnings) ->
  In w warnings <-> exists m edge, calls graph m edge /\
    ((exists t, Catches IsAssignableTo edge t = false /\ (IsAsync (Callee edge) = true -> IsAwaited edge = true) /\
        escapes IsAssignableTo IsAsync graph E (Callee edge) (IsAsync (Callee edge)) t /\ w = typed_warning edge t) \/
     (MayThrow (summary_of E (Callee edge)) = true \/ surfaces IsAssignableTo IsAsync graph E (Callee edge)) /\
     (forall t, ~ escapes IsAssignableTo IsAsync graph E (Callee edge) (IsAsync (Callee edge)) t) /\
     w = untyped_warning edge).
Proof.
  unfold PropagateEffects; destruct (propagate_loop _ _ _ _ _) as [E1|] eqn:HE; [|discriminate]; intros [= <- <-].
  pose proof (loop_exact _ _ _ _ _ _ HE) as HX; rewrite report_spec.
  assert (HS : forall m t, t ∈ (if IsAsync m then AsyncThrownTypes (summary_of E1 m) else ThrownTypes (summary_of E1 m)) <->
    escapes IsAssignableTo IsAsync graph E m (IsAsync m) t).
  { intros m t; destruct (IsAsync m); [apply (exact_async _ _ _ _ _ _ (HX m))|apply (exact_thrown _ _ _ _ _ _ (HX m))]. }
  split; intros (m & edge & Hc & Hw); exists m, edge; (split; [exact Hc|]); rewrite report_edge_spec in *.
  - destruct Hw as [(t & Ht & ->)|(Ht & He & ->)]; [left; exists t|right].
    + apply uncaught_spec in Ht as (H1 & H2 & H3); rewrite HS in H2; auto.
    + split; [apply (exact_throw _ _ _ _ _ _ (HX (Callee edge))), Ht|]; split; [|reflexivity].
      intros t; rewrite <- HS, He; apply not_elem_of_empty.
  - destruct Hw as [(t & H1 & H2 & H3 & ->)|(Ht & He & ->)]; [left; exists t|right].
    + split; [apply uncaught_spec; rewrite HS; auto|reflexivity].
    + split; [apply (exact_throw _ _ _ _ _ _ (HX (Callee edge))), Ht|]; split; [|reflexivity].
      apply set_eq; intros t; rewrite HS; split; [intros H; destruct (He t H)|set_solver].
Qed.
End Spec.

Import Sample.

(** Twenty-eight passes are enough for the sample; three do. *)
Lemma effects_exact_witness : exists E',
  propagate_loop assignable is_async 28 graph start = Some E' /\
  escapes assignable is_async graph start 1%positive false 21%positive /\ ~ escapes assignable is_async graph start 1%positive false 20%positive.
Proof.
  destruct (effects_exact assignable is_async graph start 28) as (E' & HE & HX); [vm_compute; lia|].
  exists E'; split; [exact HE|]; destruct (HX 1%positive) as [H _ _ _ _ _ _ _]; rewrite <- !H.
  vm_compute in HE; injection HE as <-; vm_compute; split; [reflexivity|discriminate].
Defined.

Lemma effects_order_free_witness : exists E1 E2,
  propagate_loop assignable is_async 28 graph start = Some E1 /\
  propagate_loop assignable is_async 28 reordered start = Some E2 /\
  forall m, summary_of E1 m = summary_of E2 m.
Proof.
  eexists _, _; split; [vm_compute; reflexivity|]; split; [vm_compute; reflexivity|].
  eapply (effects_order_free assignable is_async graph reordered start 28 28); [|vm_compute; reflexivity|vm_compute; reflexivity].
  intros m edge; unfold calls, graph, reordered; split; intros (edges & H & He); exists edges; (split; [simpl in *|]); intuition.
Defined.

Lemma effect_warnings_exact_witness : exists E' warnings,
  PropagateEffects assignable is_async method_name type_name 28 graph start = Some (E', warnings) /\
  In (at_line 10, L "Await on 'Load' may throw 'FormatError'") warnings /\
  exists m edge, calls graph m edge /\ CallSite edge = at_line 10.
Proof.
  destruct (PropagateEffects assignable is_async method_name type_name 28 graph start) as [[E' ws]|] eqn:H;
    [|vm_compute in H; discriminate].
  exists E', ws; split; [reflexivity|].
  assert (Hin : In (at_line 10, L "Await on 'Load' may throw 'FormatError'") ws)
    by (vm_compute in H; injection H as <- <-; vm_compute; auto 10).
  split; [exact Hin|]; apply (effect_warnings_exact assignable is_async method_name type_name graph start 28 E' ws _ H) in Hin.
  destruct Hin as (m & edge & Hc & [(t & _ & _ & _ & Hw)|(_ & _ & Hw)]); exists m, edge; (split; [exact Hc|]);
    apply (f_equal fst) in Hw; symmetry; exact Hw.
Defined.
