(* ===== verification/Flow.v ===== *)
(** * Flow analysis of member bodies

    FlowAnalyzer.cpp, the part that visits the bodies of members: the flow state of
    a statement, the errors about unreachable code, missing returns and misplaced
    [break] and [continue], the effects recorded for each method and the edges of
    the call graph; and the visits of SyntaxVisitor.cpp it does not override.  What
    [PropagateEffects] makes of the effects is [Effects].

    A computation that answers [None] throws a [std::runtime_error].  The symbols
    earlier passes bound to the nodes, and the members of symbols the analysis
    reads, are the fields of [Bindings]; the nodes of one program differ in the
    locations of their tokens.  A visit of a type has no effect and is left out. *)
From Stdlib Require Import ZArith Lia Bool List String.
From stdpp Require Import base list gmap sets.
From S2P Require Import Prelude Tokens SyntaxTree Effects.
Import ListNotations.
Open Scope shard_scope.

Definition SymbolId := positive.
Definition VariableId := positive.
Definition PropertyId := positive.

(** ** What earlier passes bound *)
Record Bindings := mkBindings {
  LookupMethod : MethodDeclarationSyntax -> option MethodId;
  LookupOperator : OperatorDeclarationSyntax -> option MethodId;
  LookupAccessor : AccessorDeclarationSyntax -> option MethodId;
  LookupConstructor : ConstructorDeclarationSyntax -> option MethodId;
  LookupLambda : ExpressionSyntax -> option MethodId;
  (** [Table->LookupSymbol(node)], cast to a variable *)
  LookupVariable : StatementSyntax -> option VariableId;
  CatchVariable : CatchClauseSyntax -> option VariableId;
  TypeSymbolOf : TypeSyntax -> option TypeId;
  GetExpressionType : ExpressionSyntax -> option TypeId;
  IsStaticContext : ExpressionSyntax -> bool;
  ToField : ExpressionSyntax -> option FieldId;
  ToProperty : ExpressionSyntax -> option PropertyId;
  (** the name of [ToParameter] *)
  ToParameter : ExpressionSyntax -> option wstring;
  InvokedSymbol : ExpressionSyntax -> option MethodId;
  IsDelegateInvocation : ExpressionSyntax -> bool;
  CtorSymbol : ExpressionSyntax -> option MethodId;
  Setter : PropertyId -> option MethodId;
  IsAsync : MethodId -> bool;
  ReturnTypeOf : MethodId -> option TypeId;
  ParametersOf : MethodId -> list SymbolId;
  TypeParametersOf : MethodId -> list SymbolId;
  (** the method is an instance member of a type, directly or by its property *)
  HasThis : MethodId -> bool;
  (** the type a constructor constructs is known *)
  HasOwnerType : MethodId -> bool;
  MethodName : MethodId -> wstring;
  SymbolName : SymbolId -> wstring;
  (** [dynamic_cast<VariableSymbol*>] *)
  as_Variable : SymbolId -> option VariableId;
  VariableName : VariableId -> wstring;
  (** the scopes below those the analysis pushes *)
  TopScope : wstring -> option SymbolId;
  TypeName : TypeId -> wstring;
  TypeFullName : TypeId -> wstring;
  (** the [UnderlayingType] of a generic type *)
  GenericUnderlying : TypeId -> option TypeId;
  IsAssignableTo : TypeId -> TypeId -> bool;
  Any : TypeId;
  Void : TypeId }.

(** ** Flow states: sets of the ways a statement may end *)
Abbreviation FlowState := Z (only parsing).
Definition Returns : FlowState := 1.
Definition Breaks : FlowState := 2.
Definition Continues : FlowState := 4.
Definition Throws : FlowState := 8.
Definition Normal : FlowState := 16.

Definition flow_or (a b : FlowState) : FlowState := Z.lor a b.
Definition flow_and (a b : FlowState) : FlowState := Z.land a b.
(** [~] on the 32 bits of an [unsigned int], masked to the five flags *)
Definition flow_not (a : FlowState) : FlowState := Z.land (Z.lxor a 4294967295) 31.
Definition HasFlag (state flag : FlowState) : bool := negb (Z.eqb (flow_and state flag) 0).
Definition IsTerminal (state : FlowState) : bool := negb (HasFlag state Normal).
Definition MergeBranches (a b : FlowState) : FlowState := flow_or a b.

Definition WithoutBreaksAndContinues (state : FlowState) : FlowState :=
  let result := flow_and state (flow_not (flow_or Breaks Continues)) in
  if negb (HasFlag result Normal) && negb (HasFlag result Returns) && negb (HasFlag result Throws)
  then Normal else result.

Definition WithoutThrows (state : FlowState) : FlowState :=
  let result := flow_and state (flow_not Throws) in
  if negb (HasFlag result Normal) && negb (HasFlag result Returns) && negb (HasFlag result Breaks) &&
     negb (HasFlag result Continues)
  then Normal else result.

(** ** The state of the analyser *)
Inductive Severity := Error | Warning_.
Record FlowDiagnostic := mkDiagnostic { severity : Severity; at_token : SyntaxToken; message : wstring }.

Record TryCatchFrame := mkFrame { frame_CaughtTypes : gset TypeId; frame_CatchesAll : bool }.

(** A name of a scope: a symbol of the program, or the parameter [this] made for
    the scope. *)
Inductive ScopeSymbol := Declared (s : SymbolId) | ThisParameter.
#[export] Instance scope_symbol_dec : EqDecision ScopeSymbol.
Proof. solve_decision. Defined.
Abbreviation Scope := (gmap (list Z) ScopeSymbol) (only parsing).

(** The stacks are kept with their backs first. *)
Record FlowContext := mkContext {
  loopDepth : Z;
  switchDepth : Z;
  currentMethodIsAsync : bool;
  tryCatchStack : list TryCatchFrame;
  effectiveCaughtTypes : gset TypeId;
  catchAllDepth : Z;
  catchExceptionStack : list TypeId;
  scopeStack : list Scope }.

Record Analyzer := mkAnalyzer {
  context : FlowContext;
  currentMethod : option MethodId;
  assignedVariables : gset VariableId;
  Diagnostics : list FlowDiagnostic;
  EffectSummaries : Summaries;
  EffectsComputed : gset MethodId;
  callGraph : CallGraph }.

Definition no_context : FlowContext := mkContext 0 0 false [] ∅ 0 [] [].
(** [FlowAnalyzer(model, diagnostics)], over the summaries native methods start with. *)
Definition new_analyzer (summaries : Summaries) (computed : gset MethodId) : Analyzer :=
  mkAnalyzer no_context None ∅ [] summaries computed [].

Definition set_context f (a : Analyzer) : Analyzer :=
  mkAnalyzer (f (context a)) (currentMethod a) (assignedVariables a) (Diagnostics a) (EffectSummaries a)
    (EffectsComputed a) (callGraph a).
Definition set_currentMethod m (a : Analyzer) : Analyzer :=
  mkAnalyzer (context a) m (assignedVariables a) (Diagnostics a) (EffectSummaries a) (EffectsComputed a) (callGraph a).
Definition set_assigned f (a : Analyzer) : Analyzer :=
  mkAnalyzer (context a) (currentMethod a) (f (assignedVariables a)) (Diagnostics a) (EffectSummaries a)
    (EffectsComputed a) (callGraph a).
Definition add_diagnostic d (a : Analyzer) : Analyzer :=
  mkAnalyzer (context a) (currentMethod a) (assignedVariables a) (Diagnostics a ++ [d]) (EffectSummaries a)
    (EffectsComputed a) (callGraph a).
Definition set_summaries f (a : Analyzer) : Analyzer :=
  mkAnalyzer (context a) (currentMethod a) (assignedVariables a) (Diagnostics a) (f (EffectSummaries a))
    (EffectsComputed a) (callGraph a).
Definition set_computed f (a : Analyzer) : Analyzer :=
  mkAnalyzer (context a) (currentMethod a) (assignedVariables a) (Diagnostics a) (EffectSummaries a)
    (f (EffectsComputed a)) (callGraph a).
Definition set_graph f (a : Analyzer) : Analyzer :=
  mkAnalyzer (context a) (currentMethod a) (assignedVariables a) (Diagnostics a) (EffectSummaries a)
    (EffectsComputed a) (f (callGraph a)).

Definition set_depths loops switches (c : FlowContext) : FlowContext :=
  mkContext (loopDepth c + loops) (switchDepth c + switches) (currentMethodIsAsync c) (tryCatchStack c)
    (effectiveCaughtTypes c) (catchAllDepth c) (catchExceptionStack c) (scopeStack c).
Definition set_async async (c : FlowContext) : FlowContext :=
  mkContext (loopDepth c) (switchDepth c) async (tryCatchStack c) (effectiveCaughtTypes c) (catchAllDepth c)
    (catchExceptionStack c) (scopeStack c).
Definition set_catches stack (c : FlowContext) : FlowContext :=
  mkContext (loopDepth c) (switchDepth c) (currentMethodIsAsync c) (tryCatchStack c) (effectiveCaughtTypes c)
    (catchAllDepth c) stack (scopeStack c).
Definition set_scopes stack (c : FlowContext) : FlowContext :=
  mkContext (loopDepth c) (switchDepth c) (currentMethodIsAsync c) (tryCatchStack c) (effectiveCaughtTypes c)
    (catchAllDepth c) (catchExceptionStack c) stack.

(** [RebuildEffectiveCaughtTypes] *)
Definition caught_types (stack : list TryCatchFrame) : gset TypeId :=
  fold_right (fun frame types => if frame_CatchesAll frame then types else frame_CaughtTypes frame ∪ types) ∅ stack.
Definition catch_all_depth (stack : list TryCatchFrame) : Z :=
  fold_right (fun frame depth => if frame_CatchesAll frame then 1 + depth else depth)%Z 0%Z stack.
Definition RebuildEffectiveCaughtTypes (stack : list TryCatchFrame) (c : FlowContext) : FlowContext :=
  mkContext (loopDepth c) (switchDepth c) (currentMethodIsAsync c) stack (caught_types stack) (catch_all_depth stack)
    (catchExceptionStack c) (scopeStack c).

Abbreviation M := (ST Analyzer) (only parsing).
Definition runtime_error {A} : M A := fun _ => None.
Definition ReportError (token : SyntaxToken) (message : wstring) : M unit :=
  modify (add_diagnostic (mkDiagnostic Error token message)).
Definition ReportWarning (token : SyntaxToken) (message : wstring) : M unit :=
  modify (add_diagnostic (mkDiagnostic Warning_ token message)).

Definition when (b : bool) (m : M unit) : M unit := if b then m else ret tt.
Definition visit_opt {A} (visit : A -> M unit) (o : option A) : M unit :=
  match o with Some a => visit a | None => ret tt end.
Definition visit_all {A} (visit : A -> M unit) : list A -> M unit :=
  fix go l := match l with [] => ret tt | a :: l => visit a ;;; go l end.

(** [StatementSyntax::SemicolonToken]; the statements without one of their own leave
    it as it was constructed. *)
Definition statement_SemicolonToken (s : StatementSyntax) : SyntaxToken :=
  match s with
  | ExpressionStatementSyntax t _ | VariableStatementSyntax t _ _ _ _ | ReturnStatementSyntax t _ _
  | ThrowStatementSyntax t _ _ | BreakStatementSyntax t _ | ContinueStatementSyntax t _ | DeferStatementSyntax t _ _
  | WhileStatementSyntax t _ _ _ _ _ | UntilStatementSyntax t _ _ _ _ _ | ForStatementSyntax t _ _ _ _ _ _ _ _ _ => t
  | _ => default_token
  end.
Definition block_Statements (b : StatementsBlockSyntax) : list StatementSyntax :=
  match b with StatementsBlock _ _ _ statements _ _ => statements end.
Definition block_CloseBraceToken (b : StatementsBlockSyntax) : SyntaxToken :=
  match b with StatementsBlock _ c _ _ _ _ => c end.

Section Analysis.
Context (B : Bindings).

(** ** Try, catch and scope contexts *)
Fixpoint frame_of (clauses : list CatchClauseSyntax) (frame : TryCatchFrame) : TryCatchFrame :=
  match clauses with
  | [] => frame
  | CatchClause _ _ _ _ _ ExceptionType _ :: clauses =>
      match ExceptionType with
      | None => mkFrame (frame_CaughtTypes frame) true
      | Some ty =>
          match TypeSymbolOf B ty with
          | Some catchType => frame_of clauses (mkFrame ({[catchType]} ∪ frame_CaughtTypes frame) (frame_CatchesAll frame))
          | None => frame_of clauses frame
          end
      end
  end.

Definition PushTryCatch (clauses : list CatchClauseSyntax) : M unit :=
  modify (set_context (fun c => RebuildEffectiveCaughtTypes (frame_of clauses (mkFrame ∅ false) :: tryCatchStack c) c)).

Definition PopTryCatch : M unit :=
  modify (set_context (fun c =>
    match tryCatchStack c with
    | [] => c
    | _ :: stack => RebuildEffectiveCaughtTypes stack c
    end)).

Definition IsCaughtByActiveTry (c : FlowContext) (thrownType : TypeId) : bool :=
  if (0 <? catchAllDepth c)%Z then true
  else existsb (fun catchType => IsAssignableTo B catchType thrownType) (elements (effectiveCaughtTypes c)).

Definition PushCatchException (type : TypeId) : M unit :=
  modify (set_context (fun c => set_catches (type :: catchExceptionStack c) c)).
Definition PopCatchException : M unit :=
  modify (set_context (fun c => set_catches (tail (catchExceptionStack c)) c)).
Definition CurrentCatchExceptionType (c : FlowContext) : option TypeId := head (catchExceptionStack c).

Definition PushScope : M unit := modify (set_context (fun c => set_scopes (∅ :: scopeStack c) c)).
Definition PopScope : M unit := modify (set_context (fun c => set_scopes (tail (scopeStack c)) c)).

Definition name_of (s : ScopeSymbol) : wstring :=
  match s with Declared s => SymbolName B s | ThisParameter => L "this" end.

(** [SemanticScope::DeclareSymbol] of [CurrentScope()]: a symbol made for [this] is new. *)
Definition DeclareSymbol (symbol : ScopeSymbol) : M unit :=
  a <- get ;;
  match scopeStack (context a) with
  | [] => runtime_error
  | scope :: scopes =>
      if decide (scope !! name_of symbol = Some symbol /\ symbol <> ThisParameter) then runtime_error
      else modify (set_context (set_scopes (<[name_of symbol := symbol]> scope :: scopes)))
  end.

(** [SemanticScope::Lookup] *)
Fixpoint Lookup (scopes : list Scope) (name : wstring) : option ScopeSymbol :=
  match scopes with
  | [] => option_map Declared (TopScope B name)
  | scope :: scopes =>
      match scope !! name with Some symbol => Some symbol | None => Lookup scopes name end
  end.
Definition LookupVariableSymbol (scopes : list Scope) (name : wstring) : option VariableId :=
  match Lookup scopes name with
  | Some (Declared symbol) => as_Variable B symbol
  | _ => None
  end.

(** ** Definite assignment *)
Definition MarkAssigned (variable : VariableId) : M unit := modify (set_assigned (fun vs => {[variable]} ∪ vs)).
Definition IsAssigned (variable : VariableId) (a : Analyzer) : bool := bool_decide (variable ∈ assignedVariables a).

Definition AnalyzeExpressionForAssignment (expression : ExpressionSyntax) : M unit :=
  match expression with
  | BinaryExpressionSyntax OperatorToken (Some (MemberAccessExpressionSyntax _ IdentifierToken None)) _ =>
      a <- get ;;
      when (Type_ OperatorToken =tt TokenType.AssignOperator)
        (visit_opt MarkAssigned (LookupVariableSymbol (scopeStack (context a)) (Word IdentifierToken)))
  | _ => ret tt
  end.

Fixpoint AnalyzeExpressionForUse (expression : ExpressionSyntax) : M unit :=
  match expression with
  | MemberAccessExpressionSyntax _ IdentifierToken None =>
      a <- get ;;
      visit_opt (fun variable => when (negb (IsAssigned variable a))
          (ReportError IdentifierToken (L "Use of unassigned local variable '" ++ VariableName B variable ++ L "'")))
        (LookupVariableSymbol (scopeStack (context a)) (Word IdentifierToken))
  | BinaryExpressionSyntax _ Left Right =>
      visit_opt AnalyzeExpressionForUse Left ;;;
      visit_opt AnalyzeExpressionForUse Right
  | _ => ret tt
  end.

(** [node] is the statement, [expression] its [Expression]. *)
Definition VisitVariableStatement (node : StatementSyntax) (expression : option ExpressionSyntax) : M unit :=
  match LookupVariable B node, expression with
  | Some variable, Some expression => AnalyzeExpressionForUse expression ;;; MarkAssigned variable
  | _, _ => ret tt
  end.

(** ** Effects of the current method *)
Definition EnterMemberBody (method : MethodId) : M unit :=
  modify (set_currentMethod (Some method)) ;;; modify (set_computed (fun ms => ms ∖ {[method]})).
Definition LeaveMemberBody (method : MethodId) : M unit :=
  modify (set_computed (fun ms => {[method]} ∪ ms)) ;;; modify (set_currentMethod None).

Definition IsAssignmentOperator (type : TokenType) : bool :=
  match type with
  | TokenType.AssignOperator | TokenType.AddAssignOperator | TokenType.SubAssignOperator
  | TokenType.MultAssignOperator | TokenType.DivAssignOperator | TokenType.ModAssignOperator
  | TokenType.PowAssignOperator | TokenType.OrAssignOperator | TokenType.AndAssignOperator => true
  | _ => false
  end.
Definition IsIncrementDecrementOperator (type : TokenType) : bool :=
  (type =tt TokenType.IncrementOperator) || (type =tt TokenType.DecrementOperator).

Definition IsThisExpression (expression : ExpressionSyntax) : bool :=
  match expression with
  | MemberAccessExpressionSyntax _ _ None =>
      match ToParameter B expression with Some name => name =w L "this" | None => false end
  | _ => false
  end.

(** An update of the summary of [_currentMethod], when there is one. *)
Definition on_current (f : MethodEffectSummary -> MethodEffectSummary) : M unit :=
  a <- get ;; visit_opt (fun method => modify (set_summaries (on_summary method f))) (currentMethod a).

Definition set_MutatesInstance s := with_flags true (MutatesStatic s) (MutatesArguments s) (HasUnknownSideEffects s) s.
Definition set_MutatesStatic s := with_flags (MutatesInstance s) true (MutatesArguments s) (HasUnknownSideEffects s) s.
Definition set_HasUnknownSideEffects s := with_flags (MutatesInstance s) (MutatesStatic s) (MutatesArguments s) true s.

(** [_callGraph[caller].push_back(edge)] *)
Fixpoint push_edge (caller : MethodId) (edge : CallEdge) (graph : CallGraph) : CallGraph :=
  match graph with
  | [] => [(caller, [edge])]
  | (m, edges) :: graph =>
      if decide (m = caller) then (m, edges ++ [edge]) :: graph else (m, edges) :: push_edge caller edge graph
  end.

Definition RecordCalleeEffects (callee : MethodId) (callSite : SyntaxToken) (isAwaited : bool) : M unit :=
  a <- get ;;
  visit_opt (fun caller =>
      modify (set_graph (push_edge caller (mkEdge callee callSite (effectiveCaughtTypes (context a))
        (0 <? catchAllDepth (context a))%Z isAwaited)))) (currentMethod a).

Definition IsThisReceiver (node : ExpressionSyntax) (previous : option ExpressionSyntax) : bool :=
  negb (IsStaticContext B node) && match previous with None => true | Some e => IsThisExpression e end.

Definition RecordSetter (node : ExpressionSyntax) (IdentifierToken : SyntaxToken) : M unit :=
  visit_opt (fun property => visit_opt (fun setter => RecordCalleeEffects setter IdentifierToken false) (Setter B property))
    (ToProperty B node).

(** Of the [MemberAccessExpressionSyntax] [node]. *)
Definition RecordFieldOrPropertyWrite (node : ExpressionSyntax) (IdentifierToken : SyntaxToken)
    (previous : option ExpressionSyntax) : M unit :=
  match ToField B node with
  | Some field =>
      if IsStaticContext B node then
        on_current (fun s => with_fields (MayAssignInstanceFields s) ({[field]} ∪ MayAssignStaticFields s) (set_MutatesStatic s))
      else when (IsThisReceiver node previous)
        (on_current (fun s => with_fields ({[field]} ∪ MayAssignInstanceFields s) (MayAssignStaticFields s) (set_MutatesInstance s)))
  | None =>
      match ToProperty B node with
      | Some _ =>
          (if IsStaticContext B node then on_current set_MutatesStatic
           else when (IsThisReceiver node previous) (on_current set_MutatesInstance)) ;;;
          RecordSetter node IdentifierToken
      | None => ret tt
      end
  end.

(** Of the [IndexatorExpressionSyntax] [node]. *)
Definition RecordIndexatorWrite (node : ExpressionSyntax) (IdentifierToken : SyntaxToken)
    (previous : option ExpressionSyntax) : M unit :=
  (if IsStaticContext B node then on_current set_MutatesStatic
   else when (IsThisReceiver node previous) (on_current set_MutatesInstance)) ;;;
  RecordSetter node IdentifierToken.

(** The write a [BinaryExpression] or [UnaryExpression] makes to its operand. *)
Definition RecordWrite (operand : ExpressionSyntax) : M unit :=
  match operand with
  | MemberAccessExpressionSyntax _ IdentifierToken previous => RecordFieldOrPropertyWrite operand IdentifierToken previous
  | IndexatorExpressionSyntax _ IdentifierToken previous _ => RecordIndexatorWrite operand IdentifierToken previous
  | _ => ret tt
  end.

Definition IsTaskOrTaskLike (type : TypeId) : bool :=
  (TypeFullName B type =w L "async.Task") ||
  match GenericUnderlying B type with Some u => TypeFullName B u =w L "async.ValueTask" | None => false end.

(** The parts of [VisitInvocationExpression] and [VisitAwaitExpression] before the visit
    of the operands. *)
Definition RecordInvocation (node : ExpressionSyntax) (IdentifierToken : SyntaxToken) : M unit :=
  match InvokedSymbol B node with
  | Some callee =>
      if negb (IsDelegateInvocation B node) then when (negb (IsAsync B callee)) (RecordCalleeEffects callee IdentifierToken false)
      else on_current set_HasUnknownSideEffects
  | None => on_current set_HasUnknownSideEffects
  end.

Definition RecordAwait (awaited : ExpressionSyntax) : M unit :=
  match awaited with
  | InvokationExpressionSyntax _ IdentifierToken _ _ _ =>
      visit_opt (fun callee => when (IsAsync B callee) (RecordCalleeEffects callee IdentifierToken true)) (InvokedSymbol B awaited)
  | _ =>
      visit_opt (fun awaitedType => when (IsTaskOrTaskLike awaitedType) (on_current (with_MayThrow true)))
        (GetExpressionType B awaited)
  end.

(** The part of the [ThrowStatement] case after the visit of the operand. *)
Definition RecordThrow (expression : option ExpressionSyntax) : M unit :=
  on_current (with_MayThrow true) ;;;
  a <- get ;;
  let thrownType := default (Any B)
    (match expression with
     | Some e => GetExpressionType B e
     | None => CurrentCatchExceptionType (context a)
     end) in
  when (negb (IsCaughtByActiveTry (context a) thrownType))
    (on_current (fun s =>
      if currentMethodIsAsync (context a) then with_thrown (ThrownTypes s) ({[thrownType]} ∪ AsyncThrownTypes s) s
      else with_thrown ({[thrownType]} ∪ ThrownTypes s) (AsyncThrownTypes s) s)).
End Analysis.
