(* ===== verification/FlowVisit.v ===== *)
(** * Flow analysis: the visits

    The recursion of FlowAnalyzer.cpp and SyntaxVisitor.cpp over expressions,
    statements and declarations, and [FlowAnalyzer::Analyze].  A visit that recurs
    is written over the function that visits the parts of its node; an if, unless
    or else clause that follows another is analysed by [AnalyzeStatement], which
    hands it to [AnalyzeConditionalChain]. *)
From Stdlib Require Import ZArith Lia Bool List String.
From stdpp Require Import base list gmap sets.
From S2P Require Import Prelude Tokens SyntaxTree Effects Flow.
Import ListNotations.
Open Scope shard_scope.
Abbreviation M := (ST Analyzer) (only parsing).

(** [before], [m] and [after]: a change of the context and what undoes it around [m];
    and [m] with the assigned variables restored afterwards. *)
Definition bracket {A} (before after : M unit) (m : M A) : M A := before ;;; x <- m ;; after ;;; ret x.
Definition restoring_assigned {A} (m : M A) : M A :=
  saved <- get ;; x <- m ;; modify (set_assigned (fun _ => assignedVariables saved)) ;;; ret x.

Section Visits.
Context (B : Bindings).

(** ** Blocks *)
Definition AnalyzeStatements (AnalyzeStatement : StatementSyntax -> M FlowState) :=
  fix go (statements : list StatementSyntax) (combined : FlowState) : M FlowState :=
    match statements with
    | [] => ret combined
    | statement :: statements =>
        if IsTerminal combined then
          a <- get ;;
          when (negb (currentMethodIsAsync (context a)))
            (ReportError (statement_SemicolonToken statement) (L "Unreachable code detected")) ;;;
          ret combined
        else
          state <- AnalyzeStatement statement ;;
          go statements state
    end.

(** ** Conditional branches *)
Definition AnalyzeConditionalClause (ScanStatement : StatementSyntax -> M unit)
    (AnalyzeBlock : StatementsBlockSyntax -> M FlowState) (AnalyzeNext : StatementSyntax -> M FlowState)
    (ConditionExpression : option StatementSyntax) (StatementsBlock : StatementsBlockSyntax)
    (NextStatement : option StatementSyntax) : M FlowState :=
  visit_opt ScanStatement ConditionExpression ;;;
  thenState <- AnalyzeBlock StatementsBlock ;;
  elseState <- match NextStatement with Some next => AnalyzeNext next | None => ret Normal end ;;
  ret (MergeBranches thenState elseState).

(** ** Switch *)
Definition AnalyzeSwitchClauses (VisitExpression : ExpressionSyntax -> M unit)
    (AnalyzeBlock : StatementsBlockSyntax -> M FlowState) :=
  fix go (clauses : list SwitchCaseClauseSyntax) (combined : FlowState) (hasCases : bool) : M (FlowState * bool) :=
    match clauses with
    | [] => ret (combined, hasCases)
    | SwitchCaseClause _ _ Pattern Body :: clauses =>
        visit_opt VisitExpression Pattern ;;;
        bodyState <- AnalyzeBlock Body ;;
        let caseState := WithoutBreaksAndContinues bodyState in
        go clauses (if hasCases then MergeBranches combined caseState else caseState) true
    end.

Definition AnalyzeSwitch (VisitExpression : ExpressionSyntax -> M unit)
    (AnalyzeBlock : StatementsBlockSyntax -> M FlowState) (Expression : option ExpressionSyntax)
    (Clauses : list SwitchCaseClauseSyntax) : M FlowState :=
  visit_opt VisitExpression Expression ;;;
  result <- bracket (modify (set_context (set_depths 0 1))) (modify (set_context (set_depths 0 (-1))))
    (restoring_assigned (AnalyzeSwitchClauses VisitExpression AnalyzeBlock Clauses Normal false)) ;;
  ret (if snd result then fst result else Normal).

(** ** Try and catch *)
Definition AnalyzeCatchClauses (AnalyzeBlock : StatementsBlockSyntax -> M FlowState) :=
  fix go (clauses : list CatchClauseSyntax) (catchState : FlowState) (firstCatch : bool) : M FlowState :=
    match clauses with
    | [] => ret catchState
    | CatchClause k o i c p ExceptionType Body :: clauses =>
        visit_opt MarkAssigned (CatchVariable B (CatchClause k o i c p ExceptionType Body)) ;;;
        clauseState <- bracket
          (PushCatchException (match ExceptionType with Some ty => default (Any B) (TypeSymbolOf B ty) | None => Any B end))
          PopCatchException (AnalyzeBlock Body) ;;
        go clauses (if firstCatch then clauseState else MergeBranches catchState clauseState) false
    end.

Definition AnalyzeTry (AnalyzeBlock : StatementsBlockSyntax -> M FlowState) (TryBlock : StatementsBlockSyntax)
    (CatchClauses : list CatchClauseSyntax) : M FlowState :=
  match CatchClauses with
  | [] => AnalyzeBlock TryBlock
  | _ =>
      tryState <- bracket (PushTryCatch B CatchClauses) PopTryCatch (AnalyzeBlock TryBlock) ;;
      catchState <- AnalyzeCatchClauses AnalyzeBlock CatchClauses Normal true ;;
      ret (MergeBranches (WithoutThrows tryState) catchState)
  end.

(** ** Loops *)
Definition AnalyzeLoopBody (AnalyzeBlock : StatementsBlockSyntax -> M FlowState) (body : StatementsBlockSyntax) : M FlowState :=
  bracket (modify (set_context (set_depths 1 0))) (modify (set_context (set_depths (-1) 0)))
    (restoring_assigned (AnalyzeBlock body)) ;;;
  ret Normal.

(** [VisitWhileStatement], [VisitUntilStatement], [VisitForEachStatement] and
    [VisitForInStatement], over the condition or the range. *)
Definition VisitLoop (VisitExpression : ExpressionSyntax -> M unit) (AnalyzeBlock : StatementsBlockSyntax -> M FlowState)
    (expression : option ExpressionSyntax) (body : StatementsBlockSyntax) : M unit :=
  visit_opt VisitExpression expression ;;; AnalyzeLoopBody AnalyzeBlock body ;;; ret tt.

Definition VisitForStatement (VisitExpression : ExpressionSyntax -> M unit) (AnalyzeStatement : StatementSyntax -> M FlowState)
    (AnalyzeBlock : StatementsBlockSyntax -> M FlowState) (InitializerStatement : option StatementSyntax)
    (ConditionExpression : option ExpressionSyntax) (AfterRepeatStatement : option StatementSyntax)
    (body : StatementsBlockSyntax) : M unit :=
  visit_opt (fun s => AnalyzeStatement s ;;; ret tt) InitializerStatement ;;;
  visit_opt VisitExpression ConditionExpression ;;;
  AnalyzeLoopBody AnalyzeBlock body ;;;
  visit_opt (fun s => AnalyzeStatement s ;;; ret tt) AfterRepeatStatement.

(** ** Bodies *)
Definition ReportMissingReturn (token : SyntaxToken) (returnType : TypeId) : M unit :=
  ReportError token (L "Method must return a value of type '" ++ TypeName B returnType ++ L "'").

(** Where a missing return is reported. *)
Definition missing_return_token (body : StatementsBlockSyntax) (errorToken : SyntaxToken) : SyntaxToken :=
  if Type_ (block_CloseBraceToken body) =tt TokenType.CloseBrace then block_CloseBraceToken body
  else match last (block_Statements body) with
       | Some statement =>
           if Type_ (statement_SemicolonToken statement) =tt TokenType.Semicolon then statement_SemicolonToken statement
           else errorToken
       | None => errorToken
       end.

(** The body must end in a return or a throw. *)
Definition must_return (method : MethodId) : option TypeId :=
  if IsAsync B method then None
  else match ReturnTypeOf B method with
       | Some returnType => if decide (returnType = Void B) then None else Some returnType
       | None => None
       end.

Definition AnalyzeMemberBody (AnalyzeBlock : StatementsBlockSyntax -> M FlowState) (method : MethodId)
    (body : StatementsBlockSyntax) (errorToken : SyntaxToken) : M unit :=
  a <- get ;;
  bodyState <- bracket (modify (set_context (set_async (IsAsync B method))))
    (modify (set_context (set_async (currentMethodIsAsync (context a))))) (AnalyzeBlock body) ;;
  visit_opt (fun returnType =>
      let alwaysTerminates := negb (HasFlag bodyState Normal) in
      let onlyReturnOrThrow := negb (HasFlag bodyState Breaks) && negb (HasFlag bodyState Continues) in
      when (negb alwaysTerminates || negb onlyReturnOrThrow)
        (ReportMissingReturn (missing_return_token body errorToken) returnType))
    (must_return method).

Definition declare_parameter (parameter : SymbolId) : M unit :=
  DeclareSymbol B (Declared parameter) ;;; visit_opt MarkAssigned (as_Variable B parameter).

(** The body of a member or lambda between [EnterMemberBody] and [LeaveMemberBody]. *)
Definition within_member (method : MethodId) (typeParameters : list SymbolId) (hasThis : bool) (analyze : M unit) : M unit :=
  EnterMemberBody method ;;;
  bracket PushScope PopScope
    (visit_all (fun typeParam => DeclareSymbol B (Declared typeParam)) typeParameters ;;;
     when hasThis (DeclareSymbol B ThisParameter) ;;;
     visit_all declare_parameter (ParametersOf B method) ;;;
     analyze) ;;;
  LeaveMemberBody method.

(** [VisitLambdaExpression], for a node that is bound to a method. *)
Definition VisitLambda (AnalyzeBlock : StatementsBlockSyntax -> M FlowState) (node : ExpressionSyntax)
    (LambdaToken : SyntaxToken) (body : StatementsBlockSyntax) : M unit :=
  visit_opt (fun method => within_member method [] false (AnalyzeMemberBody AnalyzeBlock method body LambdaToken))
    (LookupLambda B node).

(** ** The recursion *)
Fixpoint VisitExpression (node : ExpressionSyntax) : M unit :=
  match node with
  | LiteralExpressionSyntax _ | TypeExpressionSyntax _ | IsPatternSyntax _ _ _ | MemberAccessExpressionSyntax _ _ _ => ret tt
  | UnaryExpressionSyntax OperatorToken _ Expression =>
      visit_opt (fun operand => when (IsIncrementDecrementOperator (Type_ OperatorToken)) (RecordWrite B operand)) Expression ;;;
      visit_opt VisitExpression Expression
  | BinaryExpressionSyntax OperatorToken Left Right =>
      visit_opt (fun left => when (IsAssignmentOperator (Type_ OperatorToken)) (RecordWrite B left)) Left ;;;
      visit_opt VisitExpression Left ;;;
      visit_opt VisitExpression Right
  | RangeExpressionSyntax _ _ Left Right => visit_opt VisitExpression Left ;;; visit_opt VisitExpression Right
  | CastExpressionSyntax _ Expression _ | IsExpressionSyntax _ Expression _ => visit_opt VisitExpression Expression
  | AwaitExpressionSyntax _ Expression => visit_opt (RecordAwait B) Expression ;;; visit_opt VisitExpression Expression
  | ObjectExpressionSyntax NewToken _ _ ArraySize ArgumentsList_ =>
      visit_opt (fun ctor => RecordCalleeEffects ctor NewToken false) (CtorSymbol B node) ;;;
      visit_opt VisitExpression ArraySize ;;;
      visit_opt VisitArgumentsList ArgumentsList_
  | TernaryExpressionSyntax _ _ Condition Left Right =>
      visit_opt VisitExpression Condition ;;; visit_opt VisitExpression Left ;;; visit_opt VisitExpression Right
  | CollectionExpressionSyntax _ _ ValuesExpressions => visit_all (visit_opt VisitExpression) ValuesExpressions
  | LambdaExpressionSyntax LambdaToken _ _ _ _ _ Body => VisitLambda AnalyzeStatementsBlock node LambdaToken Body
  | IfExpressionSyntax _ _ Condition ThenExpression ElseExpression =>
      visit_opt VisitExpression Condition ;;;
      visit_opt VisitExpression ThenExpression ;;;
      visit_opt VisitExpression ElseExpression
  | SwitchExpressionSyntax _ _ _ Expression Arms =>
      visit_opt VisitExpression Expression ;;; visit_all VisitSwitchArm Arms
  | IndexatorExpressionSyntax _ _ _ IndexatorList_ => VisitArgumentsList IndexatorList_
  | InvokationExpressionSyntax _ IdentifierToken _ _ ArgumentsList_ =>
      RecordInvocation B node IdentifierToken ;;;
      visit_opt VisitArgumentsList ArgumentsList_
  end
with VisitSwitchArm (arm : SwitchArmSyntax) : M unit :=
  match arm with
  | SwitchArm _ Pattern Expression => visit_opt VisitExpression Pattern ;;; visit_opt VisitExpression Expression
  end
with VisitArgument (argument : ArgumentSyntax) : M unit :=
  match argument with Argument Expression => visit_opt VisitExpression Expression end
with VisitArgumentsList (arguments : ArgumentsListSyntax) : M unit :=
  match arguments with ArgumentsList _ _ Arguments_ => visit_all VisitArgument Arguments_ end

(** [SyntaxVisitor::VisitStatement]: the statements [FlowAnalyzer] overrides the visit
    of with nothing, a deferred statement and the plain jumps are not visited, and an
    else clause is no statement. *)
with ScanStatement (statement : StatementSyntax) : M unit :=
  match statement with
  | ExpressionStatementSyntax _ Expression | ReturnStatementSyntax _ _ Expression
  | ThrowStatementSyntax _ _ Expression => visit_opt VisitExpression Expression
  | VariableStatementSyntax _ _ _ _ Expression => VisitVariableStatement B statement Expression
  | BreakStatementSyntax _ _ | ContinueStatementSyntax _ _ | DeferStatementSyntax _ _ _ => ret tt
  | WhileStatementSyntax _ _ _ _ e body | UntilStatementSyntax _ _ _ _ e body
  | ForEachStatementSyntax _ _ _ e body | ForInStatementSyntax _ _ _ e body =>
      VisitLoop VisitExpression AnalyzeStatementsBlock e body
  | ForStatementSyntax _ _ _ _ _ _ InitializerStatement e AfterRepeatStatement body =>
      VisitForStatement VisitExpression AnalyzeStatement AnalyzeStatementsBlock InitializerStatement e AfterRepeatStatement body
  | IfStatementSyntax _ _ _ _ _ _ | UnlessStatementSyntax _ _ _ _ _ _ | TryStatementSyntax _ _ _
  | SwitchStatementSyntax _ _ _ _ _ _ _ => ret tt
  | ElseStatementSyntax _ _ => runtime_error
  end
with AnalyzeStatement (statement : StatementSyntax) : M FlowState :=
  match statement with
  | ExpressionStatementSyntax _ Expression =>
      visit_opt (fun e => AnalyzeExpressionForAssignment B e ;;; AnalyzeExpressionForUse B e) Expression ;;;
      visit_opt VisitExpression Expression ;;;
      ret Normal
  | VariableStatementSyntax _ _ _ _ Expression =>
      visit_opt VisitExpression Expression ;;;
      VisitVariableStatement B statement Expression ;;;
      ret Normal
  | BreakStatementSyntax _ KeywordToken =>
      a <- get ;;
      when ((loopDepth (context a) =? 0)%Z && (switchDepth (context a) =? 0)%Z)
        (ReportError KeywordToken (L "Break statement must be inside a loop or switch")) ;;;
      ret Breaks
  | ContinueStatementSyntax _ KeywordToken =>
      a <- get ;;
      when (loopDepth (context a) =? 0)%Z (ReportError KeywordToken (L "Continue statement must be inside a loop")) ;;;
      ret Continues
  | DeferStatementSyntax _ _ Statement =>
      visit_opt (fun s => AnalyzeStatement s ;;; ret tt) Statement ;;;
      ret Normal
  | WhileStatementSyntax _ _ _ _ e body | UntilStatementSyntax _ _ _ _ e body
  | ForEachStatementSyntax _ _ _ e body | ForInStatementSyntax _ _ _ e body =>
      VisitLoop VisitExpression AnalyzeStatementsBlock e body ;;; ret Normal
  | ForStatementSyntax _ _ _ _ _ _ InitializerStatement e AfterRepeatStatement body =>
      VisitForStatement VisitExpression AnalyzeStatement AnalyzeStatementsBlock InitializerStatement e AfterRepeatStatement body ;;;
      ret Normal
  | IfStatementSyntax _ _ _ condition body next | UnlessStatementSyntax _ _ _ condition body next =>
      AnalyzeConditionalClause ScanStatement AnalyzeStatementsBlock AnalyzeStatement condition body next
  | ElseStatementSyntax _ body => AnalyzeStatementsBlock body
  | SwitchStatementSyntax _ _ _ _ _ Expression Clauses =>
      AnalyzeSwitch VisitExpression AnalyzeStatementsBlock Expression Clauses
  | TryStatementSyntax _ TryBlock CatchClauses => AnalyzeTry AnalyzeStatementsBlock TryBlock CatchClauses
  | ReturnStatementSyntax _ _ Expression => visit_opt VisitExpression Expression ;;; ret Returns
  | ThrowStatementSyntax _ _ Expression =>
      visit_opt VisitExpression Expression ;;;
      RecordThrow B Expression ;;;
      ret Throws
  end
with AnalyzeStatementsBlock (block : StatementsBlockSyntax) : M FlowState :=
  match block with
  | StatementsBlock _ _ _ statements _ _ => AnalyzeStatements AnalyzeStatement statements Normal
  end.

(** ** Declarations *)
Definition VisitMethodDeclaration (node : MethodDeclarationSyntax) : M unit :=
  match method_Body node, LookupMethod B node with
  | Some body, Some method =>
      within_member method (TypeParametersOf B method) (HasThis B method)
        (AnalyzeMemberBody AnalyzeStatementsBlock method body (IdentifierToken (method_base node)))
  | _, _ => ret tt
  end.

Definition VisitOperatorDeclaration (node : OperatorDeclarationSyntax) : M unit :=
  match op_Body node, LookupOperator B node with
  | Some body, Some method =>
      within_member method [] (HasThis B method)
        (AnalyzeMemberBody AnalyzeStatementsBlock method body (op_OperatorToken node))
  | _, _ => ret tt
  end.

Definition VisitAccessorDeclaration (node : AccessorDeclarationSyntax) : M unit :=
  match acc_Body node, LookupAccessor B node with
  | Some body, Some method =>
      within_member method [] (HasThis B method)
        (if Type_ (acc_KeywordToken node) =tt TokenType.GetKeyword
         then AnalyzeMemberBody AnalyzeStatementsBlock method body (acc_KeywordToken node)
         else AnalyzeStatementsBlock body ;;; ret tt)
  | _, _ => ret tt
  end.

Definition VisitConstructorDeclaration (node : ConstructorDeclarationSyntax) : M unit :=
  match ctor_Body node, LookupConstructor B node with
  | Some body, Some method =>
      within_member method [] (HasOwnerType B method) (AnalyzeStatementsBlock body ;;; ret tt)
  | _, _ => ret tt
  end.

Fixpoint VisitMemberDeclaration (node : MemberDeclarationSyntax) : M unit :=
  match node with
  | ClassDeclarationSyntax (mkTypeDeclaration _ _ _ _ members)
  | StructDeclarationSyntax (mkTypeDeclaration _ _ _ _ members)
  | InterfaceDeclarationSyntax (mkTypeDeclaration _ _ _ _ members) => visit_all VisitMemberDeclaration members
  | DelegateDeclaration _ => ret tt
  | EnumDeclaration d => visit_all (fun field => visit_opt VisitExpression (field_InitializerExpression field)) (enum_Fields d)
  | ConstructorDeclaration d => VisitConstructorDeclaration d
  | MethodDeclaration d => VisitMethodDeclaration d
  | OperatorDeclaration d => VisitOperatorDeclaration d
  | FieldDeclaration d => visit_opt VisitExpression (fld_InitializerExpression d)
  | PropertyDeclaration d =>
      visit_opt VisitAccessorDeclaration (prop_Getter d) ;;;
      visit_opt VisitAccessorDeclaration (prop_Setter d) ;;;
      visit_opt VisitExpression (prop_InitializerExpression d)
  | IndexatorDeclaration d =>
      visit_opt VisitAccessorDeclaration (idx_Getter d) ;;; visit_opt VisitAccessorDeclaration (idx_Setter d)
  end.

Definition VisitCompilationUnit (node : CompilationUnitSyntax) : M unit := visit_all VisitMemberDeclaration (Members node).
Definition VisitSyntaxTree (units : list CompilationUnitSyntax) : M unit := visit_all VisitCompilationUnit units.

(** [FlowAnalyzer::Analyze]; [fuel] bounds the passes of [PropagateEffects]. *)
Definition Analyze (fuel : nat) (units : list CompilationUnitSyntax) : M unit :=
  VisitSyntaxTree units ;;;
  a <- get ;;
  match PropagateEffects (IsAssignableTo B) (IsAsync B) (MethodName B) (TypeName B) fuel (callGraph a) (EffectSummaries a) with
  | Some (summaries, warnings) =>
      modify (set_summaries (fun _ => summaries)) ;;;
      modify (set_computed (fun ms => list_to_set (map fst (callGraph a)) ∪ ms)) ;;;
      visit_all (fun warning => ReportWarning (fst warning) (snd warning)) warnings
  | None => out_of_fuel
  end.
End Visits.
