(* ===== verification/SyntaxInd.v ===== *)
(** * Induction over the syntax tree

    The principle Rocq derives for the trees of [SyntaxTree] says nothing of the
    nodes under a list or an option.  [syntax_induction] does: to prove a property
    of each kind of node, prove it of each node whose parts have theirs. *)
From Stdlib Require Import List.
From stdpp Require Import base list.
From S2P Require Import Prelude Tokens SyntaxTree.
Import ListNotations.

Definition of_opt {A} (P : A -> Prop) (o : option A) : Prop := match o with Some a => P a | None => True end.

(** The property that says nothing, for the kinds of nodes an induction is not about. *)
Definition any {A} (_ : A) : Prop := True.

Definition opt_all {A} {P : A -> Prop} (f : forall a, P a) (o : option A) : of_opt P o :=
  match o with Some a => f a | None => I end.

Definition list_all {A} {P : A -> Prop} (f : forall a, P a) : forall l, Forall P l :=
  fix go l := match l with
              | [] => Forall_nil_2 P
              | a :: l => Forall_cons_2 P a l (f a) (go l)
              end.

Section Induction.
Context (PE : ExpressionSyntax -> Prop) (PA : SwitchArmSyntax -> Prop) (PG : ArgumentSyntax -> Prop)
  (PL : ArgumentsListSyntax -> Prop) (PS : StatementSyntax -> Prop) (PC : CatchClauseSyntax -> Prop)
  (PW : SwitchCaseClauseSyntax -> Prop) (PB : StatementsBlockSyntax -> Prop).

Context
  (HLiteralExpression : forall x0, PE (LiteralExpressionSyntax x0))
  (HUnaryExpression : forall x0 x1 x2, of_opt PE x2 -> PE (UnaryExpressionSyntax x0 x1 x2))
  (HBinaryExpression : forall x0 x1 x2, of_opt PE x1 -> of_opt PE x2 -> PE (BinaryExpressionSyntax x0 x1 x2))
  (HRangeExpression : forall x0 x1 x2 x3, of_opt PE x2 -> of_opt PE x3 -> PE (RangeExpressionSyntax x0 x1 x2 x3))
  (HCastExpression : forall x0 x1 x2, of_opt PE x1 -> PE (CastExpressionSyntax x0 x1 x2))
  (HIsExpression : forall x0 x1 x2, of_opt PE x1 -> PE (IsExpressionSyntax x0 x1 x2))
  (HIsPattern : forall x0 x1 x2, PE (IsPatternSyntax x0 x1 x2))
  (HAwaitExpression : forall x0 x1, of_opt PE x1 -> PE (AwaitExpressionSyntax x0 x1))
  (HObjectExpression : forall x0 x1 x2 x3 x4, of_opt PE x3 -> of_opt PL x4 -> PE (ObjectExpressionSyntax x0 x1 x2 x3 x4))
  (HTernaryExpression : forall x0 x1 x2 x3 x4, of_opt PE x2 -> of_opt PE x3 -> of_opt PE x4 -> PE (TernaryExpressionSyntax x0 x1 x2 x3 x4))
  (HCollectionExpression : forall x0 x1 x2, Forall (of_opt PE) x2 -> PE (CollectionExpressionSyntax x0 x1 x2))
  (HLambdaExpression : forall x0 x1 x2 x3 x4 x5 x6, PB x6 -> PE (LambdaExpressionSyntax x0 x1 x2 x3 x4 x5 x6))
  (HIfExpression : forall x0 x1 x2 x3 x4, of_opt PE x2 -> of_opt PE x3 -> of_opt PE x4 -> PE (IfExpressionSyntax x0 x1 x2 x3 x4))
  (HSwitchExpression : forall x0 x1 x2 x3 x4, of_opt PE x3 -> Forall PA x4 -> PE (SwitchExpressionSyntax x0 x1 x2 x3 x4))
  (HTypeExpression : forall x0, PE (TypeExpressionSyntax x0))
  (HMemberAccessExpression : forall x0 x1 x2, of_opt PE x2 -> PE (MemberAccessExpressionSyntax x0 x1 x2))
  (HIndexatorExpression : forall x0 x1 x2 x3, of_opt PE x2 -> PL x3 -> PE (IndexatorExpressionSyntax x0 x1 x2 x3))
  (HInvokationExpression : forall x0 x1 x2 x3 x4, of_opt PE x2 -> of_opt PL x4 -> PE (InvokationExpressionSyntax x0 x1 x2 x3 x4))
  (HSwitchArm : forall x0 x1 x2, of_opt PE x1 -> of_opt PE x2 -> PA (SwitchArm x0 x1 x2))
  (HArgument : forall x0, of_opt PE x0 -> PG (Argument x0))
  (HArgumentsList : forall x0 x1 x2, Forall PG x2 -> PL (ArgumentsList x0 x1 x2))
  (HExpressionStatement : forall x0 x1, of_opt PE x1 -> PS (ExpressionStatementSyntax x0 x1))
  (HVariableStatement : forall x0 x1 x2 x3 x4, of_opt PE x4 -> PS (VariableStatementSyntax x0 x1 x2 x3 x4))
  (HReturnStatement : forall x0 x1 x2, of_opt PE x2 -> PS (ReturnStatementSyntax x0 x1 x2))
  (HThrowStatement : forall x0 x1 x2, of_opt PE x2 -> PS (ThrowStatementSyntax x0 x1 x2))
  (HBreakStatement : forall x0 x1, PS (BreakStatementSyntax x0 x1))
  (HContinueStatement : forall x0 x1, PS (ContinueStatementSyntax x0 x1))
  (HDeferStatement : forall x0 x1 x2, of_opt PS x2 -> PS (DeferStatementSyntax x0 x1 x2))
  (HIfStatement : forall x0 x1 x2 x3 x4 x5, of_opt PS x3 -> PB x4 -> of_opt PS x5 -> PS (IfStatementSyntax x0 x1 x2 x3 x4 x5))
  (HUnlessStatement : forall x0 x1 x2 x3 x4 x5, of_opt PS x3 -> PB x4 -> of_opt PS x5 -> PS (UnlessStatementSyntax x0 x1 x2 x3 x4 x5))
  (HElseStatement : forall x0 x1, PB x1 -> PS (ElseStatementSyntax x0 x1))
  (HWhileStatement : forall x0 x1 x2 x3 x4 x5, of_opt PE x4 -> PB x5 -> PS (WhileStatementSyntax x0 x1 x2 x3 x4 x5))
  (HUntilStatement : forall x0 x1 x2 x3 x4 x5, of_opt PE x4 -> PB x5 -> PS (UntilStatementSyntax x0 x1 x2 x3 x4 x5))
  (HForStatement : forall x0 x1 x2 x3 x4 x5 x6 x7 x8 x9, of_opt PS x6 -> of_opt PE x7 -> of_opt PS x8 -> PB x9 -> PS (ForStatementSyntax x0 x1 x2 x3 x4 x5 x6 x7 x8 x9))
  (HForEachStatement : forall x0 x1 x2 x3 x4, of_opt PE x3 -> PB x4 -> PS (ForEachStatementSyntax x0 x1 x2 x3 x4))
  (HForInStatement : forall x0 x1 x2 x3 x4, of_opt PE x3 -> PB x4 -> PS (ForInStatementSyntax x0 x1 x2 x3 x4))
  (HTryStatement : forall x0 x1 x2, PB x1 -> Forall PC x2 -> PS (TryStatementSyntax x0 x1 x2))
  (HSwitchStatement : forall x0 x1 x2 x3 x4 x5 x6, of_opt PE x5 -> Forall PW x6 -> PS (SwitchStatementSyntax x0 x1 x2 x3 x4 x5 x6))
  (HCatchClause : forall x0 x1 x2 x3 x4 x5 x6, PB x6 -> PC (CatchClause x0 x1 x2 x3 x4 x5 x6))
  (HSwitchCaseClause : forall x0 x1 x2 x3, of_opt PE x2 -> PB x3 -> PW (SwitchCaseClause x0 x1 x2 x3))
  (HStatementsBlock : forall x0 x1 x2 x3 x4 x5, Forall PS x3 -> PB (StatementsBlock x0 x1 x2 x3 x4 x5)).

Fixpoint visit_E (e : ExpressionSyntax) : PE e :=
  match e with
  | LiteralExpressionSyntax x0 => HLiteralExpression x0
  | UnaryExpressionSyntax x0 x1 x2 => HUnaryExpression x0 x1 x2 (opt_all visit_E x2)
  | BinaryExpressionSyntax x0 x1 x2 => HBinaryExpression x0 x1 x2 (opt_all visit_E x1) (opt_all visit_E x2)
  | RangeExpressionSyntax x0 x1 x2 x3 => HRangeExpression x0 x1 x2 x3 (opt_all visit_E x2) (opt_all visit_E x3)
  | CastExpressionSyntax x0 x1 x2 => HCastExpression x0 x1 x2 (opt_all visit_E x1)
  | IsExpressionSyntax x0 x1 x2 => HIsExpression x0 x1 x2 (opt_all visit_E x1)
  | IsPatternSyntax x0 x1 x2 => HIsPattern x0 x1 x2
  | AwaitExpressionSyntax x0 x1 => HAwaitExpression x0 x1 (opt_all visit_E x1)
  | ObjectExpressionSyntax x0 x1 x2 x3 x4 => HObjectExpression x0 x1 x2 x3 x4 (opt_all visit_E x3) (opt_all visit_L x4)
  | TernaryExpressionSyntax x0 x1 x2 x3 x4 => HTernaryExpression x0 x1 x2 x3 x4 (opt_all visit_E x2) (opt_all visit_E x3) (opt_all visit_E x4)
  | CollectionExpressionSyntax x0 x1 x2 => HCollectionExpression x0 x1 x2 (list_all (opt_all visit_E) x2)
  | LambdaExpressionSyntax x0 x1 x2 x3 x4 x5 x6 => HLambdaExpression x0 x1 x2 x3 x4 x5 x6 (visit_B x6)
  | IfExpressionSyntax x0 x1 x2 x3 x4 => HIfExpression x0 x1 x2 x3 x4 (opt_all visit_E x2) (opt_all visit_E x3) (opt_all visit_E x4)
  | SwitchExpressionSyntax x0 x1 x2 x3 x4 => HSwitchExpression x0 x1 x2 x3 x4 (opt_all visit_E x3) (list_all visit_A x4)
  | TypeExpressionSyntax x0 => HTypeExpression x0
  | MemberAccessExpressionSyntax x0 x1 x2 => HMemberAccessExpression x0 x1 x2 (opt_all visit_E x2)
  | IndexatorExpressionSyntax x0 x1 x2 x3 => HIndexatorExpression x0 x1 x2 x3 (opt_all visit_E x2) (visit_L x3)
  | InvokationExpressionSyntax x0 x1 x2 x3 x4 => HInvokationExpression x0 x1 x2 x3 x4 (opt_all visit_E x2) (opt_all visit_L x4)
  end
with visit_A (a : SwitchArmSyntax) : PA a :=
  match a with
  | SwitchArm x0 x1 x2 => HSwitchArm x0 x1 x2 (opt_all visit_E x1) (opt_all visit_E x2)
  end
with visit_G (g : ArgumentSyntax) : PG g :=
  match g with
  | Argument x0 => HArgument x0 (opt_all visit_E x0)
  end
with visit_L (l : ArgumentsListSyntax) : PL l :=
  match l with
  | ArgumentsList x0 x1 x2 => HArgumentsList x0 x1 x2 (list_all visit_G x2)
  end
with visit_S (s : StatementSyntax) : PS s :=
  match s with
  | ExpressionStatementSyntax x0 x1 => HExpressionStatement x0 x1 (opt_all visit_E x1)
  | VariableStatementSyntax x0 x1 x2 x3 x4 => HVariableStatement x0 x1 x2 x3 x4 (opt_all visit_E x4)
  | ReturnStatementSyntax x0 x1 x2 => HReturnStatement x0 x1 x2 (opt_all visit_E x2)
  | ThrowStatementSyntax x0 x1 x2 => HThrowStatement x0 x1 x2 (opt_all visit_E x2)
  | BreakStatementSyntax x0 x1 => HBreakStatement x0 x1
  | ContinueStatementSyntax x0 x1 => HContinueStatement x0 x1
  | DeferStatementSyntax x0 x1 x2 => HDeferStatement x0 x1 x2 (opt_all visit_S x2)
  | IfStatementSyntax x0 x1 x2 x3 x4 x5 => HIfStatement x0 x1 x2 x3 x4 x5 (opt_all visit_S x3) (visit_B x4) (opt_all visit_S x5)
  | UnlessStatementSyntax x0 x1 x2 x3 x4 x5 => HUnlessStatement x0 x1 x2 x3 x4 x5 (opt_all visit_S x3) (visit_B x4) (opt_all visit_S x5)
  | ElseStatementSyntax x0 x1 => HElseStatement x0 x1 (visit_B x1)
  | WhileStatementSyntax x0 x1 x2 x3 x4 x5 => HWhileStatement x0 x1 x2 x3 x4 x5 (opt_all visit_E x4) (visit_B x5)
  | UntilStatementSyntax x0 x1 x2 x3 x4 x5 => HUntilStatement x0 x1 x2 x3 x4 x5 (opt_all visit_E x4) (visit_B x5)
  | ForStatementSyntax x0 x1 x2 x3 x4 x5 x6 x7 x8 x9 => HForStatement x0 x1 x2 x3 x4 x5 x6 x7 x8 x9 (opt_all visit_S x6) (opt_all visit_E x7) (opt_all visit_S x8) (visit_B x9)
  | ForEachStatementSyntax x0 x1 x2 x3 x4 => HForEachStatement x0 x1 x2 x3 x4 (opt_all visit_E x3) (visit_B x4)
  | ForInStatementSyntax x0 x1 x2 x3 x4 => HForInStatement x0 x1 x2 x3 x4 (opt_all visit_E x3) (visit_B x4)
  | TryStatementSyntax x0 x1 x2 => HTryStatement x0 x1 x2 (visit_B x1) (list_all visit_C x2)
  | SwitchStatementSyntax x0 x1 x2 x3 x4 x5 x6 => HSwitchStatement x0 x1 x2 x3 x4 x5 x6 (opt_all visit_E x5) (list_all visit_W x6)
  end
with visit_C (c : CatchClauseSyntax) : PC c :=
  match c with
  | CatchClause x0 x1 x2 x3 x4 x5 x6 => HCatchClause x0 x1 x2 x3 x4 x5 x6 (visit_B x6)
  end
with visit_W (w : SwitchCaseClauseSyntax) : PW w :=
  match w with
  | SwitchCaseClause x0 x1 x2 x3 => HSwitchCaseClause x0 x1 x2 x3 (opt_all visit_E x2) (visit_B x3)
  end
with visit_B (b : StatementsBlockSyntax) : PB b :=
  match b with
  | StatementsBlock x0 x1 x2 x3 x4 x5 => HStatementsBlock x0 x1 x2 x3 x4 x5 (list_all visit_S x3)
  end.

Lemma syntax_induction : (forall e, PE e) /\ (forall a, PA a) /\ (forall g, PG g) /\ (forall l, PL l) /\
  (forall s, PS s) /\ (forall c, PC c) /\ (forall w, PW w) /\ (forall b, PB b).
Proof.
  exact (conj visit_E (conj visit_A (conj visit_G (conj visit_L (conj visit_S (conj visit_C (conj visit_W visit_B))))))).
Qed.
End Induction.
