(* ===== verification/FlowPaths.v ===== *)
(** * Paths through a body

    The reference the flow states are judged against: [ends s o] holds when some
    execution of [s] ends in the way [o].  A condition may hold or not, a loop may
    run any number of times, a switch value may match any case, and an exception may
    be thrown anywhere.  Initialisers and increments of a [for] complete or throw.

    [flow_of] is the flow state as a function of the statement alone and
    [legal] says that every [break] and [continue] the analysis comes to is
    inside a loop or switch; [clean] names the statements whose paths the analysis
    can follow. *)
From Stdlib Require Import ZArith Lia Bool List String.
From stdpp Require Import base list.
From S2P Require Import Prelude Tokens SyntaxTree SyntaxInd Flow.
Import ListNotations.
Open Scope shard_scope.

(** ** How statements end *)
Inductive Outcome := Completes | Breaking | Continuing | Returning | Throwing.

Definition after_case (o : Outcome) : Outcome := match o with Breaking => Completes | o => o end.
Definition clause_Pattern (w : SwitchCaseClauseSyntax) : option ExpressionSyntax :=
  match w with SwitchCaseClause _ _ p _ => p end.
Definition clause_Body (w : SwitchCaseClauseSyntax) : StatementsBlockSyntax :=
  match w with SwitchCaseClause _ _ _ b => b end.
Definition catch_Body (c : CatchClauseSyntax) : StatementsBlockSyntax :=
  match c with CatchClause _ _ _ _ _ _ b => b end.
(** A clause without a pattern is the default. *)
Definition has_default (clauses : list SwitchCaseClauseSyntax) : bool :=
  existsb (fun w => match clause_Pattern w with None => true | Some _ => false end) clauses.

(** The body of a loop, and the body and next clause of an [if] or [unless]. *)
Definition loop_body (s : StatementSyntax) : option StatementsBlockSyntax :=
  match s with
  | WhileStatementSyntax _ _ _ _ _ b | UntilStatementSyntax _ _ _ _ _ b | ForEachStatementSyntax _ _ _ _ b
  | ForInStatementSyntax _ _ _ _ b | ForStatementSyntax _ _ _ _ _ _ _ _ _ b => Some b
  | _ => None
  end.
Definition branches (s : StatementSyntax) : option (StatementsBlockSyntax * option StatementSyntax) :=
  match s with
  | IfStatementSyntax _ _ _ _ b n | UnlessStatementSyntax _ _ _ _ b n => Some (b, n)
  | _ => None
  end.

Inductive ends : StatementSyntax -> Outcome -> Prop :=
| ends_fails s : ends s Throwing
| ends_expression t e : ends (ExpressionStatementSyntax t e) Completes
| ends_variable t ty x a e : ends (VariableStatementSyntax t ty x a e) Completes
| ends_defer t d s : ends (DeferStatementSyntax t d s) Completes
| ends_break t k : ends (BreakStatementSyntax t k) Breaking
| ends_continue t k : ends (ContinueStatementSyntax t k) Continuing
| ends_return t k e : ends (ReturnStatementSyntax t k e) Returning
| ends_loop s b : loop_body s = Some b -> ends s Completes
| ends_loop_return s b : loop_body s = Some b -> ends_list (block_Statements b) Returning -> ends s Returning
| ends_branch s b n o : branches s = Some (b, n) -> ends_list (block_Statements b) o -> ends s o
| ends_skip s b : branches s = Some (b, None) -> ends s Completes
| ends_next s b n o : branches s = Some (b, Some n) -> ends n o -> ends s o
| ends_else k b o : ends_list (block_Statements b) o -> ends (ElseStatementSyntax k b) o
| ends_case k o c b e x clauses w r :
    In w clauses -> ends_list (block_Statements (clause_Body w)) r ->
    ends (SwitchStatementSyntax k o c b e x clauses) (after_case r)
| ends_no_case k o c b e x clauses :
    has_default clauses = false -> ends (SwitchStatementSyntax k o c b e x clauses) Completes
| ends_try k b catches o : ends_list (block_Statements b) o -> ends (TryStatementSyntax k b catches) o
| ends_catch k b catches c o :
    In c catches -> ends_list (block_Statements (catch_Body c)) o -> ends (TryStatementSyntax k b catches) o
with ends_list : list StatementSyntax -> Outcome -> Prop :=
| ends_nil : ends_list [] Completes
| ends_stop s ss o : ends s o -> o <> Completes -> ends_list (s :: ss) o
| ends_go s ss o : ends s Completes -> ends_list ss o -> ends_list (s :: ss) o.

Definition ends_block (b : StatementsBlockSyntax) (o : Outcome) : Prop := ends_list (block_Statements b) o.

Scheme ends_min := Minimality for ends Sort Prop
  with ends_list_min := Minimality for ends_list Sort Prop.
Combined Scheme ends_mut from ends_min, ends_list_min.

(** ** Flow states as functions of the statement *)
Definition flow_list (flow : StatementSyntax -> FlowState) :=
  fix go (ss : list StatementSyntax) (combined : FlowState) : FlowState :=
    match ss with
    | [] => combined
    | s :: ss => if IsTerminal combined then combined else go ss (flow s)
    end.
Definition flow_cases (flow : StatementsBlockSyntax -> FlowState) :=
  fix go (clauses : list SwitchCaseClauseSyntax) (combined : FlowState) (hasCases : bool) : FlowState * bool :=
    match clauses with
    | [] => (combined, hasCases)
    | SwitchCaseClause _ _ _ b :: clauses =>
        let state := WithoutBreaksAndContinues (flow b) in
        go clauses (if hasCases then MergeBranches combined state else state) true
    end.
Definition flow_catches (flow : StatementsBlockSyntax -> FlowState) :=
  fix go (catches : list CatchClauseSyntax) (state : FlowState) (first : bool) : FlowState :=
    match catches with
    | [] => state
    | CatchClause _ _ _ _ _ _ b :: catches => go catches (if first then flow b else MergeBranches state (flow b)) false
    end.

Fixpoint flow_of (s : StatementSyntax) : FlowState :=
  match s with
  | BreakStatementSyntax _ _ => Breaks
  | ContinueStatementSyntax _ _ => Continues
  | ReturnStatementSyntax _ _ _ => Returns
  | ThrowStatementSyntax _ _ _ => Throws
  | IfStatementSyntax _ _ _ _ b n | UnlessStatementSyntax _ _ _ _ b n =>
      MergeBranches (flow_block b) match n with Some n => flow_of n | None => Normal end
  | ElseStatementSyntax _ b => flow_block b
  | SwitchStatementSyntax _ _ _ _ _ _ clauses =>
      let result := flow_cases flow_block clauses Normal false in if snd result then fst result else Normal
  | TryStatementSyntax _ b [] => flow_block b
  | TryStatementSyntax _ b catches => MergeBranches (WithoutThrows (flow_block b)) (flow_catches flow_block catches Normal true)
  | _ => Normal
  end
with flow_block (b : StatementsBlockSyntax) : FlowState :=
  match b with StatementsBlock _ _ _ ss _ _ => flow_list flow_of ss Normal end.

(** ** Misplaced jumps *)
Definition legal_list (flow : StatementSyntax -> FlowState) (legal : StatementSyntax -> bool) :=
  fix go (ss : list StatementSyntax) (combined : FlowState) : bool :=
    match ss with
    | [] => true
    | s :: ss => if IsTerminal combined then true else legal s && go ss (flow s)
    end.

Fixpoint legal (loops switches : bool) (s : StatementSyntax) : bool :=
  match s with
  | BreakStatementSyntax _ _ => loops || switches
  | ContinueStatementSyntax _ _ => loops
  | DeferStatementSyntax _ _ s => match s with Some s => legal loops switches s | None => true end
  | WhileStatementSyntax _ _ _ _ _ b | UntilStatementSyntax _ _ _ _ _ b | ForEachStatementSyntax _ _ _ _ b
  | ForInStatementSyntax _ _ _ _ b | ForStatementSyntax _ _ _ _ _ _ _ _ _ b => legal_block true switches b
  | IfStatementSyntax _ _ _ _ b n | UnlessStatementSyntax _ _ _ _ b n =>
      legal_block loops switches b && match n with Some n => legal loops switches n | None => true end
  | ElseStatementSyntax _ b => legal_block loops switches b
  | SwitchStatementSyntax _ _ _ _ _ _ clauses =>
      forallb (fun w => match w with SwitchCaseClause _ _ _ b => legal_block loops true b end) clauses
  | TryStatementSyntax _ b catches =>
      legal_block loops switches b &&
      forallb (fun c => match c with CatchClause _ _ _ _ _ _ b => legal_block loops switches b end) catches
  | _ => true
  end
with legal_block (loops switches : bool) (b : StatementsBlockSyntax) : bool :=
  match b with StatementsBlock _ _ _ ss _ _ => legal_list flow_of (legal loops switches) ss Normal end.

(** ** The statements whose paths the analysis follows *)

(** A [break] inside [s] that leaves [s]. *)
Fixpoint breaks (s : StatementSyntax) : bool :=
  match s with
  | BreakStatementSyntax _ _ => true
  | IfStatementSyntax _ _ _ _ b n | UnlessStatementSyntax _ _ _ _ b n =>
      breaks_block b || match n with Some n => breaks n | None => false end
  | ElseStatementSyntax _ b => breaks_block b
  | TryStatementSyntax _ b catches =>
      breaks_block b || existsb (fun c => match c with CatchClause _ _ _ _ _ _ b => breaks_block b end) catches
  | _ => false
  end
with breaks_block (b : StatementsBlockSyntax) : bool :=
  match b with StatementsBlock _ _ _ ss _ _ => existsb breaks ss end.

(** A case body breaks only with its last statement, a plain [break]. *)
Fixpoint breaks_last (ss : list StatementSyntax) : bool :=
  match ss with
  | [] => true
  | [BreakStatementSyntax _ _] => true
  | s :: ss => negb (breaks s) && breaks_last ss
  end.

(** Every switch has a default clause and cases that break only at their end. *)
Fixpoint clean (s : StatementSyntax) : bool :=
  match s with
  | WhileStatementSyntax _ _ _ _ _ b | UntilStatementSyntax _ _ _ _ _ b | ForEachStatementSyntax _ _ _ _ b
  | ForInStatementSyntax _ _ _ _ b | ForStatementSyntax _ _ _ _ _ _ _ _ _ b => clean_block b
  | IfStatementSyntax _ _ _ _ b n | UnlessStatementSyntax _ _ _ _ b n =>
      clean_block b && match n with Some n => clean n | None => true end
  | ElseStatementSyntax _ b => clean_block b
  | SwitchStatementSyntax _ _ _ _ _ _ clauses =>
      has_default clauses &&
      forallb (fun w => match w with SwitchCaseClause _ _ _ b => clean_block b && breaks_last (block_Statements b) end) clauses
  | TryStatementSyntax _ b catches =>
      clean_block b && forallb (fun c => match c with CatchClause _ _ _ _ _ _ b => clean_block b end) catches
  | _ => true
  end
with clean_block (b : StatementsBlockSyntax) : bool :=
  match b with StatementsBlock _ _ _ ss _ _ => forallb clean ss end.

(** ** Flags *)
Lemma flag_bit state i : (0 <= i)%Z -> HasFlag state (2 ^ i)%Z = Z.testbit state i.
Proof.
  intros Hi; unfold HasFlag, flow_and; destruct (Z.testbit state i) eqn:Hb.
  - destruct (Z.eqb_spec (Z.land state (2 ^ i)) 0) as [H|H]; [|reflexivity].
    apply (f_equal (fun z => Z.testbit z i)) in H; rewrite Z.land_spec, Hb, Z.pow2_bits_true, Z.bits_0 in H by exact Hi; discriminate.
  - replace (Z.land state (2 ^ i)) with 0%Z; [reflexivity|symmetry]; apply Z.bits_inj'; intros n Hn.
    rewrite Z.land_spec, Z.bits_0, Z.pow2_bits_eqb by exact Hi; destruct (Z.eqb_spec i n) as [<-|]; [rewrite Hb; reflexivity|].
    apply andb_false_r.
Qed.

Lemma normal_bit state : HasFlag state Normal = Z.testbit state 4.
Proof. apply (flag_bit state 4); lia. Qed.

Lemma normal_merge a b : HasFlag (MergeBranches a b) Normal = HasFlag a Normal || HasFlag b Normal.
Proof. rewrite !normal_bit; apply Z.lor_spec. Qed.

Lemma normal_without_breaks state : HasFlag state Normal = true -> HasFlag (WithoutBreaksAndContinues state) Normal = true.
Proof.
  intros H; unfold WithoutBreaksAndContinues.
  assert (HasFlag (flow_and state (flow_not (flow_or Breaks Continues))) Normal = true) as K.
  { rewrite normal_bit in *; unfold flow_and; rewrite Z.land_spec, H; reflexivity. }
  rewrite K; exact K.
Qed.

Lemma normal_without_throws state : HasFlag state Normal = true -> HasFlag (WithoutThrows state) Normal = true.
Proof.
  intros H; unfold WithoutThrows.
  assert (HasFlag (flow_and state (flow_not Throws)) Normal = true) as K.
  { rewrite normal_bit in *; unfold flow_and; rewrite Z.land_spec, H; reflexivity. }
  rewrite K; exact K.
Qed.

(** ** Paths and flags *)
Lemma ends_breaks : (forall s o, ends s o -> o = Breaking -> breaks s = true) /\
  (forall ss o, ends_list ss o -> o = Breaking -> existsb breaks ss = true).
Proof.
  assert (HB : forall b, existsb breaks (block_Statements b) = breaks_block b) by (intros []; reflexivity).
  apply ends_mut; intros; subst; try discriminate; try reflexivity; simpl in *.
  - destruct s; try discriminate; injection H as -> ->; simpl; rewrite <- HB, H1; reflexivity.
  - destruct s; try discriminate; injection H as -> ->; simpl; rewrite H1 by reflexivity; apply orb_true_r.
  - rewrite <- HB; auto.
  - destruct r; discriminate.
  - rewrite <- HB, H0; reflexivity.
  - apply orb_true_iff; right; apply existsb_exists; exists c; split; [exact H|].
    destruct c; simpl in *; rewrite <- HB; auto.
  - rewrite H0; reflexivity.
  - rewrite H2 by reflexivity; apply orb_true_r.
Qed.

Lemma cases_normal flow clauses : forall c has,
  has = true /\ HasFlag c Normal = true \/
    (exists w, In w clauses /\ HasFlag (WithoutBreaksAndContinues (flow (clause_Body w))) Normal = true) ->
  HasFlag (fst (flow_cases flow clauses c has)) Normal = true /\ snd (flow_cases flow clauses c has) = true.
Proof.
  induction clauses as [|[k t p b] clauses IH]; intros c has H; simpl.
  - destruct H as [[-> H]|(w & [] & _)]; auto.
  - apply IH; destruct H as [[-> H]|(w & [<-|Hin] & H)]; [left|left|right; exists w; auto]; (split; [reflexivity|]).
    + rewrite normal_merge, H; reflexivity.
    + simpl in H; destruct has; rewrite ?normal_merge, H, ?orb_true_r; reflexivity.
Qed.

Lemma catches_normal flow catches : forall c first,
  first = false /\ HasFlag c Normal = true \/ (exists w, In w catches /\ HasFlag (flow (catch_Body w)) Normal = true) ->
  HasFlag (flow_catches flow catches c first) Normal = true.
Proof.
  induction catches as [|[k o i n p ty b] catches IH]; intros c first H; simpl.
  - destruct H as [[-> H]|(w & [] & _)]; auto.
  - apply IH; destruct H as [[-> H]|(w & [<-|Hin] & H)]; [left|left|right; exists w; auto]; (split; [reflexivity|]).
    + rewrite normal_merge, H; reflexivity.
    + simpl in H; destruct first; rewrite ?normal_merge, H, ?orb_true_r; reflexivity.
Qed.

Lemma flow_block_list b : flow_block b = flow_list flow_of (block_Statements b) Normal.
Proof. destruct b; reflexivity. Qed.
Lemma clean_block_list b : clean_block b = forallb clean (block_Statements b).
Proof. destruct b; reflexivity. Qed.
Lemma legal_block_list loops switches b :
  legal_block loops switches b = legal_list flow_of (legal loops switches) (block_Statements b) Normal.
Proof. destruct b; reflexivity. Qed.

Lemma flow_try k b catches : flow_of (TryStatementSyntax k b catches) =
  match catches with
  | [] => flow_block b
  | _ => MergeBranches (WithoutThrows (flow_block b)) (flow_catches flow_block catches Normal true)
  end.
Proof. destruct catches; reflexivity. Qed.

Lemma flow_switch k o c b e x clauses : flow_of (SwitchStatementSyntax k o c b e x clauses) =
  if snd (flow_cases flow_block clauses Normal false) then fst (flow_cases flow_block clauses Normal false) else Normal.
Proof. reflexivity. Qed.

Lemma clean_case w clauses :
  forallb (fun w => match w with SwitchCaseClause _ _ _ b => clean_block b && breaks_last (block_Statements b) end) clauses = true ->
  In w clauses -> forallb clean (block_Statements (clause_Body w)) = true /\ breaks_last (block_Statements (clause_Body w)) = true.
Proof.
  intros H Hin; rewrite forallb_forall in H; specialize (H w Hin); destruct w; simpl.
  rewrite <- clean_block_list; apply andb_true_iff, H.
Qed.

Lemma clean_catch c catches :
  forallb (fun c => match c with CatchClause _ _ _ _ _ _ b => clean_block b end) catches = true ->
  In c catches -> forallb clean (block_Statements (catch_Body c)) = true.
Proof.
  intros H Hin; rewrite forallb_forall in H; specialize (H c Hin); destruct c; simpl; rewrite <- clean_block_list; exact H.
Qed.

Lemma clean_loop s b : loop_body s = Some b -> clean s = true -> forallb clean (block_Statements b) = true.
Proof. destruct s; try discriminate; intros [= ->]; simpl; rewrite clean_block_list; auto. Qed.

Lemma clean_branch s b n : branches s = Some (b, n) -> clean s = true ->
  forallb clean (block_Statements b) = true /\ match n with Some n => clean n = true | None => True end.
Proof.
  destruct s; try discriminate; intros [= -> ->]; simpl; rewrite clean_block_list, andb_true_iff; destruct n; tauto.
Qed.

Lemma flow_branch s b n : branches s = Some (b, n) ->
  flow_of s = MergeBranches (flow_block b) match n with Some n => flow_of n | None => Normal end.
Proof. destruct s; try discriminate; intros [= -> ->]; reflexivity. Qed.

Lemma flow_loop s b : loop_body s = Some b -> flow_of s = Normal.
Proof. destruct s; try discriminate; reflexivity. Qed.

Lemma flow_list_go s ss c : HasFlag c Normal = true -> flow_list flow_of (s :: ss) c = flow_list flow_of ss (flow_of s).
Proof. intros H; simpl; unfold IsTerminal; rewrite H; reflexivity. Qed.

Lemma breaks_last_cons s ss : breaks_last (s :: ss) = true ->
  flow_of s = Breaks /\ ss = [] \/ breaks s = false /\ breaks_last ss = true.
Proof.
  destruct s; simpl; try (rewrite andb_true_iff, negb_true_iff; tauto); try solve [intros H; right; auto].
  destruct ss; [intros _; left; auto|discriminate].
Qed.

(** A statement that may complete has the flag [Normal]; a case body that may break
    ends in the state [Breaks]. *)
Lemma flow_covers :
  (forall s o, ends s o -> clean s = true -> o = Completes -> HasFlag (flow_of s) Normal = true) /\
  (forall ss o, ends_list ss o -> forallb clean ss = true -> forall c, HasFlag c Normal = true ->
     (o = Completes -> HasFlag (flow_list flow_of ss c) Normal = true) /\
     (o = Breaking -> breaks_last ss = true -> flow_list flow_of ss c = Breaks)).
Proof.
  apply ends_mut; intros; subst; try discriminate; try reflexivity.
  - rewrite (flow_loop _ _ H); reflexivity.
  - rewrite (flow_branch _ _ _ H), normal_merge, flow_block_list; destruct (clean_branch _ _ _ H H2) as [Hc _].
    rewrite (proj1 (H1 Hc Normal eq_refl) eq_refl); reflexivity.
  - rewrite (flow_branch _ _ _ H), normal_merge; apply orb_true_r.
  - rewrite (flow_branch _ _ _ H), normal_merge, H1; [apply orb_true_r|apply (clean_branch _ _ _ H H2)|reflexivity].
  - simpl in *; rewrite flow_block_list; rewrite clean_block_list in H1; apply H0; auto.
  - simpl in H2; apply andb_true_iff in H2 as [_ H2]; destruct (clean_case w clauses H2 H) as [Hc Hl].
    assert (HasFlag (WithoutBreaksAndContinues (flow_block (clause_Body w))) Normal = true) as HN.
    { rewrite flow_block_list; destruct (H1 Hc Normal eq_refl) as [K1 K2]; destruct r; try discriminate.
      - apply normal_without_breaks; auto.
      - rewrite (K2 eq_refl Hl); reflexivity. }
    rewrite flow_switch; destruct (cases_normal flow_block clauses Normal false) as [K1 K2]; [right; exists w; auto|].
    rewrite K2; exact K1.
  - simpl in H0; rewrite H in H0; discriminate.
  - simpl in H1; apply andb_true_iff in H1 as [H1 _]; rewrite clean_block_list in H1.
    pose proof (proj1 (H0 H1 Normal eq_refl) eq_refl) as HN; rewrite <- flow_block_list in HN.
    rewrite flow_try; destruct catches; [exact HN|]; rewrite normal_merge, normal_without_throws by exact HN; reflexivity.
  - simpl in H2; apply andb_true_iff in H2 as [_ H2]; pose proof (clean_catch c catches H2 H) as Hc.
    rewrite flow_try; destruct catches as [|c' catches]; [destruct H|]; rewrite normal_merge.
    rewrite (catches_normal flow_block); [apply orb_true_r|]; right; exists c; split; [exact H|].
    rewrite flow_block_list; apply (H1 Hc); reflexivity.
  - split; intros; try discriminate; assumption.
  - split; [congruence|]; intros -> Hl; rewrite flow_list_go by assumption.
    pose proof (proj1 ends_breaks _ _ H eq_refl) as Hb.
    destruct (breaks_last_cons _ _ Hl) as [[-> ->]|[Hn _]]; [reflexivity|congruence].
  - simpl in H3; apply andb_true_iff in H3 as [Hs Hss]; rewrite flow_list_go by assumption.
    destruct (H2 Hss (flow_of s) (H0 Hs eq_refl)) as [K1 K2]; split; [exact K1|]; intros -> Hl; apply K2; [reflexivity|].
    destruct (breaks_last_cons _ _ Hl) as [[_ ->]|[_ Hl']]; [reflexivity|exact Hl'].
Qed.

(** A path that breaks or continues out of a statement breaks a rule that [legal]
    checks. *)
Lemma legal_branch l w s b n : branches s = Some (b, n) -> legal l w s = true ->
  legal_list flow_of (legal l w) (block_Statements b) Normal = true /\ match n with Some n => legal l w n = true | None => True end.
Proof.
  destruct s; try discriminate; intros [= -> ->]; simpl; rewrite legal_block_list, andb_true_iff; destruct n; tauto.
Qed.

Lemma legal_covers :
  (forall s o, ends s o -> clean s = true -> forall l w, legal l w s = true ->
     (o = Breaking -> l || w = true) /\ (o = Continuing -> l = true)) /\
  (forall ss o, ends_list ss o -> forallb clean ss = true -> forall c, HasFlag c Normal = true ->
     forall l w, legal_list flow_of (legal l w) ss c = true -> (o = Breaking -> l || w = true) /\ (o = Continuing -> l = true)).
Proof.
  apply ends_mut; intros; subst; try (split; intros; discriminate).
  - split; intros; [exact H0|discriminate].
  - split; intros; [discriminate|exact H0].
  - destruct (clean_branch _ _ _ H H2) as [Hc _]; apply (H1 Hc Normal eq_refl), (legal_branch l w _ _ _ H H3).
  - eapply H1; [apply (clean_branch _ _ _ H H2)|apply (legal_branch l w _ _ _ H H3)].
  - simpl in *; rewrite clean_block_list in H1; rewrite legal_block_list in H2; exact (H0 H1 Normal eq_refl l w H2).
  - simpl in H2, H3; apply andb_true_iff in H2 as [_ H2]; destruct (clean_case w clauses H2 H) as [Hc _].
    rewrite forallb_forall in H3; specialize (H3 w H); destruct w as [k' t' p b']; rewrite legal_block_list in H3.
    destruct (H1 Hc Normal eq_refl l true H3) as [K1 K2]; destruct r; split; intros; try discriminate; auto.
  - simpl in H1, H2; apply andb_true_iff in H1 as [H1 _], H2 as [H2 _]; rewrite clean_block_list in H1; rewrite legal_block_list in H2.
    exact (H0 H1 Normal eq_refl l w H2).
  - simpl in H2, H3; apply andb_true_iff in H2 as [_ H2], H3 as [_ H3]; pose proof (clean_catch c catches H2 H) as Hc.
    rewrite forallb_forall in H3; specialize (H3 c H); destruct c; rewrite legal_block_list in H3.
    exact (H1 Hc Normal eq_refl l w H3).
  - simpl in *; unfold IsTerminal in *; rewrite H3 in H4; simpl in H4; apply andb_true_iff in H2 as [H2 _], H4 as [H4 _]; eauto.
  - simpl in *; unfold IsTerminal in *; rewrite H4 in H5; simpl in H5; apply andb_true_iff in H3 as [H3 H6], H5 as [H5 H7].
    eapply H2; [exact H6| |exact H7]; eapply (proj1 flow_covers); eauto.
Qed.

(** ** Statements without switch and try statements outside their loops *)
Fixpoint simple (s : StatementSyntax) : bool :=
  match s with
  | IfStatementSyntax _ _ _ _ b n | UnlessStatementSyntax _ _ _ _ b n =>
      simple_block b && match n with Some n => simple n | None => true end
  | ElseStatementSyntax _ b => simple_block b
  | SwitchStatementSyntax _ _ _ _ _ _ _ | TryStatementSyntax _ _ _ => false
  | _ => true
  end
with simple_block (b : StatementsBlockSyntax) : bool :=
  match b with StatementsBlock _ _ _ ss _ _ => forallb simple ss end.

Lemma simple_list_completes ss : Forall (fun s => simple s = true -> HasFlag (flow_of s) Normal = true -> ends s Completes) ss ->
  forall c, forallb simple ss = true -> HasFlag c Normal = true -> HasFlag (flow_list flow_of ss c) Normal = true ->
  ends_list ss Completes.
Proof.
  induction 1 as [|s ss Hs _ IH]; intros c HS Hc HF; [constructor|].
  rewrite flow_list_go in HF by exact Hc; simpl in HS; apply andb_true_iff in HS as [HS HSS].
  destruct (HasFlag (flow_of s) Normal) eqn:Hn; [apply ends_go; [auto|apply (IH (flow_of s)); auto]|].
  destruct ss as [|s' ss]; simpl in HF; [congruence|]; unfold IsTerminal in HF; rewrite Hn in HF; simpl in HF; congruence.
Qed.

Lemma simple_completes s : simple s = true -> HasFlag (flow_of s) Normal = true -> ends s Completes.
Proof.
  destruct (syntax_induction any any any any
    (fun s => simple s = true -> HasFlag (flow_of s) Normal = true -> ends s Completes) any any
    (fun b => simple_block b = true -> HasFlag (flow_block b) Normal = true -> ends_block b Completes)) as (_ & _ & _ & _ & H & _);
    [..|apply H]; clear s; intros; try exact I; simpl in *; try discriminate; try (constructor; fail).
  1, 2: apply andb_true_iff in H2 as [H2 H4]; rewrite normal_merge in H3; apply orb_true_iff in H3 as [H3|H3];
    [eapply ends_branch; [reflexivity|apply H0; assumption]|destruct x5; [eapply ends_next|eapply ends_skip]; try reflexivity; apply H1; assumption].
  - apply ends_else, H; assumption.
  - eapply ends_loop; reflexivity.
  - eapply ends_loop; reflexivity.
  - eapply ends_loop; reflexivity.
  - eapply ends_loop; reflexivity.
  - eapply ends_loop; reflexivity.
  - apply (simple_list_completes x3 H Normal); auto.
Qed.

Lemma simple_branch s b n : branches s = Some (b, n) -> simple s = true ->
  forallb simple (block_Statements b) = true /\ match n with Some n => simple n = true | None => True end.
Proof.
  assert (forall b, simple_block b = forallb simple (block_Statements b)) as HB by (intros []; reflexivity).
  destruct s; try discriminate; intros [= -> ->]; simpl; rewrite HB, andb_true_iff; destruct n; tauto.
Qed.

Lemma simple_covers :
  (forall s o, ends s o -> simple s = true -> o = Completes -> HasFlag (flow_of s) Normal = true) /\
  (forall ss o, ends_list ss o -> forallb simple ss = true -> o = Completes -> forall c, HasFlag c Normal = true ->
     HasFlag (flow_list flow_of ss c) Normal = true).
Proof.
  apply ends_mut; intros; subst; try discriminate; try reflexivity; try assumption.
  - rewrite (flow_loop _ _ H); reflexivity.
  - rewrite (flow_branch _ _ _ H), normal_merge, flow_block_list.
    rewrite (H1 (proj1 (simple_branch _ _ _ H H2)) eq_refl Normal eq_refl); reflexivity.
  - rewrite (flow_branch _ _ _ H), normal_merge; apply orb_true_r.
  - rewrite (flow_branch _ _ _ H), normal_merge, H1; [apply orb_true_r|apply (simple_branch _ _ _ H H2)|reflexivity].
  - simpl in *; rewrite flow_block_list; destruct b; apply H0; auto.
  - contradiction.
  - simpl in H3; apply andb_true_iff in H3 as [Hs Hss]; rewrite flow_list_go by assumption; auto.
Qed.
