(* ===== verification/FlowFacts.v ===== *)
(** * Flow analysis: lemmas

    Every visit leaves the context as it found it, only adds diagnostics, and
    returns the flow state [FlowPaths] gives the statement. *)
From Stdlib Require Import ZArith Lia Bool List String.
From stdpp Require Import base list gmap sets.
From S2P Require Import Prelude Tokens SyntaxTree SyntaxInd Effects Flow FlowVisit FlowPaths.
Import ListNotations.
Open Scope shard_scope.

Section Facts.
Context (B : Bindings).

(** ** Invariants of the context *)
Record wf (c : FlowContext) : Prop := mkWf {
  wf_loops : (0 <= loopDepth c)%Z;
  wf_switches : (0 <= switchDepth c)%Z;
  wf_caught : effectiveCaughtTypes c = caught_types (tryCatchStack c);
  wf_all : catchAllDepth c = catch_all_depth (tryCatchStack c) }.

(** No symbol a name may stand for in the scopes of the analysis is a variable. *)
Record no_variables : Prop := mkNoVariables {
  top_plain : forall name s, TopScope B name = Some s -> as_Variable B s = None;
  parameters_plain : forall m s, In s (ParametersOf B m) -> as_Variable B s = None;
  type_parameters_plain : forall m s, In s (TypeParametersOf B m) -> as_Variable B s = None }.

Definition scope_plain (scope : Scope) : Prop := forall name s, scope !! name = Some (Declared s) -> as_Variable B s = None.
Definition scopes_plain (c : FlowContext) : Prop := Forall scope_plain (scopeStack c).

(** The diagnostic does not say that a variable is unassigned. *)
Definition expected (d : FlowDiagnostic) : Prop :=
  forall rest, message d <> (L "Use of unassigned local variable '" ++ rest)%list.

(** ** What a visit keeps *)
Definition reports (a a' : Analyzer) : Prop :=
  exists ds, Diagnostics a' = (Diagnostics a ++ ds)%list /\ (no_variables -> scopes_plain (context a) -> Forall expected ds).

Record keeps (a a' : Analyzer) : Prop := mkKeeps {
  kept_context : context a' = context a;
  kept_method : currentMethod a' = currentMethod a \/ currentMethod a' = None;
  kept_reports : reports a a' }.

Lemma reports_same a a' : Diagnostics a' = Diagnostics a -> reports a a'.
Proof. intros H; exists []; rewrite app_nil_r; split; [exact H|constructor]. Qed.

#[export] Instance keeps_preorder : PreOrder keeps.
Proof.
  split; [intros a; constructor; auto using reports_same|].
  intros a b c [H1 H2 (ds & H3 & H4)] [K1 K2 (es & K3 & K4)]; constructor; [congruence| |].
  - destruct K2 as [-> | ->]; auto.
  - exists (ds ++ es); rewrite K3, H3, app_assoc; split; [reflexivity|].
    intros Hn Hs; apply Forall_app; split; [auto|apply K4; [exact Hn|rewrite H1; exact Hs]].
Qed.

(** Nothing was reported between [a] and [c], so nothing was on the way. *)
Lemma quiet_split a b c : keeps a b -> keeps b c -> Diagnostics c = Diagnostics a ->
  Diagnostics b = Diagnostics a /\ Diagnostics c = Diagnostics b.
Proof.
  intros [_ _ H1] [_ _ H2] H; destruct H1 as (ds & H1 & _), H2 as (es & H2 & _); rewrite H2, H1 in *.
  assert (ds = [] /\ es = []) as [-> ->]; [|rewrite !app_nil_r; auto].
  apply app_eq_nil; rewrite <- app_assoc in H; rewrite <- (app_nil_r (Diagnostics a)) in H at 2.
  apply app_inv_head in H; exact H.
Qed.

Definition steady {A} (m : ST Analyzer A) : Prop := forall a, wf (context a) -> yields m a (fun _ a' => keeps a a').

Lemma steady_ret {A} (x : A) : steady (ret x).
Proof. intros a _; apply yields_ret; reflexivity. Qed.
Lemma steady_get : steady get.
Proof. intros a _; apply yields_get; reflexivity. Qed.
Lemma steady_error {A} : steady (@runtime_error A).
Proof. intros a _ b a' [=]. Qed.

Lemma steady_bind {A C} (m : ST Analyzer A) (k : A -> ST Analyzer C) : steady m -> (forall x, steady (k x)) -> steady (bind m k).
Proof.
  intros Hm Hk a Hw; apply yields_bind; eapply yields_mono; [apply Hm, Hw|]; intros x a' Ha; simpl.
  eapply yields_mono; [apply Hk; rewrite (kept_context _ _ Ha); exact Hw|]; intros y a'' Ha'; etransitivity; [exact Ha|exact Ha'].
Qed.

Lemma steady_modify f : (forall a, keeps a (f a)) -> steady (modify f).
Proof. intros H a _; apply yields_modify, H. Qed.

Lemma steady_when b m : steady m -> steady (when b m).
Proof. intros H; destruct b; [exact H|apply steady_ret]. Qed.
Lemma steady_opt {A} (f : A -> ST Analyzer unit) o : of_opt (fun x => steady (f x)) o -> steady (visit_opt f o).
Proof. destruct o; intros H; [exact H|apply steady_ret]. Qed.
Lemma steady_all {A} (f : A -> ST Analyzer unit) l : Forall (fun x => steady (f x)) l -> steady (visit_all f l).
Proof. induction 1; simpl; [apply steady_ret|apply steady_bind; auto]. Qed.
Lemma of_opt_all {A} (P : A -> Prop) o : (forall x, P x) -> of_opt P o.
Proof. destruct o; simpl; auto. Qed.

Lemma keeps_assigned f a : keeps a (set_assigned f a).
Proof. constructor; auto using reports_same. Qed.
Lemma keeps_summaries f a : keeps a (set_summaries f a).
Proof. constructor; auto using reports_same. Qed.
Lemma keeps_graph f a : keeps a (set_graph f a).
Proof. constructor; auto using reports_same. Qed.
Lemma keeps_report d a : expected d -> keeps a (add_diagnostic d a).
Proof. intros H; constructor; auto; exists [d]; auto. Qed.
Hint Resolve keeps_assigned keeps_summaries keeps_graph : core.
Hint Resolve steady_ret steady_get steady_error : core.

Lemma steady_report t m : (forall rest, m <> (L "Use of unassigned local variable '" ++ rest)%list) -> steady (ReportError t m).
Proof. intros H; apply steady_modify; intros a; apply keeps_report; exact H. Qed.

Ltac steady :=
  repeat first
    [ assumption
    | apply steady_ret | apply steady_get | apply steady_error
    | apply steady_bind; [|intros ?]
    | apply steady_when
    | apply steady_modify; intros ?; solve [auto]
    | apply steady_opt, of_opt_all; intros ?
    | progress simpl ].

(** ** The steps that record effects *)
Lemma steady_current f : steady (on_current f).
Proof. unfold on_current; steady. Qed.
Lemma steady_callee callee t b : steady (RecordCalleeEffects callee t b).
Proof. unfold RecordCalleeEffects; steady. Qed.
Hint Resolve steady_current steady_callee : core.

Lemma steady_setter node t : steady (RecordSetter B node t).
Proof. unfold RecordSetter; steady; apply steady_callee. Qed.

Lemma steady_write e : steady (RecordWrite B e).
Proof.
  pose proof steady_setter.
  destruct e; simpl; auto; unfold RecordFieldOrPropertyWrite, RecordIndexatorWrite;
    repeat (destruct (ToField _ _) || destruct (ToProperty _ _) || destruct (IsStaticContext _ _)); steady; auto.
Qed.

Lemma steady_invocation e t : steady (RecordInvocation B e t).
Proof.
  unfold RecordInvocation; destruct (InvokedSymbol B e); [destruct (negb _)|]; steady; auto.
Qed.

Lemma steady_await e : steady (RecordAwait B e).
Proof. destruct e; simpl; steady; auto. Qed.

Lemma steady_throw e : steady (RecordThrow B e).
Proof. unfold RecordThrow; steady; auto. Qed.

(** ** Definite assignment *)
Lemma lookup_plain c name : no_variables -> scopes_plain c -> LookupVariableSymbol B (scopeStack c) name = None.
Proof.
  intros Hn; unfold scopes_plain, LookupVariableSymbol; induction 1 as [|scope scopes Hs _ IH]; simpl.
  - destruct (TopScope B name) eqn:Ht; [|reflexivity]; apply (top_plain Hn name _ Ht).
  - destruct (scope !! name) as [[s|]|] eqn:Ht; [apply (Hs name s Ht)|reflexivity|exact IH].
Qed.

Lemma steady_assignment e : steady (AnalyzeExpressionForAssignment B e).
Proof.
  destruct e; simpl; auto; destruct Left as [[]|]; auto; destruct PreviousExpression; auto; unfold MarkAssigned; steady.
Qed.

(** Whether a variable is unassigned is reported only for a variable. *)
Lemma steady_use e : steady (AnalyzeExpressionForUse B e).
Proof.
  assert (HM : forall t t', steady (AnalyzeExpressionForUse B (MemberAccessExpressionSyntax t t' None))).
  { intros t t' a Hw; simpl; apply yields_bind, yields_get; cbn beta.
    destruct (LookupVariableSymbol B (scopeStack (context a)) (Word t')) as [v|] eqn:Hv; simpl; [|apply yields_ret; reflexivity].
    destruct (negb (IsAssigned v a)); simpl; [|apply yields_ret; reflexivity].
    apply yields_modify; constructor; auto; eexists [_]; split; [reflexivity|].
    intros Hn Hs; rewrite (lookup_plain _ (Word t') Hn Hs) in Hv; discriminate. }
  destruct (syntax_induction (fun e => steady (AnalyzeExpressionForUse B e)) any any any
    any any any any) as [H _]; [..|apply H]; intros; try exact I; simpl; auto.
  - apply steady_bind; [apply steady_opt; assumption|intros _; apply steady_opt; assumption].
  - destruct x2; auto; apply (HM x0 x1).
Qed.

(** ** Judging a visit *)

(** [m] keeps the state, its result satisfies [Q], and when it reports nothing the
    statement it visits passes [lg], which is told whether it is inside a loop and
    inside a switch. *)
Definition quiet (a a' : Analyzer) : Prop := Diagnostics a' = Diagnostics a.
Definition inside (depth : Z) : bool := negb (depth =? 0)%Z.
Definition lawful (lg : bool -> bool -> bool) (c : FlowContext) : Prop :=
  lg (inside (loopDepth c)) (inside (switchDepth c)) = true.
Definition judged {A} (m : ST Analyzer A) (Q : A -> Prop) (lg : bool -> bool -> bool) : Prop :=
  forall a, wf (context a) ->
    yields m a (fun x a' => Q x /\ keeps a a' /\ (quiet a a' -> lawful lg (context a))).
Definition anywhere : bool -> bool -> bool := fun _ _ => true.

Lemma steady_judged {A} (m : ST Analyzer A) : steady m -> judged m (fun _ => True) anywhere.
Proof. intros H a Hw; eapply yields_mono; [apply H, Hw|]; intros x a' Ha; split; [exact I|split; [exact Ha|intros _; reflexivity]]. Qed.

Lemma judged_steady {A} (m : ST Analyzer A) Q lg : judged m Q lg -> steady m.
Proof. intros H a Hw; eapply yields_mono; [apply H, Hw|]; intros x a' Ha; apply Ha. Qed.

Lemma judged_ret {A} (x : A) (Q : A -> Prop) : Q x -> judged (ret x) Q anywhere.
Proof. intros H a Hw; apply yields_ret; split; [exact H|split; [reflexivity|intros _; reflexivity]]. Qed.

Lemma judged_bind {A C} (m : ST Analyzer A) (k : A -> ST Analyzer C) Q R lg lg' :
  judged m Q lg -> (forall x, Q x -> judged (k x) R lg') -> judged (bind m k) R (fun l w => lg l w && lg' l w).
Proof.
  intros Hm Hk a Hw; apply yields_bind; eapply yields_mono; [apply Hm, Hw|]; intros x a1 (HQ & H1 & L1); simpl.
  eapply yields_mono; [apply Hk; [exact HQ|rewrite (kept_context _ _ H1); exact Hw]|]; intros y a2 (HR & H2 & L2).
  split; [exact HR|]; split; [etransitivity; [exact H1|exact H2]|]; intros Hq.
  destruct (quiet_split _ _ _ H1 H2 Hq) as [Hq1 Hq2]; specialize (L1 Hq1); specialize (L2 Hq2).
  rewrite (kept_context _ _ H1) in L2; unfold lawful in *; rewrite L1, L2; reflexivity.
Qed.

Lemma judged_seq {A C} (m : ST Analyzer A) (k : ST Analyzer C) R lg : steady m -> judged k R lg -> judged (m ;;; k) R lg.
Proof. intros Hm Hk; exact (judged_bind m (fun _ => k) (fun _ => True) R anywhere lg (steady_judged m Hm) (fun _ _ => Hk)). Qed.

Lemma judged_then {A C} (m : ST Analyzer A) (k : A -> ST Analyzer C) Q R lg :
  judged m Q lg -> (forall x, Q x -> judged (k x) R anywhere) -> judged (bind m k) R lg.
Proof.
  intros Hm Hk a Hw; eapply yields_mono; [apply (judged_bind m k Q R lg anywhere Hm Hk a Hw)|].
  intros y a' (HR & HK & HL); split; [exact HR|split; [exact HK|]]; intros Hq; specialize (HL Hq).
  unfold lawful, anywhere in *; rewrite andb_true_r in HL; exact HL.
Qed.

Lemma judged_weaken {A} (m : ST Analyzer A) (Q R : A -> Prop) (lg lg' : bool -> bool -> bool) :
  judged m Q lg -> (forall x, Q x -> R x) -> (forall l w, lg l w = true -> lg' l w = true) -> judged m R lg'.
Proof.
  intros H HQ HL a Hw; eapply yields_mono; [apply H, Hw|]; intros x a' (H1 & H2 & H3).
  split; [apply HQ, H1|split; [exact H2|]]; intros Hq; apply HL, H3, Hq.
Qed.

(** ** Brackets *)
Lemma bracket_at {A} push pop (m : ST Analyzer A) Q lg a :
  wf (push (context a)) -> pop (push (context a)) = context a ->
  (no_variables -> scopes_plain (context a) -> scopes_plain (push (context a))) -> judged m Q lg ->
  yields (bracket (modify (set_context push)) (modify (set_context pop)) m) a
    (fun x a' => Q x /\ keeps a a' /\ (quiet a a' -> lawful lg (push (context a)))).
Proof.
  intros Hw Hpop Hs Hm; unfold bracket; apply yields_bind, yields_modify, yields_bind.
  eapply yields_mono; [apply (Hm (set_context push a)), Hw|]; intros x a1 (HQ & [H1 H2 (ds & H3 & H4)] & HL).
  apply yields_bind, yields_modify, yields_ret; simpl in *; split; [exact HQ|]; split; [|exact HL].
  constructor; simpl; [rewrite H1; exact Hpop|exact H2|exists ds; split; [exact H3|auto]].
Qed.

Lemma judged_bracket {A} push pop (m : ST Analyzer A) Q (lg lg' : bool -> bool -> bool) :
  (forall c, wf c -> wf (push c) /\ pop (push c) = c /\ scopeStack (push c) = scopeStack c /\ (lawful lg (push c) -> lawful lg' c)) ->
  judged m Q lg -> judged (bracket (modify (set_context push)) (modify (set_context pop)) m) Q lg'.
Proof.
  intros H Hm a Hw; destruct (H _ Hw) as (H1 & H2 & H3 & H4).
  eapply yields_mono; [apply (bracket_at push pop m Q lg a H1 H2); [unfold scopes_plain; rewrite H3; auto|exact Hm]|].
  intros x a' (HQ & HK & HL); auto.
Qed.

Lemma judged_restoring {A} (m : ST Analyzer A) Q lg : judged m Q lg -> judged (restoring_assigned m) Q lg.
Proof.
  intros Hm; unfold restoring_assigned.
  apply (judged_weaken _ Q Q (fun l w => anywhere l w && lg l w)); auto.
  eapply judged_bind; [apply steady_judged, steady_get|]; intros saved _; simpl.
  eapply judged_then; [exact Hm|]; intros x Hx; apply judged_seq; [apply steady_modify; auto|apply judged_ret, Hx].
Qed.

Lemma inside_succ d : (0 <= d)%Z -> inside (d + 1) = true.
Proof. intros H; unfold inside; destruct (Z.eqb_spec (d + 1) 0); [lia|reflexivity]. Qed.

Lemma context_eta c : mkContext (loopDepth c) (switchDepth c) (currentMethodIsAsync c) (tryCatchStack c)
  (effectiveCaughtTypes c) (catchAllDepth c) (catchExceptionStack c) (scopeStack c) = c.
Proof. destruct c; reflexivity. Qed.

Lemma judged_loop {A} (m : ST Analyzer A) Q lg : judged m Q lg ->
  judged (bracket (modify (set_context (set_depths 1 0))) (modify (set_context (set_depths (-1) 0))) m) Q (fun _ w => lg true w).
Proof.
  apply judged_bracket; intros c [H1 H2 H3 H4]; split; [constructor; simpl; auto; lia|].
  split; [unfold set_depths; simpl; rewrite <- (context_eta c) at 9; f_equal; lia|]; split; [reflexivity|].
  unfold lawful; simpl; rewrite inside_succ, Z.add_0_r by exact H1; auto.
Qed.

Lemma judged_in_switch {A} (m : ST Analyzer A) Q lg : judged m Q lg ->
  judged (bracket (modify (set_context (set_depths 0 1))) (modify (set_context (set_depths 0 (-1)))) m) Q (fun l _ => lg l true).
Proof.
  apply judged_bracket; intros c [H1 H2 H3 H4]; split; [constructor; simpl; auto; lia|].
  split; [unfold set_depths; simpl; rewrite <- (context_eta c) at 9; f_equal; lia|]; split; [reflexivity|].
  unfold lawful; simpl; rewrite inside_succ, Z.add_0_r by exact H2; auto.
Qed.

Lemma judged_try {A} clauses (m : ST Analyzer A) Q lg : judged m Q lg -> judged (bracket (PushTryCatch B clauses) PopTryCatch m) Q lg.
Proof.
  apply judged_bracket; intros c [H1 H2 H3 H4]; split; [constructor; simpl; auto|].
  split; [simpl; unfold RebuildEffectiveCaughtTypes; simpl; rewrite <- H3, <- H4; apply context_eta|auto].
Qed.

Lemma judged_catch {A} ty (m : ST Analyzer A) Q lg : judged m Q lg -> judged (bracket (PushCatchException ty) PopCatchException m) Q lg.
Proof.
  apply judged_bracket; intros c [H1 H2 H3 H4]; split; [constructor; simpl; auto|]; split; [destruct c; reflexivity|auto].
Qed.

(** ** Members *)
Definition symbol_plain (s : ScopeSymbol) : Prop := match s with Declared s => as_Variable B s = None | ThisParameter => True end.

(** In the scope pushed over [c] for a member. *)
Definition scoped (c : FlowContext) (a : Analyzer) : Prop :=
  exists scope, context a = set_scopes (scope :: scopeStack c) c /\ (no_variables -> scope_plain scope).
Definition declares (c : FlowContext) (a a' : Analyzer) : Prop :=
  scoped c a' /\ Diagnostics a' = Diagnostics a.

Lemma declare_symbol c s a : (no_variables -> symbol_plain s) -> scoped c a ->
  yields (DeclareSymbol B s) a (fun _ a' => declares c a a').
Proof.
  intros Hs (scope & Hc & Hp); unfold DeclareSymbol; apply yields_bind, yields_get; rewrite Hc; simpl.
  destruct (decide _); [intros x a' [=]|]; apply yields_modify; split; [|reflexivity].
  exists (<[name_of B s := s]> scope); simpl; rewrite Hc; split; [reflexivity|]; intros Hn name d.
  rewrite lookup_insert_Some; intros [[_ ->]|[_ H]]; [apply (Hs Hn)|apply (Hp Hn name d H)].
Qed.

Lemma declare_all {A} (f : A -> ST Analyzer unit) l c :
  (forall x, In x l -> forall a, scoped c a -> yields (f x) a (fun _ a' => declares c a a')) ->
  forall a, scoped c a -> yields (visit_all f l) a (fun _ a' => declares c a a').
Proof.
  induction l as [|x l IH]; intros Hf a Ha; simpl; [apply yields_ret; split; [exact Ha|reflexivity]|].
  apply yields_bind; eapply yields_mono; [apply Hf; [left; reflexivity|exact Ha]|]; intros _ a1 [H1 D1]; simpl.
  eapply yields_mono; [apply IH; [intros y Hy; apply Hf; right; exact Hy|exact H1]|]; intros _ a2 [H2 D2].
  split; [exact H2|congruence].
Qed.

Lemma judged_member method typeParameters hasThis (analyze : ST Analyzer unit) Q lg :
  (no_variables -> forall s, In s typeParameters -> as_Variable B s = None) -> judged analyze Q lg ->
  judged (within_member B method typeParameters hasThis analyze) (fun _ => True) lg.
Proof.
  intros Ht Han a Hw; unfold within_member, EnterMemberBody, LeaveMemberBody, bracket.
  apply yields_bind, yields_bind, yields_modify, yields_modify, yields_bind, yields_bind, yields_modify, yields_bind, yields_bind.
  set (c := context a) in *.
  eapply yields_mono; [apply (declare_all _ _ c); [intros s Hs a1 H1; apply declare_symbol; [intros Hn; apply (Ht Hn s Hs)|exact H1]|]|].
  { exists ∅; split; [reflexivity|]; intros _ name s [=]. }
  intros _ a1 [H1 D1]; apply yields_bind.
  eapply yields_mono with (P := fun _ a2 => scoped c a2 /\ Diagnostics a2 = Diagnostics a1).
  { destruct hasThis; [apply declare_symbol; [intros _; exact I|exact H1]|apply yields_ret; auto]. }
  intros _ a2 [H2 D2]; apply yields_bind; eapply yields_mono; [apply (declare_all _ _ c); [|exact H2]|].
  { intros p Hp a3 H3; apply yields_bind; eapply yields_mono; [apply (declare_symbol c); [|exact H3]|].
    - intros Hn; apply (parameters_plain Hn method p Hp).
    - intros _ a4 [(scope & H4 & H5) D4]; destruct (as_Variable B p); [apply yields_modify|apply yields_ret];
        (split; [exists scope; auto|exact D4]). }
  intros _ a3 [(scope & H3 & P3) D3]; simpl in *.
  assert (Hw3 : wf (context a3)) by (rewrite H3; destruct Hw; constructor; assumption).
  eapply yields_mono; [apply (Han a3 Hw3)|]; intros x a4 (_ & [H4 _ (ds & D4 & E4)] & L4).
  apply yields_bind, yields_modify, yields_ret, yields_bind, yields_modify, yields_modify; simpl.
  assert (HD : Diagnostics a3 = Diagnostics a) by congruence; unfold quiet, lawful in *; simpl; rewrite H3, HD in *; simpl in L4.
  split; [exact I|]; split; [constructor; simpl; [rewrite H4; unfold c; destruct (context a); reflexivity|auto|]|auto].
  exists ds; split; [exact D4|]; intros Hn Hs; apply E4; [exact Hn|]; constructor; [apply P3, Hn|exact Hs].
Qed.

(** What [AnalyzeMemberBody] asks of the state of a body. *)
Definition returns_ok (method : MethodId) (state : FlowState) : bool :=
  match must_return B method with
  | Some _ => negb (HasFlag state Normal) && (negb (HasFlag state Breaks) && negb (HasFlag state Continues))
  | None => true
  end.

Lemma reported_not_quiet t m a : ~ quiet a (add_diagnostic (mkDiagnostic Error t m) a).
Proof.
  unfold quiet; simpl; rewrite <- (app_nil_r (Diagnostics a)) at 2; intros H; apply app_inv_head in H; discriminate.
Qed.

Lemma judged_missing method token state :
  judged (visit_opt (fun returnType =>
      when (negb (negb (HasFlag state Normal)) || negb (negb (HasFlag state Breaks) && negb (HasFlag state Continues)))
        (ReportMissingReturn B token returnType)) (must_return B method))
    (fun _ => True) (fun _ _ => returns_ok method state).
Proof.
  intros a Hw; unfold returns_ok, lawful; destruct (must_return B method) as [ty|]; simpl.
  - rewrite negb_involutive; destruct (HasFlag state Normal), (negb (HasFlag state Breaks) && negb (HasFlag state Continues)); simpl;
      try (apply yields_ret; split; [exact I|split; [reflexivity|reflexivity]]);
      (apply yields_modify; split; [exact I|split; [apply keeps_report; intros rest; discriminate|]];
       intros Hq; destruct (reported_not_quiet _ _ _ Hq)).
  - apply yields_ret; split; [exact I|split; [reflexivity|reflexivity]].
Qed.

Lemma judged_body AnalyzeBlock method body token lg :
  judged (AnalyzeBlock body) (fun state => state = flow_block body) lg ->
  judged (AnalyzeMemberBody B AnalyzeBlock method body token) (fun _ => True)
    (fun l w => lg l w && returns_ok method (flow_block body)).
Proof.
  intros Hb a Hw; unfold AnalyzeMemberBody; apply yields_bind, yields_get; cbn beta; apply yields_bind.
  eapply yields_mono; [apply (bracket_at _ _ _ (fun state => state = flow_block body) lg a); [..|exact Hb]|].
  { destruct Hw; constructor; assumption. }
  { destruct (context a); reflexivity. }
  { intros _ Hs; exact Hs. }
  intros state a1 (-> & H1 & L1).
  eapply yields_mono; [apply judged_missing; rewrite (kept_context _ _ H1); exact Hw|]; intros x a2 (_ & H2 & L2).
  split; [exact I|]; split; [etransitivity; [exact H1|exact H2]|]; intros Hq.
  destruct (quiet_split _ _ _ H1 H2 Hq) as [Q1 Q2]; specialize (L1 Q1); specialize (L2 Q2); unfold lawful in *.
  simpl in L1; rewrite L1, L2; reflexivity.
Qed.
End Facts.
