(* ===== verification/FlowInduction.v ===== *)
(** * Flow analysis: every visit is judged

    By induction over the syntax tree, visits of expressions are [steady] and those
    of statements and blocks [judged] by [flow_of] and [legal]. *)
From Stdlib Require Import ZArith Lia Bool List String.
From stdpp Require Import base list gmap sets.
From S2P Require Import Prelude Tokens SyntaxTree SyntaxInd Effects Flow FlowVisit FlowPaths FlowFacts.
Import ListNotations.
Open Scope shard_scope.

Section Visits.
Context (B : Bindings).
Local Abbreviation Steady := (steady B) (only parsing).

(** A visit of a statement or block with the state [state] and the rule [lg]. *)
Definition follows (m : ST Analyzer FlowState) (state : FlowState) (lg : bool -> bool -> bool) : Prop :=
  judged B m (fun st => st = state) lg.

Lemma follows_steady m state lg : follows m state lg -> steady B m.
Proof. apply judged_steady. Qed.

Lemma follows_ret state : follows (ret state) state anywhere.
Proof. apply judged_ret; reflexivity. Qed.

Lemma follows_then {A} (m : ST Analyzer A) state : steady B m -> follows (m ;;; ret state) state anywhere.
Proof. intros H; apply judged_seq; [exact H|apply follows_ret]. Qed.

(** ** Blocks, branches, cases and catches *)
Lemma follows_statements analyze ss :
  Forall (fun s => follows (analyze s) (flow_of s) (fun l w => legal l w s)) ss ->
  forall c, follows (AnalyzeStatements analyze ss c) (flow_list flow_of ss c) (fun l w => legal_list flow_of (legal l w) ss c).
Proof.
  induction 1 as [|s ss Hs _ IH]; intros c; simpl; [apply follows_ret|]; destruct (IsTerminal c).
  - eapply judged_weaken; [eapply judged_bind; [apply steady_judged, steady_get|]|intros st H; exact H|reflexivity].
    intros a _; apply follows_then, steady_when, steady_report; intros rest; discriminate.
  - eapply judged_bind; [exact Hs|]; intros st ->; apply IH.
Qed.

Definition follows_block (AnalyzeBlock : StatementsBlockSyntax -> ST Analyzer FlowState) (b : StatementsBlockSyntax) : Prop :=
  follows (AnalyzeBlock b) (flow_block b) (fun l w => legal_block l w b).

Lemma follows_clause scan AnalyzeBlock next condition body n :
  of_opt (fun s => steady B (scan s)) condition -> follows_block AnalyzeBlock body ->
  of_opt (fun s => follows (next s) (flow_of s) (fun l w => legal l w s)) n ->
  follows (AnalyzeConditionalClause scan AnalyzeBlock next condition body n)
    (MergeBranches (flow_block body) match n with Some n => flow_of n | None => Normal end)
    (fun l w => legal_block l w body && match n with Some n => legal l w n | None => true end).
Proof.
  intros Hc Hb Hn; unfold AnalyzeConditionalClause; apply judged_seq; [apply steady_opt, Hc|].
  eapply judged_bind; [exact Hb|]; intros st ->.
  eapply judged_then with (Q := fun st => st = match n with Some n => flow_of n | None => Normal end);
    [destruct n; [exact Hn|apply follows_ret]|]; intros st ->; apply follows_ret.
Qed.

Lemma follows_cases VisitExpression AnalyzeBlock clauses :
  Forall (fun w => of_opt (fun e => steady B (VisitExpression e)) (clause_Pattern w) /\ follows_block AnalyzeBlock (clause_Body w)) clauses ->
  forall c has, judged B (AnalyzeSwitchClauses VisitExpression AnalyzeBlock clauses c has)
    (fun r => r = flow_cases flow_block clauses c has)
    (fun l w => forallb (fun x => match x with SwitchCaseClause _ _ _ b => legal_block l w b end) clauses).
Proof.
  induction 1 as [|[k t p b] clauses [Hp Hb] _ IH]; intros c has; simpl; [apply judged_ret; reflexivity|].
  apply judged_seq; [apply steady_opt, Hp|]; eapply judged_bind; [exact Hb|]; intros st ->; apply IH.
Qed.

Lemma follows_catches AnalyzeBlock catches :
  Forall (fun c => follows_block AnalyzeBlock (catch_Body c)) catches ->
  forall c first, follows (AnalyzeCatchClauses B AnalyzeBlock catches c first) (flow_catches flow_block catches c first)
    (fun l w => forallb (fun x => match x with CatchClause _ _ _ _ _ _ b => legal_block l w b end) catches).
Proof.
  induction 1 as [|[k o i n p ty b] catches Hb _ IH]; intros c first; simpl; [apply follows_ret|].
  apply judged_seq; [apply steady_opt, of_opt_all; intros v; apply steady_modify; intros a; apply keeps_assigned|].
  eapply judged_bind; [apply (judged_catch B _ _ _ _ Hb)|]; intros st ->; apply IH.
Qed.

Lemma follows_switch VisitExpression AnalyzeBlock e clauses :
  of_opt (fun e => steady B (VisitExpression e)) e ->
  Forall (fun w => of_opt (fun e => steady B (VisitExpression e)) (clause_Pattern w) /\ follows_block AnalyzeBlock (clause_Body w)) clauses ->
  follows (AnalyzeSwitch VisitExpression AnalyzeBlock e clauses)
    (let result := flow_cases flow_block clauses Normal false in if snd result then fst result else Normal)
    (fun l _ => forallb (fun x => match x with SwitchCaseClause _ _ _ b => legal_block l true b end) clauses).
Proof.
  intros He Hc; unfold AnalyzeSwitch; apply judged_seq; [apply steady_opt, He|].
  pose proof (judged_in_switch B _ _ _ (judged_restoring B _ _ _ (follows_cases _ _ _ Hc Normal false))) as H.
  eapply judged_then; [exact H|]; intros r ->; apply judged_ret; reflexivity.
Qed.

Lemma follows_try AnalyzeBlock k b catches :
  follows_block AnalyzeBlock b -> Forall (fun c => follows_block AnalyzeBlock (catch_Body c)) catches ->
  follows (AnalyzeTry B AnalyzeBlock b catches) (flow_of (TryStatementSyntax k b catches))
    (fun l w => legal_block l w b && forallb (fun x => match x with CatchClause _ _ _ _ _ _ b => legal_block l w b end) catches).
Proof.
  intros Hb Hc; rewrite flow_try; unfold AnalyzeTry; destruct catches as [|c catches].
  - eapply judged_weaken; [exact Hb|auto|]; intros l w H; rewrite H; reflexivity.
  - eapply judged_bind; [apply (judged_try B (c :: catches) _ _ _ Hb)|]; intros st ->.
    eapply judged_then; [apply (follows_catches _ _ Hc Normal true)|]; intros r ->; apply judged_ret; reflexivity.
Qed.

(** ** Loops *)
Lemma judged_loop_visit VisitExpression AnalyzeBlock e b :
  of_opt (fun e => steady B (VisitExpression e)) e -> follows_block AnalyzeBlock b ->
  judged B (VisitLoop VisitExpression AnalyzeBlock e b) (fun _ => True) (fun _ w => legal_block true w b).
Proof.
  intros He Hb; unfold VisitLoop, AnalyzeLoopBody; apply judged_seq; [apply steady_opt, He|].
  eapply judged_then with (Q := fun _ => True); [|intros; apply judged_ret; exact I].
  eapply judged_then; [exact (judged_loop B _ _ _ (judged_restoring B _ _ _ Hb))|]; intros; apply judged_ret; exact I.
Qed.

Lemma steady_part (analyze : StatementSyntax -> ST Analyzer FlowState) s :
  of_opt (fun s => follows (analyze s) (flow_of s) (fun l w => legal l w s)) s -> steady B (visit_opt (fun s => analyze s ;;; ret tt) s).
Proof.
  intros H; apply steady_opt; destruct s; [|exact I].
  apply steady_bind; [apply (follows_steady _ _ _ H)|intros; apply steady_ret].
Qed.

Lemma judged_for VisitExpression analyze AnalyzeBlock i e r b :
  of_opt (fun e => steady B (VisitExpression e)) e -> follows_block AnalyzeBlock b ->
  of_opt (fun s => follows (analyze s) (flow_of s) (fun l w => legal l w s)) i ->
  of_opt (fun s => follows (analyze s) (flow_of s) (fun l w => legal l w s)) r ->
  judged B (VisitForStatement VisitExpression analyze AnalyzeBlock i e r b) (fun _ => True) (fun _ w => legal_block true w b).
Proof.
  intros He Hb Hi Hr; unfold VisitForStatement, AnalyzeLoopBody; apply judged_seq; [apply steady_part, Hi|].
  apply judged_seq; [apply steady_opt, He|].
  eapply judged_then with (Q := fun _ => True); [|intros; apply steady_judged, steady_part, Hr].
  eapply judged_then; [exact (judged_loop B _ _ _ (judged_restoring B _ _ _ Hb))|]; intros; apply judged_ret; exact I.
Qed.

(** ** The jumps *)
Lemma follows_break t k : follows (AnalyzeStatement B (BreakStatementSyntax t k)) Breaks (fun l w => l || w).
Proof.
  intros a Hw; simpl; apply yields_bind, yields_get; cbn beta; unfold lawful, inside.
  destruct (Z.eqb_spec (loopDepth (context a)) 0), (Z.eqb_spec (switchDepth (context a)) 0); simpl;
    try (apply yields_ret; split; [reflexivity|split; [reflexivity|reflexivity]]).
  apply yields_bind, yields_modify, yields_ret; split; [reflexivity|]; split; [apply keeps_report; intros rest; discriminate|].
  intros Hq; destruct (reported_not_quiet _ _ _ Hq).
Qed.

Lemma follows_continue t k : follows (AnalyzeStatement B (ContinueStatementSyntax t k)) Continues (fun l _ => l).
Proof.
  intros a Hw; simpl; apply yields_bind, yields_get; cbn beta; unfold lawful, inside.
  destruct (Z.eqb_spec (loopDepth (context a)) 0); simpl;
    try (apply yields_ret; split; [reflexivity|split; [reflexivity|reflexivity]]).
  apply yields_bind, yields_modify, yields_ret; split; [reflexivity|]; split; [apply keeps_report; intros rest; discriminate|].
  intros Hq; destruct (reported_not_quiet _ _ _ Hq).
Qed.

Lemma steady_variable s e : steady B (VisitVariableStatement B s e).
Proof.
  unfold VisitVariableStatement, MarkAssigned; destruct (LookupVariable B s), e; try apply steady_ret.
  apply steady_bind; [apply steady_use|intros; apply steady_modify; intros a; apply keeps_assigned].
Qed.

(** ** The induction *)
Definition visited (s : StatementSyntax) : Prop :=
  steady B (ScanStatement B s) /\ follows (AnalyzeStatement B s) (flow_of s) (fun l w => legal l w s).
Definition visited_block (b : StatementsBlockSyntax) : Prop := follows_block (AnalyzeStatementsBlock B) b.

Lemma of_opt_mono {A} (P Q : A -> Prop) o : of_opt P o -> (forall x, P x -> Q x) -> of_opt Q o.
Proof. destruct o; simpl; auto. Qed.

Lemma visited_analyze o : of_opt visited o -> of_opt (fun s => follows (AnalyzeStatement B s) (flow_of s) (fun l w => legal l w s)) o.
Proof. intros H; apply (of_opt_mono _ _ _ H); intros s Hs; apply Hs. Qed.

Lemma visited_loop t e b :
  of_opt (fun e => steady B (VisitExpression B e)) e -> visited_block b ->
  (ScanStatement B t = VisitLoop (VisitExpression B) (AnalyzeStatementsBlock B) e b) ->
  (AnalyzeStatement B t = (VisitLoop (VisitExpression B) (AnalyzeStatementsBlock B) e b ;;; ret Normal)) ->
  flow_of t = Normal -> (forall l w, legal l w t = legal_block true w b) -> visited t.
Proof.
  intros He Hb HS HA HF HL; pose proof (judged_loop_visit _ _ _ _ He Hb) as HJ; split; [rewrite HS; apply (judged_steady B _ _ _ HJ)|].
  rewrite HA, HF; apply judged_weaken with (Q := fun st => st = Normal) (lg := fun _ w => legal_block true w b);
    [eapply judged_then; [exact HJ|intros; apply judged_ret; reflexivity]|auto|].
  intros l w H; rewrite HL; exact H.
Qed.

Lemma visited_clause t condition b n :
  of_opt visited condition -> visited_block b -> of_opt visited n ->
  ScanStatement B t = ret tt ->
  AnalyzeStatement B t = AnalyzeConditionalClause (ScanStatement B) (AnalyzeStatementsBlock B) (AnalyzeStatement B) condition b n ->
  flow_of t = MergeBranches (flow_block b) match n with Some n => flow_of n | None => Normal end ->
  (forall l w, legal l w t = legal_block l w b && match n with Some n => legal l w n | None => true end) -> visited t.
Proof.
  intros Hc Hb Hn HS HA HF HL; split; [rewrite HS; apply steady_ret|]; rewrite HA, HF.
  eapply judged_weaken; [apply (follows_clause _ _ _ condition b n)|auto|].
  - apply (of_opt_mono _ _ _ Hc); intros s Hs; apply Hs.
  - exact Hb.
  - apply visited_analyze, Hn.
  - intros l w H; rewrite HL; exact H.
Qed.

Lemma visited_plain t (m : ST Analyzer unit) state :
  steady B (ScanStatement B t) -> steady B m -> AnalyzeStatement B t = (m ;;; ret state) -> flow_of t = state ->
  (forall l w, legal l w t = true) -> visited t.
Proof.
  intros HS Hm HA HF HL; split; [exact HS|]; rewrite HA, HF; eapply judged_weaken; [apply follows_then, Hm|auto|].
  intros l w _; apply HL.
Qed.

Lemma visits :
  (forall e, steady B (VisitExpression B e)) /\ (forall a, steady B (VisitSwitchArm B a)) /\
  (forall g, steady B (VisitArgument B g)) /\ (forall l, steady B (VisitArgumentsList B l)) /\
  (forall s, visited s) /\ (forall c, visited_block (catch_Body c)) /\
  (forall w, of_opt (fun e => steady B (VisitExpression B e)) (clause_Pattern w) /\ visited_block (clause_Body w)) /\
  (forall b, visited_block b).
Proof.
  pose proof (steady_write B); pose proof (steady_callee B); pose proof (steady_await B); pose proof (steady_invocation B).
  apply syntax_induction; intros; try (apply steady_ret);
    try (simpl; repeat first [assumption | apply steady_when | apply steady_opt; assumption | apply steady_opt, of_opt_all; intros ?; simpl
      | apply steady_all; assumption | apply steady_bind; [|intros _] | solve [auto]]; fail).
  - simpl; apply steady_all; eapply Forall_impl; [eassumption|]; intros o Ho; apply steady_opt, Ho.
  - simpl; unfold VisitLambda; apply steady_opt, of_opt_all; intros m.
    eapply judged_steady, judged_member; [intros _ ? []|apply judged_body, H3].
  - split; [apply steady_opt; assumption|]; simpl; apply judged_seq; [|apply follows_then, steady_opt; assumption].
    apply steady_opt, of_opt_all; intros e; apply steady_bind; [apply steady_assignment|intros; apply steady_use].
  - split; [apply steady_variable|]; simpl; apply judged_seq; [apply steady_opt; assumption|]; apply follows_then, steady_variable.
  - split; [apply steady_opt; assumption|]; apply follows_then, steady_opt; assumption.
  - split; [apply steady_opt; assumption|]; simpl; apply judged_seq; [apply steady_opt; assumption|]; apply follows_then, steady_throw.
  - split; [apply steady_ret|apply follows_break].
  - split; [apply steady_ret|apply follows_continue].
  - split; [apply steady_ret|]; simpl; destruct x2 as [s|]; [|apply follows_then, steady_ret].
    apply judged_weaken with (Q := fun st => st = Normal) (lg := fun l w => legal l w s); auto.
    eapply judged_then with (Q := fun _ => True); [|intros; apply follows_ret].
    eapply judged_then; [apply H3|intros; apply judged_ret; exact I].
  - apply (visited_clause _ x3 x4 x5); auto.
  - apply (visited_clause _ x3 x4 x5); auto.
  - split; [apply steady_error|]; exact H3.
  - apply (visited_loop _ x4 x5); auto.
  - apply (visited_loop _ x4 x5); auto.
  - pose proof (judged_for (VisitExpression B) (AnalyzeStatement B) (AnalyzeStatementsBlock B) x6 x7 x8 x9 H4 H6
      (visited_analyze _ H3) (visited_analyze _ H5)) as HJ; split; [apply (judged_steady B _ _ _ HJ)|].
    eapply judged_then; [exact HJ|]; intros; apply follows_ret.
  - apply (visited_loop _ x3 x4); auto.
  - apply (visited_loop _ x3 x4); auto.
  - split; [apply steady_ret|]; apply (follows_try _ x0 x1 x2 H3 H4).
  - split; [apply steady_ret|]; apply (follows_switch _ _ x5 x6 H3 H4).
  - apply follows_statements; eapply Forall_impl; [exact H3|]; intros s Hs; apply Hs.
Qed.

Lemma block_visited b : visited_block b.
Proof. apply visits. Qed.
Lemma expression_visited e : steady B (VisitExpression B e).
Proof. apply visits. Qed.

Lemma body_judged method body token :
  judged B (AnalyzeMemberBody B (AnalyzeStatementsBlock B) method body token) (fun _ => True)
    (fun l w => legal_block l w body && returns_ok B method (flow_block body)).
Proof. apply judged_body, block_visited. Qed.

(** ** Declarations *)
Lemma steady_method d : steady B (VisitMethodDeclaration B d).
Proof.
  unfold VisitMethodDeclaration; destruct (method_Body d), (LookupMethod B d) as [m|]; try apply steady_ret.
  eapply judged_steady, judged_member; [intros Hn; apply (type_parameters_plain B Hn)|apply body_judged].
Qed.
Lemma steady_operator d : steady B (VisitOperatorDeclaration B d).
Proof.
  unfold VisitOperatorDeclaration; destruct (op_Body d), (LookupOperator B d) as [m|]; try apply steady_ret.
  eapply judged_steady, judged_member; [intros _ ? []|apply body_judged].
Qed.
Lemma steady_block b : steady B (AnalyzeStatementsBlock B b ;;; ret tt).
Proof. apply steady_bind; [exact (follows_steady _ _ _ (block_visited b))|intros; apply steady_ret]. Qed.
Lemma steady_accessor d : steady B (VisitAccessorDeclaration B d).
Proof.
  unfold VisitAccessorDeclaration; destruct (acc_Body d), (LookupAccessor B d) as [m|]; try apply steady_ret.
  destruct (Type_ _ =tt _); (eapply judged_steady, judged_member; [intros _ ? []|]);
    [apply body_judged|apply steady_judged, steady_block].
Qed.
Lemma steady_constructor d : steady B (VisitConstructorDeclaration B d).
Proof.
  unfold VisitConstructorDeclaration; destruct (ctor_Body d), (LookupConstructor B d) as [m|]; try apply steady_ret.
  eapply judged_steady, judged_member; [intros _ ? []|apply steady_judged, steady_block].
Qed.

Fixpoint steady_declaration d : steady B (VisitMemberDeclaration B d).
Proof.
  pose proof expression_visited; pose proof steady_accessor.
  destruct d as [[]|[]|[]|d|d|d|d|d|d|d|d]; simpl; try apply steady_ret.
  1-3: apply steady_all, (list_all steady_declaration).
  - apply steady_all, list_all; intros f; apply steady_opt, of_opt_all; auto.
  - apply steady_constructor.
  - apply steady_method.
  - apply steady_operator.
  - apply steady_opt, of_opt_all; auto.
  - repeat (apply steady_bind; [|intros _]); apply steady_opt, of_opt_all; auto.
  - repeat (apply steady_bind; [|intros _]); apply steady_opt, of_opt_all; auto.
Qed.

Lemma steady_tree units : steady B (VisitSyntaxTree B units).
Proof.
  unfold VisitSyntaxTree, VisitCompilationUnit; apply steady_all, list_all; intros u; apply steady_all, list_all, steady_declaration.
Qed.
End Visits.
