(* ===== verification/FlowSpec.v ===== *)
(** * Flow analysis: properties

    What a body that the analysis accepts may do, that the analysis keeps its
    stacks balanced, how its flow states and effects relate to the paths of the
    program, and the paths it does not see. *)
From Stdlib Require Import ZArith Lia Bool List String.
From stdpp Require Import base list gmap sets.
From S2P Require Import Prelude Tokens SyntaxTree SyntaxInd Effects EffectsFacts Flow FlowVisit FlowPaths FlowFacts FlowInduction.
Import ListNotations.
Open Scope shard_scope.

(** ** Bodies to try them on *)
Module Bodies.
Definition tok (type : TokenType) (word : string) : SyntaxToken := token type (L word) empty_location.
Definition name (word : string) : ExpressionSyntax :=
  MemberAccessExpressionSyntax default_token (tok TokenType.Identifier word) None.
Definition block (ss : list StatementSyntax) : StatementsBlockSyntax :=
  StatementsBlock (tok TokenType.OpenBrace "{") (tok TokenType.CloseBrace "}") default_token ss default_token false.
Definition semicolon := tok TokenType.Semicolon ";".
Definition ret_ := ReturnStatementSyntax semicolon (tok TokenType.ReturnKeyword "return") (Some (name "x")).
Definition throw_ := ThrowStatementSyntax semicolon (tok TokenType.ThrowKeyword "throw") (Some (name "error")).
Definition break_ := BreakStatementSyntax semicolon (tok TokenType.BreakKeyword "break").
Definition if_ ss (next : option StatementSyntax) :=
  IfStatementSyntax (tok TokenType.IfKeyword "if") default_token default_token
    (Some (ExpressionStatementSyntax default_token (Some (name "c")))) (block ss) next.
Definition else_ ss := ElseStatementSyntax (tok TokenType.ElseKeyword "else") (block ss).
Definition case (ss : list StatementSyntax) := SwitchCaseClause (tok TokenType.CaseKeyword "case") default_token (Some (name "one")) (block ss).
Definition otherwise (ss : list StatementSyntax) := SwitchCaseClause (tok TokenType.DefaultKeyword "default") default_token None (block ss).
Definition switch_ clauses :=
  SwitchStatementSyntax default_token default_token default_token default_token default_token (Some (name "x")) clauses.
Definition try_ ss catches := TryStatementSyntax default_token (block ss) catches.
Definition catch_ ss :=
  CatchClause default_token default_token default_token default_token default_token
    (Some (IdentifierNameTypeSyntax (tok TokenType.Identifier "Error"))) (block ss).

(** The method [Get] (1) returns the type 11; [error] and [Error] are the type 12. *)
Definition sample : Bindings := {|
  LookupMethod _ := Some 1%positive; LookupOperator _ := None; LookupAccessor _ := None; LookupConstructor _ := None;
  LookupLambda _ := None; LookupVariable _ := None; CatchVariable _ := None; TypeSymbolOf _ := Some 12%positive;
  GetExpressionType _ := Some 12%positive; IsStaticContext _ := false; ToField _ := None; ToProperty _ := None;
  ToParameter _ := None; InvokedSymbol _ := None; IsDelegateInvocation _ := false; CtorSymbol _ := None;
  Setter _ := None; IsAsync _ := false; ReturnTypeOf _ := Some 11%positive; ParametersOf _ := [];
  TypeParametersOf _ := []; HasThis _ := true; HasOwnerType _ := true; MethodName _ := L "Get"; SymbolName _ := L "p";
  as_Variable _ := None; VariableName _ := L "v"; TopScope _ := None; TypeName _ := L "int"; TypeFullName _ := L "int";
  GenericUnderlying _ := None; IsAssignableTo t s := bool_decide (t = s); Any := 13%positive; Void := 14%positive |}.

(** The analysis of a body of [Get]: the errors reported. *)
Definition errors (ss : list StatementSyntax) : option (list wstring) :=
  match AnalyzeMemberBody sample (AnalyzeStatementsBlock sample) 1%positive (block ss) default_token (new_analyzer ∅ ∅) with
  | Some (_, a) => Some (map message (Diagnostics a))
  | None => None
  end.
Definition missing : wstring := L "Method must return a value of type 'int'".

(** [if (c) return x; else throw error;] *)
Definition good : list StatementSyntax := [if_ [ret_] (Some (else_ [throw_]))].
(** [switch (x) { case one: return x; }], and the same with a default that breaks on a
    condition *)
Definition no_default : list StatementSyntax := [switch_ [case [ret_]]].
Definition breaking_default : list StatementSyntax := [switch_ [otherwise [if_ [break_] None; ret_]]].
(** [try { throw error; } catch (Error) { return x; }] *)
Definition caught : list StatementSyntax := [try_ [throw_] [catch_ [ret_]]].

(** A file with one class, whose only member is a method with the body [ss]. *)
Definition unit_of (ss : list StatementSyntax) : CompilationUnitSyntax :=
  let base := mkMember [] default_token default_token [] None [] in
  mkUnit [] [ClassDeclarationSyntax (mkTypeDeclaration base default_token default_token []
    [MethodDeclaration (mkMethod base default_token default_token None (ParametersList default_token default_token []) (Some (block ss)))])] None.
End Bodies.
Import Bodies.

Example good_accepted : errors good = Some [].
Proof. vm_compute; reflexivity. Qed.
Example empty_rejected : errors [] = Some [missing].
Proof. vm_compute; reflexivity. Qed.
Example stray_break : errors [break_] = Some [L "Break statement must be inside a loop or switch"; missing].
Proof. vm_compute; reflexivity. Qed.

(** ** The warnings of the propagation *)
Lemma warnings_expected IsAssignableTo IsAsync MethodName TypeName fuel graph E E' warnings :
  PropagateEffects IsAssignableTo IsAsync MethodName TypeName fuel graph E = Some (E', warnings) ->
  Forall (fun w => expected (mkDiagnostic Warning_ (fst w) (snd w))) warnings.
Proof.
  unfold PropagateEffects; destruct (propagate_loop _ _ _ _ _) as [E1|]; [|discriminate]; intros [= _ <-].
  apply Forall_forall; intros w; rewrite list_elem_of_In; unfold ReportEffectDiagnostics.
  intros Hw; apply in_concat in Hw as (ws & Hws & Hw); apply in_map_iff in Hws as (entry & <- & _).
  apply in_concat in Hw as (ws & Hws & Hw); apply in_map_iff in Hws as (edge & <- & _).
  unfold report_edge in Hw; apply in_app_iff in Hw as [Hw|Hw].
  - apply in_map_iff in Hw as (t & <- & _); intros rest; destruct (IsAsync _ && IsAwaited _); discriminate.
  - destruct (MayThrow _ && _); [|destruct Hw]; destruct Hw as [<-|[]]; intros rest; destruct (IsAsync _ && IsAwaited _); discriminate.
Qed.

Lemma visit_warnings warnings : Forall (fun w => expected (mkDiagnostic Warning_ (fst w) (snd w))) warnings ->
  forall a a' d, Forall expected (Diagnostics a) ->
  visit_all (fun warning : Warning => ReportWarning (fst warning) (snd warning)) warnings a = Some (tt, a') ->
  In d (Diagnostics a') -> expected d.
Proof.
  induction 1 as [|w warnings Hw _ IH]; intros a a' d Ha.
  - intros [= <-]; rewrite Forall_forall in Ha; rewrite <- list_elem_of_In; apply Ha.
  - simpl; intros H; apply bind_Some in H as ([] & a1 & [= <-] & H); revert H; apply IH; simpl.
    apply Forall_app; split; [exact Ha|constructor; [exact Hw|constructor]].
Qed.

Section Spec.
Context (B : Bindings).

Definition returns_value (method : MethodId) : Prop := must_return B method <> None.

(** C5: Let the switches of a body have a default clause and break only at the end of a
    case ([clean]; [missed_paths] shows that the analysis accepts others wrongly).  When
    the analysis accepts the body, outside any loop or switch, with no new diagnostic, no
    path of it leaves by a [break] or [continue], and when the member must return a
    value, every path ends in a return or a throw. *)
Theorem accepted_body_ends method body token a a' o :
  wf (context a) -> loopDepth (context a) = 0%Z -> switchDepth (context a) = 0%Z -> clean_block body = true ->
  AnalyzeMemberBody B (AnalyzeStatementsBlock B) method body token a = Some (tt, a') ->
  Diagnostics a' = Diagnostics a -> ends_block body o ->
  match o with
  | Completes => ~ returns_value method
  | Breaking | Continuing => False
  | Returning | Throwing => True
  end.
Proof.
  intros Hw Hl Hs Hclean Hrun Hq Ho; destruct (body_judged B method body token a Hw tt a' Hrun) as (_ & _ & HL).
  specialize (HL Hq); unfold lawful, inside in HL; rewrite Hl, Hs in HL; simpl in HL; apply andb_true_iff in HL as [HL HR].
  rewrite legal_block_list in HL; rewrite clean_block_list in Hclean.
  destruct (proj2 legal_covers _ _ Ho Hclean Normal eq_refl _ _ HL) as [K1 K2].
  destruct (proj2 flow_covers _ _ Ho Hclean Normal eq_refl) as [K3 _]; rewrite <- flow_block_list in K3.
  unfold returns_ok, returns_value in *; destruct o; try exact I; try discriminate (K1 eq_refl); try discriminate (K2 eq_refl).
  destruct (must_return B method); [rewrite (K3 eq_refl) in HR; discriminate|auto].
Qed.

(** C22: The analysis of any set of files ends with the loop and switch depths, the try,
    catch and scope stacks and the set of caught types as they were, in no member
    or in the one it started in, and only adds diagnostics. *)
Theorem analysis_balanced units a a' :
  wf (context a) -> VisitSyntaxTree B units a = Some (tt, a') ->
  context a' = context a /\ (currentMethod a' = currentMethod a \/ currentMethod a' = None) /\
  exists ds, Diagnostics a' = (Diagnostics a ++ ds)%list.
Proof.
  intros Hw H; destruct (steady_tree B units a Hw tt a' H) as [H1 H2 (ds & H3 & _)]; eauto.
Qed.

(** C20: The flow state of a statement has the flag [Normal] exactly when some path
    through the statement completes, for a statement with no switch and no try
    outside its loops. *)
Theorem flow_state_exact s state a a' :
  wf (context a) -> simple s = true -> AnalyzeStatement B s a = Some (state, a') ->
  HasFlag state Normal = true <-> ends s Completes.
Proof.
  intros Hw Hs Hrun; destruct (proj1 (proj2 (proj2 (proj2 (proj2 (visits B))))) s) as [_ HV].
  destruct (HV a Hw state a' Hrun) as (-> & _ & _); split.
  - apply simple_completes, Hs.
  - intros He; apply (proj1 simple_covers _ _ He); [exact Hs|reflexivity].
Qed.

(** Unless a name of the scopes around the program stands for a variable, the
    analysis never says that a local variable is used unassigned: the scopes it
    pushes hold parameters, and a parameter is no variable. *)
Theorem unassigned_never_reported fuel units a a' d :
  no_variables B -> wf (context a) -> scopeStack (context a) = [] -> Diagnostics a = [] ->
  Analyze B fuel units a = Some (tt, a') -> In d (Diagnostics a') -> expected d.
Proof.
  intros Hn Hw Hs Hd Hrun; apply bind_Some in Hrun as ([] & a1 & H1 & H2).
  destruct (steady_tree B units a Hw tt a1 H1) as [_ _ (ds & D & HD)]; rewrite Hd in D; simpl in D.
  assert (Forall expected (Diagnostics a1)) as HE.
  { rewrite D; apply HD; [exact Hn|]; unfold scopes_plain; rewrite Hs; constructor. }
  apply bind_Some in H2 as (a2 & a3 & [= <- <-] & H2).
  destruct (PropagateEffects _ _ _ _ _ _ _) as [[summaries warnings]|] eqn:HP; [|discriminate].
  pose proof (warnings_expected _ _ _ _ _ _ _ _ _ HP) as HW.
  apply bind_Some in H2 as ([] & a2 & [= <-] & H2), H2 as ([] & a3 & [= <-] & H2).
  revert H2; apply visit_warnings; assumption.
Qed.

End Spec.

(** ** Paths the analysis does not see *)

(** The analysis takes a switch without a default clause to match always, and a case body
    to end as its last statement does: these two bodies are accepted, though a path of
    each returns no value.  [clean] excludes such switches. *)
Example missed_paths : Forall (fun body =>
    returns_value sample 1%positive /\ ends_block body Completes /\
    exists a', AnalyzeMemberBody sample (AnalyzeStatementsBlock sample) 1%positive body default_token (new_analyzer ∅ ∅) =
      Some (tt, a') /\ Diagnostics a' = [])
  [block no_default; block breaking_default].
Proof.
  constructor; [|constructor; [|constructor]]; (split; [discriminate|]; split; [|eexists; split; vm_compute; reflexivity]).
  - eapply ends_go; [apply ends_no_case; reflexivity|constructor].
  - eapply ends_go; [|constructor]; apply (ends_case _ _ _ _ _ _ _ (otherwise [if_ [break_] None; ret_]) Breaking); [left; reflexivity|].
    apply ends_stop; [|discriminate]; eapply ends_branch; [reflexivity|]; apply ends_stop; [constructor|discriminate].
Qed.

(** A try block that always throws and catches that always return: no path completes,
    and a missing return is reported. *)
Example caught_rejected : errors caught = Some [missing].
Proof. vm_compute; reflexivity. Qed.

(** A method whose only throw is caught where it is thrown may still throw. *)
Example caught_may_throw : exists a',
  VisitSyntaxTree sample [unit_of caught] (new_analyzer ∅ ∅) = Some (tt, a') /\
  MayThrow (summary_of (EffectSummaries a') 1%positive) = true /\ ThrownTypes (summary_of (EffectSummaries a') 1%positive) = ∅.
Proof. eexists; vm_compute; auto. Qed.

(** ** Witnesses *)
Lemma new_wf E ms : wf (context (new_analyzer E ms)).
Proof. constructor; simpl; [lia|lia|reflexivity|reflexivity]. Qed.

Lemma accepted_body_ends_witness : exists a',
  AnalyzeMemberBody sample (AnalyzeStatementsBlock sample) 1%positive (block good) default_token (new_analyzer ∅ ∅) = Some (tt, a') /\
  ~ ends_block (block good) Completes.
Proof.
  eexists; split; [vm_compute; reflexivity|]; intros H.
  apply (accepted_body_ends sample 1%positive (block good) default_token (new_analyzer ∅ ∅) (new_analyzer ∅ ∅) Completes) in H;
    [apply H; discriminate|apply new_wf|reflexivity|reflexivity|reflexivity|vm_compute; reflexivity|reflexivity].
Defined.

Lemma analysis_balanced_witness : exists a',
  VisitSyntaxTree sample [unit_of good; unit_of caught] (new_analyzer ∅ ∅) = Some (tt, a') /\ context a' = no_context /\
  length (Diagnostics a') = 1.
Proof.
  destruct (VisitSyntaxTree sample [unit_of good; unit_of caught] (new_analyzer ∅ ∅)) as [[[] a']|] eqn:H; [|vm_compute in H; discriminate].
  exists a'; split; [reflexivity|]; destruct (analysis_balanced sample _ _ a' (new_wf ∅ ∅) H) as (HC & _ & _).
  split; [exact HC|]; vm_compute in H; injection H as <-; reflexivity.
Defined.

Lemma flow_state_exact_witness : exists a',
  AnalyzeStatement sample (if_ [ret_] None) (new_analyzer ∅ ∅) = Some (17%Z, a') /\ ends (if_ [ret_] None) Completes.
Proof.
  eexists; split; [vm_compute; reflexivity|].
  eapply (flow_state_exact sample (if_ [ret_] None) 17%Z (new_analyzer ∅ ∅)); [apply new_wf|reflexivity|vm_compute; reflexivity|reflexivity].
Defined.

Lemma unassigned_never_reported_witness : exists a' d,
  Analyze sample 30 [unit_of []] (new_analyzer ∅ ∅) = Some (tt, a') /\ In d (Diagnostics a') /\ expected d.
Proof.
  destruct (Analyze sample 30 [unit_of []] (new_analyzer ∅ ∅)) as [[[] a']|] eqn:H; [|vm_compute in H; discriminate].
  assert (exists d, In d (Diagnostics a')) as [d Hd] by (vm_compute in H; injection H as <-; eexists; left; reflexivity).
  exists a', d; split; [reflexivity|]; split; [exact Hd|].
  apply (unassigned_never_reported sample 30 [unit_of []] (new_analyzer ∅ ∅) a' d); auto; [constructor; discriminate || reflexivity|apply new_wf].
Defined.
