(* ===== verification/TypeSystem.v ===== *)
(** * The relations between types

    SemanticModel.cpp and the lookups of TypeSymbol.cpp and GenericTypeSymbol.cpp:
    equality of types, the interfaces of a type, assignability, and the choice among
    overloads.  A symbol is a [TypeId], the [DefinitionIndex] its constructor takes from
    a counter and no other symbol has; what it holds is [types] of it, and a null pointer
    is [None].  Lists of symbols hold no null pointer, and the parameters of a bound
    method and of a delegate have types.
    [AreTypesEqual] and [CollectAllInterfaces] recur along pointers and take fuel. *)
From Stdlib Require Import ZArith Lia Bool List String.
From stdpp Require Import base list gmap sets option.
From S2P Require Import Prelude Tokens SyntaxFacts Effects.
Import ListNotations.
Open Scope shard_scope.

(** ** Symbols *)
Inductive TypeInlining := ByReference | ByValue.
#[export] Instance inlining_dec : EqDecision TypeInlining.
Proof. solve_decision. Defined.

Inductive Declared := ClassDeclaration | StructDeclaration | InterfaceDeclaration | EnumDeclaration | TypeParameter.
#[export] Instance declared_dec : EqDecision Declared.
Proof. solve_decision. Defined.

(** The class of the symbol with the members of its own. *)
Inductive Details :=
| DeclaredType (Kind : Declared)
| GenericType (UnderlayingType : TypeId) (typeParametersMap : gmap TypeId TypeId)
| ArrayType (UnderlayingType : option TypeId)
| DelegateType (ReturnType : option TypeId) (Parameters : list TypeId).

Record MethodSymbol := mkMethodSymbol {
  method_Name : wstring;
  method_Parameters : list TypeId;
  method_ReturnType : option TypeId }.

Record TypeSymbol := mkTypeSymbol {
  type_Name : wstring;
  details : Details;
  Interfaces : list TypeId;
  TypeParameters : list TypeId;
  Inlining : TypeInlining;
  Constructors : list MethodId;
  Methods : list MethodId;
  Operators : list MethodId;
  Indexators : list MethodId;
  InterfaceMethodMap : gmap MethodId MethodId }.

(** [SymbolTable::Primitives] and [StandardTypes], as far as they are used here. *)
Record KnownTypes := mkKnown {
  Any : TypeId; Null : TypeId; Array : TypeId; IEnumerable : TypeId;
  Boolean : TypeId; Integer : TypeId; Double : TypeId; Char : TypeId; String_ : TypeId; NativeInteger : TypeId }.

(** [a || b] and [a && b] where both may run out of fuel. *)
Definition or_else (a b : option bool) : option bool := match a with Some false => b | answer => answer end.
Definition and_then (a b : option bool) : option bool := match a with Some true => b | answer => answer end.

Section TypeSystem.
Context (types : TypeId -> TypeSymbol) (methods : MethodId -> MethodSymbol) (K : KnownTypes).

Definition is_interface (t : TypeId) : bool :=
  match details (types t) with DeclaredType InterfaceDeclaration => true | _ => false end.
Definition is_type_parameter (t : TypeId) : bool :=
  match details (types t) with DeclaredType TypeParameter => true | _ => false end.

Definition SubstituteTypeParameters (map : gmap TypeId TypeId) (typeParam : TypeId) : option TypeId := map !! typeParam.

(** ** Equality *)

(** The loops over two lists of one length, which stop at the first difference. *)
Fixpoint all_equal (equal : option TypeId -> option TypeId -> option bool) (pairs : list (option TypeId * option TypeId)) : option bool :=
  match pairs with
  | [] => Some true
  | (x, y) :: pairs =>
      match equal x y with
      | Some true => all_equal equal pairs
      | answer => answer
      end
  end.

Definition arguments (map : gmap TypeId TypeId) (parameters : list TypeId) : list (option TypeId) :=
  List.map (SubstituteTypeParameters map) parameters.

Fixpoint AreTypesEqual (fuel : nat) (left right : option TypeId) : option bool :=
  match fuel with
  | O => None
  | S fuel =>
      match left, right with
      | Some l, Some r =>
          match details (types l), details (types r) with
          | DeclaredType _, _ => Some (bool_decide (l = r))
          | GenericType u map, GenericType u' map' =>
              and_then (AreTypesEqual fuel (Some u) (Some u'))
                (if (length (TypeParameters (types u')) =? length (TypeParameters (types u)))%nat
                 then all_equal (AreTypesEqual fuel)
                   (combine (arguments map (TypeParameters (types u))) (arguments map' (TypeParameters (types u'))))
                 else Some false)
          | DelegateType (Some ret) ps, DelegateType (Some ret') ps' =>
              and_then (AreTypesEqual fuel (Some ret) (Some ret'))
                (if (length ps' =? length ps)%nat
                 then all_equal (AreTypesEqual fuel) (combine (List.map Some ps) (List.map Some ps'))
                 else Some false)
          | ArrayType (Some u), ArrayType (Some u') => AreTypesEqual fuel (Some u) (Some u')
          | _, _ => Some false
          end
      | _, _ => Some false
      end
  end.

(** ** Interfaces *)
Fixpoint CollectAllInterfaces (fuel : nat) (type : TypeId) (out : list TypeId) (visited : gset TypeId) :
    option (list TypeId * gset TypeId) :=
  match fuel with
  | O => None
  | S fuel =>
      fold_left (fun state iface =>
        match state with
        | Some (out, visited) =>
            if decide (iface ∈ visited) then Some (out, visited)
            else CollectAllInterfaces fuel iface (out ++ [iface]) ({[iface]} ∪ visited)
        | None => None
        end) (Interfaces (types type)) (Some (out, visited))
  end.

Definition GetAllInterfaces (fuel : nat) (type : TypeId) : option (list TypeId) :=
  match CollectAllInterfaces fuel type [] ∅ with
  | Some (out, _) => Some out
  | None => None
  end.

(** The first of the values that holds, when all before it do not. *)
Fixpoint any_of {A} (test : A -> option bool) (l : list A) : option bool :=
  match l with
  | [] => Some false
  | x :: l =>
      match test x with
      | Some false => any_of test l
      | answer => answer
      end
  end.

(** [matchesInterface] *)
Definition matchesInterface (fuel : nat) (underlying : TypeId) (target : gmap TypeId TypeId) (sourceType : TypeId)
    (candidate : TypeId) (map : gmap TypeId TypeId) : option bool :=
  if decide (candidate = underlying) then
    all_equal (AreTypesEqual fuel)
      (List.map (fun param =>
          let sourceArg := SubstituteTypeParameters map param in
          let sourceArg :=
            match sourceArg, details (types sourceType) with
            | Some arg, GenericType _ sourceMap => if is_type_parameter arg then SubstituteTypeParameters sourceMap arg else sourceArg
            | _, _ => sourceArg
            end in
          (SubstituteTypeParameters target param, sourceArg)) (TypeParameters (types underlying)))
  else Some false.

(** [checkTypeInterfaces] *)
Definition checkTypeInterfaces (fuel : nat) (underlying : TypeId) (target : gmap TypeId TypeId) (sourceType type : TypeId) : option bool :=
  match GetAllInterfaces fuel type with
  | Some ifaces =>
      any_of (fun iface =>
        match details (types iface) with
        | GenericType candidate map => matchesInterface fuel underlying target sourceType candidate map
        | _ => Some false
        end) ifaces
  | None => None
  end.

Definition IsConstructedInterfaceImplemented (fuel : nat) (underlying : TypeId) (target : gmap TypeId TypeId) (sourceType : TypeId) : option bool :=
  if is_interface underlying then
    or_else (checkTypeInterfaces fuel underlying target sourceType sourceType)
      match details (types sourceType) with
      | GenericType sourceUnderlying _ => checkTypeInterfaces fuel underlying target sourceType sourceUnderlying
      | ArrayType elementType =>
          or_else (checkTypeInterfaces fuel underlying target sourceType (Array K))
            match TypeParameters (types underlying) with
            | [param] =>
                if decide (underlying = IEnumerable K)
                then AreTypesEqual fuel (SubstituteTypeParameters target param) elementType
                else Some false
            | _ => Some false
            end
      | _ => Some false
      end
  else Some false.

(** ** Assignability *)
Definition equal_lists (fuel : nat) (ps ps' : list TypeId) : option bool :=
  if (length ps =? length ps')%nat then all_equal (AreTypesEqual fuel) (combine (List.map Some ps) (List.map Some ps'))
  else Some false.

(** A type parameter of the signature of a generic delegate is replaced where it has
    an argument. *)
Definition replace_parameter (map : gmap TypeId TypeId) (t : TypeId) : TypeId :=
  if is_type_parameter t then default t (SubstituteTypeParameters map t) else t.

Definition interface_among (fuel : nat) (target type : TypeId) : option bool :=
  match GetAllInterfaces fuel type with
  | Some ifaces => any_of (fun iface => AreTypesEqual fuel (Some target) (Some iface)) ifaces
  | None => None
  end.

(** The cases for a target that is an interface, a constructed type and a delegate. *)
Definition assign_interface (fuel : nat) (target source : TypeId) : option bool :=
  if is_interface target then
    or_else (interface_among fuel target source)
      match details (types source) with
      | ArrayType _ => interface_among fuel target (Array K)
      | _ => Some false
      end
  else Some false.

Definition assign_generic (fuel : nat) (target source : TypeId) : option bool :=
  match details (types target) with
  | GenericType underlying map =>
      or_else (IsConstructedInterfaceImplemented fuel underlying map source)
        match details (types underlying), details (types source) with
        | DelegateType (Some ret) ps, DelegateType (Some ret') ps' =>
            and_then (AreTypesEqual fuel (Some (replace_parameter map ret)) (Some ret'))
              (equal_lists fuel (List.map (replace_parameter map) ps) ps')
        | _, _ => Some false
        end
  | _ => Some false
  end.

Definition assign_delegate (fuel : nat) (target source : TypeId) : option bool :=
  match details (types target), details (types source) with
  | DelegateType ret ps, DelegateType ret' ps' =>
      and_then (AreTypesEqual fuel ret ret') (equal_lists fuel ps ps')
  | _, _ => Some false
  end.

Definition IsAssignableTo (fuel : nat) (target source : option TypeId) : option bool :=
  match target, source with
  | Some target, Some source =>
      or_else (AreTypesEqual fuel (Some target) (Some source))
        (if decide (target = Any K) then Some true
         else if decide (source = Null K) then
           Some (bool_decide (Inlining (types target) = ByReference) || bool_decide (target = Any K))
         else
           or_else (assign_interface fuel target source)
             (or_else (assign_generic fuel target source) (assign_delegate fuel target source)))
  | _, _ => Some false
  end.

Definition IsPrimitiveType (t : TypeId) : bool :=
  bool_decide (t = Boolean K) || bool_decide (t = Integer K) || bool_decide (t = Double K) || bool_decide (t = Char K) ||
  bool_decide (t = String_ K) || bool_decide (t = Array K) || bool_decide (t = NativeInteger K).

(** ** Display names *)
Fixpoint join (names : list wstring) : wstring :=
  match names with
  | [] => []
  | [name] => name
  | name :: names => name ++ L ", " ++ join names
  end.

Fixpoint map_all {A C} (f : A -> option C) (l : list A) : option (list C) :=
  match l with
  | [] => Some []
  | a :: l =>
      match f a, map_all f l with
      | Some c, Some cs => Some (c :: cs)
      | _, _ => None
      end
  end.

Fixpoint GetTypeDisplayName (fuel : nat) (type : option TypeId) : option wstring :=
  match fuel with
  | O => None
  | S fuel =>
      match type with
      | None => Some (L "<error>")
      | Some t =>
          match details (types t) with
          | GenericType u map =>
              match map_all (fun param => GetTypeDisplayName fuel (Some (default param (SubstituteTypeParameters map param))))
                      (TypeParameters (types u)) with
              | Some names => Some (type_Name (types u) ++ L "<" ++ join names ++ L ">")
              | None => None
              end
          | ArrayType u =>
              match GetTypeDisplayName fuel u with
              | Some name => Some (name ++ L "[]")
              | None => None
              end
          | _ => Some (type_Name (types t))
          end
      end
  end.

(** ** Overloads *)

(** The first symbol of [symbols] with the given name, when there is one, and whose
    parameters all accept the argument at their place. *)
Fixpoint accepts_all (accepts : TypeId -> TypeId -> option bool) (parameters argumentTypes : list TypeId) : option bool :=
  match parameters, argumentTypes with
  | p :: parameters, a :: argumentTypes =>
      match accepts p a with
      | Some true => accepts_all accepts parameters argumentTypes
      | answer => answer
      end
  | _, _ => Some true
  end.

Fixpoint find_symbol (applies : MethodSymbol -> bool) (accepts : TypeId -> TypeId -> option bool) (symbols : list MethodId)
    (parameterTypes : list TypeId) : option (option MethodId) :=
  match symbols with
  | [] => Some None
  | symbol :: symbols =>
      let method := methods symbol in
      if applies method && (length (method_Parameters method) =? length parameterTypes)%nat then
        match accepts_all accepts (method_Parameters method) parameterTypes with
        | Some true => Some (Some symbol)
        | Some false => find_symbol applies accepts symbols parameterTypes
        | None => None
        end
      else find_symbol applies accepts symbols parameterTypes
  end.

Definition paramPredicate (fuel : nat) (left right : TypeId) : option bool :=
  if decide (left = Any K) then Some true else IsAssignableTo fuel (Some left) (Some right).

Definition named (name : wstring) (method : MethodSymbol) : bool := method_Name method =w name.

(** [ArrayTypeSymbol] overrides the lookups and asks the type of arrays; for constructed
    types, [FindMethod] and [FindIndexator] are overridden by the two at the end. *)
Definition lookup_type (type : TypeId) : TypeId :=
  match details (types type) with ArrayType _ => Array K | _ => type end.

Definition FindConstructor (fuel : nat) (type : TypeId) (parameterTypes : list TypeId) : option (option MethodId) :=
  find_symbol (fun _ => true) (paramPredicate fuel) (Constructors (types (lookup_type type))) parameterTypes.
Definition FindMethod (fuel : nat) (type : TypeId) (name : wstring) (parameterTypes : list TypeId) : option (option MethodId) :=
  find_symbol (named name) (paramPredicate fuel) (Methods (types (lookup_type type))) parameterTypes.
Definition FindOperator (fuel : nat) (type : TypeId) (opToken : TokenType) (parameterTypes : list TypeId)
    (expectedReturnType : option TypeId) : option (option MethodId) :=
  let opName := SyntaxFacts.GetOperatorMethodName opToken in
  if opName =w [] then Some None
  else find_symbol (fun method => named opName method &&
         match expectedReturnType with Some t => bool_decide (method_ReturnType method = Some t) | None => true end)
         (paramPredicate fuel) (Operators (types type)) parameterTypes.
Definition FindIndexator (fuel : nat) (type : TypeId) (parameterTypes : list TypeId) : option (option MethodId) :=
  find_symbol (fun _ => true) (paramPredicate fuel) (Indexators (types (lookup_type type))) parameterTypes.

(** The predicate of [GenericTypeSymbol::FindMethod] and [FindIndexator], with the
    arguments [map] of the type it captured. *)
Definition generic_predicate (fuel : nat) (map : gmap TypeId TypeId) (left right : TypeId) : option bool :=
  if decide (left = Any K) then Some true
  else AreTypesEqual fuel (if is_type_parameter left then SubstituteTypeParameters map left else Some left) (Some right).

(** [predicate] is a static local: the first call initialises it and every later call,
    of any type, uses it.  [captured] is the [this] of the first call, when there was one. *)
Definition GenericFindMethod (fuel : nat) (captured : option (gmap TypeId TypeId)) (underlying : TypeId) (map : gmap TypeId TypeId)
    (name : wstring) (parameterTypes : list TypeId) : option (option MethodId) * option (gmap TypeId TypeId) :=
  let captured := default map captured in
  (find_symbol (named name) (generic_predicate fuel captured) (Methods (types underlying)) parameterTypes, Some captured).
Definition GenericFindIndexator (fuel : nat) (captured : option (gmap TypeId TypeId)) (underlying : TypeId) (map : gmap TypeId TypeId)
    (parameterTypes : list TypeId) : option (option MethodId) * option (gmap TypeId TypeId) :=
  let captured := default map captured in
  (find_symbol (fun _ => true) (generic_predicate fuel captured) (Indexators (types underlying)) parameterTypes, Some captured).

(** [GenericTypeSymbol::FindInterfaceImplementation] asks the underlying type,
    [ArrayTypeSymbol]'s the type of arrays. *)
Fixpoint FindInterfaceImplementation (fuel : nat) (type : TypeId) (interfaceMethod : MethodId) : option (option MethodId) :=
  match fuel with
  | O => None
  | S fuel =>
      match details (types type) with
      | GenericType underlying _ => FindInterfaceImplementation fuel underlying interfaceMethod
      | ArrayType _ => FindInterfaceImplementation fuel (Array K) interfaceMethod
      | _ =>
          match InterfaceMethodMap (types type) !! interfaceMethod with
          | Some implementation => Some (Some implementation)
          | None =>
              (fix go ifaces :=
                 match ifaces with
                 | [] => Some None
                 | iface :: ifaces =>
                     if is_interface iface then
                       match FindInterfaceImplementation fuel iface interfaceMethod with
                       | Some None => go ifaces
                       | answer => answer
                       end
                     else go ifaces
                 end) (Interfaces (types type))
          end
      end
  end.
End TypeSystem.
