(* ===== verification/TypeSystemFacts.v ===== *)
(** * The relations between types: lemmas

    A type denotes a term: declared types are constants, constructed types, arrays
    and delegates are built from the terms of their parts.  Equality decides equality
    of terms; [GetAllInterfaces] lists what is reachable; assignability decides
    [accepted]: the relation [assignable], less the interfaces that are [lost]. *)
From Stdlib Require Import ZArith Lia Bool List String.
From stdpp Require Import base list gmap sets fin_sets option relations.
From S2P Require Import Prelude Tokens SyntaxFacts Effects TypeSystem.
Import ListNotations.
Open Scope shard_scope.

(** ** Computations that decide a proposition *)

(** An answer of [o] says whether [P] holds, and under [E] there is one. *)
Definition settles (E : Prop) (o : option bool) (P : Prop) : Prop := (E -> o <> None) /\ forall b, o = Some b -> (b = true <-> P).
Definition decides (o : option bool) (P : Prop) : Prop := settles True o P.

Lemma decides_some o P : decides o P <-> exists b, o = Some b /\ (b = true <-> P).
Proof.
  split; [intros [HE HP]|intros (b & -> & Hb); split; [discriminate|intros b' [= <-]; exact Hb]].
  destruct o as [b|]; [exists b; auto|contradiction (HE I); reflexivity].
Qed.

Lemma settles_decides (E : Prop) o P : E -> settles E o P -> decides o P.
Proof. intros HE [HN HP]; split; auto. Qed.

Section Settles.
Context {E : Prop}.

Lemma settles_weak (E' : Prop) o P : (E -> E') -> settles E' o P -> settles E o P.
Proof. intros HE [HN HP]; split; auto. Qed.
Lemma settles_iff o P Q : settles E o P -> (P <-> Q) -> settles E o Q.
Proof. intros [HN HP] HQ; split; [exact HN|]; intros b Hb; rewrite <- HQ; auto. Qed.
Lemma settles_bool (b : bool) P : (b = true <-> P) -> settles E (Some b) P.
Proof. split; [discriminate|intros b' [= <-]; assumption]. Qed.
Lemma settles_false (P : Prop) : ~ P -> settles E (Some false) P.
Proof. intros H; apply settles_bool; split; [discriminate|contradiction]. Qed.
Lemma settles_true (P : Prop) : P -> settles E (Some true) P.
Proof. intros H; apply settles_bool; tauto. Qed.

(** What goes on only where the first answer is yes, or no. *)
Lemma settles_if (o : option bool) P (yes no : option bool) Q :
  settles E o P -> (P -> settles E yes Q) -> (~ P -> settles E no Q) ->
  settles E (match o with Some true => yes | Some false => no | None => None end) Q.
Proof.
  intros [HN HP] HY HF; destruct o as [b|]; [specialize (HP b eq_refl); destruct b|split; [intros HE; destruct (HN HE eq_refl)|discriminate]].
  - apply HY, HP; reflexivity.
  - apply HF; intros H; apply HP in H; discriminate.
Qed.

Lemma settles_or a b P Q : settles E a P -> settles E b Q -> settles E (or_else a b) (P \/ Q).
Proof.
  intros HA HB; replace (or_else a b) with (match a with Some true => Some true | Some false => b | None => None end) by (destruct a as [[]|]; reflexivity).
  apply (settles_if a P); [exact HA|intros; apply settles_true; auto|intros; apply (settles_iff b Q); [exact HB|tauto]].
Qed.

Lemma settles_and a b P Q : settles E a P -> (P -> settles E b Q) -> settles E (and_then a b) (P /\ Q).
Proof.
  intros HA HB; replace (and_then a b) with (match a with Some true => b | Some false => Some false | None => None end) by (destruct a as [[]|]; reflexivity).
  apply (settles_if a P); [exact HA|intros H; apply (settles_iff b Q); [exact (HB H)|tauto]|intros; apply settles_false; tauto].
Qed.

Lemma settles_any {A} (test : A -> option bool) (P : A -> Prop) l :
  (forall x, In x l -> settles E (test x) (P x)) -> settles E (any_of test l) (exists x, In x l /\ P x).
Proof.
  induction l as [|x l IH]; intros H; simpl; [apply settles_false; intros (x & [] & _)|].
  replace (match test x with Some false => any_of test l | answer => answer end) with (or_else (test x) (any_of test l))
    by (destruct (test x) as [[]|]; reflexivity).
  eapply settles_iff; [apply settles_or; [apply H; left; reflexivity|apply IH; intros y Hy; apply H; right; exact Hy]|]; split.
  - intros [HP|(y & Hy & HP)]; [exists x; auto|exists y; auto].
  - intros (y & [<-|Hy] & HP); [left; exact HP|right; exists y; auto].
Qed.

Lemma settles_pairs (equal : option TypeId -> option TypeId -> option bool) (P : option TypeId -> option TypeId -> Prop) pairs :
  (forall x y, In (x, y) pairs -> settles E (equal x y) (P x y)) -> settles E (all_equal equal pairs) (Forall (fun '(x, y) => P x y) pairs).
Proof.
  induction pairs as [|[x y] pairs IH]; intros H; simpl; [apply settles_true; constructor|].
  replace (match equal x y with Some true => all_equal equal pairs | answer => answer end)
    with (and_then (equal x y) (all_equal equal pairs)) by (destruct (equal x y) as [[]|]; reflexivity).
  eapply settles_iff; [apply settles_and; [apply H; left; reflexivity|intros _; apply IH; intros a b Hab; apply H; right; exact Hab]|].
  rewrite Forall_cons; tauto.
Qed.

Lemma settles_all (equal : option TypeId -> option TypeId -> option bool) (P : option TypeId -> option TypeId -> Prop) xs ys :
  length xs = length ys -> (forall x y, In x xs -> settles E (equal x y) (P x y)) ->
  settles E (all_equal equal (combine xs ys)) (Forall2 P xs ys).
Proof.
  intros Hl H; eapply settles_iff; [apply settles_pairs with (P := P); intros x y Hxy; apply H, (in_combine_l _ _ _ _ Hxy)|].
  clear H; revert ys Hl; induction xs as [|x xs IH]; intros [|y ys] Hl; try discriminate; simpl; [split; constructor|].
  rewrite Forall_cons, Forall2_cons, IH; [tauto|simpl in Hl; lia].
Qed.
End Settles.

(** ** Overloads *)
Lemma accepts_all_decided accepts (P : TypeId -> TypeId -> Prop) ps : forall args, length ps = length args ->
  (forall p a, decides (accepts p a) (P p a)) -> decides (accepts_all accepts ps args) (Forall2 P ps args).
Proof.
  induction ps as [|p ps IH]; intros [|a args] Hl H; try discriminate; simpl; [apply settles_true; constructor|].
  replace (match accepts p a with Some true => accepts_all accepts ps args | answer => answer end)
    with (and_then (accepts p a) (accepts_all accepts ps args)) by (destruct (accepts p a) as [[]|]; reflexivity).
  eapply settles_iff; [apply settles_and; [apply H|intros _; apply IH; [simpl in Hl; lia|exact H]]|].
  rewrite Forall2_cons; reflexivity.
Qed.

Section Overloads.
Context (methods : MethodId -> MethodSymbol).

(** The arguments fit the parameters one by one. *)
Definition fits (accepts : TypeId -> TypeId -> Prop) (applies : MethodSymbol -> bool) (arguments : list TypeId) (m : MethodId) : Prop :=
  applies (methods m) = true /\ Forall2 accepts (method_Parameters (methods m)) arguments.

(** The first symbol that fits is the answer; there is none when no symbol fits. *)
Inductive first_fit (P : MethodId -> Prop) : list MethodId -> option MethodId -> Prop :=
| first_none : first_fit P [] None
| first_here m l : P m -> first_fit P (m :: l) (Some m)
| first_later m l o : ~ P m -> first_fit P l o -> first_fit P (m :: l) o.

Lemma find_symbol_first applies accepts (P : TypeId -> TypeId -> Prop) l args :
  (forall p a, decides (accepts p a) (P p a)) ->
  exists o, find_symbol methods applies accepts l args = Some o /\ first_fit (fits P applies args) l o.
Proof.
  intros H; induction l as [|m l (o & Ho & IH)]; simpl; [exists None; split; [reflexivity|constructor]|].
  destruct (applies (methods m)) eqn:Ha; simpl; [|exists o; split; [exact Ho|apply first_later; [intros [Hf _]; congruence|exact IH]]].
  destruct (Nat.eqb_spec (length (method_Parameters (methods m))) (length args)) as [Hl|Hl].
  - destruct (proj1 (decides_some _ _) (accepts_all_decided accepts P _ _ Hl H)) as (b & -> & Hb); destruct b.
    + exists (Some m); split; [reflexivity|]; apply first_here; split; [exact Ha|apply Hb; reflexivity].
    + exists o; split; [exact Ho|]; apply first_later; [intros [_ Hf]; apply Hb in Hf; discriminate|exact IH].
  - exists o; split; [exact Ho|]; apply first_later; [intros [_ Hf]; apply Forall2_length in Hf; contradiction|exact IH].
Qed.
End Overloads.

(** ** Terms *)
Inductive Term :=
| Constant (t : TypeId)
| Applied (underlying : Term) (args : list Term)
| ArrayOf (element : Term)
| Delegate (ret : Term) (parameters : list Term).

Section Facts.
Context (types : TypeId -> TypeSymbol).

Inductive denotes : TypeId -> Term -> Prop :=
| denotes_declared t k : details (types t) = DeclaredType k -> denotes t (Constant t)
| denotes_generic t u map args x xs :
    details (types t) = GenericType u map -> denotes u x -> arguments map (TypeParameters (types u)) = List.map Some args ->
    Forall2 denotes args xs -> denotes t (Applied x xs)
| denotes_array t u x : details (types t) = ArrayType (Some u) -> denotes u x -> denotes t (ArrayOf x)
| denotes_delegate t r ps x xs :
    details (types t) = DelegateType (Some r) ps -> denotes r x -> Forall2 denotes ps xs -> denotes t (Delegate x xs).

(** The types a type is built from. *)
Definition parts (t : TypeId) : list TypeId :=
  match details (types t) with
  | DeclaredType _ => []
  | GenericType u map => u :: omap id (arguments map (TypeParameters (types u)))
  | ArrayType u => option_list u
  | DelegateType r ps => option_list r ++ ps
  end.

(** The parts of [t], their parts and so on are nested less than [n] deep. *)
Inductive built : nat -> TypeId -> Prop :=
| built_of n t : (forall p, In p (parts t) -> built n p) -> built (S n) t.

Lemma built_part n t p : built (S n) t -> In p (parts t) -> built n p.
Proof. inversion 1; auto. Qed.
Lemma built_0 t : ~ built 0 t.
Proof. inversion 1. Qed.

(** No type is built from itself. *)
Definition ranked (rank : TypeId -> nat) : Prop := forall t p, In p (parts t) -> (rank p < rank t)%nat.

Lemma ranked_built rank fuel : ranked rank -> forall t, (rank t < fuel)%nat -> built fuel t.
Proof.
  intros HR; induction fuel as [|fuel IH]; intros t Ht; [lia|]; constructor; intros p Hp; apply IH; specialize (HR t p Hp); lia.
Qed.

(** Both are types of one term. *)
Definition equal_types (x y : TypeId) : Prop := exists term, denotes x term /\ denotes y term.
Definition equal_opt (x y : option TypeId) : Prop :=
  match x, y with Some x, Some y => equal_types x y | _, _ => False end.

Lemma part_argument t u map a : details (types t) = GenericType u map ->
  In (Some a) (arguments map (TypeParameters (types u))) -> In a (parts t).
Proof.
  intros Hd Ha; unfold parts; rewrite Hd; right; apply list_elem_of_In, list_elem_of_omap; exists (Some a).
  rewrite list_elem_of_In; auto.
Qed.

(** Lists of equal types and lists of equal terms. *)
Lemma equal_lists_terms xs : forall ys,
  Forall2 equal_opt xs ys <-> exists as' bs terms, xs = List.map Some as' /\ ys = List.map Some bs /\
    Forall2 denotes as' terms /\ Forall2 denotes bs terms.
Proof.
  induction xs as [|x xs IH]; intros ys; split.
  - intros H; apply Forall2_nil_inv_l in H as ->; exists [], [], []; repeat split; constructor.
  - intros (as' & bs & terms & Ha & -> & H1 & H2); destruct as'; [|discriminate].
    inversion H1; subst; inversion H2; subst; constructor.
  - intros H; apply Forall2_cons_inv_l in H as (y & ys' & Hxy & H & ->); apply IH in H as (as' & bs & terms & -> & -> & H1 & H2).
    destruct x as [a|], y as [b|]; try contradiction; destruct Hxy as (term & Ht & Ht').
    exists (a :: as'), (b :: bs), (term :: terms); repeat split; constructor; assumption.
  - intros (as' & bs & terms & Ha & -> & H1 & H2); destruct as' as [|a as']; [discriminate|]; injection Ha as -> ->.
    apply Forall2_cons_inv_l in H1 as (term & terms' & Ht & H1 & ->); apply Forall2_cons_inv_r in H2 as (b & bs' & Ht' & H2 & ->).
    simpl; constructor; [exists term; auto|apply IH; exists as', bs', terms'; auto].
Qed.

(** ** Equality decides equality of terms *)
Lemma combine_map (ps ps' : list TypeId) : length ps = length ps' -> length (List.map Some ps) = length (List.map Some ps').
Proof. rewrite !length_map; auto. Qed.

Lemma equal_generic l r u map u' map' :
  details (types l) = GenericType u map -> details (types r) = GenericType u' map' ->
  equal_types l r <-> equal_types u u' /\
    Forall2 equal_opt (arguments map (TypeParameters (types u))) (arguments map' (TypeParameters (types u'))).
Proof.
  intros Hl Hr; rewrite equal_lists_terms; split.
  - intros (term & H1 & H2); inversion H1 as [? ? Hd|? u1 m1 args x xs Hd Hu Ha Hxs|? ? ? Hd|? ? ? ? ? Hd]; subst; rewrite Hd in Hl; try discriminate.
    injection Hl as -> ->; inversion H2 as [|? u2 m2 args' y ys Hd' Hu' Ha' Hys| |]; subst; rewrite Hd' in Hr; injection Hr as -> ->.
    split; [exists x; auto|exists args, args', xs; auto].
  - intros ((x & Hx & Hx') & (args & args' & xs & Ha & Ha' & H1 & H2)); exists (Applied x xs); split; eapply denotes_generic; eauto.
Qed.

Lemma equal_delegate l r t ps t' ps' :
  details (types l) = DelegateType (Some t) ps -> details (types r) = DelegateType (Some t') ps' ->
  equal_types l r <-> equal_types t t' /\ Forall2 equal_opt (List.map Some ps) (List.map Some ps').
Proof.
  intros Hl Hr; rewrite equal_lists_terms; split.
  - intros (term & H1 & H2); inversion H1 as [? ? Hd|? ? ? ? ? ? Hd|? ? ? Hd|? t1 p1 x xs Hd Hu Hxs]; subst; rewrite Hd in Hl; try discriminate.
    injection Hl as -> ->; inversion H2 as [| | |? t2 p2 y ys Hd' Hu' Hys]; subst; rewrite Hd' in Hr; injection Hr as -> ->.
    split; [exists x; auto|exists ps, ps', xs; auto].
  - intros ((x & Hx & Hx') & (args & args' & xs & Ha & Ha' & H1 & H2)); apply (inj _) in Ha as <-; apply (inj _) in Ha' as <-.
    exists (Delegate x xs); split; eapply denotes_delegate; eauto.
Qed.

Lemma equal_array l r u u' :
  details (types l) = ArrayType (Some u) -> details (types r) = ArrayType (Some u') -> equal_types l r <-> equal_types u u'.
Proof.
  intros Hl Hr; split.
  - intros (term & H1 & H2); inversion H1 as [? ? Hd|? ? ? ? ? ? Hd|? u1 x Hd Hu|? ? ? ? ? Hd]; subst; rewrite Hd in Hl; try discriminate.
    injection Hl as ->; inversion H2 as [| |? u2 y Hd' Hu'|]; subst; rewrite Hd' in Hr; injection Hr as ->; exists x; auto.
  - intros (x & Hx & Hx'); exists (ArrayOf x); split; eapply denotes_array; eauto.
Qed.

(** Types of different classes denote different terms. *)
Lemma equal_class l r : equal_types l r ->
  match details (types l), details (types r) with
  | DeclaredType _, DeclaredType _ => l = r
  | GenericType _ _, GenericType _ _ | ArrayType (Some _), ArrayType (Some _)
  | DelegateType (Some _) _, DelegateType (Some _) _ => True
  | _, _ => False
  end.
Proof.
  intros (term & H1 & H2); inversion H1 as [? ? Hd|? ? ? ? ? ? Hd|? ? ? Hd|? ? ? ? ? Hd]; subst; rewrite Hd;
    inversion H2 as [? ? Hd'|? ? ? ? ? ? Hd'|? ? ? Hd'|? ? ? ? ? Hd']; subst; rewrite Hd'; auto.
Qed.

Lemma all_equal_decided (E : Prop) fuel xs ys n m : length ys = n -> length xs = m -> (E -> fuel <> 0%nat) ->
  (forall x y, In (Some x) xs -> settles E (AreTypesEqual types fuel (Some x) (Some y)) (equal_types x y)) ->
  settles E (if (n =? m)%nat then all_equal (AreTypesEqual types fuel) (combine xs ys) else Some false)
    (Forall2 equal_opt xs ys).
Proof.
  intros <- <- HE H; destruct (Nat.eqb_spec (length ys) (length xs)) as [Hl|Hl].
  - apply settles_all; [auto|]; intros x y Hx; destruct fuel as [|f]; [split; [intros He; destruct (HE He eq_refl)|discriminate]|].
    destruct x as [x|], y as [y|]; [apply H, Hx|apply settles_false; exact id..].
  - apply settles_false; intros HF; apply Forall2_length in HF; congruence.
Qed.

(** The answers of [AreTypesEqual] are right; there is one where the parts of the left type
    nest less deep than the fuel. *)
Lemma equal_settled fuel : forall l r, settles (built fuel l) (AreTypesEqual types fuel (Some l) (Some r)) (equal_types l r).
Proof.
  induction fuel as [|fuel IH]; intros l r; [split; [intros H; destruct (built_0 _ H)|discriminate]|]; simpl.
  assert (HP : forall p r', In p (parts l) -> settles (built (S fuel) l) (AreTypesEqual types fuel (Some p) (Some r')) (equal_types p r'))
    by (intros p r' Hp; apply (settles_weak (built fuel p)); [intros H; exact (built_part _ _ _ H Hp)|apply IH]).
  assert (HE : forall p, In p (parts l) -> built (S fuel) l -> fuel <> 0%nat)
    by (intros p Hp H ->; exact (built_0 _ (built_part _ _ _ H Hp))).
  pose proof (equal_class l r) as HC; unfold parts in HP, HE.
  destruct (details (types l)) as [k|u map|u|t ps] eqn:Hl.
  - apply settles_bool; rewrite bool_decide_eq_true; split; [intros <-; exists (Constant l); split; econstructor; eauto|].
    intros H; apply HC in H; destruct (details (types r)); [exact H|contradiction..].
  - destruct (details (types r)) as [k'|u' map'|u'|t' ps'] eqn:Hr; try (apply settles_false; exact HC).
    eapply settles_iff; [|symmetry; apply (equal_generic _ _ _ _ _ _ Hl Hr)].
    apply settles_and; [apply HP; left; reflexivity|intros _].
    apply all_equal_decided; [apply length_map..|apply (HE u); left; reflexivity|]; intros x y Hx; apply HP; right.
    apply list_elem_of_In, list_elem_of_omap; exists (Some x); rewrite list_elem_of_In; auto.
  - destruct u as [u|]; [|apply settles_false; exact HC].
    destruct (details (types r)) as [k'|u' map'|[u'|]|t' ps'] eqn:Hr; try (apply settles_false; exact HC).
    eapply settles_iff; [apply HP; left; reflexivity|symmetry; apply (equal_array _ _ _ _ Hl Hr)].
  - destruct t as [t|]; [|apply settles_false; exact HC].
    destruct (details (types r)) as [k'|u' map'|u'|[t'|] ps'] eqn:Hr; try (apply settles_false; exact HC).
    eapply settles_iff; [|symmetry; apply (equal_delegate _ _ _ _ _ _ Hl Hr)].
    apply settles_and; [apply HP; left; reflexivity|intros _].
    apply all_equal_decided; [apply length_map..|apply (HE t); left; reflexivity|]; intros x y Hx; apply HP; right.
    apply in_map_iff in Hx as (x' & [= <-] & Hx); exact Hx.
Qed.

Lemma optional_settled (E : Prop) fuel x y : (E -> forall t, built fuel t) -> settles E (AreTypesEqual types fuel x y) (equal_opt x y).
Proof.
  intros HB; assert (HN : E -> fuel <> 0%nat) by (intros H ->; exact (built_0 _ (HB H xH))).
  destruct x as [x|], y as [y|]; [apply (settles_weak (built fuel x)); [intros H; apply (HB H)|apply equal_settled]|..];
    (destruct fuel; [split; [intros H; destruct (HN H eq_refl)|discriminate]|apply settles_false; exact id]).
Qed.

(** What denotes a term is built: a comparison of equal types ends. *)
Fixpoint height (term : Term) : nat :=
  match term with
  | Constant _ => 1
  | Applied x xs => S (Nat.max (height x) (fold_right (fun y n => Nat.max (height y) n) 0%nat xs))
  | ArrayOf x => S (height x)
  | Delegate x xs => S (Nat.max (height x) (fold_right (fun y n => Nat.max (height y) n) 0%nat xs))
  end.

Lemma highest (xs : list Term) x n : In x xs -> (fold_right (fun y n => Nat.max (height y) n) 0 xs <= n)%nat -> (height x <= n)%nat.
Proof. induction xs as [|y xs IH]; simpl; [contradiction|]; intros [-> | Hx] Hn; [lia|apply IH; [exact Hx|lia]]. Qed.

Lemma denotes_built n : forall t term, denotes t term -> (height term <= n)%nat -> built n t.
Proof.
  induction n as [|n IH]; intros t term Ht Hn; [destruct term; simpl in Hn; lia|].
  assert (HL : forall args xs m, Forall2 denotes args xs -> (Nat.max m (fold_right (fun y n => Nat.max (height y) n) 0%nat xs) <= n)%nat ->
    forall a, In a args -> built n a).
  { intros args xs m Hxs Hm a Ha; apply list_elem_of_In, list_elem_of_lookup in Ha as (k & Ha).
    destruct (Forall2_lookup_l _ _ _ _ _ Hxs Ha) as (x & Hx & Hd); apply (IH a x Hd), (highest xs); [|lia].
    apply list_elem_of_In, list_elem_of_lookup; eauto. }
  constructor; intros p Hp; unfold parts in Hp.
  inversion Ht as [t1 k Hd|t1 u map args x xs Hd Hu Ha Hxs|t1 u x Hd Hu|t1 r ps x xs Hd Hu Hxs]; subst; rewrite Hd in Hp; simpl in Hn.
  - contradiction.
  - destruct Hp as [<-|Hp]; [apply (IH u x Hu); lia|]; apply (HL args xs (height x) Hxs); [lia|].
    apply list_elem_of_In, list_elem_of_omap in Hp as (o & Ho & Hp); cbn in Hp; subst o.
    rewrite Ha in Ho; apply list_elem_of_In, in_map_iff in Ho as (a & [= <-] & Ho); exact Ho.
  - destruct Hp as [<-|[]]; apply (IH u x Hu); lia.
  - destruct Hp as [<-|Hp]; [apply (IH r x Hu); lia|]; apply (HL ps xs (height x) Hxs); [lia|exact Hp].
Qed.

(** ** Interfaces *)
Definition extends (t i : TypeId) : Prop := In i (Interfaces (types t)).
(** [i] is an interface of [t], of one of its interfaces, and so on. *)
Definition implements : TypeId -> TypeId -> Prop := tc extends.

(** [U] contains every interface that can be reached. *)
Definition covers (U : gset TypeId) : Prop := forall t i, extends t i -> i ∈ U.

Section Interfaces.
Context (U : gset TypeId) (HU : covers U).

Definition collect_step (fuel : nat) (state : option (list TypeId * gset TypeId)) (iface : TypeId) :=
  match state with
  | Some (out, visited) =>
      if decide (iface ∈ visited) then Some (out, visited)
      else CollectAllInterfaces types fuel iface (out ++ [iface]) ({[iface]} ∪ visited)
  | None => None
  end.

(** What a collection from [t] (or the steps for some of its interfaces [l]) adds. *)
Record collected (t : TypeId) (l : list TypeId) (visited : gset TypeId) (new : list TypeId) : Prop := mkCollected {
  collected_nodup : NoDup new;
  collected_fresh : forall x, x ∈ new -> x ∉ visited;
  collected_sound : forall x, x ∈ new -> implements t x;
  collected_closed : forall x y, x ∈ new -> extends x y -> y ∈ visited ∪ list_to_set new;
  collected_all : forall y, In y l -> y ∈ visited ∪ list_to_set new }.

Definition collects (fuel : nat) : Prop := forall t out visited, (size (U ∖ visited) < fuel)%nat ->
  exists new, CollectAllInterfaces types fuel t out visited = Some (out ++ new, visited ∪ list_to_set new) /\
    collected t (Interfaces (types t)) visited new.

Lemma collected_cons t i l visited new new' :
  extends t i -> i ∉ visited ->
  collected i (Interfaces (types i)) ({[i]} ∪ visited) new -> collected t l ({[i]} ∪ visited ∪ list_to_set new) new' ->
  collected t (i :: l) visited ((i :: new) ++ new').
Proof.
  intros Hi Hv [N1 F1 S1 C1 A1] [N2 F2 S2 C2 A2]; constructor.
  - simpl; constructor; [rewrite elem_of_app; intros [H|H]; [apply F1 in H|apply F2 in H]; set_solver|].
    apply NoDup_app; split; [exact N1|]; split; [|exact N2]; intros x Hx Hx'; apply F2 in Hx'; set_solver.
  - intros x; rewrite elem_of_app, elem_of_cons; intros [[-> | Hx]|Hx]; [exact Hv|apply F1 in Hx; set_solver|apply F2 in Hx; set_solver].
  - intros x; rewrite elem_of_app, elem_of_cons; intros [[-> | Hx]|Hx]; [apply tc_once, Hi|eapply tc_l; [exact Hi|apply S1, Hx]|apply S2, Hx].
  - intros x y; rewrite elem_of_app, elem_of_cons; intros [[-> | Hx]|Hx] Hy;
      [specialize (A1 y Hy)|specialize (C1 x y Hx Hy)|specialize (C2 x y Hx Hy)]; set_solver.
  - intros y [<- | Hy]; [set_solver|specialize (A2 y Hy); set_solver].
Qed.

Lemma collect_steps fuel t : collects fuel -> forall l out visited,
  (forall i, In i l -> extends t i) -> (size (U ∖ visited) <= fuel)%nat ->
  exists new, fold_left (collect_step fuel) l (Some (out, visited)) = Some (out ++ new, visited ∪ list_to_set new) /\
    collected t l visited new.
Proof.
  intros IH; induction l as [|i l IHl]; intros out visited Hl Hf.
  { exists []; replace (visited ∪ list_to_set []) with visited by set_solver; rewrite app_nil_r; split; [reflexivity|].
    constructor; [constructor|set_solver..|intros y []]. }
  assert (Hi : extends t i) by (apply Hl; left; reflexivity).
  assert (Hl' : forall j, In j l -> extends t j) by (intros j Hj; apply Hl; right; exact Hj); simpl; case_decide as Hv.
  - destruct (IHl out visited Hl' Hf) as (new & H & [N F S C A]); exists new; split; [exact H|]; constructor; auto.
    intros y [<- | Hy]; [set_solver|apply A, Hy].
  - assert (Hs : (size (U ∖ ({[i]} ∪ visited)) < size (U ∖ visited))%nat).
    { apply subset_size; split; [set_solver|]; specialize (HU t i Hi); set_solver. }
    destruct (IH i (out ++ [i]) ({[i]} ∪ visited)) as (new & H & HC); [lia|]; rewrite H.
    assert (Hs' : (size (U ∖ ({[i]} ∪ visited ∪ list_to_set new)) <= size (U ∖ ({[i]} ∪ visited)))%nat)
      by (apply subseteq_size; set_solver).
    destruct (IHl ((out ++ [i]) ++ new) ({[i]} ∪ visited ∪ list_to_set new) Hl') as (new' & H' & HC'); [lia|].
    exists ((i :: new) ++ new'); rewrite H'; split; [|apply collected_cons; assumption].
    f_equal; f_equal; [simpl; rewrite <- !app_assoc; reflexivity|]; set_solver.
Qed.

Lemma collect_spec fuel : collects fuel.
Proof.
  induction fuel as [|fuel IH]; intros t out visited Hf; [lia|].
  exact (collect_steps fuel t IH (Interfaces (types t)) out visited (fun _ H => H) ltac:(lia)).
Qed.

Lemma interfaces_spec fuel t : (size U < fuel)%nat ->
  exists ifaces, GetAllInterfaces types fuel t = Some ifaces /\ NoDup ifaces /\ forall i, i ∈ ifaces <-> implements t i.
Proof.
  intros Hf; destruct (collect_spec fuel t [] ∅) as (new & H & [N F S C A]).
  { rewrite difference_empty_L; exact Hf. }
  unfold GetAllInterfaces; rewrite H; exists new; split; [reflexivity|]; split; [exact N|]; intros i; split; [apply S|].
  intros Hi; assert (Hc : forall x y, implements x y -> (In y (Interfaces (types t)) -> y ∈ new) /\ (x ∈ new -> y ∈ new)).
  { intros x y Hxy; induction Hxy as [x y Hxy|x y z Hxy Hyz IH].
    - split; intros Hx; [specialize (A y Hx)|specialize (C x y Hx Hxy)]; set_solver.
    - split; intros Hx; [specialize (A z Hx); set_solver|apply IH; specialize (C x y Hx Hxy); set_solver]. }
  inversion Hi as [? ? H1|? y ? H1 H2]; subst; [specialize (A i H1); set_solver|].
  apply (Hc y i H2); specialize (A y H1); set_solver.
Qed.
End Interfaces.

(** More fuel does not change an answer. *)
Lemma collect_more fuel t : forall out visited r,
  CollectAllInterfaces types fuel t out visited = Some r -> CollectAllInterfaces types (S fuel) t out visited = Some r.
Proof.
  revert t; induction fuel as [|fuel IH]; intros t out visited r; [discriminate|].
  intros H; change (fold_left (collect_step (S fuel)) (Interfaces (types t)) (Some (out, visited)) = Some r).
  change (fold_left (collect_step fuel) (Interfaces (types t)) (Some (out, visited)) = Some r) in H.
  revert H; generalize (Some (out, visited)); induction (Interfaces (types t)) as [|i l IHl]; intros state; [auto|]; simpl; intros H.
  replace (collect_step (S fuel) state i) with (collect_step fuel state i); [apply IHl, H|].
  destruct state as [[out' visited']|]; [|reflexivity]; unfold collect_step in *; case_decide; [reflexivity|].
  destruct (CollectAllInterfaces types fuel i _ _) eqn:Hc; [symmetry; apply IH, Hc|].
  exfalso; clear -H; induction l as [|j l IHl]; [discriminate|apply IHl, H].
Qed.

Lemma interfaces_settled U fuel t : covers U ->
  ((size U < fuel)%nat -> GetAllInterfaces types fuel t <> None) /\
  forall ifaces, GetAllInterfaces types fuel t = Some ifaces -> forall i, i ∈ ifaces <-> implements t i.
Proof.
  intros HU; split; [intros HS; destruct (interfaces_spec U HU fuel t HS) as (ifaces & -> & _); discriminate|].
  intros ifaces; unfold GetAllInterfaces; destruct (CollectAllInterfaces types fuel t [] ∅) as [[out visited]|] eqn:H; [|discriminate].
  intros [= ->]; assert (HM : forall n, CollectAllInterfaces types (n + fuel) t [] ∅ = Some (ifaces, visited))
    by (induction n as [|n IH]; [exact H|apply collect_more, IH]).
  destruct (interfaces_spec U HU (S (size U) + fuel) t) as (ifaces' & H' & _ & HI); [lia|].
  unfold GetAllInterfaces in H'; rewrite HM in H'; injection H' as <-; exact HI.
Qed.

(** ** Assignability *)
Context (K : KnownTypes).

Definition is_array (t : TypeId) : Prop := match details (types t) with ArrayType _ => True | _ => False end.

(** The declaration of a constructed type and the type of arrays have interfaces that
    count as interfaces of the type itself. *)
Definition declaration (t : TypeId) : TypeId :=
  match details (types t) with GenericType u _ => u | ArrayType _ => Array K | _ => t end.

(** The argument [arg] of an interface of [source], in terms of the arguments of [source]. *)
Definition instantiate (source : TypeId) (arg : option TypeId) : option TypeId :=
  match arg, details (types source) with
  | Some a, GenericType _ map => if is_type_parameter types a then map !! a else arg
  | _, _ => arg
  end.

(** [origin] has an interface that is [u] with the arguments [target], in terms of
    the arguments of [source]. *)
Definition offers (u : TypeId) (target : gmap TypeId TypeId) (source origin : TypeId) : Prop :=
  exists i map, implements origin i /\ details (types i) = GenericType u map /\
    forall p, In p (TypeParameters (types u)) -> equal_opt (target !! p) (instantiate source (map !! p)).

(** An array is enumerable with its elements. *)
Definition enumerates (u : TypeId) (target : gmap TypeId TypeId) (source : TypeId) : Prop :=
  exists element p, details (types source) = ArrayType element /\ u = IEnumerable K /\
    TypeParameters (types u) = [p] /\ equal_opt (target !! p) element.

(** The signature of a delegate. *)
Definition signature (t : TypeId) : option (option TypeId * list TypeId) :=
  match details (types t) with DelegateType r ps => Some (r, ps) | _ => None end.

(** An interface of a type is one in its list or in that of its declaration, and
    an interface of one of these. *)
Definition provides : TypeId -> TypeId -> Prop := tc (fun t i => extends t i \/ extends (declaration t) i).

Inductive converts : TypeId -> TypeId -> Prop :=
| converts_interface target source : is_interface types target = true -> provides source target -> converts target source
| converts_constructed target source u map :
    details (types target) = GenericType u map -> is_interface types u = true ->
    offers u map source source \/ offers u map source (declaration source) \/ enumerates u map source -> converts target source
| converts_delegate target source r ps r' ps' :
    signature target = Some (r, ps) -> signature source = Some (r', ps') ->
    equal_opt r r' -> Forall2 equal_types ps ps' -> converts target source
| converts_generic_delegate target source u map r ps r' ps' :
    details (types target) = GenericType u map -> signature u = Some (Some r, ps) -> signature source = Some (Some r', ps') ->
    equal_types (replace_parameter types map r) r' -> Forall2 equal_types (List.map (replace_parameter types map) ps) ps' ->
    converts target source.

(** A value of type [source] may be used as one of type [target]. *)
Definition assignable (target source : TypeId) : Prop :=
  equal_types target source \/ target = Any K \/
  (source = Null K /\ Inlining (types target) = ByReference) \/ (source <> Null K /\ converts target source).

(** The interfaces the code does not find: those that a type has only through the
    declaration of a constructed type. *)
Definition lost (target source : TypeId) : Prop :=
  is_interface types target = true /\ target <> source /\ target <> Any K /\ source <> Null K /\ provides source target /\
  ~ (implements source target \/ (is_array source /\ implements (Array K) target)).

(** [source] is accepted where [target] is asked for. *)
Definition accepted (target source : TypeId) : Prop := assignable target source /\ ~ lost target source.

Lemma implements_provides t i : implements t i -> provides t i.
Proof. induction 1 as [t i H|t i j H _ IH]; [apply tc_once; auto|eapply tc_l; [left; exact H|exact IH]]. Qed.
Lemma array_provides t i : is_array t -> implements (Array K) i -> provides t i.
Proof.
  unfold is_array; intros Ha; assert (Hd : declaration t = Array K) by (unfold declaration; destruct (details (types t)); tauto).
  inversion 1 as [? ? H1|? j ? H1 H2]; subst; [apply tc_once; right; rewrite Hd; exact H1|].
  eapply tc_l; [right; rewrite Hd; exact H1|apply implements_provides, H2].
Qed.

Section Decided.
Context (U : gset TypeId) (HU : covers U) (fuel : nat).

(** The fuel exceeds the nesting of the parts of types and the number of interfaces. *)
Definition enough : Prop := (forall t, built fuel t) /\ (size U < fuel)%nat.

Lemma types_equal_decided l r : settles enough (AreTypesEqual types fuel (Some l) (Some r)) (equal_types l r).
Proof. apply (settles_weak (built fuel l)); [intros [H _]; apply H|apply equal_settled]. Qed.
Lemma optional_equal_decided x y : settles enough (AreTypesEqual types fuel x y) (equal_opt x y).
Proof. apply optional_settled; intros [H _]; exact H. Qed.

Lemma equal_lists_decided ps ps' : settles enough (equal_lists types fuel ps ps') (Forall2 equal_types ps ps').
Proof.
  unfold equal_lists; destruct (Nat.eqb_spec (length ps) (length ps')) as [Hl|Hl].
  - eapply settles_iff; [apply settles_all with (P := equal_opt); [rewrite !length_map; exact Hl|intros; apply optional_equal_decided]|].
    rewrite Forall2_fmap; reflexivity.
  - apply settles_false; intros H; apply Forall2_length in H; contradiction.
Qed.

Lemma any_interface_decided (test : TypeId -> option bool) (P : TypeId -> Prop) t :
  (forall i, settles enough (test i) (P i)) ->
  settles enough (match GetAllInterfaces types fuel t with Some ifaces => any_of test ifaces | None => None end)
    (exists i, implements t i /\ P i).
Proof.
  intros H; destruct (interfaces_settled U fuel t HU) as [HN HI]; destruct (GetAllInterfaces types fuel t) as [ifaces|];
    [specialize (HI ifaces eq_refl) as Hi|split; [intros [_ HS]; destruct (HN HS eq_refl)|discriminate]].
  eapply settles_iff; [apply settles_any; intros; apply H|]; split; intros (i & Hin & HP); exists i; split; auto.
  - apply Hi, list_elem_of_In, Hin.
  - apply list_elem_of_In, Hi, Hin.
Qed.

Lemma interface_declared t : is_interface types t = true -> exists k, details (types t) = DeclaredType k.
Proof. unfold is_interface; destruct (details (types t)); [eauto|discriminate..]. Qed.

Lemma equal_declared t k i : details (types t) = DeclaredType k -> equal_types t i <-> t = i.
Proof.
  intros Hd; split; [|intros <-; exists (Constant t); split; econstructor; eauto].
  intros H; apply equal_class in H; rewrite Hd in H; destruct (details (types i)); [exact H|contradiction..].
Qed.

Lemma interface_among_decided target t : is_interface types target = true -> settles enough (interface_among types fuel target t) (implements t target).
Proof.
  intros (k & Hk)%interface_declared; eapply settles_iff; [apply any_interface_decided with (P := equal_types target); intros; apply types_equal_decided|].
  split; [intros (i & Hi & He); apply (equal_declared _ _ _ Hk) in He as <-; exact Hi|].
  intros Hi; exists target; split; [exact Hi|apply (equal_declared _ _ _ Hk); reflexivity].
Qed.

Lemma assign_interface_decided target source : settles enough (assign_interface types K fuel target source)
  (is_interface types target = true /\ (implements source target \/ (is_array source /\ implements (Array K) target))).
Proof.
  unfold assign_interface, is_array; destruct (is_interface types target) eqn:Hi; [|apply settles_false; intuition discriminate].
  eapply settles_iff; [apply settles_or; [apply interface_among_decided, Hi|]|split; [intros H; split; [reflexivity|exact H]|intros [_ H]; exact H]].
  destruct (details (types source)); try (apply settles_false; tauto).
  eapply settles_iff; [apply interface_among_decided, Hi|tauto].
Qed.

Lemma matches_decided u target source candidate map : settles enough (matchesInterface types fuel u target source candidate map)
  (candidate = u /\ forall p, In p (TypeParameters (types u)) -> equal_opt (target !! p) (instantiate source (map !! p))).
Proof.
  unfold matchesInterface; case_decide as Hc; [|apply settles_false; tauto].
  eapply settles_iff; [apply settles_pairs with (P := equal_opt); intros; apply optional_equal_decided|].
  rewrite Forall_fmap, Forall_forall; unfold compose; split.
  - intros H; split; [exact Hc|]; intros p Hp; apply list_elem_of_In, H in Hp; revert Hp; unfold instantiate, SubstituteTypeParameters.
    destruct (map !! p); [|auto]; destruct (details (types source)); auto.
  - intros [_ H] p Hp; apply list_elem_of_In, H in Hp; revert Hp; unfold instantiate, SubstituteTypeParameters.
    destruct (map !! p); [|auto]; destruct (details (types source)); auto.
Qed.

Lemma check_decided u target source origin :
  settles enough (checkTypeInterfaces types fuel u target source origin) (offers u target source origin).
Proof.
  eapply settles_iff; [apply any_interface_decided with (P := fun i => exists map, details (types i) = GenericType u map /\
    forall p, In p (TypeParameters (types u)) -> equal_opt (target !! p) (instantiate source (map !! p)))|unfold offers; naive_solver].
  intros i; destruct (details (types i)) eqn:Hd; try (apply settles_false; intros (map & H & _); discriminate).
  eapply settles_iff; [apply matches_decided|naive_solver].
Qed.

Lemma element_decided u (target : gmap TypeId TypeId) element :
  settles enough (match TypeParameters (types u) with
           | [param] => if decide (u = IEnumerable K) then AreTypesEqual types fuel (SubstituteTypeParameters target param) element else Some false
           | _ => Some false
           end)
    (u = IEnumerable K /\ exists p, TypeParameters (types u) = [p] /\ equal_opt (target !! p) element).
Proof.
  destruct (TypeParameters (types u)) as [|p [|q ps]]; try (apply settles_false; intros (_ & p' & H & _); discriminate H).
  case_decide as Hu; [|apply settles_false; tauto].
  eapply settles_iff; [apply optional_equal_decided|split; [eauto|intros (_ & p' & H & H'); injection H as <-; exact H']].
Qed.

Lemma constructed_decided u target source : settles enough (IsConstructedInterfaceImplemented types K fuel u target source)
  (is_interface types u = true /\ (offers u target source source \/ offers u target source (declaration source) \/ enumerates u target source)).
Proof.
  unfold IsConstructedInterfaceImplemented; destruct (is_interface types u) eqn:Hu; [|apply settles_false; intuition discriminate].
  unfold enumerates, declaration; destruct (details (types source)) as [k|u' map'|element|r ps] eqn:Hs.
  1, 4: eapply settles_iff; [apply settles_or; [apply check_decided|exact (settles_false False id)]|]; split;
    [intros [H|[]]; split; [reflexivity|left; exact H]|intros [_ [H|[H|(e & p & H & _)]]]; [left; exact H..|discriminate]].
  - eapply settles_iff; [apply settles_or; apply check_decided|]; split;
      [intros H; split; [reflexivity|tauto]|intros [_ [H|[H|(e & p & H & _)]]]; [tauto..|discriminate]].
  - eapply settles_iff; [apply settles_or; [apply check_decided|apply settles_or; [apply check_decided|apply element_decided]]|].
    split; [intros H; split; [reflexivity|]|intros [_ H]]; (destruct H as [H|[H|H]]; [left; exact H|right; left; exact H|right; right]).
    + destruct H as (H & p & H'); exists element, p; auto.
    + destruct H as (e & p & He & H & H'); injection He as <-; eauto.
Qed.

Lemma generic_delegate_decided u map source :
  settles enough (match details (types u), details (types source) with
           | DelegateType (Some ret) ps, DelegateType (Some ret') ps' =>
               and_then (AreTypesEqual types fuel (Some (replace_parameter types map ret)) (Some ret'))
                 (equal_lists types fuel (List.map (replace_parameter types map) ps) ps')
           | _, _ => Some false
           end)
    (exists r ps r' ps', signature u = Some (Some r, ps) /\ signature source = Some (Some r', ps') /\
      equal_types (replace_parameter types map r) r' /\ Forall2 equal_types (List.map (replace_parameter types map) ps) ps').
Proof.
  unfold signature; destruct (details (types u)) as [| | |[r|] ps]; try (apply settles_false; naive_solver).
  destruct (details (types source)) as [| | |[r'|] ps']; try (apply settles_false; naive_solver).
  eapply settles_iff; [apply settles_and; [apply types_equal_decided|intros _; apply equal_lists_decided]|naive_solver].
Qed.

Lemma assign_delegate_decided target source : settles enough (assign_delegate types fuel target source)
  (exists r ps r' ps', signature target = Some (r, ps) /\ signature source = Some (r', ps') /\ equal_opt r r' /\ Forall2 equal_types ps ps').
Proof.
  unfold assign_delegate, signature; destruct (details (types target)); try (apply settles_false; naive_solver).
  destruct (details (types source)); try (apply settles_false; naive_solver).
  eapply settles_iff; [apply settles_and; [apply optional_equal_decided|intros _; apply equal_lists_decided]|naive_solver].
Qed.

(** The four cases, the first as the code looks for it. *)
Definition found_conversion (target source : TypeId) : Prop :=
  (is_interface types target = true /\ (implements source target \/ (is_array source /\ implements (Array K) target))) \/
  (exists u map, details (types target) = GenericType u map /\
    ((is_interface types u = true /\ (offers u map source source \/ offers u map source (declaration source) \/ enumerates u map source)) \/
     (exists r ps r' ps', signature u = Some (Some r, ps) /\ signature source = Some (Some r', ps') /\
       equal_types (replace_parameter types map r) r' /\ Forall2 equal_types (List.map (replace_parameter types map) ps) ps'))) \/
  (exists r ps r' ps', signature target = Some (r, ps) /\ signature source = Some (r', ps') /\ equal_opt r r' /\ Forall2 equal_types ps ps').

Lemma found_decided target source :
  settles enough (or_else (assign_interface types K fuel target source)
             (or_else (assign_generic types K fuel target source) (assign_delegate types fuel target source)))
    (found_conversion target source).
Proof.
  apply settles_or; [apply assign_interface_decided|apply settles_or; [|apply assign_delegate_decided]].
  unfold assign_generic; destruct (details (types target)) as [|u map| |]; try (apply settles_false; naive_solver).
  eapply settles_iff; [apply settles_or; [apply constructed_decided|apply generic_delegate_decided]|naive_solver].
Qed.

Lemma implements_or_not t i : implements t i \/ ~ implements t i.
Proof.
  destruct (interfaces_spec U HU (S (size U)) t) as (ifaces & _ & _ & HI); [lia|].
  rewrite <- HI; destruct (decide (i ∈ ifaces)); auto.
Qed.

Lemma found_converts target source : found_conversion target source -> converts target source /\ ~ lost target source.
Proof.
  unfold lost; intros [[Hi H]|[(u & map & Hd & H)|(r & ps & r' & ps' & Hd & H)]].
  - split; [apply converts_interface; [exact Hi|]|tauto].
    destruct H as [H|[Ha H]]; [apply implements_provides, H|apply array_provides; assumption].
  - split; [|intros (Hi & _); unfold is_interface in Hi; rewrite Hd in Hi; discriminate].
    destruct H as [[Hi H]|(r & ps & r' & ps' & H)]; [eapply converts_constructed; eassumption|].
    eapply converts_generic_delegate; [exact Hd|apply H..].
  - split; [eapply converts_delegate; [exact Hd|apply H..]|].
    intros (Hi & _); unfold is_interface in Hi; unfold signature in Hd; destruct (details (types target)); discriminate.
Qed.

Lemma converts_found target source : target <> Any K -> source <> Null K -> converts target source -> ~ lost target source ->
  equal_types target source \/ found_conversion target source.
Proof.
  intros Ht Hs HC HL; inversion HC; subst;
    [|right; right; left; eauto 10|right; right; right; eauto 10|right; right; left; eauto 15].
  destruct (decide (target = source)) as [<-|He];
    [left; destruct (interface_declared target) as (k & Hk); [assumption|]; apply (equal_declared _ _ _ Hk); reflexivity|].
  right; left; split; [assumption|]; unfold lost, is_array in *.
  destruct (implements_or_not source target), (implements_or_not (Array K) target), (details (types source)); tauto.
Qed.

Lemma assignable_decided target source : settles enough (IsAssignableTo types K fuel (Some target) (Some source)) (accepted target source).
Proof.
  unfold IsAssignableTo; eapply settles_iff; [apply settles_or; [apply types_equal_decided|]|].
  - apply settles_iff with (P := target = Any K \/ (source = Null K /\ Inlining (types target) = ByReference) \/
      (target <> Any K /\ source <> Null K /\ found_conversion target source)); [|reflexivity].
    case_decide as Ha; [apply settles_true; auto|]; case_decide as Hn.
    + apply settles_bool; rewrite orb_true_iff, !bool_decide_eq_true; tauto.
    + eapply settles_iff; [apply found_decided|tauto].
  - unfold accepted, assignable; split.
    + intros [H|[H|[[H H']|(Ha & Hn & H)]]]; [|unfold lost; tauto..|apply found_converts in H; tauto].
      split; [tauto|]; intros (Hi & He & _); apply interface_declared in Hi as (k & Hi); apply (equal_declared _ _ _ Hi) in H; contradiction.
    + intros [[H|[H|[H|[Hn H]]]] HL]; [tauto..|]; destruct (decide (target = Any K)) as [Ha|Ha]; [tauto|].
      destruct (converts_found _ _ Ha Hn H HL); tauto.
Qed.

Lemma accepts_decided p a : settles enough (paramPredicate types K fuel p a) (accepted p a).
Proof.
  unfold paramPredicate; case_decide as Hp; [|apply assignable_decided].
  apply settles_true; unfold accepted, assignable, lost; tauto.
Qed.

End Decided.
End Facts.
