(* ===== verification/TypeSystemSpec.v ===== *)
(** * The relations between types: what they decide

    Equality of types is equality of the terms they denote; the interfaces of a type are
    those that can be reached; assignability is the relation [assignable], less the
    interfaces that are [lost]; an overload is the first candidate that fits.  The answers
    are right whenever there are any, and there are where no type is built from itself.
    At the end: where the code does not do what it means to. *)
From Stdlib Require Import ZArith Lia Bool List String.
From stdpp Require Import base list gmap sets option relations.
From S2P Require Import Prelude Tokens SyntaxFacts Effects TypeSystem TypeSystemFacts.
Import ListNotations.
Open Scope shard_scope.

(** C17: Equality of types answers yes, with enough fuel, exactly when both types denote
    one term, and never answers no when they do; and it ends when the parts of the left
    type nest less deep than the fuel.  A delegate that takes itself has parts without
    end, and its comparison has none ([recursive_delegate_diverges]). *)
Theorem types_equal_decides types l r :
  ((exists fuel, AreTypesEqual types fuel (Some l) (Some r) = Some true) <-> equal_types types l r) /\
  (forall fuel, AreTypesEqual types fuel (Some l) (Some r) = Some false -> ~ equal_types types l r) /\
  (forall fuel, built types fuel l -> AreTypesEqual types fuel (Some l) (Some r) <> None).
Proof.
  split; [split|split].
  - intros (fuel & H); apply (proj2 (equal_settled types fuel l r) true H); reflexivity.
  - intros HE; pose proof HE as (term & Hl & _); exists (height term).
    destruct (equal_settled types (height term) l r) as [HN HP]; specialize (HN (denotes_built types _ l term Hl (le_n _))).
    destruct (AreTypesEqual types (height term) (Some l) (Some r)) as [b|]; [|contradiction HN; reflexivity].
    f_equal; apply (HP b eq_refl), HE.
  - intros fuel H HE; apply (proj2 (equal_settled types fuel l r) false H) in HE; discriminate.
  - intros fuel; apply (equal_settled types fuel l r).
Qed.

(** C19: The collection of the interfaces of a type ends, also when interfaces extend
    each other in a circle, and lists each interface that can be reached once. *)
Theorem interfaces_exact types U fuel t : covers types U -> (size U < fuel)%nat ->
  exists ifaces, GetAllInterfaces types fuel t = Some ifaces /\ NoDup ifaces /\ forall i, i ∈ ifaces <-> implements types t i.
Proof. intros HU HS; exact (interfaces_spec types U HU fuel t HS). Qed.


(** C18: A lookup answers with the first member, in the order of declaration, that has the
    name and whose parameters accept the arguments one by one, and with none
    when no member has; the members of an array are those of the type of arrays.
    Constructed types have lookups of their own ([constructed_lookup]). *)
Theorem overloads_first_fit types K methods rank U fuel t name args :
  (forall u map, details (types t) <> GenericType u map) -> ranked types rank -> covers types U -> (forall t, (rank t < fuel)%nat) -> (size U < fuel)%nat ->
  (exists o, FindConstructor types methods K fuel t args = Some o /\
     first_fit (fits methods (accepted types K) (fun _ => true) args) (Constructors (types (lookup_type types K t))) o) /\
  (exists o, FindMethod types methods K fuel t name args = Some o /\
     first_fit (fits methods (accepted types K) (named name) args) (Methods (types (lookup_type types K t))) o) /\
  (exists o, FindIndexator types methods K fuel t args = Some o /\
     first_fit (fits methods (accepted types K) (fun _ => true) args) (Indexators (types (lookup_type types K t))) o).
Proof.
  intros _ HR HU HF HS; assert (HA : forall p a, decides (paramPredicate types K fuel p a) (accepted types K p a)).
  { intros p a; apply (settles_decides (enough types U fuel)); [split; [intros u; apply (ranked_built types rank fuel HR), HF|exact HS]|].
    apply accepts_decided, HU. }
  split; [|split]; apply find_symbol_first, HA.
Qed.

(** A member of a constructed type is one of its declaration whose parameters, with
    the captured arguments for the type parameters, are the types of the arguments. *)
Definition fits_constructed types K (map : gmap TypeId TypeId) (p a : TypeId) : Prop :=
  p = Any K \/ equal_opt types (if is_type_parameter types p then map !! p else Some p) (Some a).

Lemma constructed_lookup types K methods rank fuel captured u map name args :
  ranked types rank -> (forall t, (rank t < fuel)%nat) ->
  let map' := default map captured in
  exists o, GenericFindMethod types methods K fuel captured u map name args = (Some o, Some map') /\
    first_fit (fits methods (fits_constructed types K map') (named name) args) (Methods (types u)) o.
Proof.
  intros HR HF map'; destruct (find_symbol_first methods (named name) (generic_predicate types K fuel map')
    (fits_constructed types K map') (Methods (types u)) args) as (o & Ho & HX).
  - intros p a; unfold generic_predicate, fits_constructed; case_decide as Hp; [apply settles_true; auto|].
    assert (HB : forall t, built types fuel t) by (intros t; apply (ranked_built types rank fuel HR), HF).
    eapply settles_iff; [apply optional_settled; intros _; exact HB|tauto].
  - exists o; split; [|exact HX]; unfold GenericFindMethod; rewrite <- Ho; reflexivity.
Qed.

(** ** A small program *)
Definition symbol (d : Details) (interfaces parameters : list TypeId) : TypeSymbol :=
  mkTypeSymbol (L "T") d interfaces parameters ByReference [] [] [] [] ∅.
Definition plain : TypeSymbol := symbol (DeclaredType ClassDeclaration) [] [].

(** 1 to 6: any, null, the type of arrays, [IEnumerable<7>], integers and strings.
    8: [class Box<9> : IPrintable, IKeyed<9>] with a method and an indexer over 9;
    10: [IPrintable]; 11: [IKeyed<12>]; 13: [IKeyed<9>].
    14 and 15: [Box<integer>] bound twice; 16: [Box<string>]; 17: [IKeyed<integer>];
    18: [Box<integer>[]]; 19 and 20: interfaces that extend each other. *)
Definition program : gmap TypeId TypeSymbol := list_to_map [
  (4, symbol (DeclaredType InterfaceDeclaration) [] [7]);
  (7, symbol (DeclaredType TypeParameter) [] []);
  (8, mkTypeSymbol (L "Box") (DeclaredType ClassDeclaration) [10; 13] [9] ByReference [] [1] [] [1] ∅);
  (9, symbol (DeclaredType TypeParameter) [] []);
  (10, symbol (DeclaredType InterfaceDeclaration) [] []);
  (11, symbol (DeclaredType InterfaceDeclaration) [] [12]);
  (12, symbol (DeclaredType TypeParameter) [] []);
  (13, symbol (GenericType 11 {[ 12 := 9 ]}) [] []);
  (14, symbol (GenericType 8 {[ 9 := 5 ]}) [] []);
  (15, symbol (GenericType 8 {[ 9 := 5 ]}) [] []);
  (16, symbol (GenericType 8 {[ 9 := 6 ]}) [] []);
  (17, symbol (GenericType 11 {[ 12 := 5 ]}) [] []);
  (18, symbol (ArrayType (Some 14)) [] []);
  (19, symbol (DeclaredType InterfaceDeclaration) [20] []);
  (20, symbol (DeclaredType InterfaceDeclaration) [19] [])]%positive.

Definition sample (t : TypeId) : TypeSymbol := default plain (program !! t).
Definition known : KnownTypes := (mkKnown 1 2 3 4 21 5 22 23 6 24)%positive.
(** One member: [f] over 9, and one over [any] for the others. *)
Definition member (m : MethodId) : MethodSymbol := mkMethodSymbol (L "f") [if decide (m = 1%positive) then 9%positive else 1%positive] None.

Definition depth (t : TypeId) : nat :=
  match details (sample t) with DeclaredType _ => 0 | ArrayType _ => 2 | _ => 1 end.
Definition reached : gset TypeId := {[10; 13; 19; 20]}%positive.

(** A property of all types is checked on those of the program and on [plain]. *)
Lemma sample_all (P : TypeId -> TypeSymbol -> bool) :
  forallb (fun e => P (fst e) (snd e)) (map_to_list program) = true -> (forall t, P t plain = true) -> forall t, P t (sample t) = true.
Proof.
  intros HP HD t; unfold sample; destruct (program !! t) as [s|] eqn:Ht; [|apply HD].
  rewrite forallb_forall in HP; apply (HP (t, s)), list_elem_of_In, elem_of_map_to_list, Ht.
Qed.

Definition parts_shallow (t : TypeId) (s : TypeSymbol) : bool :=
  match details s with
  | DeclaredType _ => true
  | GenericType u map => forallb (fun p => (depth p <? 1)%nat) (u :: omap id (arguments map (TypeParameters (sample u))))
  | ArrayType u => forallb (fun p => (depth p <? 2)%nat) (option_list u)
  | DelegateType r ps => forallb (fun p => (depth p <? 1)%nat) (option_list r ++ ps)
  end.

Definition interfaces_reached (t : TypeId) (s : TypeSymbol) : bool := forallb (fun i => bool_decide (i ∈ reached)) (Interfaces s).

Lemma sample_ranked : ranked sample depth.
Proof.
  intros t p Hp; assert (H : parts_shallow t (sample t) = true) by (apply sample_all; [vm_compute|]; reflexivity).
  unfold parts_shallow in H; unfold parts in Hp; unfold depth at 2; destruct (details (sample t)); [contradiction|..];
    rewrite forallb_forall in H; apply H, Nat.ltb_lt in Hp; exact Hp.
Qed.

Lemma sample_covers : covers sample reached.
Proof.
  intros t i Hi; assert (H : interfaces_reached t (sample t) = true) by (apply sample_all; [vm_compute|]; reflexivity).
  unfold interfaces_reached in H; rewrite forallb_forall in H; apply H, bool_decide_eq_true in Hi; exact Hi.
Qed.

Lemma sample_depth t : (depth t < 10)%nat.
Proof. unfold depth; destruct (details (sample t)); lia. Qed.

Lemma sample_built t : built sample 10 t.
Proof. apply (ranked_built sample depth 10 sample_ranked), sample_depth. Qed.

(** ** Where the code does not do what it means to *)

(** A delegate that takes itself is not equal to itself: the comparison never ends. *)
Example recursive_delegate_diverges types d r k fuel :
  details (types d) = DelegateType (Some r) [d] -> details (types r) = DeclaredType k ->
  AreTypesEqual types fuel (Some d) (Some d) = None.
Proof.
  intros Hd Hr; induction fuel as [|fuel IH]; [reflexivity|]; simpl; rewrite Hd; simpl; rewrite IH.
  destruct fuel; simpl; [reflexivity|]; rewrite Hr, bool_decide_true by reflexivity; reflexivity.
Qed.

(** A constructed class has the constructed interfaces of its declaration and not the
    others, though its values are values of these too. *)
Example declared_interface_lost :
  IsAssignableTo sample known 10 (Some 17%positive) (Some 14%positive) = Some true /\
  IsAssignableTo sample known 10 (Some 10%positive) (Some 8%positive) = Some true /\
  IsAssignableTo sample known 10 (Some 10%positive) (Some 14%positive) = Some false /\
  assignable sample known 10%positive 14%positive.
Proof.
  repeat split; [vm_compute; reflexivity..|]; right; right; right; split; [discriminate|].
  apply converts_interface; [reflexivity|]; apply tc_once; right; vm_compute; auto.
Qed.

(** The first constructed type whose indexer is looked up decides for all: after
    [Box<integer>], the indexer of [Box<string>] takes integers and no strings. *)
Example captured_arguments :
  let box_int := {[ 9%positive := 5%positive ]} in let box_string := {[ 9%positive := 6%positive ]} in
  let (_, captured) := GenericFindIndexator sample member known 10 None 8%positive box_int [5%positive] in
  fst (GenericFindIndexator sample member known 10 None 8%positive box_string [6%positive]) = Some (Some 1%positive) /\
  fst (GenericFindIndexator sample member known 10 captured 8%positive box_string [6%positive]) = Some None /\
  fst (GenericFindIndexator sample member known 10 captured 8%positive box_string [5%positive]) = Some (Some 1%positive).
Proof. vm_compute; auto. Qed.

(** The search for an implementation keeps no set of visited interfaces: on interfaces
    that extend each other it never ends. *)
Example circular_search_diverges fuel m :
  FindInterfaceImplementation sample known fuel 19%positive m = None /\ FindInterfaceImplementation sample known fuel 20%positive m = None.
Proof.
  induction fuel as [|fuel [H19 H20]]; [auto|].
  change (FindInterfaceImplementation sample known (S fuel) 19%positive m) with
    (match FindInterfaceImplementation sample known fuel 20%positive m with Some None => Some None | answer => answer end).
  change (FindInterfaceImplementation sample known (S fuel) 20%positive m) with
    (match FindInterfaceImplementation sample known fuel 19%positive m with Some None => Some None | answer => answer end).
  rewrite H19, H20; auto.
Qed.

(** ** Witnesses *)
Lemma types_equal_decides_witness :
  (exists fuel, AreTypesEqual sample fuel (Some 14%positive) (Some 15%positive) = Some true) /\ equal_types sample 14%positive 15%positive /\
  ~ equal_types sample 14%positive 16%positive /\
  AreTypesEqual sample 10 (Some 18%positive) (Some 14%positive) <> None.
Proof.
  pose proof (types_equal_decides sample 14%positive 15%positive) as (HT & _).
  assert (H : exists fuel, AreTypesEqual sample fuel (Some 14%positive) (Some 15%positive) = Some true) by (exists 10%nat; vm_compute; reflexivity).
  repeat split; [exact H|apply HT, H| |].
  - apply (proj1 (proj2 (types_equal_decides sample 14%positive 16%positive)) 10%nat); vm_compute; reflexivity.
  - apply (proj2 (proj2 (types_equal_decides sample 18%positive 14%positive)) 10%nat), sample_built.
Defined.

Lemma interfaces_exact_witness :
  GetAllInterfaces sample 10 19%positive = Some [20; 19]%positive /\ implements sample 19%positive 19%positive.
Proof.
  destruct (interfaces_exact sample reached 10 19%positive sample_covers) as (ifaces & H & _ & HI); [vm_compute; lia|].
  assert (Hi : GetAllInterfaces sample 10 19%positive = Some [20; 19]%positive) by (vm_compute; reflexivity).
  split; [exact Hi|]; apply HI; rewrite Hi in H; injection H as <-; set_solver.
Defined.


Lemma overloads_first_fit_witness :
  first_fit (fits member (accepted sample known) (named (L "f")) [9%positive]) [1%positive] (Some 1%positive).
Proof.
  destruct (overloads_first_fit sample known member depth reached 10 8%positive (L "f") [9%positive] ltac:(discriminate) sample_ranked sample_covers sample_depth)
    as (_ & (o & H & HF) & _); [vm_compute; lia|].
  vm_compute in H; injection H as <-; exact HF.
Defined.
